(* ===== verification/_CoqProject ===== *)
-Q . S2P
Prelude.v
Clock.v
Json.v
Types.v
Digest.v
State.v
Apply.v
ChangeFeed.v
Staging.v
Ledger.v
Meter.v
Wire.v
Receipts.v
Snapshot.v
Permanent.v
Restore.v
Accounting.v
Capacity.v
Mutate.v
Reserve.v
Scalars.v
Cancellation.v
Indexes.v
Filters.v
Candidates.v
Memory.v
QueryWire.v
