(* ===== verification/Prelude.v ===== *)
(** * A verification development for the Kasumi document database

    Kasumi keeps one replicated state per tenant: collections of JSON documents
    with an audit log, a change feed, staged transactions and permanent
    receipts.  Commands reach a tenant in one total order and are applied by
    deterministic code, so the correctness of the database rests on pure
    functions over the tenant state.  This development models those functions
    and proves what they promise.

    ** The parts of the program and the files that model them

    - [Prelude.v]: Rust results and early returns, the state-and-error monad
      [ST] of functions that take [&mut] state and return a [Result] (a failed
      function keeps the writes it made before it failed), checked and
      saturating machine integers, ordered iteration of maps and sets, sums.
    - [Clock.v]: crates/kasumi-clock, the elapsed deadlines and the floor of
      UTC time.  Clock readings are the inputs of the operations.
    - [Json.v]: literal JSON values, the compact writer of the vendored
      serde_json, the canonical encoding, merge patches and exact decoding
      (crates/kasumi-types: canonical_json.rs, exact_json.rs, lib.rs).
    - [Types.v]: the durable data of crates/kasumi-types with its serde
      encoding: tenant state, commands, mutations, receipts, staged
      transactions, change feed, audit, policy, limits.
    - [Digest.v]: SHA-256 identities over that encoding, stored-document
      descriptors and their authentication.
    - [State.v]: authorization, limits, policy and the audit log
      (crates/kasumi-engine: state.rs, accounting.rs, lifecycle_state.rs).
    - [Apply.v]: mutation batches, read assertions and the document part of
      the restored-snapshot check (state.rs).
    - [ChangeFeed.v]: publication, retention and pages of the change feed
      (change_feed_state.rs, change_feed.rs, accounting.rs).
    - [Staging.v]: the life of a staged transaction (staging.rs).
    - [Ledger.v]: identities, keys and exact reads of permanent rows
      (staged_terminal.rs, current_json.rs).
    - [Receipts.v]: permanent mutation receipts, their hash chain, views,
      rebuild through a staging table and crash-safe publication
      (mutation_receipt.rs; kasumi-store: scratch_table.rs).
    - [Wire.v]: the serde encoding of the whole tenant state (kasumi-types).
    - [Meter.v]: the meter that bounds the memory of a decode
      (snapshot_record_work.rs).
    - [Permanent.v]: how the heads of the staged terminals, target resolutions
      and backup bindings count their rows, and the limit of a snapshot
      (staged_terminal.rs, target_resolution.rs, backup_binding.rs).
    - [Snapshot.v], [Restore.v]: the records of a snapshot, the framed and
      hashed stream, its inspection and visit, and the restore of a state
      (snapshot_codec.rs, backup_binding.rs, target_resolution.rs).
    - [Accounting.v]: the incremental byte accounting of a state and the
      capacity it must leave free (accounting.rs, lifecycle_state.rs).
    - [Capacity.v]: the accounting, the heads and the limit against the stream
      of the codec.
    - [Mutate.v]: the ordered mutation command that composes all of the above
      (mutation_apply.rs); [Reserve.v]: the capacity its permit reserves.
    - [Scalars.v], [Cancellation.v]: the typed scalars and JSON Pointers of
      queries, and work that observes a cancellation token, with its heapsort
      (crates/kasumi-query: scalar.rs, cancellation.rs).
    - [Indexes.v]: field and unique indexes, built and updated
      (structured.rs, index_input.rs).
    - [Filters.v]: the filter language with its builder (kasumi-types:
      query.rs), its plans and its evaluation; [Candidates.v]: the selection
      of candidates over indexes, complements and scans (structured.rs,
      document_source.rs).
    - [Memory.v]: the ledger of query memory and the clone charges
      (workspace.rs, allocation.rs).
    - [QueryWire.v]: the JSON form of query requests (query.rs).

    A command is authorized ([State.v]), checked against its read set and
    applied ([Apply.v], or [Staging.v] for large transactions, which ends in
    the same [apply_mutations]); the changed documents are published
    ([ChangeFeed.v]); an audit event is appended ([State.v]); the snapshot
    accounting is carried to the new state and checked against the budgets
    ([Accounting.v]); and the outcome is recorded in a permanent receipt
    ([Receipts.v]).  [Mutate.v] is this sequence for a mutation.  Identities of
    batches, chunks and documents are digests of the encoding ([Digest.v],
    [Json.v]); a state leaves and enters a replica as a stream of records
    ([Snapshot.v], [Restore.v]).  A query is read from JSON ([QueryWire.v]), its
    filter is planned ([Filters.v]) and answered from the indexes that the
    documents maintain ([Indexes.v], [Candidates.v]).

    ** Correspondence

    A Rust struct is a [Record] with the same fields, an enum an [Inductive]
    with the same constructors; a field name used by several structs has a
    short prefix.  [u64] and [usize] are [N]; arithmetic that the code checks
    is [checked_add], [checked_sub] with the code's error, and arithmetic that
    the code leaves unchecked is exact (the bounds proved of the operands show
    where it cannot overflow).  [BTreeMap], [imbl::OrdMap] and [BTreeSet] are
    [gmap] and [gset] with iteration in key order ([map_iter], [set_iter]).
    A loop is a fold over the iterated list.  The loops that are not structural
    have fuel: [trim] one more than the number of retained commits
    ([trim_keeps_longest_suffix] shows that it ends within it), the loops over
    a stream its length (every frame and every chunk has at least a byte; the
    theorems on the meter and on streams are about the results of the loops,
    so the fuel is shown to be enough), and the decimal logarithm twenty, the
    digits of a [u64].
    Sub-states of components that are not modelled are carried as JSON values.

    Code outside the repository and code that is not modelled are parameters,
    as type classes: SHA-256 ([Sha256]), UUID syntax ([UuidParse]), compiled
    schemas ([QueryRules]), index validation and maintenance ([IndexRules],
    [IndexUpdates]), query memory ([FeedWorkspace]), deserializers
    ([FromSlice]), the scratch tables of documents ([DocumentTables]), the other
    permanent histories ([History]), the validation of recovery records
    ([RecordRules]), pointer comparison ([Sharing] and [SharedRoots], with
    their laws), the completion of a control change ([CompletedMetadata]),
    exact decimals ([Decimals]), the source that lends documents to a query
    ([LendingSource]), the sizes of Rust values ([Layout]) and the provider of
    query memory ([QueryWorkspace], with its laws).  Injectivity of SHA-256 is never assumed; where a
    theorem needs two digests not to collide, the two inputs are named in a
    [no_collision] hypothesis.

    ** What the theorems show

    - Transactions: a snapshot read and its read set are serializable against
      any later history; a batch does exactly what its mutations say or
      nothing; immutable documents stay; receipts name the targets; the
      restored-snapshot check keeps passing.
    - Staged transactions: identities and outcomes are permanent, accounting
      and budgets stay exact, finalizing is atomic and applies exactly the
      declared payload, and an accepted upload can always be ended within the
      capacity it reserved.
    - Mutation commands: a batch is applied at most once under its key and its
      answer is permanent, over any sequence of commands; and an admitted batch
      that is rejected always finds room for its receipt and its audit event.
    - Receipts: publication is crash safe, a rebuilt history that the head
      accepts has distinct identities and is the original one by identity and
      by ordinal, and every valid history is accepted.
    - Snapshots: a written snapshot restores exactly its state; a visited
      stream is exactly the encoding of its records; the meter is exact for
      every chunking; the incremental accounting equals a rebuild; the length of
      the stream is what the accounting charges and the rows with budgets of
      their own, so a state that fits writes within the snapshot limit.
    - Change feed: a commit replays the documents of its batch, pages are
      complete and ordered and make progress, retention keeps the longest
      suffix within the limits, and the feed stays restorable.
    - Queries: an accepted JSON request is well formed and every well-formed
      request is read back from its JSON; the builder and the plan of a filter
      keep its meaning; updating indexes is the same as rebuilding them; and
      the candidates of a filter are exactly the documents it accepts, whenever
      nothing cancels and the budget suffices.  The heapsort ends and sorts.
      Nested scopes keep the memory ledger balanced.
    - Authorization, audit, digests, JSON and time: the exact condition under
      which a request is accepted, an append-only verifiable audit log,
      identification by canonical bytes, RFC 7396, and deadlines that a
      clock rollback cannot extend.

    ** Not modelled

    Asynchronous services, workers, admission of resources, files, ciphers,
    signatures, the network and the consensus library: they are I/O around the
    ordered state.  A restore is modelled without the reopening of published
    rows in place.  Schema activation, history archives, recovery, retirement,
    lifecycle control and target activation are ordered state machines that
    are not reached yet; nor are the rest of kasumi-query (ordering, pages,
    aggregates, projections, text search, seek paging, compiled schemas, memory
    estimates and replay digests), the embedded key-value store (kasumi-kv), and
    the dispatcher of the other ordered commands.  [QueryWire.v] starts from the
    tree of a JSON text: the text parser and its nesting limit are serde_json's. *)

From Stdlib Require Export Ascii ZifyN.
From stdpp Require Export base strings sorting pretty numbers option gmap list.

#[global] Open Scope N_scope.

(** ** Results and early returns *)

(** [std::result::Result<A, E>]. *)
Inductive result (E A : Type) : Type :=
| Ok (a : A)
| Err (e : E).
Arguments Ok {_ _} _.
Arguments Err {_ _} _.

#[export] Instance result_ret {E} : MRet (result E) := λ A a, Ok a.
#[export] Instance result_bind {E} : MBind (result E) := λ A B f m,
  match m with Ok a => f a | Err e => Err e end.
#[export] Instance result_fmap {E} : FMap (result E) := λ A B f m,
  match m with Ok a => Ok (f a) | Err e => Err e end.

#[export] Instance result_eq_dec {E A} `{EqDecision E, EqDecision A} :
  EqDecision (result E A).
Proof. solve_decision. Defined.

(** The early return [if b { return Err(e) }]. *)
Definition reject_if {E} (b : bool) (e : E) : result E unit :=
  if b then Err e else Ok tt.

(** [Option::ok_or]. *)
Definition ok_or {E A} (o : option A) (e : E) : result E A :=
  match o with Some a => Ok a | None => Err e end.

(** [Result::map_err]. *)
Definition map_err {E F A} (f : E → F) (r : result E A) : result F A :=
  match r with Ok a => Ok a | Err e => Err (f e) end.

Definition is_ok {E A} (r : result E A) : bool :=
  match r with Ok _ => true | Err _ => false end.

(** The value of a computation known to succeed. *)
Definition the {E A} (r : result E A) : is_ok r = true → A :=
  match r with
  | Ok a => λ _, a
  | Err _ => λ H, False_rect A (diff_false_true H)
  end.

(** [for x in l { f(acc, x)? }]: a loop that threads an accumulator and stops
    at the first error. *)
Fixpoint try_fold {E A B} (f : B → A → result E B) (acc : B) (l : list A) :
    result E B :=
  match l with
  | [] => Ok acc
  | x :: l' => acc' ← f acc x; try_fold f acc' l'
  end.

(** [for x in l { f(x)? }]. *)
Definition try_for_each {E A} (f : A → result E unit) (l : list A) :
    result E unit :=
  try_fold (λ _ x, f x) tt l.

(** ** Code that mutates through a reference and may fail

    A Rust function [fn f(s: &mut S) -> Result<A, E>] is a function from the
    state it finds to the state it leaves and its result.  An error does not
    undo the writes made before it, exactly as in the source; callers that
    want all-or-nothing behaviour work on a clone. *)
Definition ST (S E A : Type) : Type := S → S * result E A.

#[export] Instance ST_ret {S E} : MRet (ST S E) := λ A a s, (s, Ok a).
#[export] Instance ST_bind {S E} : MBind (ST S E) := λ A B f m s,
  match m s with
  | (s', Ok a) => f a s'
  | (s', Err e) => (s', Err e)
  end.

Definition st_get {S E} : ST S E S := λ s, (s, Ok s).
Definition st_put {S E} (s' : S) : ST S E unit := λ _, (s', Ok tt).
Definition st_modify {S E} (f : S → S) : ST S E unit := λ s, (f s, Ok tt).
Definition st_lift {S E A} (r : result E A) : ST S E A := λ s, (s, r).

(** A loop over a list with a local accumulator beside the state. *)
Fixpoint st_fold {S E A B} (f : B → A → ST S E B) (acc : B) (l : list A) :
    ST S E B :=
  match l with
  | [] => mret acc
  | x :: l' => acc' ← f acc x; st_fold f acc' l'
  end.

(** ** Machine integers

    [u64] and [usize] (the supported targets are 64-bit) are [N]; an operation
    that can leave the range says what the source does there. *)
Definition u64_max : N := 18446744073709551615.

Definition checked_add (a b : N) : option N :=
  if a + b <=? u64_max then Some (a + b) else None.
Definition checked_sub (a b : N) : option N :=
  if b <=? a then Some (a - b) else None.
Definition checked_mul (a b : N) : option N :=
  if a * b <=? u64_max then Some (a * b) else None.
Definition saturating_add (a b : N) : N := N.min (a + b) u64_max.
Definition saturating_mul (a b : N) : N := N.min (a * b) u64_max.

(** [slice.len()] and [map.len()] as [usize]. *)
Definition len {A} (l : list A) : N := N.of_nat (length l).

(** [String::len], the number of UTF-8 bytes: strings are byte strings. *)
Definition str_len (s : string) : N := N.of_nat (String.length s).

(** ** Ordered maps and sets

    [BTreeMap], [BTreeSet] and [imbl]'s ordered collections are [gmap] and
    [gset]; iteration visits keys in increasing order. *)
Class OrdKey (K : Type) `{Countable K} := {
  key_le : relation K;
  #[global] key_le_dec :: RelDecision key_le;
  #[global] key_le_total :: Total key_le;
  #[global] key_le_po :: PartialOrder key_le;
}.

#[export] Instance string_ord_key : OrdKey string := {| key_le := String.le |}.

#[export] Instance N_ord_key : OrdKey N := {| key_le := N.le |}.

Definition entry_le {K V} `{OrdKey K} (x y : K * V) : Prop := key_le x.1 y.1.

#[export] Instance entry_le_dec {K V} `{OrdKey K} :
  RelDecision (entry_le (K := K) (V := V)).
Proof. intros x y. unfold entry_le. apply _. Defined.

(** The entries of a map in key order. *)
Definition map_iter {K V} `{OrdKey K} (m : gmap K V) : list (K * V) :=
  merge_sort entry_le (map_to_list m).

Definition map_keys {K V} `{OrdKey K} (m : gmap K V) : list K := (map_iter m).*1.
Definition map_values {K V} `{OrdKey K} (m : gmap K V) : list V := (map_iter m).*2.

(** The elements of a set in order. *)
Definition set_iter {K} `{OrdKey K} (s : gset K) : list K :=
  merge_sort key_le (elements s).

(** [OrdMap::get_min]. *)
Definition get_min {K V} `{OrdKey K} (m : gmap K V) : option (K * V) :=
  head (map_iter m).

(** [str::starts_with]. *)
Definition starts_with (s p : string) : bool := String.prefix p s.

(** ** Lemmas on results *)

Section result_lemmas.
Context {E : Type}.

Lemma bind_Ok {A B} (m : result E A) (f : A → result E B) b :
  m ≫= f = Ok b ↔ ∃ a, m = Ok a ∧ f a = Ok b.
Proof. destruct m; split; [eauto | naive_solver | done | naive_solver]. Qed.

Lemma seq_Ok {B} (m : result E unit) (r : result E B) b :
  (m;; r) = Ok b ↔ m = Ok tt ∧ r = Ok b.
Proof. destruct m as [[]|]; naive_solver. Qed.

Lemma bind_Err {A B} (m : result E A) (f : A → result E B) e :
  m ≫= f = Err e ↔ m = Err e ∨ ∃ a, m = Ok a ∧ f a = Err e.
Proof. destruct m; simpl; naive_solver. Qed.

Lemma bind_Ok_l {A B} (a : A) (f : A → result E B) : Ok a ≫= f = f a.
Proof. done. Qed.

Lemma bind_Err_l {A B} (e : E) (f : A → result E B) : Err e ≫= f = Err e.
Proof. done. Qed.

Lemma reject_if_pass {B} (b : bool) (e : E) (f : unit → result E B) :
  b = false → reject_if b e ≫= f = f tt.
Proof. by intros ->. Qed.

Lemma fmap_Ok {A B} (m : result E A) (f : A → B) b :
  f <$> m = Ok b ↔ ∃ a, m = Ok a ∧ b = f a.
Proof. destruct m; simpl; naive_solver. Qed.

Lemma reject_if_Ok (b : bool) (e : E) u : reject_if b e = Ok u ↔ b = false.
Proof. destruct b, u; naive_solver. Qed.

Lemma reject_if_Err (b : bool) (e e' : E) :
  reject_if b e = Err e' ↔ b = true ∧ e' = e.
Proof. destruct b; naive_solver. Qed.

Lemma ok_or_Ok {A} (o : option A) (e : E) a : ok_or o e = Ok a ↔ o = Some a.
Proof. destruct o; naive_solver. Qed.

Lemma ok_or_Err {A} (o : option A) (e e' : E) :
  ok_or o e = Err e' ↔ o = None ∧ e' = e.
Proof. destruct o; naive_solver. Qed.

Lemma is_ok_Ok {A} (r : result E A) : is_ok r = true → ∃ a, r = Ok a.
Proof. destruct r; [eauto|done]. Qed.

Lemma map_err_Ok {F A} (f : F → E) (r : result F A) a :
  map_err f r = Ok a ↔ r = Ok a.
Proof. destruct r; naive_solver. Qed.

Lemma try_fold_nil {A B} (f : B → A → result E B) acc : try_fold f acc [] = Ok acc.
Proof. done. Qed.

Lemma try_fold_cons {A B} (f : B → A → result E B) acc x l :
  try_fold f acc (x :: l) = f acc x ≫= λ acc', try_fold f acc' l.
Proof. done. Qed.

Lemma try_fold_app {A B} (f : B → A → result E B) l1 l2 acc :
  try_fold f acc (l1 ++ l2) = try_fold f acc l1 ≫= λ acc', try_fold f acc' l2.
Proof.
  revert acc. induction l1 as [|x l1 IH]; intros acc; simpl; [done|].
  destruct (f acc x); simpl; auto.
Qed.

Lemma try_fold_fmap {A B X} (f : X → B → result E X) (g : A → B) (l : list A) (x : X) :
  try_fold f x (g <$> l) = try_fold (λ x a, f x (g a)) x l.
Proof.
  revert x. induction l as [|a l IH]; intros x; [done|]. rewrite fmap_cons, !try_fold_cons.
  destruct (f x (g a)); [apply IH|done].
Qed.

(** An invariant of the accumulator that each iteration keeps. *)
Lemma try_fold_ind {A B} (P : B → Prop) (f : B → A → result E B) l acc acc' :
  P acc →
  (∀ x b b', x ∈ l → P b → f b x = Ok b' → P b') →
  try_fold f acc l = Ok acc' → P acc'.
Proof.
  revert acc. induction l as [|x l IH]; intros acc HP Hstep Hf; simpl in Hf.
  - by simplify_eq.
  - apply bind_Ok in Hf as (b & Hb & Hf).
    eapply (IH b); [|intros; eapply Hstep; eauto; by right|done].
    eapply Hstep; [by left|done|done].
Qed.

Lemma try_for_each_Ok {A} (f : A → result E unit) l :
  try_for_each f l = Ok tt ↔ ∀ x, x ∈ l → f x = Ok tt.
Proof.
  unfold try_for_each. induction l as [|x l IH]; simpl.
  - split; [|done]. intros _ x Hx. by apply elem_of_nil in Hx.
  - rewrite bind_Ok. setoid_rewrite elem_of_cons. split.
    + intros ([] & Hx & Hl) y [->|Hy]; [done|]. by apply IH.
    + intros Hall. exists tt. split; [by apply Hall; left|].
      apply IH. intros y Hy. apply Hall. by right.
Qed.
End result_lemmas.

Section st_lemmas.
Context {S E : Type}.

Lemma st_bind_Ok {A B} (m : ST S E A) (f : A → ST S E B) s s' b :
  (m ≫= f) s = (s', Ok b) ↔
  ∃ s1 a, m s = (s1, Ok a) ∧ f a s1 = (s', Ok b).
Proof.
  unfold mbind, ST_bind. destruct (m s) as [s1 [a|e]] eqn:Hm; split.
  - intros H. exists s1, a. auto.
  - intros (s2 & a' & H & Hf). by simplify_eq.
  - intros H. simplify_eq.
  - intros (s2 & a' & H & Hf). simplify_eq.
Qed.

Lemma st_bind_inv {A B} (m : ST S E A) (f : A → ST S E B) s s' r :
  (m ≫= f) s = (s', r) →
  (∃ e, m s = (s', Err e) ∧ r = Err e) ∨ ∃ s1 a, m s = (s1, Ok a) ∧ f a s1 = (s', r).
Proof. unfold mbind, ST_bind. destruct (m s) as [s1 [a|e]] eqn:Hm; naive_solver. Qed.

(** Running a computation whose first step is known. *)
Lemma st_bind_run {A B} (m : ST S E A) (f : A → ST S E B) s s1 a :
  m s = (s1, Ok a) → (m ≫= f) s = f a s1.
Proof. unfold mbind, ST_bind. by intros ->. Qed.

Lemma st_bind_get {B} (f : S → ST S E B) s : (st_get ≫= f) s = f s s.
Proof. done. Qed.

Lemma st_bind_modify {B} (g : S → S) (f : unit → ST S E B) s :
  (st_modify g ≫= f) s = f tt (g s).
Proof. done. Qed.

Lemma st_bind_lift {A B} (r : result E A) (f : A → ST S E B) s a :
  r = Ok a → (st_lift r ≫= f) s = f a s.
Proof. by intros ->. Qed.

Lemma st_lift_Ok {A} (r : result E A) (s s' : S) a :
  st_lift r s = (s', Ok a) ↔ s' = s ∧ r = Ok a.
Proof. unfold st_lift. naive_solver. Qed.

Lemma st_ret_Ok {A} (a a' : A) (s s' : S) :
  (mret a : ST S E A) s = (s', Ok a') ↔ s' = s ∧ a' = a.
Proof. unfold mret, ST_ret. naive_solver. Qed.

Lemma st_get_Ok (s s' a : S) :
  (st_get : ST S E S) s = (s', Ok a) ↔ s' = s ∧ a = s.
Proof. unfold st_get. naive_solver. Qed.

Lemma st_put_Ok (t s s' : S) u :
  (st_put t : ST S E unit) s = (s', Ok u) ↔ s' = t.
Proof. unfold st_put. destruct u. naive_solver. Qed.

Lemma st_modify_Ok (f : S → S) (s s' : S) u :
  (st_modify f : ST S E unit) s = (s', Ok u) ↔ s' = f s.
Proof. unfold st_modify. destruct u. naive_solver. Qed.

Lemma st_fold_nil {A B} (f : B → A → ST S E B) acc s : st_fold f acc [] s = (s, Ok acc).
Proof. done. Qed.

Lemma st_fold_cons {A B} (f : B → A → ST S E B) acc x l s :
  st_fold f acc (x :: l) s = (f acc x ≫= λ acc', st_fold f acc' l) s.
Proof. done. Qed.

(** An invariant relating the state and the accumulator of a loop. *)
Lemma st_fold_ind {A B} (P : S → B → Prop) (f : B → A → ST S E B) l s acc s' acc' :
  P s acc →
  (∀ x s1 b1 s2 b2, x ∈ l → P s1 b1 → f b1 x s1 = (s2, Ok b2) → P s2 b2) →
  st_fold f acc l s = (s', Ok acc') → P s' acc'.
Proof.
  revert s acc. induction l as [|x l IH]; intros s acc HP Hstep Hf; simpl in Hf.
  - unfold mret, ST_ret in Hf. by simplify_eq.
  - apply st_bind_Ok in Hf as (s1 & b1 & H1 & H2).
    eapply (IH s1 b1); [|intros; eapply Hstep; eauto; by right|done].
    eapply Hstep; [by left|done|done].
Qed.
End st_lemmas.

(** ** Lemmas on machine integers *)

Lemma checked_add_Some a b c :
  checked_add a b = Some c ↔ c = a + b ∧ a + b ≤ u64_max.
Proof.
  unfold checked_add. destruct (N.leb_spec (a + b) u64_max); naive_solver lia.
Qed.

Lemma checked_sub_Some a b c :
  checked_sub a b = Some c ↔ c = a - b ∧ b ≤ a.
Proof. unfold checked_sub. destruct (N.leb_spec b a); naive_solver lia. Qed.

Lemma checked_sub_add a b c : checked_sub a b = Some c → c + b = a.
Proof. rewrite checked_sub_Some. lia. Qed.

Lemma len_app {A} (l1 l2 : list A) : len (l1 ++ l2) = len l1 + len l2.
Proof. unfold len. rewrite length_app. lia. Qed.

Lemma len_nil {A} : len (@nil A) = 0.
Proof. done. Qed.

Lemma len_cons {A} (x : A) l : len (x :: l) = 1 + len l.
Proof. unfold len. cbn [length]. lia. Qed.

Lemma str_len_cons c s : str_len (String c s) = 1 + str_len s.
Proof. unfold str_len. cbn [String.length]. lia. Qed.

Lemma str_len_app s1 s2 : str_len (s1 +:+ s2) = str_len s1 + str_len s2.
Proof.
  induction s1 as [|c s1 IH]; [done|].
  change (String c s1 +:+ s2) with (String c (s1 +:+ s2)).
  rewrite !str_len_cons, IH. lia.
Qed.

(** ** Lemmas on lists *)

Lemma Forall2_impl_l {A B} (P : A → Prop) (R Q : A → B → Prop) l k :
  Forall P l → Forall2 R l k → (∀ x y, P x → R x y → Q x y) → Forall2 Q l k.
Proof. intros HP HR HQ. induction HR; constructor; decompose_Forall; auto. Qed.

Lemma Forall2_compose {A B C} (P : A → Prop) (R : A → B → Prop) (Q : B → C → Prop)
    (T : A → C → Prop) l k m :
  Forall P l → Forall2 R l k → Forall2 Q k m →
  (∀ x y z, P x → R x y → Q y z → T x z) → Forall2 T l m.
Proof.
  intros HP HR. revert m. induction HR; intros m HQ HT; inversion HQ; subst;
    constructor; decompose_Forall; eauto.
Qed.

Lemma Forall2_fmap_eq {A B C} (f : A → C) (g : B → C) l k :
  Forall2 (λ x y, f x = g y) l k → f <$> l = g <$> k.
Proof. induction 1; csimpl; congruence. Qed.

Lemma forallb_ok {A} (f : A → bool) l : forallb f l = true ↔ Forall (λ x, f x = true) l.
Proof.
  induction l as [|x l IH]; simpl; [by rewrite Forall_nil|].
  by rewrite andb_true_iff, Forall_cons, IH.
Qed.

Lemma foldr_and_Forall {A} (P : A → Prop) l : foldr (λ x Q, P x ∧ Q) True l ↔ Forall P l.
Proof. induction l as [|x l IH]; simpl; [by rewrite Forall_nil|]. by rewrite Forall_cons, IH. Qed.

(** ** Lemmas on ordered iteration *)

Section map_iter_lemmas.
Context {K V : Type} `{OrdKey K}.
Implicit Types m : gmap K V.

#[export] Instance entry_le_total : Total (entry_le (K := K) (V := V)).
Proof. intros x y. unfold entry_le. apply (total key_le). Qed.

#[export] Instance entry_le_trans : Transitive (entry_le (K := K) (V := V)).
Proof. intros x y z. unfold entry_le. apply transitivity. Qed.

Lemma map_iter_perm m : map_iter m ≡ₚ map_to_list m.
Proof. apply merge_sort_Permutation. Qed.

Lemma map_iter_sorted m : StronglySorted entry_le (map_iter m).
Proof. apply (StronglySorted_merge_sort _). Qed.

Lemma elem_of_map_iter m k v : (k, v) ∈ map_iter m ↔ m !! k = Some v.
Proof. rewrite map_iter_perm. apply elem_of_map_to_list. Qed.

Lemma map_iter_NoDup m : NoDup (map_iter m).*1.
Proof. rewrite map_iter_perm. apply NoDup_fst_map_to_list. Qed.

Lemma map_iter_nil m : map_iter m = [] ↔ m = ∅.
Proof.
  split.
  - intros Hm. apply map_to_list_empty_iff, Permutation_nil_r.
    by rewrite <-Hm, map_iter_perm.
  - intros ->. unfold map_iter. by rewrite map_to_list_empty.
Qed.

(** Two sorted lists of entries with distinct keys that are permutations of
    each other are equal: iteration order is a function of the contents. *)
Lemma sorted_entries_unique (l1 l2 : list (K * V)) :
  StronglySorted entry_le l1 → StronglySorted entry_le l2 →
  NoDup l1.*1 → l1 ≡ₚ l2 → l1 = l2.
Proof.
  revert l2. induction l1 as [|[k v] l1 IH]; intros l2 Hs1 Hs2 Hnd Hp.
  - symmetry. by apply Permutation_nil_r.
  - destruct l2 as [|[k' v'] l2]; [by apply Permutation_nil_r in Hp|].
    apply StronglySorted_inv in Hs1 as [Hs1 Hall1].
    apply StronglySorted_inv in Hs2 as [Hs2 Hall2].
    assert (Hin : (k', v') ∈ (k, v) :: l1) by (rewrite Hp; by left).
    assert (Hin' : (k, v) ∈ (k', v') :: l2) by (rewrite <-Hp; by left).
    csimpl in Hnd.
    pose proof (NoDup_cons_1_1 _ _ Hnd) as Hk. apply NoDup_cons_1_2 in Hnd.
    assert (k = k') as ->.
    { apply elem_of_cons in Hin as [Heq|Hin]; [by simplify_eq|].
      apply elem_of_cons in Hin' as [Heq|Hin']; [by simplify_eq|].
      rewrite Forall_forall in Hall1, Hall2.
      apply (anti_symm key_le); [apply (Hall1 _ Hin)|apply (Hall2 _ Hin')]. }
    assert (v = v') as ->.
    { apply elem_of_cons in Hin as [Heq|Hin]; [by simplify_eq|].
      exfalso. apply Hk. apply list_elem_of_fmap. by exists (k', v'). }
    f_equal. apply IH; [done..|]. by apply Permutation_cons_inv in Hp.
Qed.

Lemma map_iter_unique m (l : list (K * V)) :
  StronglySorted entry_le l → l ≡ₚ map_to_list m → map_iter m = l.
Proof.
  intros Hs Hp. symmetry.
  apply sorted_entries_unique; [done|apply map_iter_sorted| |].
  - rewrite Hp. apply NoDup_fst_map_to_list.
  - by rewrite map_iter_perm.
Qed.

(** The least entry is first. *)
Lemma get_min_Some m k v :
  get_min m = Some (k, v) →
  m !! k = Some v ∧ ∀ k' v', m !! k' = Some v' → key_le k k'.
Proof.
  unfold get_min. intros Hh. apply head_Some in Hh as [l Hl].
  pose proof (map_iter_sorted m) as Hs. rewrite Hl in Hs.
  apply StronglySorted_inv in Hs as [_ Hall]. rewrite Forall_forall in Hall.
  split.
  - apply elem_of_map_iter. rewrite Hl. by left.
  - intros k' v' Hk'. apply elem_of_map_iter in Hk'. rewrite Hl in Hk'.
    apply elem_of_cons in Hk' as [Heq|Hin]; [by simplify_eq|apply (Hall _ Hin)].
Qed.

Lemma get_min_None m : get_min m = None ↔ m = ∅.
Proof. unfold get_min. rewrite head_None. apply map_iter_nil. Qed.

Lemma map_iter_delete_min m k v l :
  map_iter m = (k, v) :: l → map_iter (delete k m) = l.
Proof.
  intros Hl. pose proof (map_iter_sorted m) as Hs. pose proof (map_iter_perm m) as Hp.
  assert (Hk : m !! k = Some v) by (apply elem_of_map_iter; rewrite Hl; by left).
  rewrite Hl in Hs, Hp. apply map_iter_unique.
  - by apply StronglySorted_inv in Hs as [? _].
  - apply (Permutation_cons_inv (a := (k, v))). rewrite Hp.
    by rewrite <-map_to_list_delete.
Qed.

Lemma map_iter_insert_max m k v :
  m !! k = None → (∀ k' v', m !! k' = Some v' → key_le k' k) →
  map_iter (<[k := v]> m) = map_iter m ++ [(k, v)].
Proof.
  intros Hk Hmax. apply map_iter_unique.
  - apply StronglySorted_app_2; [|apply map_iter_sorted|repeat constructor].
    intros [k1 v1] [k2 v2] H1 H2. apply list_elem_of_singleton in H2. injection H2 as -> ->.
    by eapply Hmax, elem_of_map_iter.
  - rewrite map_to_list_insert by done. rewrite map_iter_perm. by rewrite Permutation_app_comm.
Qed.
End map_iter_lemmas.

(** Mapping the values keeps the order. *)
Lemma map_values_fmap {K V W} `{OrdKey K} (f : V → W) (m : gmap K V) :
  f <$> map_values m = map_values (f <$> m).
Proof.
  unfold map_values. rewrite (map_iter_unique (f <$> m) (prod_map id f <$> map_iter m)).
  - rewrite <-!list_fmap_compose. done.
  - pose proof (map_iter_sorted m) as Hs. induction Hs as [|kv l Hs IH Hall]; csimpl; constructor; [done|].
    apply Forall_fmap. eapply Forall_impl; [exact Hall|]. intros [k v]. done.
  - rewrite map_to_list_fmap, map_iter_perm. done.
Qed.

(** A set is visited once per element. *)
Lemma set_iter_NoDup {K} `{OrdKey K} (x : gset K) : NoDup (set_iter x).
Proof. unfold set_iter. rewrite merge_sort_Permutation. apply NoDup_elements. Qed.

Lemma set_iter_elem {K} `{OrdKey K} (x : gset K) k : k ∈ set_iter x ↔ k ∈ x.
Proof. unfold set_iter. rewrite merge_sort_Permutation. apply elem_of_elements. Qed.

(** ** Sums *)

Definition lsum {A} (f : A → N) (l : list A) : N := foldr (λ x n, f x + n) 0 l.

Lemma lsum_nil {A} (f : A → N) : lsum f [] = 0.
Proof. done. Qed.

Lemma lsum_cons {A} (f : A → N) x l : lsum f (x :: l) = f x + lsum f l.
Proof. done. Qed.

Lemma lsum_app {A} (f : A → N) l1 l2 : lsum f (l1 ++ l2) = lsum f l1 + lsum f l2.
Proof. unfold lsum. induction l1 as [|x l1 IH]; simpl; [lia|]. rewrite IH. lia. Qed.

#[export] Instance lsum_perm {A} (f : A → N) : Proper ((≡ₚ) ==> eq) (lsum f).
Proof. unfold lsum. induction 1; simpl in *; lia. Qed.

Lemma lsum_ext {A} (f g : A → N) l :
  (∀ x, x ∈ l → f x = g x) → lsum f l = lsum g l.
Proof.
  induction l as [|x l IH]; intros Hfg; [done|]. rewrite !lsum_cons, (Hfg x) by by left.
  rewrite IH; [done|]. intros y Hy. apply Hfg. by right.
Qed.

(** The sum of a function over the values of a map. *)
Definition msum {K V} `{Countable K} (f : V → N) (m : gmap K V) : N :=
  lsum (λ kv, f kv.2) (map_to_list m).

Section msum_lemmas.
Context {K V : Type} `{Countable K} (f : V → N).
Implicit Types m : gmap K V.

Lemma msum_empty : msum f (∅ : gmap K V) = 0.
Proof. unfold msum. by rewrite map_to_list_empty. Qed.

Lemma msum_insert_new m k v : m !! k = None → msum f (<[k := v]> m) = f v + msum f m.
Proof. intros Hk. unfold msum. by rewrite map_to_list_insert, lsum_cons. Qed.

Lemma msum_delete m k v : m !! k = Some v → msum f m = f v + msum f (delete k m).
Proof.
  intros Hk. rewrite <-(insert_delete_id m k v Hk) at 1.
  apply msum_insert_new, lookup_delete_eq.
Qed.

Lemma msum_insert_old m k v w :
  m !! k = Some w → msum f (<[k := v]> m) + f w = msum f m + f v.
Proof.
  intros Hk. rewrite (msum_delete m k w Hk), <-insert_delete_eq.
  rewrite msum_insert_new by apply lookup_delete_eq. lia.
Qed.

Lemma msum_lookup_le m k v : m !! k = Some v → f v ≤ msum f m.
Proof. intros Hk. rewrite (msum_delete m k v Hk). lia. Qed.
End msum_lemmas.

Lemma msum_size {K V} `{Countable K} (m : gmap K V) : msum (λ _, 1) m = N.of_nat (size m).
Proof.
  unfold msum. rewrite <-length_map_to_list. generalize (map_to_list m).
  intros l. induction l as [|x l IH]; [done|]. rewrite lsum_cons, IH. simpl. lia.
Qed.

Lemma msum_iter {K V} `{OrdKey K} (f : V → N) (m : gmap K V) :
  lsum (λ kv, f kv.2) (map_iter m) = msum f m.
Proof. unfold msum. by rewrite map_iter_perm. Qed.

(** A total over the entries of a map, weighted by key and value. *)
Definition wsum {K V} `{Countable K} (f : K → V → N) (m : gmap K V) : N :=
  lsum (λ kv, f kv.1 kv.2) (map_to_list m).

Section wsum.
Context {K V : Type} `{Countable K} (f : K → V → N).

Lemma wsum_empty : wsum f (∅ : gmap K V) = 0.
Proof. unfold wsum. by rewrite map_to_list_empty. Qed.

Lemma wsum_insert_new m k v : m !! k = None → wsum f (<[k := v]> m) = f k v + wsum f m.
Proof. intros Hk. unfold wsum. by rewrite map_to_list_insert. Qed.

Lemma wsum_delete m k v : m !! k = Some v → wsum f m = f k v + wsum f (delete k m).
Proof. intros Hk. unfold wsum. by rewrite <-(map_to_list_delete m k v Hk). Qed.

Lemma wsum_insert_old m k v w :
  m !! k = Some w → wsum f (<[k := v]> m) + f k w = f k v + wsum f m.
Proof.
  intros Hk. rewrite <-insert_delete_eq, (wsum_delete m k w Hk).
  rewrite wsum_insert_new by apply lookup_delete_eq. lia.
Qed.
End wsum.

Lemma wsum_iter {K V} `{OrdKey K} (f : K → V → N) (m : gmap K V) :
  lsum (λ kv, f kv.1 kv.2) (map_iter m) = wsum f m.
Proof. unfold wsum. by rewrite map_iter_perm. Qed.


(** A loop that adds two quantities per item, within a bound, and stops at the
    first item that fails its check. *)
Lemma try_fold_sums {E A} (step : N * N → A → result E (N * N)) (P : A → Prop)
    (f g : A → N) (bound : N) l : ∀ acc acc',
  (∀ x a b r, x ∈ l → a ≤ bound → b ≤ bound →
     step (a, b) x = Ok r ↔
     P x ∧ r = (a + f x, b + g x) ∧ a + f x ≤ bound ∧ b + g x ≤ bound) →
  acc.1 ≤ bound → acc.2 ≤ bound →
  try_fold step acc l = Ok acc' ↔
  Forall P l ∧ acc' = (acc.1 + lsum f l, acc.2 + lsum g l) ∧
  acc.1 + lsum f l ≤ bound ∧ acc.2 + lsum g l ≤ bound.
Proof.
  induction l as [|x l IH]; intros [a b] acc' Hstep Ha Hb; cbn [fst snd] in *.
  - rewrite try_fold_nil, !lsum_nil, !N.add_0_r. rewrite Forall_nil. naive_solver.
  - rewrite try_fold_cons, bind_Ok, !lsum_cons, Forall_cons, !N.add_assoc.
    assert (Hrest : ∀ r, r.1 ≤ bound → r.2 ≤ bound → try_fold step r l = Ok acc' ↔
      Forall P l ∧ acc' = (r.1 + lsum f l, r.2 + lsum g l) ∧
      r.1 + lsum f l ≤ bound ∧ r.2 + lsum g l ≤ bound).
    { intros r Hr1 Hr2. apply IH; [|done|done]. intros y c d r' Hy. apply Hstep. by right. }
    split.
    + intros (r & Hr & Hf). apply Hstep in Hr as (HP & -> & H1 & H2); [|by left|done|done].
      apply Hrest in Hf as (Hall & -> & H3 & H4); [|done|done]. by split_and!.
    + intros ([HP Hall] & -> & H1 & H2). exists (a + f x, b + g x).
      split; [apply Hstep; [by left|done|done|]; split_and!; done || lia|].
      apply Hrest; cbn [fst snd]; [lia..|]. by split_and!.
Qed.

(** ** Automation *)

(** Inverts the successful run of a chain of fallible steps in the context. *)
Ltac inv_ok :=
  repeat match goal with
  | H : mbind _ _ = Ok _ |- _ =>
      apply bind_Ok in H; destruct H as (? & ? & H)
  | H : reject_if _ _ = Ok _ |- _ => apply reject_if_Ok in H
  | H : ok_or _ _ = Ok _ |- _ => apply ok_or_Ok in H
  | H : map_err _ _ = Ok _ |- _ => apply map_err_Ok in H
  | H : checked_add _ _ = Some _ |- _ => apply checked_add_Some in H as [? ?]
  | H : checked_sub _ _ = Some _ |- _ => apply checked_sub_Some in H as [? ?]
  | H : Ok _ = Ok _ |- _ => injection H as H
  | H : Err _ = Ok _ |- _ => discriminate H
  | H : Ok _ = Err _ |- _ => discriminate H
  | x : unit |- _ => destruct x
  end; simplify_eq.

(** Inverts the successful run of a computation on mutable state. *)
Ltac inv_st :=
  repeat match goal with
  | H : mbind _ _ _ = (_, Ok _) |- _ =>
      apply st_bind_Ok in H; destruct H as (? & ? & ? & H)
  | H : st_lift _ _ = (_, Ok _) |- _ => apply st_lift_Ok in H as [? ?]; subst
  | H : st_get _ = (_, Ok _) |- _ => apply st_get_Ok in H as [? ?]; subst
  | H : st_put _ _ = (_, Ok _) |- _ => apply st_put_Ok in H; subst
  | H : st_modify _ _ = (_, Ok _) |- _ => apply st_modify_Ok in H; subst
  | H : mret _ _ = (_, Ok _) |- _ => apply st_ret_Ok in H as [? ?]; subst
  | x : unit |- _ => destruct x
  end.

(** [lia] with division and modulus by constants. *)
Ltac div_lia := zify; Z.to_euclidean_division_equations; lia.

(** Splits the conditions of a boolean guard in the context. *)
Ltac inv_guards :=
  repeat match goal with
  | H : _ || _ = false |- _ => apply orb_false_iff in H as [? ?]
  | H : _ && _ = true |- _ => apply andb_true_iff in H as [? ?]
  | H : negb _ = false |- _ => apply negb_false_iff in H
  | H : negb _ = true |- _ => apply negb_true_iff in H
  | H : (_ <=? _) = true |- _ => apply N.leb_le in H
  | H : (_ <=? _) = false |- _ => apply N.leb_gt in H
  | H : (_ <? _) = true |- _ => apply N.ltb_lt in H
  | H : (_ <? _) = false |- _ => apply N.ltb_ge in H
  | H : (_ =? _) = true |- _ => apply N.eqb_eq in H
  | H : (_ =? _) = false |- _ => apply N.eqb_neq in H
  | H : bool_decide _ = true |- _ => apply bool_decide_eq_true_1 in H
  | H : bool_decide _ = false |- _ => apply bool_decide_eq_false_1 in H
  end.

Create HintDb kasumi.
#[export] Hint Resolve map_iter_sorted map_iter_NoDup : kasumi.
Create Rewrite HintDb kasumi.
#[export] Hint Rewrite @len_app @len_nil @len_cons str_len_app : kasumi.
