(* ===== verification/Clock.v ===== *)
(** * kasumi-clock: lease clocks, elapsed deadlines and the trusted UTC floor

    Models src/crates/kasumi-clock/src/lib.rs.  A [Duration] is its number of
    nanoseconds.  The two clocks ([LeaseClock], [WallClock]) are interfaces of
    the source: an operation that samples one takes the sample as an argument,
    so a theorem quantifies over everything the clocks may return, rollback
    and suspension included.  The mutexes of [ElapsedDeadline] live in a store,
    because clones of a deadline share one cell. *)

From S2P Require Import Prelude.

(** [Duration::MAX]: u64 seconds and 999,999,999 nanoseconds. *)
Definition duration_max : N := (u64_max + 1) * 1000000000 - 1.

(** [Duration::from_millis] and [Duration::as_millis]. *)
Definition from_millis (ms : N) : N := ms * 1000000.
Definition as_millis (d : N) : N := d / 1000000.

Definition duration_checked_add (a b : N) : option N :=
  if a + b <=? duration_max then Some (a + b) else None.

(** ** Elapsed deadlines *)

(** The mutex behind [last_seen]; a poisoned mutex refuses every lock. *)
Inductive LastSeen :=
| Poisoned
| Seen (last : option N).

Abbreviation Store := (gmap N LastSeen).

Record ClockObservation := {
  utc_ms : N;
  elapsed_at : N;
}.

Record ElapsedDeadline := {
  acquired : N;
  last_seen : N;   (* the address of the shared cell *)
  deadline : N;
}.

Definition lock (d : ElapsedDeadline) (σ : Store) : result string (option N) :=
  match σ !! last_seen d with
  | Some (Seen last) => Ok last
  | _ => Err "elapsed deadline poisoned"
  end.

(** [ElapsedDeadline::remaining], sampling the lease clock at [now]. *)
Definition remaining (d : ElapsedDeadline) (now : N) : ST Store string N :=
  σ ← st_get;
  last ← st_lift (lock d σ);
  if (match last with None => true | Some last => now <? last end)
     || (now <? acquired d) || (deadline d <=? now)
  then
    st_put (<[last_seen d := Seen None]> σ);;
    st_lift (Err "elapsed deadline expired or clock regressed")
  else
    st_put (<[last_seen d := Seen (Some now)]> σ);;
    mret (deadline d - now).

(** [ElapsedDeadline::check]. *)
Definition check (d : ElapsedDeadline) (now : N) : ST Store string unit :=
  remaining d now;; mret tt.

(** [Arc::new(Mutex::new(last))]: a cell no other deadline points to. *)
Definition alloc (last : option N) : ST Store string N := λ σ,
  let l := fresh (dom σ) in (<[l := Seen last]> σ, Ok l).

(** [ClockObservation::until]. *)
Definition until (o : ClockObservation) (expires_at_ms now : N) :
    ST Store string ElapsedDeadline :=
  rest ← st_lift (ok_or
    (match checked_sub expires_at_ms (utc_ms o) with
     | Some value => if 0 <? value then Some value else None
     | None => None
     end) "credential already expired");
  end_ ← st_lift (ok_or (duration_checked_add (elapsed_at o) (from_millis rest))
    "credential deadline overflow");
  cell ← alloc (Some (elapsed_at o));
  let proof := {| acquired := elapsed_at o; last_seen := cell; deadline := end_ |} in
  check proof now;;
  mret proof.

(** [ElapsedDeadline::shortened_by]; the parent is sampled at [now], the
    child at [now']. *)
Definition shortened_by (d : ElapsedDeadline) (amount now now' : N) :
    ST Store string ElapsedDeadline :=
  check d now;;
  end_ ← st_lift (ok_or (checked_sub (deadline d) amount)
    "deadline reduction underflow");
  σ ← st_get;
  last ← st_lift (lock d σ);
  cell ← alloc last;
  let child := {| acquired := acquired d; last_seen := cell; deadline := end_ |} in
  check child now';;
  mret child.

(** Everything the process can do to the cells of its deadlines. *)
Inductive Event :=
| ESample (d : ElapsedDeadline) (now : N)
| EUntil (o : ClockObservation) (expires_at_ms now : N)
| EShorten (d : ElapsedDeadline) (amount now now' : N).

Definition perform (e : Event) (σ : Store) : Store :=
  match e with
  | ESample d now => (remaining d now σ).1
  | EUntil o exp now => (until o exp now σ).1
  | EShorten d amount now now' => (shortened_by d amount now now' σ).1
  end.

Definition perform_all (es : list Event) (σ : Store) : Store :=
  foldl (λ σ e, perform e σ) σ es.

(** ** The process-wide UTC floor *)

Record EpochAnchor := {
  anchor_last_seen : N;
  anchor_elapsed : N;
  anchor_utc_ms : N;
}.

(** [EpochClock::new] from the first samples of both clocks. *)
Definition new_epoch (monotonic : N) (wall : result string N) :
    result string EpochAnchor :=
  utc ← wall;
  Ok {| anchor_last_seen := monotonic; anchor_elapsed := monotonic;
        anchor_utc_ms := utc |}.

(** [EpochClock::observe], sampling the lease clock at [now] and the wall
    clock at [wall]. *)
Definition observe (now : N) (wall : result string N) :
    ST EpochAnchor string ClockObservation :=
  anchor ← st_get;
  st_lift (reject_if (now <? anchor_last_seen anchor)
    "elapsed credential clock regressed");;
  st_put {| anchor_last_seen := now; anchor_elapsed := anchor_elapsed anchor;
            anchor_utc_ms := anchor_utc_ms anchor |};;
  elapsed_ms ← st_lift
    (let ms := as_millis (now - anchor_elapsed anchor) in
     if ms <=? u64_max then Ok ms
     else Err "out of range integral type conversion attempted");
  projected ← st_lift (ok_or (checked_add (anchor_utc_ms anchor) elapsed_ms)
    "credential clock overflow");
  observed ← st_lift wall;
  if projected <? observed then
    st_put {| anchor_last_seen := now; anchor_elapsed := now;
              anchor_utc_ms := observed |};;
    mret {| utc_ms := observed; elapsed_at := now |}
  else
    mret {| utc_ms := projected; elapsed_at := now |}.

(** [EpochClock::now_ms]. *)
Definition now_ms (now : N) (wall : result string N) : ST EpochAnchor string N :=
  o ← observe now wall; mret (utc_ms o).

(** A history of calls to [observe]; the list collects the successful
    observations in order. *)
Fixpoint observe_all (samples : list (N * result string N)) (a : EpochAnchor) :
    EpochAnchor * list ClockObservation :=
  match samples with
  | [] => (a, [])
  | (now, wall) :: rest =>
      let '(a1, r) := observe now wall a in
      let '(a2, os) := observe_all rest a1 in
      (a2, match r with Ok o => o :: os | Err _ => os end)
  end.

(** ** Deadlines: lemmas *)

(** What a sample does to the store and answers, in one case analysis. *)
Lemma remaining_cases d now σ :
  (∃ last, σ !! last_seen d = Some (Seen (Some last)) ∧
     last ≤ now ∧ acquired d ≤ now < deadline d ∧
     remaining d now σ = (<[last_seen d := Seen (Some now)]> σ, Ok (deadline d - now))) ∨
  (∃ σ' e, remaining d now σ = (σ', Err e) ∧
     (σ' = σ ∧ (∀ last, σ !! last_seen d ≠ Some (Seen last)) ∨
      σ' = <[last_seen d := Seen None]> σ)).
Proof.
  cbv [remaining mbind ST_bind st_get st_lift st_put mret ST_ret lock].
  destruct (σ !! last_seen d) as [[|[last|]]|] eqn:Hl; simpl; [naive_solver| |naive_solver..].
  case_match eqn:Hg; [naive_solver|]. inv_guards. left. exists last. naive_solver.
Qed.

Lemma check_store d now σ : (check d now σ).1 = (remaining d now σ).1.
Proof.
  cbv [check mbind ST_bind mret ST_ret]. by destruct (remaining d now σ) as [? []].
Qed.

Lemma remaining_other d now σ l :
  l ≠ last_seen d → (remaining d now σ).1 !! l = σ !! l.
Proof.
  intros Hl. destruct (remaining_cases d now σ) as
    [(last & _ & _ & _ & ->)|(σ' & e & -> & [[-> _]| ->])]; simpl;
    rewrite ?lookup_insert_ne by congruence; done.
Qed.

(** A cell that no sample can succeed on. *)
Definition is_sealed (x : option LastSeen) : Prop :=
  x = Some Poisoned ∨ x = Some (Seen None).

(** Sampling any deadline leaves a sealed cell sealed. *)
Lemma remaining_keeps_sealed d now σ l :
  is_sealed (σ !! l) → is_sealed ((remaining d now σ).1 !! l).
Proof.
  intros Hl. destruct (decide (l = last_seen d)) as [->|Hne].
  - destruct (remaining_cases d now σ) as
      [(last & Hs & _)|(σ' & e & -> & [[-> _]| ->])]; simpl; [|done|].
    + destruct Hl; congruence.
    + rewrite lookup_insert_eq. by right.
  - by rewrite remaining_other.
Qed.

Lemma alloc_keeps_sealed last σ l :
  is_sealed (σ !! l) → is_sealed ((alloc last σ).1 !! l).
Proof.
  intros Hl. simpl. rewrite lookup_insert_ne; [done|]. intros Heq.
  apply (is_fresh (dom σ)). rewrite Heq. apply elem_of_dom.
  destruct Hl as [-> | ->]; done.
Qed.

(** A property of stores that every step of a computation preserves. *)
Lemma st_bind_keeps {A B} (P : Store → Prop) (m : ST Store string A)
    (f : A → ST Store string B) σ :
  P (m σ).1 → (∀ a σ', P σ' → P (f a σ').1) → P ((m ≫= f) σ).1.
Proof.
  intros Hm Hf. unfold mbind, ST_bind. destruct (m σ) as [σ' [a|e]]; auto.
Qed.

Lemma perform_keeps_sealed e σ l :
  is_sealed (σ !! l) → is_sealed (perform e σ !! l).
Proof.
  intros Hl. destruct e; simpl; [by apply remaining_keeps_sealed|..];
    unfold until, shortened_by, check;
    repeat first
      [ assumption
      | by apply remaining_keeps_sealed
      | by apply alloc_keeps_sealed
      | apply (st_bind_keeps (λ σ, is_sealed (σ !! l))); [|intros ? ? ?] ].
Qed.

Lemma perform_all_keeps_sealed es σ l :
  is_sealed (σ !! l) → is_sealed (perform_all es σ !! l).
Proof.
  revert σ. induction es as [|e es IH]; intros σ Hl; simpl; [done|].
  by apply IH, perform_keeps_sealed.
Qed.

Lemma remaining_sealed d now σ :
  is_sealed (σ !! last_seen d) → ∃ σ' e, remaining d now σ = (σ', Err e).
Proof.
  intros Hs. destruct (remaining_cases d now σ) as
    [(last & Hl & _)|(σ' & e & -> & _)]; [|eauto].
  destruct Hs; congruence.
Qed.

Lemma remaining_Ok d now σ σ' r :
  remaining d now σ = (σ', Ok r) →
  (∃ last, σ !! last_seen d = Some (Seen (Some last)) ∧ last ≤ now) ∧
  acquired d ≤ now < deadline d ∧ r = deadline d - now ∧
  σ' = <[last_seen d := Seen (Some now)]> σ.
Proof.
  intros Hr. destruct (remaining_cases d now σ) as
    [(last & Hl & Hle & Hb & Heq)|(σ'' & e & Heq & _)]; rewrite Hr in Heq; naive_solver.
Qed.

Lemma check_Ok d now σ σ' :
  check d now σ = (σ', Ok tt) →
  acquired d ≤ now < deadline d ∧ σ' = <[last_seen d := Seen (Some now)]> σ.
Proof.
  unfold check. intros H. inv_st.
  select (remaining _ _ _ = _) (fun H => apply remaining_Ok in H). naive_solver.
Qed.

(** What a fresh deadline is. *)
Lemma until_Ok o exp now σ σ' d :
  until o exp now σ = (σ', Ok d) →
  acquired d = elapsed_at o ∧ σ !! last_seen d = None ∧
  utc_ms o < exp ∧ deadline d = elapsed_at o + from_millis (exp - utc_ms o) ∧
  elapsed_at o ≤ now < deadline d ∧
  σ' = <[last_seen d := Seen (Some now)]> (<[last_seen d := Seen (Some (elapsed_at o))]> σ).
Proof.
  unfold until. intros H. inv_st. unfold alloc in *. simplify_eq.
  select (check _ _ _ = _) (fun H => apply check_Ok in H as [? ->]). simpl in *. inv_ok.
  unfold duration_checked_add in *. repeat case_match; inv_ok. inv_guards.
  split_and!; [done| |lia|done|lia|lia|done].
  apply not_elem_of_dom, is_fresh.
Qed.

(** What a shortened deadline is. *)
Lemma shortened_by_Ok d amount now now' σ σ' c :
  shortened_by d amount now now' σ = (σ', Ok c) →
  acquired c = acquired d ∧ deadline c = deadline d - amount ∧
  last_seen c ≠ last_seen d ∧
  acquired d ≤ now < deadline d ∧ now ≤ now' < deadline c ∧
  σ' = <[last_seen c := Seen (Some now')]> (<[last_seen c := Seen (Some now)]>
         (<[last_seen d := Seen (Some now)]> σ)).
Proof.
  unfold shortened_by. intros H. inv_st. unfold alloc in *. simplify_eq.
  select (check d _ _ = _) (fun H => apply check_Ok in H as [? ->]).
  unfold check in *. inv_st.
  unfold lock in *. rewrite lookup_insert_eq in *. inv_ok.
  select (remaining _ _ _ = _) (fun H =>
    apply remaining_Ok in H as ((last & Hl & ?) & ? & _ & ->)). simpl in *.
  rewrite lookup_insert_eq in Hl. simplify_eq.
  split_and!; try done; try lia.
  intros Heq. apply (is_fresh (dom (<[last_seen d:=Seen (Some last)]> σ))).
  rewrite Heq. apply elem_of_dom. rewrite lookup_insert_eq. done.
Qed.

(** ** Epoch clock: lemmas *)

(** The time an anchor projects for a lease-clock instant. *)
Definition project (a : EpochAnchor) (t : N) : N :=
  anchor_utc_ms a + as_millis (t - anchor_elapsed a).

Definition anchor_ok (a : EpochAnchor) : Prop :=
  anchor_elapsed a ≤ anchor_last_seen a.

Lemma project_mono a t t' : t ≤ t' → project a t ≤ project a t'.
Proof. intros. unfold project, as_millis. apply N.add_le_mono_l, N.Div0.div_le_mono. lia. Qed.

(** Moving an anchor forward to a later wall-clock time only raises what it
    projects. *)
Lemma project_reanchor a now observed t :
  anchor_elapsed a ≤ now ≤ t → project a now < observed →
  project a t ≤
  project {| anchor_last_seen := now; anchor_elapsed := now; anchor_utc_ms := observed |} t.
Proof.
  unfold project, as_millis. simpl. intros.
  assert ((t - anchor_elapsed a) / 1000000 ≤
          (now - anchor_elapsed a) / 1000000 + (t - now) / 1000000 + 1); [|lia].
  div_lia.
Qed.

(** One observation: the anchor stays well formed, never projects less than
    before, and the observation is what the new anchor projects. *)
Lemma observe_step now wall a a' r :
  anchor_ok a → observe now wall a = (a', r) →
  anchor_ok a' ∧ anchor_last_seen a ≤ anchor_last_seen a' ∧
  (∀ t, anchor_last_seen a' ≤ t → project a t ≤ project a' t) ∧
  (∀ o, r = Ok o → elapsed_at o = anchor_last_seen a' ∧ utc_ms o = project a' (elapsed_at o)).
Proof.
  unfold anchor_ok. intros Hok.
  assert (Hadvance : anchor_last_seen a ≤ now →
    anchor_elapsed a ≤ now ∧ anchor_last_seen a ≤ now ∧
    ∀ t, now ≤ t → project a t ≤ project {| anchor_last_seen := now;
      anchor_elapsed := anchor_elapsed a; anchor_utc_ms := anchor_utc_ms a |} t).
  { intros. split_and!; [lia..|]. done. }
  cbv [observe mbind ST_bind st_get st_lift st_put mret ST_ret reject_if].
  destruct (N.ltb_spec now (anchor_last_seen a)) as [|Hnow];
    [intros; simplify_eq; naive_solver|].
  specialize (Hadvance Hnow) as (? & ? & ?).
  destruct (_ <=? u64_max); [|intros; simplify_eq/=; naive_solver].
  destruct (checked_add _ _) as [projected|] eqn:Hp; [|intros; simplify_eq/=; naive_solver].
  apply checked_add_Some in Hp as [-> _].
  destruct wall as [observed|e]; [|intros; simplify_eq/=; naive_solver]. simpl.
  destruct (N.ltb_spec (anchor_utc_ms a + as_millis (now - anchor_elapsed a)) observed);
    intros; simplify_eq/=; split_and!; try lia; try done.
  - intros t Ht. apply project_reanchor; [lia|done].
  - intros o Ho. simplify_eq/=. split; [done|]. unfold project; simpl.
    rewrite N.sub_diag. unfold as_millis. simpl. lia.
  - intros o Ho. by simplify_eq/=.
Qed.

(** Every observation of a history is at least what the starting anchor
    projects for its instant. *)
Lemma observe_all_floor samples a o :
  anchor_ok a → o ∈ (observe_all samples a).2 →
  anchor_last_seen a ≤ elapsed_at o ∧ project a (elapsed_at o) ≤ utc_ms o.
Proof.
  revert a. induction samples as [|[now wall] samples IH]; intros a Hok Ho; simpl in Ho.
  { by apply elem_of_nil in Ho. }
  destruct (observe now wall a) as [a1 r] eqn:Hobs.
  destruct (observe_all samples a1) as [a2 os] eqn:Hrest. simpl in Ho.
  destruct (observe_step _ _ _ _ _ Hok Hobs) as (Hok1 & Hlast & Hproj & Hres).
  assert (Hcase : r = Ok o ∨ o ∈ (observe_all samples a1).2).
  { rewrite Hrest. destruct r; [|by right]. apply elem_of_cons in Ho as [->|]; auto. }
  destruct Hcase as [Hr|Hlater].
  - destruct (Hres _ Hr) as [He ->]. rewrite He. split; [lia|]. apply Hproj; lia.
  - destruct (IH _ Hok1 Hlater). split; [lia|]. etrans; [apply Hproj; lia|done].
Qed.

(** An observation is followed only by later ones. *)
Lemma observe_all_ordered samples a i j o1 o2 :
  anchor_ok a →
  (observe_all samples a).2 !! i = Some o1 → (observe_all samples a).2 !! j = Some o2 →
  (i < j)%nat →
  elapsed_at o1 ≤ elapsed_at o2 ∧ utc_ms o1 ≤ utc_ms o2 ∧
  elapsed_at o2 - elapsed_at o1 < from_millis (utc_ms o2 - utc_ms o1 + 1).
Proof.
  revert a i j. induction samples as [|[now wall] samples IH]; intros a i j Hok H1 H2 Hij;
    simpl in *; [done|].
  destruct (observe now wall a) as [a1 r] eqn:Hobs.
  destruct (observe_all samples a1) as [a2 os] eqn:Hrest.
  destruct (observe_step _ _ _ _ _ Hok Hobs) as (Hok1 & _ & _ & Hres).
  specialize (IH a1). rewrite Hrest in IH. simpl in *.
  destruct r as [o|e]; [|by eapply IH].
  destruct j as [|j]; [lia|]. destruct i as [|i]; simpl in *; [|eapply IH; eauto; lia].
  simplify_eq. destruct (Hres _ eq_refl) as [He Hu].
  destruct (observe_all_floor samples a1 o2 Hok1) as [Hle Hproj].
  { rewrite Hrest. by eapply list_elem_of_lookup_2. }
  pose proof (project_mono a1 (elapsed_at o1) (elapsed_at o2)).
  split_and!; [lia..|]. unfold project, as_millis, from_millis in *.
  unfold anchor_ok in *. div_lia.
Qed.

(** ** Correctness *)

(** C38.  Once a sample of an elapsed deadline has failed (expiry, or a lease
    clock that went backwards), the deadline and every clone of it that shares
    its cell stay refused for ever: whatever deadlines are sampled, created or
    shortened afterwards, and whatever the clock returns, no later sample of
    them succeeds. *)
Theorem failed_deadline_stays_sealed d now σ σ1 e es clone now' :
  is_Some (σ !! last_seen d) →
  remaining d now σ = (σ1, Err e) →
  last_seen clone = last_seen d →
  ∃ σ2 e', remaining clone now' (perform_all es σ1) = (σ2, Err e').
Proof.
  intros Hcell Hfail Hclone. apply remaining_sealed. rewrite Hclone.
  apply perform_all_keeps_sealed.
  destruct (remaining_cases d now σ) as
    [(last & _ & _ & _ & Heq)|(σ' & e' & Heq & Hσ)]; rewrite Hfail in Heq; simplify_eq.
  destruct Hσ as [[-> Hno]| ->]; [|rewrite lookup_insert_eq; by right].
  destruct Hcell as [[|last] Hl]; [by left|by destruct (Hno last)].
Qed.

(** Witness: a deadline at 5 ms sampled too late, then again with the clock
    wound back, after an unrelated deadline was created. *)
Lemma failed_deadline_stays_sealed_witness :
  let d := {| acquired := 0; last_seen := 0; deadline := 5000000 |} in
  let σ : Store := {[0 := Seen (Some 0)]} in
  ∃ σ2 e', remaining d 1 (perform_all
    [EUntil {| utc_ms := 10; elapsed_at := 1 |} 20 2; ESample d 3]
    (remaining d 6000000 σ).1) = (σ2, Err e').
Proof.
  intros d σ.
  apply (failed_deadline_stays_sealed d 6000000 σ (remaining d 6000000 σ).1
    "elapsed deadline expired or clock regressed"); [eexists|..]; reflexivity.
Defined.

(** A deadline made from a trusted observation never outlives the
    credential it was made for: whenever a later sample succeeds, the
    observation's UTC time advanced by the elapsed time is before the
    credential's expiration, and the answer is exactly the time left. *)
Theorem deadline_within_credential o exp now0 σ0 σ1 d now σ σ' left :
  until o exp now0 σ0 = (σ1, Ok d) →
  remaining d now σ = (σ', Ok left) →
  elapsed_at o ≤ now ∧ 0 < left ∧
  from_millis (utc_ms o) + (now - elapsed_at o) + left = from_millis exp.
Proof.
  intros Hu%until_Ok Hr%remaining_Ok. unfold from_millis in *.
  destruct Hu as (Ha & _ & Hlt & Hd & _). destruct Hr as (_ & Hb & -> & _). lia.
Qed.

Lemma deadline_within_credential_witness :
  let o := {| utc_ms := 100; elapsed_at := 7000000 |} in
  let d := {| acquired := 7000000; last_seen := 0; deadline := 12000000 |} in
  7000000 ≤ 9000000 ∧ 0 < 3000000 ∧
  from_millis 100 + (9000000 - 7000000) + 3000000 = from_millis 105.
Proof.
  intros o d.
  apply (deadline_within_credential o 105 8000000 ∅ {[0 := Seen (Some 8000000)]} d
    9000000 {[0 := Seen (Some 8000000)]} {[0 := Seen (Some 9000000)]} 3000000);
    vm_compute; reflexivity.
Defined.

(** A shortened deadline is a real restriction of its parent: its
    cell is its own, so that sampling the child never changes the parent's,
    and whenever the child is sampled successfully the instant is inside the
    parent's window with more than the amount taken off still to run. *)
Theorem shortened_child_restricts_parent d amount now0 now0' σ0 σ1 child now σ σ' left :
  shortened_by d amount now0 now0' σ0 = (σ1, Ok child) →
  remaining child now σ = (σ', Ok left) →
  σ' !! last_seen d = σ !! last_seen d ∧
  acquired d ≤ now ∧ now + amount < deadline d ∧ left + amount = deadline d - now.
Proof.
  intros Hs%shortened_by_Ok Hr. destruct Hs as (Ha & Hd & Hne & _ & Hw & _).
  pose proof (remaining_other child now σ (last_seen d) (not_eq_sym Hne)) as Hother.
  rewrite Hr in Hother. apply remaining_Ok in Hr as (_ & Hb & -> & _).
  split; [done|]. lia.
Qed.

Lemma shortened_child_restricts_parent_witness :
  let d := {| acquired := 0; last_seen := 0; deadline := 100 |} in
  let child := {| acquired := 0; last_seen := 1; deadline := 70 |} in
  let σ : Store := {[0 := Seen (Some 10); 1 := Seen (Some 12)]} in
  ({[0 := Seen (Some 10); 1 := Seen (Some 20)]} : Store) !! 0 = σ !! 0 ∧
  0 ≤ 20 ∧ 20 + 30 < 100 ∧ 50 + 30 = 100 - 20.
Proof.
  intros d child σ.
  apply (shortened_child_restricts_parent d 30 10 12 {[0 := Seen (Some 5)]} σ child 20 σ
    {[0 := Seen (Some 10); 1 := Seen (Some 20)]} 50); vm_compute; reflexivity.
Defined.

(** C39.  The process-wide UTC floor: over any history of observations from a
    freshly established clock, whatever the wall clock returns (including
    backward adjustments and failures) and whatever the lease clock returns,
    the observed UTC time and the elapsed instant never go backwards, and the
    UTC time keeps up with elapsed time to within one millisecond. *)
Theorem utc_floor_monotone monotonic wall a samples i j o1 o2 :
  new_epoch monotonic wall = Ok a →
  (observe_all samples a).2 !! i = Some o1 →
  (observe_all samples a).2 !! j = Some o2 →
  (i < j)%nat →
  elapsed_at o1 ≤ elapsed_at o2 ∧ utc_ms o1 ≤ utc_ms o2 ∧
  elapsed_at o2 - elapsed_at o1 < from_millis (utc_ms o2 - utc_ms o1 + 1).
Proof.
  intros Hnew. eapply observe_all_ordered.
  unfold new_epoch in Hnew. inv_ok. unfold anchor_ok. simpl. lia.
Qed.

(** The wall clock is rolled back from 1000 to 3 between two observations. *)
Lemma utc_floor_monotone_witness :
  let a := {| anchor_last_seen := 0; anchor_elapsed := 0; anchor_utc_ms := 900 |} in
  let o1 := {| utc_ms := 1000; elapsed_at := 1000000 |} in
  let o2 := {| utc_ms := 1002; elapsed_at := 3500000 |} in
  elapsed_at o1 ≤ elapsed_at o2 ∧ utc_ms o1 ≤ utc_ms o2 ∧
  elapsed_at o2 - elapsed_at o1 < from_millis (utc_ms o2 - utc_ms o1 + 1).
Proof.
  intros a o1 o2.
  apply (utc_floor_monotone 0 (Ok 900) a
    [(1000000, Ok 1000); (2000000, Err "unavailable"); (3500000, Ok 3)] 0 1);
    [reflexivity..|lia].
Defined.

(** Winding the wall clock back cannot extend a credential: of two
    deadlines established for the same expiration from two observations of one
    history, the later one ends less than one millisecond (the resolution of
    the expiration) after the earlier one. *)
Theorem rollback_cannot_extend_credential monotonic wall a samples i j o1 o2 exp
    now1 now2 σ1 σ1' σ2 σ2' d1 d2 :
  new_epoch monotonic wall = Ok a →
  (observe_all samples a).2 !! i = Some o1 →
  (observe_all samples a).2 !! j = Some o2 →
  (i < j)%nat →
  until o1 exp now1 σ1 = (σ1', Ok d1) →
  until o2 exp now2 σ2 = (σ2', Ok d2) →
  deadline d2 < deadline d1 + from_millis 1.
Proof.
  intros Hnew Hi Hj Hij Hu1%until_Ok Hu2%until_Ok.
  assert (anchor_ok a).
  { unfold new_epoch in Hnew. inv_ok. unfold anchor_ok. simpl. lia. }
  destruct (observe_all_ordered samples a i j o1 o2) as (? & ? & ?); [done..|].
  destruct Hu1 as (_ & _ & ? & -> & _), Hu2 as (_ & _ & ? & -> & _).
  unfold from_millis in *. lia.
Qed.

Lemma rollback_cannot_extend_credential_witness :
  deadline {| acquired := 3500000; last_seen := 0; deadline := 11500000 |} <
  deadline {| acquired := 1000000; last_seen := 0; deadline := 11000000 |} + from_millis 1.
Proof.
  apply (rollback_cannot_extend_credential 0 (Ok 900)
    {| anchor_last_seen := 0; anchor_elapsed := 0; anchor_utc_ms := 900 |}
    [(1000000, Ok 1000); (2000000, Err "unavailable"); (3500000, Ok 3)] 0 1
    {| utc_ms := 1000; elapsed_at := 1000000 |} {| utc_ms := 1002; elapsed_at := 3500000 |}
    1010 1000001 3600000 ∅ {[0 := Seen (Some 1000001)]} ∅ {[0 := Seen (Some 3600000)]});
    first [lia | vm_compute; reflexivity].
Defined.
