(* ===== verification/Json.v ===== *)
(** * JSON values: the writer, canonical encoding, merge patch, exact decoding

    Models the literal JSON values of kasumi-types
    (src/crates/kasumi-types/src/canonical_json.rs, exact_json.rs and
    [apply_merge_patch] of lib.rs) together with the compact writer of the
    vendored serde_json (src/vendor/serde_json-1.0.151/src/ser.rs) whose bytes
    they are defined by.

    Strings are UTF-8 byte strings; a number is its exact text, as serde_json
    keeps it with the [arbitrary_precision] feature.  An object is the list of
    its entries in iteration order, so that canonical ordering is a statement
    about the model and not built into it. *)

From S2P Require Import Prelude.

Inductive value :=
| VNull
| VBool (b : bool)
| VNumber (text : string)
| VString (s : string)
| VArray (l : list value)
| VObject (l : list (string * value)).

(** [Value::is_null], [Value::is_object]. *)
Definition is_null (v : value) : bool := match v with VNull => true | _ => false end.
Definition is_object (v : value) : bool := match v with VObject _ => true | _ => false end.

(** The entries of an object; anything else has none. *)
Definition members (v : value) : list (string * value) :=
  match v with VObject l => l | _ => [] end.

(** ** The compact writer *)

Definition quote_char : ascii := "034"%char.
Definition quote_mark : string := String quote_char "".

(** [HEX_DIGITS]. *)
Definition hex_digit (n : N) : ascii :=
  ascii_of_N (if n <? 10 then 48 + n else 87 + n).

(** [ESCAPE] and [write_char_escape]: the bytes written for one byte. *)
Definition escape_char (c : ascii) : string :=
  let n := N_of_ascii c in
  if n =? 8 then "\b"
  else if n =? 9 then "\t"
  else if n =? 10 then "\n"
  else if n =? 12 then "\f"
  else if n =? 13 then "\r"
  else if n =? 34 then "\" +:+ quote_mark
  else if n =? 92 then "\\"
  else if n <? 32 then
    "\u00" +:+ String (hex_digit (n / 16)) (String (hex_digit (n mod 16)) "")
  else String c "".

(** [format_escaped_str_contents]. *)
Fixpoint escaped_contents (s : string) : string :=
  match s with
  | "" => ""
  | String c s' => escape_char c +:+ escaped_contents s'
  end.

(** [format_escaped_str]. *)
Definition write_str (s : string) : string :=
  quote_mark +:+ escaped_contents s +:+ quote_mark.

(** [begin_array_value] / [begin_object_key]: a comma before every item but
    the first. *)
Fixpoint write_items (first : bool) (items : list string) : string :=
  match items with
  | [] => ""
  | x :: items' => (if first then "" else ",") +:+ x +:+ write_items false items'
  end.

(** [serde_json::to_writer] on a value, entries in iteration order. *)
Fixpoint write (v : value) : string :=
  match v with
  | VNull => "null"
  | VBool b => if b then "true" else "false"
  | VNumber text => text
  | VString s => write_str s
  | VArray l => "[" +:+ write_items true (write <$> l) +:+ "]"
  | VObject l =>
      "{" +:+ write_items true ((λ kv, write_str kv.1 +:+ ":" +:+ write kv.2) <$> l) +:+ "}"
  end.

(** ** Canonical encoding *)

(** [keys().is_sorted()]. *)
Fixpoint keys_sorted {V} (l : list (string * V)) : bool :=
  match l with
  | x :: (y :: _) as l' => bool_decide (entry_le x y) && keys_sorted l'
  | _ => true
  end.

(** The entry order [CanonicalJsonValue] serializes an object in. *)
Definition sort_entries {V} (l : list (string * V)) : list (string * V) :=
  if keys_sorted l then l else merge_sort entry_le l.

(** [CanonicalJsonValue]: the value with the entries of every object in the
    order they are serialized. *)
Fixpoint canonical (v : value) : value :=
  match v with
  | VArray l => VArray (canonical <$> l)
  | VObject l => VObject (sort_entries ((λ kv, (kv.1, canonical kv.2)) <$> l))
  | _ => v
  end.

Definition canonical_bytes (v : value) : string := write (canonical v).

(** ** Objects as ordered maps

    [serde_json::Map] is a [BTreeMap] in this workspace. *)
Fixpoint obj_lookup (k : string) (l : list (string * value)) : option value :=
  match l with
  | [] => None
  | (k', v) :: l' => if bool_decide (k = k') then Some v else obj_lookup k l'
  end.

(** [Map::remove]. *)
Definition obj_remove (k : string) (l : list (string * value)) : list (string * value) :=
  filter (λ kv, kv.1 ≠ k) l.

(** [Map::insert], in key order. *)
Fixpoint obj_insert (k : string) (v : value) (l : list (string * value)) :
    list (string * value) :=
  match l with
  | [] => [(k, v)]
  | (k', v') :: l' =>
      if bool_decide (k = k') then (k, v) :: l'
      else if bool_decide (String.le k k') then (k, v) :: (k', v') :: l'
      else (k', v') :: obj_insert k v l'
  end.

(** ** JSON Merge Patch *)

Definition MAX_MERGE_PATCH_DEPTH : N := 64.

Definition merge_depth_error : string := "merge patch exceeds its nesting limit".
Definition merge_shape_error : string := "a document merge patch must be a JSON object".

(** The inner function [merge] of [apply_merge_patch].  The target is mutated
    in place; on an error it keeps the members merged so far. *)
Fixpoint merge (patch : value) (depth : N) (target : value) {struct patch} :
    value * result string unit :=
  match patch with
  | VObject ms =>
      if MAX_MERGE_PATCH_DEPTH <? depth then (target, Err merge_depth_error)
      else
        let '(object, r) :=
          (fix go (ms : list (string * value)) (object : list (string * value)) :=
             match ms with
             | [] => (object, Ok tt)
             | (key, v) :: rest =>
                 if is_null v then go rest (obj_remove key object)
                 else
                   let '(child, r) :=
                     merge v (depth + 1) (default VNull (obj_lookup key object)) in
                   let object' := obj_insert key child object in
                   match r with
                   | Ok _ => go rest object'
                   | Err e => (object', Err e)
                   end
             end) ms (members target) in
        (VObject object, r)
  | _ => (patch, Ok tt)
  end.

(** [apply_merge_patch]; both failures are [ErrorCode::InvalidArgument]. *)
Definition apply_merge_patch (patch : value) : ST value string unit := λ target,
  if is_object patch then merge patch 0 target
  else (target, Err merge_shape_error).

(** ** Exact decoding *)

(** The [Compare] writer. *)
Record Compare := {
  cmp_remaining : string;
  cmp_differs : bool;
}.

Fixpoint strip_prefix (p s : string) : option string :=
  match p, s with
  | "", _ => Some s
  | String c p', String c' s' =>
      if bool_decide (c = c') then strip_prefix p' s' else None
  | _, "" => None
  end.

(** [Compare::write]. *)
Definition compare_write (bytes : string) : ST Compare string unit := λ w,
  match strip_prefix bytes (cmp_remaining w) with
  | None => ({| cmp_remaining := cmp_remaining w; cmp_differs := true |},
             Err "current writer bytes differ")
  | Some rest => ({| cmp_remaining := rest; cmp_differs := cmp_differs w |}, Ok tt)
  end.

(** How a value reaches a writer: the fragments [to_writer] writes, in order,
    and whether encoding then fails for a reason of its own. *)
Record Encoding := {
  fragments : list string;
  encoding_error : option string;
}.

Definition encoded_bytes (e : Encoding) : string := foldr String.app "" (fragments e).

Definition compare_to_writer (e : Encoding) : ST Compare string unit :=
  st_fold (λ _ bytes, compare_write bytes) tt (fragments e);;
  match encoding_error e with
  | None => mret tt
  | Some err => st_lift (Err err)
  end.

(** [require_current_writer_bytes]. *)
Definition require_current_writer_bytes (original : string) (e : Encoding)
    (name : string) : result string unit :=
  let '(w, r) := compare_to_writer e
    {| cmp_remaining := original; cmp_differs := false |} in
  match r with
  | Ok _ => reject_if (negb (bool_decide (cmp_remaining w = ""))) ("noncanonical " +:+ name)
  | Err _ =>
      if cmp_differs w then Err ("noncanonical " +:+ name)
      else Err (name +:+ " encoding failed")
  end.

(** [decode_exact]; the parser and the encoder are those of the type. *)
Definition decode_exact {T} (from_slice : string → option T) (encode : T → Encoding)
    (bytes : string) (max : N) (name : string) : result string T :=
  reject_if (max <? str_len bytes) (name +:+ " exceeds " +:+ pretty max +:+ " bytes");;
  v ← ok_or (from_slice bytes) ("invalid " +:+ name);
  require_current_writer_bytes bytes (encode v) name;;
  Ok v.

(** ** Induction and equality *)

Section value_induction.
Context (P : value → Prop).
Context (Pnull : P VNull) (Pbool : ∀ b, P (VBool b)) (Pnum : ∀ t, P (VNumber t))
  (Pstr : ∀ s, P (VString s)).
Context (Parr : ∀ l, Forall P l → P (VArray l)).
Context (Pobj : ∀ l, Forall (λ kv, P kv.2) l → P (VObject l)).

Fixpoint value_rec_nested (v : value) : P v :=
  match v with
  | VNull => Pnull
  | VBool b => Pbool b
  | VNumber t => Pnum t
  | VString s => Pstr s
  | VArray l =>
      Parr l ((fix go l : Forall P l :=
        match l with
        | [] => Forall_nil_2 P
        | v :: l' => Forall_cons_2 P v l' (value_rec_nested v) (go l')
        end) l)
  | VObject l =>
      Pobj l ((fix go l : Forall (λ kv, P kv.2) l :=
        match l with
        | [] => Forall_nil_2 _
        | (k, v) :: l' => Forall_cons_2 (λ kv, P kv.2) (k, v) l' (value_rec_nested v) (go l')
        end) l)
  end.
End value_induction.

#[export] Instance value_eq_dec : EqDecision value.
Proof.
  refine (fix go (x y : value) : Decision (x = y) :=
    let _ : EqDecision value := go in
    match x, y with
    | VNull, VNull => left eq_refl
    | VBool b, VBool b' => cast_if (decide (b = b'))
    | VNumber t, VNumber t' => cast_if (decide (t = t'))
    | VString s, VString s' => cast_if (decide (s = s'))
    | VArray l, VArray l' => cast_if (decide (l = l'))
    | VObject l, VObject l' => cast_if (decide (l = l'))
    | _, _ => right _
    end); congruence.
Defined.

(** ** The writer is injective *)

Lemma app_string_assoc (a b c : string) : (a +:+ b) +:+ c = a +:+ (b +:+ c).
Proof. induction a as [|x a IH]; [done|]. exact (f_equal (String x) IH). Qed.

Lemma app_string_nil_r (a : string) : a +:+ "" = a.
Proof. induction a as [|x a IH]; [done|]. exact (f_equal (String x) IH). Qed.

Lemma app_string_nil (a : string) : "" +:+ a = a.
Proof. done. Qed.

Lemma app_string_cons c (a b : string) : String c a +:+ b = String c (a +:+ b).
Proof. done. Qed.

Lemma string_cons_inj c (a b : string) : String c a = String c b → a = b.
Proof. congruence. Qed.

#[export] Hint Rewrite app_string_assoc app_string_nil app_string_cons : kasumi.

(** Reads back one escaped byte. *)
Definition unhex (c : ascii) : N :=
  let n := N_of_ascii c in if n <? 58 then n - 48 else n - 87.

Definition unescape (s : string) : option (ascii * string) :=
  match s with
  | "" => None
  | String "\" (String "u" (String _ (String _ (String h (String l s'))))) =>
      Some (ascii_of_N (unhex h * 16 + unhex l), s')
  | String "\" (String c s') =>
      Some (match c with
            | "b" => "008" | "t" => "009" | "n" => "010" | "f" => "012" | "r" => "013"
            | c => c
            end, s')%char
  | String c s' => if bool_decide (c = quote_char) then None else Some (c, s')
  end.

Lemma unescape_escape c s : unescape (escape_char c +:+ s) = Some (c, s).
Proof. destruct c as [[] [] [] [] [] [] [] []]; vm_compute; reflexivity. Qed.

Lemma escape_char_inj c1 c2 s1 s2 :
  escape_char c1 +:+ s1 = escape_char c2 +:+ s2 → c1 = c2 ∧ s1 = s2.
Proof.
  intros Heq. apply (f_equal unescape) in Heq. rewrite !unescape_escape in Heq.
  by simplify_eq.
Qed.

Lemma escape_char_quote c s s' : escape_char c +:+ s ≠ quote_mark +:+ s'.
Proof. intros Heq. apply (f_equal unescape) in Heq. by rewrite unescape_escape in Heq. Qed.

(** A written string is a prefix code: what follows it is determined. *)
Lemma write_str_prefix s1 s2 r1 r2 :
  write_str s1 +:+ r1 = write_str s2 +:+ r2 → s1 = s2 ∧ r1 = r2.
Proof.
  unfold write_str. rewrite !app_string_assoc. unfold quote_mark at 1 3.
  rewrite !app_string_cons. intros Heq. injection Heq as Heq. rewrite !app_string_nil in Heq.
  revert s2 Heq. induction s1 as [|c1 s1 IH]; intros [|c2 s2]; cbn [escaped_contents];
    rewrite ?app_string_assoc; intros Heq.
  - unfold quote_mark in Heq. rewrite !app_string_nil, !app_string_cons in Heq.
    by simplify_eq.
  - exfalso. rewrite app_string_nil in Heq. by eapply escape_char_quote.
  - exfalso. rewrite app_string_nil in Heq. by eapply escape_char_quote.
  - apply escape_char_inj in Heq as [-> Heq]. apply IH in Heq as [-> ->]. done.
Qed.

(** The characters of a JSON number. *)
Definition number_char (c : ascii) : bool :=
  let n := N_of_ascii c in
  ((48 <=? n) && (n <=? 57)) || (n =? 43) || (n =? 45) || (n =? 46) || (n =? 69) || (n =? 101).

Fixpoint all_number_chars (s : string) : bool :=
  match s with "" => true | String c s' => number_char c && all_number_chars s' end.

Definition number_text (s : string) : bool :=
  negb (bool_decide (s = "")) && all_number_chars s.

(** A value whose numbers are spelled with number characters, as every parsed
    or constructed number is. *)
Fixpoint numbers_ok (v : value) : bool :=
  match v with
  | VNumber t => number_text t
  | VArray l => forallb numbers_ok l
  | VObject l => forallb (λ kv, numbers_ok kv.2) l
  | _ => true
  end.

(** What may follow a value: the end, or a byte no number contains. *)
Definition delimited (r : string) : Prop :=
  match r with "" => True | String c _ => number_char c = false end.

Lemma number_prefix t1 t2 r1 r2 :
  all_number_chars t1 = true → all_number_chars t2 = true →
  delimited r1 → delimited r2 → t1 +:+ r1 = t2 +:+ r2 → t1 = t2 ∧ r1 = r2.
Proof.
  revert t2. induction t1 as [|c1 t1 IH]; intros [|c2 t2] H1 H2 Hd1 Hd2 Heq;
    rewrite ?app_string_nil, ?app_string_cons in Heq; simpl in *.
  - done.
  - apply andb_true_iff in H2 as [? _]. subst r1. simpl in Hd1. congruence.
  - apply andb_true_iff in H1 as [? _]. subst r2. simpl in Hd2. congruence.
  - injection Heq as -> Heq. apply andb_true_iff in H1 as [_ H1], H2 as [_ H2].
    destruct (IH t2) as [-> ->]; done.
Qed.

(** The class of a written value by its first byte. *)
Inductive head_class := HNull | HTrue | HFalse | HNumber | HString | HArray | HObject | HNone.

Definition head_of (s : string) : head_class :=
  match s with
  | "" => HNone
  | String "n" _ => HNull
  | String "t" _ => HTrue
  | String "f" _ => HFalse
  | String "[" _ => HArray
  | String "{" _ => HObject
  | String c _ =>
      if bool_decide (c = quote_char) then HString
      else if number_char c then HNumber else HNone
  end.

Definition value_head (v : value) : head_class :=
  match v with
  | VNull => HNull
  | VBool true => HTrue
  | VBool false => HFalse
  | VNumber _ => HNumber
  | VString _ => HString
  | VArray _ => HArray
  | VObject _ => HObject
  end.

Lemma head_of_number c s : number_char c = true → head_of (String c s) = HNumber.
Proof. destruct c as [[] [] [] [] [] [] [] []]; vm_compute; congruence. Qed.

Lemma head_of_write v r : numbers_ok v = true → head_of (write v +:+ r) = value_head v.
Proof.
  destruct v as [|[]|t|s|l|l]; intros Hn; try reflexivity.
  simpl in Hn. unfold number_text in Hn. destruct t as [|c t]; [done|].
  simpl in Hn. apply andb_true_iff in Hn as [Hn _].
  cbn [write]. rewrite app_string_cons. by apply head_of_number.
Qed.

(** Comma-separated items up to a closing byte, when the items are a prefix
    code. *)
Section write_items_prefix.
Context {A : Type} (enc : A → string) (ok : A → Prop) (close : ascii).
Context (Hclose : number_char close = false) (Hcomma : close ≠ ","%char).
Context (Hstart : ∀ x r r', ok x → enc x +:+ r ≠ String close r').

Definition item_prefix (x : A) : Prop := ∀ y r1 r2,
  ok y → delimited r1 → delimited r2 →
  enc x +:+ r1 = enc y +:+ r2 → x = y ∧ r1 = r2.

Lemma write_items_delimited l r :
  delimited (write_items false (enc <$> l) +:+ String close r).
Proof. destruct l; [exact Hclose|done]. Qed.

Lemma write_items_prefix first l1 l2 r1 r2 :
  Forall item_prefix l1 → Forall ok l1 → Forall ok l2 →
  write_items first (enc <$> l1) +:+ String close r1 =
  write_items first (enc <$> l2) +:+ String close r2 →
  l1 = l2 ∧ r1 = r2.
Proof.
  intros Hp. revert first l2. induction Hp as [|x l1 Hx Hp IH]; intros first l2 Ho1 Ho2 Heq.
  - destruct Ho2 as [|y l2 Hy Ho2]; [by injection Heq as ->|].
    destruct first; cbn in Heq; rewrite ?app_string_assoc, ?app_string_nil in Heq.
    + symmetry in Heq. by apply Hstart in Heq.
    + injection Heq as Heq. congruence.
  - apply Forall_cons in Ho1 as [Hox Ho1].
    destruct Ho2 as [|y l2 Hy Ho2];
      destruct first; cbn in Heq; rewrite ?app_string_assoc, ?app_string_nil in Heq.
    + by apply Hstart in Heq.
    + injection Heq as Heq. congruence.
    + apply Hx in Heq as [-> Heq]; [|auto using write_items_delimited..].
      apply IH in Heq as [-> ->]; done.
    + rewrite !app_string_cons in Heq. injection Heq as Heq. rewrite !app_string_nil in Heq.
      apply Hx in Heq as [-> Heq]; [|auto using write_items_delimited..].
      apply IH in Heq as [-> ->]; done.
Qed.
End write_items_prefix.

(** The bytes of a value determine it, and determine what follows it. *)
Lemma write_prefix v1 : ∀ v2 r1 r2,
  numbers_ok v1 = true → numbers_ok v2 = true → delimited r1 → delimited r2 →
  write v1 +:+ r1 = write v2 +:+ r2 → v1 = v2 ∧ r1 = r2.
Proof.
  induction v1 as [| | |s|l IH|l IH] using value_rec_nested; intros v2 r1 r2 Hn1 Hn2 Hd1 Hd2 Heq;
    pose proof (f_equal head_of Heq) as Hhead; rewrite !head_of_write in Hhead by done.
  - destruct v2 as [|[]| | | |]; try done.
    injection Heq as Heq. change (r1 = r2) in Heq. by subst.
  - destruct b, v2 as [|[]| | | |]; try done;
      injection Heq as Heq; change (r1 = r2) in Heq; by subst.
  - destruct v2 as [|[]|t'| | |]; try done. simpl in Hn1, Hn2. unfold number_text in *.
    apply andb_true_iff in Hn1 as [_ Hn1], Hn2 as [_ Hn2].
    destruct (number_prefix t t' r1 r2) as [-> ->]; done.
  - destruct v2 as [|[]| |s'| |]; try done. by apply write_str_prefix in Heq as [-> ->].
  - destruct v2 as [|[]| | |l'|]; try done. cbn [write] in Heq.
    autorewrite with kasumi in Heq. apply string_cons_inj in Heq.
    apply forallb_ok in Hn1, Hn2. rewrite Forall_forall in IH.
    apply (write_items_prefix write (λ v, numbers_ok v = true) "]"%char) in Heq as [-> ->];
      try done.
    + intros x r r' Hx Hw. apply (f_equal head_of) in Hw. rewrite head_of_write in Hw by done.
      by destruct x as [|[]| | | |].
    + rewrite Forall_forall in *. intros x Hx y r r' Hy. by apply IH; auto.
  - destruct v2 as [|[]| | | |l']; try done. cbn [write] in Heq.
    autorewrite with kasumi in Heq. apply string_cons_inj in Heq.
    apply forallb_ok in Hn1, Hn2. rewrite Forall_forall in IH.
    apply (write_items_prefix (λ kv, write_str kv.1 +:+ ":" +:+ write kv.2)
      (λ kv, numbers_ok kv.2 = true) "}"%char) in Heq as [-> ->]; try done.
    rewrite Forall_forall in *. intros [k x] Hx [k' y] r r' Hy Hr Hr' He. simpl in *.
    autorewrite with kasumi in He. apply write_str_prefix in He as [-> He].
    apply string_cons_inj in He.
    destruct (IH (k', x) Hx y r r') as [Hxy ->]; try done; [apply (Hn1 _ Hx)|].
    simpl in Hxy. by subst.
Qed.

Lemma write_inj v1 v2 :
  numbers_ok v1 = true → numbers_ok v2 = true → write v1 = write v2 → v1 = v2.
Proof.
  intros Hn1 Hn2 Heq. destruct (write_prefix v1 v2 "" "") as [-> _]; try done.
  by rewrite Heq.
Qed.

(** ** Canonical encoding: lemmas *)

(** Objects have distinct keys, at every level. *)
Fixpoint unique_keys (v : value) : Prop :=
  match v with
  | VArray l => foldr (λ v P, unique_keys v ∧ P) True l
  | VObject l => NoDup l.*1 ∧ foldr (λ kv P, unique_keys kv.2 ∧ P) True l
  | _ => True
  end.

(** The same JSON value up to the order of object entries. *)
Inductive same_json : value → value → Prop :=
| same_leaf v : same_json v v
| same_array l1 l2 : Forall2 same_json l1 l2 → same_json (VArray l1) (VArray l2)
| same_object l1 l l2 :
    l1 ≡ₚ l → Forall2 (λ x y, x.1 = y.1 ∧ same_json x.2 y.2) l l2 →
    same_json (VObject l1) (VObject l2).

Lemma keys_sorted_Sorted {V} (l : list (string * V)) :
  keys_sorted l = true → StronglySorted entry_le l.
Proof.
  intros Hs. apply (Sorted_StronglySorted _). induction l as [|x [|y l] IH]; [by constructor..|].
  simpl in Hs. apply andb_true_iff in Hs as [Hxy Hs]. apply bool_decide_eq_true_1 in Hxy.
  constructor; [by apply IH|]. by constructor.
Qed.

Lemma sort_entries_sorted {V} (l : list (string * V)) : StronglySorted entry_le (sort_entries l).
Proof.
  unfold sort_entries. destruct (keys_sorted l) eqn:Hs.
  - by apply keys_sorted_Sorted.
  - apply (StronglySorted_merge_sort _).
Qed.

Lemma sort_entries_perm {V} (l : list (string * V)) : sort_entries l ≡ₚ l.
Proof. unfold sort_entries. case_match; [done|apply merge_sort_Permutation]. Qed.

(** Sorting forgets the order the entries came in. *)
Lemma sort_entries_eq {V} (l1 l2 : list (string * V)) :
  NoDup l1.*1 → l1 ≡ₚ l2 → sort_entries l1 = sort_entries l2.
Proof.
  intros Hnd Hp. apply sorted_entries_unique; [apply sort_entries_sorted..| |].
  - by rewrite sort_entries_perm.
  - by rewrite !sort_entries_perm.
Qed.

Lemma canonical_same v1 : ∀ v2,
  unique_keys v1 → same_json v1 v2 → canonical v1 = canonical v2.
Proof.
  induction v1 as [| | | |l IH|l IH] using value_rec_nested; intros v2 Hu Hs;
    inversion Hs as [|l1 l2 Hl|l1 l' l2 Hp Hl]; subst; try done; simpl in *; f_equal.
  - apply foldr_and_Forall in Hu. apply Forall2_fmap_eq.
    eapply Forall2_impl_l; [exact (proj2 (Forall_and _ _) (conj IH Hu))|exact Hl|naive_solver].
  - destruct Hu as [Hnd Hu]. apply foldr_and_Forall in Hu. rewrite Hp in Hnd, Hu, IH.
    rewrite (sort_entries_eq _ ((λ kv, (kv.1, canonical kv.2)) <$> l')).
    + f_equal. apply Forall2_fmap_eq.
      eapply Forall2_impl_l; [exact (proj2 (Forall_and _ _) (conj IH Hu))|exact Hl|].
      intros [k x] [k' y] [IHx Hux] [Hk Hxy]. simpl in *. by rewrite Hk, (IHx y).
    + rewrite <-list_fmap_compose. rewrite Hp. done.
    + by rewrite Hp.
Qed.

Lemma same_canonical v : same_json v (canonical v).
Proof.
  induction v as [| | | |l IH|l IH] using value_rec_nested; simpl; [constructor..| |].
  - constructor. induction IH; csimpl; constructor; auto.
  - set (l' := (λ kv, (kv.1, canonical kv.2)) <$> l).
    assert (Hp : l' ≡ₚ sort_entries l') by by rewrite sort_entries_perm.
    assert (Hf : Forall2 (λ x y, x.1 = y.1 ∧ same_json x.2 y.2) l l').
    { subst l'. clear Hp. induction IH; csimpl; constructor; auto. }
    apply Forall2_flip in Hf. destruct (Permutation_Forall2 Hp Hf) as (l1 & Hp1 & Hf1).
    apply (same_object l l1); [done|]. by apply Forall2_flip.
Qed.

Lemma same_json_sym v1 : ∀ v2, same_json v1 v2 → same_json v2 v1.
Proof.
  induction v1 as [| | | |l IH|l IH] using value_rec_nested; intros v2 Hs;
    inversion Hs as [|l1 l2 Hl|l1 l' l2 Hp Hl]; subst; try constructor.
  - apply Forall2_flip. eapply Forall2_impl_l; [exact IH|exact Hl|naive_solver].
  - symmetry in Hp. destruct (Permutation_Forall2 Hp Hl) as (l2' & Hp2 & Hl2).
    apply (same_object l2 l2'); [done|]. apply Forall2_flip.
    eapply Forall2_impl_l; [exact IH|exact Hl2|]. intros x y ? []. split; auto.
Qed.

Lemma same_json_trans v1 : ∀ v2 v3, same_json v1 v2 → same_json v2 v3 → same_json v1 v3.
Proof.
  induction v1 as [| | | |l IH|l IH] using value_rec_nested; intros v2 v3 H12 H23;
    inversion H12 as [|l1 l2 Hl|l1 l' l2 Hp Hl]; subst; try done;
    inversion H23 as [|l1' l3 Hl3|l1' l3' l3 Hp3 Hl3]; subst; try done.
  - constructor. eapply Forall2_compose; [exact IH|exact Hl|exact Hl3|naive_solver].
  - apply Forall2_flip in Hl. destruct (Permutation_Forall2 Hp3 Hl) as (l'' & Hp'' & Hl'').
    apply Forall2_flip in Hl''. apply (same_object l l''); [by etrans|].
    rewrite Hp, Hp'' in IH.
    eapply Forall2_compose; [exact IH|exact Hl''|exact Hl3|].
    intros x y z ? [] []. split; [congruence|eauto].
Qed.

Lemma canonical_numbers v : numbers_ok v = true → numbers_ok (canonical v) = true.
Proof.
  induction v as [| | | |l IH|l IH] using value_rec_nested; simpl; try done;
    rewrite !forallb_ok; intros Hn.
  - apply Forall_fmap. eapply Forall_impl; [exact (proj2 (Forall_and _ _) (conj IH Hn))|]. naive_solver.
  - rewrite sort_entries_perm. apply Forall_fmap.
    eapply Forall_impl; [exact (proj2 (Forall_and _ _) (conj IH Hn))|]. naive_solver.
Qed.

(** ** Merge patch: specification and lemmas *)

(** Strictly increasing keys: the contents of a [BTreeMap]. *)
Definition key_lt (x y : string * value) : Prop := String.le x.1 y.1 ∧ x.1 ≠ y.1.

Definition map_sorted (l : list (string * value)) : Prop := StronglySorted key_lt l.

(** Every object of the value is a [BTreeMap]. *)
Fixpoint maps_ok (v : value) : Prop :=
  match v with
  | VArray l => foldr (λ v P, maps_ok v ∧ P) True l
  | VObject l => map_sorted l ∧ foldr (λ kv P, maps_ok kv.2 ∧ P) True l
  | _ => True
  end.

(** RFC 7396, member by member: a value that is not an object replaces the
    target; an object keeps the target's members it does not name, removes
    those it sets to null and merges the others recursively. *)
Inductive merged : value → value → value → Prop :=
| merged_replace patch target :
    is_object patch = false → merged patch target patch
| merged_members ms target res :
    map_sorted res →
    (∀ k, obj_lookup k ms = None → obj_lookup k res = obj_lookup k (members target)) →
    (∀ k, obj_lookup k ms = Some VNull → obj_lookup k res = None) →
    (∀ k p, obj_lookup k ms = Some p → is_null p = false →
       ∃ c, obj_lookup k res = Some c ∧
            merged p (default VNull (obj_lookup k (members target))) c) →
    merged (VObject ms) target (VObject res).

(** The number of nested objects of a patch. *)
Fixpoint nesting (v : value) : N :=
  match v with
  | VObject l => 1 + foldr (λ kv m, N.max (nesting kv.2) m) 0 l
  | _ => 0
  end.

Lemma obj_lookup_insert k k' v l :
  obj_lookup k' (obj_insert k v l) =
  if bool_decide (k' = k) then Some v else obj_lookup k' l.
Proof.
  induction l as [|[k1 v1] l IH]; simpl; [done|].
  repeat (case_bool_decide; subst; simpl; try done); congruence.
Qed.

Lemma obj_lookup_remove k k' l :
  obj_lookup k' (obj_remove k l) =
  if bool_decide (k' = k) then None else obj_lookup k' l.
Proof.
  unfold obj_remove. induction l as [|[k1 v1] l IH]; [by case_bool_decide|].
  rewrite filter_cons. simpl. repeat (case_decide || case_bool_decide; subst; simpl; try done).
Qed.

Lemma obj_lookup_elem k v l : obj_lookup k l = Some v → (k, v) ∈ l.
Proof.
  induction l as [|[k1 v1] l IH]; simpl; [done|].
  case_bool_decide; intros; simplify_eq; [by left|right; auto].
Qed.

Lemma obj_lookup_None k l : obj_lookup k l = None ↔ ∀ v, (k, v) ∉ l.
Proof.
  split.
  - intros Hl v Hin. induction l as [|[k1 v1] l IH]; [by apply elem_of_nil in Hin|].
    simpl in Hl. case_bool_decide; [done|]. apply elem_of_cons in Hin as [|]; [congruence|auto].
  - intros Hno. destruct (obj_lookup k l) as [v|] eqn:Hl; [|done].
    by apply obj_lookup_elem, Hno in Hl.
Qed.

#[export] Instance key_lt_trans : Transitive key_lt.
Proof.
  intros x y z [Hxy Hne] [Hyz Hne']. split; [by etrans|]. intros Heq. rewrite Heq in Hxy.
  apply Hne'. by apply (anti_symm String.le).
Qed.

Lemma map_sorted_lookup k v l : map_sorted l → (k, v) ∈ l → obj_lookup k l = Some v.
Proof.
  unfold map_sorted. induction 1 as [|[k1 v1] l Hl IH Hall]; intros Hin;
    [by apply elem_of_nil in Hin|].
  simpl. rewrite Forall_forall in Hall. apply elem_of_cons in Hin as [Heq|Hin].
  - simplify_eq. by rewrite bool_decide_true.
  - rewrite bool_decide_false; [auto|]. intros ->. by destruct (Hall _ Hin).
Qed.

(** Two maps with the same lookups are equal. *)
Lemma map_sorted_ext l1 l2 :
  map_sorted l1 → map_sorted l2 → (∀ k, obj_lookup k l1 = obj_lookup k l2) → l1 = l2.
Proof.
  intros Hs1 Hs2 Hext.
  assert (Hel : ∀ x, x ∈ l1 ↔ x ∈ l2).
  { intros [k v]. split; intros Hin; apply obj_lookup_elem;
      [rewrite <-Hext|rewrite Hext]; by apply map_sorted_lookup. }
  assert (Hnd : ∀ l, map_sorted l → NoDup l.*1).
  { induction 1 as [|x l Hl IH Hall]; csimpl; constructor; [|done].
    intros (y & Hy & Hin)%list_elem_of_fmap. rewrite Forall_forall in Hall.
    by destruct (Hall _ Hin). }
  assert (Hle : ∀ l, map_sorted l → StronglySorted entry_le l).
  { induction 1 as [|x l Hl IH Hall]; constructor; [done|].
    eapply Forall_impl; [exact Hall|]. by intros y []. }
  apply sorted_entries_unique; auto.
  apply NoDup_Permutation; [eapply NoDup_fmap_1; eauto..|done].
Qed.

Lemma obj_remove_sorted k l : map_sorted l → map_sorted (obj_remove k l).
Proof.
  unfold map_sorted, obj_remove. induction 1 as [|x l Hl IH Hall]; [constructor|].
  rewrite filter_cons. case_decide; [|done]. constructor; [done|].
  rewrite Forall_forall in *. intros y Hy. apply list_elem_of_filter in Hy as [_ Hy]. auto.
Qed.

Lemma obj_insert_sorted k v l : map_sorted l → map_sorted (obj_insert k v l).
Proof.
  unfold map_sorted. induction 1 as [|[k1 v1] l Hl IH Hall]; simpl; [by repeat constructor|].
  case_bool_decide; [subst; by constructor|]. case_bool_decide.
  - constructor; [by constructor|]. constructor; [done|].
    eapply Forall_impl; [exact Hall|]. intros y Hy. by trans (k1, v1).
  - constructor; [done|]. rewrite Forall_forall in *. intros [k2 v2] Hin.
    destruct (decide (k2 = k)) as [->|Hne].
    + split; simpl; [|done]. by destruct (total String.le k k1).
    + apply Hall. clear IH Hall. induction l as [|[k3 v3] l IHl]; simpl in Hin.
      * apply list_elem_of_singleton in Hin. congruence.
      * apply StronglySorted_inv in Hl as [Hl _].
        repeat case_bool_decide; rewrite ?elem_of_cons in *; naive_solver.
Qed.

(** The loop of [merge] over the members of a patch. *)
Definition merge_members (depth : N) :=
  fix go (ms : list (string * value)) (object : list (string * value)) :=
    match ms with
    | [] => (object, Ok tt)
    | (key, v) :: rest =>
        if is_null v then go rest (obj_remove key object)
        else
          let '(child, r) := merge v (depth + 1) (default VNull (obj_lookup key object)) in
          let object' := obj_insert key child object in
          match r with
          | Ok _ => go rest object'
          | Err e => (object', Err e : result string unit)
          end
    end.

Lemma merge_object ms depth target :
  merge (VObject ms) depth target =
  if MAX_MERGE_PATCH_DEPTH <? depth then (target, Err merge_depth_error)
  else let '(object, r) := merge_members depth ms (members target) in (VObject object, r).
Proof. reflexivity. Qed.

(** The largest nesting of a list of members. *)
Definition members_nesting (l : list (string * value)) : N :=
  foldr (λ kv m, N.max (nesting kv.2) m) 0 l.

Definition fits (v : value) (depth : N) : Prop :=
  nesting v = 0 ∨ depth + nesting v ≤ MAX_MERGE_PATCH_DEPTH + 1.

Lemma nesting_object_pos v : is_object v = true → 0 < nesting v.
Proof. destruct v; simpl; try done. lia. Qed.

(** Merging succeeds exactly when the patch is not nested too deeply. *)
Lemma merge_ok_iff v : ∀ depth target,
  is_ok (merge v depth target).2 = true ↔ fits v depth.
Proof.
  unfold fits. induction v as [| | | | |l IH] using value_rec_nested; intros depth target;
    [simpl; naive_solver..|].
  rewrite merge_object. change (nesting (VObject l)) with (1 + members_nesting l).
  destruct (N.ltb_spec MAX_MERGE_PATCH_DEPTH depth) as [Hd|Hd]; [simpl; split; [done|lia]|].
  assert (Hgo : ∀ object, is_ok (merge_members depth l object).2 = true ↔
    members_nesting l = 0 ∨ depth + 1 + members_nesting l ≤ MAX_MERGE_PATCH_DEPTH + 1).
  { induction IH as [|[k x] l Hx IH IHl]; intros object; simpl; [naive_solver|].
    fold (members_nesting l).
    destruct (is_null x) eqn:Hnull.
    { destruct x; try done. simpl. rewrite IHl. replace (0 `max` members_nesting l)
        with (members_nesting l) by lia. done. }
    simpl in Hx. specialize (Hx (depth + 1) (default VNull (obj_lookup k object))).
    destruct (merge x (depth + 1) _) as [child [[]|e]]; simpl in *.
    - rewrite IHl. destruct Hx as [Hx _]. specialize (Hx eq_refl). lia.
    - destruct Hx as [_ Hx]. split; [done|]. intros Hf. exfalso.
      assert (false = true); [|done]. apply Hx. lia. }
  specialize (Hgo (members target)). destruct (merge_members _ _ _) as [object r]. simpl in *.
  rewrite Hgo. lia.
Qed.

(** What the loop leaves under each key. *)
Lemma merge_members_lookup depth ms : ∀ object object' k,
  map_sorted ms → merge_members depth ms object = (object', Ok tt) →
  match obj_lookup k ms with
  | None => obj_lookup k object' = obj_lookup k object
  | Some p =>
      if is_null p then obj_lookup k object' = None
      else ∃ c, merge p (depth + 1) (default VNull (obj_lookup k object)) = (c, Ok tt) ∧
                obj_lookup k object' = Some c
  end.
Proof.
  induction ms as [|[key v] ms IH]; intros object object' k Hs Hm; simpl in Hm; [by simplify_eq|].
  apply StronglySorted_inv in Hs as [Hs Hall].
  assert (Hkey : obj_lookup key ms = None).
  { apply obj_lookup_None. intros x Hin. rewrite Forall_forall in Hall.
    by destruct (Hall _ Hin). }
  simpl. destruct (is_null v) eqn:Hnull.
  - specialize (IH _ _ k Hs Hm). rewrite obj_lookup_remove in IH.
    case_bool_decide; [subst; by rewrite Hkey, ?Hnull in *|done].
  - destruct (merge v (depth + 1) (default VNull (obj_lookup key object))) as [child [[]|e]]
      eqn:Hc; [|done].
    specialize (IH _ _ k Hs Hm). rewrite obj_lookup_insert in IH.
    case_bool_decide; [subst|done]. rewrite Hkey in IH. rewrite Hnull. eauto.
Qed.

Lemma merge_members_sorted depth ms : ∀ object,
  map_sorted object → map_sorted (merge_members depth ms object).1.
Proof.
  induction ms as [|[key v] ms IH]; intros object Hs; simpl; [done|].
  destruct (is_null v); [by apply IH, obj_remove_sorted|].
  destruct (merge _ _ _) as [child [|]]; simpl; [apply IH|]; by apply obj_insert_sorted.
Qed.

Lemma members_sorted v : maps_ok v → map_sorted (members v).
Proof. destruct v; simpl; try (intros; constructor). by intros [? _]. Qed.

Lemma maps_ok_lookup k v x : maps_ok v → obj_lookup k (members v) = Some x → maps_ok x.
Proof.
  destruct v as [| | | | |l]; try done. simpl. intros [_ Hall] Hl.
  rewrite (foldr_and_Forall (λ kv, maps_ok kv.2)), Forall_forall in Hall.
  by apply obj_lookup_elem, Hall in Hl.
Qed.

Lemma maps_ok_object l :
  map_sorted l → (∀ k x, obj_lookup k l = Some x → maps_ok x) → maps_ok (VObject l).
Proof.
  intros Hs Hall. simpl. split; [done|]. apply (foldr_and_Forall (λ kv, maps_ok kv.2)).
  apply Forall_forall. intros [k x] Hin. eapply Hall, map_sorted_lookup; eauto.
Qed.

(** A merge that succeeds produces what RFC 7396 prescribes. *)
Lemma merge_merged patch : ∀ depth target res,
  maps_ok patch → maps_ok target → merge patch depth target = (res, Ok tt) →
  merged patch target res ∧ maps_ok res.
Proof.
  induction patch as [| | | | |ms IH] using value_rec_nested; intros depth target res Hp Ht Hm;
    try (simpl in Hm; simplify_eq; split; [by constructor|done]).
  rewrite merge_object in Hm. case_match; [done|].
  destruct (merge_members _ _ _) as [object r] eqn:Hgo. simplify_eq.
  assert (Hobj : map_sorted object).
  { pose proof (merge_members_sorted depth ms (members target) (members_sorted _ Ht)) as Hs.
    by rewrite Hgo in Hs. }
  assert (Hlook := λ k, merge_members_lookup depth ms _ _ k (members_sorted _ Hp) Hgo).
  assert (Hchild : ∀ k p, obj_lookup k ms = Some p → is_null p = false →
    ∃ c, obj_lookup k object = Some c ∧
         merged p (default VNull (obj_lookup k (members target))) c ∧ maps_ok c).
  { intros k p Hk Hnull. specialize (Hlook k). rewrite Hk, Hnull in Hlook.
    destruct Hlook as (c & Hc & Hl). exists c. split; [done|].
    rewrite Forall_forall in IH. eapply (IH (k, p)); [by apply obj_lookup_elem| | |exact Hc].
    - by eapply (maps_ok_lookup k (VObject ms)).
    - destruct (obj_lookup k (members target)) eqn:He; [by eapply maps_ok_lookup|done]. }
  split.
  - constructor; [done|..].
    + intros k Hk. specialize (Hlook k). by rewrite Hk in Hlook.
    + intros k Hk. specialize (Hlook k). by rewrite Hk in Hlook.
    + intros k p Hk Hnull. destruct (Hchild k p Hk Hnull) as (c & ? & ? & _). eauto.
  - apply maps_ok_object; [done|]. intros k x Hx. specialize (Hlook k).
    destruct (obj_lookup k ms) as [p|] eqn:Hk.
    + destruct (is_null p) eqn:Hnull; [congruence|].
      destruct (Hchild k p Hk Hnull) as (c & ? & _ & ?). by simplify_eq.
    + rewrite Hlook in Hx. by eapply maps_ok_lookup.
Qed.

(** The specification determines the result. *)
Lemma merged_unique patch : ∀ target res1 res2,
  merged patch target res1 → merged patch target res2 → res1 = res2.
Proof.
  induction patch as [| | | | |ms IH] using value_rec_nested; intros target res1 res2 H1 H2;
    inversion H1 as [|? ? l1 Hs1 Hkeep1 Hrem1 Hset1]; subst; try done;
    inversion H2 as [|? ? l2 Hs2 Hkeep2 Hrem2 Hset2]; subst; try done.
  f_equal. apply map_sorted_ext; [done..|]. intros k.
  destruct (obj_lookup k ms) as [p|] eqn:Hk.
  - destruct (is_null p) eqn:Hnull.
    { destruct p; try done. by rewrite Hrem1, Hrem2. }
    destruct (Hset1 k p Hk Hnull) as (c1 & -> & Hc1), (Hset2 k p Hk Hnull) as (c2 & -> & Hc2).
    f_equal. rewrite Forall_forall in IH.
    by eapply (IH (k, p)); [apply obj_lookup_elem| |].
  - by rewrite Hkeep1, Hkeep2.
Qed.

(** A merged document already satisfies the patch. *)
Lemma merged_again patch : ∀ target res, merged patch target res → merged patch res res.
Proof.
  induction patch as [| | | | |ms IH] using value_rec_nested; intros target res Hm;
    inversion Hm as [|? ? res1 Hs Hkeep Hrem Hset]; subst; try (by constructor); try done.
  constructor; [done|done|done|]. intros k p Hk Hnull.
  destruct (Hset k p Hk Hnull) as (c & Hc & Hmc). exists c. split; [done|].
  simpl. rewrite Hc. simpl. rewrite Forall_forall in IH.
  by eapply (IH (k, p)); [apply obj_lookup_elem|].
Qed.

(** ** Exact decoding: lemmas *)

Lemma strip_prefix_Some p s r : strip_prefix p s = Some r ↔ s = p +:+ r.
Proof.
  revert s. induction p as [|c p IH]; intros s; simpl.
  - rewrite app_string_nil. naive_solver.
  - rewrite app_string_cons. destruct s as [|c' s]; [naive_solver|].
    case_bool_decide; [|naive_solver]. rewrite IH. naive_solver.
Qed.

(** The streaming comparison accepts a sequence of fragments exactly when
    their concatenation is a prefix of the original, however it is cut. *)
Lemma compare_fold fs : ∀ w w' r,
  st_fold (λ _ bytes, compare_write bytes) tt fs w = (w', r) →
  (r = Ok tt ∧ cmp_differs w' = cmp_differs w ∧
   cmp_remaining w = foldr String.app "" fs +:+ cmp_remaining w') ∨
  (is_ok r = false ∧ cmp_differs w' = true ∧
   ∀ t, cmp_remaining w ≠ foldr String.app "" fs +:+ t).
Proof.
  induction fs as [|f fs IH]; intros w w' r Hf; simpl in *.
  { injection Hf as <- <-. left. by rewrite app_string_nil. }
  unfold mbind, ST_bind, compare_write at 1 in Hf.
  destruct (strip_prefix f (cmp_remaining w)) as [rest|] eqn:Hp.
  - apply strip_prefix_Some in Hp. apply IH in Hf. simpl in Hf.
    destruct Hf as [(-> & Hd & Hr)|(He & Hd & Hr)]; [left|right].
    + split; [done|]. split; [done|]. rewrite Hp, Hr. by rewrite app_string_assoc.
    + split; [done|]. split; [done|]. intros t. rewrite Hp, app_string_assoc.
      intros Heq. apply (inj (String.app f)) in Heq. by apply (Hr t).
  - injection Hf as <- <-. right. split; [done|]. split; [done|]. intros t Heq.
    rewrite app_string_assoc in Heq. apply strip_prefix_Some in Heq. congruence.
Qed.

Lemma require_current_writer_bytes_iff original e name :
  encoding_error e = None →
  require_current_writer_bytes original e name =
  if bool_decide (original = encoded_bytes e) then Ok tt
  else Err ("noncanonical " +:+ name).
Proof.
  intros He. unfold require_current_writer_bytes, compare_to_writer, encoded_bytes.
  cbv [mbind ST_bind]. destruct (st_fold _ _ _ _) as [w r] eqn:Hf.
  apply compare_fold in Hf as [(-> & Hd & Hr)|(Hr & Hd & Hno)]; simpl in *.
  - rewrite He. simpl. unfold reject_if. rewrite Hr. destruct (cmp_remaining w) as [|c rest].
    + rewrite app_string_nil_r, !bool_decide_true by done. done.
    + rewrite !bool_decide_false; [done| |done]. intros Heq.
      apply (f_equal str_len) in Heq. rewrite str_len_app, str_len_cons in Heq. lia.
  - destruct r as [|err]; [done|]. rewrite Hd, bool_decide_false; [done|].
    intros Heq. apply (Hno ""). by rewrite app_string_nil_r.
Qed.

(** ** Correctness *)

(** C35.  Canonical bytes identify a JSON value: two values (with distinct keys
    in every object, as parsed values have) have the same canonical encoding
    exactly when they are the same JSON value up to the order of object
    entries.  A digest of the canonical bytes therefore never separates two
    spellings of one value and, hash collisions apart, never confuses two
    values. *)
Theorem canonical_bytes_identify v1 v2 :
  unique_keys v1 → unique_keys v2 → numbers_ok v1 = true → numbers_ok v2 = true →
  canonical_bytes v1 = canonical_bytes v2 ↔ same_json v1 v2.
Proof.
  intros Hu1 Hu2 Hn1 Hn2. unfold canonical_bytes. split.
  - intros Heq. apply write_inj in Heq; [|auto using canonical_numbers..].
    eapply same_json_trans; [apply same_canonical|]. rewrite Heq.
    apply same_json_sym, same_canonical.
  - intros Hs. f_equal. by apply canonical_same.
Qed.

Lemma canonical_bytes_identify_witness :
  let v1 := VObject [("b", VNumber "1.50"); ("a", VArray [VNull; VString "x"])] in
  let v2 := VObject [("a", VArray [VNull; VString "x"]); ("b", VNumber "1.50")] in
  canonical_bytes v1 = canonical_bytes v2 ↔ same_json v1 v2.
Proof.
  intros v1 v2. apply (canonical_bytes_identify v1 v2); try reflexivity;
    (split; [apply (bool_decide_unpack _); reflexivity|repeat split]).
Defined.

(** C34.  RFC 7396: a merge patch that is an object nested at most 65 levels
    deep always applies, and the document it leaves is the one the
    member-by-member specification determines, with its objects in key order;
    applying the same patch again changes nothing. *)
Theorem merge_patch_follows_rfc7396 patch target :
  maps_ok patch → maps_ok target → is_object patch = true →
  nesting patch ≤ MAX_MERGE_PATCH_DEPTH + 1 →
  ∃ res, apply_merge_patch patch target = (res, Ok tt) ∧
    merged patch target res ∧ (∀ res', merged patch target res' → res' = res) ∧
    maps_ok res ∧ apply_merge_patch patch res = (res, Ok tt).
Proof.
  intros Hp Ht Hobj Hn. unfold apply_merge_patch. rewrite Hobj.
  assert (Hok : ∀ t, maps_ok t → ∃ res, merge patch 0 t = (res, Ok tt) ∧
    merged patch t res ∧ maps_ok res).
  { intros t Hmt. pose proof (merge_ok_iff patch 0 t) as [_ Hiff].
    destruct (merge patch 0 t) as [res [[]|e]] eqn:Hm; [|discriminate Hiff; right; lia].
    exists res. split; [done|]. by eapply merge_merged. }
  destruct (Hok target Ht) as (res & Hm & Hmd & Hmo). exists res.
  destruct (Hok res Hmo) as (res2 & Hm2 & Hmd2 & _).
  split_and!; [done|done| |done|].
  - intros res' Hres'. by eapply merged_unique.
  - rewrite Hm2. f_equal. eapply merged_unique; [done|]. by eapply merged_again.
Qed.

Lemma merge_patch_follows_rfc7396_witness :
  let patch := VObject [("a", VObject [("b", VString "d"); ("c", VNull)]); ("e", VNull)] in
  let target := VObject [("a", VObject [("b", VString "c")]); ("e", VNumber "1")] in
  ∃ res, apply_merge_patch patch target = (res, Ok tt) ∧
    merged patch target res ∧ (∀ res', merged patch target res' → res' = res) ∧
    maps_ok res ∧ apply_merge_patch patch res = (res, Ok tt).
Proof.
  intros patch target. apply (merge_patch_follows_rfc7396 patch target); [| |done|done];
    repeat split; repeat constructor; done.
Defined.

(** A merge patch is refused exactly when it is not an object or nests
    objects deeper than the limit; the target never decides. *)
Theorem merge_patch_refused_iff patch target :
  is_ok (apply_merge_patch patch target).2 = false ↔
  is_object patch = false ∨ MAX_MERGE_PATCH_DEPTH + 1 < nesting patch.
Proof.
  unfold apply_merge_patch. destruct (is_object patch) eqn:Hobj; [|simpl; naive_solver].
  pose proof (merge_ok_iff patch 0 target) as Hiff. unfold fits in Hiff.
  pose proof (nesting_object_pos patch Hobj).
  rewrite <-not_true_iff_false, Hiff. split; [intros; right; lia|]. intros [|]; [done|lia].
Qed.

(** Exact admission of durable records: whatever fragments the current
    writer cuts its output into, the streaming comparison accepts the stored
    bytes exactly when they are the writer's output for the decoded value, and
    a decoded record is always within its byte bound, parsed from those bytes
    and re-encoded to those bytes. *)
Theorem decode_exact_sound {T} (from_slice : string → option T) (encode : T → Encoding)
    bytes max name v :
  (∀ x, encoding_error (encode x) = None) →
  decode_exact from_slice encode bytes max name = Ok v ↔
  str_len bytes ≤ max ∧ from_slice bytes = Some v ∧ bytes = encoded_bytes (encode v).
Proof.
  intros Henc. unfold decode_exact. split.
  - intros Hd. inv_ok. inv_guards. rewrite require_current_writer_bytes_iff in * by auto.
    case_bool_decide; [done|discriminate].
  - intros (Hlen & Hs & Hb). unfold reject_if. destruct (N.ltb_spec max (str_len bytes)); [lia|].
    rewrite Hs. simpl. rewrite require_current_writer_bytes_iff by auto.
    by rewrite bool_decide_true.
Qed.

(** The codec of one JSON boolean, written in two fragments. *)
Lemma decode_exact_sound_witness :
  let parse s := if bool_decide (s = "true") then Some true
                 else if bool_decide (s = " true") then Some true else None in
  let encode (b : bool) := {| fragments := if b then ["tr"; "ue"] else ["fal"; "se"];
                              encoding_error := None |} in
  decode_exact parse encode "true" 10 "flag" = Ok true ↔
  str_len "true" ≤ 10 ∧ parse "true" = Some true ∧ "true" = encoded_bytes (encode true).
Proof. intros parse encode. apply (decode_exact_sound parse encode). done. Defined.
