(* ===== verification/Types.v ===== *)
(** * kasumi-types: the data of the engine, and its wire encoding

    Models the data types of src/crates/kasumi-types/src (lib.rs, atomic.rs,
    history.rs, audit.rs, stored_document.rs) that ordered application reads
    and writes, with the [Serialize] implementations whose encoded lengths and
    digests the engine accounts by.

    An encoding is the JSON value serde builds, with the entries of an object in
    the order serde writes the fields; [to_json] is the bytes.  Sub-states of
    the tenant that belong to components outside this development are carried
    as their JSON encoding. *)

From S2P Require Import Prelude Json.

(** ** Errors *)

Inductive ErrorCode :=
| InvalidArgument | Unauthorized | Forbidden | NotFound | AlreadyExists | Conflict
| SchemaViolation | QuotaExceeded | ResourceExhausted | IndexRequired | CursorExpired
| Unavailable | UnknownOutcome | Corruption | Sealed | AuditUnavailable.

#[export] Instance ErrorCode_eq_dec : EqDecision ErrorCode.
Proof. solve_decision. Defined.

(** [denial_audit_attempted] is request-local and outside equality and the
    wire form; it is not part of the value. *)
Record Error := mkError {
  code : ErrorCode;
  message : string;
}.

#[export] Instance Error_eq_dec : EqDecision Error.
Proof. solve_decision. Defined.

Definition MAX_MESSAGE_BYTES : N := 512.

(** [str::is_char_boundary] below the length: the byte is not a UTF-8
    continuation byte. *)
Definition continuation_byte (c : ascii) : bool :=
  let n := N_of_ascii c in (128 <=? n) && (n <? 192).

Definition is_char_boundary (s : string) (n : nat) : bool :=
  match n with
  | O => true
  | _ => match String.get n s with
         | Some c => negb (continuation_byte c)
         | None => Nat.eqb n (String.length s)
         end
  end.

(** [while !message.is_char_boundary(end) { end -= 1 }]; zero is a boundary. *)
Fixpoint floor_char_boundary (s : string) (n : nat) : nat :=
  if is_char_boundary s n then n
  else match n with O => O | S n' => floor_char_boundary s n' end.

(** [Error::bounded_message]. *)
Definition bounded_message (m : string) : string :=
  if MAX_MESSAGE_BYTES <? str_len m then
    String.substring 0 (floor_char_boundary m (N.to_nat (MAX_MESSAGE_BYTES - 3))) m +:+ "..."
  else m.

(** [Error::new]. *)
Definition new_error (c : ErrorCode) (m : string) : Error :=
  {| code := c; message := bounded_message m |}.

Abbreviation Result := (result Error).

Definition fail {A} (c : ErrorCode) (m : string) : Result A := Err (new_error c m).
Definition ensure (b : bool) (c : ErrorCode) (m : string) : Result unit :=
  if b then Ok tt else fail c m.

(** [validate_name]: 1 to 256 bytes and no control character.  In UTF-8 the
    control characters are the bytes below 0x20, 0x7F and the two-byte
    sequences C2 80 to C2 9F. *)
Fixpoint has_control (s : string) : bool :=
  match s with
  | "" => false
  | String c s' =>
      let n := N_of_ascii c in
      (n <? 32) || (n =? 127) ||
      ((n =? 194) && match s' with
                     | String c' _ => let n' := N_of_ascii c' in (128 <=? n') && (n' <? 160)
                     | "" => false
                     end) ||
      has_control s'
  end.

Definition name_error : string := "name must contain 1–256 bytes without control characters".

Definition validate_name (s : string) : Result unit :=
  if (str_len s =? 0) || (256 <? str_len s) || has_control s
  then fail InvalidArgument name_error else Ok tt.

(** [validate_sha256]. *)
Definition sha256_char (c : ascii) : bool :=
  let n := N_of_ascii c in
  ((48 <=? n) && (n <=? 57)) || ((97 <=? n) && (n <=? 102)).

Fixpoint all_chars (p : ascii → bool) (s : string) : bool :=
  match s with "" => true | String c s' => p c && all_chars p s' end.

Definition validate_sha256 (s : string) : Result unit :=
  if negb (str_len s =? 64) || negb (all_chars sha256_char s)
  then fail InvalidArgument "invalid SHA-256 digest" else Ok tt.

(** ** Serialization *)

Class Serialize (A : Type) := to_value : A → value.

Definition to_json {A} `{Serialize A} (a : A) : string := write (to_value a).

(** [accounting::encoded_len]: the length of the encoding as a [usize]. *)
Definition encoded_len {A} `{Serialize A} (a : A) : Result N :=
  let n := str_len (to_json a) in
  if n <=? u64_max then Ok n else fail InvalidArgument "JSON encoding failed".

#[export] Instance serialize_value : Serialize value := λ v, v.
#[export] Instance serialize_string : Serialize string := VString.
#[export] Instance serialize_bool : Serialize bool := VBool.
#[export] Instance serialize_N : Serialize N := λ n, VNumber (pretty n).
#[export] Instance serialize_option {A} `{Serialize A} : Serialize (option A) := λ o,
  match o with Some a => to_value a | None => VNull end.
#[export] Instance serialize_list {A} `{Serialize A} : Serialize (list A) := λ l,
  VArray (to_value <$> l).
#[export] Instance serialize_pair {A B} `{Serialize A, Serialize B} : Serialize (A * B) := λ p,
  VArray [to_value p.1; to_value p.2].
#[export] Instance serialize_string_map {A} `{Serialize A} : Serialize (gmap string A) := λ m,
  VObject ((λ kv, (kv.1, to_value kv.2)) <$> map_iter m).
#[export] Instance serialize_string_set : Serialize (gset string) := λ s,
  VArray (VString <$> set_iter s).

(** A unit variant, and a newtype variant, of an externally tagged enum. *)
Definition unit_variant (name : string) : value := VString name.
Definition newtype_variant {A} `{Serialize A} (name : string) (a : A) : value :=
  VObject [(name, to_value a)].

#[export] Instance serialize_ErrorCode : Serialize ErrorCode := λ c,
  VString match c with
  | InvalidArgument => "INVALID_ARGUMENT" | Unauthorized => "UNAUTHORIZED"
  | Forbidden => "FORBIDDEN" | NotFound => "NOT_FOUND"
  | AlreadyExists => "ALREADY_EXISTS" | Conflict => "CONFLICT"
  | SchemaViolation => "SCHEMA_VIOLATION" | QuotaExceeded => "QUOTA_EXCEEDED"
  | ResourceExhausted => "RESOURCE_EXHAUSTED" | IndexRequired => "INDEX_REQUIRED"
  | CursorExpired => "CURSOR_EXPIRED" | Unavailable => "UNAVAILABLE"
  | UnknownOutcome => "UNKNOWN_OUTCOME" | Corruption => "CORRUPTION"
  | Sealed => "SEALED" | AuditUnavailable => "AUDIT_UNAVAILABLE"
  end.

#[export] Instance serialize_Error : Serialize Error := λ e,
  VObject [("code", to_value (code e)); ("message", to_value (message e))].

#[export] Instance serialize_Result {A} `{Serialize A} : Serialize (Result A) := λ r,
  match r with
  | Ok a => newtype_variant "Ok" a
  | Err e => newtype_variant "Err" e
  end.

(** ** Identities and policy *)

(** A [Uuid] is its 128 bits. *)
Abbreviation Uuid := N (only parsing).
Definition is_nil (u : Uuid) : bool := u =? 0.

Inductive Action := Read | Write | Admin | Audit.

#[export] Instance Action_eq_dec : EqDecision Action.
Proof. solve_decision. Defined.
#[export] Instance Action_countable : Countable Action.
Proof.
  refine (inj_countable'
    (λ a, match a with Read => 0 | Write => 1 | Admin => 2 | Audit => 3 end)
    (λ n, match n with 0 => Read | 1 => Write | 2 => Admin | _ => Audit end) _).
  by intros [].
Defined.

Record Grant := {
  g_principal : string;
  g_collection : option string;
  g_actions : gset Action;
}.

Record Policy := {
  grants : list Grant;
  p_strict_read_audit : bool;
}.

Inductive CredentialResource :=
| RDatabase (incarnation : Uuid)
| RControl (incarnation : Uuid)
| RAuthority (authority_id : Uuid) (partition : N)
| RCustody (incarnation : Uuid).

#[export] Instance CredentialResource_eq_dec : EqDecision CredentialResource.
Proof. solve_decision. Defined.

Inductive AuthorizationMetadata :=
| MServiceIdentity
| MCredential (expires_at_ms : N) (resource : CredentialResource).

#[export] Instance AuthorizationMetadata_eq_dec : EqDecision AuthorizationMetadata.
Proof. solve_decision. Defined.

(** The deterministic part of a [RequestContext]: what is replicated. *)
Record RequestContext := {
  authorization : AuthorizationMetadata;
  c_principal : string;
  c_tenant : string;
  scopes : gset Action;
  request_id : string;
}.

Definition MAX_REQUEST_ID_BYTES : N := 256.

(** [RequestContext::validate_request_id]. *)
Definition validate_request_id (c : RequestContext) : Result unit :=
  if MAX_REQUEST_ID_BYTES <? str_len (request_id c)
  then fail InvalidArgument "request ID exceeds 256 bytes" else Ok tt.

(** [Policy::allows]. *)
Definition allows (p : Policy) (context : RequestContext) (collection : option string)
    (action : Action) : bool :=
  bool_decide (action ∈ scopes context) &&
  existsb (λ g,
    bool_decide (g_principal g = c_principal context) &&
    bool_decide (action ∈ g_actions g) &&
    (bool_decide (g_collection g = None) || bool_decide (g_collection g = collection)))
    (grants p).

(** ** Limits *)

Record HistoryLimits := {
  max_feed_events : N;
  max_feed_bytes : N;
  max_archive_segments : N;
}.

Record AtomicLimits := {
  max_operations : N;
  max_read_assertions : N;
  max_transaction_bytes : N;
  max_active_transactions : N;
  max_reserved_staging_bytes : N;
  max_permanent_staged_bytes : N;
  max_snapshot_leases : N;
  max_snapshot_lease_bytes : N;
}.

Record AuditRetentionBudget := {
  budget_hot_bytes : N;
  budget_archive_bytes : N;
}.

Record Limits := {
  history : HistoryLimits;
  atomic : AtomicLimits;
  max_document_bytes : N;
  max_batch_operations : N;
  max_batch_bytes : N;
  max_documents : N;
  max_collections : N;
  max_schema_bytes : N;
  max_schema_activation_bytes : N;
  max_retirement_bytes : N;
  max_target_resolution_bytes : N;
  max_backup_binding_bytes : N;
  max_policy_grants : N;
  max_logical_bytes : N;
  max_snapshot_bytes : N;
  max_mutation_receipt_bytes : N;
  l_audit_retention : AuditRetentionBudget;
  max_query_candidates : N;
  max_query_groups : N;
  max_result_bytes : N;
  max_page_size : N;
  max_cursors : N;
  max_cursor_bytes : N;
  cursor_ttl_ms : N;
}.

(** [HistoryLimits::default], [AtomicLimits::default],
    [AuditRetentionBudget::default], [Limits::default]. *)
Definition default_history_limits : HistoryLimits :=
  {| max_feed_events := 100000; max_feed_bytes := N.shiftl 128 20;
     max_archive_segments := 4096 |}.

Definition default_atomic_limits : AtomicLimits :=
  {| max_operations := 100000; max_read_assertions := 100000;
     max_transaction_bytes := N.shiftl 64 20; max_active_transactions := 8;
     max_reserved_staging_bytes := N.shiftl 128 20;
     max_permanent_staged_bytes := N.shiftl 128 20;
     max_snapshot_leases := 8; max_snapshot_lease_bytes := N.shiftl 256 20 |}.

Definition default_audit_budget : AuditRetentionBudget :=
  {| budget_hot_bytes := N.shiftl 64 20; budget_archive_bytes := N.shiftl 64 30 |}.

Definition default_snapshot_bytes : N := N.shiftl 3 29.

Definition default_limits : Limits :=
  {| history := default_history_limits; atomic := default_atomic_limits;
     max_document_bytes := N.shiftl 1 20; max_batch_operations := 256;
     max_batch_bytes := N.shiftl 8 20; max_documents := 1000000; max_collections := 128;
     max_schema_bytes := N.shiftl 8 20; max_schema_activation_bytes := N.shiftl 64 20;
     max_retirement_bytes := N.shiftl 64 20; max_target_resolution_bytes := N.shiftl 64 20;
     max_backup_binding_bytes := N.shiftl 128 20; max_policy_grants := 4096;
     max_logical_bytes := N.shiftl 1 30; max_snapshot_bytes := default_snapshot_bytes;
     max_mutation_receipt_bytes := N.shiftl 128 20; l_audit_retention := default_audit_budget;
     max_query_candidates := 100000; max_query_groups := 10000;
     max_result_bytes := N.shiftl 8 20; max_page_size := 1000; max_cursors := 128;
     max_cursor_bytes := N.shiftl 256 20; cursor_ttl_ms := 60000 |}.

(** ** Documents and collections *)

Record Document := {
  d_id : string;
  d_version : N;
  body : value;
}.

#[export] Instance serialize_Document : Serialize Document := λ d,
  VObject [("id", to_value (d_id d)); ("version", to_value (d_version d));
           ("body", canonical (body d))].

(** A [[u8; 32]] digest is its lower-case hexadecimal text. *)
Record StoredDocument := {
  s_id : string;
  s_version : N;
  s_body_bytes : N;
  s_document_bytes : N;
  body_sha256 : string;
  body_object : string;
  body_object_bytes : N;
  body_decode_work : N;
  body_manifest_work : N;
}.

Inductive DocumentSlot :=
| Pending (document : Document)
| Stored (document : StoredDocument).

Inductive CollectionWriteMode := Mutable | AppendOnly.

#[export] Instance CollectionWriteMode_eq_dec : EqDecision CollectionWriteMode.
Proof. solve_decision. Defined.

Inductive CollectionRetentionClass := Operational | ArchivableHistory.

#[export] Instance CollectionRetentionClass_eq_dec : EqDecision CollectionRetentionClass.
Proof. solve_decision. Defined.

Inductive ScalarType := SString | SNumber | SBoolean | SDecimal | SStringArray | SNumberArray.
Inductive Analyzer := UnicodeV1 | EnglishV1 | JapaneseV1.

Record IndexField := { f_path : string; f_kind : ScalarType }.

Record IndexDefinition := {
  i_name : string;
  i_fields : list IndexField;
  unique : bool;
  i_text : option Analyzer;
}.

Record CollectionDefinition := {
  cd_name : string;
  write_mode : CollectionWriteMode;
  retention_class : CollectionRetentionClass;
  schema : value;
  cd_indexes : list IndexDefinition;
  cd_strict_read_audit : bool;
}.

#[export] Instance serialize_ScalarType : Serialize ScalarType := λ k,
  VString match k with
  | SString => "string" | SNumber => "number" | SBoolean => "boolean"
  | SDecimal => "decimal" | SStringArray => "string_array" | SNumberArray => "number_array"
  end.
#[export] Instance serialize_Analyzer : Serialize Analyzer := λ a,
  VObject [("analyzer", VString match a with
    | UnicodeV1 => "unicode_v1" | EnglishV1 => "english_v1" | JapaneseV1 => "japanese_v1" end)].
#[export] Instance serialize_IndexField : Serialize IndexField := λ f,
  VObject [("path", to_value (f_path f)); ("kind", to_value (f_kind f))].
#[export] Instance serialize_IndexDefinition : Serialize IndexDefinition := λ i,
  VObject [("name", to_value (i_name i)); ("fields", to_value (i_fields i));
           ("unique", to_value (unique i)); ("text", to_value (i_text i))].
#[export] Instance serialize_CollectionDefinition : Serialize CollectionDefinition := λ d,
  VObject [("name", to_value (cd_name d));
           ("write_mode", VString match write_mode d with
              Mutable => "mutable" | AppendOnly => "append_only" end);
           ("retention_class", VString match retention_class d with
              Operational => "operational" | ArchivableHistory => "archivable_history" end);
           ("schema", canonical (schema d)); ("indexes", to_value (cd_indexes d));
           ("strict_read_audit", to_value (cd_strict_read_audit d))].

Record ArchivedDocument := {
  a_version : N;
  archive_id : string;
  chunk_index : N;
  document_sha256 : string;
  a_document_bytes : N;
  indexed_fields : list (string * value);
}.

Record CollectionState := {
  definition : CollectionDefinition;
  data_epoch : N;
  documents : gmap string DocumentSlot;
  archived_documents : gmap string ArchivedDocument;
  archived_document_bytes : N;
}.

(** ** Mutations *)

Inductive Precondition := PAny | PAbsent | PVersion (v : N).

#[export] Instance Precondition_eq_dec : EqDecision Precondition.
Proof. solve_decision. Defined.

(** [Precondition::is_any]. *)
Definition is_any (p : Precondition) : bool := bool_decide (p = PAny).

Inductive Mutation :=
| Put (collection id : string) (body : value) (expected : Precondition)
| Patch (collection id : string) (patch : value) (expected : Precondition)
| Delete (collection id : string) (expected : Precondition).

(** [Mutation::target], [Mutation::expected]. *)
Definition target (m : Mutation) : string * string :=
  match m with
  | Put collection id _ _ | Patch collection id _ _ | Delete collection id _ => (collection, id)
  end.

Definition expected (m : Mutation) : Precondition :=
  match m with Put _ _ _ e | Patch _ _ _ e | Delete _ _ e => e end.

Inductive ReadPrecondition := RAbsent | RVersion (v : N).

Inductive ReadAssertion :=
| Before (not_after_ms : N)
| NotBefore (not_before_ms : N)
| Snapshot (incarnation : string) (policy_epoch schema_epoch : N)
| ADocument (collection id : string) (expected : ReadPrecondition)
| ACollection (collection : string) (data_epoch : N).

Record MutationBatch := {
  idempotency_key : string;
  read_set : list ReadAssertion;
  operations : list Mutation;
}.

(** [MutationBatch::with_key], [push], [read_set] and the builders. *)
Definition with_key (key : string) : MutationBatch :=
  {| idempotency_key := key; read_set := []; operations := [] |}.
Definition push (b : MutationBatch) (m : Mutation) : MutationBatch :=
  {| idempotency_key := idempotency_key b; read_set := read_set b;
     operations := operations b ++ [m] |}.
Definition with_read_set (b : MutationBatch) (l : list ReadAssertion) : MutationBatch :=
  {| idempotency_key := idempotency_key b; read_set := read_set b ++ l;
     operations := operations b |}.
Definition batch_insert (b : MutationBatch) (c id : string) (v : value) : MutationBatch :=
  push b (Put c id v PAbsent).
Definition batch_upsert (b : MutationBatch) (c id : string) (v : value) : MutationBatch :=
  push b (Put c id v PAny).
Definition batch_replace (b : MutationBatch) (c id : string) (v : value) (ver : N) :=
  push b (Put c id v (PVersion ver)).
Definition batch_patch (b : MutationBatch) (c id : string) (v : value) : MutationBatch :=
  push b (Patch c id v PAny).
Definition batch_delete (b : MutationBatch) (c id : string) : MutationBatch :=
  push b (Delete c id PAny).

#[export] Instance serialize_Precondition : Serialize Precondition := λ p,
  match p with
  | PAny => unit_variant "any"
  | PAbsent => unit_variant "absent"
  | PVersion v => newtype_variant "version" v
  end.
#[export] Instance serialize_ReadPrecondition : Serialize ReadPrecondition := λ p,
  match p with RAbsent => unit_variant "absent" | RVersion v => newtype_variant "version" v end.

Definition expected_field (e : Precondition) : list (string * value) :=
  if is_any e then [] else [("expected", to_value e)].

#[export] Instance serialize_Mutation : Serialize Mutation := λ m,
  match m with
  | Put c id b e => VObject ([("op", VString "put"); ("collection", VString c);
      ("id", VString id); ("body", canonical b)] ++ expected_field e)
  | Patch c id p e => VObject ([("op", VString "patch"); ("collection", VString c);
      ("id", VString id); ("patch", canonical p)] ++ expected_field e)
  | Delete c id e => VObject ([("op", VString "delete"); ("collection", VString c);
      ("id", VString id)] ++ expected_field e)
  end.

#[export] Instance serialize_ReadAssertion : Serialize ReadAssertion := λ a,
  match a with
  | Before t => VObject [("kind", VString "before"); ("not_after_ms", to_value t)]
  | NotBefore t => VObject [("kind", VString "not_before"); ("not_before_ms", to_value t)]
  | Snapshot i p s => VObject [("kind", VString "snapshot"); ("incarnation", VString i);
      ("policy_epoch", to_value p); ("schema_epoch", to_value s)]
  | ADocument c id e => VObject [("kind", VString "document"); ("collection", VString c);
      ("id", VString id); ("expected", to_value e)]
  | ACollection c e => VObject [("kind", VString "collection"); ("collection", VString c);
      ("data_epoch", to_value e)]
  end.

#[export] Instance serialize_MutationBatch : Serialize MutationBatch := λ b,
  VObject ([("idempotency_key", VString (idempotency_key b))] ++
    (match read_set b with [] => [] | l => [("read_set", to_value l)] end) ++
    [("operations", to_value (operations b))]).

(** ** Receipts *)

Record WriteReceipt := {
  wr_revision : N;
  versions : gmap string N;
}.

#[export] Instance serialize_WriteReceipt : Serialize WriteReceipt := λ r,
  VObject [("revision", to_value (wr_revision r)); ("versions", to_value (versions r))].

Record Scope := {
  sc_tenant : string;
  sc_incarnation : string;
  sc_principal : string;
}.

#[export] Instance Scope_eq_dec : EqDecision Scope.
Proof. solve_decision. Defined.

#[export] Instance serialize_Scope : Serialize Scope := λ s,
  VObject [("tenant", VString (sc_tenant s)); ("incarnation", VString (sc_incarnation s));
           ("principal", VString (sc_principal s))].

Record MutationReceiptHead := {
  mr_origin_incarnation : string;
  mr_count : N;
  mr_encoded_bytes : N;
  mr_last_applied_revision : N;
  mr_sha256 : string;
}.

#[export] Instance MutationReceiptHead_eq_dec : EqDecision MutationReceiptHead.
Proof. solve_decision. Defined.

Record StoredReceipt := {
  r_scope : Scope;
  r_idempotency_key : string;
  recorded_revision : N;
  request_digest : string;
  r_collections : list string;
  r_outcome : Result WriteReceipt;
}.

#[export] Instance serialize_StoredReceipt : Serialize StoredReceipt := λ r,
  VObject [("scope", to_value (r_scope r)); ("idempotency_key", VString (r_idempotency_key r));
           ("recorded_revision", to_value (recorded_revision r));
           ("request_digest", VString (request_digest r));
           ("collections", to_value (r_collections r)); ("outcome", to_value (r_outcome r))].

(** ** Staged transactions *)

Definition MAX_STAGED_CHUNKS : N := 512.
Definition STAGED_OUTCOME_HEADROOM : N := 8192.

Record StagedChunk := {
  ck_read_set : list ReadAssertion;
  ck_operations : list Mutation;
}.

#[export] Instance serialize_StagedChunk : Serialize StagedChunk := λ c,
  VObject [("read_set", to_value (ck_read_set c)); ("operations", to_value (ck_operations c))].

Record StagedManifest := {
  chunk_digests : list string;
  encoded_chunk_bytes : N;
  operation_count : N;
  read_assertion_count : N;
  read_collections : gset string;
  write_collections : gset string;
}.

#[export] Instance StagedManifest_eq_dec : EqDecision StagedManifest.
Proof. solve_decision. Defined.

#[export] Instance serialize_StagedManifest : Serialize StagedManifest := λ m,
  VObject [("chunk_digests", to_value (chunk_digests m));
           ("encoded_chunk_bytes", to_value (encoded_chunk_bytes m));
           ("operation_count", to_value (operation_count m));
           ("read_assertion_count", to_value (read_assertion_count m));
           ("read_collections", to_value (read_collections m));
           ("write_collections", to_value (write_collections m))].

(** [StagedTransactionScope::validate]. *)
Definition validate_scope (s : Scope) : Result unit :=
  validate_name (sc_tenant s);;
  validate_name (sc_incarnation s);;
  validate_name (sc_principal s).

Record BeginStagedTransaction := {
  b_scope : Scope;
  b_transaction_id : string;
  b_manifest : StagedManifest;
  b_ttl_ms : N;
}.

Record StopStagedTransaction := {
  original : BeginStagedTransaction;
  admission : list ReadAssertion;
}.

Record StagedTransactionRef := {
  ref_scope : Scope;
  ref_transaction_id : string;
  ref_manifest_digest : string;
}.

#[export] Instance StagedTransactionRef_eq_dec : EqDecision StagedTransactionRef.
Proof. solve_decision. Defined.

Record AppendStagedChunk := {
  ap_transaction : StagedTransactionRef;
  ap_index : N;
  ap_chunk : StagedChunk;
}.

Inductive StagedOutcome :=
| Uploading
| Finished (outcome : Result WriteReceipt)
| Aborted (receipt : WriteReceipt)
| Expired (receipt : WriteReceipt).

#[export] Instance serialize_StagedOutcome : Serialize StagedOutcome := λ o,
  match o with
  | Uploading => VObject [("state", VString "uploading")]
  | Finished r => VObject [("state", VString "finished"); ("outcome", to_value r)]
  | Aborted r => VObject [("state", VString "aborted"); ("receipt", to_value r)]
  | Expired r => VObject [("state", VString "expired"); ("receipt", to_value r)]
  end.

(** [StagedOutcome::resolved]. *)
Definition resolved (o : StagedOutcome) : option (Result WriteReceipt) :=
  match o with
  | Uploading => None
  | Finished outcome => Some outcome
  | Aborted _ => Some (fail Conflict "staged transaction aborted")
  | Expired _ => Some (fail Conflict "staged upload expired")
  end.

Record StagedTransaction := {
  st_scope : Scope;
  st_transaction_id : string;
  st_manifest_digest : string;
  st_manifest : StagedManifest;
  chunks : gmap N StagedChunk;
  stored_chunk_bytes : N;
  uploaded_payload_bytes : N;
  uploaded_operations : N;
  uploaded_read_assertions : N;
  expires_at_ms : option N;
  ttl_ms : N;
  outcome : StagedOutcome;
}.

(** [StagedTransaction::is_active]. *)
Definition is_active (t : StagedTransaction) : bool :=
  match outcome t with Uploading => true | _ => false end.

#[export] Instance serialize_chunks : Serialize (gmap N StagedChunk) := λ m,
  VObject ((λ kv, (pretty kv.1, to_value kv.2)) <$> map_iter m).

#[export] Instance serialize_StagedTransaction : Serialize StagedTransaction := λ t,
  VObject [("scope", to_value (st_scope t)); ("transaction_id", VString (st_transaction_id t));
           ("manifest_digest", VString (st_manifest_digest t));
           ("manifest", to_value (st_manifest t)); ("chunks", to_value (chunks t));
           ("stored_chunk_bytes", to_value (stored_chunk_bytes t));
           ("uploaded_payload_bytes", to_value (uploaded_payload_bytes t));
           ("uploaded_operations", to_value (uploaded_operations t));
           ("uploaded_read_assertions", to_value (uploaded_read_assertions t));
           ("expires_at_ms", to_value (expires_at_ms t)); ("ttl_ms", to_value (ttl_ms t));
           ("outcome", to_value (outcome t))].

Record StagedTerminalHead := {
  th_origin_incarnation : string;
  th_count : N;
  th_encoded_bytes : N;
  th_sha256 : string;
}.

(** ** The change feed *)

Record ChangeRecord := {
  cr_collection : string;
  cr_id : string;
  cr_document : option DocumentSlot;
}.

Record ChangeCommit := {
  cc_revision : N;
  first_sequence : N;
  records : list ChangeRecord;
  record_bytes : N;
}.

Record ChangeFeedState := {
  next_sequence : N;
  commits : gmap N ChangeCommit;
  event_count : N;
  encoded_commit_bytes : N;
}.

(** [ChangeFeedState::empty], [first_available_sequence]. *)
Definition empty_feed : ChangeFeedState :=
  {| next_sequence := 1; commits := ∅; event_count := 0; encoded_commit_bytes := 0 |}.

Definition first_available_sequence (f : ChangeFeedState) : N :=
  match get_min (commits f) with Some (s, _) => s | None => next_sequence f end.

(** ** Audit *)

Definition MAX_AUDIT_SEGMENT_BYTES : N := N.shiftl 8 20.
Definition MAX_AUDIT_EVENT_BYTES : N := N.shiftl 64 10.
Definition MAX_AUDIT_SEGMENT_RECORDS : N := 8192.

Record AuditEvent := {
  event_id : string;
  e_principal : string;
  e_action : string;
  e_request_id : string;
  e_timestamp_ms : N;
  data_revision : option N;
  e_outcome : string;
  e_collection : option string;
}.

#[export] Instance serialize_AuditEvent : Serialize AuditEvent := λ e,
  VObject [("event_id", VString (event_id e)); ("principal", VString (e_principal e));
           ("action", VString (e_action e)); ("request_id", VString (e_request_id e));
           ("timestamp_ms", to_value (e_timestamp_ms e));
           ("data_revision", to_value (data_revision e)); ("outcome", VString (e_outcome e));
           ("collection", to_value (e_collection e))].

Record AuditArchiveLink := {
  object_id : Uuid;
  al_first_sequence : N;
  al_next_sequence : N;
  ciphertext_sha256 : string;
}.

Record AuditArchiveKeyDependency := {
  provider : string;
  key_ref : string;
  key_version : N;
  wrapped_key_sha256 : string;
}.

Record AuditArchiveReference := {
  ar_stream_id : Uuid;
  object : AuditArchiveLink;
  previous : option AuditArchiveLink;
  record_count : N;
  plaintext_bytes : N;
  ciphertext_bytes : N;
  key : AuditArchiveKeyDependency;
}.

Record AuditRetentionState := {
  stream_id : Uuid;
  au_next_sequence : N;
  pruned_before : N;
  hot_bytes : N;
  archive_bytes : N;
  archive_segments : N;
  draining : bool;
  archive_head : option AuditArchiveReference;
}.

(** ** The replicated state of one tenant *)

Record PendingRestore := {
  backup_id : string;
  source_revision : N;
}.

Record FullBackupCheckpoint := {
  bk_tenant : string;
  source_incarnation : string;
  bk_revision : N;
  resident_sha256 : string;
  bk_backup_id : Uuid;
  manifest_ciphertext_sha256 : string;
  key_lineage_digest : string;
}.

Record RestoreLineageLink := {
  checkpoint : FullBackupCheckpoint;
  target_incarnation : string;
}.

Record BackupBindingHead := {
  bb_origin_incarnation : string;
  bb_count : N;
  bb_encoded_bytes : N;
  bb_last_applied_revision : N;
  bb_sha256 : string;
}.

(** The installed lifecycle control, the completion of a target and the
    recovery coordinator.  Signed documents and dispatch records inside them are
    their JSON encodings. *)
Record LifecycleInstallation := {
  li_root : value;
  li_generation : N;
  li_partitions : value;
  max_intents : N;
  max_changes : N;
  max_state_bytes : N;
}.

Record LifecycleControlState := {
  installation : LifecycleInstallation;
  installation_command_id : Uuid;
  installation_revision : N;
  installation_policy_epoch : N;
  installation_policy : Policy;
  lc_retired : bool;
  pending_change : option Uuid;
  intents : gmap Uuid value;
  control_changes : gmap Uuid value;
}.

Record TargetCompletionAttempt := {
  at_origin : value;
  at_input : value;
  at_intent : value;
  dispatch_not_after_ms : N;
  admitted_at_ms : N;
  at_revision : N;
  at_position : value;
  reserved_terminal_bytes : N;
  reserved_audit_bytes : N;
}.

Record TargetCompletionHead := {
  tc_origin_sha256 : string;
  control_incarnation : Uuid;
  initial_budget_bytes : N;
  budget_operation_id : option Uuid;
  predecessor : option value;
  active : option TargetCompletionAttempt;
}.

Record TargetResolutionPrefixHead := {
  tr_origin_incarnation : string;
  tr_count : N;
  tr_encoded_bytes : N;
  tr_sha256 : string;
}.

Record TargetExecutionState := {
  te_origin : value;
  te_completion : option value;
  te_activation : option value;
}.

(** Of the recovery records, the identities other records are checked against,
    and the encoding. *)
Record RecoveryRecord := {
  rec_operation_id : Uuid;
  rec_value : value;
}.

Record RecoveryPhaseRecord := {
  ph_operation_id : Uuid;
  ph_phase_id : Uuid;
  ph_value : value;
}.

Record RecoveryCompletionHistory := {
  ch_operation_id : Uuid;
  ch_intent : Uuid;
  ch_value : value;
}.

Record RecoveryControlState := {
  rc_operations : gmap string RecoveryRecord;
  rc_phases : gmap string RecoveryPhaseRecord;
  rc_completion_history : gmap string RecoveryCompletionHistory;
  rc_targets : gmap string Uuid;
}.

Definition empty_recovery_control : RecoveryControlState :=
  {| rc_operations := ∅; rc_phases := ∅; rc_completion_history := ∅; rc_targets := ∅ |}.

Record TenantState := {
  tenant : string;
  incarnation : string;
  revision : N;
  revision_base : N;
  policy_epoch : N;
  schema_epoch : N;
  suspended : bool;
  retired : bool;
  pending_restore : option PendingRestore;
  restored_from : option FullBackupCheckpoint;
  restore_lineage : list RestoreLineageLink;
  lifecycle_control : option LifecycleControlState;
  target_lifecycle : gmap string TargetExecutionState;
  recovery_control : RecoveryControlState;
  document_count : N;
  logical_bytes : N;
  policy : Policy;
  limits : Limits;
  collections : gmap string CollectionState;
  mutation_receipt_head : MutationReceiptHead;
  backup_binding_head : BackupBindingHead;
  staged_transactions : gmap string StagedTransaction;
  active_staged_transactions : gset string;
  permanent_staged_bytes : N;
  reserved_staged_terminal_bytes : N;
  staged_terminal_head : StagedTerminalHead;
  target_resolution_head : TargetResolutionPrefixHead;
  target_completion_head : option TargetCompletionHead;
  change_feed : ChangeFeedState;
  history_archives : gmap string value;
  history_archive_bytes : N;
  schema_activations : gmap string value;
  schema_activation_bytes : N;
  retirements : gmap string value;
  retirement_bytes : N;
  audit_retention : AuditRetentionState;
  audits : list AuditEvent;
}.

(** Field assignments [state.f = x]. *)
Definition set_revision (x : N) (s : TenantState) : TenantState :=
  {| tenant := tenant s; incarnation := incarnation s; revision := x; revision_base :=
     revision_base s; policy_epoch := policy_epoch s; schema_epoch := schema_epoch s;
     suspended := suspended s; retired := retired s; pending_restore := pending_restore
     s; restored_from := restored_from s; restore_lineage := restore_lineage s;
     lifecycle_control := lifecycle_control s; target_lifecycle := target_lifecycle s;
     recovery_control := recovery_control s; document_count := document_count s;
     logical_bytes := logical_bytes s; policy := policy s; limits := limits s;
     collections := collections s; mutation_receipt_head := mutation_receipt_head s;
     backup_binding_head := backup_binding_head s; staged_transactions :=
     staged_transactions s; active_staged_transactions := active_staged_transactions s;
     permanent_staged_bytes := permanent_staged_bytes s; reserved_staged_terminal_bytes
     := reserved_staged_terminal_bytes s; staged_terminal_head := staged_terminal_head
     s; target_resolution_head := target_resolution_head s; target_completion_head :=
     target_completion_head s; change_feed := change_feed s; history_archives :=
     history_archives s; history_archive_bytes := history_archive_bytes s;
     schema_activations := schema_activations s; schema_activation_bytes :=
     schema_activation_bytes s; retirements := retirements s; retirement_bytes :=
     retirement_bytes s; audit_retention := audit_retention s; audits := audits s |}.

Definition set_policy_epoch (x : N) (s : TenantState) : TenantState :=
  {| tenant := tenant s; incarnation := incarnation s; revision := revision s;
     revision_base := revision_base s; policy_epoch := x; schema_epoch := schema_epoch
     s; suspended := suspended s; retired := retired s; pending_restore :=
     pending_restore s; restored_from := restored_from s; restore_lineage :=
     restore_lineage s; lifecycle_control := lifecycle_control s; target_lifecycle :=
     target_lifecycle s; recovery_control := recovery_control s; document_count :=
     document_count s; logical_bytes := logical_bytes s; policy := policy s; limits :=
     limits s; collections := collections s; mutation_receipt_head :=
     mutation_receipt_head s; backup_binding_head := backup_binding_head s;
     staged_transactions := staged_transactions s; active_staged_transactions :=
     active_staged_transactions s; permanent_staged_bytes := permanent_staged_bytes s;
     reserved_staged_terminal_bytes := reserved_staged_terminal_bytes s;
     staged_terminal_head := staged_terminal_head s; target_resolution_head :=
     target_resolution_head s; target_completion_head := target_completion_head s;
     change_feed := change_feed s; history_archives := history_archives s;
     history_archive_bytes := history_archive_bytes s; schema_activations :=
     schema_activations s; schema_activation_bytes := schema_activation_bytes s;
     retirements := retirements s; retirement_bytes := retirement_bytes s;
     audit_retention := audit_retention s; audits := audits s |}.

Definition set_schema_epoch (x : N) (s : TenantState) : TenantState :=
  {| tenant := tenant s; incarnation := incarnation s; revision := revision s;
     revision_base := revision_base s; policy_epoch := policy_epoch s; schema_epoch :=
     x; suspended := suspended s; retired := retired s; pending_restore :=
     pending_restore s; restored_from := restored_from s; restore_lineage :=
     restore_lineage s; lifecycle_control := lifecycle_control s; target_lifecycle :=
     target_lifecycle s; recovery_control := recovery_control s; document_count :=
     document_count s; logical_bytes := logical_bytes s; policy := policy s; limits :=
     limits s; collections := collections s; mutation_receipt_head :=
     mutation_receipt_head s; backup_binding_head := backup_binding_head s;
     staged_transactions := staged_transactions s; active_staged_transactions :=
     active_staged_transactions s; permanent_staged_bytes := permanent_staged_bytes s;
     reserved_staged_terminal_bytes := reserved_staged_terminal_bytes s;
     staged_terminal_head := staged_terminal_head s; target_resolution_head :=
     target_resolution_head s; target_completion_head := target_completion_head s;
     change_feed := change_feed s; history_archives := history_archives s;
     history_archive_bytes := history_archive_bytes s; schema_activations :=
     schema_activations s; schema_activation_bytes := schema_activation_bytes s;
     retirements := retirements s; retirement_bytes := retirement_bytes s;
     audit_retention := audit_retention s; audits := audits s |}.

Definition set_suspended (x : bool) (s : TenantState) : TenantState :=
  {| tenant := tenant s; incarnation := incarnation s; revision := revision s;
     revision_base := revision_base s; policy_epoch := policy_epoch s; schema_epoch :=
     schema_epoch s; suspended := x; retired := retired s; pending_restore :=
     pending_restore s; restored_from := restored_from s; restore_lineage :=
     restore_lineage s; lifecycle_control := lifecycle_control s; target_lifecycle :=
     target_lifecycle s; recovery_control := recovery_control s; document_count :=
     document_count s; logical_bytes := logical_bytes s; policy := policy s; limits :=
     limits s; collections := collections s; mutation_receipt_head :=
     mutation_receipt_head s; backup_binding_head := backup_binding_head s;
     staged_transactions := staged_transactions s; active_staged_transactions :=
     active_staged_transactions s; permanent_staged_bytes := permanent_staged_bytes s;
     reserved_staged_terminal_bytes := reserved_staged_terminal_bytes s;
     staged_terminal_head := staged_terminal_head s; target_resolution_head :=
     target_resolution_head s; target_completion_head := target_completion_head s;
     change_feed := change_feed s; history_archives := history_archives s;
     history_archive_bytes := history_archive_bytes s; schema_activations :=
     schema_activations s; schema_activation_bytes := schema_activation_bytes s;
     retirements := retirements s; retirement_bytes := retirement_bytes s;
     audit_retention := audit_retention s; audits := audits s |}.

Definition set_pending_restore (x : option PendingRestore) (s : TenantState) : TenantState :=
  {| tenant := tenant s; incarnation := incarnation s; revision := revision s;
     revision_base := revision_base s; policy_epoch := policy_epoch s; schema_epoch :=
     schema_epoch s; suspended := suspended s; retired := retired s; pending_restore :=
     x; restored_from := restored_from s; restore_lineage := restore_lineage s;
     lifecycle_control := lifecycle_control s; target_lifecycle := target_lifecycle s;
     recovery_control := recovery_control s; document_count := document_count s;
     logical_bytes := logical_bytes s; policy := policy s; limits := limits s;
     collections := collections s; mutation_receipt_head := mutation_receipt_head s;
     backup_binding_head := backup_binding_head s; staged_transactions :=
     staged_transactions s; active_staged_transactions := active_staged_transactions s;
     permanent_staged_bytes := permanent_staged_bytes s; reserved_staged_terminal_bytes
     := reserved_staged_terminal_bytes s; staged_terminal_head := staged_terminal_head
     s; target_resolution_head := target_resolution_head s; target_completion_head :=
     target_completion_head s; change_feed := change_feed s; history_archives :=
     history_archives s; history_archive_bytes := history_archive_bytes s;
     schema_activations := schema_activations s; schema_activation_bytes :=
     schema_activation_bytes s; retirements := retirements s; retirement_bytes :=
     retirement_bytes s; audit_retention := audit_retention s; audits := audits s |}.

Definition set_document_count (x : N) (s : TenantState) : TenantState :=
  {| tenant := tenant s; incarnation := incarnation s; revision := revision s;
     revision_base := revision_base s; policy_epoch := policy_epoch s; schema_epoch :=
     schema_epoch s; suspended := suspended s; retired := retired s; pending_restore :=
     pending_restore s; restored_from := restored_from s; restore_lineage :=
     restore_lineage s; lifecycle_control := lifecycle_control s; target_lifecycle :=
     target_lifecycle s; recovery_control := recovery_control s; document_count := x;
     logical_bytes := logical_bytes s; policy := policy s; limits := limits s;
     collections := collections s; mutation_receipt_head := mutation_receipt_head s;
     backup_binding_head := backup_binding_head s; staged_transactions :=
     staged_transactions s; active_staged_transactions := active_staged_transactions s;
     permanent_staged_bytes := permanent_staged_bytes s; reserved_staged_terminal_bytes
     := reserved_staged_terminal_bytes s; staged_terminal_head := staged_terminal_head
     s; target_resolution_head := target_resolution_head s; target_completion_head :=
     target_completion_head s; change_feed := change_feed s; history_archives :=
     history_archives s; history_archive_bytes := history_archive_bytes s;
     schema_activations := schema_activations s; schema_activation_bytes :=
     schema_activation_bytes s; retirements := retirements s; retirement_bytes :=
     retirement_bytes s; audit_retention := audit_retention s; audits := audits s |}.

Definition set_logical_bytes (x : N) (s : TenantState) : TenantState :=
  {| tenant := tenant s; incarnation := incarnation s; revision := revision s;
     revision_base := revision_base s; policy_epoch := policy_epoch s; schema_epoch :=
     schema_epoch s; suspended := suspended s; retired := retired s; pending_restore :=
     pending_restore s; restored_from := restored_from s; restore_lineage :=
     restore_lineage s; lifecycle_control := lifecycle_control s; target_lifecycle :=
     target_lifecycle s; recovery_control := recovery_control s; document_count :=
     document_count s; logical_bytes := x; policy := policy s; limits := limits s;
     collections := collections s; mutation_receipt_head := mutation_receipt_head s;
     backup_binding_head := backup_binding_head s; staged_transactions :=
     staged_transactions s; active_staged_transactions := active_staged_transactions s;
     permanent_staged_bytes := permanent_staged_bytes s; reserved_staged_terminal_bytes
     := reserved_staged_terminal_bytes s; staged_terminal_head := staged_terminal_head
     s; target_resolution_head := target_resolution_head s; target_completion_head :=
     target_completion_head s; change_feed := change_feed s; history_archives :=
     history_archives s; history_archive_bytes := history_archive_bytes s;
     schema_activations := schema_activations s; schema_activation_bytes :=
     schema_activation_bytes s; retirements := retirements s; retirement_bytes :=
     retirement_bytes s; audit_retention := audit_retention s; audits := audits s |}.

Definition set_policy (x : Policy) (s : TenantState) : TenantState :=
  {| tenant := tenant s; incarnation := incarnation s; revision := revision s;
     revision_base := revision_base s; policy_epoch := policy_epoch s; schema_epoch :=
     schema_epoch s; suspended := suspended s; retired := retired s; pending_restore :=
     pending_restore s; restored_from := restored_from s; restore_lineage :=
     restore_lineage s; lifecycle_control := lifecycle_control s; target_lifecycle :=
     target_lifecycle s; recovery_control := recovery_control s; document_count :=
     document_count s; logical_bytes := logical_bytes s; policy := x; limits := limits
     s; collections := collections s; mutation_receipt_head := mutation_receipt_head s;
     backup_binding_head := backup_binding_head s; staged_transactions :=
     staged_transactions s; active_staged_transactions := active_staged_transactions s;
     permanent_staged_bytes := permanent_staged_bytes s; reserved_staged_terminal_bytes
     := reserved_staged_terminal_bytes s; staged_terminal_head := staged_terminal_head
     s; target_resolution_head := target_resolution_head s; target_completion_head :=
     target_completion_head s; change_feed := change_feed s; history_archives :=
     history_archives s; history_archive_bytes := history_archive_bytes s;
     schema_activations := schema_activations s; schema_activation_bytes :=
     schema_activation_bytes s; retirements := retirements s; retirement_bytes :=
     retirement_bytes s; audit_retention := audit_retention s; audits := audits s |}.

Definition set_limits (x : Limits) (s : TenantState) : TenantState :=
  {| tenant := tenant s; incarnation := incarnation s; revision := revision s;
     revision_base := revision_base s; policy_epoch := policy_epoch s; schema_epoch :=
     schema_epoch s; suspended := suspended s; retired := retired s; pending_restore :=
     pending_restore s; restored_from := restored_from s; restore_lineage :=
     restore_lineage s; lifecycle_control := lifecycle_control s; target_lifecycle :=
     target_lifecycle s; recovery_control := recovery_control s; document_count :=
     document_count s; logical_bytes := logical_bytes s; policy := policy s; limits :=
     x; collections := collections s; mutation_receipt_head := mutation_receipt_head s;
     backup_binding_head := backup_binding_head s; staged_transactions :=
     staged_transactions s; active_staged_transactions := active_staged_transactions s;
     permanent_staged_bytes := permanent_staged_bytes s; reserved_staged_terminal_bytes
     := reserved_staged_terminal_bytes s; staged_terminal_head := staged_terminal_head
     s; target_resolution_head := target_resolution_head s; target_completion_head :=
     target_completion_head s; change_feed := change_feed s; history_archives :=
     history_archives s; history_archive_bytes := history_archive_bytes s;
     schema_activations := schema_activations s; schema_activation_bytes :=
     schema_activation_bytes s; retirements := retirements s; retirement_bytes :=
     retirement_bytes s; audit_retention := audit_retention s; audits := audits s |}.

Definition set_collections (x : gmap string CollectionState) (s : TenantState) : TenantState :=
  {| tenant := tenant s; incarnation := incarnation s; revision := revision s;
     revision_base := revision_base s; policy_epoch := policy_epoch s; schema_epoch :=
     schema_epoch s; suspended := suspended s; retired := retired s; pending_restore :=
     pending_restore s; restored_from := restored_from s; restore_lineage :=
     restore_lineage s; lifecycle_control := lifecycle_control s; target_lifecycle :=
     target_lifecycle s; recovery_control := recovery_control s; document_count :=
     document_count s; logical_bytes := logical_bytes s; policy := policy s; limits :=
     limits s; collections := x; mutation_receipt_head := mutation_receipt_head s;
     backup_binding_head := backup_binding_head s; staged_transactions :=
     staged_transactions s; active_staged_transactions := active_staged_transactions s;
     permanent_staged_bytes := permanent_staged_bytes s; reserved_staged_terminal_bytes
     := reserved_staged_terminal_bytes s; staged_terminal_head := staged_terminal_head
     s; target_resolution_head := target_resolution_head s; target_completion_head :=
     target_completion_head s; change_feed := change_feed s; history_archives :=
     history_archives s; history_archive_bytes := history_archive_bytes s;
     schema_activations := schema_activations s; schema_activation_bytes :=
     schema_activation_bytes s; retirements := retirements s; retirement_bytes :=
     retirement_bytes s; audit_retention := audit_retention s; audits := audits s |}.

Definition set_mutation_receipt_head (x : MutationReceiptHead) (s : TenantState) : TenantState :=
  {| tenant := tenant s; incarnation := incarnation s; revision := revision s;
     revision_base := revision_base s; policy_epoch := policy_epoch s; schema_epoch :=
     schema_epoch s; suspended := suspended s; retired := retired s; pending_restore :=
     pending_restore s; restored_from := restored_from s; restore_lineage :=
     restore_lineage s; lifecycle_control := lifecycle_control s; target_lifecycle :=
     target_lifecycle s; recovery_control := recovery_control s; document_count :=
     document_count s; logical_bytes := logical_bytes s; policy := policy s; limits :=
     limits s; collections := collections s; mutation_receipt_head := x;
     backup_binding_head := backup_binding_head s; staged_transactions :=
     staged_transactions s; active_staged_transactions := active_staged_transactions s;
     permanent_staged_bytes := permanent_staged_bytes s; reserved_staged_terminal_bytes
     := reserved_staged_terminal_bytes s; staged_terminal_head := staged_terminal_head
     s; target_resolution_head := target_resolution_head s; target_completion_head :=
     target_completion_head s; change_feed := change_feed s; history_archives :=
     history_archives s; history_archive_bytes := history_archive_bytes s;
     schema_activations := schema_activations s; schema_activation_bytes :=
     schema_activation_bytes s; retirements := retirements s; retirement_bytes :=
     retirement_bytes s; audit_retention := audit_retention s; audits := audits s |}.

Definition set_staged_transactions (x : gmap string StagedTransaction) (s : TenantState) : TenantState :=
  {| tenant := tenant s; incarnation := incarnation s; revision := revision s;
     revision_base := revision_base s; policy_epoch := policy_epoch s; schema_epoch :=
     schema_epoch s; suspended := suspended s; retired := retired s; pending_restore :=
     pending_restore s; restored_from := restored_from s; restore_lineage :=
     restore_lineage s; lifecycle_control := lifecycle_control s; target_lifecycle :=
     target_lifecycle s; recovery_control := recovery_control s; document_count :=
     document_count s; logical_bytes := logical_bytes s; policy := policy s; limits :=
     limits s; collections := collections s; mutation_receipt_head :=
     mutation_receipt_head s; backup_binding_head := backup_binding_head s;
     staged_transactions := x; active_staged_transactions := active_staged_transactions
     s; permanent_staged_bytes := permanent_staged_bytes s;
     reserved_staged_terminal_bytes := reserved_staged_terminal_bytes s;
     staged_terminal_head := staged_terminal_head s; target_resolution_head :=
     target_resolution_head s; target_completion_head := target_completion_head s;
     change_feed := change_feed s; history_archives := history_archives s;
     history_archive_bytes := history_archive_bytes s; schema_activations :=
     schema_activations s; schema_activation_bytes := schema_activation_bytes s;
     retirements := retirements s; retirement_bytes := retirement_bytes s;
     audit_retention := audit_retention s; audits := audits s |}.

Definition set_active_staged_transactions (x : gset string) (s : TenantState) : TenantState :=
  {| tenant := tenant s; incarnation := incarnation s; revision := revision s;
     revision_base := revision_base s; policy_epoch := policy_epoch s; schema_epoch :=
     schema_epoch s; suspended := suspended s; retired := retired s; pending_restore :=
     pending_restore s; restored_from := restored_from s; restore_lineage :=
     restore_lineage s; lifecycle_control := lifecycle_control s; target_lifecycle :=
     target_lifecycle s; recovery_control := recovery_control s; document_count :=
     document_count s; logical_bytes := logical_bytes s; policy := policy s; limits :=
     limits s; collections := collections s; mutation_receipt_head :=
     mutation_receipt_head s; backup_binding_head := backup_binding_head s;
     staged_transactions := staged_transactions s; active_staged_transactions := x;
     permanent_staged_bytes := permanent_staged_bytes s; reserved_staged_terminal_bytes
     := reserved_staged_terminal_bytes s; staged_terminal_head := staged_terminal_head
     s; target_resolution_head := target_resolution_head s; target_completion_head :=
     target_completion_head s; change_feed := change_feed s; history_archives :=
     history_archives s; history_archive_bytes := history_archive_bytes s;
     schema_activations := schema_activations s; schema_activation_bytes :=
     schema_activation_bytes s; retirements := retirements s; retirement_bytes :=
     retirement_bytes s; audit_retention := audit_retention s; audits := audits s |}.

Definition set_permanent_staged_bytes (x : N) (s : TenantState) : TenantState :=
  {| tenant := tenant s; incarnation := incarnation s; revision := revision s;
     revision_base := revision_base s; policy_epoch := policy_epoch s; schema_epoch :=
     schema_epoch s; suspended := suspended s; retired := retired s; pending_restore :=
     pending_restore s; restored_from := restored_from s; restore_lineage :=
     restore_lineage s; lifecycle_control := lifecycle_control s; target_lifecycle :=
     target_lifecycle s; recovery_control := recovery_control s; document_count :=
     document_count s; logical_bytes := logical_bytes s; policy := policy s; limits :=
     limits s; collections := collections s; mutation_receipt_head :=
     mutation_receipt_head s; backup_binding_head := backup_binding_head s;
     staged_transactions := staged_transactions s; active_staged_transactions :=
     active_staged_transactions s; permanent_staged_bytes := x;
     reserved_staged_terminal_bytes := reserved_staged_terminal_bytes s;
     staged_terminal_head := staged_terminal_head s; target_resolution_head :=
     target_resolution_head s; target_completion_head := target_completion_head s;
     change_feed := change_feed s; history_archives := history_archives s;
     history_archive_bytes := history_archive_bytes s; schema_activations :=
     schema_activations s; schema_activation_bytes := schema_activation_bytes s;
     retirements := retirements s; retirement_bytes := retirement_bytes s;
     audit_retention := audit_retention s; audits := audits s |}.

Definition set_reserved_staged_terminal_bytes (x : N) (s : TenantState) : TenantState :=
  {| tenant := tenant s; incarnation := incarnation s; revision := revision s;
     revision_base := revision_base s; policy_epoch := policy_epoch s; schema_epoch :=
     schema_epoch s; suspended := suspended s; retired := retired s; pending_restore :=
     pending_restore s; restored_from := restored_from s; restore_lineage :=
     restore_lineage s; lifecycle_control := lifecycle_control s; target_lifecycle :=
     target_lifecycle s; recovery_control := recovery_control s; document_count :=
     document_count s; logical_bytes := logical_bytes s; policy := policy s; limits :=
     limits s; collections := collections s; mutation_receipt_head :=
     mutation_receipt_head s; backup_binding_head := backup_binding_head s;
     staged_transactions := staged_transactions s; active_staged_transactions :=
     active_staged_transactions s; permanent_staged_bytes := permanent_staged_bytes s;
     reserved_staged_terminal_bytes := x; staged_terminal_head := staged_terminal_head
     s; target_resolution_head := target_resolution_head s; target_completion_head :=
     target_completion_head s; change_feed := change_feed s; history_archives :=
     history_archives s; history_archive_bytes := history_archive_bytes s;
     schema_activations := schema_activations s; schema_activation_bytes :=
     schema_activation_bytes s; retirements := retirements s; retirement_bytes :=
     retirement_bytes s; audit_retention := audit_retention s; audits := audits s |}.

Definition set_staged_terminal_head (x : StagedTerminalHead) (s : TenantState) : TenantState :=
  {| tenant := tenant s; incarnation := incarnation s; revision := revision s;
     revision_base := revision_base s; policy_epoch := policy_epoch s; schema_epoch :=
     schema_epoch s; suspended := suspended s; retired := retired s; pending_restore :=
     pending_restore s; restored_from := restored_from s; restore_lineage :=
     restore_lineage s; lifecycle_control := lifecycle_control s; target_lifecycle :=
     target_lifecycle s; recovery_control := recovery_control s; document_count :=
     document_count s; logical_bytes := logical_bytes s; policy := policy s; limits :=
     limits s; collections := collections s; mutation_receipt_head :=
     mutation_receipt_head s; backup_binding_head := backup_binding_head s;
     staged_transactions := staged_transactions s; active_staged_transactions :=
     active_staged_transactions s; permanent_staged_bytes := permanent_staged_bytes s;
     reserved_staged_terminal_bytes := reserved_staged_terminal_bytes s;
     staged_terminal_head := x; target_resolution_head := target_resolution_head s;
     target_completion_head := target_completion_head s; change_feed := change_feed s;
     history_archives := history_archives s; history_archive_bytes :=
     history_archive_bytes s; schema_activations := schema_activations s;
     schema_activation_bytes := schema_activation_bytes s; retirements := retirements s;
     retirement_bytes := retirement_bytes s; audit_retention := audit_retention s;
     audits := audits s |}.

Definition set_change_feed (x : ChangeFeedState) (s : TenantState) : TenantState :=
  {| tenant := tenant s; incarnation := incarnation s; revision := revision s;
     revision_base := revision_base s; policy_epoch := policy_epoch s; schema_epoch :=
     schema_epoch s; suspended := suspended s; retired := retired s; pending_restore :=
     pending_restore s; restored_from := restored_from s; restore_lineage :=
     restore_lineage s; lifecycle_control := lifecycle_control s; target_lifecycle :=
     target_lifecycle s; recovery_control := recovery_control s; document_count :=
     document_count s; logical_bytes := logical_bytes s; policy := policy s; limits :=
     limits s; collections := collections s; mutation_receipt_head :=
     mutation_receipt_head s; backup_binding_head := backup_binding_head s;
     staged_transactions := staged_transactions s; active_staged_transactions :=
     active_staged_transactions s; permanent_staged_bytes := permanent_staged_bytes s;
     reserved_staged_terminal_bytes := reserved_staged_terminal_bytes s;
     staged_terminal_head := staged_terminal_head s; target_resolution_head :=
     target_resolution_head s; target_completion_head := target_completion_head s;
     change_feed := x; history_archives := history_archives s; history_archive_bytes :=
     history_archive_bytes s; schema_activations := schema_activations s;
     schema_activation_bytes := schema_activation_bytes s; retirements := retirements s;
     retirement_bytes := retirement_bytes s; audit_retention := audit_retention s;
     audits := audits s |}.

Definition set_audit_retention (x : AuditRetentionState) (s : TenantState) : TenantState :=
  {| tenant := tenant s; incarnation := incarnation s; revision := revision s;
     revision_base := revision_base s; policy_epoch := policy_epoch s; schema_epoch :=
     schema_epoch s; suspended := suspended s; retired := retired s; pending_restore :=
     pending_restore s; restored_from := restored_from s; restore_lineage :=
     restore_lineage s; lifecycle_control := lifecycle_control s; target_lifecycle :=
     target_lifecycle s; recovery_control := recovery_control s; document_count :=
     document_count s; logical_bytes := logical_bytes s; policy := policy s; limits :=
     limits s; collections := collections s; mutation_receipt_head :=
     mutation_receipt_head s; backup_binding_head := backup_binding_head s;
     staged_transactions := staged_transactions s; active_staged_transactions :=
     active_staged_transactions s; permanent_staged_bytes := permanent_staged_bytes s;
     reserved_staged_terminal_bytes := reserved_staged_terminal_bytes s;
     staged_terminal_head := staged_terminal_head s; target_resolution_head :=
     target_resolution_head s; target_completion_head := target_completion_head s;
     change_feed := change_feed s; history_archives := history_archives s;
     history_archive_bytes := history_archive_bytes s; schema_activations :=
     schema_activations s; schema_activation_bytes := schema_activation_bytes s;
     retirements := retirements s; retirement_bytes := retirement_bytes s;
     audit_retention := x; audits := audits s |}.

Definition set_audits (x : list AuditEvent) (s : TenantState) : TenantState :=
  {| tenant := tenant s; incarnation := incarnation s; revision := revision s;
     revision_base := revision_base s; policy_epoch := policy_epoch s; schema_epoch :=
     schema_epoch s; suspended := suspended s; retired := retired s; pending_restore :=
     pending_restore s; restored_from := restored_from s; restore_lineage :=
     restore_lineage s; lifecycle_control := lifecycle_control s; target_lifecycle :=
     target_lifecycle s; recovery_control := recovery_control s; document_count :=
     document_count s; logical_bytes := logical_bytes s; policy := policy s; limits :=
     limits s; collections := collections s; mutation_receipt_head :=
     mutation_receipt_head s; backup_binding_head := backup_binding_head s;
     staged_transactions := staged_transactions s; active_staged_transactions :=
     active_staged_transactions s; permanent_staged_bytes := permanent_staged_bytes s;
     reserved_staged_terminal_bytes := reserved_staged_terminal_bytes s;
     staged_terminal_head := staged_terminal_head s; target_resolution_head :=
     target_resolution_head s; target_completion_head := target_completion_head s;
     change_feed := change_feed s; history_archives := history_archives s;
     history_archive_bytes := history_archive_bytes s; schema_activations :=
     schema_activations s; schema_activation_bytes := schema_activation_bytes s;
     retirements := retirements s; retirement_bytes := retirement_bytes s;
     audit_retention := audit_retention s; audits := x |}.

(** Assignments inside one collection. *)
Definition set_documents (x : gmap string DocumentSlot) (c : CollectionState) : CollectionState :=
  {| definition := definition c; data_epoch := data_epoch c; documents := x;
     archived_documents := archived_documents c;
     archived_document_bytes := archived_document_bytes c |}.

Definition set_data_epoch (x : N) (c : CollectionState) : CollectionState :=
  {| definition := definition c; data_epoch := x; documents := documents c;
     archived_documents := archived_documents c;
     archived_document_bytes := archived_document_bytes c |}.

(** ** Commands

    The payloads of the operations whose handlers are outside this development
    are their JSON encoding. *)
Inductive Operation :=
| LifecycleControl (request : value)
| ActivateSchema (request : value)
| PublishHistoryArchive (request : value)
| Mutate (batch : MutationBatch)
| BeginStaged (request : BeginStagedTransaction)
| AppendStaged (request : AppendStagedChunk)
| FinalizeStaged (reference : StagedTransactionRef)
| StopStaged (request : StopStagedTransaction)
| CreateCollection (definition : CollectionDefinition)
| ReplaceCollection (definition : CollectionDefinition)
| SetPolicy (policy : Policy)
| SetLimits (limits : Limits)
| Suspend (suspended : bool)
| RetireSource (request : value)
| AbortRetirement (request : value)
| OAudit (event : AuditEvent)
| AuditBatch (events : list AuditEvent)
| MaintenanceAudit (event : AuditEvent).

Record Command := {
  context : RequestContext;
  timestamp_ms : N;
  operation : Operation;
}.
