(* ===== verification/Digest.v ===== *)
(** * Digests, document descriptors and staged manifests

    Models [staged_digest], [MutationBatch::digest],
    [BeginStagedTransaction::reference], [StagedManifest::from_chunks], the
    empty authenticated heads, and the descriptors of
    src/crates/kasumi-types/src/stored_document.rs.

    SHA-256 (crate sha2) is a parameter: a function from the bytes hashed to
    the lower-case hexadecimal digest. *)

From S2P Require Import Prelude Json Types.

Class Sha256 := sha256_hex : string → string.

Section digest.
Context `{Sha256}.

(** [staged_digest]: digest and length of the encoding. *)
Definition staged_digest {A} `{Serialize A} (a : A) : Result (string * N) :=
  let bytes := to_json a in
  if str_len bytes <=? u64_max then Ok (sha256_hex bytes, str_len bytes)
  else fail InvalidArgument "staging encoding failed".

(** [MutationBatch::digest]. *)
Definition batch_digest (b : MutationBatch) : Result string := fst <$> staged_digest b.

(** [BeginStagedTransaction::reference]. *)
Definition reference (b : BeginStagedTransaction) : Result StagedTransactionRef :=
  validate_scope (b_scope b);;
  validate_name (b_transaction_id b);;
  d ← staged_digest (b_manifest b);
  Ok {| ref_scope := b_scope b; ref_transaction_id := b_transaction_id b;
        ref_manifest_digest := d.1 |}.

(** [MutationReceiptHead::empty], [StagedTerminalHead::empty],
    [TargetResolutionPrefixHead::empty], [BackupBindingHead::empty].  A tuple serializes as an array. *)
Definition mutation_receipt_head_empty (tenant incarnation : string) : Result MutationReceiptHead :=
  validate_name tenant;;
  validate_name incarnation;;
  d ← staged_digest ["kasumi.mutation-receipt-root.v1"; tenant; incarnation];
  Ok {| mr_origin_incarnation := incarnation; mr_count := 0; mr_encoded_bytes := 0;
        mr_last_applied_revision := 0; mr_sha256 := d.1 |}.

Definition staged_terminal_head_empty (tenant incarnation : string) : Result StagedTerminalHead :=
  validate_name tenant;;
  validate_name incarnation;;
  d ← staged_digest ["kasumi.staged-terminal-root.v1"; tenant; incarnation];
  Ok {| th_origin_incarnation := incarnation; th_count := 0; th_encoded_bytes := 0;
        th_sha256 := d.1 |}.

Definition target_resolution_head_empty (tenant incarnation : string) :
    Result TargetResolutionPrefixHead :=
  validate_name tenant;;
  validate_name incarnation;;
  d ← staged_digest ["kasumi.target-resolution-prefix.v1"; tenant; incarnation];
  Ok {| tr_origin_incarnation := incarnation; tr_count := 0; tr_encoded_bytes := 0;
        tr_sha256 := d.1 |}.

Definition backup_binding_head_empty (incarnation : string) : Result BackupBindingHead :=
  validate_name incarnation;;
  d ← staged_digest ["kasumi.backup-binding-root.v1"; incarnation];
  Ok {| bb_origin_incarnation := incarnation; bb_count := 0; bb_encoded_bytes := 0;
        bb_last_applied_revision := 0; bb_sha256 := d.1 |}.

(** ** Staged manifests *)

(** [add]. *)
Definition staged_add (previous value : N) : Result N :=
  ok_or (checked_add previous value) (new_error ResourceExhausted "staging size overflow").

(** The collections a chunk reads and writes. *)
Definition chunk_reads (l : list ReadAssertion) (s : gset string) : gset string :=
  foldl (λ s a, match a with
                | ADocument c _ _ | ACollection c _ => {[c]} ∪ s
                | _ => s
                end) s l.

Definition chunk_writes (l : list Mutation) (s : gset string) : gset string :=
  foldl (λ s m, {[(target m).1]} ∪ s) s l.

(** One iteration of the loop of [StagedManifest::from_chunks]. *)
Definition manifest_add_chunk (m : StagedManifest) (c : StagedChunk) : Result StagedManifest :=
  d ← staged_digest c;
  bytes ← staged_add (encoded_chunk_bytes m) d.2;
  ops ← staged_add (operation_count m) (len (ck_operations c));
  reads ← staged_add (read_assertion_count m) (len (ck_read_set c));
  Ok {| chunk_digests := chunk_digests m ++ [d.1];
        encoded_chunk_bytes := bytes;
        operation_count := ops;
        read_assertion_count := reads;
        read_collections := chunk_reads (ck_read_set c) (read_collections m);
        write_collections := chunk_writes (ck_operations c) (write_collections m) |}.

Definition empty_manifest : StagedManifest :=
  {| chunk_digests := []; encoded_chunk_bytes := 0; operation_count := 0;
     read_assertion_count := 0; read_collections := ∅; write_collections := ∅ |}.

(** [StagedManifest::from_chunks]. *)
Definition from_chunks (l : list StagedChunk) : Result StagedManifest :=
  if (len l =? 0) || (MAX_STAGED_CHUNKS <? len l)
  then fail InvalidArgument "staged chunk count outside bounds"
  else try_fold manifest_add_chunk empty_manifest l.

(** ** Document descriptors *)

(** [fingerprint]: length and digest of an encoding; errors are [anyhow]
    messages. *)
Definition fingerprint {A} `{Serialize A} (a : A) : result string (N * string) :=
  let bytes := to_json a in
  if str_len bytes <=? u64_max then Ok (str_len bytes, sha256_hex bytes)
  else Err "document byte length overflow".

(** [DocumentSlot::id], [version], [body_bytes], [document_bytes]. *)
Definition slot_id (s : DocumentSlot) : string :=
  match s with Pending d => d_id d | Stored d => s_id d end.
Definition slot_version (s : DocumentSlot) : N :=
  match s with Pending d => d_version d | Stored d => s_version d end.
Definition slot_body_bytes (s : DocumentSlot) : result string N :=
  match s with
  | Pending d => fst <$> fingerprint (canonical (body d))
  | Stored d => Ok (s_body_bytes d)
  end.
Definition slot_document_bytes (s : DocumentSlot) : result string N :=
  match s with
  | Pending d => fst <$> fingerprint d
  | Stored d => Ok (s_document_bytes d)
  end.

(** The [Display] form of [Error]: debug code and message. *)
Definition code_debug (c : ErrorCode) : string :=
  match c with
  | InvalidArgument => "InvalidArgument" | Unauthorized => "Unauthorized"
  | Forbidden => "Forbidden" | NotFound => "NotFound"
  | AlreadyExists => "AlreadyExists" | Conflict => "Conflict"
  | SchemaViolation => "SchemaViolation" | QuotaExceeded => "QuotaExceeded"
  | ResourceExhausted => "ResourceExhausted" | IndexRequired => "IndexRequired"
  | CursorExpired => "CursorExpired" | Unavailable => "Unavailable"
  | UnknownOutcome => "UnknownOutcome" | Corruption => "Corruption"
  | Sealed => "Sealed" | AuditUnavailable => "AuditUnavailable"
  end.

Definition error_text (e : Error) : string := code_debug (code e) +:+ ": " +:+ message e.

(** [StoredDocument::validate]. *)
Definition validate_stored (d : StoredDocument) : result string unit :=
  map_err error_text (validate_name (s_id d));;
  reject_if (negb (0 <? s_body_bytes d)) "stored document body length is zero";;
  reject_if (negb (0 <? body_object_bytes d)) "stored document object length is zero";;
  reject_if (negb ((s_body_bytes d <=? body_decode_work d) &&
                   (body_object_bytes d <=? body_manifest_work d) &&
                   bool_decide (is_Some (checked_add (body_decode_work d) (body_manifest_work d)))))
    "stored document decode workspace differs";;
  reject_if (negb (s_body_bytes d <? s_document_bytes d)) "stored document framing length differs".

(** [StoredDocument::load]; the resolver is the selected application view. *)
Definition load_stored (resolver : StoredDocument → result string Document)
    (d : StoredDocument) : result string Document :=
  validate_stored d;;
  document ← resolver d;
  reject_if (negb (bool_decide (d_id document = s_id d) &&
                   bool_decide (d_version document = s_version d)))
    "stored document identity/version differs";;
  f ← fingerprint (canonical (body document));
  reject_if (negb ((f.1 =? s_body_bytes d) && bool_decide (f.2 = body_sha256 d)))
    "stored document canonical body differs";;
  g ← fingerprint document;
  reject_if (negb (g.1 =? s_document_bytes d)) "stored document canonical framing differs";;
  Ok document.

(** [StoredDocument::from_document]. *)
Definition from_document (document : Document) (object : string)
    (object_bytes decode_work manifest_work : N) : result string StoredDocument :=
  f ← fingerprint (canonical (body document));
  g ← fingerprint document;
  let d := {| s_id := d_id document; s_version := d_version document;
              s_body_bytes := f.1; s_document_bytes := g.1; body_sha256 := f.2;
              body_object := object; body_object_bytes := object_bytes;
              body_decode_work := decode_work; body_manifest_work := manifest_work |} in
  validate_stored d;;
  Ok d.

(** [loan_document]. *)
Definition loan_document (resolver : option (StoredDocument → result string Document))
    (s : DocumentSlot) : result string Document :=
  match s with
  | Pending d => Ok d
  | Stored d =>
      r ← ok_or resolver "selected document resolver missing";
      load_stored r d
  end.
End digest.

(** ** Encoded lengths do not depend on entry order *)

Definition total_len (l : list string) : N := foldr (λ s n, str_len s + n) 0 l.

Lemma write_items_len l : str_len (write_items false l) = len l + total_len l.
Proof.
  induction l as [|x l IH]; [done|]. cbn [write_items].
  rewrite !str_len_app, IH. unfold total_len. cbn [foldr]. rewrite len_cons.
  change (str_len ",") with 1. lia.
Qed.

Lemma write_items_first_len l :
  str_len (write_items true l) = total_len l + (len l - 1).
Proof.
  destruct l as [|x l]; [done|]. cbn [write_items]. rewrite app_string_nil, str_len_app.
  rewrite write_items_len. unfold total_len. cbn [foldr]. rewrite len_cons. lia.
Qed.

(** *** The length of an encoding *)

Lemma encoded_len_Ok {A} `{Serialize A} (a : A) n :
  encoded_len a = Ok n ↔ n = str_len (to_json a) ∧ n ≤ u64_max.
Proof.
  unfold encoded_len. destruct (N.leb_spec (str_len (to_json a)) u64_max); naive_solver lia.
Qed.

Definition vlen (v : value) : N := str_len (write v).

Lemma vlen_object l :
  vlen (VObject l) = 2 + lsum (λ kv, str_len (write_str kv.1) + 1 + vlen kv.2) l + (len l - 1).
Proof.
  unfold vlen. cbn [write]. rewrite !str_len_app, write_items_first_len.
  change (str_len "{") with 1. change (str_len "}") with 1.
  assert (Hl : total_len ((λ kv : string * value, write_str kv.1 +:+ ":" +:+ write kv.2) <$> l) =
    lsum (λ kv, str_len (write_str kv.1) + 1 + str_len (write kv.2)) l).
  { unfold total_len. induction l as [|kv l IH]; [done|]. rewrite lsum_cons, <-IH. csimpl.
    rewrite !str_len_app. change (str_len ":") with 1. lia. }
  rewrite Hl. unfold len. rewrite length_fmap. lia.
Qed.

Lemma vlen_array l : vlen (VArray l) = 2 + lsum vlen l + (len l - 1).
Proof.
  unfold vlen. cbn [write]. rewrite !str_len_app, write_items_first_len.
  change (str_len "[") with 1. change (str_len "]") with 1.
  assert (Hl : total_len (write <$> l) = lsum (λ v, str_len (write v)) l).
  { unfold total_len. induction l as [|v l IH]; [done|]. rewrite lsum_cons, <-IH. done. }
  rewrite Hl. unfold len. rewrite length_fmap. lia.
Qed.

Lemma escape_char_len c : str_len (escape_char c) ≤ 6.
Proof. unfold escape_char. by repeat case_match; vm_compute. Qed.

Lemma write_str_len s : str_len (write_str s) ≤ 6 * str_len s + 2.
Proof.
  unfold write_str. rewrite !str_len_app. change (str_len quote_mark) with 1.
  assert (str_len (escaped_contents s) ≤ 6 * str_len s); [|lia].
  induction s as [|c s IH]; [done|]. cbn [escaped_contents]. rewrite str_len_app.
  pose proof (escape_char_len c). unfold str_len in *. cbn [String.length]. lia.
Qed.

Lemma pretty_go_len k : ∀ n s, n < 10 ^ N.of_nat k →
  str_len (pretty_N_go n s) ≤ N.of_nat k + str_len s.
Proof.
  induction k as [|k IH]; intros n s Hn.
  - replace n with 0 by (cbn in Hn; lia). rewrite pretty_N_go_0. lia.
  - destruct (decide (0 < n)) as [H0|H0].
    + rewrite pretty_N_go_step by done.
      assert (Hd : n `div` 10 < 10 ^ N.of_nat k).
      { apply N.Div0.div_lt_upper_bound. rewrite Nat2N.inj_succ, N.pow_succ_r' in Hn. lia. }
      specialize (IH _ (String (pretty_N_char (n `mod` 10)) s) Hd).
      unfold str_len in *. cbn [String.length] in IH. lia.
    + replace n with 0 by lia. rewrite pretty_N_go_0. lia.
Qed.

Lemma vlen_u64 (n : N) : n ≤ u64_max → vlen (to_value n) ≤ 20.
Proof.
  intros Hn. change (vlen (to_value n)) with (str_len (pretty n)). unfold pretty, pretty_N.
  case_decide; [vm_compute; discriminate|].
  etrans; [apply (pretty_go_len 20)|vm_compute; discriminate].
  eapply N.le_lt_trans; [exact Hn|by vm_compute].
Qed.

Lemma vlen_pair k1 k2 v1 v2 :
  vlen (VObject [(k1, v1); (k2, v2)]) =
  5 + str_len (write_str k1) + vlen v1 + str_len (write_str k2) + vlen v2.
Proof.
  rewrite vlen_object, !lsum_cons, lsum_nil. cbn [fst snd]. unfold len. cbn [length]. lia.
Qed.

Lemma vlen_single k v : vlen (VObject [(k, v)]) = 3 + str_len (write_str k) + vlen v.
Proof. rewrite vlen_object, !lsum_cons, lsum_nil. cbn [fst snd]. unfold len. cbn [length]. lia. Qed.

Lemma total_len_app l1 l2 : total_len (l1 ++ l2) = total_len l1 + total_len l2.
Proof. unfold total_len. induction l1 as [|x l1 IH]; simpl in *; lia. Qed.

#[export] Instance total_len_perm : Proper ((≡ₚ) ==> eq) total_len.
Proof. unfold total_len. induction 1; simpl in *; lia. Qed.

#[export] Instance len_perm {A} : Proper ((≡ₚ) ==> eq) (@len A).
Proof. intros l1 l2 Hp. unfold len. by rewrite Hp. Qed.

(** Lists of items of equal lengths have equal encoded lengths. *)
Lemma write_items_len_ext first l1 l2 :
  Forall2 (λ x y, str_len x = str_len y) l1 l2 →
  str_len (write_items first l1) = str_len (write_items first l2).
Proof.
  intros Hf. revert first. induction Hf as [|x y l1 l2 Hxy Hf IH]; intros first; [done|].
  cbn [write_items]. rewrite !str_len_app, Hxy, IH. done.
Qed.

Lemma write_items_len_perm first l1 l2 :
  l1 ≡ₚ l2 → str_len (write_items first l1) = str_len (write_items first l2).
Proof.
  intros Hp. destruct first; rewrite ?write_items_len, ?write_items_first_len; by rewrite Hp.
Qed.

(** The canonical encoding is exactly as long as the plain one. *)
Lemma canonical_len v : str_len (write (canonical v)) = str_len (write v).
Proof.
  induction v as [| | | |l IH|l IH] using value_rec_nested; try done;
    cbn [canonical write]; rewrite !str_len_app; do 2 f_equal.
  - apply write_items_len_ext. rewrite <-list_fmap_compose.
    induction IH; csimpl; constructor; auto.
  - etrans; [apply write_items_len_perm; by rewrite sort_entries_perm|].
    apply write_items_len_ext. rewrite <-list_fmap_compose.
    induction IH as [|[k x] l Hx Hl IHl]; csimpl; constructor; [|done].
    simpl in *. by rewrite !str_len_app, Hx.
Qed.

(** ** Encodings are well formed and injective *)

Lemma number_char_digit d : number_char (pretty_N_char d) = true.
Proof. unfold pretty_N_char. by repeat case_match. Qed.

Lemma number_text_cons c s :
  number_char c = true → all_number_chars s = true → number_text (String c s) = true.
Proof. intros Hc Hs. unfold number_text. simpl. by rewrite Hc, Hs. Qed.

Lemma number_text_chars s : number_text s = true → all_number_chars s = true.
Proof. unfold number_text. by intros [_ ?]%andb_true_iff. Qed.

Lemma number_text_pretty (n : N) : number_text (pretty n) = true.
Proof.
  assert (Hgo : ∀ m s, number_text s = true → number_text (pretty_N_go m s) = true).
  { intros m. induction (N.lt_wf_0 m) as [m _ IH]. intros s Hs.
    destruct (decide (0 < m)) as [Hm|Hm].
    - rewrite pretty_N_go_step by done. apply IH; [apply N.div_lt; lia|].
      apply number_text_cons; [apply number_char_digit|by apply number_text_chars].
    - replace m with 0 by lia. by rewrite pretty_N_go_0. }
  destruct (decide (n = 0)) as [->|Hn]; [done|].
  unfold pretty, pretty_N. rewrite decide_False by done. rewrite pretty_N_go_step by lia.
  apply Hgo, number_text_cons; [apply number_char_digit|done].
Qed.

Lemma number_N (n : N) : numbers_ok (to_value n) = true.
Proof. apply number_text_pretty. Qed.

(** The bodies a mutation carries have well-formed numbers. *)
Definition mutation_ok (m : Mutation) : Prop :=
  match m with Put _ _ b _ | Patch _ _ b _ => numbers_ok b = true | Delete _ _ _ => True end.

(** Equal up to the entry order of the JSON they carry. *)
Definition same_mutation (m1 m2 : Mutation) : Prop :=
  match m1, m2 with
  | Put c1 i1 b1 e1, Put c2 i2 b2 e2 => c1 = c2 ∧ i1 = i2 ∧ same_json b1 b2 ∧ e1 = e2
  | Patch c1 i1 b1 e1, Patch c2 i2 b2 e2 => c1 = c2 ∧ i1 = i2 ∧ same_json b1 b2 ∧ e1 = e2
  | Delete c1 i1 e1, Delete c2 i2 e2 => c1 = c2 ∧ i1 = i2 ∧ e1 = e2
  | _, _ => False
  end.

Definition same_batch (b1 b2 : MutationBatch) : Prop :=
  idempotency_key b1 = idempotency_key b2 ∧ read_set b1 = read_set b2 ∧
  Forall2 same_mutation (operations b1) (operations b2).

Lemma canonical_inj v1 v2 : canonical v1 = canonical v2 → same_json v1 v2.
Proof.
  intros Heq. eapply same_json_trans; [apply same_canonical|]. rewrite Heq.
  apply same_json_sym, same_canonical.
Qed.

Lemma pretty_num_inj (n m : N) : pretty n = pretty m → n = m.
Proof. apply (inj (pretty (A := N))). Qed.

Lemma Precondition_value_inj (p q : Precondition) : to_value p = to_value q → p = q.
Proof.
  destruct p, q; intros Heq; try discriminate Heq; try reflexivity.
  injection Heq as Heq. by apply pretty_num_inj in Heq as ->.
Qed.

Lemma expected_field_inj e1 e2 : expected_field e1 = expected_field e2 → e1 = e2.
Proof.
  intros Heq. destruct e1, e2; try discriminate Heq; try reflexivity.
  injection Heq as Heq. by apply pretty_num_inj in Heq as ->.
Qed.

Lemma ReadPrecondition_value_inj (p q : ReadPrecondition) : to_value p = to_value q → p = q.
Proof.
  destruct p, q; intros Heq; try discriminate Heq; try reflexivity.
  injection Heq as Heq. by apply pretty_num_inj in Heq as ->.
Qed.

Lemma ReadAssertion_value_inj (a b : ReadAssertion) : to_value a = to_value b → a = b.
Proof.
  destruct a, b; intros Heq; try discriminate Heq.
  - injection Heq as Heq. by apply pretty_num_inj in Heq as ->.
  - injection Heq as Heq. by apply pretty_num_inj in Heq as ->.
  - injection Heq as -> Hp Hs. by apply pretty_num_inj in Hp as ->, Hs as ->.
  - injection Heq as -> -> He. by apply ReadPrecondition_value_inj in He as ->.
  - injection Heq as -> He. by apply pretty_num_inj in He as ->.
Qed.

Lemma Mutation_value_inj (a b : Mutation) : to_value a = to_value b → same_mutation a b.
Proof.
  destruct a, b; intros Heq; try done; simpl in Heq; injection Heq as Hc Hi;
    simpl in *; naive_solver eauto using canonical_inj, expected_field_inj.
Qed.

Lemma list_value_inj {A} `{Serialize A} (R : A → A → Prop) (l1 l2 : list A) :
  (∀ a b, to_value a = to_value b → R a b) → to_value l1 = to_value l2 → Forall2 R l1 l2.
Proof.
  intros HR Heq. injection Heq as Heq. revert l2 Heq.
  induction l1 as [|x l1 IH]; intros [|y l2] Heq; try done. injection Heq as Hx Heq.
  constructor; auto.
Qed.

Lemma batch_value_inj b1 b2 : to_value b1 = to_value b2 → same_batch b1 b2.
Proof.
  destruct b1 as [k1 r1 o1], b2 as [k2 r2 o2]. intros Heq. unfold same_batch. simpl.
  assert (Hr : r1 = r2 ∧ to_value o1 = to_value o2 ∧ k1 = k2).
  { destruct r1 as [|a1 l1], r2 as [|a2 l2]; unfold to_value, serialize_MutationBatch in Heq;
      simpl in Heq; [|discriminate Heq..|].
    - split; [done|]. split; congruence.
    - assert (Hl : to_value (a1 :: l1) = to_value (a2 :: l2)) by congruence.
      split; [|split; congruence].
      apply list_eq_Forall2. eapply list_value_inj; [|exact Hl]. apply ReadAssertion_value_inj. }
  destruct Hr as (-> & Hops & ->). split_and!; try done.
  eapply list_value_inj; [|exact Hops]. apply Mutation_value_inj.
Qed.

Lemma batch_numbers b :
  Forall mutation_ok (operations b) → numbers_ok (to_value b) = true.
Proof.
  intros Hok.
  assert (Hops : numbers_ok (to_value (operations b)) = true).
  { simpl. apply forallb_ok, Forall_fmap. eapply Forall_impl; [exact Hok|].
    intros [c id v e|c id v e|c id e] Hm; simpl; unfold expected_field;
      destruct e; simpl; rewrite ?number_text_pretty; simpl in *;
      rewrite ?canonical_numbers by done; done. }
  assert (Hreads : ∀ l : list ReadAssertion, numbers_ok (to_value l) = true).
  { intros l. simpl. apply forallb_ok, Forall_fmap, Forall_true.
    intros [t|t|i p e|c id []|c e]; simpl; by rewrite ?number_text_pretty. }
  change (numbers_ok (VObject ([("idempotency_key", VString (idempotency_key b))] ++
    (match read_set b with [] => [] | l => [("read_set", to_value l)] end) ++
    [("operations", to_value (operations b))])) = true).
  destruct (read_set b) as [|a l]; cbn [app numbers_ok forallb snd]; rewrite Hops; [done|].
  rewrite (Hreads (a :: l)). done.
Qed.

(** ** Manifests: lemmas *)

Section manifest_lemmas.
Context `{Sha256}.

Lemma staged_digest_Ok {A} `{Serialize A} (a : A) d n :
  staged_digest a = Ok (d, n) ↔
  d = sha256_hex (to_json a) ∧ n = str_len (to_json a) ∧ n ≤ u64_max.
Proof.
  unfold staged_digest. destruct (N.leb_spec (str_len (to_json a)) u64_max); naive_solver lia.
Qed.

Lemma fingerprint_Ok {A} `{Serialize A} (a : A) n d :
  fingerprint a = Ok (n, d) ↔
  n = str_len (to_json a) ∧ d = sha256_hex (to_json a) ∧ n ≤ u64_max.
Proof.
  unfold fingerprint. destruct (N.leb_spec (str_len (to_json a)) u64_max); naive_solver lia.
Qed.

Lemma load_stored_Ok resolver d document :
  load_stored resolver d = Ok document ↔
  validate_stored d = Ok tt ∧ resolver d = Ok document ∧
  d_id document = s_id d ∧ d_version document = s_version d ∧
  fingerprint (canonical (body document)) = Ok (s_body_bytes d, body_sha256 d) ∧
  ∃ g, fingerprint document = Ok (s_document_bytes d, g).
Proof.
  unfold load_stored. split.
  - intros Hl. inv_ok. inv_guards. repeat destruct select (_ * _)%type. simpl in *. subst.
    split_and!; try done. by eexists.
  - intros (Hv & Hr & Hid & Hver & Hf & g & Hg).
    rewrite Hv, bind_Ok_l, Hr, bind_Ok_l.
    rewrite reject_if_pass by by rewrite Hid, Hver, !bool_decide_true.
    rewrite Hf, bind_Ok_l.
    rewrite reject_if_pass by by rewrite N.eqb_refl, bool_decide_true.
    rewrite Hg, bind_Ok_l. by rewrite reject_if_pass by by rewrite N.eqb_refl.
Qed.

(** What adding a list of chunks to a manifest does. *)
Definition extends (m m' : StagedManifest) (l : list StagedChunk) : Prop :=
  chunk_digests m' = chunk_digests m ++ (sha256_hex ∘ to_json <$> l) ∧
  encoded_chunk_bytes m' = encoded_chunk_bytes m + total_len (to_json <$> l) ∧
  operation_count m' = operation_count m + len (l ≫= ck_operations) ∧
  read_assertion_count m' = read_assertion_count m + len (l ≫= ck_read_set) ∧
  read_collections m' = chunk_reads (l ≫= ck_read_set) (read_collections m) ∧
  write_collections m' = chunk_writes (l ≫= ck_operations) (write_collections m).

Lemma extends_trans m1 m2 m3 l1 l2 :
  extends m1 m2 l1 → extends m2 m3 l2 → extends m1 m3 (l1 ++ l2).
Proof.
  intros (Hd & Hb & Ho & Hr & Hrc & Hwc) (Hd' & Hb' & Ho' & Hr' & Hrc' & Hwc').
  unfold extends. rewrite Hd', Hb', Ho', Hr', Hrc', Hwc', Hd, Hb, Ho, Hr, Hrc, Hwc.
  rewrite !fmap_app, !bind_app, !len_app, total_len_app, app_assoc.
  unfold chunk_reads, chunk_writes. rewrite !foldl_app. split_and!; done || lia.
Qed.

Lemma extends_nil m : extends m m [].
Proof.
  unfold extends, total_len. csimpl. rewrite app_nil_r. unfold len. simpl.
  split_and!; done || lia.
Qed.

Lemma manifest_add_chunk_Ok m c m' : manifest_add_chunk m c = Ok m' → extends m m' [c].
Proof.
  unfold manifest_add_chunk, staged_add. intros Hm. apply bind_Ok in Hm as ([d n] & Hd & Hm).
  apply staged_digest_Ok in Hd as (Hd & Hn & _). inv_ok.
  unfold extends, total_len. simpl. rewrite !app_nil_r. split_and!; try done; lia.
Qed.

Lemma manifest_add_chunks l : ∀ m m',
  try_fold manifest_add_chunk m l = Ok m' → extends m m' l.
Proof.
  induction l as [|c l IH]; intros m m' Hm.
  - rewrite try_fold_nil in Hm. injection Hm as <-. apply extends_nil.
  - rewrite try_fold_cons in Hm. apply bind_Ok in Hm as (m1 & Hm1 & Hm).
    apply (extends_trans m m1 m' [c] l); [by apply manifest_add_chunk_Ok|by apply IH].
Qed.
End manifest_lemmas.

(** ** Correctness *)

(** Two byte strings that are not a collision of SHA-256. *)
Definition no_collision `{Sha256} (x y : string) : Prop := sha256_hex x = sha256_hex y → x = y.

(** C36.  A batch digest identifies the batch: two batches with the same digest,
    whose encodings are not a collision of SHA-256, have the same key, the same
    read set and the same operations up to the entry order of the JSON they
    carry. *)
Theorem batch_digest_identifies `{Sha256} b1 b2 d :
  Forall mutation_ok (operations b1) → Forall mutation_ok (operations b2) →
  no_collision (to_json b1) (to_json b2) →
  batch_digest b1 = Ok d → batch_digest b2 = Ok d → same_batch b1 b2.
Proof.
  unfold batch_digest. rewrite !fmap_Ok.
  intros Hok1 Hok2 Hcol ([d1 n1] & H1 & ->) ([d2 n2] & H2 & Hd). simpl in Hd. subst d2.
  apply staged_digest_Ok in H1 as (-> & _), H2 as (Hd & _). apply Hcol in Hd.
  apply batch_value_inj, write_inj; [by apply batch_numbers..|done].
Qed.

Lemma batch_digest_identifies_witness :
  let sha : Sha256 := λ s, s in
  let b1 := batch_insert (with_key "k") "docs" "a"
    (VObject [("y", VNumber "1"); ("x", VNull)]) in
  let b2 := batch_insert (with_key "k") "docs" "a"
    (VObject [("x", VNull); ("y", VNumber "1")]) in
  same_batch b1 b2.
Proof.
  intros sha b1 b2.
  apply (batch_digest_identifies b1 b2 (to_json b1)); [by repeat constructor..|by intros ?| |];
    vm_compute; reflexivity.
Defined.

(** C40.  A document descriptor keeps what it describes: a descriptor made
    from a document is valid, and loading it through a resolver that returns
    that document succeeds with the document; and whatever a resolver returns,
    a document is only handed out when its identity, version, canonical body
    length and digest, and framed length are those of the descriptor. *)
Theorem stored_document_round_trip `{Sha256} document object ob dw mw d :
  from_document document object ob dw mw = Ok d →
  load_stored (λ _, Ok document) d = Ok document ∧
  ∀ resolver document', load_stored resolver d = Ok document' →
    d_id document' = d_id document ∧ d_version document' = d_version document ∧
    str_len (canonical_bytes (body document')) = str_len (canonical_bytes (body document)) ∧
    sha256_hex (canonical_bytes (body document')) = sha256_hex (canonical_bytes (body document)).
Proof.
  unfold from_document. intros Hf. apply bind_Ok in Hf as ([n s] & Hf & Hd).
  apply bind_Ok in Hd as ([m g] & Hg & Hd). apply bind_Ok in Hd as ([] & Hv & Hd).
  injection Hd as Hd. subst d. split.
  - apply load_stored_Ok. split_and!; try done. by exists g.
  - intros resolver document' (_ & _ & Hid & Hver & Hf' & _)%load_stored_Ok.
    simpl in Hid, Hver, Hf'. apply fingerprint_Ok in Hf as (Hn & Hs & _), Hf' as (Hn' & Hs' & _).
    subst n s. split_and!; done.
Qed.

Lemma stored_document_round_trip_witness :
  let sha : Sha256 := λ s, s in
  let document := {| d_id := "a"; d_version := 3; body := VObject [("n", VNumber "1")] |} in
  let d := {| s_id := "a"; s_version := 3; s_body_bytes := 7; s_document_bytes := 37;
              body_sha256 := canonical_bytes (body document); body_object := "";
              body_object_bytes := 9; body_decode_work := 10; body_manifest_work := 10 |} in
  load_stored (λ _, Ok document) d = Ok document ∧
  ∀ resolver document', load_stored resolver d = Ok document' →
    d_id document' = d_id document ∧ d_version document' = d_version document ∧
    str_len (canonical_bytes (body document')) = str_len (canonical_bytes (body document)) ∧
    sha256_hex (canonical_bytes (body document')) = sha256_hex (canonical_bytes (body document)).
Proof.
  intros sha document d. apply (stored_document_round_trip document "" 9 10 10 d).
  vm_compute. reflexivity.
Defined.
