(* ===== verification/State.v ===== *)
(** * Authorization, validation and audit of the replicated tenant state

    Models the checks ordered application makes on a [TenantState]
    (src/crates/kasumi-engine/src/state.rs), the deterministic credential
    scope checks (src/crates/kasumi-types/src/credential_resource.rs and
    authorization.rs), the audit retention rules
    (src/crates/kasumi-types/src/audit.rs) and the lifecycle guard
    (src/crates/kasumi-engine/src/lifecycle_state.rs).

    [Uuid::try_parse] (crate uuid) is a parameter. *)

From S2P Require Import Prelude Json Types Digest.

Class UuidParse := try_parse : string → option Uuid.

Definition CONTROL_TENANT : string := "__kasumi_control".
Definition TARGET_COMPLETION_RESERVE_BYTES : N := N.shiftl 256 10 * 3.
Definition FRAME_HEADER_BYTES : N := 9.
Definition MAX_SCHEMA_CHANGESET_COLLECTIONS : N := 128.
Definition MAX_TABLE_BUDGET_BYTES : N := N.shiftl 1 50.

(** ** Credential resources *)

Definition resource_error {A} : Result A :=
  fail Unauthorized "authenticated resource binding differs".

(** [CredentialResource::validate]. *)
Definition resource_validate (r : CredentialResource) : Result unit :=
  match r with
  | RDatabase i | RControl i | RCustody i => if is_nil i then resource_error else Ok tt
  | RAuthority i p =>
      if 1024 <=? p then resource_error
      else if is_nil i then resource_error else Ok tt
  end.

Section scope.
Context `{UuidParse}.

Definition require_database (r : CredentialResource) (incarnation : string) : Result unit :=
  match r with
  | RDatabase i => if bool_decide (try_parse incarnation = Some i) then Ok tt else resource_error
  | _ => resource_error
  end.

Definition require_control (r : CredentialResource) (incarnation : string) : Result unit :=
  match r with
  | RControl i => if bool_decide (try_parse incarnation = Some i) then Ok tt else resource_error
  | _ => resource_error
  end.

Definition require_custody (r : CredentialResource) (incarnation : string) : Result unit :=
  match r with
  | RCustody i => if bool_decide (try_parse incarnation = Some i) then Ok tt else resource_error
  | _ => resource_error
  end.

Definition require_authority (r : CredentialResource) (authority_id : Uuid) (partition : N) :
    Result unit :=
  match r with
  | RAuthority i p =>
      if bool_decide (i = authority_id) && (p =? partition) then Ok tt else resource_error
  | _ => resource_error
  end.

(** [RequestAuthorization::resource], [require_database], [require_control]. *)
Definition resource (a : AuthorizationMetadata) : option CredentialResource :=
  match a with MServiceIdentity => None | MCredential _ r => Some r end.

Definition auth_require_database (a : AuthorizationMetadata) (incarnation : string) : Result unit :=
  match resource a with None => Ok tt | Some r => require_database r incarnation end.

Definition auth_require_control (a : AuthorizationMetadata) (incarnation : string) : Result unit :=
  match resource a with None => Ok tt | Some r => require_control r incarnation end.

(** ** Authorization *)

(** [authorize_resource]. *)
Definition authorize_resource (s : TenantState) (c : RequestContext) : Result unit :=
  if bool_decide (tenant s = CONTROL_TENANT)
  then auth_require_control (authorization c) (incarnation s)
  else auth_require_database (authorization c) (incarnation s).

(** [authorize_state]. *)
Definition authorize_state (s : TenantState) (c : RequestContext) (collection : option string)
    (action : Action) : Result unit :=
  authorize_resource s c;;
  if negb (bool_decide (c_tenant c = tenant s)) then fail Forbidden "tenant access denied"
  else if negb (allows (policy s) c collection action) then
    fail Forbidden "operation access denied"
  else if starts_with (tenant s) "__kasumi_" && bool_decide (action = Write) &&
          negb (allows (policy s) c None Admin) then
    fail Forbidden "operator metadata requires administration permission"
  else if (suspended s || retired s) && negb (bool_decide (action = Admin)) then
    fail Sealed "tenant is suspended"
  else Ok tt.

(** [authorize_discovery_state]. *)
Definition authorize_discovery_state (s : TenantState) (c : RequestContext) (action : Action) :
    Result unit :=
  authorize_resource s c;;
  if negb (bool_decide (c_tenant c = tenant s)) ||
     negb (bool_decide (action ∈ scopes c)) ||
     negb (existsb (λ g, bool_decide (g_principal g = c_principal c) &&
                         bool_decide (action ∈ g_actions g)) (grants (policy s)))
  then fail Forbidden "discovery access denied"
  else if (suspended s && negb (bool_decide (action = Admin))) || retired s then
    fail Sealed "tenant is suspended or retired"
  else Ok tt.
End scope.

(** [lifecycle::guard]. *)
Definition guard_message : string :=
  "closed lifecycle control requires its policy transition; generic authority/schema invalidation is disabled".

Definition frozen_allows (o : Operation) : bool :=
  match o with
  | LifecycleControl _ | OAudit _ | AuditBatch _ | MaintenanceAudit _ => true
  | _ => false
  end.

Definition closed_allows (o : Operation) : bool :=
  match o with
  | LifecycleControl _ | Mutate _ | BeginStaged _ | AppendStaged _ | FinalizeStaged _
  | StopStaged _ | OAudit _ | AuditBatch _ | MaintenanceAudit _ => true
  | _ => false
  end.

Definition guard (s : TenantState) (o : Operation) : Result unit :=
  match lifecycle_control s with
  | None => Ok tt
  | Some control =>
      if negb (closed_allows o) then fail Forbidden guard_message
      else if bool_decide (is_Some (pending_change control)) && negb (frozen_allows o) then
        fail Conflict "control policy transition freezes topology and command publication"
      else if lc_retired control && negb (frozen_allows o) then
        fail Sealed "lifecycle control incarnation is retired"
      else Ok tt
  end.

(** ** Limits and policy *)

Definition is_zero (n : N) : bool := n =? 0.

(** [AuditRetentionBudget::validate], [starts_at], [drains_to],
    [archive_backlog_bytes]. *)
Definition budget_validate (b : AuditRetentionBudget) : Result unit :=
  if (budget_hot_bytes b <? 2 * MAX_AUDIT_EVENT_BYTES) ||
     (budget_archive_bytes b <? MAX_AUDIT_SEGMENT_BYTES)
  then fail InvalidArgument "audit budget cannot hold a bounded maintenance segment"
  else Ok tt.

Definition starts_at (b : AuditRetentionBudget) : N :=
  budget_hot_bytes b - budget_hot_bytes b / 4.
Definition drains_to (b : AuditRetentionBudget) : N := budget_hot_bytes b / 2.
Definition archive_backlog_bytes (b : AuditRetentionBudget) (hot : N) (draining : bool) : N :=
  if draining || (starts_at b <=? hot) then hot - drains_to b else 0.

(** [validate_limits]. *)
Definition validate_history_limits (h : HistoryLimits) : bool :=
  is_zero (max_feed_events h) || (1000000 <? max_feed_events h) ||
  is_zero (max_feed_bytes h) || (N.shiftl 512 20 <? max_feed_bytes h) ||
  is_zero (max_archive_segments h) || (65536 <? max_archive_segments h).

Definition validate_atomic_limits (l : Limits) : bool :=
  let a := atomic l in
  is_zero (max_operations a) || (100000 <? max_operations a) ||
  is_zero (max_read_assertions a) || (100000 <? max_read_assertions a) ||
  (max_transaction_bytes a <? max_batch_bytes l) ||
  (N.shiftl 64 20 <? max_transaction_bytes a) ||
  is_zero (max_active_transactions a) || (64 <? max_active_transactions a) ||
  (max_reserved_staging_bytes a <? max_transaction_bytes a) ||
  (N.shiftl 512 20 <? max_reserved_staging_bytes a) ||
  is_zero (max_permanent_staged_bytes a) ||
  is_zero (max_snapshot_leases a) || (128 <? max_snapshot_leases a) ||
  is_zero (max_snapshot_lease_bytes a).

Definition validate_resource_limits (l : Limits) : bool :=
  is_zero (max_document_bytes l) || (N.shiftl 1 20 <? max_document_bytes l) ||
  is_zero (max_batch_operations l) || (256 <? max_batch_operations l) ||
  (max_batch_bytes l <? max_document_bytes l) || (N.shiftl 8 20 <? max_batch_bytes l) ||
  is_zero (max_page_size l) || (1000 <? max_page_size l) ||
  is_zero (cursor_ttl_ms l) || (60000 <? cursor_ttl_ms l) ||
  is_zero (max_query_candidates l) ||
  is_zero (max_result_bytes l) || (N.shiftl 8 20 <? max_result_bytes l) ||
  is_zero (max_mutation_receipt_bytes l) || is_zero (max_backup_binding_bytes l) ||
  is_zero (max_documents l) || is_zero (max_logical_bytes l) ||
  (max_snapshot_bytes l <? 4096) ||
  is_zero (max_query_groups l) || is_zero (max_cursor_bytes l) || is_zero (max_cursors l) ||
  is_zero (max_collections l) || is_zero (max_schema_bytes l) ||
  is_zero (max_retirement_bytes l) ||
  (max_target_resolution_bytes l <? TARGET_COMPLETION_RESERVE_BYTES) ||
  is_zero (max_schema_activation_bytes l) || is_zero (max_policy_grants l).

Definition validate_limits (l : Limits) : Result unit :=
  budget_validate (l_audit_retention l);;
  if validate_history_limits (history l) then
    fail InvalidArgument "invalid history resource limits"
  else if validate_atomic_limits l then
    fail InvalidArgument "invalid atomic resource limits"
  else if validate_resource_limits l then fail InvalidArgument "invalid resource limits"
  else Ok tt.

(** [validate_limit_budgets]. *)
Definition raised (new old : N) : bool := (MAX_TABLE_BUDGET_BYTES <? new) && negb (new =? old).

Definition validate_limit_budgets (l current : Limits) : Result unit :=
  if raised (max_snapshot_bytes l) (max_snapshot_bytes current) ||
     raised (max_mutation_receipt_bytes l) (max_mutation_receipt_bytes current) ||
     raised (max_backup_binding_bytes l) (max_backup_binding_bytes current)
  then fail InvalidArgument "table budget exceeds the restorable snapshot bound"
  else Ok tt.

(** [next_policy_epoch]. *)
Definition next_policy_epoch (epoch : N) : Result N :=
  ok_or (checked_add epoch 1) (new_error QuotaExceeded "policy generation exhausted").

(** [validate_policy]. *)
Definition validate_grant (g : Grant) : Result unit :=
  validate_name (g_principal g);;
  match g_collection g with Some c => validate_name c | None => Ok tt end;;
  if bool_decide (g_actions g = ∅) then fail InvalidArgument "empty policy grant" else Ok tt.

Definition validate_policy (p : Policy) (l : Limits) : Result unit :=
  if max_policy_grants l <? len (grants p) then
    fail QuotaExceeded "policy grant quota exceeded"
  else if negb (existsb (λ g, bool_decide (g_collection g = None) &&
                              bool_decide (Admin ∈ g_actions g)) (grants p)) then
    fail InvalidArgument "tenant needs an administrator"
  else try_for_each validate_grant (grants p).

(** [validate_metadata_budget]. *)
Definition validate_metadata_budget (cs : gmap string CollectionState) (l : Limits) : Result unit :=
  if max_collections l <? N.of_nat (size cs) then
    fail QuotaExceeded "collection quota exceeded"
  else
    bytes ← try_fold (λ total c,
      n ← encoded_len (definition c);
      ok_or (checked_add total n) (new_error QuotaExceeded "schema size overflow"))
      0 (map_values cs);
    if max_schema_bytes l <? bytes then
      fail QuotaExceeded "schema and index definition quota exceeded"
    else Ok tt.

(** ** Audit retention *)

(** [AuditArchiveLink::validate]. *)
Definition link_validate (l : AuditArchiveLink) : Result unit :=
  if is_nil (object_id l) || (al_next_sequence l <=? al_first_sequence l)
  then fail InvalidArgument "invalid audit archive link"
  else validate_sha256 (ciphertext_sha256 l).

(** [AuditArchiveReference::validate]. *)
Definition reference_error {A} : Result A := fail InvalidArgument "invalid audit archive reference".

Definition reference_validate (r : AuditArchiveReference) : Result unit :=
  let o := object r in
  let k := key r in
  if is_nil (ar_stream_id r) || is_nil (object_id o) || (record_count r =? 0) ||
     (MAX_AUDIT_SEGMENT_RECORDS <? record_count r) ||
     negb (bool_decide (checked_sub (al_next_sequence o) (al_first_sequence o) =
                        Some (record_count r))) ||
     (MAX_AUDIT_SEGMENT_BYTES <? plaintext_bytes r) ||
     (MAX_AUDIT_SEGMENT_BYTES <? ciphertext_bytes r) ||
     (ciphertext_bytes r <=? plaintext_bytes r) ||
     (str_len (provider k) =? 0) || (1024 <? str_len (provider k)) ||
     (str_len (key_ref k) =? 0) || (8192 <? str_len (key_ref k)) || (key_version k =? 0)
  then reference_error
  else
    validate_sha256 (ciphertext_sha256 o);;
    validate_sha256 (wrapped_key_sha256 k);;
    match previous r with
    | None => if al_first_sequence o =? 0 then Ok tt else reference_error
    | Some p =>
        if is_nil (object_id p) || (object_id p =? object_id o) ||
           (al_next_sequence p <=? al_first_sequence p) ||
           negb (al_next_sequence p =? al_first_sequence o)
        then reference_error
        else validate_sha256 (ciphertext_sha256 p)
    end.

(** [AuditRetentionState::empty], [validate]. *)
Definition empty_retention (stream : Uuid) : AuditRetentionState :=
  {| stream_id := stream; au_next_sequence := 0; pruned_before := 0; hot_bytes := 0;
     archive_bytes := 0; archive_segments := 0; draining := false; archive_head := None |}.

Definition retention_error {A} : Result A := fail InvalidArgument "invalid audit retention position".

Definition retention_validate (r : AuditRetentionState) : Result unit :=
  if is_nil (stream_id r) || (au_next_sequence r <? pruned_before r) then retention_error
  else
    match archive_head r with
    | Some head =>
        reference_validate head;;
        if negb (ar_stream_id head =? stream_id r) ||
           negb (al_next_sequence (object head) =? pruned_before r) ||
           (archive_segments r =? 0) || (archive_bytes r <? ciphertext_bytes head)
        then retention_error else Ok tt
    | None =>
        if negb (pruned_before r =? 0) || negb (archive_bytes r =? 0) ||
           negb (archive_segments r =? 0)
        then retention_error else Ok tt
    end.

(** [accounting::target_audit_reserve], [audit_fits]. *)
Definition target_audit_reserve (s : TenantState) : N :=
  match target_completion_head s with
  | Some {| active := Some attempt |} =>
      match target_lifecycle s !! incarnation s with
      | Some {| te_completion := Some _ |} => reserved_audit_bytes attempt - MAX_AUDIT_EVENT_BYTES
      | _ => reserved_audit_bytes attempt
      end
  | _ => 0
  end.

Definition audit_fits (s : TenantState) : bool :=
  match checked_add (hot_bytes (audit_retention s)) (target_audit_reserve s) with
  | Some bytes => bytes <=? budget_hot_bytes (l_audit_retention (limits s))
  | None => false
  end.

(** [audit_append_totals]. *)
Definition audit_append_totals (sequence hot : N) (event : AuditEvent) : Result (N * N) :=
  bytes ← encoded_len event;
  if MAX_AUDIT_EVENT_BYTES <? bytes then
    fail QuotaExceeded "audit event exceeds record budget"
  else
    next ← ok_or (checked_add sequence 1) (new_error Corruption "audit sequence exhausted");
    total ← ok_or (checked_add hot bytes) (new_error Corruption "audit byte count overflow");
    Ok (next, total).

Definition set_audit_position (next hot : N) (r : AuditRetentionState) : AuditRetentionState :=
  {| stream_id := stream_id r; au_next_sequence := next; pruned_before := pruned_before r;
     hot_bytes := hot; archive_bytes := archive_bytes r; archive_segments := archive_segments r;
     draining := draining r; archive_head := archive_head r |}.

(** [append_audit]. *)
Definition append_audit (event : AuditEvent) : ST TenantState Error unit := λ s,
  match audit_append_totals (au_next_sequence (audit_retention s))
          (hot_bytes (audit_retention s)) event with
  | Err e => (s, Err e)
  | Ok (next, hot) =>
      (set_audit_retention (set_audit_position next hot (audit_retention s))
         (set_audits (audits s ++ [event]) s), Ok tt)
  end.

(** The totals loop and the assignments of [Operation::AuditBatch]. *)
Definition audit_batch_step (validate : AuditEvent → Result unit) (p : N * N)
    (event : AuditEvent) : Result (N * N) :=
  validate event;;
  audit_append_totals p.1 p.2 event.

Definition audit_batch_totals (validate : AuditEvent → Result unit) (sequence hot : N)
    (events : list AuditEvent) : Result (N * N) :=
  try_fold (audit_batch_step validate) (sequence, hot) events.

Definition append_audit_batch (validate : AuditEvent → Result unit) (events : list AuditEvent) :
    ST TenantState Error unit := λ s,
  match audit_batch_totals validate (au_next_sequence (audit_retention s))
          (hot_bytes (audit_retention s)) events with
  | Err e => (s, Err e)
  | Ok (next, hot) =>
      (set_audit_retention (set_audit_position next hot (audit_retention s))
         (set_audits (audits s ++ events) s), Ok tt)
  end.

(** The byte count loop of [validate_audits]. *)
Definition audit_hot_bytes (events : list AuditEvent) : Result N :=
  try_fold (λ total event,
    bytes ← encoded_len event;
    if MAX_AUDIT_EVENT_BYTES <? bytes then fail Corruption "audit event exceeds record budget"
    else ok_or (checked_add total bytes) (new_error Corruption "audit byte count overflow"))
    0 events.

(** [validate_audits]. *)
Definition validate_audits (s : TenantState) : Result unit :=
  retention_validate (audit_retention s);;
  if negb (audit_fits s) ||
     (budget_archive_bytes (l_audit_retention (limits s)) <? archive_bytes (audit_retention s))
  then fail Corruption "audit history exceeds configured byte budgets"
  else
    hot ← audit_hot_bytes (audits s);
    if negb (bool_decide (checked_sub (au_next_sequence (audit_retention s))
               (pruned_before (audit_retention s)) = Some (len (audits s)))) ||
       negb (hot =? hot_bytes (audit_retention s))
    then fail Corruption "audit retention accounting differs"
    else Ok tt.

(** [validate_audit_batch_len], [read_audit_action], [validate_read_audit]. *)
Definition validate_audit_batch_len (events : list AuditEvent) : Result unit :=
  if (len events =? 0) || (MAX_SCHEMA_CHANGESET_COLLECTIONS <? len events)
  then fail InvalidArgument "read audit batch outside event bound" else Ok tt.

Definition read_audit_action (event : AuditEvent) : Result Action :=
  let a := e_action event in
  if bool_decide (a ∈ ["read"; "discovery"; "change_feed"; "archive_receipt"; "restore_lineage"])
  then Ok Read
  else if bool_decide (a ∈ ["receipt"; "mutation_capacity_admission"]) then Ok Write
  else if bool_decide (a ∈ ["schema_activation_status"; "schema_read"; "policy_limits_read"])
  then Ok Admin
  else fail InvalidArgument "invalid read audit action".

(** [Option::is_none_or(|r| r > revision)]. *)
Definition beyond (o : option N) (revision : N) : bool :=
  match o with None => true | Some r => revision <? r end.

Definition validate_read_audit `{UuidParse} (s : TenantState) (c : Command) (event : AuditEvent)
    (revision : N) : Result unit :=
  action ← read_audit_action event;
  match e_collection event with
  | None => authorize_discovery_state s (context c) action
  | Some _ => authorize_state s (context c) (e_collection event) action
  end;;
  if negb (bool_decide (e_principal event = c_principal (context c))) ||
     negb (bool_decide (e_request_id event = request_id (context c))) ||
     negb (bool_decide (e_outcome event = "authorized_release")) ||
     beyond (data_revision event) revision
  then fail InvalidArgument "invalid read audit event" else Ok tt.

(** ** Genesis *)

(** The first sixteen bytes of a digest, as a [Uuid]. *)
Fixpoint hex_value (n : nat) (s : string) (acc : N) : N :=
  match n, s with
  | S n', String c s' => hex_value n' s' (acc * 16 + unhex c)
  | _, _ => acc
  end.

Definition audit_stream_id `{Sha256} (tenant incarnation : string) : Uuid :=
  hex_value 32 (sha256_hex (to_json ["kasumi.audit-stream.v1"; tenant; incarnation])) 0.

(** [genesis_metadata]. *)
Definition genesis_metadata `{Sha256} (t i : string) (p : Policy) (l : Limits) :
    Result TenantState :=
  validate_name t;;
  validate_name i;;
  validate_limits l;;
  validate_policy p l;;
  receipts ← mutation_receipt_head_empty t i;
  bindings ← backup_binding_head_empty i;
  terminals ← staged_terminal_head_empty t i;
  targets ← target_resolution_head_empty t i;
  Ok {| tenant := t; incarnation := i; revision := 0; revision_base := 0; policy_epoch := 0;
        schema_epoch := 0; suspended := false; retired := false; pending_restore := None;
        restored_from := None; restore_lineage := []; lifecycle_control := None;
        target_lifecycle := ∅; recovery_control := empty_recovery_control;
        document_count := 0; logical_bytes := 0; policy := p; limits := l; collections := ∅;
        mutation_receipt_head := receipts; backup_binding_head := bindings;
        staged_transactions := ∅; active_staged_transactions := ∅;
        permanent_staged_bytes := 0; reserved_staged_terminal_bytes := 0;
        staged_terminal_head := terminals; target_resolution_head := targets;
        target_completion_head := None; change_feed := empty_feed; history_archives := ∅;
        history_archive_bytes := 0; schema_activations := ∅; schema_activation_bytes := 0;
        retirements := ∅; retirement_bytes := 0;
        audit_retention := empty_retention (audit_stream_id t i); audits := [] |}.

(** ** A sample tenant, for the concrete instances below *)

Module Sample.

(** A stand-in digest: 64 hexadecimal digits. *)
Fixpoint zeros (n : nat) : string := match n with O => "" | S n' => String "1" (zeros n') end.

Definition sha : Sha256 := λ _, zeros 64.
Definition parse : UuidParse := λ s, if bool_decide (s = "i1") then Some 7 else None.

Definition admin_policy : Policy :=
  {| grants := [{| g_principal := "root"; g_collection := None;
                   g_actions := {[Read; Write; Admin; Audit]} |}];
     p_strict_read_audit := false |}.

Definition context : RequestContext :=
  {| authorization := MServiceIdentity; c_principal := "root"; c_tenant := "t1";
     scopes := {[Read; Write; Admin; Audit]}; request_id := "r1" |}.

Definition event : AuditEvent :=
  {| event_id := "e1"; e_principal := "root"; e_action := "read"; e_request_id := "r1";
     e_timestamp_ms := 5; data_revision := Some 0; e_outcome := "authorized_release";
     e_collection := None |}.

(** The genesis state of tenant t1. *)
Definition state : TenantState := Eval vm_compute in
  the (@genesis_metadata sha "t1" "i1" admin_policy default_limits) eq_refl.
End Sample.

(** ** Lemmas *)

Lemma reject_Ok {A} (b : bool) c m (r : Result A) x :
  (if b then fail c m else r) = Ok x ↔ b = false ∧ r = Ok x.
Proof. destruct b; naive_solver. Qed.

Lemma allows_spec p c collection action :
  allows p c collection action = true ↔
  action ∈ scopes c ∧ ∃ g, g ∈ grants p ∧ g_principal g = c_principal c ∧
    action ∈ g_actions g ∧ (g_collection g = None ∨ g_collection g = collection).
Proof.
  unfold allows. rewrite andb_true_iff, bool_decide_eq_true, existsb_exists.
  split.
  - intros (? & g & Hin & Hg). apply list_elem_of_In in Hin.
    rewrite !andb_true_iff, orb_true_iff, !bool_decide_eq_true in Hg. naive_solver.
  - intros (? & g & Hin & ? & ? & ?). split; [done|]. exists g.
    apply list_elem_of_In in Hin.
    rewrite !andb_true_iff, orb_true_iff, !bool_decide_eq_true. naive_solver.
Qed.

(** Totals of a batch: as many positions as events, and their bytes. *)
Lemma audit_append_totals_Ok sequence hot event next total :
  audit_append_totals sequence hot event = Ok (next, total) ↔
  ∃ bytes, encoded_len event = Ok bytes ∧ bytes ≤ MAX_AUDIT_EVENT_BYTES ∧
    next = sequence + 1 ∧ total = hot + bytes ∧ next ≤ u64_max ∧ total ≤ u64_max.
Proof.
  unfold audit_append_totals. split.
  - intros Ht. apply bind_Ok in Ht as (bytes & Hb & Ht). apply reject_Ok in Ht as [Hle Ht].
    inv_ok. inv_guards. exists bytes. naive_solver.
  - intros (bytes & -> & Hb & -> & -> & Hn & Ht). rewrite bind_Ok_l.
    apply reject_Ok. split; [by apply N.ltb_ge|].
    unfold checked_add. apply N.leb_le in Hn, Ht. by rewrite Hn, Ht.
Qed.

Lemma audit_hot_bytes_snoc events event hot bytes :
  audit_hot_bytes events = Ok hot → encoded_len event = Ok bytes →
  bytes ≤ MAX_AUDIT_EVENT_BYTES → hot + bytes ≤ u64_max →
  audit_hot_bytes (events ++ [event]) = Ok (hot + bytes).
Proof.
  unfold audit_hot_bytes. intros Hh Hb Hle Hm. rewrite try_fold_app, Hh, bind_Ok_l.
  rewrite try_fold_cons, Hb, bind_Ok_l. apply N.ltb_ge in Hle. rewrite Hle.
  unfold checked_add. apply N.leb_le in Hm. by rewrite Hm.
Qed.

Lemma audit_state_id s :
  set_audit_retention (set_audit_position (au_next_sequence (audit_retention s))
    (hot_bytes (audit_retention s)) (audit_retention s)) (set_audits (audits s) s) = s.
Proof. destruct s. unfold set_audit_position. cbn. by destruct select AuditRetentionState. Qed.

(** Assigning the audit position twice keeps the last. *)
Lemma audit_state_append s next hot next' hot' events events' :
  set_audit_retention (set_audit_position next' hot' (set_audit_position next hot (audit_retention s)))
    (set_audits ((audits s ++ events) ++ events') (set_audit_retention
      (set_audit_position next hot (audit_retention s)) (set_audits (audits s ++ events) s))) =
  set_audit_retention (set_audit_position next' hot' (audit_retention s))
    (set_audits (audits s ++ (events ++ events')) s).
Proof. rewrite app_assoc. reflexivity. Qed.

Definition audited (s : TenantState) (p : N * N) (events : list AuditEvent) : TenantState :=
  set_audit_retention (set_audit_position p.1 p.2 (audit_retention s))
    (set_audits (audits s ++ events) s).

Definition audit_position (s : TenantState) : N * N :=
  (au_next_sequence (audit_retention s), hot_bytes (audit_retention s)).

Lemma audited_position s p events : audit_position (audited s p events) = p.
Proof. by destruct p. Qed.

Lemma append_audit_cases e s :
  append_audit e s =
  match audit_append_totals (audit_position s).1 (audit_position s).2 e with
  | Ok p => (audited s p [e], Ok tt)
  | Err err => (s, Err err)
  end.
Proof.
  unfold append_audit, audited, audit_position. cbn [fst snd].
  by destruct (audit_append_totals _ _ _) as [[n h]|].
Qed.

Lemma append_audit_Ok e s s' :
  append_audit e s = (s', Ok tt) ↔
  ∃ p, audit_append_totals (audit_position s).1 (audit_position s).2 e = Ok p ∧
       s' = audited s p [e].
Proof.
  rewrite append_audit_cases. destruct (audit_append_totals _ _ _); naive_solver.
Qed.

Lemma audit_batch_step_Ok validate p e q :
  audit_batch_step validate p e = Ok q ↔
  validate e = Ok tt ∧ audit_append_totals p.1 p.2 e = Ok q.
Proof.
  unfold audit_batch_step. rewrite bind_Ok. split; [intros ([] & ? & ?)|intros []]; eauto.
Qed.

(** Appending one by one ends with the totals of the batch. *)
Lemma append_audits_fold validate events : ∀ s q,
  try_fold (audit_batch_step validate) (audit_position s) events = Ok q →
  st_fold (λ _ e, append_audit e) tt events s = (audited s q events, Ok tt).
Proof.
  induction events as [|e events IH]; intros s q Ht.
  - rewrite try_fold_nil in Ht. injection Ht as <-. rewrite st_fold_nil.
    unfold audited, audit_position. cbn [fst snd]. by rewrite app_nil_r, audit_state_id.
  - rewrite try_fold_cons in Ht. apply bind_Ok in Ht as (p & He & Ht).
    apply audit_batch_step_Ok in He as [_ He].
    rewrite st_fold_cons. unfold mbind, ST_bind.
    assert (Ha : append_audit e s = (audited s p [e], Ok tt)) by (apply append_audit_Ok; eauto).
    rewrite Ha, (IH _ q) by by rewrite audited_position. f_equal.
    destruct p, q. apply (audit_state_append s _ _ _ _ [e] events).
Qed.

(** Conversely, when every event is valid and can be appended in turn, the
    totals of the batch exist. *)
Lemma append_audits_totals validate events : ∀ s s',
  (∀ e, e ∈ events → validate e = Ok tt) →
  st_fold (λ _ e, append_audit e) tt events s = (s', Ok tt) →
  ∃ p, try_fold (audit_batch_step validate) (audit_position s) events = Ok p.
Proof.
  induction events as [|e events IH]; intros s s' Hval Hf; [by eexists|].
  rewrite st_fold_cons in Hf. apply st_bind_Ok in Hf as (s1 & [] & He & Hf).
  apply append_audit_Ok in He as (p & He & ->).
  apply IH in Hf as [q Hq]; [|intros x Hx; apply Hval; by right].
  rewrite audited_position in Hq. exists q. rewrite try_fold_cons. apply bind_Ok.
  exists p. split; [|done]. apply audit_batch_step_Ok. split; [apply Hval; by left|done].
Qed.

Lemma audit_batch_valid validate events : ∀ p q,
  try_fold (audit_batch_step validate) p events = Ok q →
  ∀ e, e ∈ events → validate e = Ok tt.
Proof.
  induction events as [|e events IH]; intros p q Ht x Hx; [by apply elem_of_nil in Hx|].
  rewrite try_fold_cons in Ht. apply bind_Ok in Ht as (q' & He & Ht).
  apply audit_batch_step_Ok in He as [He _]. apply elem_of_cons in Hx as [->|Hx]; [done|].
  by eapply IH.
Qed.

Lemma append_audit_valid e s s' :
  validate_audits s = Ok tt → append_audit e s = (s', Ok tt) → audit_fits s' = true →
  validate_audits s' = Ok tt.
Proof.
  intros Hv ([n h] & Ht & ->)%append_audit_Ok Hfits.
  apply audit_append_totals_Ok in Ht as (bytes & Hb & Hle & -> & -> & Hn & Ht).
  unfold validate_audits in *.
  apply bind_Ok in Hv as ([] & Hr & Hv). apply reject_Ok in Hv as [Hg Hv].
  apply bind_Ok in Hv as (h & Hh & Hv). apply reject_Ok in Hv as [Hacc _]. inv_guards.
  apply bind_Ok. exists tt. split.
  { unfold retention_validate in *. simpl in *. apply reject_Ok in Hr as [? Hr]. inv_guards.
    apply reject_Ok. split; [|done]. apply orb_false_iff. split; [done|]. apply N.ltb_ge. lia. }
  apply reject_Ok. rewrite Hfits. simpl. split; [by apply N.ltb_ge|].
  subst h. apply bind_Ok. exists (hot_bytes (audit_retention s) + bytes). split.
  { by apply audit_hot_bytes_snoc. }
  apply reject_Ok. split; [|done]. rewrite N.eqb_refl. simpl. rewrite orb_false_r.
  apply negb_false_iff, bool_decide_eq_true, checked_sub_Some.
  apply checked_sub_Some in H as [Hlen ?]. rewrite len_app. unfold len at 2. simpl. lia.
Qed.

(** ** Correctness *)

(** C30.  Who may do what: a request is authorized for an action on a collection
    (or on the tenant) exactly when its credential, if it has one, is bound to
    this very incarnation with the purpose of this tenant, the request names
    this tenant, the credential's scopes and one of the tenant's grants to the
    principal include the action for that collection, a write to an operator
    tenant is also granted administration, and the tenant is neither suspended
    nor retired unless the action is administration. *)
Theorem authorize_state_spec `{UuidParse} s c collection action :
  authorize_state s c collection action = Ok tt ↔
  (authorization c = MServiceIdentity ∨ ∃ exp i, try_parse (incarnation s) = Some i ∧
     authorization c = MCredential exp
       (if bool_decide (tenant s = CONTROL_TENANT) then RControl i else RDatabase i)) ∧
  c_tenant c = tenant s ∧
  (action ∈ scopes c ∧ ∃ g, g ∈ grants (policy s) ∧ g_principal g = c_principal c ∧
     action ∈ g_actions g ∧ (g_collection g = None ∨ g_collection g = collection)) ∧
  (starts_with (tenant s) "__kasumi_" = true → action = Write →
     Admin ∈ scopes c ∧ ∃ g, g ∈ grants (policy s) ∧ g_principal g = c_principal c ∧
       Admin ∈ g_actions g ∧ g_collection g = None) ∧
  (suspended s = true ∨ retired s = true → action = Admin).
Proof.
  assert (Hres : authorize_resource s c = Ok tt ↔
    authorization c = MServiceIdentity ∨ ∃ exp i, try_parse (incarnation s) = Some i ∧
     authorization c = MCredential exp
       (if bool_decide (tenant s = CONTROL_TENANT) then RControl i else RDatabase i)).
  { unfold authorize_resource, auth_require_control, auth_require_database, resource,
      require_control, require_database.
    destruct (authorization c) as [|exp [i|i|a p|i]]; repeat case_bool_decide; naive_solver. }
  unfold authorize_state. rewrite seq_Ok, <-Hres, !reject_Ok, !negb_false_iff, bool_decide_eq_true.
  rewrite <-(allows_spec (policy s) c collection action).
  assert (Hadm : (Admin ∈ scopes c ∧ ∃ g, g ∈ grants (policy s) ∧ g_principal g = c_principal c ∧
       Admin ∈ g_actions g ∧ g_collection g = None) ↔ allows (policy s) c None Admin = true).
  { rewrite allows_spec. naive_solver. }
  rewrite Hadm. clear Hadm Hres.
  destruct (starts_with _ _), (suspended s), (retired s), (decide (action = Write)),
    (decide (action = Admin)), (allows (policy s) c None Admin); simpl;
    repeat case_bool_decide; simpl; try congruence; naive_solver congruence.
Qed.

(** C37.  The audit trail stays verifiable: appending an event to a state whose
    audit history passes the snapshot check (consecutive positions, exact hot
    byte count, bounded events) leaves a state that passes it again, as long as
    the event still fits the configured hot budget; and a refused event leaves
    the state unchanged. *)
Theorem append_audit_keeps_history e s :
  validate_audits s = Ok tt →
  match append_audit e s with
  | (s', Ok _) => audits s' = audits s ++ [e] ∧ (audit_fits s' = true → validate_audits s' = Ok tt)
  | (s', Err _) => s' = s
  end.
Proof.
  intros Hv. destruct (append_audit e s) as [s' [[]|err]] eqn:Ha.
  - split; [|by eapply append_audit_valid]. by apply append_audit_Ok in Ha as (p & _ & ->).
  - rewrite append_audit_cases in Ha. by destruct (audit_append_totals _ _ _); simplify_eq.
Qed.

Lemma append_audit_keeps_history_witness :
  match append_audit Sample.event Sample.state with
  | (s', Ok _) => audits s' = audits Sample.state ++ [Sample.event] ∧
                  (audit_fits s' = true → validate_audits s' = Ok tt)
  | (s', Err _) => s' = Sample.state
  end.
Proof.
  apply (append_audit_keeps_history Sample.event Sample.state). vm_compute. reflexivity.
Defined.

(** A read-audit batch is one atomic release: it is accepted exactly when
    every event is individually valid and could be appended after the ones
    before it; then the state is the one appending them one by one produces;
    otherwise the state is unchanged, so no prefix of a refused batch is ever
    published. *)
Theorem audit_batch_all_or_nothing validate events s :
  match append_audit_batch validate events s with
  | (s', Ok _) =>
      (∀ e, e ∈ events → validate e = Ok tt) ∧
      st_fold (λ _ e, append_audit e) tt events s = (s', Ok tt)
  | (s', Err _) =>
      s' = s ∧ ¬ ((∀ e, e ∈ events → validate e = Ok tt) ∧
                  ∃ s'', st_fold (λ _ e, append_audit e) tt events s = (s'', Ok tt))
  end.
Proof.
  unfold append_audit_batch, audit_batch_totals. fold (audit_position s).
  destruct (try_fold _ _ _) as [[next hot]|err] eqn:Ht.
  - split; [by eapply audit_batch_valid|]. by eapply (append_audits_fold _ _ _ (next, hot)).
  - split; [done|]. intros [Hval (s'' & Hf)].
    eapply append_audits_totals in Hf as [p Hp]; [|done]. congruence.
Qed.
