(* ===== verification/Apply.v ===== *)
(** * Document mutations

    Models ordered application of document mutations
    (src/crates/kasumi-engine/src/state.rs: [validate_read_assertions],
    [validate_merge_patch_expansion], [apply_mutations], [apply_batch],
    [document_path], [batch_changes]) and the document part of the check a
    restored snapshot must pass.

    The query component is an interface here: [QueryRules] has what
    [QueryIndexes] offers to application (the compiled schema of a collection
    and its verdict on a document) and the allocation quote of a clone. *)

From S2P Require Import Prelude Json Types Digest State.

(** [SourceResult]: a failure of a document source, or a deterministic
    rejection. *)
Inductive ReadFailure :=
| FSource (e : string)
| FQuery (e : Error).

Abbreviation SourceResult := (result ReadFailure).

Definition query {A} (r : Result A) : SourceResult A := map_err FQuery r.
Definition source {A} (r : result string A) : SourceResult A := map_err FSource r.
Definition deny {A} (c : ErrorCode) (m : string) : SourceResult A := Err (FQuery (new_error c m)).

Class QueryRules := {
  Validator : Type;
  schema_validator : CollectionDefinition → Result Validator;
  validate_document : Validator → CollectionDefinition → value → Result unit;
  document_clone_bytes : Document → Result N;
}.

Abbreviation Resolver := (option (StoredDocument → result string Document)).

(** ** Read assertions *)

(** The identity of an assertion, for duplicate detection. *)
Definition assertion_identity (a : ReadAssertion) : N * (string * string) :=
  match a with
  | Snapshot _ _ _ => (0, ("", ""))
  | ADocument c id _ => (1, (c, id))
  | ACollection c _ => (2, (c, ""))
  | Before _ => (3, ("", ""))
  | NotBefore _ => (4, ("", ""))
  end.

(** The version a document is read at: resident first, then archived. *)
Definition read_version (c : CollectionState) (id : string) : option N :=
  match slot_version <$> documents c !! id with
  | Some v => Some v
  | None => a_version <$> archived_documents c !! id
  end.

(** One arm of the match in [validate_read_assertions]. *)
Definition check_assertion (s : TenantState) (evaluated_at_ms : N) (a : ReadAssertion) :
    Result unit :=
  match a with
  | Before not_after_ms =>
      if not_after_ms <? evaluated_at_ms
      then fail Conflict "transaction authorization deadline expired" else Ok tt
  | NotBefore not_before_ms =>
      if evaluated_at_ms <? not_before_ms
      then fail Conflict "transaction admission time precedes required bound" else Ok tt
  | Snapshot i p e =>
      validate_name i;;
      if negb (bool_decide (i = incarnation s)) || negb (p =? policy_epoch s) ||
         negb (e =? schema_epoch s)
      then fail Conflict "snapshot identity or authority changed" else Ok tt
  | ADocument c id e =>
      validate_name c;;
      validate_name id;;
      cs ← ok_or (collections s !! c) (new_error NotFound "read collection not found");
      let matches := match e with
                     | RAbsent => bool_decide (read_version cs id = None)
                     | RVersion v => bool_decide (read_version cs id = Some v)
                     end in
      if negb matches then fail Conflict "read document precondition failed" else Ok tt
  | ACollection c e =>
      validate_name c;;
      cs ← ok_or (collections s !! c) (new_error NotFound "read collection not found");
      if negb (data_epoch cs =? e) then fail Conflict "read collection changed" else Ok tt
  end.

(** One iteration of the loop. *)
Definition assertion_step (s : TenantState) (evaluated_at_ms : N)
    (identities : gset (N * (string * string))) (a : ReadAssertion) :
    Result (gset (N * (string * string))) :=
  check_assertion s evaluated_at_ms a;;
  if bool_decide (assertion_identity a ∈ identities)
  then fail InvalidArgument "duplicate read assertion"
  else Ok ({[assertion_identity a]} ∪ identities).

(** [validate_read_assertions]. *)
Definition validate_read_assertions (s : TenantState) (assertions : list ReadAssertion)
    (evaluated_at_ms max_assertions : N) : Result unit :=
  if max_assertions <? len assertions
  then fail ResourceExhausted "read assertion limit exceeded"
  else
    try_fold (assertion_step s evaluated_at_ms) ∅ assertions;;
    Ok tt.

(** [SnapshotReadResponse], with the query results as JSON, and the read set
    that fences a later batch on it. *)
Record DocumentKey := { k_collection : string; k_id : string }.
Record SnapshotDocument := { key : DocumentKey; document : option Document }.
Record SnapshotReadResponse := {
  sr_revision : N;
  sr_incarnation : string;
  sr_policy_epoch : N;
  sr_schema_epoch : N;
  collection_epochs : gmap string N;
  trusted_leader_time_ms : option N;
  sr_documents : list SnapshotDocument;
  queries : list value;
}.

Definition row_assertion (row : SnapshotDocument) : ReadAssertion :=
  ADocument (k_collection (key row)) (k_id (key row))
    match document row with None => RAbsent | Some d => RVersion (d_version d) end.

Definition read_assertions (r : SnapshotReadResponse) : list ReadAssertion :=
  Snapshot (sr_incarnation r) (sr_policy_epoch r) (sr_schema_epoch r) ::
  (row_assertion <$> sr_documents r) ++
  ((λ kv, ACollection kv.1 kv.2) <$> map_iter (collection_epochs r)).

(** ** Document paths *)

(** [document_path]: JSON-pointer escaping of both segments. *)
Definition escape_segment_char (c : ascii) : string :=
  if bool_decide (c = "~"%char) then "~0"
  else if bool_decide (c = "/"%char) then "~1"
  else String c "".

Fixpoint escape_segment (s : string) : string :=
  match s with
  | "" => ""
  | String c s' => escape_segment_char c +:+ escape_segment s'
  end.

Definition document_path (collection id : string) : string :=
  "/" +:+ escape_segment collection +:+ "/" +:+ escape_segment id.

(** ** Changed documents *)

(** [batch_changes]. *)
Definition add_change (changed : gmap string (gset string)) (m : Mutation) :
    gmap string (gset string) :=
  let '(c, id) := target m in
  <[c := {[id]} ∪ default ∅ (changed !! c)]> changed.

Definition batch_changes (b : MutationBatch) : gmap string (gset string) :=
  foldl add_change ∅ (operations b).

(** ** Applying mutations *)

(** [merge_patch_workspace]. *)
Definition merge_patch_workspace (patch_count expansion_limit : N) : N :=
  saturating_mul (N.min (saturating_mul patch_count (N.shiftl 1 20)) expansion_limit) 3.

Definition is_patch (m : Mutation) : bool := match m with Patch _ _ _ _ => true | _ => false end.

(** The document stored under a collection and an identity. *)
Definition find_document (s : TenantState) (t : string * string) : option DocumentSlot :=
  collections s !! t.1 ≫= λ c, documents c !! t.2.

Section apply.
Context `{Sha256} `{QueryRules}.

(** One iteration of [validate_merge_patch_expansion]: the encoded and the
    cloned bytes so far. *)
Definition expansion_step (s : TenantState) (limit workspace : N) (resolver : Resolver)
    (acc : N * N) (m : Mutation) : SourceResult (N * N) :=
  match m with
  | Patch c id _ _ =>
      match find_document s (c, id) with
      | None => Ok acc
      | Some slot =>
          document ← source (loan_document resolver slot);
          n ← query (encoded_len (body document));
          encoded ← ok_or (checked_add acc.1 n ≫= λ b, if b <=? limit then Some b else None)
            (FQuery (new_error ResourceExhausted "merge patch source documents exceed byte limit"));
          k ← query (document_clone_bytes document);
          cloned ← ok_or (checked_add acc.2 k ≫= λ b, if b <=? workspace then Some b else None)
            (FQuery (new_error ResourceExhausted
               "merge patch source documents exceed workspace limit"));
          Ok (encoded, cloned)
      end
  | _ => Ok acc
  end.

(** [validate_merge_patch_expansion]. *)
Definition validate_merge_patch_expansion (s : TenantState) (ops : list Mutation)
    (limit : N) (resolver : Resolver) : SourceResult unit :=
  let patch_count := len (filter (λ m, is_patch m = true) ops) in
  try_fold (expansion_step s limit (merge_patch_workspace patch_count limit) resolver) (0, 0) ops;;
  Ok tt.

(** The local variables of the loop of [apply_mutations]. *)
Record Progress := {
  targets : gset (string * string);
  pr_versions : gmap string N;
  validators : gmap string Validator;
}.

Definition empty_progress : Progress :=
  {| targets := ∅; pr_versions := ∅; validators := ∅ |}.

Definition is_create (m : Mutation) : bool :=
  match m with Put _ _ _ PAbsent => true | _ => false end.

(** The match on [mutation.expected()]. *)
Definition precondition_holds (e : Precondition) (old : option DocumentSlot) : bool :=
  match e, old with
  | PAny, _ => true
  | PAbsent, None => true
  | PVersion v, Some d => slot_version d =? v
  | _, _ => false
  end.

(** The checks on the target, up to and including the precondition: the
    collection and the current document. *)
Definition check_target (s : TenantState) (pr : Progress) (m : Mutation) :
    SourceResult (CollectionState * option DocumentSlot) :=
  let '(name, id) := target m in
  query (validate_name id);;
  reject_if (bool_decide ((name, id) ∈ targets pr))
    (FQuery (new_error InvalidArgument "duplicate batch target"));;
  c ← ok_or (collections s !! name) (FQuery (new_error NotFound "collection not found"));
  reject_if (bool_decide (is_Some (archived_documents c !! id)))
    (FQuery (new_error Conflict "archived immutable identity cannot be overwritten or deleted"));;
  let old := documents c !! id in
  reject_if (bool_decide (write_mode (definition c) = AppendOnly) && negb (is_create m))
    (FQuery (new_error Forbidden "append-only collections accept absent creates only"));;
  reject_if (negb (precondition_holds (expected m) old))
    (FQuery (new_error Conflict "document precondition failed"));;
  Ok (c, old).

Definition old_body_bytes (old : option DocumentSlot) : SourceResult N :=
  match old with None => Ok 0 | Some d => source (slot_body_bytes d) end.

(** The body a mutation leaves, or [None] for a deletion. *)
Definition replacement (resolver : Resolver) (m : Mutation) (old : option DocumentSlot) :
    SourceResult (option value) :=
  match m with
  | Put _ _ b _ => Ok (Some b)
  | Patch _ _ patch _ =>
      slot ← ok_or old (FQuery (new_error NotFound
        "patch requires an existing document; use put to create it"));
      document ← source (loan_document resolver slot);
      match apply_merge_patch patch (body document) with
      | (merged_body, Ok _) => Ok (Some merged_body)
      | (_, Err e) => deny InvalidArgument e
      end
  | Delete _ _ _ => Ok None
  end.

(** The compiled schema of the collection, resolved once per batch. *)
Definition batch_validator (pr : Progress) (name : string) (c : CollectionState) :
    Result (Validator * gmap string Validator) :=
  match validators pr !! name with
  | Some v => Ok (v, validators pr)
  | None =>
      v ← schema_validator (definition c);
      Ok (v, <[name := v]> (validators pr))
  end.

Definition record_version (include_versions : bool) (name id : string) (revision : N)
    (versions : gmap string N) : gmap string N :=
  if include_versions then <[document_path name id := revision]> versions else versions.

(** The arm that stores a body. *)
Definition store_body (name id : string) (revision : N) (include_versions : bool)
    (c : CollectionState) (old : option DocumentSlot) (old_bytes : N) (pr : Progress)
    (b : value) : ST TenantState ReadFailure Progress :=
  s ← st_get;
  bytes ← st_lift (query (encoded_len b));
  st_lift (reject_if (max_document_bytes (limits s) <? bytes)
    (FQuery (new_error ResourceExhausted "document exceeds byte limit")));;
  vs ← st_lift (query (batch_validator pr name c));
  st_lift (query (validate_document vs.1 (definition c) b));;
  st_modify (λ s, match old with
                  | None => set_document_count (document_count s + 1) s
                  | Some _ => s
                  end);;
  total ← st_lift (ok_or (checked_sub (logical_bytes s) old_bytes ≫= λ n, checked_add n bytes)
    (FQuery (new_error QuotaExceeded "logical size overflow")));
  st_modify (set_logical_bytes total);;
  let document := {| d_id := id; d_version := revision; body := b |} in
  let c' := set_data_epoch revision (set_documents (<[id := Pending document]> (documents c)) c) in
  st_modify (λ s, set_collections (<[name := c']> (collections s)) s);;
  mret {| targets := {[(name, id)]} ∪ targets pr;
          pr_versions := record_version include_versions name id revision (pr_versions pr);
          validators := vs.2 |}.

(** The arm that deletes.  The counters are decreased without a check: a stored
    document is counted, and its bytes are, in every state the snapshot check
    accepts, so the subtractions are exact. *)
Definition delete_document (name id : string) (revision : N) (include_versions : bool)
    (c : CollectionState) (old : option DocumentSlot) (old_bytes : N) (pr : Progress) :
    ST TenantState ReadFailure Progress :=
  st_modify (λ s,
    match old with
    | Some _ =>
        let c' := set_data_epoch revision (set_documents (delete id (documents c)) c) in
        set_collections (<[name := c']> (collections s))
          (set_logical_bytes (logical_bytes s - old_bytes)
             (set_document_count (document_count s - 1) s))
    | None => s
    end);;
  mret {| targets := {[(name, id)]} ∪ targets pr;
          pr_versions := record_version include_versions name id revision (pr_versions pr);
          validators := validators pr |}.

(** One iteration of the loop of [apply_mutations]. *)
Definition apply_mutation (revision : N) (include_versions : bool) (resolver : Resolver)
    (pr : Progress) (m : Mutation) : ST TenantState ReadFailure Progress :=
  s ← st_get;
  co ← st_lift (check_target s pr m);
  old_bytes ← st_lift (old_body_bytes co.2);
  r ← st_lift (replacement resolver m co.2);
  let '(name, id) := target m in
  match r with
  | Some b => store_body name id revision include_versions co.1 co.2 old_bytes pr b
  | None => delete_document name id revision include_versions co.1 co.2 old_bytes pr
  end.

(** [apply_mutations]. *)
Definition apply_mutations (ops : list Mutation) (revision : N) (include_versions : bool)
    (patch_expansion_limit : N) (resolver : Resolver) : ST TenantState ReadFailure WriteReceipt :=
  s ← st_get;
  st_lift (validate_merge_patch_expansion s ops patch_expansion_limit resolver);;
  pr ← st_fold (apply_mutation revision include_versions resolver) empty_progress ops;
  s' ← st_get;
  st_lift (reject_if ((max_documents (limits s') <? document_count s') ||
                      (max_logical_bytes (limits s') <? logical_bytes s'))
    (FQuery (new_error QuotaExceeded "tenant logical quota exceeded")));;
  mret {| wr_revision := revision; versions := pr_versions pr |}.

(** [apply_batch]. *)
Definition apply_batch (b : MutationBatch) (revision evaluated_at_ms : N) (resolver : Resolver) :
    ST TenantState ReadFailure WriteReceipt :=
  s ← st_get;
  st_lift (if max_batch_operations (limits s) <? len (operations b)
           then deny ResourceExhausted "mutation batch exceeds limits"
           else
             n ← query (encoded_len b);
             if max_batch_bytes (limits s) <? n
             then deny ResourceExhausted "mutation batch exceeds limits" else Ok tt);;
  st_lift (query (validate_read_assertions s (read_set b) evaluated_at_ms 512));;
  apply_mutations (operations b) revision true (max_batch_bytes (limits s)) resolver.

(** ** The document part of the snapshot check *)

(** The inner loop over the documents of a collection. *)
Definition check_document (max_bytes epoch : N) (acc : N * N) (kv : string * DocumentSlot) :
    SourceResult (N * N) :=
  query (validate_name kv.1);;
  reject_if (negb (bool_decide (kv.1 = slot_id kv.2)) || (epoch <? slot_version kv.2))
    (FQuery (new_error Corruption "invalid document identity/version"));;
  count ← ok_or (checked_add acc.1 1) (FQuery (new_error Corruption "document count overflow"));
  n ← source (slot_body_bytes kv.2);
  reject_if (max_bytes <? n) (FQuery (new_error Corruption "snapshot document exceeds byte quota"));;
  bytes ← ok_or (checked_add acc.2 n)
    (FQuery (new_error Corruption "document byte count overflow"));
  Ok (count, bytes).

(** The outer loop over the collections. *)
Definition check_collection (s : TenantState) (acc : N * N) (kv : string * CollectionState) :
    SourceResult (N * N) :=
  count ← ok_or (checked_add acc.1 (N.of_nat (size (archived_documents kv.2))))
    (FQuery (new_error Corruption "archived document count overflow"));
  reject_if (revision s <? data_epoch kv.2)
    (FQuery (new_error Corruption "invalid snapshot data/schema epoch"));;
  reject_if (negb (bool_decide (kv.1 = cd_name (definition kv.2))))
    (FQuery (new_error Corruption "snapshot collection identity mismatch"));;
  try_fold (check_document (max_document_bytes (limits s)) (data_epoch kv.2))
    (count, acc.2) (map_iter (documents kv.2)).

Definition validate_documents (s : TenantState) : SourceResult unit :=
  acc ← try_fold (check_collection s) (0, 0) (map_iter (collections s));
  reject_if (negb (acc.1 =? document_count s) || negb (acc.2 =? logical_bytes s) ||
             (max_documents (limits s) <? acc.1) || (max_logical_bytes (limits s) <? acc.2) ||
             (max_mutation_receipt_bytes (limits s) <? mr_encoded_bytes (mutation_receipt_head s)) ||
             (max_backup_binding_bytes (limits s) <? bb_encoded_bytes (backup_binding_head s)))
    (FQuery (new_error Corruption "snapshot logical accounting mismatch")).
End apply.

(** ** A sample batch *)

Module ApplySample.
#[export] Instance sha : Sha256 := Sample.sha.
#[export] Instance rules : QueryRules :=
  {| Validator := unit; schema_validator _ := Ok tt; validate_document _ _ _ := Ok tt;
     document_clone_bytes _ := Ok 64 |}.

Definition definition (name : string) (mode : CollectionWriteMode) : CollectionDefinition :=
  {| cd_name := name; write_mode := mode; retention_class := Operational; schema := VObject [];
     cd_indexes := []; cd_strict_read_audit := false |}.

Definition slot (id : string) (n : string) : DocumentSlot :=
  Pending {| d_id := id; d_version := 3; body := VObject [("n", VNumber n)] |}.

Definition collection (name : string) (mode : CollectionWriteMode) : CollectionState :=
  {| Types.definition := definition name mode; data_epoch := 3;
     documents := {["a" := slot "a" "1"]}; archived_documents := ∅;
     archived_document_bytes := 0 |}.

(** The genesis tenant with two collections of one document each. *)
Definition state : TenantState :=
  set_revision 4 (set_document_count 2 (set_logical_bytes 14
    (set_collections {["docs" := collection "docs" Mutable; "log" := collection "log" AppendOnly]}
       Sample.state))).

Definition ops : list Mutation :=
  [Patch "docs" "a" (VObject [("n", VNumber "22")]) (PVersion 3);
   Put "log" "b" (VObject []) PAbsent].

Definition outcome : TenantState * SourceResult WriteReceipt :=
  Eval vm_compute in apply_mutations ops 5 true 1000 None state.

Definition response : SnapshotReadResponse :=
  {| sr_revision := 4; sr_incarnation := incarnation Sample.state; sr_policy_epoch := policy_epoch Sample.state;
     sr_schema_epoch := schema_epoch Sample.state; collection_epochs := ∅;
     trusted_leader_time_ms := None;
     sr_documents := [{| key := {| k_collection := "log"; k_id := "a" |};
       document := Some {| d_id := "a"; d_version := 3; body := VObject [("n", VNumber "1")] |} |};
       {| key := {| k_collection := "docs"; k_id := "z" |}; document := None |}];
     queries := [] |}.
End ApplySample.

(** ** Lemmas *)

Lemma query_Ok {A} (r : Result A) a : query r = Ok a ↔ r = Ok a.
Proof. apply map_err_Ok. Qed.

Lemma source_Ok {A} (r : result string A) a : source r = Ok a ↔ r = Ok a.
Proof. apply map_err_Ok. Qed.

Section lemmas.
Context `{Sha256} `{QueryRules}.

(** *** The snapshot check, as a proposition *)

Definition slot_weight (d : DocumentSlot) : N :=
  match slot_body_bytes d with Ok n => n | Err _ => 0 end.

Definition document_ok (max_bytes epoch : N) (id : string) (d : DocumentSlot) : Prop :=
  validate_name id = Ok tt ∧ id = slot_id d ∧ slot_version d ≤ epoch ∧
  ∃ n, slot_body_bytes d = Ok n ∧ n ≤ max_bytes.

Definition collection_count (c : CollectionState) : N :=
  N.of_nat (size (archived_documents c)) + N.of_nat (size (documents c)).
Definition collection_bytes (c : CollectionState) : N := msum slot_weight (documents c).

Definition collection_ok (max_bytes rev : N) (name : string) (c : CollectionState) : Prop :=
  data_epoch c ≤ rev ∧ name = cd_name (definition c) ∧
  ∀ id d, documents c !! id = Some d → document_ok max_bytes (data_epoch c) id d.

(** The collections are well formed at a revision and the totals are exact. *)
Definition accounted (rev : N) (s : TenantState) : Prop :=
  (∀ name c, collections s !! name = Some c →
     collection_ok (max_document_bytes (limits s)) rev name c) ∧
  document_count s = msum collection_count (collections s) ∧
  logical_bytes s = msum collection_bytes (collections s).

Lemma slot_weight_Ok d n : slot_body_bytes d = Ok n → slot_weight d = n.
Proof. unfold slot_weight. by intros ->. Qed.

Lemma check_document_Ok max_bytes epoch a b id d r :
  check_document max_bytes epoch (a, b) (id, d) = Ok r ↔
  document_ok max_bytes epoch id d ∧ r = (a + 1, b + slot_weight d) ∧
  a + 1 ≤ u64_max ∧ b + slot_weight d ≤ u64_max.
Proof.
  unfold check_document, document_ok. cbn [fst snd]. rewrite !seq_Ok, query_Ok, reject_if_Ok.
  split.
  - intros (Hn & Hg & Hr). inv_ok.
    select (source _ = Ok _) (fun H => apply source_Ok in H; rename H into Hb).
    rewrite (slot_weight_Ok _ _ Hb). inv_guards. naive_solver.
  - intros ((Hn & Hid & Hv & n & Hb & Hle) & -> & Ha & Hw). rewrite (slot_weight_Ok _ _ Hb) in *.
    split; [done|]. split.
    { rewrite bool_decide_true by done. by apply N.ltb_ge. }
    apply bind_Ok. exists (a + 1). split; [by apply ok_or_Ok, checked_add_Some|].
    apply bind_Ok. exists n. split; [by apply source_Ok|].
    rewrite reject_if_pass by by apply N.ltb_ge.
    apply bind_Ok. exists (b + n). split; [by apply ok_or_Ok, checked_add_Some|done].
Qed.

Lemma lsum_ones {A} (l : list A) : lsum (λ _, 1) l = len l.
Proof. induction l as [|x l IH]; [done|]. rewrite lsum_cons, len_cons, IH. done. Qed.

Lemma map_iter_len {K V} `{OrdKey K} (m : gmap K V) : len (map_iter m) = N.of_nat (size m).
Proof. unfold len. by rewrite map_iter_perm, length_map_to_list. Qed.

Lemma map_iter_Forall {K V} `{OrdKey K} (P : K → V → Prop) (m : gmap K V) :
  Forall (λ kv, P kv.1 kv.2) (map_iter m) ↔ ∀ k v, m !! k = Some v → P k v.
Proof.
  rewrite Forall_forall. split.
  - intros Hall k v Hk. by apply (Hall (k, v)), elem_of_map_iter.
  - intros Hall [k v] Hin. by apply Hall, elem_of_map_iter.
Qed.

Lemma check_collection_Ok s a b name c r :
  a ≤ u64_max → b ≤ u64_max →
  check_collection s (a, b) (name, c) = Ok r ↔
  collection_ok (max_document_bytes (limits s)) (revision s) name c ∧
  r = (a + collection_count c, b + collection_bytes c) ∧
  a + collection_count c ≤ u64_max ∧ b + collection_bytes c ≤ u64_max.
Proof.
  intros Ha Hb. unfold check_collection, collection_ok. cbn [fst snd].
  assert (Hin : ∀ a0, a0 ≤ u64_max →
    try_fold (check_document (max_document_bytes (limits s)) (data_epoch c)) (a0, b)
      (map_iter (documents c)) = Ok r ↔
    (∀ id d, documents c !! id = Some d →
       document_ok (max_document_bytes (limits s)) (data_epoch c) id d) ∧
    r = (a0 + N.of_nat (size (documents c)), b + collection_bytes c) ∧
    a0 + N.of_nat (size (documents c)) ≤ u64_max ∧ b + collection_bytes c ≤ u64_max).
  { intros a0 Ha0. rewrite (try_fold_sums _
      (λ kv, document_ok (max_document_bytes (limits s)) (data_epoch c) kv.1 kv.2)
      (λ _, 1) (λ kv, slot_weight kv.2) u64_max); [|intros [id d] ? ? ? _ _ _; apply check_document_Ok|done|done].
    rewrite map_iter_Forall, lsum_ones, map_iter_len, msum_iter. done. }
  unfold collection_count. rewrite bind_Ok. split.
  - intros (a0 & Ha0 & Hr). rewrite !seq_Ok, !reject_if_Ok in Hr. destruct Hr as (He & Hn & Hf).
    apply ok_or_Ok, checked_add_Some in Ha0 as [-> Hle]. inv_guards.
    apply Hin in Hf as (? & -> & ? & ?); [|done]. rewrite N.add_assoc. by split_and!.
  - intros ((He & Hn & Hall) & -> & Hc & Hbb). rewrite N.add_assoc in *.
    eexists. split; [apply ok_or_Ok, checked_add_Some; split; [reflexivity|lia]|].
    rewrite !seq_Ok, !reject_if_Ok, N.ltb_ge, negb_false_iff, bool_decide_eq_true.
    split; [done|]. split; [done|]. apply Hin; [lia|]. by split_and!.
Qed.

Lemma validate_documents_Ok s :
  validate_documents s = Ok tt ↔
  accounted (revision s) s ∧ document_count s ≤ u64_max ∧ logical_bytes s ≤ u64_max ∧
  document_count s ≤ max_documents (limits s) ∧ logical_bytes s ≤ max_logical_bytes (limits s) ∧
  mr_encoded_bytes (mutation_receipt_head s) ≤ max_mutation_receipt_bytes (limits s) ∧
  bb_encoded_bytes (backup_binding_head s) ≤ max_backup_binding_bytes (limits s).
Proof.
  unfold validate_documents, accounted.
  assert (Hf : ∀ acc, try_fold (check_collection s) (0, 0) (map_iter (collections s)) = Ok acc ↔
    (∀ name c, collections s !! name = Some c →
       collection_ok (max_document_bytes (limits s)) (revision s) name c) ∧
    acc = (msum collection_count (collections s), msum collection_bytes (collections s)) ∧
    msum collection_count (collections s) ≤ u64_max ∧
    msum collection_bytes (collections s) ≤ u64_max).
  { intros acc. rewrite (try_fold_sums _
      (λ kv, collection_ok (max_document_bytes (limits s)) (revision s) kv.1 kv.2)
      (λ kv, collection_count kv.2) (λ kv, collection_bytes kv.2) u64_max);
      [|intros [name c] a b r _; apply check_collection_Ok|cbn; unfold u64_max; lia..].
    by rewrite map_iter_Forall, !msum_iter. }
  rewrite bind_Ok. split.
  - intros (acc & Hacc & Hg). apply Hf in Hacc as (Hall & -> & Hc & Hb).
    apply reject_if_Ok in Hg. cbn [fst snd] in Hg. inv_guards. split_and!; done || lia.
  - intros ((Hall & Hc & Hb) & Hcm & Hbm & Hd & Hl & Hm & Hbb).
    exists (msum collection_count (collections s), msum collection_bytes (collections s)). split.
    + apply Hf. split_and!; done || lia.
    + apply reject_if_Ok. cbn [fst snd].
      rewrite !orb_false_iff, !negb_false_iff, !N.eqb_eq, !N.ltb_ge. lia.
Qed.

(** *** One mutation *)

(** The state after storing a body, and after a deletion. *)
Definition stored_state (s : TenantState) (name id : string) (rev : N) (c : CollectionState)
    (old_bytes bytes : N) (b : value) : TenantState :=
  let document := {| d_id := id; d_version := rev; body := b |} in
  let s1 := match documents c !! id with
            | None => set_document_count (document_count s + 1) s
            | Some _ => s
            end in
  set_collections (<[name := set_data_epoch rev
      (set_documents (<[id := Pending document]> (documents c)) c)]> (collections s))
    (set_logical_bytes (logical_bytes s - old_bytes + bytes) s1).

Definition deleted_state (s : TenantState) (name id : string) (rev : N) (c : CollectionState)
    (old_bytes : N) : TenantState :=
  match documents c !! id with
  | Some _ => set_collections (<[name := set_data_epoch rev
      (set_documents (delete id (documents c)) c)]> (collections s))
      (set_logical_bytes (logical_bytes s - old_bytes)
         (set_document_count (document_count s - 1) s))
  | None => s
  end.

(** What a successful check of the target established. *)
Definition target_ok (s : TenantState) (pr : Progress) (m : Mutation) (c : CollectionState) : Prop :=
  let '(name, id) := target m in
  validate_name id = Ok tt ∧ ¬ (name, id) ∈ targets pr ∧ collections s !! name = Some c ∧
  archived_documents c !! id = None ∧
  (write_mode (definition c) = AppendOnly → is_create m = true) ∧
  precondition_holds (expected m) (documents c !! id) = true.

Lemma check_target_Ok s pr m c old :
  check_target s pr m = Ok (c, old) ↔ target_ok s pr m c ∧ old = documents c !! (target m).2.
Proof.
  unfold check_target, target_ok. destruct (target m) as [name id]. cbn [snd].
  rewrite !seq_Ok, query_Ok, reject_if_Ok, bind_Ok, bool_decide_eq_false. split.
  - intros (Hn & Ht & c' & Hc & Hr). apply ok_or_Ok in Hc.
    rewrite !seq_Ok, !reject_if_Ok, bool_decide_eq_false, negb_false_iff in Hr.
    destruct Hr as (Ha & Hm & Hp & Hr). injection Hr as -> <-.
    split; [|done]. split_and!; try done.
    + by apply eq_None_not_Some.
    + intros Hw. rewrite bool_decide_true in Hm by done. by destruct (is_create m).
  - intros ((Hn & Ht & Hc & Ha & Hm & Hp) & ->). split_and!; try done.
    exists c. split; [by apply ok_or_Ok|].
    rewrite !seq_Ok, !reject_if_Ok, bool_decide_eq_false, negb_false_iff. split_and!; try done.
    + by apply eq_None_not_Some.
    + case_bool_decide; [by rewrite Hm|done].
Qed.

Definition progressed (pr pr' : Progress) (m : Mutation) (rev : N) (iv : bool) : Prop :=
  targets pr' = {[target m]} ∪ targets pr ∧
  pr_versions pr' = record_version iv (target m).1 (target m).2 rev (pr_versions pr).

Lemma store_body_Ok name id rev iv c old ob pr b s s' pr' :
  old = documents c !! id →
  store_body name id rev iv c old ob pr b s = (s', Ok pr') →
  ∃ bytes, encoded_len b = Ok bytes ∧ bytes ≤ max_document_bytes (limits s) ∧
    ob ≤ logical_bytes s ∧ s' = stored_state s name id rev c ob bytes b ∧
    targets pr' = {[(name, id)]} ∪ targets pr ∧
    pr_versions pr' = record_version iv name id rev (pr_versions pr).
Proof.
  intros Hold Hs. unfold store_body in Hs. inv_st.
  repeat match goal with
  | H : query _ = Ok _ |- _ => apply query_Ok in H
  | H : reject_if _ _ = Ok _ |- _ => apply reject_if_Ok in H
  | H : ok_or _ _ = Ok _ |- _ => apply ok_or_Ok in H
  end.
  select (checked_sub _ _ ≫= _ = Some _) (fun H => apply bind_Some in H as (n & H1 & H2)).
  apply checked_sub_Some in H1 as [-> Hle]. apply checked_add_Some in H2 as [-> _]. inv_guards.
  eexists. split; [eassumption|]. split; [done|]. split; [done|]. split; [|done].
  unfold stored_state. by destruct (documents c !! id).
Qed.

(** A mutation that is applied: what held before, what it leaves, and what it
    records. *)
Lemma apply_mutation_Ok rev iv resolver pr m s s' pr' :
  apply_mutation rev iv resolver pr m s = (s', Ok pr') →
  ∃ c old_bytes r, target_ok s pr m c ∧ progressed pr pr' m rev iv ∧
    old_body_bytes (documents c !! (target m).2) = Ok old_bytes ∧
    replacement resolver m (documents c !! (target m).2) = Ok r ∧
    match r with
    | Some b => ∃ bytes, encoded_len b = Ok bytes ∧ bytes ≤ max_document_bytes (limits s) ∧
        old_bytes ≤ logical_bytes s ∧
        s' = stored_state s (target m).1 (target m).2 rev c old_bytes bytes b
    | None => s' = deleted_state s (target m).1 (target m).2 rev c old_bytes
    end.
Proof.
  intros Hm. unfold apply_mutation in Hm. inv_st.
  select (CollectionState * _)%type (fun x => destruct x as [c old]). cbn [fst snd] in *.
  select (check_target _ _ _ = _) (fun H => apply check_target_Ok in H as [Hok ->]).
  select (old_body_bytes _ = Ok _) (fun H => rename H into Hob).
  select (replacement _ _ _ = Ok _) (fun H => rename H into Hrep).
  match type of Hob with _ = Ok ?n => exists c, n end.
  match type of Hrep with _ = Ok ?r => exists r end.
  unfold progressed. destruct (target m) as [name id]. cbn [fst snd] in *.
  split; [done|]. case_match.
  - apply store_body_Ok in Hm as (bytes & Hb & Hle & Hlb & -> & Ht & Hv); [|done].
    split_and!; try done. by exists bytes.
  - unfold delete_document in Hm. inv_st. done.
Qed.

(** *** Accounting *)

Lemma pending_body_bytes id v b n :
  encoded_len b = Ok n →
  slot_body_bytes (Pending {| d_id := id; d_version := v; body := b |}) = Ok n.
Proof.
  unfold encoded_len. case_match eqn:Hle; [|done]. intros Hn. injection Hn as Hn.
  unfold slot_body_bytes, fmap, result_fmap. cbn [body].
  assert (Hf : fingerprint (canonical b) = Ok (n, sha256_hex (to_json (canonical b)))).
  { apply fingerprint_Ok. apply N.leb_le in Hle.
    assert (Hlen : str_len (to_json (canonical b)) = str_len (to_json b)) by apply canonical_len.
    rewrite Hlen. split_and!; lia || done. }
  by rewrite Hf.
Qed.

Lemma old_body_bytes_weight old n :
  old_body_bytes old = Ok n → n = from_option slot_weight 0 old.
Proof.
  destruct old as [d|]; simpl; [|by intros [=]]. intros Hs. apply source_Ok in Hs.
  symmetry. by apply slot_weight_Ok.
Qed.

(** Replacing one collection changes the totals by its own. *)
Lemma replace_collection_accounted rev s name c c' count bytes s' :
  accounted rev s → collections s !! name = Some c →
  collection_ok (max_document_bytes (limits s)) rev name c' →
  collections s' = <[name := c']> (collections s) → limits s' = limits s →
  document_count s' = count → logical_bytes s' = bytes →
  count + collection_count c = document_count s + collection_count c' →
  bytes + collection_bytes c = logical_bytes s + collection_bytes c' →
  accounted rev s'.
Proof.
  intros (Hall & Hc & Hb) Hname Hok Hcs Hl Hcount Hbytes Hdc Hdb.
  pose proof (msum_insert_old collection_count _ _ c' _ Hname) as Hi1.
  pose proof (msum_insert_old collection_bytes _ _ c' _ Hname) as Hi2.
  unfold accounted. rewrite Hcs, Hl, Hcount, Hbytes. split_and!; [|lia..].
  intros n x Hx. destruct (decide (n = name)) as [->|Hne].
  - rewrite lookup_insert_eq in Hx. by injection Hx as <-.
  - rewrite lookup_insert_ne in Hx by done. by apply Hall.
Qed.

(** The other documents of a changed collection stay well formed. *)
Lemma changed_collection_ok max_bytes rev name c docs :
  collection_ok max_bytes rev name c →
  (∀ id d, docs !! id = Some d →
     documents c !! id = Some d ∨ document_ok max_bytes rev id d) →
  collection_ok max_bytes rev name (set_data_epoch rev (set_documents docs c)).
Proof.
  intros (He & Hn & Hall) Hdocs. split; [done|]. split; [done|]. intros id d Hd.
  apply Hdocs in Hd as [Hd|Hd]; [|done].
  destruct (Hall _ _ Hd) as (? & ? & ? & ?). split_and!; try done. simpl. lia.
Qed.

Lemma stored_state_fields s name id rev c ob bytes b :
  let s' := stored_state s name id rev c ob bytes b in
  limits s' = limits s ∧
  document_count s' = document_count s +
    match documents c !! id with None => 1 | Some _ => 0 end ∧
  logical_bytes s' = logical_bytes s - ob + bytes ∧
  collections s' = <[name := set_data_epoch rev (set_documents
    (<[id := Pending {| d_id := id; d_version := rev; body := b |}]> (documents c)) c)]>
    (collections s).
Proof. unfold stored_state. destruct (documents c !! id); simpl; split_and!; done || lia. Qed.

Lemma stored_state_accounted rev s name id c ob bytes b :
  accounted rev s → collections s !! name = Some c → validate_name id = Ok tt →
  encoded_len b = Ok bytes → bytes ≤ max_document_bytes (limits s) →
  old_body_bytes (documents c !! id) = Ok ob → ob ≤ logical_bytes s →
  accounted rev (stored_state s name id rev c ob bytes b).
Proof.
  intros Hacc Hname Hid Hb Hle Hob Hlog. apply old_body_bytes_weight in Hob.
  destruct (stored_state_fields s name id rev c ob bytes b) as (Hl & Hdc & Hlb & Hcs).
  assert (Hc : collection_ok (max_document_bytes (limits s)) rev name c) by by apply Hacc.
  pose proof (pending_body_bytes id rev b bytes Hb) as Hpb.
  pose proof (slot_weight_Ok _ _ Hpb) as Hw.
  eapply replace_collection_accounted; [done|exact Hname| |exact Hcs|exact Hl|exact Hdc|exact Hlb| |].
  - apply changed_collection_ok; [done|]. intros id' d Hd.
    destruct (decide (id' = id)) as [->|Hne]; [|rewrite lookup_insert_ne in Hd by done; by left].
    rewrite lookup_insert_eq in Hd. injection Hd as <-. right.
    split_and!; try done. by exists bytes.
  - unfold collection_count. simpl. destruct (documents c !! id) as [d|] eqn:Hd.
    + rewrite map_size_insert_Some by by eexists. lia.
    + rewrite map_size_insert_None by done. lia.
  - unfold collection_bytes. simpl. destruct (documents c !! id) as [d|] eqn:Hd; simpl in Hob.
    + pose proof (msum_insert_old slot_weight _ _
        (Pending {| d_id := id; d_version := rev; body := b |}) _ Hd) as Hi.
      rewrite Hw in Hi. lia.
    + rewrite msum_insert_new, Hw by done. lia.
Qed.

Lemma deleted_state_accounted rev s name id c ob :
  accounted rev s → collections s !! name = Some c →
  old_body_bytes (documents c !! id) = Ok ob →
  accounted rev (deleted_state s name id rev c ob).
Proof.
  intros Hacc Hname Hob. apply old_body_bytes_weight in Hob. unfold deleted_state.
  destruct (documents c !! id) as [d|] eqn:Hd; [|done]. simpl in Hob.
  assert (Hc : collection_ok (max_document_bytes (limits s)) rev name c) by by apply Hacc.
  pose proof (msum_lookup_le collection_count _ _ _ Hname) as Hle1.
  pose proof (msum_lookup_le collection_bytes _ _ _ Hname) as Hle2.
  pose proof (msum_delete slot_weight _ _ _ Hd) as Hdel.
  assert (Hsize : size (delete id (documents c)) = pred (size (documents c)))
    by by apply map_size_delete_Some; eexists.
  assert (Hpos : size (documents c) ≠ 0%nat).
  { intros Hz. apply map_size_empty_inv in Hz. by rewrite Hz, lookup_empty in Hd. }
  destruct Hacc as (Hall & Hdc & Hlb).
  eapply replace_collection_accounted;
    [by split_and!|exact Hname| |reflexivity..| |].
  - apply changed_collection_ok; [done|]. intros id' d' Hd'. left.
    by apply lookup_delete_Some in Hd' as [_ ?].
  - unfold collection_count in *. simpl. lia.
  - unfold collection_bytes in *. simpl. lia.
Qed.

Lemma apply_mutation_accounted rev iv resolver pr m s s' pr' :
  accounted rev s → apply_mutation rev iv resolver pr m s = (s', Ok pr') → accounted rev s'.
Proof.
  intros Hacc (c & ob & r & Hok & _ & Hob & _ & Hs)%apply_mutation_Ok.
  unfold target_ok in Hok. destruct (target m) as [name id].
  destruct Hok as (Hid & _ & Hc & _). cbn [fst snd] in *. destruct r as [b|].
  - destruct Hs as (bytes & Hb & Hle & Hlb & ->). by apply stored_state_accounted.
  - subst s'. by apply deleted_state_accounted.
Qed.

(** *** What a batch does to every document *)

Lemma find_stored s name id rev c ob bytes b t :
  collections s !! name = Some c →
  find_document (stored_state s name id rev c ob bytes b) t =
  if bool_decide (t = (name, id))
  then Some (Pending {| d_id := id; d_version := rev; body := b |})
  else find_document s t.
Proof.
  intros Hc. destruct (stored_state_fields s name id rev c ob bytes b) as (_ & _ & _ & Hcs).
  unfold find_document. rewrite Hcs. destruct t as [n i]. cbn [fst snd].
  destruct (decide (n = name)) as [->|Hn].
  - rewrite lookup_insert_eq, Hc. simpl. case_bool_decide as Ht.
    + injection Ht as ->. by rewrite lookup_insert_eq.
    + rewrite lookup_insert_ne; [done|]. congruence.
  - rewrite lookup_insert_ne by done. rewrite bool_decide_false by congruence. done.
Qed.

Lemma find_deleted s name id rev c ob t :
  collections s !! name = Some c →
  find_document (deleted_state s name id rev c ob) t =
  if bool_decide (t = (name, id)) then None else find_document s t.
Proof.
  intros Hc. unfold deleted_state, find_document. destruct t as [n i]. cbn [fst snd].
  destruct (documents c !! id) as [d|] eqn:Hd; simpl.
  - destruct (decide (n = name)) as [->|Hn].
    + rewrite lookup_insert_eq, Hc. simpl. case_bool_decide as Ht.
      * injection Ht as ->. by rewrite lookup_delete_eq.
      * rewrite lookup_delete_ne; [done|]. congruence.
    + rewrite lookup_insert_ne by done. by rewrite bool_decide_false by congruence.
  - case_bool_decide as Ht; [|done]. injection Ht as -> ->. rewrite Hc. done.
Qed.

(** Everything a batch of mutations never changes in a collection. *)
Definition immutable_part (c : CollectionState) :
    CollectionDefinition * gmap string ArchivedDocument * N :=
  (definition c, archived_documents c, archived_document_bytes c).

(** All fields but the collections and the two totals. *)
Definition with_documents_of (s s' : TenantState) : TenantState :=
  set_collections (collections s') (set_logical_bytes (logical_bytes s')
    (set_document_count (document_count s') s)).

Record frame (rev : N) (s s' : TenantState) : Prop := {
  frame_rest : s' = with_documents_of s s';
  frame_parts : ∀ name, immutable_part <$> collections s' !! name =
                        immutable_part <$> collections s !! name;
  frame_epochs : ∀ name c c', collections s !! name = Some c → collections s' !! name = Some c' →
                   c' = c ∨ data_epoch c' = rev;
}.

Lemma with_documents_of_id s : s = with_documents_of s s.
Proof. by destruct s. Qed.

Lemma frame_refl rev s : frame rev s s.
Proof.
  split; [apply with_documents_of_id|done|]. intros name c c' H1 H2. left. congruence.
Qed.

Lemma frame_trans rev s1 s2 s3 : frame rev s1 s2 → frame rev s2 s3 → frame rev s1 s3.
Proof.
  intros [Hr1 Hp1 He1] [Hr2 Hp2 He2]. split.
  - rewrite Hr2, Hr1. reflexivity.
  - intros name. by rewrite Hp2, Hp1.
  - intros name c c' Hc Hc'. specialize (Hp1 name). rewrite Hc in Hp1. simpl in Hp1.
    destruct (collections s2 !! name) as [c2|] eqn:Hc2; [|done].
    destruct (He2 _ _ _ Hc2 Hc') as [->|]; [by eapply He1|by right].
Qed.

(** One changed collection is framed. *)
Lemma frame_collection rev s s' name c docs :
  collections s !! name = Some c →
  s' = with_documents_of s s' →
  collections s' = <[name := set_data_epoch rev (set_documents docs c)]> (collections s) →
  frame rev s s'.
Proof.
  intros Hc Hr Hcs. split; [done|..]; rewrite Hcs.
  - intros n. destruct (decide (n = name)) as [->|Hne].
    + by rewrite lookup_insert_eq, Hc.
    + by rewrite lookup_insert_ne.
  - intros n c1 c2 H1 H2. destruct (decide (n = name)) as [->|Hne].
    + rewrite lookup_insert_eq in H2. injection H2 as <-. by right.
    + rewrite lookup_insert_ne in H2 by done. left. congruence.
Qed.

Lemma apply_mutation_frame rev iv resolver pr m s s' pr' :
  apply_mutation rev iv resolver pr m s = (s', Ok pr') → frame rev s s'.
Proof.
  intros (c & ob & r & Hok & _ & _ & _ & Hs)%apply_mutation_Ok.
  unfold target_ok in Hok. destruct (target m) as [name id].
  destruct Hok as (_ & _ & Hc & _). cbn [fst snd] in *. destruct r as [b|].
  - destruct Hs as (bytes & _ & _ & _ & ->).
    destruct (stored_state_fields s name id rev c ob bytes b) as (_ & _ & _ & Hcs).
    eapply frame_collection; [exact Hc| |exact Hcs].
    unfold stored_state. by destruct (documents c !! id).
  - subst s'. unfold deleted_state. destruct (documents c !! id) eqn:Hd; [|apply frame_refl].
    by eapply frame_collection.
Qed.

(** The precondition of a mutation, on the document before the batch. *)
Definition precondition_met (e : Precondition) (old : option DocumentSlot) : Prop :=
  match e with
  | PAny => True
  | PAbsent => old = None
  | PVersion v => ∃ d, old = Some d ∧ slot_version d = v
  end.

(** The body a mutation leaves: a put its body, a delete none, a merge patch the
    merge of the patch into the body of the document it loads. *)
Definition body_after (resolver : Resolver) (m : Mutation) (old : option DocumentSlot)
    (r : option value) : Prop :=
  match m with
  | Put _ _ b _ => r = Some b
  | Patch _ _ patch _ => ∃ slot d b, old = Some slot ∧ loan_document resolver slot = Ok d ∧
      apply_merge_patch patch (body d) = (b, Ok tt) ∧ r = Some b
  | Delete _ _ _ => r = None
  end.

(** The only mutation of an append-only collection. *)
Definition absent_create (m : Mutation) : Prop := ∃ c id b, m = Put c id b PAbsent.

Lemma precondition_holds_met e old : precondition_holds e old = true → precondition_met e old.
Proof.
  destruct e as [| |v], old as [d|]; try done. intros Hv%N.eqb_eq. by exists d.
Qed.

Lemma replacement_after resolver m old r :
  replacement resolver m old = Ok r → body_after resolver m old r.
Proof.
  destruct m as [? ? b ?|? ? patch ?|? ? ?]; cbn; [congruence| |congruence].
  intros (slot & Hs%ok_or_Ok & (d & Hd%source_Ok & Hm)%bind_Ok)%bind_Ok.
  destruct (apply_merge_patch patch (body d)) as [b [[]|e]] eqn:Hp; [|done].
  injection Hm as <-. by exists slot, d, b.
Qed.

Lemma is_create_absent m : is_create m = true → absent_create m.
Proof. destruct m as [c id b []| |]; try done. intros _. by exists c, id, b. Qed.

(** What one mutation of an accepted batch means, in terms of the state before
    the whole batch. *)
Definition mutation_effect (s : TenantState) (rev : N) (resolver : Resolver) (m : Mutation)
    (final : option DocumentSlot) : Prop :=
  ∃ c r, collections s !! (target m).1 = Some c ∧
    validate_name (target m).2 = Ok tt ∧
    archived_documents c !! (target m).2 = None ∧
    (write_mode (definition c) = AppendOnly → absent_create m) ∧
    precondition_met (expected m) (find_document s (target m)) ∧
    body_after resolver m (find_document s (target m)) r ∧
    final = (λ b, Pending {| d_id := (target m).2; d_version := rev; body := b |}) <$> r.

Lemma apply_mutation_effect rev iv resolver pr m s s' pr' :
  apply_mutation rev iv resolver pr m s = (s', Ok pr') →
  mutation_effect s rev resolver m (find_document s' (target m)) ∧
  (∀ t, t ≠ target m → find_document s' t = find_document s t).
Proof.
  intros (c & ob & r & Hok & _ & _ & Hrep & Hs)%apply_mutation_Ok.
  assert (Hfind : collections s !! (target m).1 = Some c →
    find_document s (target m) = documents c !! (target m).2).
  { intros Hc. unfold find_document. by rewrite Hc. }
  unfold mutation_effect, target_ok in *.
  destruct (target m) as [name id] eqn:Ht. cbn [fst snd] in *.
  destruct Hok as (Hid & _ & Hc & Ha & Hw & Hp%precondition_holds_met). specialize (Hfind Hc).
  apply replacement_after in Hrep.
  assert (Hw' : write_mode (definition c) = AppendOnly → absent_create m)
    by (intros Hx; by apply is_create_absent, Hw).
  destruct r as [b|].
  - destruct Hs as (bytes & _ & _ & _ & ->). split.
    + exists c, (Some b). rewrite Hfind, find_stored by done. rewrite bool_decide_true by done.
      by split_and!.
    + intros t Hne. rewrite find_stored by done. by rewrite bool_decide_false.
  - subst s'. split.
    + exists c, None. rewrite Hfind, find_deleted by done. rewrite bool_decide_true by done.
      by split_and!.
    + intros t Hne. rewrite find_deleted by done. by rewrite bool_decide_false.
Qed.

(** The effect of a mutation only depends on its own document and on the
    immutable part of its collection. *)
Lemma mutation_effect_frame s s1 rev resolver m final :
  frame rev s s1 → find_document s1 (target m) = find_document s (target m) →
  mutation_effect s1 rev resolver m final → mutation_effect s rev resolver m final.
Proof.
  intros [_ Hp _] Hf (c & r & Hc & Hid & Ha & Hw & Hpre & Hrep & Hfin).
  specialize (Hp (target m).1). rewrite Hc in Hp. simpl in Hp.
  destruct (collections s !! (target m).1) as [c0|] eqn:Hc0; [|done].
  injection Hp as Hdef Harch _. rewrite Hf in Hpre, Hrep. exists c0, r.
  rewrite Hdef, Harch in *. by split_and!.
Qed.

Definition record_versions (iv : bool) (rev : N) (v : gmap string N) (ops : list Mutation) :=
  foldl (λ v m, record_version iv (target m).1 (target m).2 rev v) v ops.

(** The whole loop. *)
Lemma apply_loop_Ok rev iv resolver ops : ∀ pr s s' pr',
  st_fold (apply_mutation rev iv resolver) pr ops s = (s', Ok pr') →
  NoDup (target <$> ops) ∧ (∀ m, m ∈ ops → ¬ target m ∈ targets pr) ∧
  frame rev s s' ∧ (accounted rev s → accounted rev s') ∧
  (∀ m, m ∈ ops → mutation_effect s rev resolver m (find_document s' (target m))) ∧
  (∀ t, ¬ t ∈ target <$> ops → find_document s' t = find_document s t) ∧
  pr_versions pr' = record_versions iv rev (pr_versions pr) ops.
Proof.
  induction ops as [|m ops IH]; intros pr s s' pr' Hf.
  { rewrite st_fold_nil in Hf. injection Hf as <- <-. csimpl. split_and!;
      [constructor|by intros ? ?%elem_of_nil|apply frame_refl|done|by intros ? ?%elem_of_nil|done..]. }
  rewrite st_fold_cons in Hf. apply st_bind_Ok in Hf as (s1 & pr1 & Hm & Hf).
  apply IH in Hf as (Hnd & Hnot & Hfr & Hac & Heff & Hkeep & Hv). clear IH.
  destruct (apply_mutation_effect _ _ _ _ _ _ _ _ Hm) as [Hmeff Hmkeep].
  pose proof (apply_mutation_frame _ _ _ _ _ _ _ _ Hm) as Hmfr.
  destruct (apply_mutation_Ok _ _ _ _ _ _ _ _ Hm) as (c & ob & r & Hok & [Htg Hvs] & _).
  assert (Hnew : ¬ target m ∈ targets pr).
  { unfold target_ok in Hok. destruct (target m). naive_solver. }
  assert (Hnotin : ¬ target m ∈ target <$> ops).
  { intros (m' & Heq & Hin)%list_elem_of_fmap. apply (Hnot m' Hin). rewrite Htg, <-Heq.
    set_solver. }
  csimpl. split_and!.
  - by constructor.
  - intros m' [->|Hin]%elem_of_cons; [done|]. intros Hbad. apply (Hnot m' Hin). set_solver.
  - by eapply frame_trans.
  - intros Hacc. eapply Hac, apply_mutation_accounted; eauto.
  - intros m' [->|Hin]%elem_of_cons; [by rewrite Hkeep|].
    eapply mutation_effect_frame; [exact Hmfr| |by apply Heff].
    apply Hmkeep. intros Heq. apply Hnotin. rewrite <-Heq. by apply list_elem_of_fmap_2.
  - intros t Ht. rewrite Hkeep, Hmkeep; [done|..]; intros Hin; apply Ht; subst; by constructor.
  - rewrite Hv, Hvs. done.
Qed.

Lemma apply_mutations_Ok ops rev iv limit resolver s s' receipt :
  apply_mutations ops rev iv limit resolver s = (s', Ok receipt) →
  ∃ pr, st_fold (apply_mutation rev iv resolver) empty_progress ops s = (s', Ok pr) ∧
    document_count s' ≤ max_documents (limits s') ∧
    logical_bytes s' ≤ max_logical_bytes (limits s') ∧
    receipt = {| wr_revision := rev; versions := pr_versions pr |}.
Proof.
  unfold apply_mutations. intros Hr.
  apply st_bind_Ok in Hr as (s0 & ? & Hg & Hr). injection Hg as <- <-.
  apply st_bind_Ok in Hr as (s1 & [] & Hv & Hr). injection Hv as <- _.
  apply st_bind_Ok in Hr as (s2 & pr & Hf & Hr).
  apply st_bind_Ok in Hr as (s3 & ? & Hg & Hr). injection Hg as <- <-.
  apply st_bind_Ok in Hr as (s4 & [] & Hq & Hr). injection Hq as <- Hq.
  injection Hr as <- <-. exists pr. apply reject_if_Ok in Hq.
  apply orb_false_iff in Hq as [Hd Hl]. apply N.ltb_ge in Hd, Hl. by split_and!.
Qed.

Lemma frame_limits rev s s' : frame rev s s' → limits s' = limits s ∧
  mutation_receipt_head s' = mutation_receipt_head s ∧
  backup_binding_head s' = backup_binding_head s ∧ revision s' = revision s.
Proof. intros [Hr _ _]. rewrite Hr. done. Qed.

(** The snapshot check only reads the collections, the totals, the limits and
    two heads. *)
Lemma accounted_set_revision rev r s : accounted rev (set_revision r s) ↔ accounted rev s.
Proof. done. Qed.

Lemma collection_ok_mono max_bytes r1 r2 name c :
  r1 ≤ r2 → collection_ok max_bytes r1 name c → collection_ok max_bytes r2 name c.
Proof. intros Hle (He & Hn & Hd). split_and!; [lia|done..]. Qed.

Lemma accounted_mono r1 r2 s : r1 ≤ r2 → accounted r1 s → accounted r2 s.
Proof.
  intros Hle (Hc & Ht). split; [|done]. intros name c Hl. by eapply collection_ok_mono, Hc.
Qed.

(** *** Escaped paths *)

Lemma escape_segment_cons c x :
  escape_segment (String c x) = escape_segment_char c +:+ escape_segment x.
Proof. done. Qed.

(** An escaped segment followed by a slash or by the end is read back uniquely. *)
Definition delimited (r : string) : Prop := r = "" ∨ ∃ r', r = String "/" r'.

Lemma escape_segment_inj a : ∀ b r1 r2,
  delimited r1 → delimited r2 →
  escape_segment a +:+ r1 = escape_segment b +:+ r2 → a = b ∧ r1 = r2.
Proof.
  assert (Hstop : ∀ c x r r1, delimited r1 →
    escape_segment_char c +:+ escape_segment x +:+ r ≠ r1).
  { intros c x r r1 Hd Heq. unfold escape_segment_char in Heq.
    destruct Hd as [->|[r' ->]]; repeat case_bool_decide;
      rewrite ?app_string_cons, ?app_string_nil in Heq; congruence. }
  induction a as [|c a IH]; intros [|d b] r1 r2 H1 H2 Heq;
    rewrite ?escape_segment_cons, ?app_string_assoc in Heq; [done| | |].
  - by edestruct (Hstop d b r2 r1).
  - by edestruct (Hstop c a r1 r2).
  - unfold escape_segment_char in Heq. repeat case_bool_decide; subst;
      rewrite ?app_string_cons, ?app_string_nil in Heq; simplify_eq;
      select (escape_segment _ +:+ _ = _) (fun H => apply IH in H as [-> ->]); done.
Qed.

Lemma document_path_inj c id c' id' :
  document_path c id = document_path c' id' → (c, id) = (c', id').
Proof.
  unfold document_path. rewrite !app_string_cons, !app_string_nil. intros Heq.
  injection Heq as Heq. apply escape_segment_inj in Heq as [-> Heq];
    [|by right; eexists..].
  injection Heq as Heq.
  rewrite <-(app_string_nil_r (escape_segment id)), <-(app_string_nil_r (escape_segment id')) in Heq.
  apply escape_segment_inj in Heq as [-> _]; [done|by left..].
Qed.

Lemma record_versions_lookup rev ops : ∀ v k,
  record_versions true rev v ops !! k =
  if bool_decide (k ∈ (λ m, document_path (target m).1 (target m).2) <$> ops)
  then Some rev else v !! k.
Proof.
  unfold record_versions, record_version.
  induction ops as [|m ops IH]; intros v k; csimpl; [done|]. rewrite IH. clear IH.
  case_bool_decide as H1; case_bool_decide as H2; rewrite elem_of_cons in H2; [done|naive_solver|..].
  - destruct H2 as [->|]; [|done]. by rewrite lookup_insert_eq.
  - rewrite lookup_insert_ne; [done|]. naive_solver.
Qed.
End lemmas.

(** ** Histories *)

Section claims.
Context `{Sha256} `{QueryRules}.

(** Successive committed states: each batch of mutations runs at a revision
    above the last, and other commands keep the collections. *)
Inductive evolves : TenantState → TenantState → Prop :=
| evolves_done s : evolves s s
| evolves_batch s ops rev iv limit resolver s1 receipt s2 :
    revision s < rev →
    apply_mutations ops rev iv limit resolver s = (s1, Ok receipt) →
    evolves (set_revision rev s1) s2 →
    evolves s s2
| evolves_other s s1 s2 :
    revision s ≤ revision s1 → collections s1 = collections s →
    evolves s1 s2 →
    evolves s s2.

(** The identities no mutation may touch: archived ones, and the resident
    documents of an append-only collection. *)
Definition frozen (c : CollectionState) (id : string) : Prop :=
  is_Some (archived_documents c !! id) ∨
  write_mode (definition c) = AppendOnly ∧ is_Some (documents c !! id).

(** What a later state of a history still has in common with an earlier one. *)
Record fence (s s' : TenantState) : Prop := {
  fence_revision : revision s ≤ revision s';
  fence_parts : ∀ name, immutable_part <$> collections s' !! name =
                        immutable_part <$> collections s !! name;
  fence_epochs : ∀ name c c', collections s !! name = Some c → collections s' !! name = Some c' →
                   c' = c ∨ revision s < data_epoch c';
  fence_documents : ∀ t, find_document s' t = find_document s t ∨ find_document s' t = None ∨
                   ∃ d, find_document s' t = Some d ∧ revision s < slot_version d;
  fence_frozen : ∀ name c id, collections s !! name = Some c → frozen c id →
                   find_document s' (name, id) = find_document s (name, id);
}.

Lemma fence_same s s' :
  revision s ≤ revision s' → collections s' = collections s → fence s s'.
Proof.
  intros Hr Hc. split; rewrite ?Hc; try done.
  - intros name c c' H1 H2. left. congruence.
  - intros t. left. unfold find_document. by rewrite Hc.
  - intros name c id _ _. unfold find_document. by rewrite Hc.
Qed.

Lemma create_precondition m old :
  absent_create m → precondition_met (expected m) old → old = None.
Proof. by intros (c & id & b & ->). Qed.

(** An accepted mutation does not target a frozen identity. *)
Lemma mutation_effect_frozen s rev resolver m final c :
  mutation_effect s rev resolver m final → collections s !! (target m).1 = Some c →
  ¬ frozen c (target m).2.
Proof.
  intros (c0 & r & Hc0 & _ & Ha & Hw & Hp & _) Hc [[a Hz]|[Hz [d Hd]]]; [congruence|].
  rewrite Hc in Hc0. injection Hc0 as <-. apply Hw in Hz.
  apply create_precondition in Hp; [|done]. unfold find_document in Hp.
  rewrite Hc in Hp. simpl in Hp. congruence.
Qed.

Lemma fence_batch s ops rev iv limit resolver s1 receipt :
  revision s < rev → apply_mutations ops rev iv limit resolver s = (s1, Ok receipt) →
  fence s (set_revision rev s1).
Proof.
  intros Hr (pr & Hf & _)%apply_mutations_Ok.
  apply apply_loop_Ok in Hf as (_ & _ & Hfr & _ & Heff & Hkeep & _).
  destruct Hfr as [_ Hp He]. split; cbn [revision set_revision collections]; [lia|done|..].
  - intros name c c' H1 H2. destruct (He _ _ _ H1 H2) as [Heq|Heq]; [by left|right; by rewrite Heq].
  - intros t. change (find_document (set_revision rev s1) t) with (find_document s1 t).
    destruct (decide (t ∈ target <$> ops)) as [(m & -> & Hm)%list_elem_of_fmap|Ht];
      [|left; by apply Hkeep]. right.
    destruct (Heff m Hm) as (c & [b|] & _ & _ & _ & _ & _ & _ & ->); [right|by left].
    eexists. split; [reflexivity|]. done.
  - intros name c id Hc Hz.
    change (find_document (set_revision rev s1) (name, id)) with (find_document s1 (name, id)).
    apply Hkeep. intros (m & Hm & Hin)%list_elem_of_fmap.
    apply (mutation_effect_frozen _ _ _ _ _ c (Heff m Hin)); by rewrite <-Hm.
Qed.

Lemma fence_trans s1 s2 s3 : fence s1 s2 → fence s2 s3 → fence s1 s3.
Proof.
  intros [Hr1 Hp1 He1 Hd1 Ha1] [Hr2 Hp2 He2 Hd2 Ha2]. split.
  - lia.
  - intros name. by rewrite Hp2.
  - intros name c c' Hc Hc'. specialize (Hp1 name). rewrite Hc in Hp1. simpl in Hp1.
    destruct (collections s2 !! name) as [c2|] eqn:Hc2; [|done].
    destruct (He2 _ _ _ Hc2 Hc') as [->|]; [by eapply He1|right; lia].
  - intros t. destruct (Hd2 t) as [->|[->|(d & -> & Hlt)]]; [apply Hd1|by right; left|].
    right; right. exists d. split; [done|lia].
  - intros name c id Hc Ha. specialize (Hp1 name). rewrite Hc in Hp1. simpl in Hp1.
    destruct (collections s2 !! name) as [c2|] eqn:Hc2; [|done].
    injection Hp1 as Hdef Harch _. specialize (Ha1 _ _ _ Hc Ha).
    rewrite (Ha2 _ _ id Hc2); [done|]. unfold frozen. rewrite Hdef, Harch.
    unfold find_document in Ha1. cbn [fst snd] in Ha1. rewrite Hc, Hc2 in Ha1. simpl in Ha1.
    by rewrite Ha1.
Qed.

Lemma evolves_fence s s' : evolves s s' → fence s s'.
Proof.
  induction 1 as [s|s ops rev iv limit resolver s1 receipt s2 Hr Hm _ IH|s s1 s2 Hr Hc _ IH].
  - by apply fence_same.
  - eapply fence_trans; [by eapply fence_batch|done].
  - eapply fence_trans; [by apply fence_same|done].
Qed.

(** *** Read assertions *)

Definition assertion_holds (s : TenantState) (now : N) (a : ReadAssertion) : Prop :=
  match a with
  | Before t => now ≤ t
  | NotBefore t => t ≤ now
  | Snapshot i p e =>
      validate_name i = Ok tt ∧ i = incarnation s ∧ p = policy_epoch s ∧ e = schema_epoch s
  | ADocument c id e =>
      validate_name c = Ok tt ∧ validate_name id = Ok tt ∧
      ∃ cs, collections s !! c = Some cs ∧
        read_version cs id = match e with RAbsent => None | RVersion v => Some v end
  | ACollection c e =>
      validate_name c = Ok tt ∧ ∃ cs, collections s !! c = Some cs ∧ data_epoch cs = e
  end.

Lemma check_assertion_Ok s now a : check_assertion s now a = Ok tt ↔ assertion_holds s now a.
Proof.
  destruct a as [t|t|i p e|c id e|c e]; unfold check_assertion, assertion_holds.
  - rewrite reject_Ok, N.ltb_ge. naive_solver.
  - rewrite reject_Ok, N.ltb_ge. naive_solver.
  - rewrite seq_Ok, reject_Ok, !orb_false_iff, !negb_false_iff, bool_decide_eq_true, !N.eqb_eq.
    naive_solver.
  - rewrite !seq_Ok, bind_Ok. split.
    + intros (Hc & Hi & cs & Hcs%ok_or_Ok & [Hm _]%reject_Ok). apply negb_false_iff in Hm.
      split; [done|]. split; [done|]. exists cs. split; [done|].
      destruct e; by apply bool_decide_eq_true in Hm.
    + intros (Hc & Hi & cs & Hcs & Hm). split; [done|]. split; [done|]. exists cs.
      split; [by apply ok_or_Ok|]. apply reject_Ok. split; [|done]. apply negb_false_iff.
      destruct e; by apply bool_decide_eq_true.
  - rewrite seq_Ok, bind_Ok. split.
    + intros (Hc & cs & Hcs%ok_or_Ok & [Hm _]%reject_Ok). apply negb_false_iff, N.eqb_eq in Hm.
      split; [done|]. by exists cs.
    + intros (Hc & cs & Hcs & Hm). split; [done|]. exists cs. split; [by apply ok_or_Ok|].
      apply reject_Ok. split; [|done]. by apply negb_false_iff, N.eqb_eq.
Qed.

Lemma assertion_steps_Ok s now l : ∀ seen r,
  try_fold (assertion_step s now) seen l = Ok r ↔
  Forall (assertion_holds s now) l ∧ NoDup (assertion_identity <$> l) ∧
  (∀ a, a ∈ l → ¬ assertion_identity a ∈ seen) ∧
  r = foldl (λ seen a, {[assertion_identity a]} ∪ seen) seen l.
Proof.
  induction l as [|a l IH]; intros seen r.
  { rewrite try_fold_nil. csimpl. rewrite Forall_nil, NoDup_nil.
    split; [intros [= ->]; split_and!; try done; by intros ? ?%elem_of_nil|naive_solver]. }
  rewrite try_fold_cons, bind_Ok. csimpl. rewrite Forall_cons, NoDup_cons. unfold assertion_step at 1.
  split.
  - intros (seen' & Hs & Hf). rewrite seq_Ok, reject_Ok, check_assertion_Ok in Hs.
    destruct Hs as (Ha & Hnew%bool_decide_eq_false & [= <-]).
    apply IH in Hf as (Hl & Hnd & Hdis & ->). split_and!; try done.
    + intros (b & Hb & Hin)%list_elem_of_fmap. apply (Hdis b Hin). rewrite <-Hb. set_solver.
    + intros b [->|Hin]%elem_of_cons; [done|]. intros Hbad. apply (Hdis b Hin). set_solver.
  - intros ([Ha Hl] & [Hn Hnd] & Hdis & ->). exists ({[assertion_identity a]} ∪ seen). split.
    + rewrite seq_Ok, reject_Ok, check_assertion_Ok, bool_decide_eq_false. split_and!; try done.
      apply Hdis. by constructor.
    + apply IH. split_and!; try done. intros b Hin [Heq%elem_of_singleton|Hbad]%elem_of_union.
      * apply Hn. rewrite <-Heq. by apply list_elem_of_fmap_2.
      * apply (Hdis b); [by constructor|done].
Qed.

Lemma validate_read_assertions_Ok s l now max :
  validate_read_assertions s l now max = Ok tt ↔
  len l ≤ max ∧ NoDup (assertion_identity <$> l) ∧ Forall (assertion_holds s now) l.
Proof.
  unfold validate_read_assertions. rewrite reject_Ok, N.ltb_ge, bind_Ok. split.
  - intros (Hlen & seen & Hf & _). apply assertion_steps_Ok in Hf. naive_solver.
  - intros (Hlen & Hnd & Hall). split; [done|]. eexists. split; [|done].
    apply assertion_steps_Ok. split_and!; [done|done| |done]. set_solver.
Qed.

Lemma read_version_None c id : read_version c id = None → documents c !! id = None.
Proof. unfold read_version. by destruct (documents c !! id). Qed.

(** Reading the same version again means reading the same document. *)
Lemma fence_version s s' name c id c' :
  accounted (revision s) s → fence s s' → collections s !! name = Some c →
  collections s' !! name = Some c' → read_version c' id = read_version c id →
  find_document s' (name, id) = find_document s (name, id).
Proof.
  intros [Hok _] [_ Hp _ Hd Hz] Hc Hc' Hv.
  destruct (archived_documents c !! id) as [a|] eqn:Ha; [by eapply Hz; [|left; rewrite Ha]|].
  specialize (Hp name). rewrite Hc, Hc' in Hp. injection Hp as _ Harch _.
  specialize (Hd (name, id)). unfold find_document in *. cbn [fst snd] in *.
  rewrite Hc, Hc' in *. simpl in *. unfold read_version in Hv. rewrite Harch, Ha in Hv.
  destruct Hd as [Hd|[Hd|(d & Hd & Hlt)]]; [done|..]; rewrite Hd in Hv |- *; simpl in Hv;
    destruct (documents c !! id) as [d0|] eqn:Hd0; try done.
  destruct (Hok _ _ Hc) as (He & _ & Hds). destruct (Hds _ _ Hd0) as (_ & _ & Hle & _).
  simpl in Hv. injection Hv as Hv. lia.
Qed.

(** The response was taken from the generation [s]. *)
Definition snapshot_of (s : TenantState) (r : SnapshotReadResponse) : Prop :=
  sr_revision r = revision s ∧ sr_incarnation r = incarnation s ∧
  sr_policy_epoch r = policy_epoch s ∧ sr_schema_epoch r = schema_epoch s ∧
  (∀ row, row ∈ sr_documents r → ∃ c, collections s !! k_collection (key row) = Some c ∧
     d_version <$> document row = read_version c (k_id (key row))) ∧
  (∀ name epoch, collection_epochs r !! name = Some epoch →
     data_epoch <$> collections s !! name = Some epoch).

(** C2. Optimistic concurrency is sound. Take a snapshot read from a well-formed
    generation, let any sequence of batches and other commands commit, and
    submit a batch fenced by the read set of that snapshot. If the read set is
    accepted, then every document the snapshot read, present or absent, is
    still exactly as it was read, and every collection it queried is unchanged
    as a whole, so no row was inserted, changed or deleted in it. *)
Theorem snapshot_reads_serializable s s' r now max :
  accounted (revision s) s → snapshot_of s r → evolves s s' →
  validate_read_assertions s' (read_assertions r) now max = Ok tt →
  policy_epoch s' = policy_epoch s ∧ schema_epoch s' = schema_epoch s ∧
  (∀ row, row ∈ sr_documents r →
     find_document s' (k_collection (key row), k_id (key row)) =
     find_document s (k_collection (key row), k_id (key row))) ∧
  (∀ name epoch, collection_epochs r !! name = Some epoch →
     collections s' !! name = collections s !! name).
Proof.
  intros Hacc (_ & _ & Hpe & Hse & Hrows & Hepochs) Hh%evolves_fence Hv.
  apply validate_read_assertions_Ok in Hv as (_ & _ & Hall). unfold read_assertions in Hall.
  rewrite Forall_cons, Forall_app, !Forall_fmap, !Forall_forall in Hall.
  destruct Hall as ((_ & _ & Hp & Hs) & Hd & Hc). split; [congruence|]. split; [congruence|].
  split.
  - intros row Hrow. destruct (Hrows _ Hrow) as (c & Hcs & Hver).
    destruct (Hd _ Hrow) as (_ & _ & c' & Hcs' & Hver').
    eapply fence_version; eauto. rewrite Hver', <-Hver. by destruct (document row).
  - intros name epoch Hepoch. specialize (Hepochs _ _ Hepoch).
    destruct (collections s !! name) as [c|] eqn:Hcs; [|done]. injection Hepochs as He.
    destruct (Hc (name, epoch)) as (_ & c' & Hcs' & He'); [by apply elem_of_map_iter|].
    cbn [fst snd] in *. destruct (fence_epochs _ _ Hh _ _ _ Hcs Hcs') as [->|Hlt]; [done|].
    destruct (proj1 Hacc _ _ Hcs) as (Hle & _). lia.
Qed.

(** C8. An accepted batch does exactly what its mutations say, judged against
    the state before the batch: the targets are distinct and name existing
    collections, every precondition holds, every put, merge patch and delete
    leaves the document it should, at the batch's revision; every other
    document, the definitions, the archived identities and all the rest of the
    tenant state are untouched, and the quotas hold afterwards. *)
Theorem apply_mutations_effect ops rev iv limit resolver s s' receipt :
  apply_mutations ops rev iv limit resolver s = (s', Ok receipt) →
  NoDup (target <$> ops) ∧
  (∀ m, m ∈ ops → mutation_effect s rev resolver m (find_document s' (target m))) ∧
  (∀ t, ¬ t ∈ target <$> ops → find_document s' t = find_document s t) ∧
  (∀ name, immutable_part <$> collections s' !! name = immutable_part <$> collections s !! name) ∧
  s' = with_documents_of s s' ∧
  document_count s' ≤ max_documents (limits s) ∧ logical_bytes s' ≤ max_logical_bytes (limits s).
Proof.
  intros (pr & Hf & Hd & Hl & _)%apply_mutations_Ok.
  apply apply_loop_Ok in Hf as (Hnd & _ & Hfr & _ & Heff & Hkeep & _).
  destruct (frame_limits _ _ _ Hfr) as [Hlim _]. rewrite Hlim in Hd, Hl.
  destruct Hfr as [Hr Hp _]. by split_and!.
Qed.

(** C15. An accepted batch keeps the document part of the check that a restored
    snapshot must pass: identities, versions, epochs, sizes and the exact
    document and byte totals. *)
Theorem apply_mutations_keep_snapshot_valid ops rev iv limit resolver s s' receipt :
  validate_documents s = Ok tt → revision s < rev →
  max_documents (limits s) ≤ u64_max → max_logical_bytes (limits s) ≤ u64_max →
  apply_mutations ops rev iv limit resolver s = (s', Ok receipt) →
  validate_documents (set_revision rev s') = Ok tt.
Proof.
  intros (Hacc & _ & _ & _ & _ & Hm & Hb)%validate_documents_Ok Hr Hdm Hlm
    (pr & Hf & Hd & Hl & _)%apply_mutations_Ok.
  apply apply_loop_Ok in Hf as (_ & _ & Hfr & Hac & _).
  destruct (frame_limits _ _ _ Hfr) as (Hlim & Hmr & Hbb & _).
  apply validate_documents_Ok. cbn [revision set_revision]. split.
  { apply accounted_set_revision, Hac. eapply accounted_mono, Hacc. lia. }
  change (limits (set_revision rev s')) with (limits s').
  change (mutation_receipt_head (set_revision rev s')) with (mutation_receipt_head s').
  change (backup_binding_head (set_revision rev s')) with (backup_binding_head s').
  rewrite Hmr, Hbb, Hlim in *. cbn [document_count logical_bytes set_revision].
  split_and!; done || lia.
Qed.

(** C13. Through any history, an archived identity and a document of an
    append-only collection stay as they are: no batch can overwrite, patch or
    delete them. *)
Theorem frozen_documents_never_change s s' name c id :
  evolves s s' → collections s !! name = Some c → frozen c id →
  find_document s' (name, id) = find_document s (name, id) ∧
  ∃ c', collections s' !! name = Some c' ∧ definition c' = definition c ∧
    archived_documents c' !! id = archived_documents c !! id.
Proof.
  intros Hh%evolves_fence Hc Hz. split; [by eapply fence_frozen|].
  pose proof (fence_parts _ _ Hh name) as Hp. rewrite Hc in Hp.
  destruct (collections s' !! name) as [c'|]; [|done]. injection Hp as Hdef Harch _.
  exists c'. by rewrite Hdef, Harch.
Qed.

(** C32. The read assertions of a batch are accepted exactly when they are at
    most as many as allowed, none is stated twice, and each one holds in the
    state at the evaluation time. *)
Theorem read_assertions_exact s l now max :
  validate_read_assertions s l now max = Ok tt ↔
  len l ≤ max ∧ NoDup (assertion_identity <$> l) ∧ Forall (assertion_holds s now) l.
Proof. apply validate_read_assertions_Ok. Qed.

(** The receipt of a batch names every changed document and only those,
    each at the batch's revision: the escaped paths of different documents
    never collide. *)
Theorem receipt_names_targets ops rev limit resolver s s' receipt c id v :
  apply_mutations ops rev true limit resolver s = (s', Ok receipt) →
  versions receipt !! document_path c id = Some v ↔ (c, id) ∈ target <$> ops ∧ v = rev.
Proof.
  intros (pr & Hf & _ & _ & ->)%apply_mutations_Ok.
  apply apply_loop_Ok in Hf as (_ & _ & _ & _ & _ & _ & Hv). cbn [versions].
  rewrite Hv, record_versions_lookup. cbn [pr_versions empty_progress]. rewrite lookup_empty.
  assert (Hpath : document_path c id ∈ (λ m, document_path (target m).1 (target m).2) <$> ops ↔
                  (c, id) ∈ target <$> ops).
  { rewrite !list_elem_of_fmap. split; intros (m & Heq & Hin); exists m.
    - apply document_path_inj in Heq. split; [|done]. rewrite Heq. by destruct (target m).
    - by rewrite <-Heq. }
  case_bool_decide; naive_solver.
Qed.
End claims.

(** ** The sample batch satisfies the hypotheses *)

Import ApplySample.

Lemma sample_valid : validate_documents state = Ok tt.
Proof. vm_compute. reflexivity. Qed.

Lemma sample_evolves : evolves state (set_revision 5 outcome.1).
Proof.
  eapply (evolves_batch _ ops 5 true 1000 None outcome.1);
    [vm_compute; reflexivity|vm_compute; reflexivity|constructor].
Qed.

Lemma snapshot_reads_serializable_witness :
  find_document (set_revision 5 outcome.1) ("log", "a") = Some (slot "a" "1").
Proof.
  refine (eq_trans (proj1 (proj2 (proj2 (snapshot_reads_serializable state
    (set_revision 5 outcome.1) response 9 512 _ _ sample_evolves _)))
    {| key := {| k_collection := "log"; k_id := "a" |};
       document := Some {| d_id := "a"; d_version := 3; body := VObject [("n", VNumber "1")] |} |} _)
    _).
  - apply validate_documents_Ok, sample_valid.
  - split_and!; try reflexivity.
    + intros row [->|[->|[]%elem_of_nil]%elem_of_cons]%elem_of_cons; simpl.
      * exists (collection "log" AppendOnly). split; reflexivity.
      * exists (collection "docs" Mutable). split; reflexivity.
    + intros name epoch Hl. cbn in Hl. by rewrite lookup_empty in Hl.
  - vm_compute. reflexivity.
  - constructor.
  - vm_compute. reflexivity.
Defined.

Lemma apply_mutations_effect_witness :
  mutation_effect state 5 None (Put "log" "b" (VObject []) PAbsent)
    (find_document outcome.1 ("log", "b")).
Proof.
  refine (proj1 (proj2 (apply_mutations_effect ops 5 true 1000 None state outcome.1 _ _))
    (Put "log" "b" (VObject []) PAbsent) _).
  - vm_compute. reflexivity.
  - apply list_elem_of_In. simpl. by right; left.
Defined.

Lemma apply_mutations_keep_snapshot_valid_witness :
  validate_documents (set_revision 5 outcome.1) = Ok tt.
Proof.
  eapply (apply_mutations_keep_snapshot_valid ops 5 true 1000 None state outcome.1);
    [exact sample_valid|reflexivity|vm_compute; discriminate..|vm_compute; reflexivity].
Defined.

Lemma frozen_documents_never_change_witness :
  find_document (set_revision 5 outcome.1) ("log", "a") = Some (slot "a" "1").
Proof.
  refine (eq_trans (proj1 (frozen_documents_never_change state _ "log" (collection "log" AppendOnly)
    "a" sample_evolves _ _)) _); [reflexivity| |reflexivity].
  right. split; [reflexivity|]. by eexists.
Defined.

Lemma receipt_names_targets_witness :
  ("docs", "a") ∈ target <$> ops ∧ 5 = 5.
Proof.
  eapply (receipt_names_targets ops 5 1000 None state outcome.1);
    [vm_compute; reflexivity|vm_compute; reflexivity].
Defined.
