(* ===== verification/ChangeFeed.v ===== *)
(** * The change feed

    Models src/crates/kasumi-engine/src/change_feed_state.rs (publication of
    full after-images in the document commit, retention, and the check of a
    restored feed) and the page builder of
    src/crates/kasumi-engine/src/change_feed.rs.

    Indexing a missing collection panics in [append]; the model returns [None]
    there. The page builder runs against an interface [FeedWorkspace]: the
    query workspace it reserves from, the cancellation flag it polls, and the
    size quotes of kasumi-query. *)

From S2P Require Import Prelude Json Types Digest State Apply.

(** ** Sizes *)

(** [framing_with_document]: the four bytes of [null] give way to a document. *)
Definition framing_with_document (base replacement : N) : Result N :=
  ok_or (checked_sub base 4 ≫= λ n, checked_add n replacement)
    (new_error Corruption "document framing size overflow").

(** The JSON form of a change record without a document. *)
Definition change_record_header (r : ChangeRecord) : value :=
  VObject [("collection", VString (cr_collection r)); ("id", VString (cr_id r));
           ("document", VNull)].

(** The local [Header] of [entry_bytes]. *)
Definition commit_header (c : ChangeCommit) : value :=
  VObject [("revision", to_value (cc_revision c)); ("first_sequence", to_value (first_sequence c));
           ("records", VArray []); ("record_bytes", to_value (record_bytes c))].

(** [entry_bytes]. *)
Definition entry_bytes (sequence : N) (c : ChangeCommit) : Result N :=
  header ← encoded_len (commit_header c);
  k ← encoded_len (pretty sequence : string);
  ok_or (checked_add k 1 ≫= λ n, checked_add n header ≫= λ n,
         checked_add n (record_bytes c) ≫= λ n, checked_add n (len (records c) - 1))
    (new_error Corruption "change feed accounting overflow").

(** ** Retention *)

Definition feed_over (limits : HistoryLimits) (feed : ChangeFeedState) : bool :=
  (max_feed_events limits <? event_count feed) || (max_feed_bytes limits <? encoded_commit_bytes feed).

Definition set_next_sequence (x : N) (f : ChangeFeedState) : ChangeFeedState :=
  {| next_sequence := x; commits := commits f; event_count := event_count f;
     encoded_commit_bytes := encoded_commit_bytes f |}.
Definition set_commits (x : gmap N ChangeCommit) (f : ChangeFeedState) : ChangeFeedState :=
  {| next_sequence := next_sequence f; commits := x; event_count := event_count f;
     encoded_commit_bytes := encoded_commit_bytes f |}.
Definition set_event_count (x : N) (f : ChangeFeedState) : ChangeFeedState :=
  {| next_sequence := next_sequence f; commits := commits f; event_count := x;
     encoded_commit_bytes := encoded_commit_bytes f |}.
Definition set_encoded_commit_bytes (x : N) (f : ChangeFeedState) : ChangeFeedState :=
  {| next_sequence := next_sequence f; commits := commits f; event_count := event_count f;
     encoded_commit_bytes := x |}.

(** The body of the loop of [trim]: drop the oldest commit. *)
Definition trim_step : ST ChangeFeedState Error unit :=
  feed ← st_get;
  min ← st_lift (ok_or (get_min (commits feed))
    (new_error Corruption "missing change feed retention entry"));
  count ← st_lift (ok_or (checked_sub (event_count feed) (len (records min.2)))
    (new_error Corruption "change feed count underflow"));
  st_modify (set_event_count count);;
  bytes ← st_lift (entry_bytes min.1 min.2);
  left_bytes ← st_lift (ok_or (checked_sub (encoded_commit_bytes feed) bytes)
    (new_error Corruption "change feed byte underflow"));
  st_modify (set_encoded_commit_bytes left_bytes);;
  st_modify (λ f, set_commits (delete min.1 (commits f)) f).

(** [trim]. Every iteration removes a commit and fails without one, so one
    more iteration than there are commits is enough ([trim_loop_enough]). *)
Fixpoint trim_loop (fuel : nat) (limits : HistoryLimits) : ST ChangeFeedState Error unit :=
  feed ← st_get;
  if feed_over limits feed then
    match fuel with
    | O => st_lift (fail Corruption "missing change feed retention entry")
    | S fuel => trim_step;; trim_loop fuel limits
    end
  else mret tt.

Definition trim (limits : HistoryLimits) : ST ChangeFeedState Error unit :=
  feed ← st_get;
  trim_loop (S (size (commits feed))) limits.

Section feed.
Context `{Sha256}.

(** [change_record_bytes]. *)
Definition change_record_bytes (r : ChangeRecord) : Result N :=
  bytes ← encoded_len (change_record_header r);
  match cr_document r with
  | None => Ok bytes
  | Some d =>
      n ← map_err (λ _, new_error Corruption "document length invalid") (slot_document_bytes d);
      framing_with_document bytes n
  end.

(** ** Publication *)

(** The body of the inner loop of [append]: the records and their bytes. *)
Definition collect_record (collection : string) (old new : CollectionState)
    (acc : list ChangeRecord * N) (id : string) : Result (list ChangeRecord * N) :=
  let before := documents old !! id in
  let after := documents new !! id in
  if bool_decide (slot_version <$> before = slot_version <$> after) then Ok acc
  else
    let record := {| cr_collection := collection; cr_id := id; cr_document := after |} in
    n ← change_record_bytes record;
    total ← ok_or (checked_add acc.2 n) (new_error QuotaExceeded "change feed size overflow");
    Ok (acc.1 ++ [record], total).

(** The outer loop; [None] when an index panics. *)
Fixpoint collect_records (previous next : TenantState) (acc : list ChangeRecord * N)
    (changed : list (string * gset string)) : option (Result (list ChangeRecord * N)) :=
  match changed with
  | [] => Some (Ok acc)
  | (collection, ids) :: changed' =>
      match collections previous !! collection, collections next !! collection with
      | Some old, Some new =>
          match try_fold (collect_record collection old new) acc (set_iter ids) with
          | Ok acc' => collect_records previous next acc' changed'
          | Err e => Some (Err e)
          end
      | _, _ => None
      end
  end.

(** The feed part of [next] is mutated field by field. *)
Definition st_feed {A} (m : ST ChangeFeedState Error A) : ST TenantState Error A := λ s,
  let '(f, r) := m (change_feed s) in (set_change_feed f s, r).

(** The rest of [append], for a nonempty list of records. *)
Definition publish (rs : list ChangeRecord) (bytes_of_records : N) : ST TenantState Error unit :=
  s ← st_get;
  let feed := change_feed s in
  let commit := {| cc_revision := revision s; first_sequence := next_sequence feed;
                   records := rs; record_bytes := bytes_of_records |} in
  bytes ← st_lift (entry_bytes (first_sequence commit) commit);
  st_lift (reject_if ((max_feed_events (history (limits s)) <? len rs) ||
                      (max_feed_bytes (history (limits s)) <? bytes))
    (new_error QuotaExceeded "complete transaction exceeds change feed retention capacity"));;
  sequence ← st_lift (ok_or (checked_add (next_sequence feed) (len rs))
    (new_error QuotaExceeded "change feed sequence exhausted"));
  st_feed (st_modify (set_next_sequence sequence));;
  count ← st_lift (ok_or (checked_add (event_count feed) (len rs))
    (new_error QuotaExceeded "change feed count overflow"));
  st_feed (st_modify (set_event_count count));;
  total ← st_lift (ok_or (checked_add (encoded_commit_bytes feed) bytes)
    (new_error QuotaExceeded "change feed byte overflow"));
  st_feed (st_modify (set_encoded_commit_bytes total));;
  st_feed (st_modify (λ f, set_commits (<[first_sequence commit := commit]> (commits f)) f));;
  st_feed (trim (history (limits s))).

(** [append]. *)
Definition append (previous next : TenantState) (changed : gmap string (gset string)) :
    option (TenantState * Result unit) :=
  match collect_records previous next ([], 0) (map_iter changed) with
  | None => None
  | Some (Err e) => Some (next, Err e)
  | Some (Ok ([], _)) => Some (next, Ok tt)
  | Some (Ok (rs, n)) => Some (publish rs n next)
  end.

(** ** The check of a restored feed *)

(** The loop over the records of a commit: the identities seen and the bytes. *)
Definition check_record (s : TenantState) (c : ChangeCommit)
    (acc : gset (string * string) * N) (r : ChangeRecord) : Result (gset (string * string) * N) :=
  validate_name (cr_collection r);;
  validate_name (cr_id r);;
  if negb (bool_decide (is_Some (collections s !! cr_collection r))) ||
     bool_decide ((cr_collection r, cr_id r) ∈ acc.1) ||
     match cr_document r with
     | Some d => negb (bool_decide (slot_id d = cr_id r)) || negb (slot_version d =? cc_revision c)
     | None => false
     end
  then fail Corruption "invalid retained change record"
  else
    n ← change_record_bytes r;
    total ← ok_or (checked_add acc.2 n) (new_error Corruption "change feed record overflow");
    Ok ({[(cr_collection r, cr_id r)]} ∪ acc.1, total).

(** The local variables of the loop of [validate_restored]. *)
Record FeedScan := { fs_expected : N; fs_revision : N; fs_count : N; fs_bytes : N }.

Definition check_commit (s : TenantState) (a : FeedScan) (kv : N * ChangeCommit) : Result FeedScan :=
  let '(sequence, c) := kv in
  if negb (sequence =? fs_expected a) || negb (first_sequence c =? sequence) ||
     (len (records c) =? 0) || (cc_revision c <=? fs_revision a) || (revision s <? cc_revision c)
  then fail Corruption "change feed sequence or revision mismatch"
  else
    seen ← try_fold (check_record s c) (∅, 0) (records c);
    if negb (seen.2 =? record_bytes c) then fail Corruption "change record accounting mismatch"
    else
      expected ← ok_or (checked_add (fs_expected a) (len (records c)))
        (new_error Corruption "change feed sequence overflow");
      count ← ok_or (checked_add (fs_count a) (len (records c)))
        (new_error Corruption "change feed count overflow");
      n ← entry_bytes sequence c;
      bytes ← ok_or (checked_add (fs_bytes a) n) (new_error Corruption "change feed byte overflow");
      Ok {| fs_expected := expected; fs_revision := cc_revision c; fs_count := count;
            fs_bytes := bytes |}.

(** [validate_restored]. *)
Definition validate_feed (s : TenantState) : Result unit :=
  let feed := change_feed s in
  if (next_sequence feed =? 0) || feed_over (history (limits s)) feed
  then fail Corruption "change feed outside limits"
  else
    a ← try_fold (check_commit s)
      {| fs_expected := first_available_sequence feed; fs_revision := 0; fs_count := 0;
         fs_bytes := 0 |} (map_iter (commits feed));
    if negb (fs_expected a =? next_sequence feed) || negb (fs_count a =? event_count feed) ||
       negb (fs_bytes a =? encoded_commit_bytes feed)
    then fail Corruption "change feed accounting mismatch"
    else Ok tt.
End feed.

(** ** Pages *)

Record ChangeFeedCursor := {
  fc_tenant : string;
  fc_incarnation : string;
  fc_principal : string;
  fc_collections : gset string;
  after_sequence : N;
}.

Inductive ChangeFeedStart :=
| Beginning
| Now
| After (cursor : ChangeFeedCursor).

Record ReadChangeFeed := {
  rf_collections : gset string;
  start : ChangeFeedStart;
  rf_limit : N;
}.

Record ChangeEvent := {
  ce_sequence : N;
  ce_revision : N;
  ordinal : N;
  commit_event_count : N;
  ce_collection : string;
  ce_id : string;
  ce_document : option Document;
}.

Inductive ChangeFeedPage :=
| Events (revision first_available_sequence head_sequence : N) (events : list ChangeEvent)
    (next : ChangeFeedCursor) (caught_up : bool)
| RetentionGap (first_available_sequence head_sequence requested_after_sequence : N).

#[export] Instance serialize_ChangeFeedCursor : Serialize ChangeFeedCursor := λ c,
  VObject [("tenant", to_value (fc_tenant c)); ("incarnation", to_value (fc_incarnation c));
           ("principal", to_value (fc_principal c));
           ("collections", to_value (set_iter (fc_collections c)));
           ("after_sequence", to_value (after_sequence c))].

(** [BorrowedEvent] has the fields of the event. *)
#[export] Instance serialize_ChangeEvent : Serialize ChangeEvent := λ e,
  VObject [("sequence", to_value (ce_sequence e)); ("revision", to_value (ce_revision e));
           ("ordinal", to_value (ordinal e));
           ("commit_event_count", to_value (commit_event_count e));
           ("collection", to_value (ce_collection e)); ("id", to_value (ce_id e));
           ("document", to_value (ce_document e))].

(** [BorrowedEnvelope] without events. *)
Definition envelope (revision first_available head : N) (next : ChangeFeedCursor) : value :=
  VObject [("kind", VString "events"); ("revision", to_value revision);
           ("first_available_sequence", to_value first_available);
           ("head_sequence", to_value head); ("events", VArray []);
           ("next", to_value next); ("caught_up", VBool false)].

Class FeedWorkspace := {
  Memory : Type;
  (** [QueryMemory::reserve] and [QueryCancellation::check] *)
  reserve : N → ST Memory Error unit;
  poll : ST Memory Error unit;
  (** [change_feed_page_workspace_bytes], [change_event_clone_bytes] and
      [document_load_error] *)
  page_workspace : string → string → string → gset string → N → Result N;
  event_workspace : ChangeRecord → option Document → Result N;
  load_error : string → Error;
}.

(** A retained record with its position. *)
Record FeedItem := { it_sequence : N; it_ordinal : N; it_commit : ChangeCommit; it_record : ChangeRecord }.

Definition commit_items (kv : N * ChangeCommit) : list FeedItem :=
  imap (λ i r, {| it_sequence := first_sequence kv.2 + N.of_nat i; it_ordinal := N.of_nat i;
                  it_commit := kv.2; it_record := r |}) (records kv.2).

(** The commits the two nested loops visit: from the last one that starts at
    or before the next sequence number. *)
Definition start_commit (feed : ChangeFeedState) (after : N) : N :=
  match last (filter (λ kv, kv.1 ≤ after + 1) (map_iter (commits feed))) with
  | Some kv => kv.1
  | None => after + 1
  end.

Definition visited (feed : ChangeFeedState) (after : N) : list FeedItem :=
  filter (λ kv, start_commit feed after ≤ kv.1) (map_iter (commits feed)) ≫= commit_items.

(** The mutable variables of the loops. *)
Record PageLoop := { pl_bytes : N; pl_examined : N; pl_events : list ChangeEvent; pl_after : N }.

Section page.
Context `{Sha256} `{FeedWorkspace}.

Definition workspace_overflow : Error :=
  new_error ResourceExhausted "query workspace byte overflow".

(** The after-image of a record. *)
Definition load_document (resolver : Resolver) (r : ChangeRecord) : Result (option Document) :=
  match cr_document r with
  | None => Ok None
  | Some (Pending d) => Ok (Some d)
  | Some (Stored d) =>
      f ← ok_or resolver (new_error Unavailable "change feed document resolver is unavailable");
      Some <$> map_err load_error (load_stored f d)
  end.

Definition make_event (i : FeedItem) (d : option Document) : ChangeEvent :=
  {| ce_sequence := it_sequence i; ce_revision := cc_revision (it_commit i);
     ordinal := it_ordinal i; commit_event_count := len (records (it_commit i));
     ce_collection := cr_collection (it_record i); ce_id := cr_id (it_record i);
     ce_document := d |}.

(** The two nested loops, over the items in order. *)
Fixpoint scan_items (max_result : N) (resolver : Resolver) (scope : gset string)
    (after limit capacity : N) (items : list FeedItem) (p : PageLoop) : ST Memory Error PageLoop :=
  match items with
  | [] => mret p
  | i :: items' =>
      if it_sequence i <=? after then scan_items max_result resolver scope after limit capacity items' p
      else
        poll;;
        if (1000 <=? pl_examined p) || (limit <=? len (pl_events p)) then mret p
        else if negb (bool_decide (cr_collection (it_record i) ∈ scope)) then
          scan_items max_result resolver scope after limit capacity items'
            {| pl_bytes := pl_bytes p; pl_examined := pl_examined p + 1;
               pl_events := pl_events p; pl_after := it_sequence i |}
        else
          document ← st_lift (load_document resolver (it_record i));
          let event := make_event i document in
          n ← st_lift (encoded_len event);
          event_bytes ← st_lift (ok_or (checked_add n 1) workspace_overflow);
          match checked_add (pl_bytes p) event_bytes ≫=
                (λ total, if max_result <? total then None else Some total) with
          | None =>
              if len (pl_events p) =? 0
              then st_lift (fail ResourceExhausted "change event exceeds page byte budget")
              else mret p
          | Some total =>
              if len (pl_events p) =? capacity
              then st_lift (fail Corruption "change feed event count differs from committed metadata")
              else
                k ← st_lift (event_workspace (it_record i) document);
                reserve k;;
                scan_items max_result resolver scope after limit capacity items'
                  {| pl_bytes := total; pl_examined := pl_examined p + 1;
                     pl_events := pl_events p ++ [event]; pl_after := it_sequence i |}
          end
  end.

(** The start position. *)
Definition page_position (s : TenantState) (c : RequestContext) (r : ReadChangeFeed) (head : N) :
    Result N :=
  match start r with
  | Beginning => Ok 0
  | Now => Ok head
  | After k =>
      if negb (bool_decide (fc_tenant k = c_tenant c)) ||
         negb (bool_decide (fc_principal k = c_principal c)) ||
         negb (bool_decide (fc_incarnation k = incarnation s)) ||
         negb (bool_decide (fc_collections k = rf_collections r))
      then fail CursorExpired "change feed cursor identity or collection scope changed"
      else if head <? after_sequence k
      then fail InvalidArgument "change feed cursor is beyond committed head"
      else Ok (after_sequence k)
  end.

(** [build_change_feed_page]. *)
Definition build_change_feed_page (s : TenantState) (resolver : Resolver) (c : RequestContext)
    (r : ReadChangeFeed) : ST Memory Error ChangeFeedPage :=
  let feed := change_feed s in
  poll;;
  head ← st_lift (ok_or (checked_sub (next_sequence feed) 1)
    (new_error Corruption "change feed sequence is invalid"));
  after ← st_lift (page_position s c r head);
  let first := first_available_sequence feed in
  if after + 1 <? first then mret (RetentionGap first head after)
  else
    let capacity := if after =? head then 0 else N.min (N.min (rf_limit r) (event_count feed)) 1000 in
    let next := {| fc_tenant := c_tenant c; fc_incarnation := incarnation s;
                   fc_principal := c_principal c; fc_collections := rf_collections r;
                   after_sequence := after |} in
    k ← st_lift (page_workspace (c_tenant c) (incarnation s) (c_principal c) (rf_collections r)
                   capacity);
    reserve k;;
    n ← st_lift (encoded_len (envelope (revision s) first head next));
    bytes ← st_lift (ok_or (checked_add n 32) workspace_overflow);
    st_lift (reject_if (max_result_bytes (limits s) <? bytes)
      (new_error ResourceExhausted "change feed cursor exceeds result budget"));;
    p ← scan_items (max_result_bytes (limits s)) resolver (rf_collections r) after (rf_limit r)
          capacity (visited feed after)
          {| pl_bytes := bytes; pl_examined := 0; pl_events := []; pl_after := after |};
    poll;;
    mret (Events (revision s) first head (pl_events p)
      {| fc_tenant := c_tenant c; fc_incarnation := incarnation s;
         fc_principal := c_principal c; fc_collections := rf_collections r;
         after_sequence := pl_after p |}
      (pl_after p =? head)).
End page.

(** ** Retention drops whole commits, oldest first *)

(** The bytes a commit occupies, and the feed totals. *)
Definition entry_weight (kv : N * ChangeCommit) : N :=
  match entry_bytes kv.1 kv.2 with Ok n => n | Err _ => 0 end.

Definition entry_events (kv : N * ChangeCommit) : N := len (records kv.2).

Definition entry_ok (kv : N * ChangeCommit) : Prop := ∃ n, entry_bytes kv.1 kv.2 = Ok n.

Definition feed_sums (f : ChangeFeedState) : Prop :=
  event_count f = lsum entry_events (map_iter (commits f)) ∧
  encoded_commit_bytes f = lsum entry_weight (map_iter (commits f)) ∧
  Forall entry_ok (map_iter (commits f)).

(** The reference: the longest suffix of commits within the limits. *)
Definition over (limits : HistoryLimits) (l : list (N * ChangeCommit)) : bool :=
  (max_feed_events limits <? lsum entry_events l) || (max_feed_bytes limits <? lsum entry_weight l).

Fixpoint retained (limits : HistoryLimits) (l : list (N * ChangeCommit)) :
    list (N * ChangeCommit) :=
  if over limits l then match l with [] => [] | _ :: l' => retained limits l' end else l.

Lemma feed_over_sums limits f :
  feed_sums f → feed_over limits f = over limits (map_iter (commits f)).
Proof. unfold feed_over, over. by intros (-> & -> & _). Qed.

Lemma over_nil limits : over limits [] = false.
Proof. unfold over. rewrite !lsum_nil. apply orb_false_iff. split; apply N.ltb_ge; lia. Qed.

Lemma retained_suffix limits l : ∃ dropped, l = dropped ++ retained limits l.
Proof.
  induction l as [|x l [d IH]]; cbn [retained]; [exists []; by case_match|].
  destruct (over limits (x :: l)); [|by exists []]. exists (x :: d). cbn. by f_equal.
Qed.

Lemma retained_within limits l : over limits (retained limits l) = false.
Proof.
  induction l as [|x l IH]; cbn [retained]; [by rewrite !over_nil|].
  by destruct (over limits (x :: l)) eqn:Ho.
Qed.

(** A suffix that fits is retained whole. *)
Lemma retained_keeps limits l1 l2 :
  over limits l2 = false → ∃ d, retained limits (l1 ++ l2) = d ++ l2.
Proof.
  intros Ho. induction l1 as [|x l1 [d IH]].
  - exists []. destruct l2; cbn [app retained]; by rewrite Ho.
  - cbn [app retained]. destruct (over limits (x :: l1 ++ l2)); [by exists d|by exists (x :: l1)].
Qed.

Lemma trim_step_run f k c n count bytes :
  get_min (commits f) = Some (k, c) → entry_bytes k c = Ok n →
  checked_sub (event_count f) (len (records c)) = Some count →
  checked_sub (encoded_commit_bytes f) n = Some bytes →
  trim_step f = (set_commits (delete k (commits f))
    (set_encoded_commit_bytes bytes (set_event_count count f)), Ok tt).
Proof.
  intros Hmin Hn Hc Hb. unfold trim_step. rewrite st_bind_get.
  rewrite (st_bind_lift _ _ _ (k, c)) by by apply ok_or_Ok.
  rewrite (st_bind_lift _ _ _ count) by by apply ok_or_Ok.
  rewrite st_bind_modify, (st_bind_lift _ _ _ n) by done.
  rewrite (st_bind_lift _ _ _ bytes) by by apply ok_or_Ok.
  by rewrite st_bind_modify.
Qed.

Lemma entry_weight_Ok k c n : entry_bytes k c = Ok n → entry_weight (k, c) = n.
Proof. intros Hn. unfold entry_weight. cbn [fst snd]. by rewrite Hn. Qed.

Lemma trim_step_Ok f kv l :
  map_iter (commits f) = kv :: l → feed_sums f →
  ∃ f', trim_step f = (f', Ok tt) ∧ next_sequence f' = next_sequence f ∧
    map_iter (commits f') = l ∧ feed_sums f'.
Proof.
  destruct kv as [k c]. intros Hl (He & Hb & Hok). rewrite Hl, lsum_cons in He, Hb.
  rewrite Hl in Hok. apply Forall_cons in Hok as [[n Hn] Hok]. rewrite (entry_weight_Ok k c n Hn) in Hb.
  eexists. split.
  { apply (trim_step_run f k c n (lsum entry_events l) (lsum entry_weight l)).
    - unfold get_min. by rewrite Hl.
    - exact Hn.
    - apply checked_sub_Some. rewrite He. change (entry_events (k, c)) with (len (records c)). lia.
    - apply checked_sub_Some. lia. }
  apply map_iter_delete_min in Hl. unfold feed_sums.
  cbn [event_count encoded_commit_bytes commits set_commits set_encoded_commit_bytes set_event_count].
  by rewrite Hl.
Qed.

(** The loop ends, with any fuel of at least one step per commit. *)
Lemma trim_loop_enough limits l : ∀ fuel f,
  map_iter (commits f) = l → (length l ≤ fuel)%nat → feed_sums f →
  ∃ f', trim_loop fuel limits f = (f', Ok tt) ∧ next_sequence f' = next_sequence f ∧
    map_iter (commits f') = retained limits l ∧ feed_sums f'.
Proof.
  induction l as [|kv l IH]; intros fuel f Hl Hfuel Hs.
  - exists f. cbn [retained]. rewrite over_nil. split; [|done].
    destruct fuel; cbn [trim_loop];
      by rewrite st_bind_get, (feed_over_sums _ _ Hs), Hl, over_nil.
  - destruct fuel as [|fuel]; [cbn in Hfuel; lia|]. cbn [trim_loop retained].
    rewrite st_bind_get, (feed_over_sums _ _ Hs), Hl.
    destruct (over limits (kv :: l)); [|by exists f].
    destruct (trim_step_Ok f kv l Hl Hs) as (f1 & Hstep & Hn & Hl1 & Hs1).
    destruct (IH fuel f1 Hl1) as (f2 & Hloop & Hn2 & Hl2 & Hs2); [cbn in Hfuel; lia|done|].
    exists f2. rewrite (st_bind_run _ _ _ _ _ Hstep). split; [exact Hloop|]. by rewrite Hn2.
Qed.

Lemma trim_Ok limits f :
  feed_sums f →
  ∃ f', trim limits f = (f', Ok tt) ∧ next_sequence f' = next_sequence f ∧
    map_iter (commits f') = retained limits (map_iter (commits f)) ∧ feed_sums f'.
Proof.
  intros Hs. apply (trim_loop_enough limits _ _ f eq_refl); [|done].
  rewrite map_iter_perm, length_map_to_list. lia.
Qed.

(** ** Publication *)

#[local] Opaque entry_bytes encoded_len.

Lemma st_feed_Ok {A} (m : ST ChangeFeedState Error A) s s' a :
  st_feed m s = (s', Ok a) ↔ ∃ f, m (change_feed s) = (f, Ok a) ∧ s' = set_change_feed f s.
Proof. unfold st_feed. destruct (m (change_feed s)) as [f r]. naive_solver. Qed.

(** The commit that publishes records at the current revision. *)
Definition new_commit (s : TenantState) (rs : list ChangeRecord) (n : N) : ChangeCommit :=
  {| cc_revision := revision s; first_sequence := next_sequence (change_feed s);
     records := rs; record_bytes := n |}.

(** The feed after the fields are updated and before retention. *)
Definition grown_feed (s : TenantState) (rs : list ChangeRecord) (n bytes : N) : ChangeFeedState :=
  let f := change_feed s in
  {| next_sequence := next_sequence f + len rs;
     commits := <[next_sequence f := new_commit s rs n]> (commits f);
     event_count := event_count f + len rs;
     encoded_commit_bytes := encoded_commit_bytes f + bytes |}.

Lemma publish_inv rs n s s' :
  publish rs n s = (s', Ok tt) →
  ∃ bytes f', entry_bytes (next_sequence (change_feed s)) (new_commit s rs n) = Ok bytes ∧
    len rs ≤ max_feed_events (history (limits s)) ∧ bytes ≤ max_feed_bytes (history (limits s)) ∧
    next_sequence (change_feed s) + len rs ≤ u64_max ∧
    trim (history (limits s)) (grown_feed s rs n bytes) = (f', Ok tt) ∧ s' = set_change_feed f' s.
Proof.
  unfold publish. rewrite st_bind_get. fold (new_commit s rs n). intros Hp.
  apply st_bind_Ok in Hp as (s1 & bytes & [-> Hb]%st_lift_Ok & Hp).
  apply st_bind_Ok in Hp as (s1 & [] & [-> Hq]%st_lift_Ok & Hp).
  apply st_bind_Ok in Hp as (s1 & sq & [-> Hsq]%st_lift_Ok & Hp).
  apply st_bind_Ok in Hp as (s1 & [] & (f1 & Hf1%st_modify_Ok & ->)%st_feed_Ok & Hp).
  apply st_bind_Ok in Hp as (s1 & count & [-> Hc]%st_lift_Ok & Hp).
  apply st_bind_Ok in Hp as (s1 & [] & (f2 & Hf2%st_modify_Ok & ->)%st_feed_Ok & Hp).
  apply st_bind_Ok in Hp as (s1 & total & [-> Ht]%st_lift_Ok & Hp).
  apply st_bind_Ok in Hp as (s1 & [] & (f3 & Hf3%st_modify_Ok & ->)%st_feed_Ok & Hp).
  apply st_bind_Ok in Hp as (s1 & [] & (f4 & Hf4%st_modify_Ok & ->)%st_feed_Ok & Hp).
  apply st_feed_Ok in Hp as (f' & Htrim & ->).
  apply reject_if_Ok, orb_false_iff in Hq as [Hq1 Hq2]. apply N.ltb_ge in Hq1, Hq2.
  apply ok_or_Ok, checked_add_Some in Hsq as [-> Hle], Hc as [-> _], Ht as [-> _].
  exists bytes, f'. split; [exact Hb|]. split; [done|]. split; [done|]. split; [done|].
  split; [|done]. subst f4 f3 f2 f1. exact Htrim.
Qed.

Definition feed_below (f : ChangeFeedState) : Prop :=
  ∀ k c, commits f !! k = Some c → k < next_sequence f.

Lemma grown_feed_entries s rs n bytes :
  feed_below (change_feed s) →
  map_iter (commits (grown_feed s rs n bytes)) =
  map_iter (commits (change_feed s)) ++ [(next_sequence (change_feed s), new_commit s rs n)].
Proof.
  intros Hb. cbn [commits grown_feed]. apply map_iter_insert_max.
  - destruct (commits (change_feed s) !! _) eqn:Hk; [|done]. apply Hb in Hk. lia.
  - intros k c Hk%Hb. unfold key_le. cbn. lia.
Qed.

Lemma grown_feed_sums s rs n bytes :
  feed_below (change_feed s) → feed_sums (change_feed s) →
  entry_bytes (next_sequence (change_feed s)) (new_commit s rs n) = Ok bytes →
  feed_sums (grown_feed s rs n bytes).
Proof.
  intros Hb (He & Hw & Hok) Hn. unfold feed_sums. rewrite (grown_feed_entries _ _ _ _ Hb).
  rewrite !lsum_app, !lsum_cons, !lsum_nil, (entry_weight_Ok _ _ _ Hn), Forall_app.
  cbn [event_count encoded_commit_bytes grown_feed]. rewrite He, Hw.
  unfold entry_events at 3. cbn [fst snd records new_commit]. split; [lia|]. split; [lia|].
  split; [done|]. constructor; [by exists bytes|constructor].
Qed.

(** Publication appends one commit and then keeps the longest fitting suffix,
    which always contains the new commit. *)
Lemma publish_Ok rs n s s' :
  feed_below (change_feed s) → feed_sums (change_feed s) → publish rs n s = (s', Ok tt) →
  ∃ f', s' = set_change_feed f' s ∧
    next_sequence f' = next_sequence (change_feed s) + len rs ∧
    next_sequence f' ≤ u64_max ∧ feed_sums f' ∧
    map_iter (commits f') = retained (history (limits s)) (map_iter (commits (change_feed s)) ++
      [(next_sequence (change_feed s), new_commit s rs n)]) ∧
    over (history (limits s)) [(next_sequence (change_feed s), new_commit s rs n)] = false ∧
    entry_ok (next_sequence (change_feed s), new_commit s rs n).
Proof.
  intros Hb Hs (bytes & f' & Hn & Hev & Hby & Hseq & Ht & ->)%publish_inv.
  destruct (trim_Ok (history (limits s)) _ (grown_feed_sums _ _ _ _ Hb Hs Hn))
    as (f & Htrim & Hnext & Hl & Hsum).
  rewrite Htrim in Ht. injection Ht as <-. exists f. rewrite (grown_feed_entries _ _ _ _ Hb) in Hl.
  split; [done|]. split; [done|]. split; [by rewrite Hnext|]. split; [done|]. split; [done|].
  split; [|by exists bytes]. unfold over. rewrite !lsum_cons, !lsum_nil, (entry_weight_Ok _ _ _ Hn).
  unfold entry_events. cbn [fst snd records new_commit].
  apply orb_false_iff. split; apply N.ltb_ge; lia.
Qed.

(** ** The restored feed, as a proposition *)

Section valid.
Context `{Sha256}.

Definition record_key (r : ChangeRecord) : string * string := (cr_collection r, cr_id r).

Definition record_weight (r : ChangeRecord) : N :=
  match change_record_bytes r with Ok n => n | Err _ => 0 end.

Definition record_ok (s : TenantState) (rev : N) (r : ChangeRecord) : Prop :=
  validate_name (cr_collection r) = Ok tt ∧ validate_name (cr_id r) = Ok tt ∧
  is_Some (collections s !! cr_collection r) ∧
  (∀ d, cr_document r = Some d → slot_id d = cr_id r ∧ slot_version d = rev) ∧
  ∃ n, change_record_bytes r = Ok n.

Definition commit_ok (s : TenantState) (expected rev : N) (kv : N * ChangeCommit) : Prop :=
  kv.1 = expected ∧ first_sequence kv.2 = kv.1 ∧ 0 < len (records kv.2) ∧
  rev < cc_revision kv.2 ∧ cc_revision kv.2 ≤ revision s ∧
  Forall (record_ok s (cc_revision kv.2)) (records kv.2) ∧
  NoDup (record_key <$> records kv.2) ∧
  record_bytes kv.2 = lsum record_weight (records kv.2) ∧ record_bytes kv.2 ≤ u64_max ∧
  entry_ok kv.

Fixpoint chain (s : TenantState) (expected rev : N) (l : list (N * ChangeCommit)) : Prop :=
  match l with
  | [] => True
  | kv :: l' =>
      commit_ok s expected rev kv ∧ chain s (expected + entry_events kv) (cc_revision kv.2) l'
  end.

Definition last_revision (rev : N) (l : list (N * ChangeCommit)) : N :=
  foldl (λ _ kv, cc_revision kv.2) rev l.

#[local] Opaque change_record_bytes.

Lemma record_weight_Ok r n : change_record_bytes r = Ok n → record_weight r = n.
Proof. unfold record_weight. by intros ->. Qed.

Lemma check_record_Ok s c seen b r acc :
  check_record s c (seen, b) r = Ok acc ↔
  record_ok s (cc_revision c) r ∧ ¬ record_key r ∈ seen ∧
  acc = ({[record_key r]} ∪ seen, b + record_weight r) ∧ b + record_weight r ≤ u64_max.
Proof.
  unfold check_record, record_ok. cbn [fst snd]. rewrite !seq_Ok, reject_Ok, !orb_false_iff.
  rewrite negb_false_iff, bool_decide_eq_true, bool_decide_eq_false.
  assert (Hdoc : match cr_document r with
      | Some d => negb (bool_decide (slot_id d = cr_id r)) || negb (slot_version d =? cc_revision c)
      | None => false end = false ↔
    ∀ d, cr_document r = Some d → slot_id d = cr_id r ∧ slot_version d = cc_revision c).
  { destruct (cr_document r) as [d|]; [|naive_solver].
    rewrite orb_false_iff, !negb_false_iff, bool_decide_eq_true, N.eqb_eq. naive_solver. }
  rewrite Hdoc, bind_Ok. split.
  - intros (Hc & Hi & [[Hs Hk] Hd] & n & Hn & Hr). inv_ok. inv_guards.
    rewrite (record_weight_Ok _ _ Hn).
    split; [by split_and!; [..|by exists n]|]. by split_and!.
  - intros ((Hc & Hi & Hs & Hd & n & Hn) & Hk & -> & Hle). rewrite (record_weight_Ok _ _ Hn) in *.
    split; [done|]. split; [done|]. split; [done|]. exists n. split; [done|].
    apply bind_Ok. exists (b + n). split; [by apply ok_or_Ok, checked_add_Some|done].
Qed.

Lemma check_records_Ok s c l : ∀ seen b acc, b ≤ u64_max →
  try_fold (check_record s c) (seen, b) l = Ok acc ↔
  Forall (record_ok s (cc_revision c)) l ∧ NoDup (record_key <$> l) ∧
  (∀ r, r ∈ l → ¬ record_key r ∈ seen) ∧
  acc = (foldl (λ seen r, {[record_key r]} ∪ seen) seen l, b + lsum record_weight l) ∧
  b + lsum record_weight l ≤ u64_max.
Proof.
  induction l as [|r l IH]; intros seen b acc Hb.
  { rewrite try_fold_nil, lsum_nil, N.add_0_r. csimpl. rewrite Forall_nil, NoDup_nil.
    split; [intros [= <-]; split_and!; try done; by intros ? ?%elem_of_nil|naive_solver]. }
  rewrite try_fold_cons, bind_Ok, lsum_cons, N.add_assoc. csimpl. rewrite Forall_cons, NoDup_cons.
  split.
  - intros (acc1 & Hr & Hf). apply check_record_Ok in Hr as (Hok & Hk & -> & Hle).
    apply IH in Hf as (Hl & Hnd & Hdis & -> & Hsum); [|done]. split_and!; try done.
    + intros (r' & Heq & Hin)%list_elem_of_fmap. apply (Hdis r' Hin). rewrite <-Heq. set_solver.
    + intros r' [->|Hin]%elem_of_cons; [done|]. intros Hbad. apply (Hdis r' Hin). set_solver.
  - intros ([Hok Hl] & [Hk Hnd] & Hdis & -> & Hsum).
    exists ({[record_key r]} ∪ seen, b + record_weight r). split.
    + apply check_record_Ok. split_and!; try done; [apply Hdis; by constructor|lia].
    + apply IH; [lia|]. split_and!; try done.
      intros r' Hin [Heq%elem_of_singleton|Hbad]%elem_of_union.
      * apply Hk. rewrite <-Heq. by apply list_elem_of_fmap_2.
      * apply (Hdis r'); [by constructor|done].
Qed.

Definition scan_bounded (a : FeedScan) : Prop :=
  fs_expected a ≤ u64_max ∧ fs_count a ≤ u64_max ∧ fs_bytes a ≤ u64_max.

Definition scanned (a : FeedScan) (l : list (N * ChangeCommit)) : FeedScan :=
  {| fs_expected := fs_expected a + lsum entry_events l;
     fs_revision := last_revision (fs_revision a) l;
     fs_count := fs_count a + lsum entry_events l;
     fs_bytes := fs_bytes a + lsum entry_weight l |}.

Ltac cbn_scan := cbn [fs_expected fs_revision fs_count fs_bytes scanned].
Tactic Notation "cbn_scan" "in" hyp_list(Hs) :=
  cbn [fs_expected fs_revision fs_count fs_bytes scanned] in Hs.

Lemma check_commit_Ok s a k c a' :
  check_commit s a (k, c) = Ok a' ↔
  commit_ok s (fs_expected a) (fs_revision a) (k, c) ∧ a' = scanned a [(k, c)] ∧ scan_bounded a'.
Proof.
  unfold check_commit, commit_ok, entry_ok, scanned. cbn [fst snd].
  rewrite reject_Ok, !orb_false_iff, !negb_false_iff, !N.eqb_eq, N.eqb_neq, N.leb_gt, N.ltb_ge.
  rewrite !lsum_cons, !lsum_nil, !N.add_0_r. unfold entry_events. cbn [fst snd last_revision foldl].
  rewrite bind_Ok. split.
  - intros (((((Hk & Hf) & Hlen) & Hlo) & Hhi) & acc & Hr & Hrest).
    apply check_records_Ok in Hr as (Hall & Hnd & _ & -> & Hle); [|unfold u64_max; lia].
    cbn [fst snd] in Hrest. rewrite N.add_0_l in *.
    apply reject_Ok in Hrest as [Hrb%negb_false_iff%N.eqb_eq Hrest]. inv_ok. inv_guards.
    select (entry_bytes _ _ = Ok _) (fun H => rename H into Hn).
    rewrite (entry_weight_Ok _ _ _ Hn). unfold scan_bounded. cbn [fs_expected fs_count fs_bytes].
    split; [|done]. split_and!; try done; [lia|congruence|by eexists].
  - intros ((Hk & Hf & Hlen & Hlo & Hhi & Hall & Hnd & Hrb & Hle & n & Hn) & -> & He & Hc & Hb).
    rewrite (entry_weight_Ok _ _ _ Hn) in *. cbn [fs_expected fs_count fs_bytes] in *.
    split; [split_and!; try done; lia|].
    eexists. split.
    { apply check_records_Ok; [unfold u64_max; lia|]. split; [done|]. split; [done|].
      split; [intros r _; apply not_elem_of_empty|]. split; [reflexivity|lia]. }
    cbn [fst snd]. apply reject_Ok. split; [apply negb_false_iff, N.eqb_eq; lia|].
    apply bind_Ok. eexists. split; [by apply ok_or_Ok, checked_add_Some|].
    apply bind_Ok. eexists. split; [by apply ok_or_Ok, checked_add_Some|].
    apply bind_Ok. exists n. split; [done|].
    apply bind_Ok. eexists. split; [by apply ok_or_Ok, checked_add_Some|done].
Qed.

Lemma check_commits_Ok s l : ∀ a a', scan_bounded a →
  try_fold (check_commit s) a l = Ok a' ↔
  chain s (fs_expected a) (fs_revision a) l ∧ a' = scanned a l ∧ scan_bounded a'.
Proof.
  induction l as [|[k c] l IH]; intros a a' Hb.
  { rewrite try_fold_nil. unfold scanned. rewrite !lsum_nil, !N.add_0_r. destruct a. cbn_scan.
    naive_solver. }
  rewrite try_fold_cons, bind_Ok. cbn [chain].
  assert (Hsc : scanned (scanned a [(k, c)]) l = scanned a ((k, c) :: l)).
  { unfold scanned. cbn_scan. rewrite !lsum_cons, !lsum_nil, !N.add_0_r, !N.add_assoc. done. }
  assert (Hex : fs_expected (scanned a [(k, c)]) = fs_expected a + entry_events (k, c)).
  { cbn_scan. by rewrite lsum_cons, lsum_nil, N.add_0_r. }
  split.
  - intros (a1 & (Hok & -> & Hb1)%check_commit_Ok & Hf). apply IH in Hf as (Hch & -> & Hb2); [|done].
    rewrite Hsc in *. rewrite Hex in Hch. by split_and!.
  - intros ((Hok & Hch) & -> & Hb2). exists (scanned a [(k, c)]). rewrite <-Hsc in *.
    assert (scan_bounded (scanned a [(k, c)])).
    { unfold scan_bounded, scanned in *. cbn [fs_expected fs_count fs_bytes] in *. lia. }
    split; [by apply check_commit_Ok|]. apply IH; [done|]. by rewrite Hex.
Qed.

Definition feed_valid (s : TenantState) : Prop :=
  let f := change_feed s in let l := map_iter (commits f) in
  0 < next_sequence f ∧ feed_sums f ∧ over (history (limits s)) l = false ∧
  chain s (first_available_sequence f) 0 l ∧
  next_sequence f = first_available_sequence f + lsum entry_events l.

(** The machine types of the counters of the feed. *)
Definition feed_fits (s : TenantState) : Prop :=
  next_sequence (change_feed s) ≤ u64_max ∧
  max_feed_events (history (limits s)) ≤ u64_max ∧ max_feed_bytes (history (limits s)) ≤ u64_max.

Lemma chain_entries_ok s e r l : chain s e r l → Forall entry_ok l.
Proof.
  revert e r. induction l as [|kv l IH]; intros e r; [constructor|].
  intros (Hok & Hch). constructor; [apply Hok|by eapply IH].
Qed.

Lemma first_available_le s :
  feed_valid s → first_available_sequence (change_feed s) ≤ next_sequence (change_feed s).
Proof. intros (_ & _ & _ & _ & ->). lia. Qed.

Lemma validate_feed_Ok s : feed_fits s → validate_feed s = Ok tt ↔ feed_valid s.
Proof.
  intros (Hns & Hme & Hmb). unfold validate_feed, feed_valid, feed_sums.
  rewrite reject_Ok, orb_false_iff, N.eqb_neq, bind_Ok. unfold feed_over, over.
  rewrite !orb_false_iff, !N.ltb_ge.
  assert (Hfa : first_available_sequence (change_feed s) ≤ u64_max →
    scan_bounded {| fs_expected := first_available_sequence (change_feed s); fs_revision := 0;
                    fs_count := 0; fs_bytes := 0 |}).
  { unfold scan_bounded. cbn. unfold u64_max. lia. }
  split.
  - intros ((Hz & Hev & Hby) & a & Hf & [Hg _]%reject_Ok).
    rewrite !orb_false_iff, !negb_false_iff, !N.eqb_eq in Hg. destruct Hg as ((He & Hc) & Hb).
    assert (Hle : first_available_sequence (change_feed s) ≤ u64_max).
    { destruct (map_iter (commits (change_feed s))) as [|[k c] l] eqn:Hl.
      - unfold first_available_sequence, get_min. by rewrite Hl.
      - rewrite try_fold_cons in Hf. apply bind_Ok in Hf as (a1 & Hf & _).
        apply check_commit_Ok in Hf as (_ & -> & (Hle & _)). cbn_scan in Hle. lia. }
    apply check_commits_Ok in Hf as (Hch & -> & _); [|auto]. cbn_scan in He Hc Hb.
    pose proof (chain_entries_ok _ _ _ _ Hch). split_and!; try done; lia.
  - intros (Hz & (Hc & Hb & Hok) & [Hev Hby] & Hch & He). split; [split; [lia|split; lia]|].
    eexists. split.
    { apply check_commits_Ok; [apply Hfa; lia|]. split; [done|]. split; [reflexivity|].
      unfold scan_bounded. cbn_scan. lia. }
    apply reject_Ok. split; [|done]. cbn_scan.
    rewrite !orb_false_iff, !negb_false_iff, !N.eqb_eq. lia.
Qed.

(** *** Chains *)

Lemma chain_app s l1 l2 : ∀ e r,
  chain s e r (l1 ++ l2) ↔
  chain s e r l1 ∧ chain s (e + lsum entry_events l1) (last_revision r l1) l2.
Proof.
  induction l1 as [|kv l1 IH]; intros e r.
  - cbn. by rewrite N.add_0_r, (left_id True and).
  - cbn [app chain]. rewrite IH, lsum_cons, N.add_assoc. cbn. by rewrite (assoc and).
Qed.

Lemma chain_weaken s e r r' l : r' ≤ r → chain s e r l → chain s e r' l.
Proof.
  destruct l as [|kv l]; [done|]. intros Hr ((H1 & H2 & H3 & H4 & H5) & Hch).
  split; [|done]. split_and!; try done; [lia|naive_solver..].
Qed.

Lemma chain_mono s s' l : ∀ e r,
  revision s ≤ revision s' →
  (∀ n, is_Some (collections s !! n) → is_Some (collections s' !! n)) →
  chain s e r l → chain s' e r l.
Proof.
  induction l as [|kv l IH]; intros e r Hr Hc; [done|].
  intros ((H1 & H2 & H3 & H4 & H5 & H6 & H7) & Hch). split; [|by apply IH].
  split_and!; try done; [lia| |naive_solver..].
  eapply Forall_impl; [exact H6|]. intros rec (Hn & Hi & Hs & Hd). split_and!; auto; naive_solver.
Qed.

Lemma chain_last_le s l : ∀ e r, chain s e r l → r ≤ revision s → last_revision r l ≤ revision s.
Proof.
  induction l as [|kv l IH]; intros e r; [done|].
  intros ((_ & _ & _ & _ & Hle & _) & Hch) Hr. by eapply IH.
Qed.

Lemma chain_keys s l : ∀ e r kv, chain s e r l → kv ∈ l →
  e ≤ kv.1 ∧ kv.1 + entry_events kv ≤ e + lsum entry_events l ∧ 0 < entry_events kv.
Proof.
  induction l as [|kv' l IH]; intros e r kv Hch Hin; [by apply elem_of_nil in Hin|].
  destruct Hch as ((Hk & _ & Hlen & _) & Hch). rewrite lsum_cons. unfold entry_events in *.
  apply elem_of_cons in Hin as [->|Hin]; [lia|]. specialize (IH _ _ _ Hch Hin). lia.
Qed.

Lemma feed_valid_below s : feed_valid s → feed_below (change_feed s).
Proof.
  intros (_ & _ & _ & Hch & Hn) k c Hk%elem_of_map_iter.
  destruct (chain_keys _ _ _ _ _ Hch Hk) as (_ & Hle & Hlt). cbn [fst] in Hle. lia.
Qed.

Lemma first_available_head f kv l :
  map_iter (commits f) = kv :: l → first_available_sequence f = kv.1.
Proof. unfold first_available_sequence, get_min. intros ->. by destruct kv. Qed.

Lemma first_available_empty f : map_iter (commits f) = [] → first_available_sequence f = next_sequence f.
Proof. unfold first_available_sequence, get_min. by intros ->. Qed.

(** Keeping a suffix of a valid chain keeps a valid feed. *)
Lemma feed_valid_suffix s d e r :
  let f := change_feed s in let l := map_iter (commits f) in
  0 < next_sequence f → feed_sums f → over (history (limits s)) l = false →
  chain s e r (d ++ l) → next_sequence f = e + lsum entry_events (d ++ l) → feed_valid s.
Proof.
  intros f l Hz Hs Ho Hch Hn. subst f l. rewrite lsum_app, N.add_assoc in Hn.
  apply chain_app in Hch as [_ Hch]. unfold feed_valid. split; [done|]. split; [done|].
  split; [done|].
  destruct (map_iter (commits (change_feed s))) as [|kv l] eqn:Hl.
  - rewrite first_available_empty by done. split; [done|]. rewrite lsum_nil. lia.
  - rewrite (first_available_head _ kv l) by done.
    destruct Hch as (Hok & Hch). pose proof (proj1 Hok) as Hk. rewrite Hk.
    split; [|done]. eapply chain_weaken; [apply N.le_0_l|]. by split.
Qed.
End valid.

(** ** The records of a batch *)

Section records.
Context `{Sha256}.
#[local] Opaque change_record_bytes.

(** The record a changed identity contributes. *)
Definition change_of (previous next : TenantState) (t : string * string) : option ChangeRecord :=
  if bool_decide (slot_version <$> find_document previous t = slot_version <$> find_document next t)
  then None
  else Some {| cr_collection := t.1; cr_id := t.2; cr_document := find_document next t |}.

Lemma change_of_at previous next c old new id :
  collections previous !! c = Some old → collections next !! c = Some new →
  change_of previous next (c, id) =
  if bool_decide (slot_version <$> documents old !! id = slot_version <$> documents new !! id)
  then None else Some {| cr_collection := c; cr_id := id; cr_document := documents new !! id |}.
Proof. intros Ho Hn. unfold change_of, find_document. cbn [fst snd]. by rewrite Ho, Hn. Qed.

Definition changed_keys (l : list (string * gset string)) : list (string * string) :=
  l ≫= λ kv, pair kv.1 <$> set_iter kv.2.

Lemma collect_ids_Ok previous next c old new ids : ∀ rs n rs' n',
  collections previous !! c = Some old → collections next !! c = Some new → n ≤ u64_max →
  try_fold (collect_record c old new) (rs, n) ids = Ok (rs', n') →
  let l := omap (change_of previous next) (pair c <$> ids) in
  rs' = rs ++ l ∧ n' = n + lsum record_weight l ∧ n' ≤ u64_max ∧
  Forall (λ r, ∃ b, change_record_bytes r = Ok b) l.
Proof.
  intros rs n rs' n' Ho Hn Hb. revert rs n Hb.
  induction ids as [|id ids IH]; intros rs n Hb Hf l; subst l.
  { rewrite try_fold_nil in Hf. injection Hf as <- <-. cbn. rewrite app_nil_r, N.add_0_r.
    by split_and!. }
  rewrite try_fold_cons in Hf. apply bind_Ok in Hf as ([rs1 n1] & Hc & Hf).
  assert (Hx : omap (change_of previous next) (pair c <$> id :: ids) =
    match change_of previous next (c, id) with
    | Some y => y :: omap (change_of previous next) (pair c <$> ids)
    | None => omap (change_of previous next) (pair c <$> ids) end) by done.
  rewrite Hx, (change_of_at _ _ _ _ _ _ Ho Hn). clear Hx.
  unfold collect_record in Hc. cbn [fst snd] in Hc.
  case_bool_decide as Hv.
  - injection Hc as <- <-. by apply IH.
  - apply bind_Ok in Hc as (b & Hrec & Hc).
    apply bind_Ok in Hc as (tot & Htot%ok_or_Ok%checked_add_Some & Hc). destruct Htot as [-> Hle].
    injection Hc as <- <-. apply IH in Hf as (-> & -> & Hle' & Hall); [|done].
    rewrite lsum_cons, (record_weight_Ok _ _ Hrec), N.add_assoc in *. rewrite <-app_assoc.
    split_and!; try done. constructor; [by exists b|done].
Qed.

Lemma collect_records_Ok previous next l : ∀ rs n rs' n',
  n ≤ u64_max → collect_records previous next (rs, n) l = Some (Ok (rs', n')) →
  let k := omap (change_of previous next) (changed_keys l) in
  rs' = rs ++ k ∧ n' = n + lsum record_weight k ∧ n' ≤ u64_max ∧
  Forall (λ r, ∃ b, change_record_bytes r = Ok b) k.
Proof.
  induction l as [|[c ids] l IH]; intros rs n rs' n' Hb Hf k; subst k.
  { injection Hf as <- <-. cbn. rewrite app_nil_r, N.add_0_r. by split_and!. }
  cbn [collect_records] in Hf.
  destruct (collections previous !! c) as [old|] eqn:Ho; [|done].
  destruct (collections next !! c) as [new|] eqn:Hn; [|done].
  destruct (try_fold _ _ _) as [[rs1 n1]|e] eqn:Hids; [|done].
  apply (collect_ids_Ok previous next) in Hids as (-> & -> & Hle & Hall); [|done..].
  apply IH in Hf as (-> & -> & Hle' & Hall'); [|done].
  unfold changed_keys. cbn [mbind list_bind fst snd]. rewrite omap_app, lsum_app, N.add_assoc, app_assoc.
  split_and!; try done. by apply Forall_app.
Qed.

(** No index panics when the changed collections exist on both sides. *)
Lemma collect_records_total previous next l : ∀ acc,
  (∀ c ids, (c, ids) ∈ l → is_Some (collections previous !! c) ∧ is_Some (collections next !! c)) →
  is_Some (collect_records previous next acc l).
Proof.
  induction l as [|[c ids] l IH]; intros acc Hl; [by eexists|]. cbn [collect_records].
  destruct (Hl c ids) as [[old ->] [new ->]]; [by left|].
  destruct (try_fold _ _ _); [|by eexists]. apply IH. intros. apply Hl with ids0. by right.
Qed.

(** The keys of a batch are its targets, each once. *)
Lemma add_change_lookup changed m c id :
  id ∈ default ∅ (add_change changed m !! c) ↔ (c, id) = target m ∨ id ∈ default ∅ (changed !! c).
Proof.
  unfold add_change. destruct (target m) as [c' id']. destruct (decide (c = c')) as [->|Hne].
  - rewrite lookup_insert_eq. simpl. set_solver.
  - rewrite lookup_insert_ne by done. naive_solver.
Qed.

Lemma add_changes_lookup ops : ∀ changed c id,
  id ∈ default ∅ (foldl add_change changed ops !! c) ↔
  (c, id) ∈ target <$> ops ∨ id ∈ default ∅ (changed !! c).
Proof.
  induction ops as [|m ops IH]; intros changed c id.
  - cbn. rewrite elem_of_nil. naive_solver.
  - rewrite fmap_cons, elem_of_cons. cbn [foldl]. rewrite IH, add_change_lookup. tauto.
Qed.

Lemma elem_of_changed_keys (m : gmap string (gset string)) c id :
  (c, id) ∈ changed_keys (map_iter m) ↔ id ∈ default ∅ (m !! c).
Proof.
  unfold changed_keys. rewrite list_elem_of_bind. split.
  - intros ([c' ids] & (id' & [= -> ->] & Hid)%list_elem_of_fmap & Hin).
    apply elem_of_map_iter in Hin. cbn [fst snd] in *. rewrite Hin. simpl. by apply set_iter_elem.
  - destruct (m !! c) as [ids|] eqn:Hm; simpl; [|by intros ?%elem_of_empty]. intros Hid.
    exists (c, ids). split; [|by apply elem_of_map_iter].
    apply list_elem_of_fmap. exists id. split; [done|by apply set_iter_elem].
Qed.

Lemma batch_keys b t : t ∈ changed_keys (map_iter (batch_changes b)) ↔ t ∈ target <$> operations b.
Proof.
  destruct t as [c id]. rewrite elem_of_changed_keys. unfold batch_changes.
  rewrite add_changes_lookup, lookup_empty. simpl. set_solver.
Qed.

(** Every changed collection has a changed identity. *)
Lemma batch_changes_inhabited b c ids :
  batch_changes b !! c = Some ids → ∃ id, (c, id) ∈ target <$> operations b.
Proof.
  intros Hc. assert (Hne : ∀ ops changed, (∀ c ids, changed !! c = Some ids → ids ≠ ∅) →
    ∀ c ids, foldl add_change changed ops !! c = Some ids → ids ≠ ∅).
  { induction ops as [|m ops IH]; intros changed Hch; [done|]. apply IH. intros c' ids'.
    unfold add_change. destruct (target m) as [c0 id0].
    destruct (decide (c0 = c')) as [->|Hn].
    - rewrite lookup_insert_eq. intros [= <-]. set_solver.
    - rewrite lookup_insert_ne by done. apply Hch. }
  assert (Hids : ids ≠ ∅) by (eapply (Hne _ ∅); [|exact Hc]; by intros ? ? ?%lookup_empty_Some).
  apply set_choose_L in Hids as [id Hid]. exists id. apply batch_keys, elem_of_changed_keys.
  by rewrite Hc.
Qed.

Lemma changed_keys_NoDup (m : gmap string (gset string)) : NoDup (changed_keys (map_iter m)).
Proof.
  unfold changed_keys. pose proof (map_iter_NoDup m) as Hnd. revert Hnd.
  induction (map_iter m) as [|[c ids] l IH]; intros Hnd; [constructor|].
  csimpl in Hnd. apply NoDup_cons in Hnd as [Hc Hnd]. cbn [mbind list_bind fst snd].
  apply NoDup_app. split_and!; [|intros [c' id'] H1 H2|by apply IH].
  - apply NoDup_fmap_2; [by intros ? ? [=]|apply set_iter_NoDup].
  - apply list_elem_of_fmap in H1 as (? & [= -> ->] & _).
    apply list_elem_of_bind in H2 as ([c2 ids2] & (? & [= -> ->] & _)%list_elem_of_fmap & Hin).
    apply Hc. apply list_elem_of_fmap. by exists (c2, ids2).
Qed.
End records.

(** ** A batch and its publication *)

Section publication.
Context `{Sha256} `{QueryRules}.
#[local] Opaque change_record_bytes.

(** What publication relies on: [next] is [s] with the documents of [keys]
    changed at a later revision. *)
Record advanced (s next : TenantState) (keys : list (string * string)) : Prop := {
  adv_revision : revision s < revision next;
  adv_feed : change_feed next = change_feed s;
  adv_limits : limits next = limits s;
  adv_collections : ∀ n, is_Some (collections next !! n) ↔ is_Some (collections s !! n);
  adv_names : ∀ n, is_Some (collections s !! n) → validate_name n = Ok tt;
  adv_old : ∀ t d, find_document s t = Some d → slot_version d ≤ revision s;
  adv_kept : ∀ t, ¬ t ∈ keys → find_document next t = find_document s t;
  adv_keys : ∀ t, t ∈ keys → is_Some (collections s !! t.1) ∧ validate_name t.2 = Ok tt ∧
    ∀ d, find_document next t = Some d → slot_id d = t.2 ∧ slot_version d = revision next;
}.

(** Applying the records of a commit to the document stored under [t]. *)
Definition replay (rs : list ChangeRecord) (t : string * string) (old : option DocumentSlot) :
    option DocumentSlot :=
  match list_find (λ r, record_key r = t) rs with
  | Some (_, r) => cr_document r
  | None => old
  end.

Lemma change_of_Some s next t r :
  change_of s next t = Some r → record_key r = t ∧ cr_document r = find_document next t.
Proof.
  unfold change_of, record_key. case_bool_decide; [done|]. intros [= <-]. by destruct t.
Qed.

Lemma change_of_None s next keys t :
  advanced s next keys → change_of s next t = None → find_document next t = find_document s t.
Proof.
  intros Ha. unfold change_of. case_bool_decide as Hv; [|done]. intros _.
  destruct (decide (t ∈ keys)) as [Ht|Ht]; [|by eapply adv_kept].
  destruct (find_document next t) as [d|] eqn:Hd, (find_document s t) as [d0|] eqn:Hd0; try done.
  apply (adv_old _ _ _ Ha) in Hd0. apply (adv_keys _ _ _ Ha _ Ht) in Hd as [_ Hd].
  pose proof (adv_revision _ _ _ Ha). injection Hv as Hv. lia.
Qed.

(** The records of the changed documents turn the old documents into the new. *)
Lemma replay_changes s next keys l t :
  advanced s next keys → (∀ t, t ∈ l ↔ t ∈ keys) →
  find_document next t = replay (omap (change_of s next) l) t (find_document s t).
Proof.
  intros Ha Hl. unfold replay. destruct (list_find _ _) as [[i r]|] eqn:Hf.
  - apply list_find_Some in Hf as (Hr & Hk & _). apply list_elem_of_lookup_2 in Hr.
    apply list_elem_of_omap in Hr as (t' & _ & (Hk' & ->)%change_of_Some). congruence.
  - rewrite list_find_None, Forall_forall in Hf.
    destruct (decide (t ∈ keys)) as [Ht|Ht]; [|by eapply adv_kept].
    eapply change_of_None; [done|]. destruct (change_of s next t) as [r|] eqn:Hc; [|done].
    exfalso. apply (Hf r); [apply list_elem_of_omap; exists t; by rewrite Hl|].
    by apply change_of_Some in Hc as [? _].
Qed.

Lemma changes_record_ok s next keys l :
  advanced s next keys → (∀ t, t ∈ l → t ∈ keys) →
  Forall (λ r, ∃ b, change_record_bytes r = Ok b) (omap (change_of s next) l) →
  Forall (record_ok next (revision next)) (omap (change_of s next) l).
Proof.
  intros Ha Hl. rewrite !Forall_forall. intros Hb r Hr. pose proof (Hb r Hr) as Hbytes.
  apply list_elem_of_omap in Hr as (t & Ht%Hl & (Hk & Hd)%change_of_Some).
  destruct (adv_keys _ _ _ Ha _ Ht) as (Hc & Hn & Hdoc). destruct r as [c id d].
  unfold record_key in Hk. cbn in Hk, Hd, Hbytes. subst t d. cbn in *.
  split; [by eapply adv_names|]. split; [done|]. split; [by eapply adv_collections|].
  split; [|done]. exact Hdoc.
Qed.

Lemma changes_NoDup s next l :
  NoDup l → NoDup (record_key <$> omap (change_of s next) l).
Proof.
  induction 1 as [|t l Ht Hnd IH]; [constructor|].
  change (omap (change_of s next) (t :: l)) with (match change_of s next t with
    | Some y => y :: omap (change_of s next) l | None => omap (change_of s next) l end).
  destruct (change_of s next t) as [r|] eqn:Hr; [|done]. csimpl. constructor; [|done].
  apply change_of_Some in Hr as [-> _]. intros (r' & Hk & Hin)%list_elem_of_fmap.
  apply list_elem_of_omap in Hin as (t' & Hin & (Hk' & _)%change_of_Some). congruence.
Qed.

Lemma feed_valid_same s next keys :
  advanced s next keys → feed_valid s → feed_valid next.
Proof.
  intros Ha. unfold feed_valid. rewrite (adv_feed _ _ _ Ha), (adv_limits _ _ _ Ha).
  intros (Hz & Hs & Ho & Hch & Hn). split_and!; try done.
  eapply chain_mono, Hch; [by apply N.lt_le_incl, Ha|]. intros n. apply Ha.
Qed.

(** The new commit extends the chain of the feed. *)
Lemma new_commit_ok s next keys rs n e :
  advanced s next keys → feed_valid s → 0 < len rs →
  Forall (record_ok next (revision next)) rs → NoDup (record_key <$> rs) →
  n = lsum record_weight rs → n ≤ u64_max →
  entry_ok (next_sequence (change_feed s), new_commit next rs n) →
  e = first_available_sequence (change_feed s) →
  chain next e 0 (map_iter (commits (change_feed s)) ++
    [(next_sequence (change_feed s), new_commit next rs n)]).
Proof.
  intros Ha (_ & _ & _ & Hch & Hn) Hlen Hok Hnd Hw Hle Hent ->. apply chain_app. split.
  - eapply chain_mono, Hch; [by apply N.lt_le_incl, Ha|]. intros m. apply Ha.
  - cbn [chain]. split; [|done]. unfold commit_ok.
    cbn [fst snd new_commit first_sequence records cc_revision record_bytes].
    apply chain_last_le in Hch; [|lia]. pose proof (adv_revision _ _ _ Ha).
    rewrite (adv_feed _ _ _ Ha). split_and!; done || lia.
Qed.

Lemma append_Ok s next keys changed s2 :
  feed_valid s → feed_fits s → advanced s next keys →
  (∀ t, t ∈ changed_keys (map_iter changed) ↔ t ∈ keys) →
  append s next changed = Some (s2, Ok tt) →
  let rs := omap (change_of s next) (changed_keys (map_iter changed)) in
  feed_valid s2 ∧ feed_fits s2 ∧ (∃ f, s2 = set_change_feed f next) ∧
  next_sequence (change_feed s2) = next_sequence (change_feed s) + len rs ∧
  (if bool_decide (rs = []) then change_feed s2 = change_feed s
   else ∃ n d, map_iter (commits (change_feed s)) ++
     [(next_sequence (change_feed s), new_commit next rs n)] = d ++ map_iter (commits (change_feed s2)) ∧
     commits (change_feed s2) !! next_sequence (change_feed s) = Some (new_commit next rs n)).
Proof.
  intros Hv Hfit Ha Hk Hap rs. unfold append in Hap.
  destruct (collect_records s next ([], 0) (map_iter changed)) as [[[rs0 n]|e]|] eqn:Hc; try done.
  apply collect_records_Ok in Hc as (Hrs & Hn & Hle & Hall); [|unfold u64_max; lia].
  fold rs in Hrs, Hn, Hall. cbn [app] in Hrs. rewrite N.add_0_l in Hn. subst rs0.
  destruct rs as [|r rs'] eqn:Hrs.
  { injection Hap as <-. rewrite (adv_feed _ _ _ Ha), len_nil, N.add_0_r.
    split; [by eapply feed_valid_same|].
    split; [unfold feed_fits; by rewrite (adv_feed _ _ _ Ha), (adv_limits _ _ _ Ha)|].
    split; [exists (change_feed next); by destruct next|]. split; [done|].
    by rewrite bool_decide_true. }
  rewrite <-Hrs in *. injection Hap as Hp. rewrite bool_decide_false by (by rewrite Hrs).
  pose proof (adv_feed _ _ _ Ha) as Hfeed.
  apply publish_Ok in Hp as (f & -> & Hnext & Hmax & Hsum & Hl & Hov & Hent);
    [|rewrite Hfeed; by apply feed_valid_below|rewrite Hfeed; apply Hv].
  rewrite Hfeed in *. destruct (retained_suffix (history (limits next))
    (map_iter (commits (change_feed s)) ++ [(next_sequence (change_feed s), new_commit next rs n)]))
    as [d Hd]. rewrite <-Hl in Hd.
  assert (Hch : chain next (first_available_sequence (change_feed s)) 0
    (d ++ map_iter (commits f))).
  { rewrite <-Hd. eapply new_commit_ok; try done; [rewrite Hrs, len_cons; lia|..].
    - eapply changes_record_ok; [done| |done]. intros t. apply Hk.
    - apply changes_NoDup, changed_keys_NoDup. }
  split.
  { eapply (feed_valid_suffix _ d (first_available_sequence (change_feed s)) 0);
      cbn [change_feed set_change_feed limits].
    - rewrite Hnext, Hrs, len_cons. lia.
    - done.
    - rewrite Hl. apply retained_within.
    - eapply chain_mono, Hch; done.
    - destruct Hv as (_ & _ & _ & _ & Hns). rewrite <-Hd, lsum_app, lsum_cons, lsum_nil, Hnext, Hns.
      unfold entry_events at 3. cbn [snd records new_commit]. lia. }
  split; [unfold feed_fits; cbn [change_feed set_change_feed limits];
    rewrite (adv_limits _ _ _ Ha); split; [done|apply Hfit]|].
  split; [by eexists|]. split; [done|]. exists n, d. split; [done|].
  apply elem_of_map_iter. cbn [change_feed set_change_feed]. rewrite Hl.
  destruct (retained_keeps _ (map_iter (commits (change_feed s))) _ Hov) as [d' ->].
  apply elem_of_app. right. by left.
Qed.

(** A batch applied at a later revision advances the state it started from. *)
Lemma apply_advances ops rev iv limit resolver s s1 receipt :
  accounted (revision s) s → (∀ n, is_Some (collections s !! n) → validate_name n = Ok tt) →
  revision s < rev →
  apply_mutations ops rev iv limit resolver (set_revision rev s) = (s1, Ok receipt) →
  advanced s s1 (target <$> ops).
Proof.
  intros [Hok _] Hnames Hr (pr & Hf & _)%apply_mutations_Ok.
  apply apply_loop_Ok in Hf as (_ & _ & [Hrest Hparts _] & _ & Heff & Hkeep & _).
  assert (Hc : ∀ n, is_Some (collections s1 !! n) ↔ is_Some (collections s !! n)).
  { intros n. specialize (Hparts n). cbn [collections set_revision] in Hparts.
    destruct (collections s1 !! n), (collections s !! n); try done; naive_solver. }
  split; try done.
  - rewrite Hrest. done.
  - by rewrite Hrest.
  - by rewrite Hrest.
  - intros [c id] d Hd. unfold find_document in Hd. cbn [fst snd] in Hd.
    destruct (collections s !! c) as [cs|] eqn:Hcs; [|done]. simpl in Hd.
    destruct (Hok _ _ Hcs) as (He & _ & Hds). destruct (Hds _ _ Hd) as (_ & _ & Hv & _). lia.
  - intros t (m & -> & Hm)%list_elem_of_fmap.
    destruct (Heff m Hm) as (c & r & Hcs & Hid & _ & _ & _ & _ & ->).
    split; [by eexists|]. split; [done|]. intros d Hd. destruct r as [b|]; [|done].
    injection Hd as <-. rewrite Hrest. done.
Qed.

Lemma apply_batch_Ok b rev now resolver s s1 receipt :
  apply_batch b rev now resolver s = (s1, Ok receipt) →
  validate_read_assertions s (read_set b) now 512 = Ok tt ∧
  len (operations b) ≤ max_batch_operations (limits s) ∧
  apply_mutations (operations b) rev true (max_batch_bytes (limits s)) resolver s = (s1, Ok receipt).
Proof.
  unfold apply_batch. rewrite st_bind_get. intros Hp.
  apply st_bind_Ok in Hp as (s2 & [] & [-> Hl]%st_lift_Ok & Hp).
  apply st_bind_Ok in Hp as (s2 & [] & [-> Hr]%st_lift_Ok & Hp).
  apply query_Ok in Hr. split; [done|]. split; [|done].
  destruct (max_batch_operations (limits s) <? len (operations b)) eqn:Hlt; [done|].
  by apply N.ltb_ge in Hlt.
Qed.

(** C7. The change feed is complete. After a committed batch the feed holds,
    under the next sequence number, one commit at the batch's revision whose
    records turn the documents before the batch into the documents after it: a
    consumer that applies the records in order has exactly the new state, and
    when nothing changed no sequence number is used. *)
Theorem feed_commit_replays b rev now resolver s s1 receipt s2 :
  accounted (revision s) s → (∀ n, is_Some (collections s !! n) → validate_name n = Ok tt) →
  feed_fits s → validate_feed s = Ok tt → revision s < rev →
  apply_batch b rev now resolver (set_revision rev s) = (s1, Ok receipt) →
  append s s1 (batch_changes b) = Some (s2, Ok tt) →
  ∃ rs, next_sequence (change_feed s2) = next_sequence (change_feed s) + len rs ∧
    (∀ t, find_document s2 t = replay rs t (find_document s t)) ∧
    if bool_decide (rs = []) then change_feed s2 = change_feed s
    else ∃ c, commits (change_feed s2) !! next_sequence (change_feed s) = Some c ∧
           cc_revision c = rev ∧ records c = rs.
Proof.
  intros Hacc Hnames Hfit Hv%validate_feed_Ok Hr (_ & _ & Hm)%apply_batch_Ok Hap; [|done].
  pose proof (apply_advances _ _ _ _ _ _ _ _ Hacc Hnames Hr Hm) as Ha.
  assert (Hrev : revision s1 = rev).
  { apply apply_mutations_Ok in Hm as (pr & Hf & _).
    apply apply_loop_Ok in Hf as (_ & _ & [Hrest _ _] & _). by rewrite Hrest. }
  apply (append_Ok _ _ _ _ _ Hv Hfit Ha (batch_keys b)) in Hap as (_ & _ & [f ->] & Hn & Hc).
  eexists. split; [exact Hn|]. split.
  - intros t. change (find_document (set_change_feed f s1) t) with (find_document s1 t).
    apply (replay_changes _ _ _ _ _ Ha), batch_keys.
  - case_bool_decide; [done|]. destruct Hc as (n & d & _ & Hc). eexists. split; [exact Hc|].
    by rewrite <-Hrev.
Qed.

(** C12. Publication keeps the check of a restored feed: contiguous sequence
    numbers, increasing revisions, exact totals within the retention limits.
    Retention only ever drops whole commits from the old end. *)
Theorem append_keeps_feed_valid b rev now resolver s s1 receipt s2 :
  accounted (revision s) s → (∀ n, is_Some (collections s !! n) → validate_name n = Ok tt) →
  feed_fits s → validate_feed s = Ok tt → revision s < rev →
  apply_batch b rev now resolver (set_revision rev s) = (s1, Ok receipt) →
  append s s1 (batch_changes b) = Some (s2, Ok tt) →
  validate_feed s2 = Ok tt ∧
  ∃ dropped new, map_iter (commits (change_feed s)) ++ new =
    dropped ++ map_iter (commits (change_feed s2)).
Proof.
  intros Hacc Hnames Hfit Hv%validate_feed_Ok Hr (_ & _ & Hm)%apply_batch_Ok Hap; [|done].
  pose proof (apply_advances _ _ _ _ _ _ _ _ Hacc Hnames Hr Hm) as Ha.
  apply (append_Ok _ _ _ _ _ Hv Hfit Ha (batch_keys b)) in Hap as (Hv2 & Hfit2 & _ & _ & Hc).
  split; [by apply validate_feed_Ok|]. case_bool_decide.
  - exists [], []. by rewrite Hc, app_nil_r.
  - destruct Hc as (n & d & Hd & _). by exists d, [(next_sequence (change_feed s),
      new_commit s1 (omap (change_of s s1) (changed_keys (map_iter (batch_changes b)))) n)].
Qed.

(** Publishing a committed batch never indexes a missing collection, so it
    never panics. *)
Theorem append_never_panics b rev now resolver s s1 receipt :
  apply_batch b rev now resolver (set_revision rev s) = (s1, Ok receipt) →
  is_Some (append s s1 (batch_changes b)).
Proof.
  intros (_ & _ & (pr & Hf & _)%apply_mutations_Ok)%apply_batch_Ok.
  apply apply_loop_Ok in Hf as (_ & _ & [_ Hparts _] & _ & Heff & _).
  unfold append. edestruct (collect_records_total s s1 (map_iter (batch_changes b)) ([], 0)) as [r ->].
  - intros c ids Hin%elem_of_map_iter.
    assert (Hids : ∃ id, (c, id) ∈ target <$> operations b) by (by eapply batch_changes_inhabited).
    destruct Hids as (id & (m & Hm & Hin')%list_elem_of_fmap).
    destruct (Heff m Hin') as (cs & _ & Hcs & _). rewrite <-Hm in Hcs.
    cbn [fst collections set_revision] in Hcs.
    specialize (Hparts c). cbn [collections set_revision] in Hparts. rewrite Hcs in Hparts |- *.
    split; [by eexists|]. destruct (collections s1 !! c); [by eexists|done].
  - destruct r as [[[|r rs] n]|e]; by eexists.
Qed.
End publication.

(** ** Pages deliver the feed in order, without gaps *)

Section pages.
Context `{Sha256} `{FeedWorkspace}.

Definition feed_items (feed : ChangeFeedState) : list FeedItem :=
  map_iter (commits feed) ≫= commit_items.

(** Consecutive sequence numbers. *)
Fixpoint contiguous (first : N) (l : list FeedItem) : Prop :=
  match l with [] => True | i :: l' => it_sequence i = first ∧ contiguous (first + 1) l' end.

Definition last_sequence (after : N) (l : list FeedItem) : N :=
  foldl (λ _ i, it_sequence i) after l.

Lemma contiguous_app l1 l2 : ∀ first,
  contiguous first (l1 ++ l2) ↔ contiguous first l1 ∧ contiguous (first + len l1) l2.
Proof.
  induction l1 as [|i l1 IH]; intros first.
  - rewrite len_nil, N.add_0_r. cbn. tauto.
  - cbn [app contiguous]. rewrite IH, len_cons, N.add_assoc. tauto.
Qed.

Lemma contiguous_last l : ∀ after, contiguous (after + 1) l → last_sequence after l = after + len l.
Proof.
  unfold last_sequence. induction l as [|i l IH]; intros after; cbn [contiguous foldl].
  - rewrite len_nil. lia.
  - intros [Hi Hl]. rewrite Hi, len_cons. rewrite IH; [lia|done].
Qed.

Lemma contiguous_filter l : ∀ first after, contiguous first l → first ≤ after + 1 →
  contiguous (after + 1) (filter (λ i, after < it_sequence i) l) ∧
  len (filter (λ i, after < it_sequence i) l) = first + len l - (after + 1).
Proof.
  induction l as [|i l IH]; intros first after; cbn [contiguous].
  - rewrite filter_nil, len_nil. intros _ Hle. split; [done|lia].
  - intros [Hi Hl] Hle. rewrite filter_cons, len_cons. case_decide as Hd.
    + assert (first = after + 1) as -> by lia.
      assert (Hall : filter (λ j, after < it_sequence j) l = l).
      { clear IH Hi Hd Hle. assert (Hge : after < after + 1 + 1) by lia. revert Hge Hl.
        generalize (after + 1 + 1). induction l as [|j l IH]; intros e Hge; [done|].
        intros [Hj Hl]. rewrite filter_cons_True by lia. f_equal. apply (IH (e + 1)); [lia|done]. }
      rewrite Hall, len_cons. split; [by split|lia].
    + destruct (IH (first + 1) after Hl) as [Hc Hn]; [lia|]. split; [done|lia].
Qed.

Lemma commit_items_contiguous kv : contiguous (first_sequence kv.2) (commit_items kv).
Proof.
  unfold commit_items. assert (Hgen : ∀ l j (g : nat → N),
    (∀ i, g i = g O + N.of_nat i) →
    contiguous (g O) (imap (λ i r, {| it_sequence := g i; it_ordinal := N.of_nat (j + i);
      it_commit := kv.2; it_record := r |}) l)).
  { induction l as [|r l IH]; intros j g Hg; [done|]. rewrite imap_cons. split; [done|].
    specialize (IH (S j) (g ∘ S)). cbn [compose] in IH. rewrite (Hg 1%nat) in IH.
    erewrite imap_ext; [apply IH|]; intros.
    - unfold compose. rewrite !(Hg (S _)). lia.
    - unfold compose. by replace (j + S i)%nat with (S j + i)%nat by lia. }
  specialize (Hgen (records kv.2) O (λ i, first_sequence kv.2 + N.of_nat i)). cbn beta in Hgen.
  rewrite N.add_0_r in Hgen. apply Hgen. intros i. lia.
Qed.

Lemma commit_items_len kv : len (commit_items kv) = entry_events kv.
Proof. unfold commit_items, entry_events, len. by rewrite length_imap. Qed.

(** A valid chain of commits is one contiguous run of items. *)
Lemma chain_items s l : ∀ e r, chain s e r l →
  contiguous e (l ≫= commit_items) ∧ len (l ≫= commit_items) = lsum entry_events l.
Proof.
  induction l as [|kv l IH]; intros e r; [done|]. intros ((Hk & Hf & _) & Hch).
  apply IH in Hch as [Hc Hn]. cbn [mbind list_bind]. rewrite lsum_cons, len_app, Hn, commit_items_len.
  split; [|done]. apply contiguous_app. rewrite commit_items_len. split; [|done].
  rewrite <-Hk, <-Hf. apply commit_items_contiguous.
Qed.

Lemma chain_gap s l : ∀ e r kv kv', chain s e r l → kv ∈ l → kv' ∈ l → kv.1 < kv'.1 →
  kv.1 + entry_events kv ≤ kv'.1.
Proof.
  induction l as [|x l IH]; intros e r kv kv' Hch Hin Hin' Hlt; [by apply elem_of_nil in Hin|].
  destruct Hch as ((Hk & _ & Hlen & _) & Hch).
  apply elem_of_cons in Hin as [->|Hin], Hin' as [->|Hin']; [lia|..].
  - destruct (chain_keys _ _ _ _ _ Hch Hin') as [Hle _]. lia.
  - destruct (chain_keys _ _ _ _ _ Hch Hin) as [Hle _]. unfold entry_events in *. lia.
  - by eapply IH.
Qed.

Lemma commit_items_sequence kv i :
  i ∈ commit_items kv → it_sequence i < first_sequence kv.2 + entry_events kv.
Proof.
  unfold commit_items, entry_events, len. intros (j & r & -> & Hj)%elem_of_lookup_imap.
  apply lookup_lt_Some in Hj. cbn [it_sequence]. lia.
Qed.

Lemma filter_bind_skip {A B} (P : A → Prop) `{∀ x, Decision (P x)} (Q : B → Prop)
    `{∀ x, Decision (Q x)} (f : A → list B) (l : list A) :
  (∀ x y, x ∈ l → ¬ P x → y ∈ f x → ¬ Q y) →
  filter Q (filter P l ≫= f) = filter Q (l ≫= f).
Proof.
  induction l as [|x l IH]; intros Hl; [done|]. rewrite filter_cons.
  cbn [mbind list_bind]. rewrite filter_app.
  assert (IHl : filter Q (filter P l ≫= f) = filter Q (l ≫= f)).
  { apply IH. intros y z Hy. apply Hl. by right. }
  case_decide as Hp; cbn [mbind list_bind]; rewrite ?filter_app, IHl; [done|].
  assert (Hnil : filter Q (f x) = []); [|by rewrite Hnil].
  destruct (filter Q (f x)) as [|y k] eqn:Hf; [done|].
  assert (Hy : y ∈ filter Q (f x)) by (rewrite Hf; by left).
  apply list_elem_of_filter in Hy as [HQ Hy]. by destruct (Hl x y); [left|..].
Qed.

(** The visited commits hold every item after the position. *)
Lemma visited_items s after :
  feed_valid s →
  filter (λ i, after < it_sequence i) (visited (change_feed s) after) =
  filter (λ i, after < it_sequence i) (feed_items (change_feed s)).
Proof.
  intros (_ & _ & _ & Hch & _). unfold visited, feed_items. apply filter_bind_skip.
  intros kv i Hkv Hp Hi Hlt. apply commit_items_sequence in Hi.
  assert (Hf : first_sequence kv.2 = kv.1).
  { clear -Hch Hkv. revert Hch Hkv. generalize (first_available_sequence (change_feed s)) 0.
    induction (map_iter _) as [|x l IH]; intros e r; [by intros _ ?%elem_of_nil|].
    intros ((_ & Hf & _) & Hch) [->|Hin]%elem_of_cons; [done|by eapply IH]. }
  unfold start_commit in Hp. destruct (last _) as [kv'|] eqn:Hl.
  - apply last_Some_elem_of, list_elem_of_filter in Hl as [Hle Hin].
    assert (kv.1 + entry_events kv ≤ kv'.1) by (eapply chain_gap; eauto; lia). lia.
  - apply last_None in Hl. assert (Hk : kv ∈ filter (λ kv : N * ChangeCommit, kv.1 ≤ after + 1)
      (map_iter (commits (change_feed s)))) by (apply list_elem_of_filter; split; [lia|done]).
    rewrite Hl in Hk. by apply elem_of_nil in Hk.
Qed.

Definition in_scope (scope : gset string) (i : FeedItem) : Prop := cr_collection (it_record i) ∈ scope.

#[local] Instance in_scope_dec scope i : Decision (in_scope scope i).
Proof. unfold in_scope. apply _. Defined.

(** The event an item is delivered as. *)
Definition delivers (resolver : Resolver) (i : FeedItem) (e : ChangeEvent) : Prop :=
  ∃ d, load_document resolver (it_record i) = Ok d ∧ e = make_event i d.

(** The loops stop after a prefix of the items and deliver its part in scope. *)
Lemma scan_items_Ok max resolver scope after limit capacity items : ∀ p m m' p',
  scan_items max resolver scope after limit capacity items p m = (m', Ok p') →
  ∃ finished rest evs,
    filter (λ i, after < it_sequence i) items = finished ++ rest ∧
    pl_events p' = pl_events p ++ evs ∧
    Forall2 (delivers resolver) (filter (in_scope scope) finished) evs ∧
    pl_after p' = last_sequence (pl_after p) finished ∧
    (len (pl_events p) ≤ limit → len (pl_events p') ≤ limit) ∧
    (pl_examined p = 0 → pl_events p = [] → 0 < limit → finished = [] → rest = []).
Proof.
  induction items as [|i items IH]; intros p m m' p' Hs; cbn [scan_items] in Hs.
  { injection Hs as <- <-. exists [], [], [].
    split_and!; rewrite ?app_nil_r; done || constructor. }
  rewrite filter_cons. destruct (it_sequence i <=? after) eqn:Ha.
  { apply N.leb_le in Ha. rewrite decide_False by lia. by eapply IH. }
  apply N.leb_gt in Ha. rewrite decide_True by done.
  apply st_bind_Ok in Hs as (m1 & [] & _ & Hs).
  destruct ((1000 <=? pl_examined p) || (limit <=? len (pl_events p))) eqn:Hstop.
  { injection Hs as <- <-. exists [], (i :: filter (λ i, after < it_sequence i) items), [].
    split_and!; rewrite ?app_nil_r; try (done || constructor).
    intros Hex Hev Hlim _. apply orb_true_iff in Hstop as [Hstop%N.leb_le|Hstop%N.leb_le]; [lia|].
    rewrite Hev in Hstop. change (len (@nil ChangeEvent)) with 0 in Hstop. lia. }
  apply orb_false_iff in Hstop as [_ Hlim%N.leb_gt].
  destruct (negb (bool_decide (cr_collection (it_record i) ∈ scope))) eqn:Hsc.
  { apply negb_true_iff, bool_decide_eq_false in Hsc.
    apply IH in Hs as (fin & rest & evs & Hf & Hev & Hd & Hl & Hle & _). exists (i :: fin), rest, evs.
    rewrite filter_cons_False by done. split_and!; try done. cbn [app]. by f_equal. }
  apply negb_false_iff, bool_decide_eq_true in Hsc.
  apply st_bind_Ok in Hs as (m2 & d & [-> Hdoc]%st_lift_Ok & Hs).
  apply st_bind_Ok in Hs as (m2 & n & [-> Hn]%st_lift_Ok & Hs).
  apply st_bind_Ok in Hs as (m2 & eb & [-> Heb]%st_lift_Ok & Hs).
  destruct (checked_add (pl_bytes p) eb ≫= _) as [total|].
  - destruct (len (pl_events p) =? capacity); [by apply st_lift_Ok in Hs as [_ ?]|].
    apply st_bind_Ok in Hs as (m2 & k & [-> _]%st_lift_Ok & Hs).
    apply st_bind_Ok in Hs as (m2 & [] & _ & Hs).
    apply IH in Hs as (fin & rest & evs & Hf & Hev & Hd & Hl & Hle & _).
    exists (i :: fin), rest, (make_event i d :: evs). rewrite filter_cons_True by done.
    cbn [pl_events pl_after] in *. rewrite <-app_assoc in Hev. rewrite len_app in Hle.
    split_and!; try done.
    + cbn [app]. by f_equal.
    + constructor; [by exists d|done].
    + intros _. apply Hle. change (len [make_event i d]) with 1. lia.
  - destruct (len (pl_events p) =? 0) eqn:Hz; [by apply st_lift_Ok in Hs as [_ ?]|].
    injection Hs as <- <-. exists [], (i :: filter (λ i, after < it_sequence i) items), [].
    split_and!; rewrite ?app_nil_r; try (done || constructor).
    intros _ Hev. by rewrite Hev in Hz.
Qed.

Lemma page_position_le s c r head after :
  page_position s c r head = Ok after → after ≤ head.
Proof.
  unfold page_position. destruct (start r) as [| |k]; [intros [= <-]; lia|by intros [= <-]|].
  rewrite !reject_Ok. intros (_ & Hle & [= <-]). by apply N.ltb_ge in Hle.
Qed.

(** C9. A page of the change feed starts right after the requested position
    and delivers, in order and without gaps or repeats, every retained change
    of the requested collections up to the cursor it returns; the cursor
    advances by exactly the changes passed, the page is marked caught up
    exactly when nothing retained is left, and unless the reader is caught up
    the cursor moves. *)
Theorem feed_page_exact s resolver c r mem mem' rev first head events next caught_up :
  feed_fits s → validate_feed s = Ok tt → 0 < rf_limit r →
  build_change_feed_page s resolver c r mem =
    (mem', Ok (Events rev first head events next caught_up)) →
  ∃ after finished rest,
    page_position s c r head = Ok after ∧
    filter (λ i, after < it_sequence i) (feed_items (change_feed s)) = finished ++ rest ∧
    contiguous (after + 1) (finished ++ rest) ∧
    Forall2 (delivers resolver) (filter (in_scope (rf_collections r)) finished) events ∧
    after_sequence next = after + len finished ∧
    caught_up = bool_decide (rest = []) ∧
    (finished = [] → rest = []) ∧ len events ≤ rf_limit r.
Proof.
  intros Hfit Hv%validate_feed_Ok Hlim Hb; [|done]. unfold build_change_feed_page in Hb.
  apply st_bind_Ok in Hb as (m1 & [] & _ & Hb).
  apply st_bind_Ok in Hb as (m2 & head' & [-> Hhead%ok_or_Ok%checked_sub_Some]%st_lift_Ok & Hb).
  apply st_bind_Ok in Hb as (m2 & after & [-> Hafter]%st_lift_Ok & Hb).
  destruct (after + 1 <? first_available_sequence (change_feed s)) eqn:Hgap.
  { by apply st_ret_Ok in Hb as [_ ?]. }
  apply N.ltb_ge in Hgap.
  apply st_bind_Ok in Hb as (m2 & k & [-> _]%st_lift_Ok & Hb).
  apply st_bind_Ok in Hb as (m2 & [] & _ & Hb).
  apply st_bind_Ok in Hb as (m3 & n & [-> _]%st_lift_Ok & Hb).
  apply st_bind_Ok in Hb as (m3 & bytes & [-> _]%st_lift_Ok & Hb).
  apply st_bind_Ok in Hb as (m3 & [] & [-> _]%st_lift_Ok & Hb).
  apply st_bind_Ok in Hb as (m3 & p & Hscan & Hb).
  apply st_bind_Ok in Hb as (m4 & [] & _ & Hb).
  apply st_ret_Ok in Hb as [_ Hpage]. injection Hpage as -> -> -> -> -> ->.
  apply scan_items_Ok in Hscan as (fin & rest & evs & Hf & Hev & Hd & Hl & Hle & Hpr).
  rewrite visited_items in Hf by done. cbn [pl_events pl_after pl_examined app] in *.
  pose proof (page_position_le _ _ _ _ _ Hafter) as Hah.
  pose proof Hv as (_ & _ & _ & Hch & Hns). apply chain_items in Hch as [Hcont Hlen].
  destruct (contiguous_filter _ _ after Hcont Hgap) as [Hc Hn].
  fold (feed_items (change_feed s)) in Hc, Hn, Hlen. rewrite Hf in Hc, Hn.
  rewrite len_app, Hlen in Hn. rewrite contiguous_last in Hl by (by apply contiguous_app in Hc as [? _]).
  exists after, fin, rest. rewrite Hev, Hl in *. split_and!; try done.
  - rewrite bool_decide_decide. destruct (decide (rest = [])) as [->|Hne].
    + rewrite len_nil in Hn. apply N.eqb_eq. lia.
    + apply N.eqb_neq. destruct rest; [done|]. rewrite len_cons in Hn. lia.
  - by apply Hpr.
  - apply Hle. rewrite len_nil. lia.
Qed.
End pages.

(** C31. Retention ends and keeps exactly the longest run of newest commits
    that fits both limits: it succeeds on every feed with exact totals, leaves
    the sequence counter alone, and its totals are exact again. *)
Theorem trim_keeps_longest_suffix limits f :
  feed_sums f →
  ∃ f', trim limits f = (f', Ok tt) ∧ next_sequence f' = next_sequence f ∧ feed_sums f' ∧
    map_iter (commits f') = retained limits (map_iter (commits f)) ∧ feed_over limits f' = false.
Proof.
  intros Hs. destruct (trim_Ok limits f Hs) as (f' & Ht & Hn & Hl & Hs').
  exists f'. split_and!; try done. rewrite (feed_over_sums _ _ Hs'), Hl. apply retained_within.
Qed.

(** ** A sample publication *)

Module FeedSample.
Import ApplySample.

Definition batch : MutationBatch :=
  {| idempotency_key := "k1"; read_set := []; operations := ops |}.

Definition applied : TenantState := Eval vm_compute in
  (apply_batch batch 5 9 None (set_revision 5 state)).1.
Definition receipt : WriteReceipt := Eval vm_compute in
  match (apply_batch batch 5 9 None (set_revision 5 state)).2 with
  | Ok r => r | Err _ => {| wr_revision := 0; versions := ∅ |} end.
Definition published : TenantState := Eval vm_compute in
  match append state applied (batch_changes batch) with Some (s, _) => s | None => state end.

#[export] Instance workspace : FeedWorkspace :=
  {| Memory := unit; reserve _ := mret tt; poll := mret tt; page_workspace _ _ _ _ _ := Ok 0;
     event_workspace _ _ := Ok 0; load_error m := new_error Unavailable m |}.

Definition request : ReadChangeFeed :=
  {| rf_collections := {["docs"]}; start := Beginning; rf_limit := 1 |}.

Definition page : ChangeFeedPage := Eval vm_compute in
  match (build_change_feed_page published None Sample.context request tt).2 with
  | Ok p => p | Err _ => RetentionGap 0 0 0 end.
End FeedSample.

Import ApplySample FeedSample.

Lemma sample_names : ∀ n, is_Some (collections state !! n) → validate_name n = Ok tt.
Proof.
  intros n [c Hc]. cbn [collections set_collections set_revision set_document_count
    set_logical_bytes state] in Hc.
  apply lookup_insert_Some in Hc as [[<- _]|[_ Hc]]; [vm_compute; reflexivity|].
  apply lookup_singleton_Some in Hc as [<- _]. vm_compute. reflexivity.
Qed.

Lemma sample_accounted : accounted (revision state) state.
Proof. apply validate_documents_Ok, sample_valid. Qed.

Lemma sample_feed : validate_feed state = Ok tt.
Proof. vm_compute. reflexivity. Qed.

Lemma sample_fits : feed_fits state.
Proof. vm_compute. split_and!; discriminate. Qed.

Lemma feed_commit_replays_witness :
  next_sequence (change_feed published) = 3 ∧ ∃ rs,
    find_document published ("docs", "a") = replay rs ("docs", "a") (find_document state ("docs", "a")).
Proof.
  split; [vm_compute; reflexivity|].
  edestruct (feed_commit_replays batch 5 9 None state applied receipt published sample_accounted
    sample_names sample_fits sample_feed) as (rs & _ & Hrs & _);
    [vm_compute; reflexivity|vm_compute; reflexivity|vm_compute; reflexivity|].
  exists rs. apply Hrs.
Defined.

Lemma append_keeps_feed_valid_witness : validate_feed published = Ok tt.
Proof.
  eapply (append_keeps_feed_valid batch 5 9 None state applied receipt published sample_accounted
    sample_names sample_fits sample_feed); vm_compute; reflexivity.
Defined.

Lemma append_never_panics_witness : is_Some (append state applied (batch_changes batch)).
Proof. eapply (append_never_panics batch 5 9 None state applied). vm_compute. reflexivity. Defined.

Lemma feed_page_exact_witness :
  ∃ events next, page = Events 5 1 2 events next false ∧ len events ≤ 1.
Proof.
  eexists _, _. split; [vm_compute; reflexivity|].
  edestruct (@feed_page_exact ApplySample.sha workspace published None Sample.context request tt tt)
    as (a & fin & rest & _ & _ & _ & _ & _ & _ & _ & Hlen); [..|exact Hlen].
  - vm_compute. split_and!; discriminate.
  - vm_compute. reflexivity.
  - reflexivity.
  - vm_compute. reflexivity.
Defined.

Lemma trim_keeps_longest_suffix_witness :
  ∃ f', trim {| max_feed_events := 1; max_feed_bytes := 10000; max_archive_segments := 1 |}
    (change_feed published) = (f', Ok tt) ∧ event_count f' = 0.
Proof.
  edestruct (trim_keeps_longest_suffix
    {| max_feed_events := 1; max_feed_bytes := 10000; max_archive_segments := 1 |}
    (change_feed published)) as (f' & Ht & _).
  - split_and!; [vm_compute; reflexivity..|]. repeat constructor. eexists. vm_compute. reflexivity.
  - exists f'. split; [exact Ht|]. revert Ht. vm_compute. by intros [= <-].
Defined.
