(* ===== verification/Staging.v ===== *)
(** * Staged transactions

    Models src/crates/kasumi-engine/src/staging.rs: the ordered life of a large
    transaction (begin, chunk upload, finalize, stop, expiry), its permanent
    identity records and capacity reservation, and the check of a restored
    snapshot; and [staged_header] of src/crates/kasumi-engine/src/accounting.rs.

    Index validation of the finished documents is the interface
    [IndexRules]. *)

From S2P Require Import Prelude Json Types Digest State Apply.

Class IndexRules := {
  (** [index_source::validate_changes_with_resolvers] *)
  validate_changes : TenantState → TenantState → gmap string (gset string) → Resolver →
                     SourceResult unit;
}.

(** ** Sizes of permanent records *)

(** [framed_record_bytes]. *)
Definition framed_record_bytes (size : N) : Result N :=
  if N.shiftl 32 20 <? size then fail QuotaExceeded "snapshot record exceeds byte limit"
  else ok_or (checked_add size FRAME_HEADER_BYTES) (new_error Corruption "snapshot record overflow").

(** [Record::Stage]. *)
Definition stage_record (key : string) (t : StagedTransaction) : value :=
  VObject [("type", VString "Stage"); ("value", VArray [VString key; to_value t])].

(** [chunks.clear()]. *)
Definition clear_chunks (t : StagedTransaction) : StagedTransaction :=
  {| st_scope := st_scope t; st_transaction_id := st_transaction_id t;
     st_manifest_digest := st_manifest_digest t; st_manifest := st_manifest t; chunks := ∅;
     stored_chunk_bytes := stored_chunk_bytes t; uploaded_payload_bytes := uploaded_payload_bytes t;
     uploaded_operations := uploaded_operations t;
     uploaded_read_assertions := uploaded_read_assertions t; expires_at_ms := expires_at_ms t;
     ttl_ms := ttl_ms t; outcome := outcome t |}.

(** Assignment of the four upload counters. *)
Definition set_counters (a b c d : N) (t : StagedTransaction) : StagedTransaction :=
  {| st_scope := st_scope t; st_transaction_id := st_transaction_id t;
     st_manifest_digest := st_manifest_digest t; st_manifest := st_manifest t; chunks := chunks t;
     stored_chunk_bytes := a; uploaded_payload_bytes := b; uploaded_operations := c;
     uploaded_read_assertions := d; expires_at_ms := expires_at_ms t; ttl_ms := ttl_ms t;
     outcome := outcome t |}.

Definition set_outcome (o : StagedOutcome) (t : StagedTransaction) : StagedTransaction :=
  {| st_scope := st_scope t; st_transaction_id := st_transaction_id t;
     st_manifest_digest := st_manifest_digest t; st_manifest := st_manifest t; chunks := chunks t;
     stored_chunk_bytes := stored_chunk_bytes t; uploaded_payload_bytes := uploaded_payload_bytes t;
     uploaded_operations := uploaded_operations t;
     uploaded_read_assertions := uploaded_read_assertions t; expires_at_ms := expires_at_ms t;
     ttl_ms := ttl_ms t; outcome := o |}.

Definition set_chunks (x : gmap N StagedChunk) (t : StagedTransaction) : StagedTransaction :=
  {| st_scope := st_scope t; st_transaction_id := st_transaction_id t;
     st_manifest_digest := st_manifest_digest t; st_manifest := st_manifest t; chunks := x;
     stored_chunk_bytes := stored_chunk_bytes t; uploaded_payload_bytes := uploaded_payload_bytes t;
     uploaded_operations := uploaded_operations t;
     uploaded_read_assertions := uploaded_read_assertions t; expires_at_ms := expires_at_ms t;
     ttl_ms := ttl_ms t; outcome := outcome t |}.

(** [staged_header]. *)
Definition staged_header (key : string) (t : StagedTransaction) : Result N :=
  n ← encoded_len (stage_record key (clear_chunks t));
  framed_record_bytes n.

(** [permanent_charge]: the bytes of the header and the reserved rest. *)
Definition permanent_charge (key : string) (t : StagedTransaction) : Result (N * N) :=
  used ← staged_header key t;
  if negb (is_active t) then Ok (used, 0)
  else
    let maximum := set_counters u64_max u64_max u64_max u64_max (clear_chunks t) in
    n ← staged_header key maximum;
    capacity ← ok_or (checked_add n STAGED_OUTCOME_HEADROOM)
      (new_error Corruption "staged terminal capacity overflow");
    reserve ← ok_or (checked_sub capacity used)
      (new_error Corruption "staged terminal capacity mismatch");
    Ok (used, reserve).

(** ** Validation *)

(** [valid_digest]. *)
Definition valid_digest (s : string) : bool := (str_len s =? 64) && all_chars sha256_char s.

(** [validate_manifest]. *)
Definition manifest_out_of_bounds (m : StagedManifest) (l : Limits) : bool :=
  (len (chunk_digests m) =? 0) || (MAX_STAGED_CHUNKS <? len (chunk_digests m)) ||
  existsb (λ d, negb (valid_digest d)) (chunk_digests m) ||
  (operation_count m =? 0) || (max_operations (atomic l) <? operation_count m) ||
  (max_read_assertions (atomic l) <? read_assertion_count m) ||
  (encoded_chunk_bytes m =? 0) || (max_transaction_bytes (atomic l) <? encoded_chunk_bytes m) ||
  (N.of_nat (size (write_collections m)) =? 0) || (1024 <? N.of_nat (size (write_collections m))) ||
  (1024 <? N.of_nat (size (read_collections m))) ||
  (max_collections l <? N.of_nat (size (write_collections m))) ||
  (max_collections l <? N.of_nat (size (read_collections m))).

Definition validate_manifest (m : StagedManifest) (l : Limits) : Result unit :=
  if manifest_out_of_bounds m l then fail ResourceExhausted "staged manifest outside bounds"
  else try_for_each validate_name (set_iter (read_collections m) ++ set_iter (write_collections m)).

(** [historical_limits]. *)
Definition historical_limits : Limits :=
  let d := default_limits in
  {| history := history d; atomic := default_atomic_limits;
     max_document_bytes := max_document_bytes d; max_batch_operations := max_batch_operations d;
     max_batch_bytes := max_batch_bytes d; max_documents := max_documents d;
     max_collections := 1024;
     max_schema_bytes := max_schema_bytes d;
     max_schema_activation_bytes := max_schema_activation_bytes d;
     max_retirement_bytes := max_retirement_bytes d;
     max_target_resolution_bytes := max_target_resolution_bytes d;
     max_backup_binding_bytes := max_backup_binding_bytes d;
     max_policy_grants := max_policy_grants d; max_logical_bytes := max_logical_bytes d;
     max_snapshot_bytes := max_snapshot_bytes d;
     max_mutation_receipt_bytes := max_mutation_receipt_bytes d;
     l_audit_retention := l_audit_retention d; max_query_candidates := max_query_candidates d;
     max_query_groups := max_query_groups d; max_result_bytes := max_result_bytes d;
     max_page_size := max_page_size d; max_cursors := max_cursors d;
     max_cursor_bytes := max_cursor_bytes d; cursor_ttl_ms := cursor_ttl_ms d |}.

(** [validate_scope_lineage]. *)
Definition validate_scope_lineage (s : TenantState) (scope : Scope) : Result unit :=
  validate_scope scope;;
  if negb (bool_decide (sc_tenant scope = tenant s)) ||
     (negb (bool_decide (sc_incarnation scope = incarnation s)) &&
      negb (existsb (λ link, bool_decide (source_incarnation (checkpoint link) = sc_incarnation scope))
              (restore_lineage s)))
  then fail Conflict "staged original incarnation is outside retained lineage" else Ok tt.

(** [require_current_creation], [require_upload_incarnation]. *)
Definition require_current_creation (s : TenantState) (scope : Scope) : Result unit :=
  if negb (bool_decide (sc_incarnation scope = incarnation s))
  then fail Conflict "cannot create an absent historical staged identity" else Ok tt.

Definition require_upload_incarnation (s : TenantState) (t : StagedTransaction) : Result unit :=
  if is_active t && negb (bool_decide (sc_incarnation (st_scope t) = incarnation s))
  then fail Conflict "historical staged upload may only be observed, stopped or expired" else Ok tt.

(** [validate_chunk]. *)
Definition check_mutation (l : Limits) (m : Mutation) : Result unit :=
  validate_name (target m).1;;
  validate_name (target m).2;;
  match m with
  | Put _ _ v _ | Patch _ _ v _ =>
      n ← encoded_len v;
      if max_document_bytes l <? n
      then fail ResourceExhausted "staged document exceeds byte limit" else Ok tt
  | Delete _ _ _ => Ok tt
  end.

Definition validate_chunk (c : StagedChunk) (l : Limits) : Result unit :=
  (if (max_batch_operations l <? len (ck_operations c)) || (512 <? len (ck_read_set c)) ||
      ((len (ck_operations c) =? 0) && (len (ck_read_set c) =? 0))
   then fail ResourceExhausted "staged chunk exceeds request limits"
   else
     n ← encoded_len c;
     if max_batch_bytes l <? n
     then fail ResourceExhausted "staged chunk exceeds request limits" else Ok tt);;
  try_for_each (check_mutation l) (ck_operations c).

(** [validate_budget]. *)
Definition budget_step (s : TenantState) (l : Limits) (reserved : N) (key : string) : Result N :=
  stage ← ok_or (staged_transactions s !! key)
    (new_error Corruption "active staged identity missing");
  validate_manifest (st_manifest stage) l;;
  ok_or (checked_add reserved (encoded_chunk_bytes (st_manifest stage)))
    (new_error QuotaExceeded "staging reservation overflow").

Definition validate_budget (s : TenantState) (l : Limits) : Result unit :=
  if match checked_add (permanent_staged_bytes s) (reserved_staged_terminal_bytes s) with
     | Some n => max_permanent_staged_bytes (atomic l) <? n
     | None => true
     end || (max_active_transactions (atomic l) <? N.of_nat (size (active_staged_transactions s)))
  then fail QuotaExceeded "permanent staged bytes or active transaction quota exceeded"
  else
    reserved ← try_fold (budget_step s l) 0 (set_iter (active_staged_transactions s));
    if max_reserved_staging_bytes (atomic l) <? reserved
    then fail QuotaExceeded "reserved staging byte quota exceeded" else Ok tt.

(** [validate_new_limits]; the stages of the active identities are present
    once the budget passed. *)
Definition validate_new_limits (s : TenantState) (l : Limits) : Result unit :=
  validate_budget s l;;
  try_for_each (λ key,
    match staged_transactions s !! key with
    | Some stage => try_for_each (λ c, validate_chunk c l) (map_values (chunks stage))
    | None => Ok tt
    end) (set_iter (active_staged_transactions s)).

(** ** Permanent records *)

(** The checks of [replace_record]: the two new totals. *)
Definition record_totals (s : TenantState) (key : string) (stage : StagedTransaction) :
    Result (N * N) :=
  let old := staged_transactions s !! key in
  old_charge ← match old with None => Ok (0, 0) | Some t => permanent_charge key t end;
  new_charge ← permanent_charge key stage;
  reject_if
    (match old with Some t => is_active t | None => false end && negb (is_active stage) &&
     match checked_add old_charge.1 old_charge.2 with
     | Some n => n <? new_charge.1
     | None => true
     end)
    (new_error Corruption "staged outcome exceeded its original reservation");;
  used ← ok_or (checked_sub (permanent_staged_bytes s) old_charge.1 ≫= λ n,
                checked_add n new_charge.1)
    (new_error Corruption "permanent staged accounting mismatch");
  reserved ← ok_or (checked_sub (reserved_staged_terminal_bytes s) old_charge.2 ≫= λ n,
                    checked_add n new_charge.2)
    (new_error Corruption "staged terminal reservation mismatch");
  reject_if
    match checked_add used reserved with
    | Some n => max_permanent_staged_bytes (atomic (limits s)) <? n
    | None => true
    end
    (new_error QuotaExceeded "permanent staged byte quota exhausted");;
  Ok (used, reserved).

(** The assignments of [replace_record]. *)
Definition store_record (key : string) (stage : StagedTransaction) (totals : N * N)
    (s : TenantState) : TenantState :=
  set_reserved_staged_terminal_bytes totals.2 (set_permanent_staged_bytes totals.1
    (set_staged_transactions (<[key := stage]> (staged_transactions s))
      (set_active_staged_transactions
         (if is_active stage then {[key]} ∪ active_staged_transactions s
          else active_staged_transactions s ∖ {[key]}) s))).

(** [replace_record]. *)
Definition replace_record (key : string) (stage : StagedTransaction) : ST TenantState Error unit :=
  s ← st_get;
  totals ← st_lift (record_totals s key stage);
  st_modify (store_record key stage totals).

(** [clear_payload], [terminal]. *)
Definition clear_payload (t : StagedTransaction) : StagedTransaction :=
  set_counters 0 0 0 0 (clear_chunks t).

Definition terminal (t : StagedTransaction) (outcome : Result WriteReceipt) : StagedTransaction :=
  set_outcome (Finished outcome) (clear_payload t).

Definition empty_receipt (revision : N) : WriteReceipt :=
  {| wr_revision := revision; versions := ∅ |}.

(** [expire_active]. *)
Definition is_expired (s : TenantState) (now : N) (key : string) : bool :=
  match staged_transactions s !! key with
  | Some stage => match expires_at_ms stage with Some e => e <=? now | None => false end
  | None => false
  end.

Definition expire_key (revision : N) (key : string) : ST TenantState Error unit :=
  s ← st_get;
  match staged_transactions s !! key with
  | Some stage =>
      replace_record key (set_outcome (Expired (empty_receipt revision)) (clear_payload stage))
  | None => mret tt
  end.

Definition expire_active (now revision : N) : ST TenantState Error unit :=
  s ← st_get;
  st_fold (λ _, expire_key revision) tt
    (filter (λ key, is_expired s now key = true) (set_iter (active_staged_transactions s))).

Section staging.
Context `{Sha256} `{UuidParse}.

(** ** Identities and authorization *)

(** [identity]; the pair serializes as an array. *)
Definition identity (principal transaction_id : string) : Result string :=
  validate_name principal;;
  validate_name transaction_id;;
  fst <$> staged_digest [principal; transaction_id].

(** [authorize_manifest]. *)
Definition authorize_manifest (s : TenantState) (c : RequestContext) (m : StagedManifest) :
    Result unit :=
  try_for_each (λ name, authorize_state s c (Some name) Write) (set_iter (write_collections m));;
  try_for_each (λ name, authorize_state s c (Some name) Read) (set_iter (read_collections m)).

(** [authorize_scope]. *)
Definition authorize_scope (s : TenantState) (c : RequestContext) (scope : Scope) : Result unit :=
  authorize_discovery_state s c Write;;
  validate_scope scope;;
  if negb (bool_decide (sc_tenant scope = tenant s)) ||
     negb (bool_decide (sc_tenant scope = c_tenant c)) ||
     negb (bool_decide (sc_principal scope = c_principal c))
  then fail Forbidden "staged original scope differs from verified principal or tenant"
  else validate_scope_lineage s scope.

(** [authorize_begin]. *)
Definition authorize_begin (s : TenantState) (c : RequestContext) (r : BeginStagedTransaction) :
    Result unit :=
  authorize_scope s c (b_scope r);;
  authorize_manifest s c (b_manifest r);;
  key ← identity (c_principal c) (b_transaction_id r);
  match staged_transactions s !! key with
  | Some stage =>
      if negb (bool_decide (st_scope stage = b_scope r))
      then fail Conflict "staged permanent identity belongs to a different original scope"
      else require_upload_incarnation s stage
  | None => require_current_creation s (b_scope r)
  end.

(** [lookup]. *)
Definition lookup_stage (s : TenantState) (c : RequestContext) (r : StagedTransactionRef) :
    Result StagedTransaction :=
  authorize_scope s c (ref_scope r);;
  if negb (valid_digest (ref_manifest_digest r))
  then fail InvalidArgument "invalid staged manifest digest"
  else
    key ← identity (c_principal c) (ref_transaction_id r);
    stage ← ok_or (staged_transactions s !! key)
      (new_error NotFound "staged transaction not found");
    authorize_manifest s c (st_manifest stage);;
    if negb (bool_decide (st_scope stage = ref_scope r)) ||
       negb (bool_decide (st_manifest_digest stage = ref_manifest_digest r))
    then fail Conflict "staged manifest identity mismatch"
    else Ok stage.

(** [authorize_upload]. *)
Definition authorize_upload (s : TenantState) (c : RequestContext) (r : StagedTransactionRef) :
    Result unit :=
  stage ← lookup_stage s c r;
  require_upload_incarnation s stage.

(** [authorize_stop_envelope], [authorize_stop]. *)
Definition ttl_out_of_bounds (ttl : N) : bool := (ttl =? 0) || (86400000 <? ttl).

Definition authorize_stop_envelope (s : TenantState) (c : RequestContext)
    (r : StopStagedTransaction) : Result unit :=
  authorize_scope s c (b_scope (original r));;
  validate_name (b_transaction_id (original r));;
  if ttl_out_of_bounds (b_ttl_ms (original r))
  then fail InvalidArgument "staged upload TTL outside bounds"
  else
    validate_manifest (b_manifest (original r)) historical_limits;;
    authorize_manifest s c (b_manifest (original r)).

Definition authorize_stop (s : TenantState) (c : RequestContext) (r : StopStagedTransaction) :
    Result unit :=
  authorize_scope s c (b_scope (original r));;
  key ← identity (c_principal c) (b_transaction_id (original r));
  match staged_transactions s !! key with
  | Some stage =>
      if negb (bool_decide (st_scope stage = b_scope (original r)))
      then fail Conflict "staged permanent identity belongs to a different original scope" else Ok tt
  | None => require_current_creation s (b_scope (original r))
  end;;
  authorize_stop_envelope s c r.

(** [validate_admission]. *)
Definition authorize_assertion (s : TenantState) (c : RequestContext) (a : ReadAssertion) :
    Result unit :=
  match a with
  | ADocument name _ _ | ACollection name _ => authorize_state s c (Some name) Read
  | _ => Ok tt
  end.

Definition validate_admission (s : TenantState) (c : RequestContext) (l : list ReadAssertion)
    (now : N) : Result unit :=
  if max_read_assertions (atomic (limits s)) <? len l
  then fail ResourceExhausted "staged stop admission exceeds assertion limit"
  else if negb (existsb (λ a, match a with Snapshot _ _ _ => true | _ => false end) l) ||
          negb (existsb (λ a, match a with Before _ => true | _ => false end) l)
  then fail InvalidArgument "staged stop requires snapshot and deadline assertions"
  else
    try_for_each (authorize_assertion s c) l;;
    validate_read_assertions s l now (max_read_assertions (atomic (limits s))).

(** ** Operations *)

Abbreviation StagedResult := (ST TenantState ReadFailure (Result WriteReceipt * bool)).

(** An operation whose errors are rejections. *)
Definition st_query {A} (m : ST TenantState Error A) : ST TenantState ReadFailure A := λ s,
  let '(s', r) := m s in (s', query r).

Definition new_stage (r : BeginStagedTransaction) (digest : string) (expires : option N)
    (o : StagedOutcome) : StagedTransaction :=
  {| st_scope := b_scope r; st_transaction_id := b_transaction_id r;
     st_manifest_digest := digest; st_manifest := b_manifest r; chunks := ∅;
     stored_chunk_bytes := 0; uploaded_payload_bytes := 0; uploaded_operations := 0;
     uploaded_read_assertions := 0; expires_at_ms := expires; ttl_ms := b_ttl_ms r; outcome := o |}.

(** Work on a copy of the state that replaces it only on success. *)
Definition st_transaction {A} (m : ST TenantState Error A) : ST TenantState Error A := λ s,
  match m s with
  | (s', Ok a) => (s', Ok a)
  | (_, Err e) => (s, Err e)
  end.

(** The [BeginStaged] arm of [apply]. *)
Definition begin_staged (c : Command) (r : BeginStagedTransaction) (revision : N) : StagedResult :=
  st_query (
    s ← st_get;
    st_lift (authorize_manifest s (context c) (b_manifest r));;
    st_lift (reject_if (ttl_out_of_bounds (b_ttl_ms r))
      (new_error InvalidArgument "staged upload TTL outside bounds"));;
    key ← st_lift (identity (c_principal (context c)) (b_transaction_id r));
    d ← st_lift (staged_digest (b_manifest r));
    match staged_transactions s !! key with
    | Some existing =>
        st_lift (reject_if (negb (bool_decide (st_manifest_digest existing = d.1)) ||
                            negb (ttl_ms existing =? b_ttl_ms r))
          (new_error Conflict "staged transaction ID reused for different input"));;
        mret (default (Ok (empty_receipt revision)) (resolved (outcome existing)), false)
    | None =>
        st_lift (validate_manifest (b_manifest r) (limits s));;
        expires ← st_lift (ok_or (checked_add (timestamp_ms c) (b_ttl_ms r))
          (new_error InvalidArgument "staged expiry overflow"));
        st_transaction (
          replace_record key (new_stage r d.1 (Some expires) Uploading);;
          s' ← st_get;
          st_lift (validate_budget s' (limits s')));;
        mret (Ok (empty_receipt revision), false)
    end).

(** The collections a chunk names are declared in the manifest. *)
Definition chunk_writes_declared (m : StagedManifest) (c : StagedChunk) : bool :=
  forallb (λ o, bool_decide ((target o).1 ∈ write_collections m)) (ck_operations c).

Definition chunk_reads_declared (m : StagedManifest) (c : StagedChunk) : bool :=
  forallb (λ a, match a with
                | ADocument name _ _ | ACollection name _ => bool_decide (name ∈ read_collections m)
                | _ => true
                end) (ck_read_set c).

(** The stage with one more chunk. *)
Definition add_chunk (t : StagedTransaction) (index : N) (c : StagedChunk)
    (stored uploaded operations assertions : N) : StagedTransaction :=
  set_chunks (<[index := c]> (chunks t)) (set_counters stored uploaded operations assertions t).

(** The [AppendStaged] arm. *)
Definition append_staged (c : Command) (r : AppendStagedChunk) (revision : N) : StagedResult :=
  st_query (
    s ← st_get;
    stage ← st_lift (lookup_stage s (context c) (ap_transaction r));
    let m := st_manifest stage in
    st_lift (reject_if (len (chunk_digests m) <=? ap_index r)
      (new_error InvalidArgument "staged chunk index outside manifest"));;
    st_lift (validate_chunk (ap_chunk r) (limits s));;
    d ← st_lift (staged_digest (ap_chunk r));
    st_lift (reject_if (negb (bool_decide (chunk_digests m !! N.to_nat (ap_index r) = Some d.1)))
      (new_error Conflict "staged chunk digest mismatch"));;
    st_lift (reject_if (negb (chunk_writes_declared m (ap_chunk r)))
      (new_error Conflict "staged write collection outside manifest"));;
    st_lift (reject_if (negb (chunk_reads_declared m (ap_chunk r)))
      (new_error Conflict "staged read collection outside manifest"));;
    match resolved (outcome stage) with
    | Some o => mret (o, false)
    | None =>
        match chunks stage !! ap_index r with
        | Some _ => mret (Ok (empty_receipt revision), false)
        | None =>
            uploaded ← st_lift (ok_or (checked_add (uploaded_payload_bytes stage) d.2)
              (new_error QuotaExceeded "staging byte overflow"));
            let operations := uploaded_operations stage + len (ck_operations (ap_chunk r)) in
            let assertions := uploaded_read_assertions stage + len (ck_read_set (ap_chunk r)) in
            st_lift (reject_if ((encoded_chunk_bytes m <? uploaded) ||
                                (operation_count m <? operations) ||
                                (read_assertion_count m <? assertions))
              (new_error Conflict "staged payload exceeds manifest declaration"));;
            key ← st_lift (identity (c_principal (context c))
              (ref_transaction_id (ap_transaction r)));
            k ← st_lift (encoded_len (pretty (ap_index r) : string));
            stored ← st_lift (ok_or (checked_add (stored_chunk_bytes stage) (k + 1 + d.2))
              (new_error QuotaExceeded "staging byte overflow"));
            replace_record key
              (add_chunk stage (ap_index r) (ap_chunk r) stored uploaded operations assertions);;
            mret (Ok (empty_receipt revision), false)
        end
    end).

(** [validate_complete]. *)
Record Totals := { t_bytes : N; t_operations : N; t_assertions : N;
                   t_reads : gset string; t_writes : gset string }.

Definition complete_step (t : StagedTransaction) (acc : Totals) (kv : N * StagedChunk) :
    Result Totals :=
  d ← staged_digest kv.2;
  if negb (bool_decide (chunk_digests (st_manifest t) !! N.to_nat kv.1 = Some d.1))
  then fail Corruption "stored staged chunk digest mismatch"
  else Ok {| t_bytes := t_bytes acc + d.2;
             t_operations := t_operations acc + len (ck_operations kv.2);
             t_assertions := t_assertions acc + len (ck_read_set kv.2);
             t_reads := chunk_reads (ck_read_set kv.2) (t_reads acc);
             t_writes := chunk_writes (ck_operations kv.2) (t_writes acc) |}.

Definition validate_complete (t : StagedTransaction) : Result unit :=
  a ← try_fold (complete_step t)
    {| t_bytes := 0; t_operations := 0; t_assertions := 0; t_reads := ∅; t_writes := ∅ |}
    (map_iter (chunks t));
  let m := st_manifest t in
  if negb (t_bytes a =? encoded_chunk_bytes m) || negb (t_operations a =? operation_count m) ||
     negb (t_assertions a =? read_assertion_count m) ||
     negb (bool_decide (t_reads a = read_collections m)) ||
     negb (bool_decide (t_writes a = write_collections m))
  then fail Conflict "complete staged payload does not match manifest" else Ok tt.

(** The operations, the read assertions and the changed documents of a stage,
    in chunk order. *)
Definition stage_operations (t : StagedTransaction) : list Mutation :=
  map_values (chunks t) ≫= ck_operations.

Definition stage_assertions (t : StagedTransaction) : list ReadAssertion :=
  map_values (chunks t) ≫= ck_read_set.

Definition changes (t : StagedTransaction) : gmap string (gset string) :=
  foldl add_change ∅ (stage_operations t).

Section finalize.
Context `{QueryRules} `{IndexRules}.

(** The closure of the [FinalizeStaged] arm, run on the copy of the state. *)
Definition run_stage (t : StagedTransaction) (now revision : N) (resolver : Resolver) :
    ST TenantState ReadFailure WriteReceipt :=
  s ← st_get;
  st_lift (query (validate_complete t));;
  st_lift (query (validate_read_assertions s (stage_assertions t) now
    (max_read_assertions (atomic (limits s)))));;
  receipt ← apply_mutations (stage_operations t) revision false
    (max_transaction_bytes (atomic (limits s))) resolver;
  staged ← st_get;
  st_lift (validate_changes s staged (changes t) resolver);;
  mret receipt.

(** The [FinalizeStaged] arm. *)
Definition finalize_staged (c : Command) (r : StagedTransactionRef) (revision : N)
    (resolver : Resolver) : StagedResult :=
  s ← st_get;
  stage ← st_lift (query (lookup_stage s (context c) r));
  match resolved (outcome stage) with
  | Some o => mret (o, false)
  | None =>
      st_lift (query (reject_if
        (negb (N.of_nat (size (chunks stage)) =? len (chunk_digests (st_manifest stage))))
        (new_error Conflict "staged transaction is incomplete")));;
      key ← st_lift (query (identity (c_principal (context c)) (ref_transaction_id r)));
      match run_stage stage (timestamp_ms c) revision resolver s with
      | (_, Err (FSource e)) => st_lift (Err (FSource e))
      | (_, Err (FQuery e)) =>
          if bool_decide (code e = Corruption) then st_lift (Err (FQuery e))
          else
            st_query (replace_record key (terminal stage (Err e)));;
            mret (Err e, false)
      | (staged, Ok receipt) =>
          match replace_record key (terminal stage (Ok receipt)) staged with
          | (staged', Ok _) => st_put staged';; mret (Ok receipt, true)
          | (_, Err e) => st_lift (Err (FQuery e))
          end
      end
  end.
End finalize.

(** The [StopStaged] arm. *)
Definition stop_staged (c : Command) (r : StopStagedTransaction) (revision : N) : StagedResult :=
  st_query (
    s ← st_get;
    ref ← st_lift (reference (original r));
    key ← st_lift (identity (c_principal (context c)) (ref_transaction_id ref));
    match staged_transactions s !! key with
    | Some stage =>
        st_lift (authorize_manifest s (context c) (st_manifest stage));;
        st_lift (reject_if (negb (bool_decide (st_manifest_digest stage = ref_manifest_digest ref)) ||
                            negb (ttl_ms stage =? b_ttl_ms (original r)))
          (new_error Conflict "staged transaction ID reused for different input"));;
        if negb (is_active stage) then mret (Ok (empty_receipt revision), false)
        else
          replace_record key
            (set_outcome (Aborted (empty_receipt revision)) (clear_payload stage));;
          mret (Ok (empty_receipt revision), false)
    | None =>
        replace_record key (new_stage (original r) (ref_manifest_digest ref) None
          (Aborted (empty_receipt revision)));;
        mret (Ok (empty_receipt revision), false)
    end).

(** ** The whole handler *)

(** The authorization before expiry. *)
Definition authorize_staged (s : TenantState) (c : Command) : Result unit :=
  authorize_discovery_state s (context c) Write;;
  match operation c with
  | BeginStaged r => authorize_begin s (context c) r
  | AppendStaged r => authorize_upload s (context c) (ap_transaction r)
  | FinalizeStaged r => authorize_upload s (context c) r
  | StopStaged r =>
      authorize_stop s (context c) r;;
      validate_admission s (context c) (admission r) (timestamp_ms c)
  | _ => Ok tt
  end.

(** [staging::apply]. *)
Definition apply_staged `{QueryRules} `{IndexRules} (c : Command) (revision : N)
    (resolver : Resolver) : StagedResult :=
  s ← st_get;
  st_lift (query (authorize_staged s c));;
  st_query (expire_active (timestamp_ms c) revision);;
  match operation c with
  | BeginStaged r => begin_staged c r revision
  | AppendStaged r => append_staged c r revision
  | FinalizeStaged r => finalize_staged c r revision resolver
  | StopStaged r => stop_staged c r revision
  | _ => st_lift (deny InvalidArgument "operation is not staged")
  end.

(** ** The check of a restored snapshot *)

(** [SnapshotChunks] and [add]. *)
Record SnapshotChunks := { sc_stored : N; sc_payload : N; sc_operations : N; sc_assertions : N;
                           sc_chunks : N }.

Definition no_chunks : SnapshotChunks :=
  {| sc_stored := 0; sc_payload := 0; sc_operations := 0; sc_assertions := 0; sc_chunks := 0 |}.

Definition staged_overflow : Error := new_error Corruption "staged accounting overflow".

Definition snapshot_add (t : StagedTransaction) (l : Limits) (a : SnapshotChunks)
    (kv : N * StagedChunk) : Result SnapshotChunks :=
  validate_chunk kv.2 l;;
  d ← staged_digest kv.2;
  if negb (bool_decide (chunk_digests (st_manifest t) !! N.to_nat kv.1 = Some d.1))
  then fail Corruption "restored staged chunk mismatch"
  else
    k ← encoded_len (pretty kv.1 : string);
    entry ← ok_or (checked_add k 1 ≫= λ n, checked_add n d.2) staged_overflow;
    stored ← ok_or (checked_add (sc_stored a) entry) staged_overflow;
    payload ← ok_or (checked_add (sc_payload a) d.2) staged_overflow;
    operations ← ok_or (checked_add (sc_operations a) (len (ck_operations kv.2))) staged_overflow;
    assertions ← ok_or (checked_add (sc_assertions a) (len (ck_read_set kv.2))) staged_overflow;
    count ← ok_or (checked_add (sc_chunks a) 1) staged_overflow;
    Ok {| sc_stored := stored; sc_payload := payload; sc_operations := operations;
          sc_assertions := assertions; sc_chunks := count |}.

(** [validate_snapshot_record]: whether the identity is active. *)
Definition receipt_invalid (revision : N) (r : WriteReceipt) : bool :=
  (revision <? wr_revision r) || negb (bool_decide (versions r = ∅)).

Definition validate_snapshot_record (key : string) (t : StagedTransaction) (s : TenantState)
    (a : SnapshotChunks) : Result bool :=
  validate_manifest (st_manifest t) historical_limits;;
  validate_scope_lineage s (st_scope t);;
  id ← identity (sc_principal (st_scope t)) (st_transaction_id t);
  reject_if (negb (bool_decide (id = key)))
    (new_error Corruption "invalid staged identity or expiry");;
  d ← staged_digest (st_manifest t);
  if negb (bool_decide (d.1 = st_manifest_digest t)) ||
     ttl_out_of_bounds (ttl_ms t) ||
     match expires_at_ms t with
     | Some e => e <? ttl_ms t
     | None => match outcome t with Aborted _ => false | _ => true end
     end
  then fail Corruption "invalid staged identity or expiry"
  else if negb (sc_stored a =? stored_chunk_bytes t) ||
          negb (sc_payload a =? uploaded_payload_bytes t) ||
          negb (sc_operations a =? uploaded_operations t) ||
          negb (sc_assertions a =? uploaded_read_assertions t) ||
          (encoded_chunk_bytes (st_manifest t) <? sc_payload a) ||
          (operation_count (st_manifest t) <? sc_operations a) ||
          (read_assertion_count (st_manifest t) <? sc_assertions a)
  then fail Corruption "staged chunk accounting mismatch"
  else
    match outcome t with
    | Uploading => Ok true
    | Aborted r | Expired r =>
        if negb (sc_chunks a =? 0) || receipt_invalid (revision s) r
        then fail Corruption "invalid canceled staged outcome" else Ok false
    | Finished o =>
        if negb (sc_chunks a =? 0) ||
           match o with Ok r => receipt_invalid (revision s) r | Err _ => false end
        then fail Corruption "invalid terminal staged outcome" else Ok false
    end.

(** One iteration of [validate_restored]: the active identities, the used and
    the reserved bytes. *)
Definition restored_step (s : TenantState) (acc : gset string * N * N)
    (kv : string * StagedTransaction) : Result (gset string * N * N) :=
  let '(active, used, reserved) := acc in
  let '(key, t) := kv in
  if negb (is_active t) then fail Corruption "resident staging contains a terminal identity"
  else
    charge ← permanent_charge key t;
    used' ← ok_or (checked_add used charge.1)
      (new_error Corruption "permanent staged bytes overflow");
    reserved' ← ok_or (checked_add reserved charge.2)
      (new_error Corruption "staged terminal reserve overflow");
    a ← try_fold (snapshot_add t (limits s)) no_chunks (map_iter (chunks t));
    is_upload ← validate_snapshot_record key t s a;
    Ok (if is_upload : bool then {[key]} ∪ active else active, used', reserved').

(** [validate_restored]. *)
Definition validate_staging (s : TenantState) : Result unit :=
  validate_budget s (limits s);;
  acc ← try_fold (restored_step s) (∅, th_encoded_bytes (staged_terminal_head s), 0)
    (map_iter (staged_transactions s));
  let '(active, used, reserved) := acc in
  if negb (used =? permanent_staged_bytes s) || negb (reserved =? reserved_staged_terminal_bytes s)
  then fail Corruption "permanent staged counters mismatch"
  else if negb (bool_decide (active = active_staged_transactions s))
  then fail Corruption "staged active index mismatch" else Ok tt.
End staging.

(** ** The life of a staged identity *)

Lemma replace_record_inv key stage s s' r :
  replace_record key stage s = (s', r) →
  (∃ e, r = Err e ∧ s' = s) ∨
  ∃ totals, r = Ok tt ∧ record_totals s key stage = Ok totals ∧ s' = store_record key stage totals s.
Proof.
  unfold replace_record. rewrite st_bind_get.
  intros [(e & [= -> He] & ->)|(s1 & t & [-> Ht]%st_lift_Ok & [= <- <-])]%st_bind_inv;
    [left; by exists e|right; by exists t].
Qed.

(** The state machine of an identity. [s] supplies the limits, the lineage and
    the revision; a record is created, extended by a verified chunk while it is
    active, or ended. *)
Section machine.
Context `{Sha256}.

(** A receipt of a staged outcome: no later than the state, without versions. *)
Definition outcome_ok (s : TenantState) (o : StagedOutcome) : Prop :=
  match o with
  | Uploading => False
  | Finished (Ok r) | Aborted r | Expired r => receipt_invalid (revision s) r = false
  | Finished (Err _) => True
  end.

Definition identity_ok (s : TenantState) (key : string) (r : BeginStagedTransaction) (d : string) :
    Prop :=
  identity (sc_principal (b_scope r)) (b_transaction_id r) = Ok key ∧
  (∃ n, staged_digest (b_manifest r) = Ok (d, n)) ∧ ttl_out_of_bounds (b_ttl_ms r) = false ∧
  validate_scope_lineage s (b_scope r) = Ok tt.

(** The chunk belongs to the manifest at this index, and the counters are
    advanced by exactly its sizes. *)
Definition upload_ok (s : TenantState) (t : StagedTransaction) (index : N) (c : StagedChunk)
    (stored uploaded operations assertions : N) : Prop :=
  chunks t !! index = None ∧ validate_chunk c (limits s) = Ok tt ∧
  ∃ d n k, staged_digest c = Ok (d, n) ∧ encoded_len (pretty index : string) = Ok k ∧
    chunk_digests (st_manifest t) !! N.to_nat index = Some d ∧
    stored = stored_chunk_bytes t + (k + 1 + n) ∧ stored ≤ u64_max ∧
    uploaded = uploaded_payload_bytes t + n ∧
    operations = uploaded_operations t + len (ck_operations c) ∧
    assertions = uploaded_read_assertions t + len (ck_read_set c) ∧
    uploaded ≤ encoded_chunk_bytes (st_manifest t) ∧
    operations ≤ operation_count (st_manifest t) ∧
    assertions ≤ read_assertion_count (st_manifest t).

Inductive transition (s : TenantState) (key : string) :
    option StagedTransaction → StagedTransaction → Prop :=
| tr_begin r d expires :
    identity_ok s key r d → validate_manifest (b_manifest r) (limits s) = Ok tt →
    b_ttl_ms r ≤ expires →
    transition s key None (new_stage r d (Some expires) Uploading)
| tr_tombstone r d receipt :
    identity_ok s key r d → validate_manifest (b_manifest r) historical_limits = Ok tt →
    receipt_invalid (revision s) receipt = false →
    transition s key None (new_stage r d None (Aborted receipt))
| tr_upload t index c stored uploaded operations assertions :
    is_active t = true → upload_ok s t index c stored uploaded operations assertions →
    transition s key (Some t) (add_chunk t index c stored uploaded operations assertions)
| tr_end t o :
    is_active t = true → outcome_ok s o →
    transition s key (Some t) (set_outcome o (clear_payload t)).

(** A step of the tenant state: one record moves, or documents change. *)
Inductive staged_step : TenantState → TenantState → Prop :=
| step_record s key stage totals :
    transition s key (staged_transactions s !! key) stage →
    record_totals s key stage = Ok totals →
    (staged_transactions s !! key = None → is_active stage = true →
     validate_budget (store_record key stage totals s) (limits s) = Ok tt) →
    staged_step s (store_record key stage totals s)
| step_documents s s' :
    s' = with_documents_of s s' →
    staged_step s s'.
End machine.

Section lives.
Context `{Sha256} `{UuidParse}.

(** The state after running [m], however it ends, is reached by steps. *)
Definition steps {E A} (m : ST TenantState E A) (s : TenantState) : Prop :=
  ∀ s' r, m s = (s', r) → rtc staged_step s s'.

Lemma steps_lift {E A} (r : result E A) s : steps (st_lift r) s.
Proof. by intros s' r' [= <- _]. Qed.

Lemma steps_ret {E A} (a : A) s : steps (E := E) (mret a) s.
Proof. by intros s' r' [= <- _]. Qed.

Lemma steps_bind {E A B} (m : ST TenantState E A) (f : A → ST TenantState E B) s :
  steps m s → (∀ s1 a, m s = (s1, Ok a) → steps (f a) s1) → steps (m ≫= f) s.
Proof.
  intros Hm Hf s' r [(e & He & _)|(s1 & a & Ha & Hr)]%st_bind_inv; [by eapply Hm|].
  etrans; [by eapply Hm|by eapply Hf].
Qed.

Lemma steps_bind_lift {E A B} (r : result E A) (f : A → ST TenantState E B) s :
  (∀ a, r = Ok a → steps (f a) s) → steps (st_lift r ≫= f) s.
Proof. intros Hf. apply steps_bind; [apply steps_lift|]. intros s1 a [-> Ha]%st_lift_Ok. auto. Qed.

Lemma steps_bind_get {E B} (f : TenantState → ST TenantState E B) s :
  steps (f s) s → steps (st_get ≫= f) s.
Proof. intros Hf s' r. rewrite st_bind_get. apply Hf. Qed.

Lemma steps_query {A} (m : ST TenantState Error A) s : steps m s → steps (st_query m) s.
Proof.
  intros Hm s' r. unfold st_query. destruct (m s) as [s1 r1] eqn:Hr. intros [= <- _]. by eapply Hm.
Qed.

Lemma steps_transaction {A} (m : ST TenantState Error A) s : steps m s → steps (st_transaction m) s.
Proof.
  intros Hm s' r. unfold st_transaction. destruct (m s) as [s1 [a|e]] eqn:Hr; intros [= <- _]; [|done].
  by eapply Hm.
Qed.

Lemma steps_replace key stage s :
  transition s key (staged_transactions s !! key) stage →
  is_Some (staged_transactions s !! key) ∨ is_active stage = false →
  steps (replace_record key stage) s.
Proof.
  intros Hs Hor s' r [(e & _ & ->)|(t & _ & Ht & ->)]%replace_record_inv; [done|].
  apply rtc_once. constructor; [done..|]. intros Hnone Hact.
  destruct Hor as [[? ?]|?]; congruence.
Qed.

(** Creating an upload is one step: it only counts when the budget holds. *)
Lemma steps_create key stage s :
  transition s key (staged_transactions s !! key) stage →
  steps (st_transaction (replace_record key stage;; s' ← st_get;
           st_lift (validate_budget s' (limits s')))) s.
Proof.
  intros Hs s' r. unfold st_transaction.
  match goal with |- match ?x with _ => _ end = _ → _ => destruct x as [s1 [[]|e]] eqn:Hrun end;
    intros [= <- _]; [|done].
  apply st_bind_Ok in Hrun as (s2 & [] & Hrep & Hb). rewrite st_bind_get in Hb.
  apply st_lift_Ok in Hb as [-> Hb].
  apply replace_record_inv in Hrep as [(e & ? & _)|(t & _ & Ht & ->)]; [done|].
  apply rtc_once. by constructor.
Qed.

(** Run the deterministic prefix of an operation. *)
Ltac run_steps :=
  repeat first
    [ apply steps_query
    | apply steps_bind_get
    | apply steps_bind_lift; intros ? ?
    | apply steps_lift
    | apply steps_ret ].

(** The active index lists the active uploads. *)
Definition index_ok (s : TenantState) : Prop :=
  ∀ key, key ∈ active_staged_transactions s ↔
    ∃ t, staged_transactions s !! key = Some t ∧ is_active t = true.

Lemma empty_receipt_ok s : receipt_invalid (revision s) (empty_receipt (revision s)) = false.
Proof. unfold receipt_invalid. cbn. by rewrite N.ltb_irrefl, bool_decide_true. Qed.

Lemma expire_keys_steps rev l : ∀ s,
  revision s = rev → NoDup l →
  (∀ key, key ∈ l → ∃ t, staged_transactions s !! key = Some t ∧ is_active t = true) →
  steps (st_fold (λ _ : unit, expire_key rev) tt l) s.
Proof.
  induction l as [|key l IH]; intros s Hr Hnd Hl; [apply steps_ret|].
  apply NoDup_cons in Hnd as [Hk Hnd].
  assert (Hstep : steps (expire_key rev key) s).
  { unfold expire_key. apply steps_bind_get. destruct (Hl key) as (t & Ht & Ha); [by left|].
    rewrite Ht. apply steps_replace; rewrite Ht; [|by left; eexists].
    apply tr_end; [done|]. subst rev. apply empty_receipt_ok. }
  apply (steps_bind (expire_key rev key)); [done|].
  intros s1 [] Hrun. destruct (Hl key) as (t0 & Ht0 & _); [by left|].
  unfold expire_key in Hrun. rewrite st_bind_get, Ht0 in Hrun.
  apply replace_record_inv in Hrun as [(e & ? & _)|(totals & _ & _ & ->)]; [done|].
  apply IH; [done..|]. intros key' Hin. destruct (Hl key') as (t & Ht & Ha); [by right|].
  exists t. split; [|done]. cbn. rewrite lookup_insert_ne; [done|]. by intros ->.
Qed.

Lemma expire_active_steps now s : index_ok s → steps (expire_active now (revision s)) s.
Proof.
  intros Hix. unfold expire_active. apply steps_bind_get. apply expire_keys_steps; [done|..].
  - apply NoDup_filter, set_iter_NoDup.
  - intros key [_ Hin]%list_elem_of_filter. by apply Hix, set_iter_elem.
Qed.

Lemma lookup_stage_Ok s c r stage :
  lookup_stage s c r = Ok stage →
  ∃ key, identity (c_principal c) (ref_transaction_id r) = Ok key ∧
    staged_transactions s !! key = Some stage ∧
    st_scope stage = ref_scope r ∧ st_manifest_digest stage = ref_manifest_digest r ∧
    authorize_manifest s c (st_manifest stage) = Ok tt.
Proof.
  unfold lookup_stage. intros Hl. apply seq_Ok in Hl as [_ Hl]. apply reject_Ok in Hl as [_ Hl].
  apply bind_Ok in Hl as (key & Hk & Hl). apply bind_Ok in Hl as (t & Ht%ok_or_Ok & Hl).
  apply seq_Ok in Hl as [Ha Hl]. apply reject_Ok in Hl as [Hg [= <-]].
  rewrite orb_false_iff, !negb_false_iff, !bool_decide_eq_true in Hg. exists key. naive_solver.
Qed.

Lemma authorize_scope_Ok s c scope :
  authorize_scope s c scope = Ok tt →
  sc_principal scope = c_principal c ∧ validate_scope_lineage s scope = Ok tt.
Proof.
  unfold authorize_scope. intros (_ & (_ & Hr)%seq_Ok)%seq_Ok. apply reject_Ok in Hr as [Hg Hr].
  rewrite !orb_false_iff, !negb_false_iff, !bool_decide_eq_true in Hg. naive_solver.
Qed.

Lemma resolved_None_active t : resolved (outcome t) = None → is_active t = true.
Proof. unfold is_active. by destruct (outcome t). Qed.

Lemma begin_staged_steps c r rev s :
  sc_principal (b_scope r) = c_principal (context c) →
  validate_scope_lineage s (b_scope r) = Ok tt →
  steps (begin_staged c r rev) s.
Proof.
  intros Hp Hsc. unfold begin_staged. apply steps_query, steps_bind_get, steps_bind_lift.
  intros [] _. apply steps_bind_lift. intros [] Httl%reject_if_Ok. apply steps_bind_lift.
  intros key Hk. apply steps_bind_lift. intros [d n] Hd.
  destruct (staged_transactions s !! key) as [t|] eqn:Ht; [run_steps|]. apply steps_bind_lift.
  intros [] Hm. apply steps_bind_lift. intros e He%ok_or_Ok%checked_add_Some.
  destruct He as [-> _]. apply steps_bind; [|intros; run_steps].
  apply steps_create. rewrite Ht. apply tr_begin; [|done|lia].
  split; [by rewrite Hp|]. split; [by exists n|done].
Qed.

Lemma append_staged_steps c r rev s : steps (append_staged c r rev) s.
Proof.
  unfold append_staged. apply steps_query, steps_bind_get, steps_bind_lift. intros stage Hst.
  apply lookup_stage_Ok in Hst as (key & Hk & Hkey & _).
  apply steps_bind_lift. intros [] _. apply steps_bind_lift. intros [] Hv.
  apply steps_bind_lift. intros [d n] Hd.
  apply steps_bind_lift. intros [] Hdig%reject_if_Ok%negb_false_iff%bool_decide_eq_true.
  apply steps_bind_lift. intros [] _. apply steps_bind_lift. intros [] _.
  destruct (resolved (outcome stage)) as [o|] eqn:Ho; [run_steps|].
  destruct (chunks stage !! ap_index r) eqn:Hc; [run_steps|].
  apply steps_bind_lift. intros up Hup%ok_or_Ok%checked_add_Some.
  apply steps_bind_lift. intros [] Hb%reject_if_Ok. apply steps_bind_lift. intros key' Hk'.
  rewrite Hk in Hk'. injection Hk' as <-. apply steps_bind_lift. intros k Hkl.
  apply steps_bind_lift. intros st Hst%ok_or_Ok%checked_add_Some.
  apply steps_bind; [|intros; run_steps]. apply steps_replace; rewrite Hkey; [|by left; eexists].
  rewrite !orb_false_iff, !N.ltb_ge in Hb. cbn [fst snd] in *.
  apply tr_upload; [by apply resolved_None_active|]. split; [done|]. split; [done|].
  exists d, n, k. naive_solver.
Qed.

Lemma reference_Ok r ref :
  reference r = Ok ref →
  ref_transaction_id ref = b_transaction_id r ∧
  ∃ n, staged_digest (b_manifest r) = Ok (ref_manifest_digest ref, n).
Proof.
  unfold reference. intros (_ & (_ & Hr)%seq_Ok)%seq_Ok. apply bind_Ok in Hr as ([d n] & Hd & [= <-]).
  split; [done|]. by exists n.
Qed.

Lemma stop_staged_steps c r rev s :
  revision s = rev → sc_principal (b_scope (original r)) = c_principal (context c) →
  validate_scope_lineage s (b_scope (original r)) = Ok tt →
  ttl_out_of_bounds (b_ttl_ms (original r)) = false →
  validate_manifest (b_manifest (original r)) historical_limits = Ok tt →
  steps (stop_staged c r rev) s.
Proof.
  intros <- Hp Hsc Httl Hm. unfold stop_staged. apply steps_query, steps_bind_get, steps_bind_lift.
  intros ref (Hid & n & Hd)%reference_Ok. apply steps_bind_lift. intros key Hk.
  destruct (staged_transactions s !! key) as [t|] eqn:Ht.
  - run_steps. destruct (negb (is_active t)) eqn:Ha; [run_steps|]. apply negb_false_iff in Ha.
    apply steps_bind; [|intros; run_steps]. apply steps_replace; rewrite Ht; [|by left; eexists].
    apply tr_end; [done|apply empty_receipt_ok].
  - apply steps_bind; [|intros; run_steps]. apply steps_replace; rewrite Ht; [|by right].
    apply tr_tombstone; [|done|apply empty_receipt_ok].
    split; [by rewrite Hp, <-Hid|]. split; [by exists n|done].
Qed.

(** What no staged step touches. *)
Definition same_context (s s' : TenantState) : Prop :=
  revision s' = revision s ∧ limits s' = limits s ∧ tenant s' = tenant s ∧
  incarnation s' = incarnation s ∧ restore_lineage s' = restore_lineage s ∧
  staged_terminal_head s' = staged_terminal_head s ∧ policy s' = policy s.

Lemma staged_step_context s s' : staged_step s s' → same_context s s'.
Proof. intros [? ? ? ? _ _ _|? ? Hd]; [done|]. by rewrite Hd. Qed.

Lemma steps_context s s' : rtc staged_step s s' → same_context s s'.
Proof.
  induction 1 as [|s1 s2 s3 H1%staged_step_context _ H2]; [done|].
  unfold same_context in *. naive_solver congruence.
Qed.

Lemma lineage_context s s' scope :
  same_context s s' → validate_scope_lineage s' scope = validate_scope_lineage s scope.
Proof. intros (_ & _ & Ht & Hi & Hl & _). unfold validate_scope_lineage. by rewrite Ht, Hi, Hl. Qed.

Lemma authorize_stop_Ok s c r :
  authorize_stop s c r = Ok tt →
  sc_principal (b_scope (original r)) = c_principal c ∧
  validate_scope_lineage s (b_scope (original r)) = Ok tt ∧
  ttl_out_of_bounds (b_ttl_ms (original r)) = false ∧
  validate_manifest (b_manifest (original r)) historical_limits = Ok tt.
Proof.
  unfold authorize_stop. intros (Hsc & Hr)%seq_Ok. apply bind_Ok in Hr as (key & _ & Hr).
  apply seq_Ok in Hr as [_ Hr]. unfold authorize_stop_envelope in Hr.
  apply seq_Ok in Hr as [_ Hr]. apply seq_Ok in Hr as [_ Hr]. apply reject_Ok in Hr as [Ht Hr].
  apply seq_Ok in Hr as [Hm _]. apply authorize_scope_Ok in Hsc as [? ?]. done.
Qed.

Section finalize.
Context `{QueryRules} `{IndexRules}.

Lemma run_stage_Ok t now rev resolver s s' receipt :
  run_stage t now rev resolver s = (s', Ok receipt) →
  validate_complete t = Ok tt ∧
  validate_read_assertions s (stage_assertions t) now (max_read_assertions (atomic (limits s))) = Ok tt ∧
  apply_mutations (stage_operations t) rev false (max_transaction_bytes (atomic (limits s)))
    resolver s = (s', Ok receipt) ∧
  validate_changes s s' (changes t) resolver = Ok tt.
Proof.
  unfold run_stage. rewrite st_bind_get. intros Hr.
  apply st_bind_Ok in Hr as (s1 & [] & [-> Hc%query_Ok]%st_lift_Ok & Hr).
  apply st_bind_Ok in Hr as (s1 & [] & [-> Ha%query_Ok]%st_lift_Ok & Hr).
  apply st_bind_Ok in Hr as (s1 & rc & Hm & Hr). rewrite st_bind_get in Hr.
  apply st_bind_Ok in Hr as (s2 & [] & [-> Hv]%st_lift_Ok & Hr).
  apply st_ret_Ok in Hr as [-> ->]. by split_and!.
Qed.

Lemma record_versions_false rev v ops : record_versions false rev v ops = v.
Proof. unfold record_versions. by induction ops. Qed.

(** A batch without version reporting. *)
Lemma apply_mutations_plain ops rev limit resolver s s' receipt :
  apply_mutations ops rev false limit resolver s = (s', Ok receipt) →
  s' = with_documents_of s s' ∧ receipt = empty_receipt rev.
Proof.
  intros (pr & Hf & _ & _ & ->)%apply_mutations_Ok.
  apply apply_loop_Ok in Hf as (_ & _ & [Hr _ _] & _ & _ & _ & Hv). split; [done|].
  by rewrite Hv, record_versions_false.
Qed.

Lemma finalize_staged_steps c r rev resolver s :
  revision s = rev → steps (finalize_staged c r rev resolver) s.
Proof.
  intros <-. unfold finalize_staged. apply steps_bind_get, steps_bind_lift. intros stage Hst%query_Ok.
  apply lookup_stage_Ok in Hst as (key & Hk & Hkey & _).
  destruct (resolved (outcome stage)) as [o|] eqn:Ho; [run_steps|].
  apply resolved_None_active in Ho. apply steps_bind_lift. intros [] _. apply steps_bind_lift.
  intros key' Hk'%query_Ok. rewrite Hk in Hk'. injection Hk' as <-.
  destruct (run_stage _ _ _ _ _) as [staged [receipt|[e|e]]] eqn:Hrun; [|run_steps|].
  - apply run_stage_Ok in Hrun as (_ & _ & (Hm & ->)%apply_mutations_plain & _).
    destruct (replace_record _ _ staged) as [staged' [[]|e]] eqn:Hrep; [|run_steps].
    intros s' x Hput. apply (f_equal fst) in Hput. cbn in Hput. subst s'.
    eapply rtc_l; [by apply step_documents|].
    eapply (steps_replace key (terminal stage _) staged); [|by right|exact Hrep].
    assert (Hctx : same_context s staged) by (apply staged_step_context; by constructor 2).
    assert (Hst : staged_transactions staged !! key = Some stage) by (by rewrite Hm).
    rewrite Hst. apply tr_end; [done|]. rewrite <-(proj1 Hctx). apply empty_receipt_ok.
  - case_bool_decide; [run_steps|]. apply steps_bind; [|intros; run_steps].
    apply steps_query, steps_replace; [rewrite Hkey; by apply tr_end|by right].
Qed.

(** However a staged command ends, it only takes steps of the machine. *)
Lemma apply_staged_steps c rev resolver s :
  index_ok s → revision s = rev → steps (apply_staged c rev resolver) s.
Proof.
  intros Hix Hr. unfold apply_staged. apply steps_bind_get, steps_bind_lift. intros [] Ha%query_Ok.
  apply steps_bind; [subst; by apply steps_query, expire_active_steps|]. intros s1 [] Hex.
  assert (Hctx : same_context s s1).
  { unfold st_query in Hex. destruct (expire_active _ _ s) as [s2 x] eqn:Hx. injection Hex as <- _.
    apply steps_context. subst. by eapply expire_active_steps. }
  unfold authorize_staged in Ha. apply seq_Ok in Ha as [_ Ha].
  assert (Hr1 : revision s1 = rev) by (rewrite <-Hr; apply Hctx).
  destruct (operation c) as [| | | |r|r|r|r| | | | | | | | | |]; try apply steps_lift.
  - unfold authorize_begin in Ha. apply seq_Ok in Ha as [[Hp Hl]%authorize_scope_Ok _].
    apply begin_staged_steps; [done|]. by rewrite (lineage_context s).
  - apply append_staged_steps.
  - by apply finalize_staged_steps.
  - apply seq_Ok in Ha as [(Hp & Hl & Ht & Hm)%authorize_stop_Ok _].
    apply stop_staged_steps; try done. by rewrite (lineage_context s).
Qed.
End finalize.
End lives.

(** ** Invariants of the machine *)

Section invariants.
Context `{Sha256} `{UuidParse}.

(** What stays fixed for the life of an identity. *)
Definition same_identity (t t' : StagedTransaction) : Prop :=
  st_scope t' = st_scope t ∧ st_transaction_id t' = st_transaction_id t ∧
  st_manifest_digest t' = st_manifest_digest t ∧ st_manifest t' = st_manifest t ∧
  ttl_ms t' = ttl_ms t ∧ expires_at_ms t' = expires_at_ms t.

Definition permanent (s s' : TenantState) : Prop :=
  ∀ key t, staged_transactions s !! key = Some t →
    ∃ t', staged_transactions s' !! key = Some t' ∧ same_identity t t' ∧
      (is_active t = false → t' = t).

Lemma with_documents_staged s s' :
  s' = with_documents_of s s' →
  staged_transactions s' = staged_transactions s ∧
  active_staged_transactions s' = active_staged_transactions s ∧
  permanent_staged_bytes s' = permanent_staged_bytes s ∧
  reserved_staged_terminal_bytes s' = reserved_staged_terminal_bytes s ∧ limits s' = limits s.
Proof. intros Hd. by rewrite Hd. Qed.

Lemma staged_step_permanent s s' : staged_step s s' → permanent s s'.
Proof.
  intros [s0 key stage totals Htr _ _|s0 s1 Hd] k t Hk.
  - cbn. destruct (decide (key = k)) as [->|Hne].
    + rewrite lookup_insert_eq. exists stage. split; [done|]. rewrite Hk in Htr.
      inversion Htr; subst; by split; [|intros Ha; congruence].
    + rewrite lookup_insert_ne by done. exists t. by split_and!.
  - apply with_documents_staged in Hd as (-> & _). exists t. by split_and!.
Qed.

Lemma steps_permanent s s' : rtc staged_step s s' → permanent s s'.
Proof.
  induction 1 as [s|s1 s2 s3 H1%staged_step_permanent _ IH]; intros k t Hk.
  - exists t. by split_and!.
  - destruct (H1 _ _ Hk) as (t1 & Hk1 & Hid & Hact). destruct (IH _ _ Hk1) as (t2 & Hk2 & Hid2 & Hact2).
    exists t2. split; [done|]. split; [unfold same_identity in *; naive_solver congruence|].
    intros Ha. specialize (Hact Ha). subst t1. auto.
Qed.

(** *** Accounting *)

Definition used_of (key : string) (t : StagedTransaction) : N :=
  match permanent_charge key t with Ok c => c.1 | Err _ => 0 end.
Definition reserved_of (key : string) (t : StagedTransaction) : N :=
  match permanent_charge key t with Ok c => c.2 | Err _ => 0 end.

(** [base] is the part of the permanent bytes owned by records that are not
    resident. *)
Definition accounted_stages (base : N) (s : TenantState) : Prop :=
  index_ok s ∧
  (∀ key t, staged_transactions s !! key = Some t → ∃ c, permanent_charge key t = Ok c) ∧
  permanent_staged_bytes s = base + wsum used_of (staged_transactions s) ∧
  reserved_staged_terminal_bytes s = wsum reserved_of (staged_transactions s) ∧
  permanent_staged_bytes s + reserved_staged_terminal_bytes s ≤
    max_permanent_staged_bytes (atomic (limits s)).

#[local] Opaque permanent_charge.

Lemma charge_of key t c : permanent_charge key t = Ok c → used_of key t = c.1 ∧ reserved_of key t = c.2.
Proof. unfold used_of, reserved_of. by intros ->. Qed.

Lemma record_totals_Ok s key stage used reserved :
  record_totals s key stage = Ok (used, reserved) →
  (∃ c, permanent_charge key stage = Ok c) ∧
  used + from_option (used_of key) 0 (staged_transactions s !! key) =
    permanent_staged_bytes s + used_of key stage ∧
  reserved + from_option (reserved_of key) 0 (staged_transactions s !! key) =
    reserved_staged_terminal_bytes s + reserved_of key stage ∧
  used + reserved ≤ max_permanent_staged_bytes (atomic (limits s)).
Proof.
  unfold record_totals. intros Hr. apply bind_Ok in Hr as ([ou orv] & Ho & Hr).
  apply bind_Ok in Hr as ([nu nr] & Hn & Hr). apply seq_Ok in Hr as [_ Hr]. cbn [fst snd] in Hr.
  apply bind_Ok in Hr as (u & Hu%ok_or_Ok & Hr). apply bind_Ok in Hr as (v & Hv%ok_or_Ok & Hr).
  apply seq_Ok in Hr as [Hq%reject_if_Ok [= -> ->]].
  apply bind_Some in Hu as (u1 & Hu1%checked_sub_Some & Hu2%checked_add_Some).
  apply bind_Some in Hv as (v1 & Hv1%checked_sub_Some & Hv2%checked_add_Some).
  destruct (charge_of _ _ _ Hn) as [-> ->]. cbn [fst snd]. split; [by eexists|].
  assert (Hold : from_option (used_of key) 0 (staged_transactions s !! key) = ou ∧
                 from_option (reserved_of key) 0 (staged_transactions s !! key) = orv).
  { destruct (staged_transactions s !! key) as [t|]; [|by injection Ho as <- <-].
    cbn [from_option]. by apply charge_of in Ho. }
  destruct Hold as [-> ->].
  destruct (checked_add _ _) as [n|] eqn:Hc; [|done]. apply checked_add_Some in Hc as [-> _].
  apply N.ltb_ge in Hq. split_and!; lia.
Qed.

Lemma store_record_index s key stage totals :
  index_ok s → index_ok (store_record key stage totals s).
Proof.
  intros Hix k. unfold store_record. cbn.
  destruct (decide (k = key)) as [->|Hne].
  - rewrite lookup_insert_eq. destruct (is_active stage) eqn:Ha.
    + split; [intros _; by exists stage|intros _; set_solver].
    + split; [set_solver|intros (t & [= <-] & Ht); congruence].
  - rewrite lookup_insert_ne by done. rewrite <-(Hix k). destruct (is_active stage); set_solver.
Qed.

Lemma store_record_accounted base s key stage totals :
  accounted_stages base s → record_totals s key stage = Ok totals →
  accounted_stages base (store_record key stage totals s).
Proof.
  destruct totals as [used reserved]. intros (Hix & Hch & Hu & Hr & Hb) Ht.
  apply record_totals_Ok in Ht as ([c Hc] & Hused & Hres & Hmax).
  split; [by apply store_record_index|]. split; [|split; [|split]].
  - intros k t. cbn. intros [[<- <-]|[_ Hk]]%lookup_insert_Some; [by exists c|by eapply Hch].
  - cbn. destruct (staged_transactions s !! key) as [t|] eqn:Hk; cbn [from_option] in *.
    + pose proof (wsum_insert_old used_of _ _ stage _ Hk). lia.
    + rewrite wsum_insert_new by done. lia.
  - cbn. destruct (staged_transactions s !! key) as [t|] eqn:Hk; cbn [from_option] in *.
    + pose proof (wsum_insert_old reserved_of _ _ stage _ Hk). lia.
    + rewrite wsum_insert_new by done. lia.
  - exact Hmax.
Qed.

Lemma staged_step_accounted base s s' :
  staged_step s s' → accounted_stages base s → accounted_stages base s'.
Proof.
  intros [s0 key stage totals _ Ht _|s0 s1 Hd] Ha; [by apply store_record_accounted|].
  apply with_documents_staged in Hd as (H1 & H2 & H3 & H4 & H5).
  unfold accounted_stages, index_ok in *. by rewrite H1, H2, H3, H4, H5.
Qed.

Lemma steps_accounted base s s' :
  rtc staged_step s s' → accounted_stages base s → accounted_stages base s'.
Proof. induction 1; eauto using staged_step_accounted. Qed.
End invariants.

(** ** A stage that survives a snapshot *)

Section snapshots.
Context `{Sha256} `{UuidParse}.

(** The bytes of a chunk and of its map entry. *)
Definition payload_of (_ : N) (c : StagedChunk) : N := str_len (to_json c).
Definition stored_of (i : N) (c : StagedChunk) : N :=
  str_len (to_json (pretty i : string)) + 1 + str_len (to_json c).
Definition operations_of (_ : N) (c : StagedChunk) : N := len (ck_operations c).
Definition assertions_of (_ : N) (c : StagedChunk) : N := len (ck_read_set c).

Definition chunk_valid (l : Limits) (m : StagedManifest) (i : N) (c : StagedChunk) : Prop :=
  validate_chunk c l = Ok tt ∧
  chunk_digests m !! N.to_nat i = Some (sha256_hex (to_json c)).

Definition add_chunks (a : SnapshotChunks) (l : list (N * StagedChunk)) : SnapshotChunks :=
  {| sc_stored := sc_stored a + lsum (λ kv, stored_of kv.1 kv.2) l;
     sc_payload := sc_payload a + lsum (λ kv, payload_of kv.1 kv.2) l;
     sc_operations := sc_operations a + lsum (λ kv, operations_of kv.1 kv.2) l;
     sc_assertions := sc_assertions a + lsum (λ kv, assertions_of kv.1 kv.2) l;
     sc_chunks := sc_chunks a + len l |}.

Definition chunks_bounded (a : SnapshotChunks) : Prop :=
  sc_stored a ≤ u64_max ∧ sc_payload a ≤ u64_max ∧ sc_operations a ≤ u64_max ∧
  sc_assertions a ≤ u64_max ∧ sc_chunks a ≤ u64_max.

#[local] Opaque encoded_len staged_digest to_json validate_chunk.

Lemma snapshot_add_Ok t l a i c a' :
  snapshot_add t l a (i, c) = Ok a' ↔
  chunk_valid l (st_manifest t) i c ∧ a' = add_chunks a [(i, c)] ∧ chunks_bounded a'.
Proof.
  unfold snapshot_add, chunk_valid, add_chunks, chunks_bounded. cbn [fst snd].
  rewrite !lsum_cons, !lsum_nil, !N.add_0_r. cbn [fst snd].
  unfold stored_of, payload_of, operations_of, assertions_of. rewrite seq_Ok, bind_Ok. split.
  - intros (Hv & [d n] & (-> & -> & Hn)%staged_digest_Ok & Hr).
    apply reject_Ok in Hr as [Hd%negb_false_iff%bool_decide_eq_true Hr]. cbn [fst snd] in *.
    apply bind_Ok in Hr as (k & [-> Hk]%encoded_len_Ok & Hr).
    apply bind_Ok in Hr as (e & He%ok_or_Ok & Hr).
    apply bind_Some in He as (e1 & [-> ?]%checked_add_Some & [-> ?]%checked_add_Some).
    inv_ok. cbn [sc_stored sc_payload sc_operations sc_assertions sc_chunks].
    split; [done|]. split; [done|]. by split_and!.
  - intros ([Hv Hd] & -> & H1 & H2 & H3 & H4 & H5).
    cbn [sc_stored sc_payload sc_operations sc_assertions sc_chunks] in *.
    split; [done|]. eexists (_, _). split; [apply staged_digest_Ok; split_and!; [done|done|lia]|].
    apply reject_Ok. split; [by apply negb_false_iff, bool_decide_eq_true|]. cbn [fst snd].
    apply bind_Ok. eexists. split; [apply encoded_len_Ok; split; [done|lia]|].
    apply bind_Ok. eexists. split; [apply ok_or_Ok, bind_Some; eexists; split;
      apply checked_add_Some; split; [reflexivity|lia|reflexivity|lia]|].
    do 5 (apply bind_Ok; eexists; split; [apply ok_or_Ok, checked_add_Some; split; [reflexivity|done]|]).
    done.
Qed.

Lemma snapshot_adds_Ok t l L : ∀ a a', chunks_bounded a →
  try_fold (snapshot_add t l) a L = Ok a' ↔
  Forall (λ kv, chunk_valid l (st_manifest t) kv.1 kv.2) L ∧ a' = add_chunks a L ∧ chunks_bounded a'.
Proof.
  induction L as [|[i c] L IH]; intros a a' Hb.
  { assert (Hnil : add_chunks a [] = a) by (destruct a; unfold add_chunks; f_equal; apply N.add_0_r).
    rewrite try_fold_nil, Forall_nil, Hnil. naive_solver. }
  rewrite try_fold_cons, bind_Ok, Forall_cons. cbn [fst snd].
  assert (Hadd : add_chunks (add_chunks a [(i, c)]) L = add_chunks a ((i, c) :: L)).
  { unfold add_chunks. cbn [sc_stored sc_payload sc_operations sc_assertions sc_chunks].
    unfold lsum, len. cbn [foldr length]. f_equal; lia. }
  split.
  - intros (a1 & (Hok & -> & Hb1)%snapshot_add_Ok & Hf). apply IH in Hf as (Hall & -> & Hb2); [|done].
    rewrite Hadd in *. by split_and!.
  - intros ([Hok Hall] & -> & Hb2). rewrite <-Hadd in *. exists (add_chunks a [(i, c)]).
    assert (chunks_bounded (add_chunks a [(i, c)])).
    { unfold chunks_bounded, add_chunks in *.
      cbn [sc_stored sc_payload sc_operations sc_assertions sc_chunks] in *. lia. }
    split; [by apply snapshot_add_Ok|]. by apply IH.
Qed.

(** The totals of the chunks of a stage. *)
Definition chunk_totals (m : gmap N StagedChunk) : SnapshotChunks :=
  {| sc_stored := wsum stored_of m; sc_payload := wsum payload_of m;
     sc_operations := wsum operations_of m; sc_assertions := wsum assertions_of m;
     sc_chunks := N.of_nat (size m) |}.

Lemma stage_chunks_Ok t l a :
  try_fold (snapshot_add t l) no_chunks (map_iter (chunks t)) = Ok a ↔
  (∀ i c, chunks t !! i = Some c → chunk_valid l (st_manifest t) i c) ∧
  a = chunk_totals (chunks t) ∧ chunks_bounded a.
Proof.
  rewrite snapshot_adds_Ok by (unfold chunks_bounded, u64_max; cbn; lia).
  rewrite (map_iter_Forall (chunk_valid l (st_manifest t))).
  unfold add_chunks, chunk_totals. cbn [no_chunks sc_stored sc_payload sc_operations sc_assertions sc_chunks].
  by rewrite !N.add_0_l, !wsum_iter, map_iter_len.
Qed.

Definition expiry_ok (t : StagedTransaction) : Prop :=
  match expires_at_ms t with
  | Some e => ttl_ms t ≤ e
  | None => ∃ r, outcome t = Aborted r
  end.

(** What the snapshot check asks of one record. *)
Record record_valid (s : TenantState) (key : string) (t : StagedTransaction) : Prop := {
  rv_manifest : validate_manifest (st_manifest t) historical_limits = Ok tt;
  rv_lineage : validate_scope_lineage s (st_scope t) = Ok tt;
  rv_identity : identity (sc_principal (st_scope t)) (st_transaction_id t) = Ok key;
  rv_digest : ∃ n, staged_digest (st_manifest t) = Ok (st_manifest_digest t, n);
  rv_ttl : ttl_out_of_bounds (ttl_ms t) = false;
  rv_expiry : expiry_ok t;
  rv_chunks : ∀ i c, chunks t !! i = Some c → chunk_valid (limits s) (st_manifest t) i c;
  rv_totals : chunk_totals (chunks t) =
    {| sc_stored := stored_chunk_bytes t; sc_payload := uploaded_payload_bytes t;
       sc_operations := uploaded_operations t; sc_assertions := uploaded_read_assertions t;
       sc_chunks := N.of_nat (size (chunks t)) |};
  rv_stored : stored_chunk_bytes t ≤ u64_max;
  rv_payload : uploaded_payload_bytes t ≤ encoded_chunk_bytes (st_manifest t);
  rv_operations : uploaded_operations t ≤ operation_count (st_manifest t);
  rv_assertions : uploaded_read_assertions t ≤ read_assertion_count (st_manifest t);
  rv_outcome : is_active t = true ∨ chunks t = ∅ ∧ outcome_ok s (outcome t);
}.

Lemma validate_manifest_Ok m l :
  validate_manifest m l = Ok tt ↔
  manifest_out_of_bounds m l = false ∧
  Forall (λ n, validate_name n = Ok tt) (set_iter (read_collections m) ++ set_iter (write_collections m)).
Proof. unfold validate_manifest. by rewrite reject_Ok, try_for_each_Ok, Forall_forall. Qed.

(** The chunk counters fit when the stored bytes and the declared counts do. *)
Lemma record_valid_bounded s key t :
  record_valid s key t → chunks_bounded (chunk_totals (chunks t)).
Proof.
  intros Hv. unfold chunks_bounded. pose proof (rv_totals _ _ _ Hv) as Ht.
  pose proof (rv_manifest _ _ _ Hv) as [Hm _]%validate_manifest_Ok.
  unfold manifest_out_of_bounds in Hm. rewrite !orb_false_iff, !N.ltb_ge in Hm.
  assert (Hle : ∀ f g : N → StagedChunk → N, (∀ i c, f i c ≤ g i c) →
    wsum f (chunks t) ≤ wsum g (chunks t)).
  { intros f g Hfg. unfold wsum. induction (map_to_list (chunks t)) as [|kv L IH]; [done|].
    rewrite !lsum_cons. specialize (Hfg kv.1 kv.2). lia. }
  pose proof (Hle payload_of stored_of) as Hp. pose proof (Hle (λ _ _, 1) stored_of) as Hc.
  assert (Hsz : wsum (λ _ _, 1) (chunks t) = N.of_nat (size (chunks t))).
  { unfold wsum. rewrite (lsum_ones (map_to_list (chunks t))). unfold len.
    by rewrite length_map_to_list. }
  injection Ht as H1 H2 H3 H4. unfold chunk_totals.
  cbn [sc_stored sc_payload sc_operations sc_assertions sc_chunks].
  pose proof (rv_stored _ _ _ Hv). pose proof (rv_operations _ _ _ Hv).
  pose proof (rv_assertions _ _ _ Hv).
  assert (wsum payload_of (chunks t) ≤ wsum stored_of (chunks t))
    by (apply Hp; intros; unfold payload_of, stored_of; lia).
  assert (wsum (λ _ _, 1) (chunks t) ≤ wsum stored_of (chunks t))
    by (apply Hc; intros; unfold stored_of; lia).
  change (max_operations (atomic historical_limits)) with 100000 in Hm.
  change (max_read_assertions (atomic historical_limits)) with 100000 in Hm.
  unfold u64_max in *. lia.
Qed.

Lemma receipt_outcome s t o :
  outcome t = o → is_active t = false → outcome_ok s o →
  match o with
  | Uploading => Ok true
  | Aborted r | Expired r =>
      if negb (0 =? 0) || receipt_invalid (revision s) r
      then fail Corruption "invalid canceled staged outcome" else Ok false
  | Finished x =>
      if negb (0 =? 0) || match x with Ok r => receipt_invalid (revision s) r | Err _ => false end
      then fail Corruption "invalid terminal staged outcome" else Ok false
  end = Ok false.
Proof.
  intros Ho Ha Hok. unfold is_active in Ha. rewrite Ho in Ha.
  destruct o as [|[r|e]|r|r]; cbn in *; try done; by rewrite Hok.
Qed.

(** A valid record passes the check of the snapshot. *)
Lemma record_valid_checked s key t :
  record_valid s key t →
  try_fold (snapshot_add t (limits s)) no_chunks (map_iter (chunks t)) = Ok (chunk_totals (chunks t)) ∧
  validate_snapshot_record key t s (chunk_totals (chunks t)) = Ok (is_active t).
Proof.
  intros Hv. pose proof (record_valid_bounded _ _ _ Hv) as Hb. destruct Hv. split.
  { apply stage_chunks_Ok. by split_and!. }
  destruct rv_digest0 as [n Hd]. unfold validate_snapshot_record.
  rewrite rv_manifest0, bind_Ok_l, rv_lineage0, bind_Ok_l, rv_identity0, bind_Ok_l.
  rewrite reject_if_pass by (by rewrite bool_decide_true). rewrite Hd, bind_Ok_l. cbn [fst].
  assert (He : match expires_at_ms t with
    | Some e => e <? ttl_ms t
    | None => match outcome t with Aborted _ => false | _ => true end end = false).
  { unfold expiry_ok in rv_expiry0. destruct (expires_at_ms t); [by apply N.ltb_ge|].
    by destruct rv_expiry0 as [r ->]. }
  apply reject_Ok. split.
  { rewrite bool_decide_true by done. by rewrite rv_ttl0, He. }
  rewrite rv_totals0. cbn [sc_stored sc_payload sc_operations sc_assertions sc_chunks].
  apply reject_Ok. split.
  { rewrite !N.eqb_refl. cbn [negb orb]. rewrite !orb_false_iff, !N.ltb_ge. by split_and!. }
  destruct rv_outcome0 as [Ha|[Hc Ho]].
  - rewrite Ha. unfold is_active in Ha. by destruct (outcome t).
  - assert (Ha : is_active t = false) by (unfold is_active; by destruct (outcome t)).
    rewrite Ha, Hc, map_size_empty. by apply (receipt_outcome s t).
Qed.

(** A manifest accepted under valid limits stays acceptable as history. *)
Lemma manifest_historical m l :
  validate_limits l = Ok tt → validate_manifest m l = Ok tt →
  validate_manifest m historical_limits = Ok tt.
Proof.
  unfold validate_limits. intros (_ & (_ & Hr)%reject_Ok)%seq_Ok. apply reject_Ok in Hr as [Ha _].
  rewrite !validate_manifest_Ok. intros [Hm Hn]. split; [|done].
  unfold validate_atomic_limits in Ha. unfold manifest_out_of_bounds in *.
  rewrite !orb_false_iff, !N.ltb_ge in *.
  change (max_operations (atomic historical_limits)) with 100000.
  change (max_read_assertions (atomic historical_limits)) with 100000.
  change (max_transaction_bytes (atomic historical_limits)) with (N.shiftl 64 20).
  change (max_collections historical_limits) with 1024.
  destruct_and? Hm. destruct_and? Ha.
  split_and!; done || lia.
Qed.

Lemma chunk_totals_empty :
  chunk_totals ∅ = no_chunks.
Proof. unfold chunk_totals. by rewrite !wsum_empty, map_size_empty. Qed.

Lemma chunk_totals_insert m i c :
  m !! i = None →
  chunk_totals (<[i := c]> m) =
  {| sc_stored := stored_of i c + wsum stored_of m; sc_payload := payload_of i c + wsum payload_of m;
     sc_operations := operations_of i c + wsum operations_of m;
     sc_assertions := assertions_of i c + wsum assertions_of m;
     sc_chunks := N.of_nat (size (<[i := c]> m)) |}.
Proof. intros Hi. unfold chunk_totals. by rewrite !wsum_insert_new. Qed.

Lemma new_stage_valid s key r d e o :
  identity_ok s key r d → validate_manifest (b_manifest r) historical_limits = Ok tt →
  expiry_ok (new_stage r d e o) → o = Uploading ∨ outcome_ok s o →
  record_valid s key (new_stage r d e o).
Proof.
  intros (Hid & Hd & Ht & Hl) Hm He Ho. split; try done; cbn; try lia.
  unfold is_active. cbn. destruct Ho as [->|Ho]; [by left|by right].
Qed.

Lemma transition_valid s key old stage :
  validate_limits (limits s) = Ok tt → transition s key old stage →
  (∀ t, old = Some t → record_valid s key t) → record_valid s key stage.
Proof.
  intros Hlim [r d e Hid Hm He|r d rc Hid Hm Hrc|t i c st up op asr Ha Hup|t o Ha Ho] Hold.
  - apply new_stage_valid; try done; [by eapply manifest_historical|by left].
  - apply new_stage_valid; try done; [by eexists|by right].
  - specialize (Hold t eq_refl). destruct Hup as (Hi & Hv & d & n & k & Hd & Hk & Hdig & Hup).
    apply staged_digest_Ok in Hd as (-> & -> & _). apply encoded_len_Ok in Hk as [-> _].
    destruct Hold. split; try done; cbn; try (naive_solver; fail).
    + intros j c' [[<- <-]|[_ Hj]]%lookup_insert_Some; [by split|by apply rv_chunks0].
    + rewrite chunk_totals_insert by done. injection rv_totals0 as H1 H2 H3 H4.
      rewrite H1, H2, H3, H4.
      unfold stored_of, payload_of, operations_of, assertions_of. f_equal; lia.
  - specialize (Hold t eq_refl). destruct Hold. split; try done; cbn; try lia.
    + unfold expiry_ok in *. cbn. destruct (expires_at_ms t); [done|].
      destruct rv_expiry0 as [r Hr]. unfold is_active in Ha. by rewrite Hr in Ha.
    + by right.
Qed.

Lemma outcome_ok_context s s' o : same_context s s' → outcome_ok s o → outcome_ok s' o.
Proof. intros (Hr & _). unfold outcome_ok. by rewrite Hr. Qed.

Lemma record_valid_context s s' key t :
  same_context s s' → record_valid s key t → record_valid s' key t.
Proof.
  intros Hctx []. pose proof Hctx as (_ & Hlim & _). split; try done.
  - by rewrite (lineage_context s).
  - by rewrite Hlim.
  - destruct rv_outcome0 as [?|[? ?]]; [by left|right]. split; [done|by eapply outcome_ok_context].
Qed.

Definition stages_valid (s : TenantState) : Prop :=
  ∀ key t, staged_transactions s !! key = Some t → record_valid s key t.

Lemma staged_step_valid s s' :
  validate_limits (limits s) = Ok tt → staged_step s s' → stages_valid s → stages_valid s'.
Proof.
  intros Hlim Hstep Hv. pose proof (staged_step_context _ _ Hstep) as Hctx.
  intros k t Hk. apply (record_valid_context s); [done|].
  destruct Hstep as [s0 key stage totals Htr _ _|s0 s1 Hd].
  - cbn in Hk. apply lookup_insert_Some in Hk as [[<- <-]|[_ Hk]]; [|by apply Hv].
    eapply transition_valid; [done|exact Htr|]. intros t Ht. by apply Hv.
  - apply with_documents_staged in Hd as (Hst & _). rewrite Hst in Hk. by apply Hv.
Qed.

Lemma steps_valid s s' :
  validate_limits (limits s) = Ok tt → rtc staged_step s s' → stages_valid s → stages_valid s'.
Proof.
  intros Hlim Hsteps. revert Hlim.
  induction Hsteps as [|s1 s2 s3 Hstep _ IH]; intros Hlim Hv; [done|]. apply IH.
  - apply staged_step_context in Hstep as (_ & -> & _). done.
  - by eapply staged_step_valid.
Qed.
End snapshots.

(** ** The staging budget *)

Section budget.
Context `{Sha256} `{UuidParse}.
#[local] Opaque validate_manifest.

Definition active_weight (_ : string) (t : StagedTransaction) : N :=
  if is_active t then encoded_chunk_bytes (st_manifest t) else 0.

Definition budget_ok (s : TenantState) (l : Limits) : Prop :=
  permanent_staged_bytes s + reserved_staged_terminal_bytes s ≤ max_permanent_staged_bytes (atomic l) ∧
  N.of_nat (size (active_staged_transactions s)) ≤ max_active_transactions (atomic l) ∧
  (∀ key t, staged_transactions s !! key = Some t → is_active t = true →
     validate_manifest (st_manifest t) l = Ok tt) ∧
  wsum active_weight (staged_transactions s) ≤ max_reserved_staging_bytes (atomic l).

Definition key_weight (s : TenantState) (key : string) : N :=
  from_option (active_weight key) 0 (staged_transactions s !! key).

(** The active identities carry all of the weight. *)
Lemma lsum_filter {A} (P : A → Prop) `{∀ x, Decision (P x)} (f : A → N) l :
  (∀ x, x ∈ l → ¬ P x → f x = 0) → lsum f (filter P l) = lsum f l.
Proof.
  induction l as [|x l IH]; intros Hz; [done|]. rewrite filter_cons, lsum_cons.
  rewrite <-IH by (intros y Hy; apply Hz; by right).
  case_decide; rewrite ?lsum_cons; [done|]. rewrite (Hz x); [lia|by left|done].
Qed.

Lemma lsum_fmap {A B} (f : B → N) (g : A → B) l : lsum f (g <$> l) = lsum (f ∘ g) l.
Proof. induction l as [|x l IH]; [done|]. rewrite fmap_cons, !lsum_cons, IH. done. Qed.

Lemma active_sum s :
  index_ok s →
  lsum (key_weight s) (set_iter (active_staged_transactions s)) =
  wsum active_weight (staged_transactions s).
Proof.
  intros Hix. unfold wsum.
  rewrite <-(lsum_filter (λ kv, is_active kv.2 = true)).
  2:{ intros [k t] _ Ha. cbn in *. unfold active_weight. by destruct (is_active t). }
  rewrite (lsum_ext _ (λ kv : string * StagedTransaction, key_weight s kv.1)).
  2:{ intros [k t] [_ Hin%elem_of_map_to_list]%list_elem_of_filter. unfold key_weight.
      cbn [fst snd]. by rewrite Hin. }
  etrans; [|exact (lsum_fmap (key_weight s) fst _)]. apply lsum_perm, NoDup_Permutation.
  - apply set_iter_NoDup.
  - apply NoDup_fmap_fst; [|by apply NoDup_filter, NoDup_map_to_list].
    intros k t1 t2 [_ H1%elem_of_map_to_list]%list_elem_of_filter [_ H2%elem_of_map_to_list]%list_elem_of_filter.
    congruence.
  - intros k. rewrite set_iter_elem, (Hix k), list_elem_of_fmap. split.
    + intros (t & Ht & Ha). exists (k, t). split; [done|]. apply list_elem_of_filter.
      split; [done|by apply elem_of_map_to_list].
    + intros ([k' t] & -> & [Ha Hin%elem_of_map_to_list]%list_elem_of_filter). by exists t.
Qed.

Lemma budget_steps_Ok s l keys : ∀ acc n, acc ≤ u64_max →
  try_fold (budget_step s l) acc keys = Ok n ↔
  (∀ key, key ∈ keys → ∃ t, staged_transactions s !! key = Some t ∧
     validate_manifest (st_manifest t) l = Ok tt) ∧
  n = acc + lsum (λ key, from_option (λ t, encoded_chunk_bytes (st_manifest t)) 0
                           (staged_transactions s !! key)) keys ∧ n ≤ u64_max.
Proof.
  induction keys as [|key keys IH]; intros acc n Hacc.
  { rewrite try_fold_nil, lsum_nil, N.add_0_r. split; [|naive_solver].
    intros [= <-]. split; [by intros ? ?%elem_of_nil|done]. }
  rewrite try_fold_cons, bind_Ok, lsum_cons, N.add_assoc. unfold budget_step at 1. split.
  - intros (a & Ha & Hf). apply bind_Ok in Ha as (t & Ht%ok_or_Ok & Ha).
    apply seq_Ok in Ha as [Hm Ha%ok_or_Ok]. apply checked_add_Some in Ha as [-> Hle].
    apply IH in Hf as (Hall & -> & Hn); [|done]. rewrite Ht. cbn [from_option].
    split; [|done]. intros k [->|Hin]%elem_of_cons; [by exists t|by apply Hall].
  - intros (Hall & -> & Hn). destruct (Hall key) as (t & Ht & Hm); [by left|]. rewrite Ht in *.
    cbn [from_option] in *. exists (acc + encoded_chunk_bytes (st_manifest t)). split.
    + apply bind_Ok. exists t. split; [by apply ok_or_Ok|]. apply seq_Ok. split; [done|].
      apply ok_or_Ok, checked_add_Some. split; [done|lia].
    + apply IH; [lia|]. split; [|done]. intros k Hin. apply Hall. by right.
Qed.

Lemma active_list_sum s :
  index_ok s →
  lsum (λ key, from_option (λ t, encoded_chunk_bytes (st_manifest t)) 0
                 (staged_transactions s !! key)) (set_iter (active_staged_transactions s)) =
  wsum active_weight (staged_transactions s).
Proof.
  intros Hix. rewrite <-active_sum by done. apply lsum_ext. intros key Hin.
  apply set_iter_elem, Hix in Hin as (t & Ht & Ha). unfold key_weight, active_weight.
  rewrite Ht. cbn [from_option]. by rewrite Ha.
Qed.

Lemma validate_budget_Ok s l :
  index_ok s → max_permanent_staged_bytes (atomic l) ≤ u64_max →
  max_reserved_staging_bytes (atomic l) ≤ u64_max →
  validate_budget s l = Ok tt ↔ budget_ok s l.
Proof.
  intros Hix Hmp Hmr. unfold validate_budget, budget_ok.
  rewrite reject_Ok, orb_false_iff, N.ltb_ge, bind_Ok.
  assert (Hadd : match checked_add (permanent_staged_bytes s) (reserved_staged_terminal_bytes s) with
      | Some n => max_permanent_staged_bytes (atomic l) <? n | None => true end = false ↔
    permanent_staged_bytes s + reserved_staged_terminal_bytes s ≤ max_permanent_staged_bytes (atomic l)).
  { unfold checked_add. destruct (N.leb_spec (permanent_staged_bytes s +
      reserved_staged_terminal_bytes s) u64_max); rewrite ?N.ltb_ge; [done|]. split; [done|lia]. }
  rewrite Hadd. split.
  - intros ((Hp & Ha) & n & Hf & [Hn%N.ltb_ge _]%reject_Ok).
    apply budget_steps_Ok in Hf as (Hall & -> & _); [|unfold u64_max; lia].
    rewrite active_list_sum, N.add_0_l in Hn by done. split_and!; try done.
    intros key t Ht Hact. destruct (Hall key) as (t' & Ht' & Hm); [|congruence].
    apply set_iter_elem, Hix. by exists t.
  - intros (Hp & Ha & Hm & Hn). split; [done|]. eexists. split.
    + apply budget_steps_Ok; [unfold u64_max; lia|]. split; [|split; [reflexivity|]].
      * intros key Hin%set_iter_elem%Hix. destruct Hin as (t & Ht & Hact). eauto.
      * rewrite active_list_sum by done. lia.
    + apply reject_Ok. split; [|done]. apply N.ltb_ge. rewrite active_list_sum by done. lia.
Qed.

Definition limits_fit (l : Limits) : Prop :=
  max_permanent_staged_bytes (atomic l) ≤ u64_max ∧ max_reserved_staging_bytes (atomic l) ≤ u64_max.

(** Replacing an active record by one of the same manifest, or by an ended
    one, stays within the budget. *)
Lemma store_record_budget s key stage totals :
  index_ok s → record_totals s key stage = Ok totals → budget_ok s (limits s) →
  (is_active stage = true → ∃ t, staged_transactions s !! key = Some t ∧ is_active t = true ∧
     st_manifest stage = st_manifest t) →
  budget_ok (store_record key stage totals s) (limits s).
Proof.
  destruct totals as [u v]. intros Hix (_ & _ & _ & Hmax)%record_totals_Ok (_ & Hsz & Hm & Hw) Hst.
  split; [exact Hmax|]. split; [|split].
  - cbn. destruct (is_active stage) eqn:Ha.
    + destruct Hst as (t & Ht & Hat & _); [done|].
      assert (Hin : key ∈ active_staged_transactions s) by (apply Hix; by exists t).
      replace ({[key]} ∪ active_staged_transactions s) with (active_staged_transactions s) by set_solver.
      done.
    + assert (size (active_staged_transactions s ∖ {[key]}) ≤ size (active_staged_transactions s))%nat
        by (apply subseteq_size; set_solver). lia.
  - cbn. intros k t [[<- <-]|[_ Hk]]%lookup_insert_Some Ha; [|by eapply Hm].
    destruct Hst as (t & Ht & Hat & ->); [done|by eapply Hm].
  - cbn. destruct (staged_transactions s !! key) as [t|] eqn:Hk.
    + pose proof (wsum_insert_old active_weight _ _ stage _ Hk) as Hsum.
      unfold active_weight in Hsum at 2 3. destruct (is_active stage) eqn:Ha; [|lia].
      destruct Hst as (t' & [= <-] & Hat & Hman); [done|]. rewrite Hat, Hman in Hsum. lia.
    + rewrite wsum_insert_new by done. unfold active_weight at 1.
      destruct (is_active stage) eqn:Ha; [|lia]. destruct Hst as (t & ? & _); [done|congruence].
Qed.

Lemma staged_step_budget s s' :
  limits_fit (limits s) → index_ok s → staged_step s s' →
  budget_ok s (limits s) → budget_ok s' (limits s').
Proof.
  intros [Hf1 Hf2] Hix Hstep Hb. destruct Hstep as [s0 key stage totals Htr Ht Hnew|s0 s1 Hd].
  - change (limits (store_record key stage totals s0)) with (limits s0).
    inversion Htr as [r d e Hid Hm He|r d rc Hid Hm Hrc|t i c st up op asr Ha Hup|t o Ha Ho];
      subst; match goal with Hx : _ = staged_transactions s0 !! key |- _ => symmetry in Hx;
        rename Hx into Hold end.
    + apply validate_budget_Ok; [by apply store_record_index|done|done|by apply Hnew].
    + by apply store_record_budget.
    + apply store_record_budget; try done. intros _. by exists t.
    + apply store_record_budget; try done. intros Hact. unfold is_active in Hact. cbn in Hact.
      by destruct o.
  - apply with_documents_staged in Hd as (H1 & H2 & H3 & H4 & H5). unfold budget_ok in *.
    by rewrite H1, H2, H3, H4, H5.
Qed.

(** *** The whole invariant *)

Definition staged_ok (base : N) (s : TenantState) : Prop :=
  validate_limits (limits s) = Ok tt ∧ limits_fit (limits s) ∧
  accounted_stages base s ∧ stages_valid s ∧ budget_ok s (limits s).

Lemma staged_step_ok base s s' : staged_step s s' → staged_ok base s → staged_ok base s'.
Proof.
  intros Hstep (Hl & Hf & Ha & Hv & Hb). pose proof (staged_step_context _ _ Hstep) as (_ & Hlim & _).
  unfold staged_ok. split; [by rewrite Hlim|]. split; [by rewrite Hlim|].
  split; [by eapply staged_step_accounted|]. split; [by eapply staged_step_valid|].
  eapply staged_step_budget; try done. by destruct Ha.
Qed.

Lemma steps_ok base s s' : rtc staged_step s s' → staged_ok base s → staged_ok base s'.
Proof. induction 1; eauto using staged_step_ok. Qed.

(** *** The restored check *)

Definition all_active (s : TenantState) : Prop :=
  ∀ key t, staged_transactions s !! key = Some t → is_active t = true.

#[local] Opaque permanent_charge.

Lemma restored_step_Ok s active used reserved key t r :
  record_valid s key t → (∃ c, permanent_charge key t = Ok c) → is_active t = true →
  used + used_of key t ≤ u64_max → reserved + reserved_of key t ≤ u64_max →
  restored_step s (active, used, reserved) (key, t) = Ok r ↔
  r = ({[key]} ∪ active, used + used_of key t, reserved + reserved_of key t).
Proof.
  intros Hv [[cu cr] Hc] Ha Hu Hr. destruct (charge_of _ _ _ Hc) as [Hcu Hcr]. cbn [fst snd] in *.
  destruct (record_valid_checked _ _ _ Hv) as [Hfold Hrec]. unfold restored_step.
  assert (Hau : checked_add used cu = Some (used + cu)) by (apply checked_add_Some; lia).
  assert (Har : checked_add reserved cr = Some (reserved + cr)) by (apply checked_add_Some; lia).
  rewrite Ha. cbn [negb]. rewrite Hc, bind_Ok_l. cbn [fst snd].
  rewrite Hau. cbn [ok_or]. rewrite bind_Ok_l, Har. cbn [ok_or]. rewrite bind_Ok_l.
  rewrite Hfold, bind_Ok_l, Hrec, bind_Ok_l, Ha, Hcu, Hcr. naive_solver.
Qed.

Lemma restored_steps_Ok s L : ∀ active used reserved,
  Forall (λ kv, record_valid s kv.1 kv.2 ∧ (∃ c, permanent_charge kv.1 kv.2 = Ok c) ∧
                is_active kv.2 = true) L →
  used + lsum (λ kv, used_of kv.1 kv.2) L ≤ u64_max →
  reserved + lsum (λ kv, reserved_of kv.1 kv.2) L ≤ u64_max →
  try_fold (restored_step s) (active, used, reserved) L =
    Ok (list_to_set L.*1 ∪ active, used + lsum (λ kv, used_of kv.1 kv.2) L,
        reserved + lsum (λ kv, reserved_of kv.1 kv.2) L).
Proof.
  induction L as [|[key t] L IH]; intros active used reserved Hall Hu Hr.
  { rewrite try_fold_nil, !lsum_nil, !N.add_0_r. do 3 f_equal. csimpl. set_solver. }
  apply Forall_cons in Hall as [(Hv & Hc & Ha) Hall]. rewrite !lsum_cons in *. cbn [fst snd] in *.
  rewrite try_fold_cons. rewrite (proj2 (restored_step_Ok s active used reserved key t _ Hv Hc Ha
    ltac:(lia) ltac:(lia)) eq_refl), bind_Ok_l, IH by (done || lia).
  rewrite !N.add_assoc. do 3 f_equal. csimpl. set_solver.
Qed.

Lemma staged_ok_checked s :
  staged_ok (th_encoded_bytes (staged_terminal_head s)) s → all_active s →
  validate_staging s = Ok tt.
Proof.
  intros (Hl & [Hf1 Hf2] & Hacc & Hv & Hb) Hall. pose proof Hacc as (Hix & Hch & Hu & Hr & Hmax).
  unfold validate_staging. apply seq_Ok. split; [by apply validate_budget_Ok|].
  rewrite restored_steps_Ok; [|apply (map_iter_Forall (λ k t, record_valid s k t ∧
      (∃ c, permanent_charge k t = Ok c) ∧ is_active t = true));
      intros k t Hk; split_and!; [by apply Hv|by apply Hch|by eapply Hall]|
    rewrite wsum_iter; lia|rewrite wsum_iter; lia].
  rewrite bind_Ok_l, !wsum_iter, N.add_0_l, <-Hu, <-Hr.
  apply reject_Ok. split; [by rewrite !N.eqb_refl|]. apply reject_Ok. split; [|done].
  apply negb_false_iff, bool_decide_eq_true. apply set_eq. intros k.
  rewrite (right_id_L ∅ (∪)), elem_of_list_to_set, list_elem_of_fmap, (Hix k). split.
  - intros ([k' t] & -> & Hin%elem_of_map_iter). exists t. split; [done|by eapply Hall].
  - intros (t & Ht & _). exists (k, t). split; [done|by apply elem_of_map_iter].
Qed.

(** An active record that passes the check is valid. *)
Lemma record_checked_valid s key t a b :
  is_active t = true →
  try_fold (snapshot_add t (limits s)) no_chunks (map_iter (chunks t)) = Ok a →
  validate_snapshot_record key t s a = Ok b → record_valid s key t ∧ b = true.
Proof.
  intros Ha (Hc & -> & Hb)%stage_chunks_Ok Hr. unfold validate_snapshot_record in Hr.
  apply seq_Ok in Hr as [Hm Hr]. apply seq_Ok in Hr as [Hl Hr].
  apply bind_Ok in Hr as (id & Hid & Hr).
  apply seq_Ok in Hr as [Hk%reject_if_Ok%negb_false_iff%bool_decide_eq_true Hr].
  apply bind_Ok in Hr as ([d n] & Hd & Hr). apply reject_Ok in Hr as [He Hr]. cbn [fst] in He.
  rewrite !orb_false_iff, negb_false_iff, bool_decide_eq_true in He. destruct He as [[Hdig Httl] He].
  apply reject_Ok in Hr as [Ht Hr]. rewrite !orb_false_iff, !negb_false_iff, !N.eqb_eq, !N.ltb_ge in Ht.
  destruct Ht as ((((((T1 & T2) & T3) & T4) & T5) & T6) & T7). destruct Hb as (B1 & _).
  split.
  - split; try done; try (by rewrite <-?T1, <-?T2, <-?T3, <-?T4).
    + by subst id.
    + exists n. by rewrite <-Hdig.
    + unfold expiry_ok. destruct (expires_at_ms t); [by apply N.ltb_ge|].
      unfold is_active in Ha. by destruct (outcome t).
    + by left.
  - unfold is_active in Ha. destruct (outcome t); try done. congruence.
Qed.

Lemma restored_steps_inv s L : ∀ active used reserved a u r,
  try_fold (restored_step s) (active, used, reserved) L = Ok (a, u, r) →
  Forall (λ kv, record_valid s kv.1 kv.2 ∧ (∃ c, permanent_charge kv.1 kv.2 = Ok c) ∧
                is_active kv.2 = true) L ∧
  a = list_to_set L.*1 ∪ active ∧ u = used + lsum (λ kv, used_of kv.1 kv.2) L ∧
  r = reserved + lsum (λ kv, reserved_of kv.1 kv.2) L.
Proof.
  induction L as [|[key t] L IH]; intros active used reserved a u r Hf.
  { rewrite try_fold_nil in Hf. injection Hf as <- <- <-. rewrite !lsum_nil, !N.add_0_r. csimpl.
    split; [constructor|]. split; [set_solver|done]. }
  rewrite try_fold_cons in Hf. apply bind_Ok in Hf as ([[a1 u1] r1] & Hs & Hf).
  unfold restored_step in Hs. apply reject_Ok in Hs as [Ha%negb_false_iff Hs].
  apply bind_Ok in Hs as ([cu cr] & Hc & Hs). cbn [fst snd] in Hs.
  apply bind_Ok in Hs as (u2 & Hu2%ok_or_Ok%checked_add_Some & Hs).
  apply bind_Ok in Hs as (r2 & Hr2%ok_or_Ok%checked_add_Some & Hs).
  apply bind_Ok in Hs as (ch & Hch & Hs). apply bind_Ok in Hs as (b & Hb & [= <- <- <-]).
  destruct (record_checked_valid _ _ _ _ _ Ha Hch Hb) as [Hv ->].
  apply IH in Hf as (Hall & -> & -> & ->). destruct (charge_of _ _ _ Hc) as [Hcu Hcr].
  cbn [fst snd] in *. rewrite !lsum_cons. cbn [fst snd]. rewrite Hcu, Hcr. csimpl.
  split; [constructor; [split_and!; [done|by eexists|done]|done]|].
  split; [set_solver|]. lia.
Qed.

(** A restored state satisfies the invariant. *)
Lemma staged_ok_restored s :
  validate_limits (limits s) = Ok tt → limits_fit (limits s) → validate_staging s = Ok tt →
  staged_ok (th_encoded_bytes (staged_terminal_head s)) s ∧ all_active s.
Proof.
  intros Hl Hfit (Hb & Hr)%seq_Ok. apply bind_Ok in Hr as ([[a u] r] & Hf & Hr).
  apply restored_steps_inv in Hf as (Hall & -> & -> & ->).
  apply reject_Ok in Hr as [Hs Hr]. apply reject_Ok in Hr as [Hi _].
  rewrite orb_false_iff, !negb_false_iff, !N.eqb_eq in Hs. destruct Hs as [Hu Hrs].
  apply negb_false_iff, bool_decide_eq_true in Hi.
  rewrite (map_iter_Forall (λ k t, record_valid s k t ∧ (∃ c, permanent_charge k t = Ok c) ∧
    is_active t = true)) in Hall.
  assert (Hix : index_ok s).
  { intros k. rewrite <-Hi, (right_id_L ∅ (∪)), elem_of_list_to_set, list_elem_of_fmap. split.
    - intros ([k' t] & -> & Hin%elem_of_map_iter). exists t. split; [done|]. by destruct (Hall _ _ Hin) as (_ & _ & ?).
    - intros (t & Ht & _). exists (k, t). split; [done|by apply elem_of_map_iter]. }
  destruct Hfit as [Hf1 Hf2]. apply validate_budget_Ok in Hb as Hbud; [|done..].
  rewrite !wsum_iter, N.add_0_l in *. split; [|intros k t Hk; by destruct (Hall k t Hk) as (? & ? & ?)].
  split; [done|]. split; [done|]. split; [|split; [intros k t Hk; by destruct (Hall k t Hk) as (? & ? & ?)|done]].
  split; [done|]. split; [intros k t Hk; by destruct (Hall k t Hk) as (? & ? & ?)|].
  split; [done|]. split; [done|]. by destruct Hbud.
Qed.
End budget.

(** ** The payload of a complete stage *)

Section payload.
Context `{Sha256}.
#[local] Opaque staged_digest to_json.

Lemma complete_steps_digests t L : ∀ acc a,
  try_fold (complete_step t) acc L = Ok a →
  ∀ i c, (i, c) ∈ L → chunk_digests (st_manifest t) !! N.to_nat i = Some (sha256_hex (to_json c)).
Proof.
  induction L as [|[j x] L IH]; intros acc a Hf i c Hin; [by apply elem_of_nil in Hin|].
  rewrite try_fold_cons in Hf. apply bind_Ok in Hf as (acc' & Hs & Hf).
  apply elem_of_cons in Hin as [[= -> ->]|Hin]; [|by eapply IH].
  unfold complete_step in Hs. apply bind_Ok in Hs as ([d n] & Hd & Hs).
  apply staged_digest_Ok in Hd as (-> & _). apply reject_Ok in Hs as [Hg _].
  by apply negb_false_iff, bool_decide_eq_true in Hg.
Qed.

(** A map whose keys are [0 .. n-1], one per element of the list. *)
Lemma map_values_indexed {V} (m : gmap N V) (l : list V) :
  (∀ i v, m !! i = Some v → l !! N.to_nat i = Some v) → size m = length l →
  map_values m = l.
Proof.
  intros Hm Hsz.
  assert (Hsub : map_to_list m ⊆+ imap (λ i v, (N.of_nat i, v)) l).
  { apply NoDup_submseteq; [apply NoDup_map_to_list|].
    intros [i v] Hin%elem_of_map_to_list%Hm. apply elem_of_lookup_imap. exists (N.to_nat i), v.
    split; [by rewrite N2Nat.id|done]. }
  apply submseteq_length_Permutation in Hsub.
  2:{ rewrite length_imap, length_map_to_list. lia. }
  unfold map_values. rewrite (map_iter_unique m (imap (λ i v, (N.of_nat i, v)) l)); [| |by symmetry].
  - apply list_eq. intros i. rewrite list_lookup_fmap, list_lookup_imap. by destruct (l !! i).
  - clear. assert (Hgen : ∀ k, StronglySorted entry_le (imap (λ i v, (N.of_nat (k + i), v)) l)).
    { induction l as [|v l IH]; intros k; [constructor|]. rewrite imap_cons.
      assert (Hext : imap ((λ i v, (N.of_nat (k + i), v)) ∘ S) l =
                     imap (λ i v, (N.of_nat (S k + i), v)) l).
      { apply imap_ext. intros. cbn. by replace (k + S i)%nat with (S k + i)%nat by lia. }
      rewrite Hext. constructor; [apply IH|]. apply Forall_forall.
      intros [j w] (i & w' & [= -> ->] & _)%elem_of_lookup_imap. unfold entry_le, key_le. cbn. lia. }
    apply (Hgen O).
Qed.

(** An uploaded chunk encodes like the declared chunk of its index. *)
Lemma complete_encoding t cs :
  from_chunks cs = Ok (st_manifest t) → validate_complete t = Ok tt →
  (∀ i c c', chunks t !! i = Some c → cs !! N.to_nat i = Some c' →
     no_collision (to_json c) (to_json c')) →
  length (chunk_digests (st_manifest t)) = length cs ∧
  ∀ i c, chunks t !! i = Some c → (to_json <$> cs) !! N.to_nat i = Some (to_json c).
Proof.
  unfold from_chunks. intros [_ Hm]%reject_Ok Hc Hcol. apply manifest_add_chunks in Hm as (Hd & _).
  cbn [chunk_digests empty_manifest app] in Hd.
  unfold validate_complete in Hc. apply bind_Ok in Hc as (a & Hf & _).
  split; [rewrite Hd; by rewrite length_fmap|].
  intros i c Hi. pose proof (complete_steps_digests t _ _ _ Hf i c) as Hdig.
  rewrite Hd in Hdig. rewrite list_lookup_fmap in Hdig |- *.
  destruct (cs !! N.to_nat i) as [c'|] eqn:Hcs; cbn in *.
  - f_equal. symmetry. apply (Hcol i c c'); [done|done|].
    assert (Hx : Some (sha256_hex (to_json c')) = Some (sha256_hex (to_json c)))
      by (by apply Hdig, elem_of_map_iter). by injection Hx.
  - by discriminate Hdig; apply elem_of_map_iter.
Qed.
End payload.

(** ** Capacity reserved by an upload *)

(** The part of a header that changes during the life of an identity. *)
Definition variable_len (t : StagedTransaction) : N :=
  vlen (to_value (stored_chunk_bytes t)) + vlen (to_value (uploaded_payload_bytes t)) +
  vlen (to_value (uploaded_operations t)) + vlen (to_value (uploaded_read_assertions t)) +
  vlen (to_value (outcome t)).

Lemma stage_value_len t1 t2 :
  same_identity t1 t2 →
  vlen (to_value (clear_chunks t1)) + variable_len t2 =
  vlen (to_value (clear_chunks t2)) + variable_len t1.
Proof.
  intros (H1 & H2 & H3 & H4 & H5 & H6).
  assert (Hv : ∀ t, vlen (to_value (clear_chunks t)) = vlen (VObject
    [("scope", to_value (st_scope t)); ("transaction_id", VString (st_transaction_id t));
     ("manifest_digest", VString (st_manifest_digest t)); ("manifest", to_value (st_manifest t));
     ("chunks", to_value (∅ : gmap N StagedChunk));
     ("stored_chunk_bytes", to_value (stored_chunk_bytes t));
     ("uploaded_payload_bytes", to_value (uploaded_payload_bytes t));
     ("uploaded_operations", to_value (uploaded_operations t));
     ("uploaded_read_assertions", to_value (uploaded_read_assertions t));
     ("expires_at_ms", to_value (expires_at_ms t)); ("ttl_ms", to_value (ttl_ms t));
     ("outcome", to_value (outcome t))])) by done.
  rewrite !Hv, !vlen_object, !lsum_cons, !lsum_nil. cbn [fst snd].
  rewrite H1, H2, H3, H4, H5, H6. unfold variable_len, len. cbn [length]. lia.
Qed.

Lemma stage_record_len key t1 t2 :
  same_identity t1 t2 →
  vlen (stage_record key (clear_chunks t1)) + variable_len t2 =
  vlen (stage_record key (clear_chunks t2)) + variable_len t1.
Proof.
  intros Hid. pose proof (stage_value_len _ _ Hid). unfold stage_record.
  rewrite !vlen_object, !lsum_cons, !lsum_nil. cbn [fst snd].
  rewrite !vlen_array, !lsum_cons, !lsum_nil. unfold len. cbn [length]. lia.
Qed.

Lemma encoded_vlen (v : value) n : encoded_len v = Ok n ↔ n = vlen v ∧ n ≤ u64_max.
Proof. apply encoded_len_Ok. Qed.

Lemma framed_record_Ok size n :
  framed_record_bytes size = Ok n ↔ n = size + 9 ∧ size ≤ 33554432.
Proof.
  unfold framed_record_bytes. rewrite reject_Ok, ok_or_Ok, checked_add_Some, N.ltb_ge.
  change (N.shiftl 32 20) with 33554432. unfold FRAME_HEADER_BYTES, u64_max. lia.
Qed.

Lemma staged_header_Ok key t n :
  staged_header key t = Ok n ↔
  n = vlen (stage_record key (clear_chunks t)) + 9 ∧
  vlen (stage_record key (clear_chunks t)) ≤ 33554432.
Proof.
  unfold staged_header. generalize (stage_record key (clear_chunks t)). intros v.
  rewrite bind_Ok. split.
  - intros (k & [-> _]%encoded_vlen & Hr). by apply framed_record_Ok in Hr.
  - intros [-> Hle]. exists (vlen v). rewrite encoded_vlen, framed_record_Ok. unfold u64_max. lia.
Qed.

Lemma clear_counters a b c d t :
  clear_chunks (set_counters a b c d (clear_chunks t)) = clear_chunks (set_counters a b c d t).
Proof. done. Qed.

Lemma vlen_zero : vlen (to_value 0) = 1.
Proof. vm_compute. reflexivity. Qed.

Lemma vlen_max : vlen (to_value u64_max) = 20.
Proof. vm_compute. reflexivity. Qed.

(** *** The size of an outcome *)

Lemma vlen_receipt r rev :
  rev ≤ u64_max → receipt_invalid rev r = false → vlen (to_value r) ≤ 48.
Proof.
  unfold receipt_invalid. rewrite orb_false_iff, N.ltb_ge, negb_false_iff, bool_decide_eq_true.
  intros Hrev [Hr Hv]. pose proof (vlen_u64 (wr_revision r) ltac:(lia)) as Hn.
  change (vlen (to_value r)) with (vlen (VObject
    [("revision", to_value (wr_revision r)); ("versions", to_value (versions r))])).
  rewrite Hv, vlen_object, !lsum_cons, lsum_nil. cbn [fst snd].
  change (str_len (write_str "revision")) with 10. change (str_len (write_str "versions")) with 10.
  change (vlen (to_value (∅ : gmap string N))) with 2. unfold len. cbn [length]. lia.
Qed.

Lemma vlen_error e : str_len (message e) ≤ MAX_MESSAGE_BYTES → vlen (to_value e) ≤ 3500.
Proof.
  intros Hm. change (vlen (to_value e)) with (vlen (VObject
    [("code", to_value (code e)); ("message", VString (message e))])).
  rewrite vlen_object, !lsum_cons, lsum_nil. cbn [fst snd].
  change (vlen (VString (message e))) with (str_len (write_str (message e))).
  pose proof (write_str_len (message e)).
  assert (vlen (to_value (code e)) ≤ 30) by (destruct (code e); vm_compute; discriminate).
  change (str_len (write_str "code")) with 6. change (str_len (write_str "message")) with 9.
  unfold MAX_MESSAGE_BYTES in Hm. unfold len. cbn [length]. lia.
Qed.

(** An outcome that a staged command can record: its receipt is without
    versions and its message is bounded. *)
Definition outcome_bounded (o : StagedOutcome) : Prop :=
  ∀ e, o = Finished (Err e) → str_len (message e) ≤ MAX_MESSAGE_BYTES.

Lemma vlen_outcome s o :
  revision s ≤ u64_max → outcome_ok s o → outcome_bounded o →
  vlen (to_value o) ≤ vlen (to_value Uploading) + STAGED_OUTCOME_HEADROOM.
Proof.
  intros Hrev Hok Hb. unfold STAGED_OUTCOME_HEADROOM.
  assert (Hw : ∀ k t, str_len k ≤ 10 → vlen t ≤ 4000 →
    vlen (VObject [("state", VString k); ("outcome", t)]) ≤ 8192 ∧
    vlen (VObject [("state", VString k); ("receipt", t)]) ≤ 8192).
  { intros k t Hk Ht. rewrite !vlen_pair. change (vlen (VString k)) with (str_len (write_str k)).
    pose proof (write_str_len k). change (str_len (write_str "state")) with 7.
    change (str_len (write_str "outcome")) with 9. change (str_len (write_str "receipt")) with 9. lia. }
  destruct o as [|[r|e]|r|r]; [done|..].
  - change (to_value (Finished (Ok r))) with
      (VObject [("state", VString "finished"); ("outcome", VObject [("Ok", to_value r)])]).
    pose proof (vlen_receipt _ _ Hrev Hok). destruct (Hw "finished" (VObject [("Ok", to_value r)])); [done| |lia].
    rewrite vlen_single. change (str_len (write_str "Ok")) with 4. lia.
  - change (to_value (Finished (Err e))) with
      (VObject [("state", VString "finished"); ("outcome", VObject [("Err", to_value e)])]).
    pose proof (vlen_error e (Hb e eq_refl)). destruct (Hw "finished" (VObject [("Err", to_value e)])); [done| |lia].
    rewrite vlen_single. change (str_len (write_str "Err")) with 5. lia.
  - pose proof (vlen_receipt _ _ Hrev Hok). destruct (Hw "aborted" (to_value r)) as [_ Hx]; [done|lia|].
    etrans; [exact Hx|lia].
  - pose proof (vlen_receipt _ _ Hrev Hok). destruct (Hw "expired" (to_value r)) as [_ Hx]; [done|lia|].
    etrans; [exact Hx|lia].
Qed.

#[local] Opaque staged_header vlen stage_record u64_max.

Lemma variable_len_ended o t :
  variable_len (set_outcome o (clear_payload t)) = 4 + vlen (to_value o).
Proof.
  assert (Hv : variable_len (set_outcome o (clear_payload t)) =
    vlen (to_value 0) + vlen (to_value 0) + vlen (to_value 0) + vlen (to_value 0) +
    vlen (to_value o)) by reflexivity.
  rewrite Hv, vlen_zero. lia.
Qed.

Lemma variable_len_maximum t :
  variable_len (set_counters u64_max u64_max u64_max u64_max t) = 80 + vlen (to_value (outcome t)).
Proof.
  assert (Hv : variable_len (set_counters u64_max u64_max u64_max u64_max t) =
    vlen (to_value u64_max) + vlen (to_value u64_max) + vlen (to_value u64_max) +
    vlen (to_value u64_max) + vlen (to_value (outcome t))) by reflexivity.
  rewrite Hv, vlen_max. lia.
Qed.

(** The charge of an active record, and of an ended one. *)
Lemma active_charge_Ok key t u r :
  is_active t = true → permanent_charge key t = Ok (u, r) →
  u = vlen (stage_record key (clear_chunks t)) + 9 ∧
  u + r = vlen (stage_record key (clear_chunks (set_counters u64_max u64_max u64_max u64_max t)))
            + 9 + STAGED_OUTCOME_HEADROOM.
Proof.
  intros Ha Hc. unfold permanent_charge in Hc. rewrite Ha in Hc. cbn [negb] in Hc.
  apply bind_Ok in Hc as (u1 & Hu%staged_header_Ok & Hc).
  apply bind_Ok in Hc as (n & Hn%staged_header_Ok & Hc).
  apply bind_Ok in Hc as (cap & Hcap%ok_or_Ok%checked_add_Some & Hc).
  apply bind_Ok in Hc as (rv & Hr%ok_or_Ok%checked_sub_add & [= <- <-]).
  destruct Hu as [-> _], Hn as [Hn _], Hcap as [-> _].
  rewrite clear_counters in Hn. split; [done|]. lia.
Qed.

Lemma ended_charge_Ok key t :
  is_active t = false → vlen (stage_record key (clear_chunks t)) ≤ 33554432 →
  permanent_charge key t = Ok (vlen (stage_record key (clear_chunks t)) + 9, 0).
Proof.
  intros Ha Hle. unfold permanent_charge. rewrite (proj2 (staged_header_Ok key t _)) by done.
  rewrite bind_Ok_l, Ha. done.
Qed.

Lemma ended_same_identity o a b c d t :
  same_identity (set_outcome o (clear_payload t)) (set_counters a b c d t).
Proof. repeat split. Qed.

(** An ended record never needs more than its upload reserved. *)
Lemma end_within_reservation key t o u r :
  is_active t = true → permanent_charge key t = Ok (u, r) →
  vlen (to_value o) ≤ vlen (to_value Uploading) + STAGED_OUTCOME_HEADROOM →
  vlen (stage_record key (clear_chunks (set_outcome o (clear_payload t)))) + 9 ≤ u + r.
Proof.
  intros Ha Hc Ho. apply active_charge_Ok in Hc as [_ ->]; [|done].
  pose proof (stage_record_len key _ _ (ended_same_identity o u64_max u64_max u64_max u64_max t)) as Hlen.
  rewrite variable_len_ended, variable_len_maximum in Hlen.
  assert (Hout : outcome t = Uploading) by (unfold is_active in Ha; by destruct (outcome t)).
  rewrite Hout in Hlen. lia.
Qed.

(** Ending an upload in an accounted state: the new totals stay below the old. *)
Lemma end_totals base s key t o :
  limits_fit (limits s) → accounted_stages base s → staged_transactions s !! key = Some t →
  is_active t = true → is_active (set_outcome o (clear_payload t)) = false →
  vlen (to_value o) ≤ vlen (to_value Uploading) + STAGED_OUTCOME_HEADROOM →
  vlen (stage_record key (clear_chunks (set_outcome o (clear_payload t)))) ≤ 33554432 →
  ∃ totals, record_totals s key (set_outcome o (clear_payload t)) = Ok totals.
Proof.
  intros [Hf _] (_ & Hch & Hu & Hr & Hmax) Hk Ha Hna Ho Hframe.
  destruct (Hch _ _ Hk) as [[u r] Hc]. pose proof (end_within_reservation _ _ _ _ _ Ha Hc Ho) as Hle.
  pose proof (wsum_delete used_of _ _ _ Hk) as Hlu.
  pose proof (wsum_delete reserved_of _ _ _ Hk) as Hlr.
  destruct (charge_of _ _ _ Hc) as [Hcu Hcr]. cbn [fst snd] in *. rewrite Hcu in Hlu. rewrite Hcr in Hlr.
  set (v := vlen _) in Hle, Hframe.
  assert (Hnew : permanent_charge key (set_outcome o (clear_payload t)) = Ok (v + 9, 0))
    by (by apply ended_charge_Ok).
  exists (permanent_staged_bytes s - u + (v + 9), reserved_staged_terminal_bytes s - r + 0).
  unfold record_totals. rewrite Hk, Hc, bind_Ok_l, Hnew, bind_Ok_l, Ha, Hna. cbn [negb andb fst snd].
  assert (Hur : checked_add u r = Some (u + r)) by (apply checked_add_Some; lia).
  rewrite Hur. apply seq_Ok. split; [apply reject_if_Ok, N.ltb_ge; lia|].
  apply bind_Ok. eexists. split.
  { apply ok_or_Ok, bind_Some. eexists. split; apply checked_sub_Some || apply checked_add_Some; split; [reflexivity|lia|reflexivity|lia]. }
  apply bind_Ok. eexists. split.
  { apply ok_or_Ok, bind_Some. eexists. split; apply checked_sub_Some || apply checked_add_Some; split; [reflexivity|lia|reflexivity|lia]. }
  apply seq_Ok. split; [|done]. apply reject_if_Ok.
  set (x := permanent_staged_bytes s - u + _). set (y := reserved_staged_terminal_bytes s - r + _).
  assert (Hxy : checked_add x y = Some (x + y)) by (apply checked_add_Some; lia).
  rewrite Hxy. apply N.ltb_ge. lia.
Qed.

(** ** Correctness *)

Section claims.
Context `{Sha256} `{UuidParse} `{QueryRules} `{IndexRules}.

(** C10. Staged state survives restarts: from a state that passes the check of a
    restored snapshot, however a staged command ends, every record is valid,
    the used and reserved bytes are exactly those of the records, and the
    active index and the budgets are exact; and if no identity ended, the new
    state passes the same check. *)
Theorem staged_command_restorable c resolver s s' r :
  validate_limits (limits s) = Ok tt → limits_fit (limits s) → validate_staging s = Ok tt →
  apply_staged c (revision s) resolver s = (s', r) →
  staged_ok (th_encoded_bytes (staged_terminal_head s)) s' ∧
  (all_active s' → validate_staging s' = Ok tt).
Proof.
  intros Hl Hf Hv Hap. destruct (staged_ok_restored s Hl Hf Hv) as [Hok _].
  assert (Hsteps : rtc staged_step s s').
  { eapply (apply_staged_steps c (revision s) resolver s); [|done|exact Hap].
    by destruct Hok as (_ & _ & [? _] & _). }
  pose proof (steps_ok _ _ _ Hsteps Hok) as Hok'. split; [done|]. intros Hact.
  apply staged_ok_checked; [|done]. by destruct (steps_context _ _ Hsteps) as (_ & _ & _ & _ & _ & -> & _).
Qed.

(** C14. A staged identity is permanent: no staged command removes it or
    changes its scope, manifest, digest, lifetime or expiry, and once it has an
    outcome (finished, aborted or expired) nothing about it changes again. *)
Theorem staged_identity_permanent c resolver s s' r key t :
  index_ok s → apply_staged c (revision s) resolver s = (s', r) →
  staged_transactions s !! key = Some t →
  ∃ t', staged_transactions s' !! key = Some t' ∧ same_identity t t' ∧
    (is_active t = false → t' = t).
Proof.
  intros Hix Hap. eapply steps_permanent, apply_staged_steps; [done|reflexivity|exact Hap].
Qed.

(** C3. Finalizing is atomic: when it reports a committed transaction, the
    payload was complete, every read assertion held, and the documents are
    exactly those of applying all operations in chunk order to the state
    before, while the identity carries that receipt and no payload; when it
    reports anything else, no document, collection or total changed. *)
Theorem finalize_atomic c ref rev resolver s :
  match finalize_staged c ref rev resolver s with
  | (s', Ok (Ok receipt, true)) =>
      ∃ key t, staged_transactions s !! key = Some t ∧ is_active t = true ∧
        staged_transactions s' !! key = Some (terminal t (Ok receipt)) ∧
        validate_complete t = Ok tt ∧
        Forall (assertion_holds s (timestamp_ms c)) (stage_assertions t) ∧
        NoDup (target <$> stage_operations t) ∧
        (∀ m, m ∈ stage_operations t → mutation_effect s rev resolver m (find_document s' (target m))) ∧
        (∀ d, ¬ d ∈ target <$> stage_operations t → find_document s' d = find_document s d)
  | (s', _) => collections s' = collections s ∧ document_count s' = document_count s ∧
      logical_bytes s' = logical_bytes s
  end.
Proof.
  destruct (finalize_staged c ref rev resolver s) as [s' r] eqn:Hf.
  unfold finalize_staged in Hf. rewrite st_bind_get in Hf.
  apply st_bind_inv in Hf as [(e & [= <- _] & ->)|(s1 & t & [-> Hst%query_Ok]%st_lift_Ok & Hf)]; [done|].
  apply lookup_stage_Ok in Hst as (key & Hk & Hkey & _).
  destruct (resolved (outcome t)) as [o|] eqn:Ho.
  { injection Hf as <- <-. by destruct o. }
  apply resolved_None_active in Ho.
  apply st_bind_inv in Hf as [(e & [= <- _] & ->)|(s1 & [] & [-> _]%st_lift_Ok & Hf)]; [done|].
  apply st_bind_inv in Hf as [(e & [= <- _] & ->)|(s1 & k & [-> Hk'%query_Ok]%st_lift_Ok & Hf)]; [done|].
  rewrite Hk in Hk'. injection Hk' as <-.
  destruct (run_stage _ _ _ _ _) as [staged [receipt|[e|e]]] eqn:Hrun.
  - apply run_stage_Ok in Hrun as (Hc & (_ & _ & Has)%validate_read_assertions_Ok & Hm & _).
    destruct (replace_record _ _ staged) as [staged' [[]|e]] eqn:Hrep; [|by injection Hf as <- <-].
    apply replace_record_inv in Hrep as [(e & ? & _)|(totals & _ & _ & ->)]; [done|].
    injection Hf as <- <-. apply apply_mutations_Ok in Hm as (pr & Hloop & _).
    apply apply_loop_Ok in Hloop as (Hnd & _ & _ & _ & Heff & Hkeep & _).
    exists key, t. split_and!; try done. cbn. by rewrite lookup_insert_eq.
  - by injection Hf as <- <-.
  - case_bool_decide; [by injection Hf as <- <-|].
    apply st_bind_inv in Hf as [(e1 & He & ->)|(s1 & [] & Hrep & Hf)].
    + unfold st_query in He. destruct (replace_record _ _ s) as [s2 x] eqn:Hx. injection He as <- He.
      by apply replace_record_inv in Hx as [(? & _ & ->)|(? & _ & _ & ->)].
    + injection Hf as <- <-. unfold st_query in Hrep.
      destruct (replace_record _ _ s) as [s2 x] eqn:Hx. injection Hrep as <- _.
      by apply replace_record_inv in Hx as [(? & _ & ->)|(? & _ & _ & ->)].
Qed.

(** C16. What a client declares is what is applied: if the manifest was built
    from a list of chunks, then a complete stage holds exactly those chunks,
    byte for byte and in the declared order, unless an uploaded chunk and the
    declared chunk of the same index are a collision of SHA-256. *)
Theorem declared_payload_is_applied t cs :
  from_chunks cs = Ok (st_manifest t) → validate_complete t = Ok tt →
  size (chunks t) = length (chunk_digests (st_manifest t)) →
  (∀ i c c', chunks t !! i = Some c → cs !! N.to_nat i = Some c' →
     no_collision (to_json c) (to_json c')) →
  to_json <$> map_values (chunks t) = to_json <$> cs.
Proof.
  intros Hm Hc Hsz Hcol. destruct (complete_encoding t cs Hm Hc Hcol) as [Hlen Henc].
  rewrite <-(map_values_indexed (to_json <$> chunks t) (to_json <$> cs)).
  - apply map_values_fmap.
  - intros i v Hi. apply lookup_fmap_Some in Hi as (c & <- & Hi). by apply Henc.
  - rewrite map_size_fmap, length_fmap. lia.
Qed.
(** C11. An accepted upload can always be ended: in an accounted state, ending
    an active upload with any outcome a staged command records (an abort, an
    expiry, a receipt without versions or an error) is never refused by the
    quotas or by the reservation of the upload, whatever other uploads did in
    between, as long as the record still fits one frame. *)
Theorem accepted_upload_can_end base s key t o :
  limits_fit (limits s) → revision s ≤ u64_max → accounted_stages base s →
  staged_transactions s !! key = Some t → is_active t = true →
  outcome_ok s o → outcome_bounded o →
  str_len (write (stage_record key (clear_chunks (set_outcome o (clear_payload t))))) ≤ 33554432 →
  ∃ s', replace_record key (set_outcome o (clear_payload t)) s = (s', Ok tt) ∧
    accounted_stages base s'.
Proof.
  intros Hf Hrev Hacc Hk Ha Hok Hb Hframe.
  assert (Hna : is_active (set_outcome o (clear_payload t)) = false) by (by destruct o).
  destruct (end_totals base s key t o Hf Hacc Hk Ha Hna (vlen_outcome s o Hrev Hok Hb) Hframe)
    as [totals Ht].
  exists (store_record key (set_outcome o (clear_payload t)) totals s).
  split; [|by apply store_record_accounted]. unfold replace_record.
  by rewrite st_bind_get, (st_bind_lift _ _ _ _ Ht).
Qed.
End claims.

(** ** A sample upload *)

Module StagingSample.
#[export] Instance sha : Sha256 := Sample.sha.
#[export] Instance parse : UuidParse := Sample.parse.
#[export] Instance rules : QueryRules := ApplySample.rules.
#[export] Instance index_rules : IndexRules := {| validate_changes _ _ _ _ := Ok tt |}.

Definition first : StagedChunk :=
  {| ck_read_set := [ADocument "docs" "a" (RVersion 3)];
     ck_operations := [Patch "docs" "a" (VObject [("n", VNumber "22")]) (PVersion 3)] |}.
Definition second : StagedChunk :=
  {| ck_read_set := []; ck_operations := [Put "log" "b" (VObject []) PAbsent] |}.
Definition payload : list StagedChunk := [first; second].

Definition manifest : StagedManifest := Eval vm_compute in
  the (from_chunks payload) eq_refl.

Definition scope : Scope := {| sc_tenant := "t1"; sc_incarnation := "i1"; sc_principal := "root" |}.

Definition begin : BeginStagedTransaction :=
  {| b_scope := scope; b_transaction_id := "tx1"; b_manifest := manifest; b_ttl_ms := 60000 |}.

Definition ref : StagedTransactionRef := Eval vm_compute in the (reference begin) eq_refl.

Definition command (op : Operation) : Command :=
  {| context := Sample.context; timestamp_ms := 1000; operation := op |}.

Definition upload (i : N) (c : StagedChunk) : Operation :=
  AppendStaged {| ap_transaction := ref; ap_index := i; ap_chunk := c |}.

(** The upload is accepted, its chunks arrive out of order, and it is
    finalized. *)
Definition run (op : Operation) (s : TenantState) :=
  apply_staged (command op) (revision s) None s.

Definition started : TenantState := Eval vm_compute in (run (BeginStaged begin) ApplySample.state).1.
Definition uploaded : TenantState := Eval vm_compute in
  (run (upload 0 first) (run (upload 1 second) started).1).1.
Definition finished := Eval vm_compute in run (FinalizeStaged ref) uploaded.
End StagingSample.

Section witnesses.
Import StagingSample.

Definition upload_key : string := Eval vm_compute in
  the (identity "root" "tx1") eq_refl.
Definition stage : StagedTransaction := Eval vm_compute in
  default (new_stage begin "" None Uploading) (staged_transactions uploaded !! upload_key).

Lemma sample_limits_fit : limits_fit (limits uploaded).
Proof. split; vm_compute; discriminate. Qed.

Lemma sample_staging : staged_ok 0 uploaded.
Proof.
  apply (staged_ok_restored uploaded); [vm_compute; reflexivity|exact sample_limits_fit|].
  vm_compute. reflexivity.
Qed.

Lemma staged_command_restorable_witness :
  staged_ok 0 finished.1.
Proof.
  apply (staged_command_restorable (command (FinalizeStaged ref)) None uploaded finished.1 finished.2);
    [vm_compute; reflexivity|exact sample_limits_fit|vm_compute; reflexivity|vm_compute; reflexivity].
Defined.

Lemma staged_identity_permanent_witness :
  ∃ t', staged_transactions finished.1 !! upload_key = Some t' ∧ same_identity stage t' ∧
    (is_active stage = false → t' = stage).
Proof.
  apply (staged_identity_permanent (command (FinalizeStaged ref)) None uploaded finished.1 finished.2);
    [by destruct sample_staging as (_ & _ & [? _] & _)|vm_compute; reflexivity..].
Defined.

Lemma declared_payload_is_applied_witness :
  to_json <$> map_values (chunks stage) = to_json <$> payload.
Proof.
  apply (declared_payload_is_applied stage payload); [vm_compute; reflexivity..|].
  assert (Hch : chunks stage = {[0 := first; 1 := second]}) by (vm_compute; reflexivity).
  intros i c c' Hc Hc'. rewrite Hch in Hc.
  apply lookup_insert_Some in Hc as [[<- <-]|[_ [<- <-]%lookup_singleton_Some]];
    injection Hc' as <-; by intros _.
Defined.

Lemma accepted_upload_can_end_witness :
  ∃ s', replace_record upload_key (set_outcome (Aborted (empty_receipt 4)) (clear_payload stage)) uploaded
          = (s', Ok tt) ∧ accounted_stages 0 s'.
Proof.
  apply (accepted_upload_can_end 0 uploaded upload_key stage (Aborted (empty_receipt 4)));
    [exact sample_limits_fit|vm_compute; discriminate|by destruct sample_staging as (_ & _ & ? & _)|
     vm_compute; reflexivity|reflexivity|vm_compute; reflexivity|discriminate|vm_compute; discriminate].
Defined.
End witnesses.
