(* ===== verification/Ledger.v ===== *)
(** * Permanent rows: identities, keys and exact reads

    The parts that the two permanent histories of a tenant share: the identity
    of the applying command (src/crates/kasumi-engine/src/staged_terminal.rs),
    the keys of point rows and ordinal rows, the ordinal commitment, and the
    exact-bytes check of src/crates/kasumi-engine/src/current_json.rs.

    A deserializer ([serde_json::from_slice] at a type) is the interface
    [FromSlice]; where a theorem needs that written bytes can be read back, it
    says so of the rows it is about ([readable]). *)

From S2P Require Import Prelude Json Types Digest State.

(** ** Errors *)

(** [anyhow::Error]: an [Error] of the data model or a message. *)
Inductive anyhow :=
| AnyError (e : Error)
| AnyMessage (m : string).

Abbreviation Anyhow := (result anyhow).

(** [?] on a [Result] of the data model inside [anyhow] code. *)
Definition any {A} (r : Result A) : Anyhow A := map_err AnyError r.

(** [ensure!] and [Option::context]. *)
Definition demand (b : bool) (m : string) : Anyhow unit := reject_if (negb b) (AnyMessage m).
Definition context_or {A} (o : option A) (m : string) : Anyhow A := ok_or o (AnyMessage m).

(** [terminal_error]. *)
Definition terminal_error (e : anyhow) : Error :=
  match e with
  | AnyError e => e
  | AnyMessage m => new_error Corruption m
  end.

(** ** Exact bytes *)

Class FromSlice (A : Type) := from_slice : string → Anyhow A.

Definition readable {A} `{Serialize A, FromSlice A} (a : A) : Prop := from_slice (to_json a) = Ok a.

(** [Compare::write] of current_json.rs: after the first difference the rest of
    the output is ignored. *)
Definition current_write (w : string * bool) (bytes : string) : string * bool :=
  if w.2 then
    match strip_prefix bytes w.1 with
    | Some remaining => (remaining, true)
    | None => (w.1, false)
    end
  else w.

(** [require_current_writer_bytes]; the writer receives the encoding in pieces. *)
Definition require_written (original : string) (pieces : list string) (name : string) :
    Anyhow unit :=
  let w := foldl current_write (original, true) pieces in
  demand (w.2 && bool_decide (w.1 = "")) ("noncanonical " +:+ name).

Definition require_current {A} `{Serialize A} (original : string) (decoded : A) (name : string) :
    Anyhow unit :=
  require_written original [to_json decoded] name.

(** ** The applying command *)

Inductive AppliedOrigin :=
| Raft (term leader index : N) (context_sha256 : string).

Record AppliedIdentity := {
  a_incarnation : string;
  a_revision : N;
  a_timestamp_ms : N;
  command_sha256 : string;
  origin : AppliedOrigin;
}.

#[export] Instance serialize_AppliedOrigin : Serialize AppliedOrigin := λ o,
  match o with
  | Raft term leader index c =>
      VObject [("kind", VString "Raft"); ("term", to_value term); ("leader", to_value leader);
               ("index", to_value index); ("context_sha256", VString c)]
  end.

#[export] Instance serialize_AppliedIdentity : Serialize AppliedIdentity := λ a,
  VObject [("incarnation", VString (a_incarnation a)); ("revision", to_value (a_revision a));
           ("timestamp_ms", to_value (a_timestamp_ms a));
           ("command_sha256", VString (command_sha256 a)); ("origin", to_value (origin a))].

(** [digest]. *)
Definition digest (value : string) : bool := (str_len value =? 64) && all_chars sha256_char value.

(** [AppliedIdentity::validate]. *)
Definition validate_applied (a : AppliedIdentity) : Anyhow unit :=
  any (validate_name (a_incarnation a));;
  demand ((0 <? a_revision a) && digest (command_sha256 a)) "invalid terminal applied identity";;
  match origin a with
  | Raft _ _ index c =>
      demand ((0 <? index) && (index <=? a_revision a) && digest c) "invalid terminal Raft binding"
  end.

(** The revisions of an incarnation: those of the state, or those a retained
    restore names. *)
Definition incarnation_bounds (s : TenantState) (i : string) : Anyhow (N * N) :=
  if bool_decide (i = incarnation s) then Ok (revision_base s, revision s)
  else
    link ← context_or (find (λ l, bool_decide (source_incarnation (checkpoint l) = i))
                            (restore_lineage s))
      "terminal applied incarnation is outside retained lineage";
    genesis ← match find (λ l, bool_decide (target_incarnation l = i)) (restore_lineage s) with
              | Some l => context_or (checked_add (bk_revision (checkpoint l)) 1)
                            "terminal applied genesis revision overflow"
              | None => Ok 0
              end;
    Ok (genesis, bk_revision (checkpoint link)).

(** [AppliedIdentity::validate_original_position]. *)
Definition validate_original_position (a : AppliedIdentity) (s : TenantState) : Anyhow (N * N) :=
  validate_applied a;;
  b ← incarnation_bounds s (a_incarnation a);
  demand ((b.1 <? a_revision a) && (a_revision a <=? b.2))
    "terminal applied revision is outside its original incarnation";;
  match origin a with
  | Raft _ _ index _ =>
      demand (bool_decide (checked_add b.1 index = Some (a_revision a)))
        "terminal Raft position differs from original incarnation revision"
  end;;
  Ok b.

(** ** Keys *)

(** [u64::to_be_bytes]. *)
Fixpoint be_bytes (k : nat) (n : N) : string :=
  match k with
  | O => ""
  | S k' => be_bytes k' (n / 256) +:+ String (ascii_of_N (n `mod` 256)) ""
  end.

Definition id_key (key : string) : string := "id/" +:+ key.
Definition ordinal_key (n : N) : string := "ordinal/" +:+ be_bytes 8 n.

(** The commitment of an ordinal. *)
Record Ordinal := { o_key : string; o_sha256 : string }.

#[export] Instance serialize_Ordinal : Serialize Ordinal := λ o,
  VObject [("key", VString (o_key o)); ("sha256", VString (o_sha256 o))].

Definition MAX_ROW_BYTES : N := N.shiftl 2 20.

(** ** Lemmas *)

Lemma demand_Ok b m : demand b m = Ok tt ↔ b = true.
Proof. unfold demand. rewrite reject_if_Ok, negb_false_iff. done. Qed.

Lemma demand_true m : demand true m = Ok tt.
Proof. done. Qed.

Lemma any_Ok {A} (r : Result A) a : any r = Ok a ↔ r = Ok a.
Proof. apply map_err_Ok. Qed.

Lemma context_or_Some {A} (a : A) m : context_or (Some a) m = Ok a.
Proof. done. Qed.

Lemma context_or_Ok {A} (o : option A) m a : context_or o m = Ok a ↔ o = Some a.
Proof. apply ok_or_Ok. Qed.

(** However the writer cuts its output, the comparison is equality. *)
Lemma current_write_pieces original : ∀ pieces seen,
  let w := foldl current_write (original, true) pieces in
  w.2 && bool_decide (w.1 = seen) = true ↔ original = foldr String.app seen pieces.
Proof.
  intros pieces. revert original. induction pieces as [|p pieces IH]; intros original seen; cbn.
  { case_bool_decide; naive_solver. }
  destruct (strip_prefix p original) as [r|] eqn:Hp.
  - apply strip_prefix_Some in Hp as ->. rewrite IH. split; [by intros ->|apply (inj _)].
  - assert (Hstay : ∀ l, foldl current_write (original, false) l = (original, false))
      by (by induction l). rewrite Hstay. split; [done|]. intros ->.
    assert (Hs : strip_prefix p (p +:+ foldr String.app seen pieces) = Some (foldr String.app seen pieces))
      by (by apply strip_prefix_Some). congruence.
Qed.

Lemma require_written_Ok original pieces name :
  require_written original pieces name = Ok tt ↔ original = foldr String.app "" pieces.
Proof. unfold require_written. rewrite demand_Ok. apply current_write_pieces. Qed.

Lemma require_current_Ok {A} `{Serialize A} original (a : A) name :
  require_current original a name = Ok tt ↔ original = to_json a.
Proof.
  unfold require_current. rewrite require_written_Ok. cbn.
  by rewrite app_string_nil_r.
Qed.

(** *** Keys are distinct *)

Lemma be_bytes_len k n : str_len (be_bytes k n) = N.of_nat k.
Proof.
  revert n. induction k as [|k IH]; intros n; [done|]. cbn [be_bytes].
  rewrite str_len_app, IH. change (str_len (String _ "")) with 1. lia.
Qed.

Lemma str_app_tail (a b : string) c d : a +:+ String c "" = b +:+ String d "" → a = b ∧ c = d.
Proof.
  revert b. induction a as [|x a IH]; intros [|y b]; cbn; intros Heq.
  - by injection Heq.
  - injection Heq as -> Heq. by destruct b.
  - injection Heq as -> Heq. by destruct a.
  - injection Heq as -> [-> ->]%IH. done.
Qed.

Lemma be_bytes_inj k : ∀ n m, n < 256 ^ N.of_nat k → m < 256 ^ N.of_nat k →
  be_bytes k n = be_bytes k m → n = m.
Proof.
  induction k as [|k IH]; intros n m Hn Hm Heq.
  { cbn in Hn, Hm. lia. }
  cbn [be_bytes] in Heq. apply str_app_tail in Heq as [Heq Hc].
  assert (Hmod : n `mod` 256 = m `mod` 256).
  { rewrite <-(N_ascii_embedding (n `mod` 256)), <-(N_ascii_embedding (m `mod` 256)), Hc
      by (apply N.mod_lt; lia). done. }
  rewrite Nat2N.inj_succ, N.pow_succ_r' in Hn, Hm.
  assert (Hdiv : n `div` 256 = m `div` 256) by (apply IH; [lia..|done]).
  rewrite (N.div_mod n 256), (N.div_mod m 256) by lia. by rewrite Hdiv, Hmod.
Qed.

Lemma ordinal_key_inj n m : n ≤ u64_max → m ≤ u64_max → ordinal_key n = ordinal_key m → n = m.
Proof.
  unfold ordinal_key. intros Hn Hm Heq%(inj _).
  apply (be_bytes_inj 8); [unfold u64_max in *; cbn; lia..|done].
Qed.

Lemma id_key_inj a b : id_key a = id_key b → a = b.
Proof. unfold id_key. apply (inj _). Qed.

Lemma id_key_ordinal a n : id_key a ≠ ordinal_key n.
Proof. done. Qed.

(** The pair of a tag and a value. *)
Lemma write_pair_inj t v v' : write (VArray [VString t; v]) = write (VArray [VString t; v']) → write v = write v'.
Proof.
  cbn [write fmap list_fmap]. cbn [write_items]. intros Heq%(inj _).
  change (("" +:+ write_str t +:+ "," +:+ write v +:+ "") +:+ "]" =
          ("" +:+ write_str t +:+ "," +:+ write v' +:+ "") +:+ "]") in Heq.
  apply str_app_tail in Heq as [Heq _]. do 3 apply (inj _) in Heq.
  by rewrite !app_string_nil_r in Heq.
Qed.

Lemma tagged_inj {A} `{Serialize A} (t : string) (a b : A) :
  to_json (t, a) = to_json (t, b) → to_json a = to_json b.
Proof. apply write_pair_inj. Qed.
