(* ===== verification/Meter.v ===== *)
(** * The structural meter of snapshot records

    Models src/crates/kasumi-engine/src/snapshot_record_work.rs: before a record
    of a snapshot is decoded, its bytes are scanned in chunks of any size and the
    memory that decoding can need is bounded from the number of strings, scalars
    and containers.  The sizes of the Rust representations ([size_of]) are those
    the compiler chooses; a site is charged [site_bytes] of them. *)

From S2P Require Import Prelude Json Types Digest Ledger.

Definition MAX_DEPTH : N := 128.
Definition REPRESENTATIONS : N := 4.
Definition CAPACITY_FACTOR : N := 2.

(** [Meter]; of the array [stack] the [depth] open containers, innermost first. *)
Record Meter := {
  wire_bytes : N;
  scalar_bytes : N;
  sites : N;
  stack : list ascii;
  quoted : bool;
  escaped : bool;
  scalar : bool;
}.

Definition empty_meter : Meter :=
  {| wire_bytes := 0; scalar_bytes := 0; sites := 0; stack := []; quoted := false;
     escaped := false; scalar := false |}.

(** Field assignments. *)
Definition set_wire_bytes (n : N) (m : Meter) : Meter :=
  {| wire_bytes := n; scalar_bytes := scalar_bytes m; sites := sites m; stack := stack m;
     quoted := quoted m; escaped := escaped m; scalar := scalar m |}.
Definition set_scalar_bytes (n : N) (m : Meter) : Meter :=
  {| wire_bytes := wire_bytes m; scalar_bytes := n; sites := sites m; stack := stack m;
     quoted := quoted m; escaped := escaped m; scalar := scalar m |}.
Definition set_sites (n : N) (m : Meter) : Meter :=
  {| wire_bytes := wire_bytes m; scalar_bytes := scalar_bytes m; sites := n; stack := stack m;
     quoted := quoted m; escaped := escaped m; scalar := scalar m |}.
Definition set_stack (l : list ascii) (m : Meter) : Meter :=
  {| wire_bytes := wire_bytes m; scalar_bytes := scalar_bytes m; sites := sites m; stack := l;
     quoted := quoted m; escaped := escaped m; scalar := scalar m |}.
Definition set_quoted (b : bool) (m : Meter) : Meter :=
  {| wire_bytes := wire_bytes m; scalar_bytes := scalar_bytes m; sites := sites m;
     stack := stack m; quoted := b; escaped := escaped m; scalar := scalar m |}.
Definition set_escaped (b : bool) (m : Meter) : Meter :=
  {| wire_bytes := wire_bytes m; scalar_bytes := scalar_bytes m; sites := sites m;
     stack := stack m; quoted := quoted m; escaped := b; scalar := scalar m |}.
Definition set_scalar (b : bool) (m : Meter) : Meter :=
  {| wire_bytes := wire_bytes m; scalar_bytes := scalar_bytes m; sites := sites m;
     stack := stack m; quoted := quoted m; escaped := escaped m; scalar := b |}.

(** [overflow]. *)
Definition work_overflow : string := "snapshot structural work overflow".
Definition nesting_message : string := "snapshot JSON nesting exceeds limit".

(** [Meter::site]. *)
Definition site : ST Meter anyhow unit :=
  m ← st_get;
  n ← st_lift (context_or (checked_add (sites m) 1) work_overflow);
  st_modify (set_sites n).

Definition add_scalar_bytes (k : N) : ST Meter anyhow unit :=
  m ← st_get;
  n ← st_lift (context_or (checked_add (scalar_bytes m) k) work_overflow);
  st_modify (set_scalar_bytes n).

(** The bytes the unquoted scanner distinguishes. *)
Definition backslash : ascii := "092"%char.

Definition opens (c : ascii) : bool := bool_decide (c = "{"%char) || bool_decide (c = "["%char).
Definition closes (c : ascii) : bool := bool_decide (c = "}"%char) || bool_decide (c = "]"%char).
Definition opener (c : ascii) : ascii := if bool_decide (c = "}"%char) then "{"%char else "["%char.
Definition separates (c : ascii) : bool :=
  bool_decide (c ∈ [":"%char; ","%char; " "%char; "013"%char; "010"%char; "009"%char]).

(** One byte inside a string. *)
Definition quoted_byte (byte : ascii) : ST Meter anyhow unit :=
  m ← st_get;
  if escaped m then
    st_modify (set_escaped false);;
    add_scalar_bytes 1
  else if bool_decide (byte = quote_char) then st_modify (set_quoted false)
  else
    (if bool_decide (byte = backslash) then st_modify (set_escaped true) else mret tt);;
    add_scalar_bytes 1.

(** One byte outside a string. *)
Definition plain_byte (byte : ascii) : ST Meter anyhow unit :=
  if bool_decide (byte = quote_char) then
    site;;
    st_modify (λ m, set_scalar false (set_quoted true m))
  else if opens byte then
    site;;
    m ← st_get;
    st_lift (demand (len (stack m) <? MAX_DEPTH) nesting_message);;
    st_modify (λ m, set_scalar false (set_stack (byte :: stack m) m))
  else if closes byte then
    m ← st_get;
    match stack m with
    | [] => st_lift (Err (AnyMessage "unbalanced snapshot JSON container"))
    | top :: rest =>
        st_modify (set_stack rest);;
        st_lift (demand (bool_decide (top = opener byte)) "mismatched snapshot JSON container");;
        st_modify (set_scalar false)
    end
  else if separates byte then st_modify (set_scalar false)
  else
    m ← st_get;
    (if scalar m then mret tt else site;; st_modify (set_scalar true));;
    add_scalar_bytes 1.

Definition meter_byte (byte : ascii) : ST Meter anyhow unit :=
  m ← st_get;
  if quoted m then quoted_byte byte else plain_byte byte.

(** [memchr2] for a quote or a backslash: the number of bytes before the first
    one, and the rest. *)
Fixpoint plain_run (bytes : string) : N * string :=
  match bytes with
  | "" => (0, "")
  | String c rest =>
      if bool_decide (c = quote_char) || bool_decide (c = backslash) then (0, bytes)
      else let p := plain_run rest in (1 + p.1, p.2)
  end.

(** The loop of [Meter::consume]; every iteration but the last consumes a byte. *)
Fixpoint consume_loop (fuel : nat) (bytes : string) : ST Meter anyhow unit :=
  match fuel, bytes with
  | O, _ | _, "" => mret tt
  | S fuel, _ =>
      m ← st_get;
      rest ← (if quoted m && negb (escaped m) then
                add_scalar_bytes (plain_run bytes).1;;
                mret (plain_run bytes).2
              else mret bytes);
      match rest with
      | "" => mret tt
      | String byte rest => meter_byte byte;; consume_loop fuel rest
      end
  end.

(** [Meter::consume]. *)
Definition consume (bytes : string) : ST Meter anyhow unit :=
  m ← st_get;
  n ← st_lift (context_or (checked_add (wire_bytes m) (str_len bytes)) work_overflow);
  st_modify (set_wire_bytes n);;
  consume_loop (String.length bytes) bytes.

Section work.
Context (site_bytes : N).

(** [bounded_work]. *)
Definition bounded_work (wire sites : N) : Anyhow N :=
  context_or
    (checked_mul sites site_bytes ≫= λ n, checked_add n wire ≫= λ n,
     checked_mul n (REPRESENTATIONS * CAPACITY_FACTOR) ≫= λ n, checked_add n wire)
    work_overflow.

(** [Meter::finish]. *)
Definition finish_meter (m : Meter) : Anyhow N :=
  demand ((len (stack m) =? 0) && negb (quoted m) && negb (escaped m) && (0 <? sites m))
    "incomplete snapshot JSON structure";;
  context_or
    (checked_mul (sites m) site_bytes ≫= λ n, checked_add n (scalar_bytes m) ≫= λ n,
     checked_mul n REPRESENTATIONS ≫= λ n, checked_mul n CAPACITY_FACTOR ≫= λ n,
     checked_add n (wire_bytes m))
    work_overflow.

(** [measure], and the same scan of an input that arrives in chunks. *)
Definition measure (bytes : string) : Anyhow N :=
  match consume bytes empty_meter with
  | (m, Ok _) => finish_meter m
  | (_, Err e) => Err e
  end.

Definition measure_chunks (chunks : list string) : Anyhow N :=
  match st_fold (λ _, consume) tt chunks empty_meter with
  | (m, Ok _) => finish_meter m
  | (_, Err e) => Err e
  end.
End work.

(** ** The scan, byte by byte *)

(** The specification of the loop: every byte in turn. *)
Fixpoint meter_bytes (bytes : string) : ST Meter anyhow unit :=
  match bytes with
  | "" => mret tt
  | String byte rest => meter_byte byte;; meter_bytes rest
  end.

Lemma meter_bytes_app a b m :
  meter_bytes (a +:+ b) m = (meter_bytes a ≫= λ _, meter_bytes b) m.
Proof.
  revert m. induction a as [|c a IH]; intros m; [done|].
  change (String c a +:+ b) with (String c (a +:+ b)). cbn [meter_bytes].
  unfold mbind, ST_bind. destruct (meter_byte c m) as [m' [[]|e]]; [|done]. apply IH.
Qed.

Lemma add_scalar_run k m :
  add_scalar_bytes k m =
  if scalar_bytes m + k <=? u64_max then (set_scalar_bytes (scalar_bytes m + k) m, Ok tt)
  else (m, Err (AnyMessage work_overflow)).
Proof.
  unfold add_scalar_bytes. rewrite st_bind_get. unfold checked_add, mbind, ST_bind.
  by destruct (scalar_bytes m + k <=? u64_max).
Qed.

Lemma site_run m :
  site m =
  if sites m + 1 <=? u64_max then (set_sites (sites m + 1) m, Ok tt)
  else (m, Err (AnyMessage work_overflow)).
Proof.
  unfold site. rewrite st_bind_get. unfold checked_add, mbind, ST_bind.
  by destruct (sites m + 1 <=? u64_max).
Qed.

Lemma quoted_plain c m :
  quoted m = true → escaped m = false → c ≠ quote_char → c ≠ backslash →
  meter_byte c m = add_scalar_bytes 1 m.
Proof.
  intros Hq He Hc Hb. unfold meter_byte. rewrite st_bind_get, Hq. unfold quoted_byte.
  rewrite st_bind_get, He, !bool_decide_eq_false_2 by done. done.
Qed.

Lemma plain_run_rest s : (String.length (plain_run s).2 ≤ String.length s)%nat.
Proof. induction s as [|c s IH]; [done|]. cbn. case_match; cbn; lia. Qed.

Lemma add_scalar_Ok k m m' :
  add_scalar_bytes k m = (m', Ok tt) ↔
  scalar_bytes m + k ≤ u64_max ∧ m' = set_scalar_bytes (scalar_bytes m + k) m.
Proof.
  rewrite add_scalar_run. destruct (N.leb_spec (scalar_bytes m + k) u64_max); naive_solver lia.
Qed.

Lemma site_Ok m m' :
  site m = (m', Ok tt) ↔ sites m + 1 ≤ u64_max ∧ m' = set_sites (sites m + 1) m.
Proof. rewrite site_run. destruct (N.leb_spec (sites m + 1) u64_max); naive_solver lia. Qed.

Lemma meter_bytes_cons c s m m' :
  meter_bytes (String c s) m = (m', Ok tt) ↔
  ∃ m1, meter_byte c m = (m1, Ok tt) ∧ meter_bytes s m1 = (m', Ok tt).
Proof.
  cbn [meter_bytes]. rewrite st_bind_Ok. split; [|naive_solver].
  intros (m1 & [] & ? & ?). eauto.
Qed.

Lemma set_scalar_bytes_twice a b m : set_scalar_bytes a (set_scalar_bytes b m) = set_scalar_bytes a m.
Proof. done. Qed.

Lemma set_scalar_bytes_id m : set_scalar_bytes (scalar_bytes m) m = m.
Proof. by destruct m. Qed.

(** A run of plain bytes inside a string counts as its bytes do. *)
Lemma plain_run_bytes s : ∀ m m', quoted m = true → escaped m = false → scalar_bytes m ≤ u64_max →
  meter_bytes s m = (m', Ok tt) ↔
  scalar_bytes m + (plain_run s).1 ≤ u64_max ∧
  meter_bytes (plain_run s).2 (set_scalar_bytes (scalar_bytes m + (plain_run s).1) m) = (m', Ok tt).
Proof.
  induction s as [|c s IH]; intros m m' Hq He Hm.
  - cbn [plain_run fst snd]. rewrite N.add_0_r, set_scalar_bytes_id. naive_solver.
  - cbn [plain_run]. destruct (_ || _) eqn:Hc; cbn [fst snd].
    + rewrite N.add_0_r, set_scalar_bytes_id. naive_solver.
    + apply orb_false_iff in Hc as [Hc1%bool_decide_eq_false Hc2%bool_decide_eq_false].
      rewrite meter_bytes_cons, (quoted_plain c m) by done. setoid_rewrite add_scalar_Ok.
      rewrite N.add_assoc. split.
      * intros (m1 & [Hb ->] & H1). apply IH in H1 as [H1 H2]; [|done..]. done.
      * intros [H1 H2]. eexists. split; [split; [lia|done]|]. apply IH; [done..|cbn; lia|]. done.
Qed.

Lemma meter_byte_bound c m m' :
  scalar_bytes m ≤ u64_max → meter_byte c m = (m', Ok tt) → scalar_bytes m' ≤ u64_max.
Proof.
  intros Hm. unfold meter_byte, quoted_byte, plain_byte. rewrite st_bind_get.
  repeat case_match; rewrite ?st_bind_get; intros Hr; repeat case_match; inv_st; cbn in *;
    repeat match goal with
    | H : add_scalar_bytes _ _ = _ |- _ => apply add_scalar_Ok in H as [? ->]
    | H : site _ = _ |- _ => apply site_Ok in H as [? ->]
    end; cbn in *; done.
Qed.

(** The loop scans every byte in turn. *)
Lemma consume_loop_Ok fuel : ∀ bytes m m', (String.length bytes ≤ fuel)%nat →
  scalar_bytes m ≤ u64_max →
  consume_loop fuel bytes m = (m', Ok tt) ↔ meter_bytes bytes m = (m', Ok tt).
Proof.
  induction fuel as [|fuel IH]; intros bytes m m' Hl Hm; [by destruct bytes; [|cbn in Hl; lia]|].
  destruct bytes as [|c s]; [done|]. cbn [consume_loop]. rewrite st_bind_get.
  assert (Htail : ∀ rest m1, (String.length rest ≤ S fuel)%nat → scalar_bytes m1 ≤ u64_max →
    match rest with "" => mret tt | String b r => meter_byte b;; consume_loop fuel r end m1 = (m', Ok tt)
    ↔ meter_bytes rest m1 = (m', Ok tt)).
  { intros [|b r] m1 Hr Hm1; [done|]. rewrite meter_bytes_cons, st_bind_Ok. cbn in Hr. split.
    - intros (m2 & [] & H1 & H2). exists m2. split; [done|]. apply IH; [lia|by eapply meter_byte_bound|done].
    - intros (m2 & H1 & H2). exists m2, tt. split; [done|]. apply IH; [lia|by eapply meter_byte_bound|done]. }
  destruct (quoted m && negb (escaped m)) eqn:Hq.
  - apply andb_true_iff in Hq as [Hq He%negb_true_iff]. rewrite plain_run_bytes by done.
    pose proof (plain_run_rest (String c s)). set (p := plain_run (String c s)) in *. split.
    + intros Hr. inv_st.
      match goal with H : add_scalar_bytes _ _ = _ |- _ => apply add_scalar_Ok in H as [Hb ->] end.
      split; [done|].
      apply Htail in Hr; [done|lia|done].
    + intros [Hb Hr]. erewrite st_bind_run.
      2:{ erewrite st_bind_run; [done|]. by apply add_scalar_Ok. }
      apply Htail; [lia|done|done].
  - erewrite st_bind_run; [|done]. by apply Htail.
Qed.

(** Outside the byte counter, consuming is scanning. *)
Lemma consume_Ok bytes m m' :
  scalar_bytes m ≤ u64_max →
  consume bytes m = (m', Ok tt) ↔
  wire_bytes m + str_len bytes ≤ u64_max ∧
  meter_bytes bytes (set_wire_bytes (wire_bytes m + str_len bytes) m) = (m', Ok tt).
Proof.
  intros Hm. unfold consume. rewrite st_bind_get. rewrite st_bind_Ok.
  setoid_rewrite st_lift_Ok. setoid_rewrite context_or_Ok. setoid_rewrite checked_add_Some. split.
  - intros (m1 & n & [-> [-> Hn]] & Hr). rewrite st_bind_modify in Hr.
    split; [lia|]. by apply consume_loop_Ok in Hr.
  - intros [Hn Hr]. exists m, (wire_bytes m + str_len bytes). split; [split; [done|]; split; lia || done|].
    rewrite st_bind_modify. by apply consume_loop_Ok.
Qed.

(** ** Chunks *)

Lemma meter_byte_wire c n m :
  meter_byte c (set_wire_bytes n m) =
  (set_wire_bytes n (meter_byte c m).1, (meter_byte c m).2).
Proof.
  destruct m as [w t k l q e b]. unfold meter_byte, quoted_byte, plain_byte, site, add_scalar_bytes.
  unfold set_wire_bytes, mbind, ST_bind, st_modify, st_lift, st_get, mret, ST_ret, context_or, demand.
  cbn. repeat (case_match; cbn in *; simplify_eq; try done).
Qed.

Lemma meter_bytes_wire s n : ∀ m m', meter_bytes s m = (m', Ok tt) →
  meter_bytes s (set_wire_bytes n m) = (set_wire_bytes n m', Ok tt).
Proof.
  induction s as [|c s IH]; intros m m' Hs; [by injection Hs as <-|].
  apply meter_bytes_cons in Hs as (m1 & H1 & H2). apply meter_bytes_cons.
  exists (set_wire_bytes n m1). split; [|by apply IH]. by rewrite meter_byte_wire, H1.
Qed.

Lemma meter_bytes_bound s : ∀ m m',
  scalar_bytes m ≤ u64_max → meter_bytes s m = (m', Ok tt) → scalar_bytes m' ≤ u64_max.
Proof.
  induction s as [|c s IH]; intros m m' Hm Hs; [by injection Hs as <-|].
  apply meter_bytes_cons in Hs as (m1 & H1 & H2). eapply IH; [|done]. by eapply meter_byte_bound.
Qed.

Lemma meter_bytes_wire_same s : ∀ m m', meter_bytes s m = (m', Ok tt) → wire_bytes m' = wire_bytes m.
Proof.
  intros m m' Hs. pose proof (meter_bytes_wire s (wire_bytes m) m m' Hs) as Hw.
  replace (set_wire_bytes (wire_bytes m) m) with m in Hw by (by destruct m).
  rewrite Hs in Hw. injection Hw as ->. done.
Qed.

Lemma meter_bytes_app_Ok a b m m' :
  meter_bytes (a +:+ b) m = (m', Ok tt) ↔
  ∃ m1, meter_bytes a m = (m1, Ok tt) ∧ meter_bytes b m1 = (m', Ok tt).
Proof.
  rewrite meter_bytes_app, st_bind_Ok. split; [intros (m1 & [] & ? & ?); eauto|naive_solver].
Qed.

Lemma consume_app a b m m' :
  scalar_bytes m ≤ u64_max →
  consume (a +:+ b) m = (m', Ok tt) ↔ ∃ m1, consume a m = (m1, Ok tt) ∧ consume b m1 = (m', Ok tt).
Proof.
  intros Hm. rewrite consume_Ok by done. setoid_rewrite (consume_Ok a) ; [|done].
  rewrite str_len_app, meter_bytes_app_Ok. split.
  - intros (Hw & m1 & H1 & H2). set (w := wire_bytes m + str_len a).
    assert (Ha := meter_bytes_wire _ w _ _ H1). cbn in Ha.
    exists (set_wire_bytes w m1). split; [split; [lia|exact Ha]|].
    apply consume_Ok; [by eapply (meter_bytes_bound a _ _); [|exact Ha]|]. cbn. split; [unfold w; lia|].
    pose proof (meter_bytes_wire_same _ _ _ H1) as Hsame. cbn in Hsame.
    replace (set_wire_bytes _ (set_wire_bytes w m1)) with m1; [done|].
    destruct m1. unfold set_wire_bytes, w in *. cbn in *. subst. f_equal. lia.
  - intros (m1 & [Hw H1] & H2). assert (Hm1 : scalar_bytes m1 ≤ u64_max) by (by eapply meter_bytes_bound; [|exact H1]).
    apply consume_Ok in H2 as [Hw2 H2]; [|done].
    pose proof (meter_bytes_wire_same _ _ _ H1) as Hsame. cbn in Hsame. rewrite Hsame in *.
    split; [lia|]. eexists. split; [|exact H2].
    assert (Ha := meter_bytes_wire _ (wire_bytes m + str_len a + str_len b) _ _ H1). cbn in Ha.
    by rewrite N.add_assoc.
Qed.

Lemma consume_chunks chunks : ∀ m m', scalar_bytes m ≤ u64_max → wire_bytes m ≤ u64_max →
  st_fold (λ _, consume) tt chunks m = (m', Ok tt) ↔
  consume (foldr String.app "" chunks) m = (m', Ok tt).
Proof.
  induction chunks as [|c chunks IH]; intros m m' Hm Hw.
  - cbn [foldr]. rewrite st_fold_nil, consume_Ok by done. change (str_len "") with 0.
    rewrite N.add_0_r. replace (set_wire_bytes (wire_bytes m) m) with m by (by destruct m). naive_solver.
  - cbn [foldr]. rewrite st_fold_cons, st_bind_Ok, consume_app by done. split.
    + intros (m1 & [] & H1 & H2). exists m1. split; [done|]. pose proof H1 as Hc.
      apply consume_Ok in Hc as [Hb Hc]; [|done]. apply IH in H2; [done|by eapply meter_bytes_bound; [|exact Hc]|].
      apply meter_bytes_wire_same in Hc. cbn in Hc. lia.
    + intros (m1 & H1 & H2). exists m1, tt. split; [done|]. pose proof H1 as Hc.
      apply consume_Ok in Hc as [Hb Hc]; [|done]. apply IH; [by eapply meter_bytes_bound; [|exact Hc]| |done].
      apply meter_bytes_wire_same in Hc. cbn in Hc. lia.
Qed.

(** ** What the meter counts *)

(** Strings, scalars and containers of a value; the bytes of its scalars and of
    its strings between the quotes; and its nesting. *)
Fixpoint nodes (v : value) : N :=
  match v with
  | VArray l => 1 + lsum nodes l
  | VObject l => 1 + lsum (λ kv, 1 + nodes kv.2) l
  | _ => 1
  end.

Fixpoint text (v : value) : N :=
  match v with
  | VString s => str_len (escaped_contents s)
  | VArray l => lsum text l
  | VObject l => lsum (λ kv, str_len (escaped_contents kv.1) + text kv.2) l
  | _ => str_len (write v)
  end.

Definition lmax {A} (f : A → N) (l : list A) : N := foldr (λ x n, f x `max` n) 0 l.

Fixpoint depth (v : value) : N :=
  match v with
  | VArray l => 1 + lmax depth l
  | VObject l => 1 + lmax (λ kv, depth kv.2) l
  | _ => 0
  end.

Definition ready (m : Meter) : Prop :=
  quoted m = false ∧ escaped m = false ∧ scalar m = false ∧ len (stack m) ≤ MAX_DEPTH.
Definition room (m : Meter) (k : N) : Prop :=
  sites m + k ≤ u64_max ∧ scalar_bytes m + k ≤ u64_max.

(** The meter after a text of [n] sites and [t] counted bytes. *)
Definition counted (n t : N) (b : bool) (m : Meter) : Meter :=
  {| wire_bytes := wire_bytes m; scalar_bytes := scalar_bytes m + t; sites := sites m + n;
     stack := stack m; quoted := false; escaped := false; scalar := b |}.

Definition too_deep (r : Meter * Anyhow unit) : Prop := r.2 = Err (AnyMessage nesting_message).

(** A text that adds [n] sites and [t] counted bytes, and nests [d] deep. *)
Definition scans (w : string) (n t d : N) : Prop :=
  n ≤ str_len w ∧ t ≤ str_len w ∧
  ∀ m, ready m → room m (str_len w) →
    if len (stack m) + d <=? MAX_DEPTH then ∃ b, meter_bytes w m = (counted n t b m, Ok tt)
    else too_deep (meter_bytes w m).

Lemma meter_bytes_then a b m m1 :
  meter_bytes a m = (m1, Ok tt) → meter_bytes (a +:+ b) m = meter_bytes b m1.
Proof. intros Ha. rewrite meter_bytes_app. by rewrite (st_bind_run _ _ _ _ _ Ha). Qed.

Lemma meter_bytes_stop a b m : too_deep (meter_bytes a m) → too_deep (meter_bytes (a +:+ b) m).
Proof.
  unfold too_deep. rewrite meter_bytes_app. unfold mbind, ST_bind.
  destruct (meter_bytes a m) as [m1 [|e]]; [done|]. cbn. by intros [= ->].
Qed.

Lemma meter_byte_one c s m m1 :
  meter_byte c m = (m1, Ok tt) → meter_bytes (String c s) m = meter_bytes s m1.
Proof. intros Hc. cbn [meter_bytes]. by rewrite (st_bind_run _ _ _ _ _ Hc). Qed.

(** The contents of a string. *)
Definition inside (k : N) (m : Meter) : Meter := set_scalar_bytes (scalar_bytes m + k) m.

(** A text without quotes and backslashes, and one escaped character. *)
Definition unspecial (c : ascii) : bool :=
  negb (bool_decide (c = quote_char)) && negb (bool_decide (c = backslash)).

Definition escape_shape (s : string) : bool :=
  match s with
  | String c rest =>
      if bool_decide (c = backslash) then
        match rest with String _ rest => all_chars unspecial rest | "" => false end
      else all_chars unspecial s
  | "" => false
  end.

Lemma escape_char_shape c : escape_shape (escape_char c) = true.
Proof. by destruct c as [[] [] [] [] [] [] [] []]. Qed.

Lemma quoted_unspecial s : ∀ m, all_chars unspecial s = true → quoted m = true → escaped m = false →
  scalar_bytes m + str_len s ≤ u64_max → meter_bytes s m = (inside (str_len s) m, Ok tt).
Proof.
  induction s as [|c s IH]; intros m Hs Hq He Hb.
  - unfold inside. change (str_len "") with 0. by rewrite N.add_0_r, set_scalar_bytes_id.
  - cbn [all_chars] in Hs. apply andb_true_iff in Hs as [Hc Hs].
    apply andb_true_iff in Hc as [Hc1%negb_true_iff%bool_decide_eq_false Hc2%negb_true_iff%bool_decide_eq_false].
    rewrite str_len_cons in *. rewrite (meter_byte_one c s m (inside 1 m)).
    + rewrite IH; [|done..|cbn; lia]. unfold inside. cbn. by rewrite N.add_assoc.
    + rewrite quoted_plain by done. apply add_scalar_Ok. split; [lia|done].
Qed.

Lemma quoted_escape c m :
  quoted m = true → escaped m = false → scalar_bytes m + str_len (escape_char c) ≤ u64_max →
  meter_bytes (escape_char c) m = (inside (str_len (escape_char c)) m, Ok tt).
Proof.
  intros Hq He Hb. pose proof (escape_char_shape c) as Hs. destruct (escape_char c) as [|a s]; [done|].
  cbn [escape_shape] in Hs. case_bool_decide as Ha; [|by apply quoted_unspecial]. subst a.
  destruct s as [|b s]; [done|]. rewrite !str_len_cons in *.
  set (m1 := set_escaped true (inside 1 m)).
  rewrite (meter_byte_one backslash _ m m1), (meter_byte_one b s m1 (inside 2 m)).
  - rewrite quoted_unspecial; [|done..|cbn; lia]. unfold inside. cbn.
    by replace (scalar_bytes m + 2 + str_len s) with (scalar_bytes m + (1 + (1 + str_len s))) by lia.
  - unfold meter_byte, quoted_byte. rewrite st_bind_get. change (quoted m1) with (quoted m).
    rewrite Hq, st_bind_get. change (escaped m1) with true. cbv iota. rewrite st_bind_modify.
    apply add_scalar_Ok. cbn. split; [lia|]. unfold m1, inside, set_escaped, set_scalar_bytes.
    destruct m; cbn in *. subst. f_equal; first [done|lia].
  - unfold meter_byte, quoted_byte. rewrite !st_bind_get, Hq, !st_bind_get, He.
    rewrite bool_decide_eq_false_2, bool_decide_eq_true_2 by done. rewrite st_bind_modify.
    apply add_scalar_Ok. cbn. split; [lia|]. done.
Qed.

Lemma quoted_contents s : ∀ m,
  quoted m = true → escaped m = false → scalar_bytes m + str_len (escaped_contents s) ≤ u64_max →
  meter_bytes (escaped_contents s) m = (inside (str_len (escaped_contents s)) m, Ok tt).
Proof.
  induction s as [|c s IH]; intros m Hq He Hb.
  - unfold inside. cbn [escaped_contents]. change (str_len "") with 0.
    by rewrite N.add_0_r, set_scalar_bytes_id.
  - cbn [escaped_contents] in *. rewrite str_len_app in *.
    rewrite (meter_bytes_then _ _ _ _ (quoted_escape c m Hq He ltac:(lia))).
    rewrite IH; [|done..|cbn; lia]. unfold inside. cbn. by rewrite N.add_assoc.
Qed.

(** ** Texts the meter scans *)

Lemma scans_flat w n t :
  n ≤ str_len w → t ≤ str_len w →
  (∀ m, ready m → room m (str_len w) → ∃ b, meter_bytes w m = (counted n t b m, Ok tt)) →
  scans w n t 0.
Proof.
  intros Hn Ht Hw. split; [done|]. split; [done|]. intros m Hm Hr. rewrite N.add_0_r.
  pose proof Hm as (_ & _ & _ & Hd). apply N.leb_le in Hd. rewrite Hd. by apply Hw.
Qed.

Lemma scans_string s : scans (write_str s) 1 (str_len (escaped_contents s)) 0.
Proof.
  unfold write_str. assert (Hl : str_len (quote_mark +:+ escaped_contents s +:+ quote_mark) =
    2 + str_len (escaped_contents s)).
  { rewrite !str_len_app. change (str_len quote_mark) with 1. lia. }
  apply scans_flat; rewrite Hl; [lia..|]. intros m (Hq & He & Hb & _) [Hs Ht]. exists false.
  set (m1 := set_scalar false (set_quoted true (set_sites (sites m + 1) m))).
  change (quote_mark +:+ ?x) with (String quote_char x).
  rewrite (meter_byte_one _ _ m m1).
  - rewrite (meter_bytes_then _ _ _ _ (quoted_contents s m1 eq_refl He ltac:(cbn; lia))).
    unfold quote_mark. rewrite (meter_byte_one _ _ _ (counted 1 (str_len (escaped_contents s)) false m)); [done|].
    unfold meter_byte, quoted_byte. rewrite st_bind_get. change (quoted (inside _ m1)) with true.
    cbv iota. rewrite st_bind_get. change (escaped (inside _ m1)) with (escaped m). rewrite He.
    rewrite bool_decide_eq_true_2 by done.
    unfold st_modify, counted, inside, set_quoted. cbn. by rewrite He.
  - unfold meter_byte, plain_byte. rewrite st_bind_get, Hq. rewrite bool_decide_eq_true_2 by done.
    rewrite st_bind_Ok. exists (set_sites (sites m + 1) m), tt. split; [apply site_Ok; split; [lia|done]|].
    done.
Qed.

(** A scalar: the first byte opens a site, every byte counts. *)
Definition scalar_char (c : ascii) : bool :=
  negb (bool_decide (c = quote_char)) && negb (opens c) && negb (closes c) && negb (separates c).

Lemma scalar_step c m :
  scalar_char c = true → quoted m = false →
  meter_byte c m = ((if scalar m then mret tt else site;; st_modify (set_scalar true));;
                    add_scalar_bytes 1) m.
Proof.
  unfold scalar_char. intros Hc Hq. unfold meter_byte, plain_byte. rewrite st_bind_get, Hq.
  apply andb_true_iff in Hc as [Hc H4%negb_true_iff]. apply andb_true_iff in Hc as [Hc H3%negb_true_iff].
  apply andb_true_iff in Hc as [H1%negb_true_iff H2%negb_true_iff].
  by rewrite H1, H2, H3, H4, st_bind_get.
Qed.

Lemma scalar_more s : ∀ m, all_chars scalar_char s = true → quoted m = false → scalar m = true →
  scalar_bytes m + str_len s ≤ u64_max → meter_bytes s m = (inside (str_len s) m, Ok tt).
Proof.
  induction s as [|c s IH]; intros m Hs Hq Hb Hr.
  - unfold inside. change (str_len "") with 0. by rewrite N.add_0_r, set_scalar_bytes_id.
  - cbn [all_chars] in Hs. apply andb_true_iff in Hs as [Hc Hs]. rewrite str_len_cons in *.
    rewrite (meter_byte_one c s m (inside 1 m)).
    + rewrite IH; [|done..|cbn; lia]. unfold inside. cbn. by rewrite N.add_assoc.
    + rewrite scalar_step, Hb by done. apply add_scalar_Ok. split; [lia|done].
Qed.

Lemma scans_scalar s : s ≠ "" → all_chars scalar_char s = true → scans s 1 (str_len s) 0.
Proof.
  intros Hne Hs. destruct s as [|c s]; [done|]. rewrite str_len_cons.
  apply scans_flat; rewrite str_len_cons; [lia..|]. intros m (Hq & He & Hb & _) [Hr1 Hr2]. exists true.
  cbn [all_chars] in Hs. apply andb_true_iff in Hs as [Hc Hs].
  rewrite (meter_byte_one c s m (counted 1 1 true m)).
  - rewrite scalar_more; [|done..|cbn; lia]. unfold inside, counted, set_scalar_bytes. cbn.
    by rewrite <-N.add_assoc.
  - rewrite scalar_step, Hb by done. rewrite st_bind_Ok.
    exists (set_scalar true (set_sites (sites m + 1) m)), tt. split.
    + rewrite st_bind_Ok. eexists _, tt. split; [apply site_Ok; split; [lia|done]|done].
    + apply add_scalar_Ok. cbn. split; [lia|]. unfold counted, set_scalar_bytes. cbn. by rewrite Hq, He.
Qed.

(** Two texts with a byte between them that ends a scalar. *)
Lemma counted_counted n t b n' t' b' m :
  counted n' t' b' (counted n t b m) = counted (n + n') (t + t') b' m.
Proof. unfold counted. cbn. by rewrite !N.add_assoc. Qed.

Lemma separate_step c m : separates c = true → quoted m = false → meter_byte c m = (set_scalar false m, Ok tt).
Proof.
  intros Hc Hq. unfold meter_byte, plain_byte. rewrite st_bind_get, Hq.
  unfold separates in Hc. apply bool_decide_eq_true in Hc.
  repeat (apply elem_of_cons in Hc as [->|Hc]; [done|]). by apply not_elem_of_nil in Hc.
Qed.

Lemma scans_seq c w1 w2 n1 t1 d1 n2 t2 d2 :
  separates c = true → scans w1 n1 t1 d1 → scans w2 n2 t2 d2 →
  scans (w1 +:+ String c w2) (n1 + n2) (t1 + t2) (d1 `max` d2).
Proof.
  intros Hc (Hn1 & Ht1 & Hs1) (Hn2 & Ht2 & Hs2). unfold scans. rewrite str_len_app, str_len_cons.
  split; [lia|]. split; [lia|]. intros m Hm [Hr1 Hr2].
  specialize (Hs1 m Hm ltac:(split; lia)). destruct (N.leb_spec (len (stack m) + d1) MAX_DEPTH) as [Hd1|Hd1].
  - destruct Hs1 as [b Hb]. rewrite (meter_bytes_then _ _ _ _ Hb).
    rewrite (meter_byte_one _ _ _ _ (separate_step c (counted n1 t1 b m) Hc eq_refl)).
    destruct Hm as (Hq & He & _ & Hd).
    specialize (Hs2 (counted n1 t1 false m)). change (stack (counted _ _ _ _)) with (stack m) in Hs2.
    change (set_scalar false (counted n1 t1 b m)) with (counted n1 t1 false m).
    assert (Hif : (len (stack m) + d1 `max` d2 <=? MAX_DEPTH) = (len (stack m) + d2 <=? MAX_DEPTH)).
    { destruct (N.leb_spec (len (stack m) + d2) MAX_DEPTH); [apply N.leb_le|apply N.leb_gt]; lia. }
    rewrite Hif. specialize (Hs2 ltac:(done) ltac:(split; cbn; lia)). case_match; [|done].
    destruct Hs2 as [b' Hb']. exists b'. by rewrite Hb', counted_counted.
  - assert (Hif : (len (stack m) + d1 `max` d2 <=? MAX_DEPTH) = false) by (apply N.leb_gt; lia).
    rewrite Hif. by apply meter_bytes_stop.
Qed.

Section items.
Context {A : Type} (f : A → string) (n t d : A → N).

Lemma scans_items x l :
  Forall (λ a, scans (f a) (n a) (t a) (d a)) (x :: l) →
  scans (write_items true (f <$> x :: l)) (lsum n (x :: l)) (lsum t (x :: l)) (lmax d (x :: l)).
Proof.
  intros Hl. assert (Hw : ∀ y k, write_items true (f <$> y :: k) = f y +:+ write_items false (f <$> k)) by done.
  revert x Hl. induction l as [|y l IH]; intros x [Hx Hl]%Forall_cons; rewrite Hw; cbn [lmax foldr].
  - rewrite !lsum_cons, !lsum_nil, !N.add_0_r, N.max_0_r. cbn. by rewrite app_string_nil_r.
  - change (write_items false (f <$> y :: l)) with (String "," (write_items true (f <$> y :: l))).
    rewrite (lsum_cons n x), (lsum_cons t x). apply scans_seq; [done|done|]. by apply IH.
Qed.
End items.

(** A container around a text that is scanned. *)
Lemma open_step o m :
  opens o = true → quoted m = false → sites m + 1 ≤ u64_max →
  meter_byte o m =
  if len (stack m) <? MAX_DEPTH then
    (set_scalar false (set_stack (o :: stack m) (set_sites (sites m + 1) m)), Ok tt)
  else (set_sites (sites m + 1) m, Err (AnyMessage nesting_message)).
Proof.
  intros Ho Hq Hs. unfold meter_byte, plain_byte. rewrite st_bind_get, Hq, Ho.
  rewrite bool_decide_eq_false_2 by (by intros ->).
  rewrite (st_bind_run site _ m (set_sites (sites m + 1) m) tt) by (by apply site_Ok).
  rewrite st_bind_get. change (stack (set_sites _ m)) with (stack m). unfold demand, reject_if.
  by destruct (len (stack m) <? MAX_DEPTH).
Qed.

Lemma close_step c rest m :
  closes c = true → quoted m = false → stack m = opener c :: rest →
  meter_byte c m = (set_scalar false (set_stack rest m), Ok tt).
Proof.
  intros Hc Hq Hs. unfold meter_byte, plain_byte. rewrite st_bind_get, Hq, Hc.
  assert (Hopen : opens c = false).
  { unfold closes in Hc. apply orb_true_iff in Hc as [H%bool_decide_eq_true|H%bool_decide_eq_true]; by subst c. }
  rewrite bool_decide_eq_false_2 by (by intros ->). rewrite Hopen, st_bind_get, Hs, st_bind_modify.
  unfold demand, reject_if. by rewrite bool_decide_eq_true_2.
Qed.

Lemma scans_container c w n t d :
  closes c = true → w = "" ∧ n = 0 ∧ t = 0 ∧ d = 0 ∨ scans w n t d →
  scans (String (opener c) (w +:+ String c "")) (1 + n) t (1 + d).
Proof.
  intros Hc Hw. assert (Ho : opens (opener c) = true) by (unfold opener; by case_match).
  assert (Hnt : n ≤ str_len w ∧ t ≤ str_len w).
  { destruct Hw as [(-> & -> & -> & ->)|(? & ? & _)]; [done|split; lia]. }
  unfold scans. rewrite str_len_cons, str_len_app, str_len_cons. change (str_len "") with 0.
  split; [lia|]. split; [lia|]. intros m (Hq & He & Hb & Hd) [Hr1 Hr2].
  pose proof (open_step _ m Ho Hq ltac:(lia)) as Hop.
  destruct (N.ltb_spec (len (stack m)) MAX_DEPTH) as [Hlt|Hge].
  - rewrite (meter_byte_one _ _ _ _ Hop).
    set (m1 := set_scalar false _). assert (Hl : len (stack m1) = 1 + len (stack m)) by (cbn; by rewrite len_cons).
    assert (Hend : ∀ b, meter_bytes (String c "") (counted n t b m1) = (counted (1 + n) t false m, Ok tt)).
    { intros b. rewrite (meter_byte_one _ _ _ _ (close_step c (stack m) (counted n t b m1) Hc eq_refl eq_refl)).
      unfold m1, counted, set_scalar, set_stack, set_sites. cbn. by rewrite N.add_assoc. }
    replace (len (stack m) + (1 + d)) with (len (stack m1) + d) by lia.
    destruct Hw as [(-> & -> & -> & ->)|(_ & _ & Hw)].
    + assert (Hle : (len (stack m1) + 0 <=? MAX_DEPTH) = true) by (apply N.leb_le; lia).
      rewrite Hle. exists false. rewrite <-(Hend false). cbn [String.app]. f_equal.
      unfold m1, counted, set_scalar, set_stack, set_sites. cbn. by rewrite Hq, He, !N.add_0_r.
    + specialize (Hw m1). destruct (N.leb_spec (len (stack m1) + d) MAX_DEPTH) as [Hle|Hgt].
      * destruct Hw as [b Hb1]; [split_and!; [done..|lia]|split; cbn; lia|]. exists false.
        by rewrite (meter_bytes_then _ _ _ _ Hb1).
      * apply meter_bytes_stop, Hw; [split_and!; [done..|lia]|split; cbn; lia].
  - assert (Hif : (len (stack m) + (1 + d) <=? MAX_DEPTH) = false) by (apply N.leb_gt; lia).
    rewrite Hif. unfold too_deep. cbn [meter_bytes]. unfold mbind, ST_bind. by rewrite Hop.
Qed.

Lemma number_scalar c : number_char c = true → scalar_char c = true.
Proof. by destruct c as [[] [] [] [] [] [] [] []]. Qed.

(** Every value is scanned with its own counts. *)
Lemma scans_value v : numbers_ok v = true → scans (write v) (nodes v) (text v) (depth v).
Proof.
  induction v as [|b|s|s|l IH|l IH] using value_rec_nested; intros Hn.
  - by apply (scans_scalar "null").
  - by destruct b; [apply (scans_scalar "true")|apply (scans_scalar "false")].
  - cbn in Hn |- *. pose proof (number_text_chars _ Hn) as Hc.
    apply scans_scalar; [by intros ->|]. clear Hn. induction s as [|c s IH]; [done|]. cbn in *.
    apply andb_true_iff in Hc as [Hc1 Hc2]. by rewrite number_scalar, IH.
  - apply scans_string.
  - change (write (VArray l)) with (String (opener "]") (write_items true (write <$> l) +:+ String "]" "")).
    cbn [nodes text depth]. apply scans_container; [done|]. destruct l as [|x l]; [by left|right].
    apply scans_items. cbn [numbers_ok] in Hn. apply forallb_ok in Hn.
    eapply Forall_impl; [apply Forall_and; split; [exact IH|exact Hn]|]. naive_solver.
  - change (write (VObject l)) with (String (opener "}")
      (write_items true ((λ kv, write_str kv.1 +:+ ":" +:+ write kv.2) <$> l) +:+ String "}" "")).
    cbn [nodes text depth]. apply scans_container; [done|]. destruct l as [|x l]; [by left|right].
    apply scans_items. cbn [numbers_ok] in Hn. apply forallb_ok in Hn.
    eapply Forall_impl; [apply Forall_and; split; [exact IH|exact Hn]|].
    intros [k v] [Hv Hk]. cbn in *. rewrite <-(N.max_0_l (depth v)).
    apply (scans_seq ":"); [done|apply scans_string|]. by apply Hv.
Qed.

Lemma checked_mul_Some a b c : checked_mul a b = Some c ↔ c = a * b ∧ a * b ≤ u64_max.
Proof. unfold checked_mul. destruct (N.leb_spec (a * b) u64_max); naive_solver lia. Qed.

Section claims.
Context (site_bytes : N).

Lemma finish_meter_Ok m n :
  finish_meter site_bytes m = Ok n ↔
  stack m = [] ∧ quoted m = false ∧ escaped m = false ∧ 0 < sites m ∧
  n = 8 * (sites m * site_bytes + scalar_bytes m) + wire_bytes m ∧ n ≤ u64_max.
Proof.
  unfold finish_meter. rewrite seq_Ok, demand_Ok, context_or_Ok.
  setoid_rewrite bind_Some. setoid_rewrite checked_mul_Some.
  rewrite !andb_true_iff, !negb_true_iff, N.eqb_eq, N.ltb_lt.
  unfold REPRESENTATIONS, CAPACITY_FACTOR. split.
  - intros ((((Hs & Hq) & He) & Hz) & x & (-> & Hx) & Hr).
    repeat setoid_rewrite bind_Some in Hr. setoid_rewrite checked_add_Some in Hr.
    repeat setoid_rewrite checked_mul_Some in Hr.
    destruct Hr as (? & [-> ?] & ? & [-> ?] & ? & [-> ?] & -> & ?).
    split_and!; first [done|by destruct (stack m)|lia].
  - intros (Hs & Hq & He & Hz & -> & Hn). split; [by rewrite Hs|].
    eexists. split; [split; [done|lia]|]. repeat setoid_rewrite bind_Some.
    setoid_rewrite checked_add_Some. repeat setoid_rewrite checked_mul_Some.
    eexists. split; [split; [done|lia]|]. eexists. split; [split; [done|lia]|].
    eexists. split; [split; [done|lia]|]. split; [lia|lia].
Qed.

Lemma measure_chunks_Ok chunks n :
  measure_chunks site_bytes chunks = Ok n ↔
  ∃ m, consume (foldr String.app "" chunks) empty_meter = (m, Ok tt) ∧ finish_meter site_bytes m = Ok n.
Proof.
  unfold measure_chunks. split.
  - destruct (st_fold _ _ _ _) as [m [[]|e]] eqn:Hf; [|done]. intros Hn. exists m. split; [|done].
    by apply consume_chunks in Hf.
  - intros (m & Hc & Hn). apply consume_chunks in Hc; [|done..]. by rewrite Hc.
Qed.

Lemma measure_consume bytes work :
  measure site_bytes bytes = Ok work →
  ∃ m, consume bytes empty_meter = (m, Ok tt) ∧ finish_meter site_bytes m = Ok work.
Proof.
  unfold measure. destruct (consume bytes empty_meter) as [m [[]|e]]; [|done]. intros Hf. by exists m.
Qed.

(** C33. The meter bounds the memory of a record exactly, whatever chunks its
    bytes arrive in: the scan of an encoded value is accepted if and only if the
    value nests at most [MAX_DEPTH] deep and the bound fits its counter, and the
    bound is eight copies of every site and every scalar byte, plus the record;
    it is at most the bound [bounded_work] computes in advance from limits on
    the length and the number of sites. *)
Theorem meter_exact v chunks :
  numbers_ok v = true → foldr String.app "" chunks = write v → vlen v ≤ u64_max →
  (∀ n, measure_chunks site_bytes chunks = Ok n ↔
     depth v ≤ MAX_DEPTH ∧ n = 8 * (nodes v * site_bytes + text v) + vlen v ∧ n ≤ u64_max) ∧
  (∀ wire k b, depth v ≤ MAX_DEPTH → vlen v ≤ wire → nodes v ≤ k → bounded_work site_bytes wire k = Ok b →
     ∃ n, measure_chunks site_bytes chunks = Ok n ∧ n ≤ b).
Proof.
  intros Hnum Hcat Hlen. destruct (scans_value v Hnum) as (Hn & Ht & Hscan). fold (vlen v) in Hn, Ht.
  specialize (Hscan (set_wire_bytes (vlen v) empty_meter) ltac:(done)
    ltac:(split; change (0 + vlen v ≤ u64_max); lia)).
  change (len _ + depth v) with (depth v) in Hscan.
  assert (Hpos : 0 < nodes v) by (destruct v; cbn; lia).
  assert (Hexact : ∀ n, measure_chunks site_bytes chunks = Ok n ↔
     depth v ≤ MAX_DEPTH ∧ n = 8 * (nodes v * site_bytes + text v) + vlen v ∧ n ≤ u64_max).
  { intros n. rewrite measure_chunks_Ok, Hcat. setoid_rewrite consume_Ok; [|done].
    change (wire_bytes empty_meter + str_len (write v)) with (vlen v).
    destruct (N.leb_spec (depth v) MAX_DEPTH) as [Hd|Hd].
    - destruct Hscan as [b Hb]. rewrite Hb. split.
      + intros (m & [_ [= <-]] & Hf). apply finish_meter_Ok in Hf as (_ & _ & _ & _ & -> & Hf). done.
      + intros (_ & -> & Hf). eexists. split; [done|]. apply finish_meter_Ok. by split_and!.
    - split; [|lia]. intros (m & [_ Hb] & _). unfold too_deep in Hscan. by rewrite Hb in Hscan. }
  split; [done|]. intros wire k b Hd Hw Hk Hb. eexists. rewrite Hexact.
  unfold bounded_work in Hb. apply context_or_Ok in Hb. repeat setoid_rewrite bind_Some in Hb.
  repeat setoid_rewrite checked_add_Some in Hb. repeat setoid_rewrite checked_mul_Some in Hb.
  destruct Hb as (? & [-> ?] & ? & [-> ?] & ? & [-> ?] & -> & ?).
  unfold REPRESENTATIONS, CAPACITY_FACTOR in *.
  assert (nodes v * site_bytes ≤ k * site_bytes) by (by apply N.mul_le_mono_r). split_and!; [done|done|lia|lia].
Qed.
End claims.

(** ** A sample *)
Module MeterSample.
Definition record : value :=
  VObject [("type", VString "Audit"); ("value", VArray [VNumber "12"; VObject [("a", VNull)]])].

Definition cut : nat := 17.
Definition chunks : list string :=
  [String.substring 0 cut (write record); String.substring cut (String.length (write record)) (write record)].
End MeterSample.

Lemma meter_exact_witness :
  let v := MeterSample.record in
  numbers_ok v = true ∧ measure_chunks 96 MeterSample.chunks = Ok (8 * (9 * 96 + 21) + vlen v).
Proof.
  assert (H1 : numbers_ok MeterSample.record = true) by (by vm_compute).
  assert (H2 : foldr String.app "" MeterSample.chunks = write MeterSample.record) by (by vm_compute).
  assert (H3 : vlen MeterSample.record ≤ u64_max) by (by vm_compute).
  split; [exact H1|]. apply (proj1 (meter_exact 96 MeterSample.record MeterSample.chunks H1 H2 H3)).
  split_and!; by vm_compute.
Defined.
