(* ===== verification/Wire.v ===== *)
(** * The encoding of the tenant state

    The serde encodings (src/crates/kasumi-types/src) of the data a snapshot
    holds: policy and limits, the heads of the permanent histories, audit
    retention, collections, the change feed, lifecycle control, and the tenant
    state itself.  Fields are written in the order of the Rust declarations. *)

From S2P Require Import Prelude Json Types.

(** [Uuid::to_string]: lower-case hexadecimal in five groups. *)
Fixpoint hex_text (k : nat) (n : N) : string :=
  match k with
  | O => ""
  | S k' => hex_text k' (n / 16) +:+ String (hex_digit (n mod 16)) ""
  end.

Definition uuid_text (u : Uuid) : string :=
  hex_text 8 (N.shiftr u 96) +:+ "-" +:+ hex_text 4 (N.shiftr u 80) +:+ "-" +:+
  hex_text 4 (N.shiftr u 64) +:+ "-" +:+ hex_text 4 (N.shiftr u 48) +:+ "-" +:+ hex_text 12 u.

Definition uuid_value (u : Uuid) : value := VString (uuid_text u).
Definition option_value {A} (f : A → value) (o : option A) : value :=
  match o with Some a => f a | None => VNull end.

(** A map with [Uuid] keys, and one with [u64] keys. *)
Definition uuid_map (m : gmap Uuid value) : value :=
  VObject ((λ kv, (uuid_text kv.1, kv.2)) <$> map_iter m).
Definition index_map {A} `{Serialize A} (m : gmap N A) : value :=
  VObject ((λ kv, (pretty kv.1, to_value kv.2)) <$> map_iter m).

(** ** Policy and limits *)

(** The elements of a set of actions, in the order of the enumeration. *)
Definition action_list (s : gset Action) : list Action :=
  filter (λ a, a ∈ s) [Read; Write; Admin; Audit].

#[export] Instance serialize_Action : Serialize Action := λ a,
  VString match a with
  | Read => "read" | Write => "write" | Admin => "admin" | Audit => "audit" end.

#[export] Instance serialize_Grant : Serialize Grant := λ g,
  VObject [("principal", VString (g_principal g)); ("collection", to_value (g_collection g));
           ("actions", to_value (action_list (g_actions g)))].

#[export] Instance serialize_Policy : Serialize Policy := λ p,
  VObject [("grants", to_value (grants p)); ("strict_read_audit", to_value (p_strict_read_audit p))].

#[export] Instance serialize_HistoryLimits : Serialize HistoryLimits := λ h,
  VObject [("max_feed_events", to_value (max_feed_events h));
           ("max_feed_bytes", to_value (max_feed_bytes h));
           ("max_archive_segments", to_value (max_archive_segments h))].

#[export] Instance serialize_AtomicLimits : Serialize AtomicLimits := λ a,
  VObject [("max_operations", to_value (max_operations a));
           ("max_read_assertions", to_value (max_read_assertions a));
           ("max_transaction_bytes", to_value (max_transaction_bytes a));
           ("max_active_transactions", to_value (max_active_transactions a));
           ("max_reserved_staging_bytes", to_value (max_reserved_staging_bytes a));
           ("max_permanent_staged_bytes", to_value (max_permanent_staged_bytes a));
           ("max_snapshot_leases", to_value (max_snapshot_leases a));
           ("max_snapshot_lease_bytes", to_value (max_snapshot_lease_bytes a))].

#[export] Instance serialize_AuditRetentionBudget : Serialize AuditRetentionBudget := λ b,
  VObject [("hot_bytes", to_value (budget_hot_bytes b));
           ("archive_bytes", to_value (budget_archive_bytes b))].

#[export] Instance serialize_Limits : Serialize Limits := λ l,
  VObject [("history", to_value (history l)); ("atomic", to_value (atomic l));
           ("max_document_bytes", to_value (max_document_bytes l));
           ("max_batch_operations", to_value (max_batch_operations l));
           ("max_batch_bytes", to_value (max_batch_bytes l));
           ("max_documents", to_value (max_documents l));
           ("max_collections", to_value (max_collections l));
           ("max_schema_bytes", to_value (max_schema_bytes l));
           ("max_schema_activation_bytes", to_value (max_schema_activation_bytes l));
           ("max_retirement_bytes", to_value (max_retirement_bytes l));
           ("max_target_resolution_bytes", to_value (max_target_resolution_bytes l));
           ("max_backup_binding_bytes", to_value (max_backup_binding_bytes l));
           ("max_policy_grants", to_value (max_policy_grants l));
           ("max_logical_bytes", to_value (max_logical_bytes l));
           ("max_snapshot_bytes", to_value (max_snapshot_bytes l));
           ("max_mutation_receipt_bytes", to_value (max_mutation_receipt_bytes l));
           ("audit_retention", to_value (l_audit_retention l));
           ("max_query_candidates", to_value (max_query_candidates l));
           ("max_query_groups", to_value (max_query_groups l));
           ("max_result_bytes", to_value (max_result_bytes l));
           ("max_page_size", to_value (max_page_size l));
           ("max_cursors", to_value (max_cursors l));
           ("max_cursor_bytes", to_value (max_cursor_bytes l));
           ("cursor_ttl_ms", to_value (cursor_ttl_ms l))].

(** ** Heads and restores *)

#[export] Instance serialize_MutationReceiptHead : Serialize MutationReceiptHead := λ h,
  VObject [("origin_incarnation", VString (mr_origin_incarnation h)); ("count", to_value (mr_count h));
           ("encoded_bytes", to_value (mr_encoded_bytes h));
           ("last_applied_revision", to_value (mr_last_applied_revision h));
           ("sha256", VString (mr_sha256 h))].

#[export] Instance serialize_BackupBindingHead : Serialize BackupBindingHead := λ h,
  VObject [("origin_incarnation", VString (bb_origin_incarnation h)); ("count", to_value (bb_count h));
           ("encoded_bytes", to_value (bb_encoded_bytes h));
           ("last_applied_revision", to_value (bb_last_applied_revision h));
           ("sha256", VString (bb_sha256 h))].

#[export] Instance serialize_StagedTerminalHead : Serialize StagedTerminalHead := λ h,
  VObject [("origin_incarnation", VString (th_origin_incarnation h)); ("count", to_value (th_count h));
           ("encoded_bytes", to_value (th_encoded_bytes h)); ("sha256", VString (th_sha256 h))].

#[export] Instance serialize_TargetResolutionPrefixHead : Serialize TargetResolutionPrefixHead := λ h,
  VObject [("origin_incarnation", VString (tr_origin_incarnation h)); ("count", to_value (tr_count h));
           ("encoded_bytes", to_value (tr_encoded_bytes h)); ("sha256", VString (tr_sha256 h))].

#[export] Instance serialize_PendingRestore : Serialize PendingRestore := λ r,
  VObject [("backup_id", VString (backup_id r)); ("source_revision", to_value (source_revision r))].

#[export] Instance serialize_FullBackupCheckpoint : Serialize FullBackupCheckpoint := λ c,
  VObject [("tenant", VString (bk_tenant c)); ("source_incarnation", VString (source_incarnation c));
           ("revision", to_value (bk_revision c)); ("resident_sha256", VString (resident_sha256 c));
           ("backup_id", uuid_value (bk_backup_id c));
           ("manifest_ciphertext_sha256", VString (manifest_ciphertext_sha256 c));
           ("key_lineage_digest", VString (key_lineage_digest c))].

#[export] Instance serialize_RestoreLineageLink : Serialize RestoreLineageLink := λ l,
  VObject [("checkpoint", to_value (checkpoint l)); ("target_incarnation", VString (target_incarnation l))].

(** ** Audit retention *)

#[export] Instance serialize_AuditArchiveLink : Serialize AuditArchiveLink := λ l,
  VObject [("object_id", uuid_value (object_id l)); ("first_sequence", to_value (al_first_sequence l));
           ("next_sequence", to_value (al_next_sequence l));
           ("ciphertext_sha256", VString (ciphertext_sha256 l))].

#[export] Instance serialize_AuditArchiveKeyDependency : Serialize AuditArchiveKeyDependency := λ k,
  VObject [("provider", VString (provider k)); ("key_ref", VString (key_ref k));
           ("version", to_value (key_version k)); ("wrapped_key_sha256", VString (wrapped_key_sha256 k))].

#[export] Instance serialize_AuditArchiveReference : Serialize AuditArchiveReference := λ r,
  VObject [("stream_id", uuid_value (ar_stream_id r)); ("object", to_value (object r));
           ("previous", to_value (previous r)); ("record_count", to_value (record_count r));
           ("plaintext_bytes", to_value (plaintext_bytes r));
           ("ciphertext_bytes", to_value (ciphertext_bytes r)); ("key", to_value (key r))].

#[export] Instance serialize_AuditRetentionState : Serialize AuditRetentionState := λ a,
  VObject [("stream_id", uuid_value (stream_id a)); ("next_sequence", to_value (au_next_sequence a));
           ("pruned_before", to_value (pruned_before a)); ("hot_bytes", to_value (hot_bytes a));
           ("archive_bytes", to_value (archive_bytes a));
           ("archive_segments", to_value (archive_segments a)); ("draining", to_value (draining a));
           ("archive_head", to_value (archive_head a))].

(** ** Documents, collections and the change feed

    A stored document has no encoding of its own: its serializer fails.  The
    encodings below are those of values without stored documents, which
    [pending_only] of a slot and of what contains it decide. *)

Definition is_pending (s : DocumentSlot) : bool := match s with Pending _ => true | Stored _ => false end.

#[export] Instance serialize_DocumentSlot : Serialize DocumentSlot := λ s,
  match s with Pending d => to_value d | Stored _ => VNull end.

#[export] Instance serialize_ArchivedDocument : Serialize ArchivedDocument := λ a,
  VObject [("version", to_value (a_version a)); ("archive_id", VString (archive_id a));
           ("chunk_index", to_value (chunk_index a)); ("document_sha256", VString (document_sha256 a));
           ("document_bytes", to_value (a_document_bytes a));
           ("indexed_fields", VObject (indexed_fields a))].

#[export] Instance serialize_CollectionState : Serialize CollectionState := λ c,
  VObject [("definition", to_value (definition c)); ("data_epoch", to_value (data_epoch c));
           ("documents", to_value (documents c)); ("archived_documents", to_value (archived_documents c));
           ("archived_document_bytes", to_value (archived_document_bytes c))].

#[export] Instance serialize_ChangeRecord : Serialize ChangeRecord := λ r,
  VObject [("collection", VString (cr_collection r)); ("id", VString (cr_id r));
           ("document", to_value (cr_document r))].

#[export] Instance serialize_ChangeCommit : Serialize ChangeCommit := λ c,
  VObject [("revision", to_value (cc_revision c)); ("first_sequence", to_value (first_sequence c));
           ("records", to_value (records c)); ("record_bytes", to_value (record_bytes c))].

#[export] Instance serialize_ChangeFeedState : Serialize ChangeFeedState := λ f,
  VObject [("next_sequence", to_value (next_sequence f)); ("commits", index_map (commits f));
           ("event_count", to_value (event_count f));
           ("encoded_commit_bytes", to_value (encoded_commit_bytes f))].

Definition collection_pending (c : CollectionState) : bool :=
  forallb is_pending (map_values (documents c)).
Definition commit_pending (c : ChangeCommit) : bool :=
  forallb (λ r, match cr_document r with Some d => is_pending d | None => true end) (records c).

(** ** Lifecycle control, recovery and target completion *)

#[export] Instance serialize_LifecycleInstallation : Serialize LifecycleInstallation := λ i,
  VObject [("root", li_root i); ("generation", to_value (li_generation i));
           ("partitions", li_partitions i); ("max_intents", to_value (max_intents i));
           ("max_changes", to_value (max_changes i)); ("max_state_bytes", to_value (max_state_bytes i))].

#[export] Instance serialize_LifecycleControlState : Serialize LifecycleControlState := λ c,
  VObject [("installation", to_value (installation c));
           ("installation_command_id", uuid_value (installation_command_id c));
           ("installation_revision", to_value (installation_revision c));
           ("installation_policy_epoch", to_value (installation_policy_epoch c));
           ("installation_policy", to_value (installation_policy c));
           ("retired", to_value (lc_retired c));
           ("pending_change", option_value uuid_value (pending_change c));
           ("intents", uuid_map (intents c)); ("changes", uuid_map (control_changes c))].

#[export] Instance serialize_TargetCompletionAttempt : Serialize TargetCompletionAttempt := λ a,
  VObject [("origin", at_origin a); ("input", at_input a); ("intent", at_intent a);
           ("dispatch_not_after_ms", to_value (dispatch_not_after_ms a));
           ("admitted_at_ms", to_value (admitted_at_ms a)); ("revision", to_value (at_revision a));
           ("position", at_position a);
           ("reserved_terminal_bytes", to_value (reserved_terminal_bytes a));
           ("reserved_audit_bytes", to_value (reserved_audit_bytes a))].

#[export] Instance serialize_TargetCompletionHead : Serialize TargetCompletionHead := λ h,
  VObject [("origin_sha256", VString (tc_origin_sha256 h));
           ("control_incarnation", uuid_value (control_incarnation h));
           ("initial_budget_bytes", to_value (initial_budget_bytes h));
           ("budget_operation_id", option_value uuid_value (budget_operation_id h));
           ("predecessor", to_value (predecessor h)); ("active", to_value (active h))].

#[export] Instance serialize_TargetExecutionState : Serialize TargetExecutionState := λ t,
  VObject [("origin", te_origin t); ("completion", to_value (te_completion t));
           ("activation", to_value (te_activation t))].

#[export] Instance serialize_RecoveryRecord : Serialize RecoveryRecord := rec_value.
#[export] Instance serialize_RecoveryPhaseRecord : Serialize RecoveryPhaseRecord := ph_value.
#[export] Instance serialize_RecoveryCompletionHistory : Serialize RecoveryCompletionHistory := ch_value.

#[export] Instance serialize_RecoveryControlState : Serialize RecoveryControlState := λ r,
  VObject [("operations", to_value (rc_operations r)); ("phases", to_value (rc_phases r));
           ("completion_history", to_value (rc_completion_history r));
           ("targets", VObject ((λ kv, (kv.1, uuid_value kv.2)) <$> map_iter (rc_targets r)))].

(** ** The state *)

#[export] Instance serialize_TenantState : Serialize TenantState := λ s,
  VObject [("tenant", VString (tenant s)); ("incarnation", VString (incarnation s));
           ("revision", to_value (revision s)); ("revision_base", to_value (revision_base s));
           ("policy_epoch", to_value (policy_epoch s)); ("schema_epoch", to_value (schema_epoch s));
           ("suspended", to_value (suspended s)); ("retired", to_value (retired s));
           ("pending_restore", to_value (pending_restore s));
           ("restored_from", to_value (restored_from s));
           ("restore_lineage", to_value (restore_lineage s));
           ("lifecycle_control", to_value (lifecycle_control s));
           ("target_lifecycle", to_value (target_lifecycle s));
           ("recovery_control", to_value (recovery_control s));
           ("document_count", to_value (document_count s));
           ("logical_bytes", to_value (logical_bytes s)); ("policy", to_value (policy s));
           ("limits", to_value (limits s)); ("collections", to_value (collections s));
           ("mutation_receipt_head", to_value (mutation_receipt_head s));
           ("backup_binding_head", to_value (backup_binding_head s));
           ("staged_transactions", to_value (staged_transactions s));
           ("active_staged_transactions", to_value (active_staged_transactions s));
           ("permanent_staged_bytes", to_value (permanent_staged_bytes s));
           ("reserved_staged_terminal_bytes", to_value (reserved_staged_terminal_bytes s));
           ("staged_terminal_head", to_value (staged_terminal_head s));
           ("target_resolution_head", to_value (target_resolution_head s));
           ("target_completion_head", to_value (target_completion_head s));
           ("change_feed", to_value (change_feed s));
           ("history_archives", to_value (history_archives s));
           ("history_archive_bytes", to_value (history_archive_bytes s));
           ("schema_activations", to_value (schema_activations s));
           ("schema_activation_bytes", to_value (schema_activation_bytes s));
           ("retirements", to_value (retirements s)); ("retirement_bytes", to_value (retirement_bytes s));
           ("audit_retention", to_value (audit_retention s)); ("audits", to_value (audits s))].
