(* ===== verification/Receipts.v ===== *)
(** * Permanent mutation receipts

    Models src/crates/kasumi-engine/src/mutation_receipt.rs: one immutable row
    per admitted mutation, found by its identity and committed by its ordinal in
    a hash chain; views that select a prefix of the rows; the verified rebuild
    of a history from a stream; and the publication of a new row, which may be
    repeated after a crash.

    The encrypted key-value store is a map from keys to the plaintext bytes of
    the namespace of the receipts; its reads are those that succeed, and a write
    batch either happens or does not. *)

From S2P Require Import Prelude Json Types Digest State Apply Ledger.

(** [Row]. *)
Record ReceiptRow := {
  rr_ordinal : N;
  rr_key : string;
  rr_previous_sha256 : string;
  rr_applied : AppliedIdentity;
  rr_receipt : StoredReceipt;
}.

#[export] Instance serialize_ReceiptRow : Serialize ReceiptRow := λ r,
  VObject [("ordinal", to_value (rr_ordinal r)); ("key", VString (rr_key r));
           ("previous_sha256", VString (rr_previous_sha256 r)); ("applied", to_value (rr_applied r));
           ("receipt", to_value (rr_receipt r))].

(** ** Paths of a receipt *)

(** [str::split_once('/')]. *)
Fixpoint split_once (s : string) : option (string * string) :=
  match s with
  | "" => None
  | String c s' =>
      if bool_decide (c = "/"%char) then Some ("", s')
      else p ← split_once s'; Some (String c p.1, p.2)
  end.

(** The loop of [decode_path_segment]. *)
Fixpoint decode_chars (s : string) : Anyhow string :=
  match s with
  | "" => Ok ""
  | String c s' =>
      if bool_decide (c = "/"%char) then Err (AnyMessage "receipt path has an extra segment")
      else if bool_decide (c = "~"%char) then
        match s' with
        | String d s'' =>
            if bool_decide (d = "0"%char) then String "~"%char <$> decode_chars s''
            else if bool_decide (d = "1"%char) then String "/"%char <$> decode_chars s''
            else Err (AnyMessage "receipt path escape is not canonical")
        | "" => Err (AnyMessage "receipt path escape is not canonical")
        end
      else String c <$> decode_chars s'
  end.

(** [decode_path_segment]. *)
Definition decode_path_segment (segment : string) : Anyhow string :=
  decoded ← decode_chars segment;
  any (validate_name decoded);;
  Ok decoded.

Section receipts.
Context `{Sha256}.

(** ** Validation of a row *)

(** [StoredReceipt::validate_identity]. *)
Definition validate_identity (r : StoredReceipt) (key tenant : string)
    (genesis_revision maximum_revision : N) : Result unit :=
  validate_name (sc_tenant (r_scope r));;
  validate_name (sc_incarnation (r_scope r));;
  validate_name (sc_principal (r_scope r));;
  validate_name (r_idempotency_key r);;
  validate_sha256 (request_digest r);;
  d ← staged_digest (sc_principal (r_scope r), r_idempotency_key r);
  if negb (bool_decide (sc_tenant (r_scope r) = tenant)) || negb (bool_decide (d.1 = key)) ||
     (recorded_revision r <=? genesis_revision) || (maximum_revision <? recorded_revision r) ||
     match r_outcome r with
     | Ok w => negb (wr_revision w =? recorded_revision r)
     | Err _ => false
     end
  then fail Corruption "receipt original identity or position differs" else Ok tt.

(** [Row::sha256]. *)
Definition receipt_sha256 (r : ReceiptRow) : Anyhow string :=
  any (fst <$> staged_digest ("kasumi.mutation-receipt-row.v1", r)).

(** [Row::framed_bytes]. *)
Definition framed_receipt (r : ReceiptRow) : Anyhow N :=
  n ← any (encoded_len (VObject [("type", VString "Receipt"); ("value", to_value r)]));
  demand (n <=? MAX_ROW_BYTES) "receipt exceeds canonical per-record budget";;
  context_or (checked_add n FRAME_HEADER_BYTES) "receipt canonical length overflow".

(** The loop over the collections of a receipt: named, and strictly increasing. *)
Definition canonical_step (previous : option string) (c : string) : Anyhow (option string) :=
  any (validate_name c);;
  demand (match previous with
          | None => true
          | Some old => bool_decide (key_le old c) && negb (bool_decide (old = c))
          end) "receipt collections are not canonical";;
  Ok (Some c).

(** The loop over the versions of a receipt: the collections they name. *)
Definition version_step (revision : N) (collections : gset string) (kv : string * N) :
    Anyhow (gset string) :=
  demand ((str_len kv.1 <=? 1026) && (kv.2 =? revision)) "receipt document version differs";;
  path ← context_or (strip_prefix "/" kv.1) "receipt path lacks root slash";
  segments ← context_or (split_once path) "receipt path lacks document segment";
  collection ← decode_path_segment segments.1;
  decode_path_segment segments.2;;
  Ok ({[collection]} ∪ collections).

(** [Row::validate]: the framed bytes of a valid row. *)
Definition validate_receipt (r : ReceiptRow) (s : TenantState) : Anyhow N :=
  demand ((0 <? rr_ordinal r) && digest (rr_key r) && digest (rr_previous_sha256 r))
    "receipt chain identity differs";;
  b ← validate_original_position (rr_applied r) s;
  any (validate_identity (rr_receipt r) (rr_key r) (tenant s) b.1 b.2);;
  demand (bool_decide (sc_incarnation (r_scope (rr_receipt r)) = a_incarnation (rr_applied r)) &&
          (recorded_revision (rr_receipt r) =? a_revision (rr_applied r)))
    "receipt original scope differs from its applying command";;
  demand (negb (len (r_collections (rr_receipt r)) =? 0) && (len (r_collections (rr_receipt r)) <=? 256))
    "receipt collection count exceeds per-operation bound";;
  try_fold canonical_step None (r_collections (rr_receipt r));;
  match r_outcome (rr_receipt r) with
  | Ok w =>
      demand (negb (bool_decide (versions w = ∅)) && (N.of_nat (size (versions w)) <=? 256))
        "receipt version count exceeds per-operation bound";;
      collections ← try_fold (version_step (a_revision (rr_applied r))) ∅ (map_iter (versions w));
      demand (bool_decide (set_iter collections = r_collections (rr_receipt r)))
        "receipt versions and authorized collection set differ"
  | Err _ => Ok tt
  end;;
  framed_receipt r.

(** ** The chain *)

(** [advance_framed], [advance]. *)
Definition advance_framed (h : MutationReceiptHead) (r : ReceiptRow) (framed_bytes : N) :
    Anyhow MutationReceiptHead :=
  next ← context_or (checked_add (mr_count h) 1) "receipt ordinal exhausted";
  demand ((rr_ordinal r =? next) && bool_decide (rr_previous_sha256 r = mr_sha256 h) &&
          (mr_last_applied_revision h <? a_revision (rr_applied r)))
    "receipt row is not the next committed prefix";;
  bytes ← context_or (checked_add (mr_encoded_bytes h) framed_bytes) "receipt permanent byte overflow";
  sha ← receipt_sha256 r;
  Ok {| mr_origin_incarnation := mr_origin_incarnation h; mr_count := rr_ordinal r;
        mr_encoded_bytes := bytes; mr_last_applied_revision := a_revision (rr_applied r);
        mr_sha256 := sha |}.

Definition advance (h : MutationReceiptHead) (r : ReceiptRow) : Anyhow MutationReceiptHead :=
  n ← framed_receipt r;
  advance_framed h r n.
End receipts.

(** ** Views *)

(** [Source]: the installed namespace, a table of verified staged rows, or the
    unpublished pairs of earlier members of a group over another source. *)
Inductive Source :=
| Durable
| Staged (table : gmap string string)
| Chained (rows : gmap string string) (base : Source).

Fixpoint source_read (store : gmap string string) (s : Source) (key : string) : option string :=
  match s with
  | Durable => store !! key
  | Staged table => table !! key
  | Chained rows base =>
      match rows !! key with Some v => Some v | None => source_read store base key end
  end.

(** [Source::get]. *)
Definition source_get (store : gmap string string) (s : Source) (key : string) :
    Anyhow (option string) :=
  let result := source_read store s key in
  demand (match result with Some v => str_len v <=? MAX_ROW_BYTES | None => true end)
    "receipt physical row exceeds bound";;
  Ok result.

(** [Source::durable], [Source::base]. *)
Fixpoint source_durable (s : Source) : bool :=
  match s with Durable => true | Staged _ => false | Chained _ base => source_durable base end.

Fixpoint source_base (s : Source) : Source :=
  match s with Chained _ base => source_base base | _ => s end.

(** [View]. *)
Record View := { v_source : option Source; v_head : MutationReceiptHead }.

Section views.
Context `{Sha256} `{FromSlice Ordinal} `{FromSlice ReceiptRow}.
Context (store : gmap string string).

(** [View::empty], [View::unchained]. *)
Definition empty_view (tenant incarnation : string) : Result View :=
  h ← mutation_receipt_head_empty tenant incarnation;
  Ok {| v_source := None; v_head := h |}.

Definition unchained (v : View) : View :=
  {| v_source := source_base <$> v_source v; v_head := v_head v |}.

(** [View::bytes]. *)
Definition view_bytes (v : View) (key : string) : Anyhow (option string) :=
  match v_source v with
  | None => Ok None
  | Some s => source_get store s key
  end.

(** [View::index]. *)
Definition view_index (v : View) (n : N) : Anyhow Ordinal :=
  demand ((0 <? n) && (n <=? mr_count (v_head v))) "receipt ordinal is outside selected generation";;
  found ← view_bytes v (ordinal_key n);
  bytes ← context_or found "receipt ordinal missing";
  entry ← from_slice bytes;
  require_current bytes entry "receipt ordinal";;
  demand (digest (o_key entry) && digest (o_sha256 entry)) "invalid receipt ordinal index";;
  Ok entry.

(** [View::check_head_metadata], [View::check_head]. *)
Definition check_head_metadata (v : View) (tenant : string) : Anyhow unit :=
  let h := v_head v in
  any (validate_name (mr_origin_incarnation h));;
  demand (digest (mr_sha256 h)) "invalid receipt head digest";;
  if mr_count h =? 0 then
    e ← any (mutation_receipt_head_empty tenant (mr_origin_incarnation h));
    demand (bool_decide (h = e)) "nonempty receipt accounting without rows"
  else
    demand ((0 <? mr_encoded_bytes h) && (0 <? mr_last_applied_revision h))
      "receipt physical prefix differs from selected root".

Definition check_head (v : View) (tenant : string) : Anyhow unit :=
  check_head_metadata v tenant;;
  if 0 <? mr_count (v_head v) then
    i ← view_index v (mr_count (v_head v));
    demand (bool_decide (o_sha256 i = mr_sha256 (v_head v)))
      "receipt physical prefix differs from selected root"
  else Ok tt.

(** [View::validate_state]. *)
Definition validate_view_state (v : View) (s : TenantState) : Anyhow unit :=
  check_head v (tenant s);;
  let h := v_head v in
  demand (bool_decide (h = mutation_receipt_head s) &&
          (mr_last_applied_revision h <=? revision s) &&
          (bool_decide (mr_origin_incarnation h = incarnation s) ||
           existsb (λ l, bool_decide (source_incarnation (checkpoint l) = mr_origin_incarnation h))
             (restore_lineage s)))
    "receipt history origin is outside retained lineage".

(** The digest the row of an ordinal must follow. *)
Definition parent_sha256 (v : View) (row : ReceiptRow) : Anyhow string :=
  if rr_ordinal row =? 1 then
    mr_sha256 <$> any (mutation_receipt_head_empty (sc_tenant (r_scope (rr_receipt row)))
                         (mr_origin_incarnation (v_head v)))
  else o_sha256 <$> view_index v (rr_ordinal row - 1).

(** [View::get]: the row of an identity, checked against the commitments of its
    ordinal, of its parent and of the selected root. *)
Definition view_get (v : View) (key : string) : Anyhow (option ReceiptRow) :=
  demand (digest key) "invalid mutation receipt point identity";;
  found ← view_bytes v (id_key key);
  match found with
  | None => Ok None
  | Some bytes =>
      row ← from_slice bytes;
      if mr_count (v_head v) <? rr_ordinal row then Ok None
      else
        require_current bytes row "receipt point";;
        demand (bool_decide (rr_key row = key) && (0 <? rr_ordinal row))
          "receipt point identity differs";;
        (if rr_ordinal row =? mr_count (v_head v)
         then demand (a_revision (rr_applied row) =? mr_last_applied_revision (v_head v))
                "receipt last applied position differs from selected head"
         else Ok tt);;
        index ← view_index v (rr_ordinal row);
        sha ← receipt_sha256 row;
        demand (bool_decide (o_key index = key) && bool_decide (o_sha256 index = sha))
          "receipt row differs from ordinal commitment";;
        parent ← parent_sha256 v row;
        demand (bool_decide (rr_previous_sha256 row = parent))
          (if rr_ordinal row =? 1 then "receipt initial root differs" else "receipt parent root differs");;
        root ← view_index v (mr_count (v_head v));
        demand (bool_decide (o_sha256 root = mr_sha256 (v_head v))) "receipt selected root differs";;
        Ok (Some row)
  end.

(** [Lookup], [Absent], [View::lookup]. *)
Record Absent := { ab_key : string; ab_head : MutationReceiptHead }.
Inductive Lookup := Found (row : ReceiptRow) | Missing (absent : Absent).

Definition view_lookup (v : View) (key : string) : Anyhow Lookup :=
  row ← view_get v key;
  Ok match row with
     | Some row => Found row
     | None => Missing {| ab_key := key; ab_head := v_head v |}
     end.

(** [View::row], [View::records]. *)
Definition view_row (v : View) (n : N) : Anyhow ReceiptRow :=
  i ← view_index v n;
  found ← view_get v (o_key i);
  row ← context_or found "receipt indexed row missing";
  demand (rr_ordinal row =? n) "receipt ordinal redirected";;
  Ok row.

Definition view_records (v : View) : list (Anyhow ReceiptRow) :=
  (λ n, view_row v (N.of_nat n)) <$> seq 1 (N.to_nat (mr_count (v_head v))).
End views.

(** ** Rebuilding a history from a stream *)

(** *** The staging table

    [EncryptedTable] and [EncryptedTableBatch] of kasumi-store: a private table
    and the transaction that writes to it.  Reading and writing the encrypted
    pages cannot fail here. *)

Definition MAX_BATCH_BYTES : N := N.shiftl 4 20.
Definition MAX_BATCH_ENTRIES : N := 16.

Record TableBatch := {
  tb_writes : gmap string string;
  tb_bytes : N;
  tb_entries : N;
  tb_failed : bool;
}.

(** [EncryptedTable::begin_batch]. *)
Definition begin_batch : TableBatch := {| tb_writes := ∅; tb_bytes := 0; tb_entries := 0; tb_failed := false |}.

Definition fail_batch (b : TableBatch) : TableBatch :=
  {| tb_writes := tb_writes b; tb_bytes := tb_bytes b; tb_entries := tb_entries b; tb_failed := true |}.
Definition write_batch (key v : string) (b : TableBatch) : TableBatch :=
  {| tb_writes := <[key := v]> (tb_writes b); tb_bytes := tb_bytes b; tb_entries := tb_entries b; tb_failed := tb_failed b |}.
Definition count_batch (bytes : N) (b : TableBatch) : TableBatch :=
  {| tb_writes := tb_writes b; tb_bytes := bytes; tb_entries := tb_entries b + 1; tb_failed := false |}.

(** [EncryptedTableBatch::insert]: the transaction sees the committed rows and
    its own writes, and a key that either holds is refused. *)
Definition table_insert (table : gmap string string) (key v : string) : ST TableBatch anyhow unit :=
  b ← st_get;
  st_lift (demand (negb (tb_failed b)) "staging batch previously failed");;
  st_modify fail_batch;;
  st_lift (demand ((str_len key <=? 4096) && (str_len v <=? N.shiftl 32 20)) "staged record exceeds limit");;
  bytes ← st_lift (context_or (checked_add (tb_bytes b) (str_len key) ≫= λ n, checked_add n (str_len v))
                     "staging batch byte overflow");
  st_lift (demand ((bytes <=? MAX_BATCH_BYTES) && (tb_entries b <? MAX_BATCH_ENTRIES)) "staging batch capacity exceeded");;
  st_modify (write_batch key v);;
  st_lift (demand (bool_decide ((tb_writes b ∪ table) !! key = None)) "duplicate staged key");;
  st_modify (count_batch bytes).

(** [EncryptedTableBatch::commit]. *)
Definition table_commit (table : gmap string string) (b : TableBatch) : Anyhow (gmap string string) :=
  demand (negb (tb_failed b)) "staging batch previously failed";;
  Ok (tb_writes b ∪ table).

(** *** [Builder] *)

Definition BATCH_BYTES : N := MAX_BATCH_BYTES.
Definition BATCH_ROWS : N := MAX_BATCH_ENTRIES / 2.

Record Builder := {
  bd_table : gmap string string;
  bd_batch : option TableBatch;
  bd_bytes : N;
  bd_rows : N;
  bd_head : MutationReceiptHead;
  bd_failed : bool;
}.

Section builder.
Context `{Sha256}.

Definition set_failed (b : bool) (x : Builder) : Builder :=
  {| bd_table := bd_table x; bd_batch := bd_batch x; bd_bytes := bd_bytes x; bd_rows := bd_rows x;
     bd_head := bd_head x; bd_failed := b |}.
Definition set_bd_head (h : MutationReceiptHead) (x : Builder) : Builder :=
  {| bd_table := bd_table x; bd_batch := bd_batch x; bd_bytes := bd_bytes x; bd_rows := bd_rows x;
     bd_head := h; bd_failed := bd_failed x |}.
Definition set_bd_batch (t : option TableBatch) (x : Builder) : Builder :=
  {| bd_table := bd_table x; bd_batch := t; bd_bytes := bd_bytes x; bd_rows := bd_rows x;
     bd_head := bd_head x; bd_failed := bd_failed x |}.
Definition count_row (bytes : N) (x : Builder) : Builder :=
  {| bd_table := bd_table x; bd_batch := bd_batch x; bd_bytes := bd_bytes x + bytes; bd_rows := bd_rows x + 1;
     bd_head := bd_head x; bd_failed := bd_failed x |}.

(** The open batch, taken and committed; the next one is opened. *)
Definition commit_batch (ordinal : N) : ST Builder anyhow unit := λ x,
  match bd_batch x with
  | None => (x, Err (AnyMessage "receipt staging batch missing"))
  | Some t =>
      match table_commit (bd_table x) t with
      | Ok table =>
          ({| bd_table := table; bd_batch := Some begin_batch; bd_bytes := 0; bd_rows := 0; bd_head := bd_head x;
              bd_failed := bd_failed x |}, Ok tt)
      | Err _ =>
          (set_bd_batch None x,
           Err (AnyMessage ("receipt staging batch commit failed before ordinal " +:+ pretty ordinal +:+ " (rows="
                            +:+ pretty (bd_rows x) +:+ ", bytes=" +:+ pretty (bd_bytes x) +:+ ")")))
      end
  end.

(** One write to the open batch. *)
Definition insert_staged (key v : string) : ST Builder anyhow unit := λ x,
  match bd_batch x with
  | None => (x, Err (AnyMessage "receipt staging batch missing"))
  | Some t => let '(t', r) := table_insert (bd_table x) key v t in (set_bd_batch (Some t') x, r)
  end.

(** [Builder::new], for an empty table. *)
Definition new_builder (tenant origin : string) : Result Builder :=
  h ← mutation_receipt_head_empty tenant origin;
  Ok {| bd_table := ∅; bd_batch := Some begin_batch; bd_bytes := 0; bd_rows := 0; bd_head := h; bd_failed := false |}.

(** The batch is full for a row of this many bytes. *)
Definition batch_full (x : Builder) (bytes : N) : bool :=
  (bd_rows x =? BATCH_ROWS) ||
  match checked_add (bd_bytes x) bytes with
  | Some total => BATCH_BYTES <? total
  | None => true
  end.

(** [Builder::push]. *)
Definition push_row (row : ReceiptRow) (s : TenantState) : ST Builder anyhow unit :=
  b ← st_get;
  st_lift (demand (negb (bd_failed b)) "receipt staging builder previously failed");;
  st_modify (set_failed true);;
  framed_bytes ← st_lift (validate_receipt row s);
  h ← st_lift (advance_framed (bd_head b) row framed_bytes);
  st_modify (set_bd_head h);;
  sha ← st_lift (receipt_sha256 row);
  let id := id_key (rr_key row) in
  let ordinal := ordinal_key (rr_ordinal row) in
  let encoded_row := to_json row in
  let encoded_index := to_json {| o_key := rr_key row; o_sha256 := sha |} in
  bytes ← st_lift (context_or
    (checked_add (str_len id) (str_len ordinal) ≫= λ n,
     checked_add n (str_len encoded_row) ≫= λ n, checked_add n (str_len encoded_index))
    "receipt staging batch byte overflow");
  st_lift (demand (bytes <=? BATCH_BYTES) "receipt row exceeds staging batch");;
  x ← st_get;
  (if batch_full x bytes then commit_batch (rr_ordinal row) else mret tt);;
  insert_staged id encoded_row;;
  insert_staged ordinal encoded_index;;
  st_modify (count_row bytes);;
  st_modify (set_failed false).

(** [Builder::finish]. *)
Definition finish_builder (b : Builder) (expected : MutationReceiptHead) : Anyhow View :=
  demand (negb (bd_failed b)) "receipt staging builder previously failed";;
  demand (bool_decide (bd_head b = expected)) "receipt stream final root/count/bytes differ";;
  batch ← context_or (bd_batch b) "receipt staging batch missing";
  table ← map_err (λ _, AnyMessage ("receipt staging final batch commit failed at ordinal " +:+ pretty (mr_count (bd_head b))
                                    +:+ " (rows=" +:+ pretty (bd_rows b) +:+ ", bytes=" +:+ pretty (bd_bytes b) +:+ ")"))
            (table_commit (bd_table b) batch);
  Ok {| v_source := Some (Staged table); v_head := bd_head b |}.
End builder.

(** ** Publishing a row *)

(** [Pending] receipts: the view they extend, the head they reach. *)
Record PendingReceipt := {
  p_previous : View;
  p_head : MutationReceiptHead;
  p_rows : list ReceiptRow;
}.

Section pending.
Context `{Sha256} `{FromSlice Ordinal} `{FromSlice ReceiptRow}.

(** [Pending::prepare]. *)
Definition prepare_receipt (previous : View) (s : TenantState)
    (receipt : option (StoredReceipt * Absent)) (applied : AppliedIdentity) : Anyhow PendingReceipt :=
  demand (bool_decide (v_head previous = mutation_receipt_head s)) "receipt starting prefix differs";;
  match receipt with
  | None => Ok {| p_previous := previous; p_head := v_head previous; p_rows := [] |}
  | Some (receipt, absent) =>
      let h := v_head previous in
      d ← any (staged_digest (sc_principal (r_scope receipt), r_idempotency_key receipt));
      demand (bool_decide (ab_key absent = d.1) && bool_decide (ab_head absent = h))
        "cannot rewrite permanent receipt";;
      ordinal ← context_or (checked_add (mr_count h) 1) "receipt ordinal overflow";
      let row := {| rr_ordinal := ordinal; rr_key := d.1; rr_previous_sha256 := mr_sha256 h;
                    rr_applied := applied; rr_receipt := receipt |} in
      framed_bytes ← validate_receipt row s;
      h' ← advance_framed h row framed_bytes;
      demand (mr_encoded_bytes h' <=? max_mutation_receipt_bytes (limits s))
        "receipt byte admission was not reserved";;
      Ok {| p_previous := previous; p_head := h'; p_rows := [row] |}
  end.

(** The pair of keys and bytes of a row. *)
Definition row_pair (row : ReceiptRow) : Anyhow ((string * string) * (string * string)) :=
  sha ← receipt_sha256 row;
  Ok ((id_key (rr_key row), to_json row),
      (ordinal_key (rr_ordinal row), to_json {| o_key := rr_key row; o_sha256 := sha |})).

(** One iteration of [Pending::stage]: a pair that is already present must be
    this pair. *)
Definition stage_row (source : Source) (row : ReceiptRow) : ST (gmap string string) anyhow unit :=
  store ← st_get;
  p ← st_lift (row_pair row);
  old_row ← st_lift (source_get store source p.1.1);
  old_index ← st_lift (source_get store source p.2.1);
  match old_row, old_index with
  | Some r, Some i =>
      st_lift (demand (bool_decide (r = p.1.2) && bool_decide (i = p.2.2))
        "future receipt row differs from exact original command replay")
  | None, None => st_modify (λ m, <[p.2.1 := p.2.2]> (<[p.1.1 := p.1.2]> m))
  | _, _ => st_lift (Err (AnyMessage "partially published receipt row/index"))
  end.

(** [Pending::stage]; the write path that only test fixtures take, into a staged
    table, is left out. *)
Definition stage_receipts (p : PendingReceipt) : ST (gmap string string) anyhow View :=
  match p_rows p with
  | [] => mret (p_previous p)
  | row :: _ =>
      source ← st_lift (context_or (v_source (p_previous p)) "receipt append storage is not installed");
      st_lift match source with
              | Staged _ => Err (AnyMessage "unpublished restore staging cannot serve receipt writes")
              | _ => demand (source_durable source) "receipt append storage is not durable"
              end;;
      st_fold (λ _, stage_row source) tt (p_rows p);;
      store ← st_get;
      let v := {| v_source := Some source; v_head := p_head p |} in
      st_lift (check_head store v (sc_tenant (r_scope (rr_receipt row))));;
      mret v
  end.
End pending.

(** ** Lemmas *)

#[local] Opaque to_json staged_digest encoded_len.

(** The digest a row commits to, and its commitment. *)
Definition sha_of `{Sha256} (r : ReceiptRow) : string :=
  match receipt_sha256 r with Ok s => s | Err _ => "" end.
Definition index_of `{Sha256} (r : ReceiptRow) : Ordinal :=
  {| o_key := rr_key r; o_sha256 := sha_of r |}.

(** The head a stream of rows reaches. *)
Definition chain_head `{Sha256} (tenant origin : string) (rows : list ReceiptRow) :
    Anyhow MutationReceiptHead :=
  h ← any (mutation_receipt_head_empty tenant origin);
  try_fold advance h rows.

(** The output format of SHA-256 in hexadecimal. *)
Class Sha256Hex `{Sha256} := sha256_hex_digest : ∀ s, digest (sha256_hex s) = true.

Section chain.
Context `{Sha256}.

Lemma receipt_sha256_Ok r sha :
  receipt_sha256 r = Ok sha ↔
  sha = sha256_hex (to_json ("kasumi.mutation-receipt-row.v1", r)) ∧
  str_len (to_json ("kasumi.mutation-receipt-row.v1", r)) ≤ u64_max.
Proof.
  unfold receipt_sha256. rewrite any_Ok.
  destruct (staged_digest ("kasumi.mutation-receipt-row.v1", r)) as [[d n]|e] eqn:Hd.
  - apply staged_digest_Ok in Hd as (-> & -> & Hn). cbn. naive_solver.
  - cbn. split; [done|]. intros [-> Hn].
    assert (Hx : staged_digest ("kasumi.mutation-receipt-row.v1", r) = Ok
      (sha256_hex (to_json ("kasumi.mutation-receipt-row.v1", r)), str_len (to_json ("kasumi.mutation-receipt-row.v1", r))))
      by (by apply staged_digest_Ok). congruence.
Qed.

Lemma sha_of_Ok r sha : receipt_sha256 r = Ok sha → sha_of r = sha.
Proof. unfold sha_of. by intros ->. Qed.

Lemma advance_framed_Ok h r n h' :
  advance_framed h r n = Ok h' ↔
  rr_ordinal r = mr_count h + 1 ∧ mr_count h + 1 ≤ u64_max ∧ rr_previous_sha256 r = mr_sha256 h ∧
  mr_last_applied_revision h < a_revision (rr_applied r) ∧ mr_encoded_bytes h + n ≤ u64_max ∧
  receipt_sha256 r = Ok (sha_of r) ∧
  h' = {| mr_origin_incarnation := mr_origin_incarnation h; mr_count := mr_count h + 1;
          mr_encoded_bytes := mr_encoded_bytes h + n;
          mr_last_applied_revision := a_revision (rr_applied r); mr_sha256 := sha_of r |}.
Proof.
  unfold advance_framed. split.
  - intros (next & [-> Hn]%context_or_Ok%checked_add_Some & Hr)%bind_Ok.
    apply seq_Ok in Hr as [Hd%demand_Ok Hr].
    rewrite !andb_true_iff, N.eqb_eq, bool_decide_eq_true, N.ltb_lt in Hd. destruct Hd as [[Ho Hp] Hl].
    apply bind_Ok in Hr as (b & [-> Hb]%context_or_Ok%checked_add_Some & Hr).
    apply bind_Ok in Hr as (sha & Hs & [= <-]). rewrite (sha_of_Ok _ _ Hs), Ho. done.
  - intros (Ho & Hc & Hp & Hl & Hb & Hs & ->). apply bind_Ok. exists (mr_count h + 1).
    split; [by apply context_or_Ok, checked_add_Some|]. apply seq_Ok. split.
    { apply demand_Ok. rewrite !andb_true_iff, N.eqb_eq, bool_decide_eq_true, N.ltb_lt. done. }
    apply bind_Ok. exists (mr_encoded_bytes h + n). split; [by apply context_or_Ok, checked_add_Some|].
    apply bind_Ok. exists (sha_of r). by rewrite Ho.
Qed.

Lemma chain_head_snoc tenant origin rows r h' :
  chain_head tenant origin (rows ++ [r]) = Ok h' ↔
  ∃ h n, chain_head tenant origin rows = Ok h ∧ framed_receipt r = Ok n ∧ advance_framed h r n = Ok h'.
Proof.
  unfold chain_head. split.
  - intros (h0 & H0 & Hh)%bind_Ok. rewrite try_fold_app in Hh. apply bind_Ok in Hh as (h & Hh & Hr).
    rewrite try_fold_cons in Hr. apply bind_Ok in Hr as (h1 & Hr & [= ->]). unfold advance in Hr.
    apply bind_Ok in Hr as (n & Hn & Hr). exists h, n. rewrite H0, bind_Ok_l. by split_and!.
  - intros (h & n & (h0 & H0 & Hh)%bind_Ok & Hn & Ha). rewrite H0, bind_Ok_l, try_fold_app, Hh, bind_Ok_l.
    rewrite try_fold_cons. unfold advance. rewrite Hn, bind_Ok_l, Ha. done.
Qed.

Lemma chain_head_nil tenant origin h :
  chain_head tenant origin [] = Ok h → mutation_receipt_head_empty tenant origin = Ok h.
Proof. intros (h0 & H0%any_Ok & [= ->])%bind_Ok. done. Qed.

Lemma empty_head_Ok tenant origin h :
  mutation_receipt_head_empty tenant origin = Ok h →
  mr_count h = 0 ∧ mr_origin_incarnation h = origin ∧ mr_encoded_bytes h = 0 ∧
  mr_last_applied_revision h = 0 ∧ ∃ x, mr_sha256 h = sha256_hex x.
Proof.
  unfold mutation_receipt_head_empty. intros ([] & _ & ([] & _ & Hd)%bind_Ok)%bind_Ok.
  apply bind_Ok in Hd as ([d n] & (-> & _)%staged_digest_Ok & [= <-]). cbn. eauto 10.
Qed.

(** What the head of a chain says of its rows. *)
Lemma chain_head_facts tenant origin rows : ∀ h,
  chain_head tenant origin rows = Ok h →
  mr_count h = len rows ∧ len rows ≤ u64_max ∧ mr_origin_incarnation h = origin ∧
  (∃ x, mr_sha256 h = sha256_hex x) ∧
  (rows = [] ∨ ∃ rows' r h0, rows = rows' ++ [r] ∧ chain_head tenant origin rows' = Ok h0 ∧
     mr_sha256 h = sha_of r ∧ mr_last_applied_revision h = a_revision (rr_applied r) ∧
     rr_previous_sha256 r = mr_sha256 h0 ∧ rr_ordinal r = len rows ∧
     receipt_sha256 r = Ok (sha_of r) ∧ ∃ n, framed_receipt r = Ok n).
Proof.
  induction rows as [|r rows IH] using rev_ind; intros h Hh.
  - apply chain_head_nil, empty_head_Ok in Hh as (? & ? & _ & _ & ?). split_and!; auto. unfold len, u64_max. cbn. lia.
  - apply chain_head_snoc in Hh as (h0 & n & H0 & Hn & Ha).
    apply advance_framed_Ok in Ha as (Ho & Hc & Hp & _ & _ & Hs & ->). cbn.
    pose proof (IH _ H0) as (Hcnt & _ & Horg & _). unfold len in *. rewrite length_app. cbn [length].
    split_and!; [lia|lia|done| |].
    + apply receipt_sha256_Ok in Hs as [-> _]. by eexists.
    + right. exists rows, r, h0. split_and!; try done; [lia|by exists n].
Qed.
End chain.

(** ** The rows of a store *)

Definition find_row (key : string) (rows : list ReceiptRow) : option ReceiptRow :=
  find (λ r, bool_decide (rr_key r = key)) rows.

Lemma find_row_take key rows r :
  find_row key rows = Some r →
  ∃ i, rows !! i = Some r ∧ rr_key r = key ∧
    ∀ k, find_row key (take k rows) = if decide (i < k)%nat then Some r else None.
Proof.
  unfold find_row. induction rows as [|x rows IH]; [done|]. cbn [find]. case_bool_decide as Hx.
  - intros [= ->]. exists O. split_and!; [done|done|]. intros [|k]; [done|]. cbn [take find].
    by rewrite bool_decide_true, decide_True by (done || lia).
  - intros (i & Hi & Hk & Ht)%IH. exists (S i). split_and!; [done|done|]. intros [|k]; [done|].
    cbn [take find]. rewrite bool_decide_false by done. rewrite Ht. repeat case_decide; (done || lia).
Qed.

Lemma find_row_None key rows : find_row key rows = None ↔ ∀ r, r ∈ rows → rr_key r ≠ key.
Proof.
  unfold find_row. induction rows as [|x rows IH]; cbn [find].
  - split; [intros _ r Hr; by apply elem_of_nil in Hr|done].
  - case_bool_decide as Hx.
    + split; [done|]. intros Hn. by destruct (Hn x); [left|].
    + rewrite IH. split.
      * intros Hn r [->|Hr]%elem_of_cons; [done|by apply Hn].
      * intros Hn r Hr. apply Hn. by right.
Qed.

Lemma find_row_take_None key rows k : find_row key rows = None → find_row key (take k rows) = None.
Proof.
  rewrite !find_row_None. intros Hn r Hr. apply Hn. apply list_elem_of_lookup in Hr as (i & Hi).
  apply lookup_take_Some in Hi as [Hi _]. by eapply list_elem_of_lookup_2.
Qed.

Lemma find_row_app key rows r :
  find_row key (rows ++ [r]) =
  match find_row key rows with
  | Some x => Some x
  | None => if bool_decide (rr_key r = key) then Some r else None
  end.
Proof.
  unfold find_row. induction rows as [|x rows IH]; cbn [app find].
  { by destruct (bool_decide (rr_key r = key)). }
  destruct (bool_decide (rr_key x = key)); [done|apply IH].
Qed.

Lemma find_row_unique rows i r :
  NoDup (rr_key <$> rows) → rows !! i = Some r → find_row (rr_key r) rows = Some r.
Proof.
  intros Hnd Hi. destruct (find_row (rr_key r) rows) as [x|] eqn:Hf.
  - destruct (find_row_take _ _ _ Hf) as (j & Hj & Hk & _). f_equal.
    assert (j = i) as ->; [|congruence]. apply (NoDup_lookup (rr_key <$> rows) j i (rr_key r) Hnd); rewrite list_lookup_fmap.
    + rewrite Hj. cbn. by rewrite Hk.
    + by rewrite Hi.
  - rewrite find_row_None in Hf. by destruct (Hf r); [eapply list_elem_of_lookup_2|].
Qed.

(** The row of an ordinal, from one. *)
Definition row_at (rows : list ReceiptRow) (n : N) : option ReceiptRow :=
  if n =? 0 then None else rows !! N.to_nat (n - 1).

(** *** Sizes *)

Lemma digest_len s : digest s = true → str_len s = 64.
Proof. unfold digest. by intros [Hl%N.eqb_eq _]%andb_true_iff. Qed.

Lemma index_small o : digest (o_key o) = true → digest (o_sha256 o) = true → str_len (to_json o) ≤ 1024.
Proof.
  intros Hk%digest_len Hs%digest_len.
  change (str_len (to_json o)) with
    (vlen (VObject [("key", VString (o_key o)); ("sha256", VString (o_sha256 o))])).
  rewrite vlen_pair. change (vlen (VString (o_key o))) with (str_len (write_str (o_key o))).
  change (vlen (VString (o_sha256 o))) with (str_len (write_str (o_sha256 o))).
  pose proof (write_str_len (o_key o)). pose proof (write_str_len (o_sha256 o)).
  change (str_len (write_str "key")) with 5. change (str_len (write_str "sha256")) with 8. lia.
Qed.

Lemma index_size o :
  digest (o_key o) = true → digest (o_sha256 o) = true → str_len (to_json o) ≤ MAX_ROW_BYTES.
Proof. intros Hk Hs. pose proof (index_small _ Hk Hs). change MAX_ROW_BYTES with 2097152. lia. Qed.

Lemma framed_receipt_size r n : framed_receipt r = Ok n → str_len (to_json r) ≤ MAX_ROW_BYTES.
Proof.
  unfold framed_receipt. intros (m & Hm%any_Ok & Hn)%bind_Ok.
  apply encoded_len_Ok in Hm as [-> _]. apply seq_Ok in Hn as [Hle%demand_Ok%N.leb_le _].
  etrans; [|exact Hle].
  change (vlen (to_value r) ≤ vlen (VObject [("type", VString "Receipt"); ("value", to_value r)])).
  rewrite vlen_pair. lia.
Qed.

(** *** Prefixes of a chain *)

Lemma chain_head_take `{Sha256} tenant origin rows h k :
  chain_head tenant origin rows = Ok h → ∃ h', chain_head tenant origin (take k rows) = Ok h'.
Proof.
  revert h. induction rows as [|r rows IH] using rev_ind; intros h Hh.
  { rewrite take_nil. by exists h. }
  destruct (decide (length (rows ++ [r]) ≤ k)%nat) as [Hk|Hk].
  - rewrite take_ge by done. by exists h.
  - apply chain_head_snoc in Hh as (h0 & n & H0 & _). rewrite length_app in Hk. cbn in Hk.
    rewrite take_app_le by lia. by eapply IH.
Qed.

Lemma chain_head_lookup `{Sha256} tenant origin rows h i r :
  chain_head tenant origin rows = Ok h → rows !! i = Some r →
  ∃ h', chain_head tenant origin (take i rows) = Ok h' ∧ rr_ordinal r = N.of_nat i + 1 ∧
    N.of_nat i + 1 ≤ u64_max ∧ rr_previous_sha256 r = mr_sha256 h' ∧
    receipt_sha256 r = Ok (sha_of r).
Proof.
  intros Hh Hi. destruct (chain_head_take tenant origin rows h (S i) Hh) as [h1 H1].
  rewrite (take_S_r _ _ _ Hi) in H1. pose proof (chain_head_facts _ _ _ _ H1) as (_ & Hmax & _ & _ & Hl).
  destruct Hl as [Hl|(rows' & r' & h0 & Heq & H0 & _ & _ & Hp & Ho & Hs & _)].
  { by destruct (take i rows). }
  apply app_inj_tail in Heq as [<- <-]. exists h0. unfold len in Ho, Hmax. rewrite length_app in Ho, Hmax.
  cbn [length] in Ho, Hmax. apply lookup_lt_Some in Hi as Hlt. rewrite length_take in Ho, Hmax.
  split_and!; [done|lia|lia|done|done].
Qed.

(** ** Views read exactly their prefix *)

Section exact.
Context `{Sha256} `{FromSlice Ordinal} `{FromSlice ReceiptRow}.
Context (tenant origin : string).

(** A row that was validated before it was written, and that reads back. *)
Definition row_ok (r : ReceiptRow) : Prop :=
  digest (rr_key r) = true ∧ sc_tenant (r_scope (rr_receipt r)) = tenant ∧
  readable r ∧ readable (index_of r) ∧ str_len (to_json r) ≤ MAX_ROW_BYTES.

(** The store holds exactly the pairs of these rows. *)
Record recorded (read : string → option string) (rows : list ReceiptRow) : Prop := {
  recorded_points key : read (id_key key) = to_json <$> find_row key rows;
  recorded_ordinals n : 0 < n → n ≤ u64_max →
    read (ordinal_key n) = (λ r, to_json (index_of r)) <$> rows !! N.to_nat (n - 1);
  recorded_rows : Forall row_ok rows;
}.

(** The head selects the first [k] rows of a chain. *)
Definition selects (rows : list ReceiptRow) (k : nat) (h : MutationReceiptHead) : Prop :=
  (k ≤ length rows)%nat ∧ chain_head tenant origin (take k rows) = Ok h ∧
  ∃ top, chain_head tenant origin rows = Ok top.

Context `{!Sha256Hex}.
#[local] Opaque N.to_nat.

Lemma sha_of_digest r : receipt_sha256 r = Ok (sha_of r) → digest (sha_of r) = true.
Proof. intros [-> _]%receipt_sha256_Ok. apply sha256_hex_digest. Qed.

Lemma selects_count rows k h : selects rows k h → mr_count h = N.of_nat k ∧ mr_origin_incarnation h = origin.
Proof.
  intros (Hk & Hh & _). apply chain_head_facts in Hh as (Hc & _ & Ho & _).
  unfold len in Hc. rewrite length_take in Hc. split; [lia|done].
Qed.

Lemma source_get_row store src rows r key :
  recorded (source_read store src) rows → find_row key rows = Some r →
  source_get store src (id_key key) = Ok (Some (to_json r)).
Proof.
  intros [Hp _ Hr] Hf. unfold source_get. rewrite Hp, Hf. cbn [fmap option_fmap option_map].
  destruct (find_row_take _ _ _ Hf) as (i & Hi & _). eapply Forall_lookup_1 in Hr; [|exact Hi].
  destruct Hr as (_ & _ & _ & _ & Hs). apply seq_Ok. split; [|done]. by apply demand_Ok, N.leb_le.
Qed.

Lemma view_index_exact store src rows k h i r :
  recorded (source_read store src) rows → selects rows k h → rows !! i = Some r → (i < k)%nat →
  view_index store {| v_source := Some src; v_head := h |} (N.of_nat i + 1) = Ok (index_of r).
Proof.
  intros Hrec Hsel Hi Hlt. destruct (selects_count _ _ _ Hsel) as [Hc _].
  destruct Hsel as (_ & _ & top & Htop).
  destruct (chain_head_lookup _ _ _ _ _ _ Htop Hi) as (h' & _ & _ & Hmax & _ & Hs).
  destruct Hrec as [_ Ho Hr]. eapply Forall_lookup_1 in Hr as (Hk & _ & _ & Hread & _); [|exact Hi].
  unfold view_index, view_bytes, source_get. cbn [v_source v_head].
  apply seq_Ok. split; [apply demand_Ok, andb_true_iff; rewrite N.ltb_lt, N.leb_le; lia|].
  rewrite Ho by lia. replace (N.to_nat (N.of_nat i + 1 - 1)) with i by lia. rewrite Hi.
  cbn [fmap option_fmap option_map]. rewrite (proj2 (demand_Ok _ _)).
  2:{ apply N.leb_le, index_size; [done|]. by apply sha_of_digest. }
  rewrite !bind_Ok_l, context_or_Some, bind_Ok_l, Hread, bind_Ok_l.
  rewrite (proj2 (require_current_Ok _ _ _) eq_refl), bind_Ok_l.
  rewrite (proj2 (demand_Ok _ _)); [done|]. apply andb_true_iff. split; [done|by apply sha_of_digest].
Qed.

Lemma parent_exact store src rows k h i r :
  recorded (source_read store src) rows → selects rows k h → rows !! i = Some r → (i < k)%nat →
  parent_sha256 store {| v_source := Some src; v_head := h |} r = Ok (rr_previous_sha256 r).
Proof.
  intros Hrec Hsel Hi Hlt. destruct (selects_count _ _ _ Hsel) as [_ Horg].
  destruct (proj2 (proj2 Hsel)) as [top Htop].
  destruct (chain_head_lookup _ _ _ _ _ _ Htop Hi) as (h' & Hh' & Ho & _ & Hp & _).
  unfold parent_sha256. rewrite Ho. destruct i as [|i].
  - rewrite N.add_0_l. cbn [v_head]. rewrite N.eqb_refl, Horg.
    pose proof (Forall_lookup_1 _ _ _ _ (recorded_rows _ _ Hrec) Hi) as (_ & -> & _).
    apply chain_head_nil in Hh'. rewrite (proj2 (any_Ok _ _) Hh'). cbn. by rewrite Hp.
  - rewrite (proj2 (N.eqb_neq _ _)) by lia.
    destruct (lookup_lt_is_Some_2 rows i) as [r0 Hr0]; [apply lookup_lt_Some in Hi; lia|].
    replace (N.of_nat (S i) + 1 - 1) with (N.of_nat i + 1) by lia.
    rewrite (view_index_exact _ _ _ _ _ _ _ Hrec Hsel Hr0) by lia. cbn.
    rewrite (take_S_r _ _ _ Hr0) in Hh'. apply chain_head_snoc in Hh' as (h0 & n & _ & _ & Ha).
    apply advance_framed_Ok in Ha as (_ & _ & _ & _ & _ & _ & ->). by rewrite Hp.
Qed.

Lemma root_exact store src rows k h :
  recorded (source_read store src) rows → selects rows k h → (0 < k)%nat →
  ∃ root, view_index store {| v_source := Some src; v_head := h |} (mr_count h) = Ok root ∧
    o_sha256 root = mr_sha256 h ∧
    ∃ r, rows !! (k - 1)%nat = Some r ∧ mr_last_applied_revision h = a_revision (rr_applied r).
Proof.
  intros Hrec Hsel Hk. destruct (selects_count _ _ _ Hsel) as [-> _]. pose proof Hsel as (Hle & Hh & _).
  destruct (lookup_lt_is_Some_2 rows (k - 1)) as [r Hr]; [lia|].
  exists (index_of r). replace (N.of_nat k) with (N.of_nat (k - 1) + 1) by lia.
  rewrite (view_index_exact _ _ _ _ _ _ _ Hrec Hsel Hr) by lia. split; [done|].
  replace k with (S (k - 1)) in Hh by lia. rewrite (take_S_r _ _ _ Hr) in Hh.
  apply chain_head_snoc in Hh as (h0 & n & _ & _ & Ha).
  apply advance_framed_Ok in Ha as (_ & _ & _ & _ & _ & _ & ->). eauto.
Qed.

(** A lookup through a view is a lookup in the selected prefix. *)
Lemma view_get_exact store src rows k h key :
  recorded (source_read store src) rows → selects rows k h → digest key = true →
  view_get store {| v_source := Some src; v_head := h |} key = Ok (find_row key (take k rows)).
Proof.
  intros Hrec Hsel Hd. unfold view_get. rewrite (proj2 (demand_Ok _ _) Hd), bind_Ok_l.
  unfold view_bytes. cbn [v_source].
  destruct (find_row key rows) as [r|] eqn:Hf.
  2:{ unfold source_get. rewrite (recorded_points _ _ Hrec), Hf. cbn [fmap option_fmap option_map].
      rewrite demand_true, !bind_Ok_l. by rewrite find_row_take_None. }
  rewrite (source_get_row _ _ _ _ _ Hrec Hf), bind_Ok_l.
  destruct (find_row_take _ _ _ Hf) as (i & Hi & Hkey & Ht). rewrite Ht.
  pose proof (Forall_lookup_1 _ _ _ _ (recorded_rows _ _ Hrec) Hi) as (_ & _ & Hread & _).
  destruct (proj2 (proj2 Hsel)) as [top Htop].
  destruct (chain_head_lookup _ _ _ _ _ _ Htop Hi) as (h' & _ & Ho & _ & _ & Hs).
  destruct (selects_count _ _ _ Hsel) as [Hc _]. rewrite Hread, bind_Ok_l. cbn [v_head].
  rewrite Ho, Hc. case_decide as Hik.
  2:{ rewrite (proj2 (N.ltb_lt _ _)) by lia. done. }
  rewrite (proj2 (N.ltb_ge _ _)) by lia. rewrite (proj2 (require_current_Ok _ _ _) eq_refl), bind_Ok_l.
  destruct (root_exact _ _ _ _ _ Hrec Hsel) as (root & Hroot & Hrs & rk & Hrk & Hlast); [lia|].
  rewrite Hc in Hroot. apply seq_Ok. split.
  { apply demand_Ok. rewrite bool_decide_true by done. apply N.ltb_lt. lia. }
  apply seq_Ok. split.
  { case_match eqn:He; [|done]. apply N.eqb_eq in He. apply demand_Ok, N.eqb_eq.
    assert (Hki : (k - 1)%nat = i) by lia. rewrite Hki, Hi in Hrk. by injection Hrk as ->. }
  rewrite (view_index_exact _ _ _ _ _ _ _ Hrec Hsel Hi Hik), bind_Ok_l, Hs, bind_Ok_l.
  apply seq_Ok. split; [apply demand_Ok; cbn; by rewrite Hkey, !bool_decide_true|].
  rewrite (parent_exact _ _ _ _ _ _ _ Hrec Hsel Hi Hik), bind_Ok_l.
  apply seq_Ok. split; [by apply demand_Ok, bool_decide_eq_true|].
  rewrite Hroot, bind_Ok_l. apply seq_Ok. split; [by apply demand_Ok, bool_decide_eq_true|done].
Qed.

(** The row of an ordinal is that row of the history, and no other ordinal has one. *)
Lemma view_row_exact store src rows h n :
  recorded (source_read store src) rows → selects rows (length rows) h → NoDup (rr_key <$> rows) →
  view_row store {| v_source := Some src; v_head := h |} n =
  context_or (row_at rows n) "receipt ordinal is outside selected generation".
Proof.
  intros Hrec Hsel Hnd. destruct (selects_count _ _ _ Hsel) as [Hc _]. unfold row_at.
  destruct (decide (0 < n ∧ n ≤ N.of_nat (length rows))) as [[Hpos Hle]|Hout].
  - destruct (lookup_lt_is_Some_2 rows (N.to_nat (n - 1))) as [r Hr]; [lia|].
    destruct (proj2 (proj2 Hsel)) as [top Htop].
    destruct (chain_head_lookup _ _ _ _ _ _ Htop Hr) as (_ & _ & Ho & _).
    pose proof (view_index_exact _ _ _ _ _ _ _ Hrec Hsel Hr) as Hi.
    replace (N.of_nat (N.to_nat (n - 1)) + 1) with n in Hi, Ho by lia.
    pose proof (Forall_lookup_1 _ _ _ _ (recorded_rows _ _ Hrec) Hr) as (Hd & _).
    rewrite (proj2 (N.eqb_neq _ _)) by lia. rewrite Hr, context_or_Some. unfold view_row. rewrite Hi, bind_Ok_l by lia.
    change (o_key (index_of r)) with (rr_key r).
    rewrite (view_get_exact _ _ _ _ _ _ Hrec Hsel Hd), take_ge, (find_row_unique _ _ _ Hnd Hr) by done.
    rewrite bind_Ok_l, context_or_Some, bind_Ok_l, Ho, N.eqb_refl. done.
  - assert (Hnone : (if n =? 0 then None else rows !! N.to_nat (n - 1)) = None).
    { destruct (N.eqb_spec n 0); [done|]. apply lookup_ge_None. lia. }
    rewrite Hnone. unfold view_row, view_index. cbn [v_head]. rewrite Hc.
    replace ((0 <? n) && (n <=? N.of_nat (length rows))) with false; [done|].
    symmetry. apply andb_false_iff. rewrite N.ltb_ge, N.leb_gt. lia.
Qed.

Lemma view_records_exact store src rows h :
  recorded (source_read store src) rows → selects rows (length rows) h → NoDup (rr_key <$> rows) →
  view_records store {| v_source := Some src; v_head := h |} = Ok <$> rows.
Proof.
  intros Hrec Hsel Hnd. destruct (selects_count _ _ _ Hsel) as [Hc _]. unfold view_records. cbn [v_head]. rewrite Hc, Nat2N.id.
  apply list_eq. intros i. rewrite !list_lookup_fmap. destruct (rows !! i) as [r|] eqn:Hi.
  - rewrite lookup_seq_lt by (by eapply lookup_lt_Some). cbn [fmap option_fmap option_map].
    rewrite (view_row_exact _ _ _ _ _ Hrec Hsel Hnd). unfold row_at. rewrite (proj2 (N.eqb_neq _ _)) by lia.
    replace (N.to_nat (N.of_nat (1 + i) - 1)) with i by lia. by rewrite Hi.
  - rewrite lookup_seq_ge; [done|]. by apply lookup_ge_None.
Qed.
End exact.

(** ** Publication *)

Lemma source_read_insert store src k v k' :
  source_durable src = true → source_read store src k = None →
  source_read (<[k := v]> store) src k' = if decide (k = k') then Some v else source_read store src k'.
Proof.
  induction src as [|table|rows base IH]; cbn; [|done|].
  - intros _ _. case_decide as Hk; [subst; by rewrite lookup_insert_eq|by rewrite lookup_insert_ne].
  - intros Hd Hr. destruct (rows !! k) as [x|] eqn:Hk; [done|].
    rewrite (IH Hd Hr). case_decide as Heq; [subst; by rewrite Hk|done].
Qed.

Section publication.
Context `{Sha256} `{FromSlice Ordinal} `{FromSlice ReceiptRow} `{!Sha256Hex}.
Context (tenant origin : string).
#[local] Opaque N.to_nat.

(** Adding the pair of the next row. *)
Lemma recorded_snoc store src rows row h :
  source_durable src = true → recorded tenant (source_read store src) rows → row_ok tenant row →
  chain_head tenant origin (rows ++ [row]) = Ok h → find_row (rr_key row) rows = None →
  recorded tenant (source_read (<[ordinal_key (rr_ordinal row) := to_json (index_of row)]>
    (<[id_key (rr_key row) := to_json row]> store)) src) (rows ++ [row]).
Proof.
  intros Hd [Hp Ho Hr] Hok Hh Hf.
  destruct (chain_head_facts _ _ _ _ Hh) as (_ & Hmax & _ & _ & [Hn|(rows' & r & h0 & Heq & _ & _ & _ & _ & Hord & _)]).
  { by destruct rows. }
  apply app_inj_tail in Heq as [<- <-]. unfold len in Hord, Hmax. rewrite length_app in Hord, Hmax.
  cbn [length] in Hord, Hmax.
  assert (Hid : source_read store src (id_key (rr_key row)) = None) by (by rewrite Hp, Hf).
  assert (Hor : source_read (<[id_key (rr_key row) := to_json row]> store) src
    (ordinal_key (rr_ordinal row)) = None).
  { rewrite (source_read_insert _ _ _ _ _ Hd Hid), decide_False by done. rewrite Ho by lia.
    rewrite lookup_ge_None_2 by lia. done. }
  split.
  - intros key. rewrite (source_read_insert _ _ _ _ _ Hd Hor), decide_False by done.
    rewrite (source_read_insert _ _ _ _ _ Hd Hid), find_row_app. case_decide as Hk.
    + apply id_key_inj in Hk as <-. rewrite Hf. by rewrite bool_decide_true.
    + rewrite Hp. destruct (find_row key rows); [done|]. rewrite bool_decide_false; [done|].
      intros <-. by apply Hk.
  - intros n Hn Hle. rewrite (source_read_insert _ _ _ _ _ Hd Hor). case_decide as Hk.
    + apply ordinal_key_inj in Hk as <-; [|lia..]. rewrite Hord.
      replace (N.to_nat (N.of_nat (length rows + 1) - 1)) with (length rows + 0)%nat by lia.
      rewrite lookup_app_r by lia. replace (length rows + 0 - length rows)%nat with O by lia. done.
    + rewrite (source_read_insert _ _ _ _ _ Hd Hid), decide_False by done. rewrite Ho by done.
      destruct (decide (N.to_nat (n - 1) < length rows)%nat) as [Hlt|Hge].
      * by rewrite lookup_app_l.
      * assert (Hne : n ≠ rr_ordinal row) by (intros ->; by apply Hk).
        rewrite !lookup_ge_None_2 by (rewrite ?length_app; cbn [length]; lia). done.
  - by apply Forall_app_2; [|apply Forall_singleton].
Qed.

Lemma row_pair_Ok row h rows :
  chain_head tenant origin (rows ++ [row]) = Ok h →
  row_pair row = Ok ((id_key (rr_key row), to_json row),
                     (ordinal_key (rr_ordinal row), to_json (index_of row))).
Proof.
  intros (h0 & n & _ & _ & (_ & _ & _ & _ & _ & Hs & _)%advance_framed_Ok)%chain_head_snoc.
  unfold row_pair. by rewrite Hs, bind_Ok_l.
Qed.

Lemma selects_top rows h : chain_head tenant origin rows = Ok h → selects tenant origin rows (length rows) h.
Proof. intros Hh. split; [done|]. rewrite take_ge by done. eauto. Qed.

(** The check of the head after a publication passes. *)
Lemma check_head_exact store src rows k h :
  recorded tenant (source_read store src) rows → selects tenant origin rows k h → (0 < k)%nat →
  validate_name origin = Ok tt → 0 < mr_encoded_bytes h → 0 < mr_last_applied_revision h →
  check_head store {| v_source := Some src; v_head := h |} tenant = Ok tt.
Proof.
  intros Hrec Hsel Hk Hn Hb Hl. destruct (selects_count _ _ _ _ _ Hsel) as [Hc Ho].
  destruct (root_exact _ _ _ _ _ _ _ Hrec Hsel Hk) as (root & Hroot & Hrs & _).
  destruct Hsel as (_ & Hh & _). apply chain_head_facts in Hh as (_ & _ & _ & (x & Hx) & _).
  unfold check_head, check_head_metadata. cbn [v_head]. apply seq_Ok. split.
  - rewrite Ho, Hc. apply seq_Ok. split; [by apply any_Ok|]. apply seq_Ok. split.
    { apply demand_Ok. rewrite Hx. apply sha256_hex_digest. }
    rewrite (proj2 (N.eqb_neq _ _)) by lia. apply demand_Ok, andb_true_iff. by rewrite !N.ltb_lt.
  - rewrite Hc, (proj2 (N.ltb_lt _ _)) by lia. rewrite Hc in Hroot. rewrite Hroot, bind_Ok_l.
    by apply demand_Ok, bool_decide_eq_true.
Qed.
End publication.

(** What a validated row guarantees to its readers. *)
Lemma validate_receipt_facts `{Sha256} r s n :
  validate_receipt r s = Ok n →
  framed_receipt r = Ok n ∧ sc_tenant (r_scope (rr_receipt r)) = tenant s ∧
  digest (rr_key r) = true ∧ 0 < a_revision (rr_applied r).
Proof.
  unfold validate_receipt. intros (Hd%demand_Ok & Hr)%seq_Ok.
  rewrite !andb_true_iff in Hd. destruct Hd as [[_ Hk] _].
  apply bind_Ok in Hr as (b & Hb & Hr). apply seq_Ok in Hr as [Hid%any_Ok Hr].
  do 2 (apply seq_Ok in Hr as [_ Hr]). apply bind_Ok in Hr as (p & _ & Hr).
  apply seq_Ok in Hr as [_ Hr]. split_and!; [done| |done|].
  - unfold validate_identity in Hid. do 5 (apply seq_Ok in Hid as [_ Hid]).
    apply bind_Ok in Hid as (d & _ & Hid). apply reject_Ok in Hid as [Hg _].
    rewrite !orb_false_iff, !negb_false_iff, !bool_decide_eq_true in Hg. naive_solver.
  - unfold validate_original_position in Hb. apply seq_Ok in Hb as [Hv _].
    unfold validate_applied in Hv. apply seq_Ok in Hv as [_ Hv]. apply seq_Ok in Hv as [Hv%demand_Ok _].
    apply andb_true_iff in Hv as [Hv _]. by apply N.ltb_lt.
Qed.

Section publication_theorem.
Context `{Sha256} `{FromSlice Ordinal} `{FromSlice ReceiptRow} `{!Sha256Hex}.

(** The row of a prepared receipt extends the chain it was prepared on. *)
Lemma prepare_receipt_facts origin previous s receipt absent applied p rows :
  prepare_receipt previous s (Some (receipt, absent)) applied = Ok p →
  chain_head (tenant s) origin rows = Ok (v_head previous) →
  ∃ row, p_rows p = [row] ∧ p_previous p = previous ∧ rr_receipt row = receipt ∧
    rr_applied row = applied ∧ rr_key row = ab_key absent ∧
    chain_head (tenant s) origin (rows ++ [row]) = Ok (p_head p) ∧
    digest (rr_key row) = true ∧ sc_tenant (r_scope receipt) = tenant s ∧
    str_len (to_json row) ≤ MAX_ROW_BYTES ∧ 0 < mr_encoded_bytes (p_head p) ∧
    0 < mr_last_applied_revision (p_head p) ∧
    mr_encoded_bytes (p_head p) ≤ max_mutation_receipt_bytes (limits s).
Proof.
  unfold prepare_receipt. intros (_ & Hp)%seq_Ok Hh.
  apply bind_Ok in Hp as (d & _ & Hp). apply seq_Ok in Hp as [Hab%demand_Ok Hp].
  rewrite andb_true_iff, !bool_decide_eq_true in Hab. destruct Hab as [Hab _].
  apply bind_Ok in Hp as (n & _ & Hp). apply bind_Ok in Hp as (fb & Hv & Hp).
  apply bind_Ok in Hp as (h' & Ha & Hp). apply seq_Ok in Hp as [Hq%demand_Ok%N.leb_le [= <-]].
  destruct (validate_receipt_facts _ _ _ Hv) as (Hfr & Ht & Hk & Hrev). cbn in *.
  eexists. split; [reflexivity|]. cbn. split_and!; try done.
  - apply chain_head_snoc. by exists (v_head previous), fb.
  - by eapply framed_receipt_size.
  - apply advance_framed_Ok in Ha as (_ & _ & _ & _ & _ & _ & ->). cbn.
    unfold framed_receipt in Hfr. apply bind_Ok in Hfr as (m & _ & Hfr).
    apply seq_Ok in Hfr as [_ [-> _]%context_or_Ok%checked_add_Some]. unfold FRAME_HEADER_BYTES. lia.
  - by apply advance_framed_Ok in Ha as (_ & _ & _ & _ & _ & _ & ->).
Qed.

Lemma chain_head_origin tenant origin rows h :
  chain_head tenant origin rows = Ok h → validate_name origin = Ok tt.
Proof.
  intros (h0 & Hh%any_Ok & _)%bind_Ok. unfold mutation_receipt_head_empty in Hh.
  apply seq_Ok in Hh as [_ Hh]. by apply seq_Ok in Hh as [Hh _].
Qed.

(** Publishing the row of a new identity on an exact store. *)
Lemma stage_new store src rows h s origin p row :
  recorded (tenant s) (source_read store src) rows → source_durable src = true →
  (match src with Staged _ => False | _ => True end) →
  p_rows p = [row] → p_previous p = {| v_source := Some src; v_head := h |} →
  chain_head (tenant s) origin (rows ++ [row]) = Ok (p_head p) → row_ok (tenant s) row →
  0 < mr_encoded_bytes (p_head p) → 0 < mr_last_applied_revision (p_head p) →
  find_row (rr_key row) rows = None →
  ∃ store', stage_receipts p store = (store', Ok {| v_source := Some src; v_head := p_head p |}) ∧
    recorded (tenant s) (source_read store' src) (rows ++ [row]).
Proof.
  intros Hrec Hd Hns Hrows Hprev Hh Hok Hb Hl Hf.
  pose proof (recorded_snoc (tenant s) origin store src rows row _ Hd Hrec Hok Hh Hf) as Hrec'.
  eexists. split; [|exact Hrec']. unfold stage_receipts. rewrite Hrows, Hprev. cbn [v_source].
  rewrite (st_bind_lift _ _ _ src) by done.
  rewrite (st_bind_lift _ _ _ tt) by (destruct src; [by rewrite Hd|done|by rewrite Hd]).
  rewrite (st_bind_run _ _ _ (<[ordinal_key (rr_ordinal row) := to_json (index_of row)]>
    (<[id_key (rr_key row) := to_json row]> store)) tt).
  - rewrite st_bind_get. rewrite (st_bind_lift _ _ _ tt); [done|].
    destruct Hok as (_ & -> & _).
    apply (check_head_exact _ origin _ _ (rows ++ [row]) (length (rows ++ [row]))); try done.
    + by apply selects_top.
    + rewrite length_app. cbn [length]. lia.
    + by eapply chain_head_origin.
  - rewrite st_fold_cons. rewrite (st_bind_run _ _ _ (<[ordinal_key (rr_ordinal row) := to_json (index_of row)]>
      (<[id_key (rr_key row) := to_json row]> store)) tt); [done|].
    unfold stage_row. rewrite st_bind_get. rewrite (st_bind_lift _ _ _ _ (row_pair_Ok _ _ _ _ _ Hh)).
    cbn [fst snd]. assert (Hid : source_read store src (id_key (rr_key row)) = None)
      by (by rewrite (recorded_points _ _ _ Hrec), Hf).
    assert (Hor : source_read store src (ordinal_key (rr_ordinal row)) = None).
    { destruct (chain_head_facts _ _ _ _ Hh) as (_ & Hmax & _ & _ & [Hn|(rows' & r & h0 & Heq & _ & _ & _ & _ & Hord & _)]);
        [by destruct rows|]. apply app_inj_tail in Heq as [<- <-].
      unfold len in Hord, Hmax. rewrite length_app in Hord, Hmax. cbn [length] in Hord, Hmax.
      rewrite (recorded_ordinals _ _ _ Hrec), lookup_ge_None_2 by lia. done. }
    rewrite (st_bind_lift _ _ _ None) by (unfold source_get; by rewrite Hid).
    rewrite (st_bind_lift _ _ _ None) by (unfold source_get; by rewrite Hor). done.
Qed.

(** Publishing it again changes nothing and selects the same view. *)
Lemma stage_again store src rows h s origin p row :
  recorded (tenant s) (source_read store src) (rows ++ [row]) → source_durable src = true →
  (match src with Staged _ => False | _ => True end) →
  p_rows p = [row] → p_previous p = {| v_source := Some src; v_head := h |} →
  chain_head (tenant s) origin (rows ++ [row]) = Ok (p_head p) →
  0 < mr_encoded_bytes (p_head p) → 0 < mr_last_applied_revision (p_head p) →
  find_row (rr_key row) rows = None →
  stage_receipts p store = (store, Ok {| v_source := Some src; v_head := p_head p |}).
Proof.
  intros Hrec Hd Hns Hrows Hprev Hh Hb Hl Hf.
  assert (Hlast : (rows ++ [row]) !! length rows = Some row)
    by (by apply list_lookup_middle). pose proof (Forall_lookup_1 _ _ _ _ (recorded_rows _ _ _ Hrec) Hlast) as Hok.
  unfold stage_receipts. rewrite Hrows, Hprev. cbn [v_source].
  rewrite (st_bind_lift _ _ _ src) by done.
  rewrite (st_bind_lift _ _ _ tt) by (destruct src; [by rewrite Hd|done|by rewrite Hd]).
  rewrite (st_bind_run _ _ _ store tt).
  - rewrite st_bind_get. rewrite (st_bind_lift _ _ _ tt); [done|].
    destruct Hok as (_ & -> & _).
    apply (check_head_exact _ origin _ _ (rows ++ [row]) (length (rows ++ [row]))); try done.
    + by apply selects_top.
    + rewrite length_app. cbn [length]. lia.
    + by eapply chain_head_origin.
  - rewrite st_fold_cons. rewrite (st_bind_run _ _ _ store tt); [done|].
    unfold stage_row. rewrite st_bind_get. rewrite (st_bind_lift _ _ _ _ (row_pair_Ok _ _ _ _ _ Hh)).
    cbn [fst snd].
    assert (Hfr : find_row (rr_key row) (rows ++ [row]) = Some row)
      by (rewrite find_row_app, Hf; by rewrite bool_decide_true).
    rewrite (st_bind_lift _ _ _ _ (source_get_row _ _ _ _ _ _ Hrec Hfr)).
    destruct (chain_head_lookup _ _ _ _ _ _ Hh Hlast) as (h' & _ & Hord & Hmax & _ & Hs).
    rewrite (st_bind_lift _ _ _ (Some (to_json (index_of row)))).
    + rewrite !bool_decide_true by done. done.
    + unfold source_get. rewrite (recorded_ordinals _ _ _ Hrec) by lia. rewrite Hord.
      replace (N.to_nat (N.of_nat (length rows) + 1 - 1)) with (length rows) by lia. rewrite Hlast.
      cbn [fmap option_fmap option_map]. apply seq_Ok. split; [|done]. apply demand_Ok, N.leb_le.
      apply index_size; [by destruct Hok|by apply sha_of_digest].
Qed.
End publication_theorem.

(** ** Rebuilt histories *)

(** The pairs of a list of rows, written in order. *)
Definition write_pairs `{Sha256} (m : gmap string string) (rows : list ReceiptRow) : gmap string string :=
  foldl (λ m r, <[ordinal_key (rr_ordinal r) := to_json (index_of r)]>
    (<[id_key (rr_key r) := to_json r]> m)) m rows.

Definition bd_content (b : Builder) : gmap string string := from_option tb_writes ∅ (bd_batch b) ∪ bd_table b.

(** The counters of the builder are those of its open batch. *)
Record staging (b : Builder) (t : TableBatch) : Prop := {
  sg_batch : bd_batch b = Some t;
  sg_bytes : tb_bytes t = bd_bytes b;
  sg_entries : tb_entries t = 2 * bd_rows b;
  sg_rows : bd_rows b ≤ BATCH_ROWS;
  sg_usable : tb_failed t = false;
}.

Lemma table_insert_Ok table key v t t' :
  table_insert table key v t = (t', Ok tt) ↔
  tb_failed t = false ∧ str_len key ≤ 4096 ∧ str_len v ≤ 33554432 ∧ tb_bytes t + str_len key + str_len v ≤ MAX_BATCH_BYTES ∧
  tb_entries t < MAX_BATCH_ENTRIES ∧ (tb_writes t ∪ table) !! key = None ∧
  t' = {| tb_writes := <[key := v]> (tb_writes t); tb_bytes := tb_bytes t + str_len key + str_len v;
          tb_entries := tb_entries t + 1; tb_failed := false |}.
Proof.
  unfold table_insert. rewrite st_bind_get. split.
  - intros (t0 & [] & [-> Hf%demand_Ok%negb_true_iff]%st_lift_Ok & Hp)%st_bind_Ok. rewrite st_bind_modify in Hp.
    apply st_bind_Ok in Hp as (t1 & [] & [-> Hl%demand_Ok]%st_lift_Ok & Hp).
    apply st_bind_Ok in Hp as (t2 & n & [-> Hn%context_or_Ok]%st_lift_Ok & Hp).
    apply bind_Some in Hn as (m & [-> _]%checked_add_Some & [-> _]%checked_add_Some).
    apply st_bind_Ok in Hp as (t3 & [] & [-> Hc%demand_Ok]%st_lift_Ok & Hp). rewrite st_bind_modify in Hp.
    apply st_bind_Ok in Hp as (t4 & [] & [-> Hd%demand_Ok%bool_decide_eq_true]%st_lift_Ok & [= <-]).
    rewrite andb_true_iff, !N.leb_le in Hl. rewrite andb_true_iff, N.leb_le, N.ltb_lt in Hc. by destruct Hl, Hc.
  - intros (Hf & Hk & Hv & Hb & He & Hd & ->). unfold MAX_BATCH_BYTES in *. change (N.shiftl 4 20) with 4194304 in *.
    rewrite (st_bind_lift _ _ _ tt) by (by rewrite Hf). rewrite st_bind_modify.
    rewrite (st_bind_lift _ _ _ tt) by (apply demand_Ok, andb_true_iff; by rewrite !N.leb_le).
    rewrite (st_bind_lift _ _ _ (tb_bytes t + str_len key + str_len v)).
    2:{ apply context_or_Ok, bind_Some. exists (tb_bytes t + str_len key). rewrite !checked_add_Some. unfold u64_max. lia. }
    rewrite (st_bind_lift _ _ _ tt) by (apply demand_Ok, andb_true_iff; by rewrite N.leb_le, N.ltb_lt).
    rewrite st_bind_modify. rewrite (st_bind_lift _ _ _ tt) by (by apply demand_Ok, bool_decide_eq_true). done.
Qed.

(** A write through the builder is a write of a fresh key. *)
Lemma insert_staged_Ok key v b b' :
  insert_staged key v b = (b', Ok tt) →
  ∃ t t', bd_batch b = Some t ∧ table_insert (bd_table b) key v t = (t', Ok tt) ∧ b' = set_bd_batch (Some t') b ∧
    bd_content b !! key = None ∧ bd_content b' = <[key := v]> (bd_content b).
Proof.
  unfold insert_staged. destruct (bd_batch b) as [t|] eqn:Hb; [|done].
  destruct (table_insert (bd_table b) key v t) as [t' r] eqn:Ht. intros [= <- ->]. exists t, t'. split_and!; try done.
  - apply table_insert_Ok in Ht as (_ & _ & _ & _ & _ & Hd & _). unfold bd_content. by rewrite Hb.
  - apply table_insert_Ok in Ht as (_ & _ & _ & _ & _ & _ & ->). unfold bd_content. rewrite Hb. cbn. by rewrite insert_union_l.
Qed.

Lemma commit_batch_Ok n b b' :
  commit_batch n b = (b', Ok tt) →
  bd_content b' = bd_content b ∧ bd_head b' = bd_head b ∧ bd_failed b' = bd_failed b ∧ staging b' begin_batch ∧ bd_bytes b' = 0 ∧
  bd_rows b' = 0.
Proof.
  unfold commit_batch. destruct (bd_batch b) as [t|] eqn:Hb; [|done]. unfold table_commit, bd_content. rewrite Hb.
  destruct (tb_failed t); intros [= <-]. cbn. split_and!; [apply (left_id_L ∅ (∪))|done|done| |done|done]. by split.
Qed.

Section rebuild.
Context `{Sha256}.

(** A batch with room for the pair of a row. *)
Lemma make_room n bytes b t :
  staging b t → bytes ≤ BATCH_BYTES →
  ∃ b' t', (if batch_full b bytes then commit_batch n else mret tt) b = (b', Ok tt) ∧ staging b' t' ∧
    bd_content b' = bd_content b ∧ bd_head b' = bd_head b ∧ bd_failed b' = bd_failed b ∧
    bd_bytes b' + bytes ≤ BATCH_BYTES ∧ bd_rows b' < BATCH_ROWS.
Proof.
  intros Hs Hb. pose proof Hs as [Ht Hby He Hr Hu]. destruct (batch_full b bytes) eqn:Hf.
  - assert (Hc : ∃ b', commit_batch n b = (b', Ok tt)).
    { unfold commit_batch, table_commit. rewrite Ht, Hu. eauto. }
    destruct Hc as [b' Hc]. pose proof (commit_batch_Ok _ _ _ Hc) as (H1 & H2 & H3 & H4 & H5 & H6).
    exists b', begin_batch. rewrite H5, H6. unfold BATCH_ROWS, MAX_BATCH_ENTRIES. split_and!; try done.
  - exists b, t. unfold batch_full in Hf. apply orb_false_iff in Hf as [Hrow%N.eqb_neq Hbytes].
    destruct (checked_add (bd_bytes b) bytes) as [total|] eqn:Htot; [|done]. apply checked_add_Some in Htot as [-> _].
    apply N.ltb_ge in Hbytes. split_and!; try done. lia.
Qed.

(** A pushed row is validated, extends the chain, its identity and ordinal are
    new and its pair is written. *)
Lemma push_row_Ok row s b b' :
  push_row row s b = (b', Ok tt) →
  bd_failed b' = false ∧ (∃ n, framed_receipt row = Ok n ∧ advance_framed (bd_head b) row n = Ok (bd_head b')) ∧
  sc_tenant (r_scope (rr_receipt row)) = tenant s ∧ digest (rr_key row) = true ∧
  bd_content b !! id_key (rr_key row) = None ∧
  bd_content b' = <[ordinal_key (rr_ordinal row) := to_json (index_of row)]>
    (<[id_key (rr_key row) := to_json row]> (bd_content b)).
Proof.
  unfold push_row. rewrite st_bind_get. intros (b0 & [] & [-> _]%st_lift_Ok & Hp)%st_bind_Ok.
  rewrite st_bind_modify in Hp. apply st_bind_Ok in Hp as (b1 & n & [-> Hv]%st_lift_Ok & Hp).
  apply st_bind_Ok in Hp as (b2 & h & [-> Ha]%st_lift_Ok & Hp). rewrite st_bind_modify in Hp.
  apply st_bind_Ok in Hp as (b3 & sha & [-> Hs]%st_lift_Ok & Hp).
  apply st_bind_Ok in Hp as (b4 & bytes & [-> _]%st_lift_Ok & Hp).
  apply st_bind_Ok in Hp as (b5 & [] & [-> _]%st_lift_Ok & Hp). rewrite st_bind_get in Hp.
  apply st_bind_Ok in Hp as (b6 & [] & Hroom & Hp).
  apply st_bind_Ok in Hp as (b7 & [] & (t & t1 & _ & _ & -> & Hfresh & Hc1)%insert_staged_Ok & Hp).
  apply st_bind_Ok in Hp as (b8 & [] & (t2 & t3 & _ & _ & -> & _ & Hc2)%insert_staged_Ok & Hp).
  rewrite st_bind_modify in Hp. injection Hp as <-.
  destruct (validate_receipt_facts _ _ _ Hv) as (Hfr & Ht & Hk & _).
  assert (H6 : bd_content b6 = bd_content b ∧ bd_head b6 = h).
  { destruct (batch_full _ _); [|by injection Hroom as <-]. by apply commit_batch_Ok in Hroom as (-> & -> & _). }
  destruct H6 as [H6 H6h]. rewrite H6 in *. split_and!; try done.
  - exists n. split; [done|]. cbn. by rewrite H6h.
  - change (bd_content (set_bd_batch (Some t3) (set_bd_batch (Some t1) b6)) = <[ordinal_key (rr_ordinal row) := to_json (index_of row)]>
      (<[id_key (rr_key row) := to_json row]> (bd_content b))).
    rewrite Hc2, Hc1. unfold index_of. by rewrite (sha_of_Ok _ _ Hs).
Qed.

(** A stream of pushed rows is a chain of distinct identities. *)
Lemma push_rows_Ok rows s : ∀ b b',
  st_fold (λ _ row, push_row row s) tt rows b = (b', Ok tt) → bd_failed b = false →
  bd_failed b' = false ∧ try_fold advance (bd_head b) rows = Ok (bd_head b') ∧
  Forall (λ r, sc_tenant (r_scope (rr_receipt r)) = tenant s ∧ digest (rr_key r) = true ∧
               str_len (to_json r) ≤ MAX_ROW_BYTES) rows ∧
  NoDup (rr_key <$> rows) ∧ (∀ r, r ∈ rows → bd_content b !! id_key (rr_key r) = None) ∧
  bd_content b' = write_pairs (bd_content b) rows.
Proof.
  induction rows as [|r rows IH]; intros b b' Hf Hb.
  { injection Hf as <-. split_and!; try done; [apply NoDup_nil_2|]. intros r Hr. by apply elem_of_nil in Hr. }
  rewrite st_fold_cons in Hf. apply st_bind_Ok in Hf as (b1 & [] & H1 & Hf).
  apply push_row_Ok in H1 as (Hb1 & (n & Hn & Ha) & Ht & Hk & Hnew & Hc).
  apply IH in Hf as (Hb' & Hfold & Hall & Hnd & Hfresh & Hc'); [|done].
  assert (Hadv : advance (bd_head b) r = Ok (bd_head b1)) by (unfold advance; by rewrite Hn, bind_Ok_l).
  rewrite try_fold_cons, Hadv, bind_Ok_l. rewrite Hc in Hfresh. split_and!; try done.
  - constructor; [|done]. split_and!; [done..|by eapply framed_receipt_size].
  - rewrite fmap_cons. apply NoDup_cons. split; [|done]. intros (x & Hx & Hin)%list_elem_of_fmap.
    specialize (Hfresh x Hin). rewrite <-Hx in Hfresh.
    rewrite lookup_insert_ne, lookup_insert_eq in Hfresh; [done|]. apply not_eq_sym, id_key_ordinal.
  - intros x [->|Hin]%elem_of_cons; [done|]. specialize (Hfresh x Hin).
    rewrite lookup_insert_ne in Hfresh by apply not_eq_sym, id_key_ordinal. by apply lookup_insert_None in Hfresh as [? _].
  - unfold write_pairs. cbn [foldl]. by rewrite <-Hc.
Qed.

Lemma sha_of_inj r r' :
  receipt_sha256 r = Ok (sha_of r) → receipt_sha256 r' = Ok (sha_of r') → sha_of r = sha_of r' →
  no_collision (to_json ("kasumi.mutation-receipt-row.v1", r)) (to_json ("kasumi.mutation-receipt-row.v1", r')) →
  to_json r = to_json r'.
Proof.
  intros [Hs _]%receipt_sha256_Ok [Hs' _]%receipt_sha256_Ok Heq Hnc. rewrite Hs, Hs' in Heq.
  apply Hnc in Heq. by apply tagged_inj in Heq.
Qed.

(** Two chains with the same root and count are the same chain. *)
Lemma chain_unique `{FromSlice ReceiptRow} tenant origin : ∀ rows l h h',
  chain_head tenant origin rows = Ok h → chain_head tenant origin l = Ok h' →
  mr_count h = mr_count h' → mr_sha256 h = mr_sha256 h' →
  Forall readable rows → Forall readable l →
  (∀ r r', r ∈ rows → r' ∈ l →
     no_collision (to_json ("kasumi.mutation-receipt-row.v1", r))
                  (to_json ("kasumi.mutation-receipt-row.v1", r'))) → rows = l.
Proof.
  induction rows as [|r rows IH] using rev_ind; intros l h h' Hh Hh' Hc Hs Hr Hl Hnc.
  - apply chain_head_facts in Hh as (Hn & _), Hh' as (Hn' & _). unfold len in *.
    destruct l; [done|]. cbn [length] in *. lia.
  - destruct l as [|r' l _] using rev_ind.
    { apply chain_head_facts in Hh as (Hn & _), Hh' as (Hn' & _). unfold len in *.
      rewrite length_app in Hn. cbn [length] in *. lia. }
    apply chain_head_snoc in Hh as (h0 & n & Hh0 & _ & (Ho & _ & Hp & _ & _ & Hsr & ->)%advance_framed_Ok).
    apply chain_head_snoc in Hh' as (h0' & n' & Hh0' & _ & (Ho' & _ & Hp' & _ & _ & Hsr' & ->)%advance_framed_Ok).
    cbn in Hc, Hs. apply Forall_app in Hr as [Hr Hr1], Hl as [Hl Hl1].
    rewrite Forall_singleton in Hr1, Hl1. unfold readable in Hr1, Hl1.
    assert (Hrow : r = r').
    { assert (Hj : to_json r = to_json r').
      { apply sha_of_inj; [done..|]. apply Hnc; apply elem_of_app; right; by left. }
      rewrite Hj in Hr1. congruence. }
    subst r'. f_equal. eapply IH; try done; [lia|congruence|].
    intros x x' Hx Hx'. apply Hnc; apply elem_of_app; by left.
Qed.
End rebuild.

Section rebuilt.
Context `{Sha256} `{FromSlice Ordinal} `{FromSlice ReceiptRow} `{!Sha256Hex}.
Context (tenant origin : string).

Lemma recorded_nil : recorded tenant (λ k, (∅ : gmap string string) !! k) [].
Proof. split; [done|done|constructor]. Qed.

(** The pairs of a chain with distinct identities. *)
Lemma recorded_fold rows h :
  chain_head tenant origin rows = Ok h → NoDup (rr_key <$> rows) → Forall (row_ok tenant) rows →
  recorded tenant (λ k, write_pairs ∅ rows !! k) rows.
Proof.
  revert h. induction rows as [|r rows IH] using rev_ind; intros h Hh Hnd Hok; [apply recorded_nil|].
  rewrite fmap_app in Hnd. apply NoDup_app in Hnd as (Hnd & Hdis & _).
  apply Forall_app in Hok as [Hok Hr]. rewrite Forall_singleton in Hr.
  pose proof (proj1 (chain_head_snoc _ _ _ _ _) Hh) as (h0 & n & Hh0 & _).
  unfold write_pairs. rewrite foldl_app. cbn [foldl].
  apply (recorded_snoc tenant origin _ Durable rows r h); [done|by eapply IH|done|done|].
  apply find_row_None. intros x Hx Heq. apply (Hdis (rr_key x)); [by apply list_elem_of_fmap_2|].
  rewrite Heq. by left.
Qed.
End rebuilt.

(** A verified builder becomes a view of what it staged. *)
Lemma finish_builder_Ok b expected v :
  finish_builder b expected = Ok v →
  bd_head b = expected ∧ v = {| v_source := Some (Staged (bd_content b)); v_head := expected |}.
Proof.
  unfold finish_builder. intros [_ Hf]%seq_Ok. apply seq_Ok in Hf as [<-%demand_Ok%bool_decide_eq_true Hf].
  apply bind_Ok in Hf as (t & Ht%context_or_Ok & Hf). apply bind_Ok in Hf as (table & Htab%map_err_Ok & [= <-]).
  apply seq_Ok in Htab as [_ [= <-]]. split; [done|]. unfold bd_content. by rewrite Ht.
Qed.

Lemma finish_builder_accepts b t :
  staging b t → bd_failed b = false → ∃ v, finish_builder b (bd_head b) = Ok v.
Proof.
  intros [Ht _ _ _ Hu] Hf. unfold finish_builder, table_commit. rewrite Hf, Ht, bool_decide_true by done. cbn. rewrite Hu. eauto.
Qed.

Section accepting.
Context `{Sha256} `{FromSlice Ordinal} `{FromSlice ReceiptRow} `{!Sha256Hex}.
Context (s : TenantState).

Lemma key_sizes key n : digest key = true → str_len (id_key key) = 67 ∧ str_len (ordinal_key n) = 16.
Proof. intros Hk%digest_len. unfold id_key, ordinal_key. rewrite !str_len_app, Hk, be_bytes_len. done. Qed.

(** A valid next row with a new identity is accepted. *)
Lemma push_row_accepts row b t n h :
  staging b t → bd_failed b = false → validate_receipt row s = Ok n → advance_framed (bd_head b) row n = Ok h →
  bd_content b !! id_key (rr_key row) = None → bd_content b !! ordinal_key (rr_ordinal row) = None →
  ∃ b' t', push_row row s b = (b', Ok tt) ∧ staging b' t'.
Proof.
  intros Hs Hf Hv Ha Hid Hord. destruct (validate_receipt_facts _ _ _ Hv) as (Hfr & _ & Hk & _).
  pose proof (framed_receipt_size _ _ Hfr) as Hrow. pose proof (key_sizes (rr_key row) (rr_ordinal row) Hk) as [Hl1 Hl2].
  pose proof Ha as (_ & _ & _ & _ & _ & Hsha & _)%advance_framed_Ok.
  assert (Hix : str_len (to_json (index_of row)) ≤ 1024) by (apply index_small; [done|by apply sha_of_digest]).
  change MAX_ROW_BYTES with 2097152 in Hrow. set (b1 := set_bd_head h (set_failed true b)).
  set (bytes := str_len (id_key (rr_key row)) + str_len (ordinal_key (rr_ordinal row)) + str_len (to_json row) +
                str_len (to_json (index_of row))).
  assert (Hbytes : bytes ≤ BATCH_BYTES) by (change BATCH_BYTES with 4194304; lia).
  assert (Hs1 : staging b1 t) by (by destruct Hs).
  destruct (make_room (rr_ordinal row) bytes b1 t Hs1 Hbytes) as (b2 & t2 & Hroom & [Hq1 Hq2 Hq3 Hq4 Hq5] & Hc & _ & _ & Hb2 & Hr2).
  change (bd_content b1) with (bd_content b) in Hc. unfold bd_content at 1 in Hc. rewrite Hq1 in Hc. cbn [from_option] in Hc.
  change BATCH_ROWS with 8 in *. change BATCH_BYTES with 4194304 in *.
  assert (Hi1 : ∃ t3, table_insert (bd_table b2) (id_key (rr_key row)) (to_json row) t2 = (t3, Ok tt)).
  { eexists. apply table_insert_Ok. change MAX_BATCH_BYTES with 4194304. change MAX_BATCH_ENTRIES with 16.
    rewrite Hc. split_and!; try done; lia. }
  destruct Hi1 as [t3 Hi1]. pose proof (proj1 (table_insert_Ok _ _ _ _ _) Hi1) as (_ & _ & _ & _ & _ & _ & Ht3).
  assert (Hi2 : ∃ t4, table_insert (bd_table b2) (ordinal_key (rr_ordinal row)) (to_json (index_of row)) t3 = (t4, Ok tt)).
  { eexists. apply table_insert_Ok. change MAX_BATCH_BYTES with 4194304. change MAX_BATCH_ENTRIES with 16.
    subst t3. cbn [tb_writes tb_bytes tb_entries tb_failed]. rewrite <-insert_union_l, Hc.
    rewrite lookup_insert_ne by apply id_key_ordinal. split_and!; try done; lia. }
  destruct Hi2 as [t4 Hi2]. pose proof (proj1 (table_insert_Ok _ _ _ _ _) Hi2) as (_ & _ & _ & _ & _ & _ & Ht4).
  exists (set_failed false (count_row bytes (set_bd_batch (Some t4) (set_bd_batch (Some t3) b2)))), t4. split.
  - unfold push_row. rewrite st_bind_get. rewrite (st_bind_lift _ _ _ tt) by (by rewrite Hf). rewrite st_bind_modify.
    rewrite (st_bind_lift _ _ _ n Hv), (st_bind_lift _ _ _ h Ha), st_bind_modify, (st_bind_lift _ _ _ _ Hsha).
    change {| o_key := rr_key row; o_sha256 := sha_of row |} with (index_of row).
    rewrite (st_bind_lift _ _ _ bytes).
    2:{ apply context_or_Ok, bind_Some. eexists. split; [apply checked_add_Some; split; [reflexivity|unfold u64_max; lia]|].
        apply bind_Some. eexists. split; [apply checked_add_Some; split; [reflexivity|unfold u64_max; lia]|].
        apply checked_add_Some. unfold u64_max. split; [done|lia]. }
    rewrite (st_bind_lift _ _ _ tt) by (by apply demand_Ok, N.leb_le). rewrite st_bind_get. fold b1.
    rewrite (st_bind_run _ _ _ _ _ Hroom).
    rewrite (st_bind_run _ _ _ (set_bd_batch (Some t3) b2) tt) by (unfold insert_staged; by rewrite Hq1, Hi1).
    rewrite (st_bind_run _ _ _ (set_bd_batch (Some t4) (set_bd_batch (Some t3) b2)) tt); [done|].
    unfold insert_staged. cbn [bd_batch set_bd_batch bd_table]. by rewrite Hi2.
  - subst t4 t3. split; cbn; try done; try lia. change BATCH_ROWS with 8. lia.
Qed.

(** Every valid history with distinct identities is accepted. *)
Lemma push_rows_accept origin rows2 : ∀ rows1 b t top,
  chain_head (tenant s) origin rows1 = Ok (bd_head b) → chain_head (tenant s) origin (rows1 ++ rows2) = Ok top →
  NoDup (rr_key <$> rows1 ++ rows2) → Forall (row_ok (tenant s)) (rows1 ++ rows2) →
  Forall (λ r, is_ok (validate_receipt r s) = true) rows2 →
  recorded (tenant s) (λ k, bd_content b !! k) rows1 → staging b t → bd_failed b = false →
  ∃ b' t', st_fold (λ _ row, push_row row s) tt rows2 b = (b', Ok tt) ∧ staging b' t' ∧ bd_failed b' = false ∧ bd_head b' = top.
Proof.
  induction rows2 as [|r rows2 IH]; intros rows1 b t top Hh Htop Hnd Hok Hval Hrec Hs Hf.
  { rewrite app_nil_r in Htop. exists b, t. split_and!; try done. congruence. }
  rewrite cons_middle, app_assoc in *. apply Forall_cons in Hval as [[n Hv]%is_ok_Ok Hval].
  destruct (chain_head_take _ _ _ _ (length (rows1 ++ [r])) Htop) as [h Hh1]. rewrite take_app_length in Hh1.
  pose proof (proj1 (chain_head_snoc _ _ _ _ _) Hh1) as (h0 & m & Hpre & Hm & Ha). assert (h0 = bd_head b) as -> by congruence.
  destruct (validate_receipt_facts _ _ _ Hv) as (Hfr & _). assert (m = n) as -> by congruence.
  rewrite fmap_app in Hnd. pose proof Hnd as (Hnd1 & _ & _)%NoDup_app. rewrite fmap_app in Hnd1.
  apply NoDup_app in Hnd1 as (_ & Hdis & _).
  assert (Hnone : find_row (rr_key r) rows1 = None).
  { apply find_row_None. intros x Hx Heq. apply (Hdis (rr_key x)); [by apply list_elem_of_fmap_2|]. rewrite Heq. by left. }
  pose proof (chain_head_lookup _ _ _ _ (length rows1) r Hh1) as (_ & _ & Hord & Hmax & _); [by apply list_lookup_middle|].
  destruct (push_row_accepts r b t n h Hs Hf Hv Ha) as (b1 & t1 & Hp & Hs1).
  { by rewrite (recorded_points _ _ _ Hrec), Hnone. }
  { rewrite (recorded_ordinals _ _ _ Hrec) by lia. rewrite lookup_ge_None_2; [done|lia]. }
  pose proof (push_row_Ok _ _ _ _ Hp) as (Hf1 & (n' & Hn' & Ha') & _ & _ & _ & Hc).
  assert (Hb1 : bd_head b1 = h) by congruence.
  destruct (IH (rows1 ++ [r]) b1 t1 top) as (b' & t' & Hfold & Hrest); try done; [by rewrite Hb1|by rewrite fmap_app| |].
  - rewrite Hc. apply Forall_app in Hok as [Hok1 _]. pose proof Hok1 as [_ Hr]%Forall_app. rewrite Forall_singleton in Hr.
    by apply (recorded_snoc (tenant s) origin _ Durable rows1 r h).
  - exists b', t'. split; [|done]. rewrite st_fold_cons. by rewrite (st_bind_run _ _ _ _ _ Hp).
Qed.
End accepting.

(** ** Paths *)

Lemma decode_escaped s : decode_chars (escape_segment s) = Ok s.
Proof.
  induction s as [|c s IH]; [done|]. cbn [escape_segment]. unfold escape_segment_char.
  case_bool_decide as H1; [|case_bool_decide as H2].
  - subst c. change ("~0" +:+ escape_segment s) with (String "~" (String "0" (escape_segment s))).
    cbn [decode_chars]. rewrite bool_decide_false, !bool_decide_true by done. by rewrite IH.
  - subst c. change ("~1" +:+ escape_segment s) with (String "~" (String "1" (escape_segment s))).
    cbn [decode_chars]. rewrite bool_decide_false, bool_decide_true by done.
    rewrite bool_decide_false, bool_decide_true by done. by rewrite IH.
  - change (String c "" +:+ escape_segment s) with (String c (escape_segment s)).
    cbn [decode_chars]. rewrite !bool_decide_false by done. by rewrite IH.
Qed.

Lemma split_escaped s rest :
  split_once (escape_segment s +:+ String "/" rest) = Some (escape_segment s, rest).
Proof.
  induction s as [|c s IH]; [done|]. cbn [escape_segment]. unfold escape_segment_char.
  case_bool_decide as H1; [|case_bool_decide as H2]; rewrite ?app_string_cons, ?app_string_nil;
    cbn [split_once]; rewrite ?bool_decide_false by done; by rewrite IH.
Qed.

Lemma escape_segment_len s : str_len (escape_segment s) ≤ 2 * str_len s.
Proof.
  induction s as [|c s IH]; [done|]. cbn [escape_segment]. rewrite str_len_app.
  assert (str_len (escape_segment_char c) ≤ 2)
    by (unfold escape_segment_char; repeat case_bool_decide; vm_compute; discriminate).
  unfold str_len in *. cbn [String.length]. lia.
Qed.

Lemma validate_name_len s : validate_name s = Ok tt → str_len s ≤ 256.
Proof.
  unfold validate_name. intros [Hg _]%reject_Ok. rewrite !orb_false_iff, N.ltb_ge in Hg. lia.
Qed.

(** ** Correctness *)

Section claims.
Context `{Sha256} `{FromSlice Ordinal} `{FromSlice ReceiptRow} `{!Sha256Hex}.

(** C17. Publishing a receipt is crash-safe and isolated: from a store that holds
    exactly a chain of rows, a receipt whose identity was looked up and found
    missing is published as one more row; publishing it again, as after a
    crash between the write and its acknowledgement, changes nothing and
    selects the same view; the new view finds exactly the old rows and the new
    one, and a reader of the old view sees what it saw before. *)
Theorem receipt_publication_crash_safe origin store rows head key s receipt absent applied p :
  chain_head (tenant s) origin rows = Ok head → recorded (tenant s) (source_read store Durable) rows →
  view_lookup store {| v_source := Some Durable; v_head := head |} key = Ok (Missing absent) →
  prepare_receipt {| v_source := Some Durable; v_head := head |} s (Some (receipt, absent)) applied = Ok p →
  (∀ row, row ∈ p_rows p → readable row ∧ readable (index_of row)) →
  ∃ row store' v', p_rows p = [row] ∧ rr_receipt row = receipt ∧ rr_key row = key ∧
    stage_receipts p store = (store', Ok v') ∧ stage_receipts p store' = (store', Ok v') ∧
    recorded (tenant s) (source_read store' Durable) (rows ++ [row]) ∧
    (∀ k, digest k = true → view_get store' v' k = Ok (find_row k (rows ++ [row]))) ∧
    (∀ k, digest k = true →
       view_get store' {| v_source := Some Durable; v_head := head |} k =
       view_get store {| v_source := Some Durable; v_head := head |} k).
Proof.
  intros Hh Hrec Hlook Hp Hread. apply bind_Ok in Hlook as (found & Hget & Hl).
  destruct found as [r|]; [done|]. injection Hl as <-.
  destruct (prepare_receipt_facts _ _ _ _ _ _ _ _ Hp Hh)
    as (row & Hrows & Hprev & Hrc & _ & Hkey & Hh' & Hd & Ht & Hsz & Hb & Hlast & _). cbn in Hkey.
  pose proof (selects_top _ _ _ _ Hh) as Hsel.
  assert (Hf : find_row (rr_key row) rows = None).
  { rewrite Hkey. rewrite Hkey in Hd. rewrite (view_get_exact _ _ _ _ _ _ _ _ Hrec Hsel Hd) in Hget.
    rewrite take_ge in Hget by done. by injection Hget. }
  assert (Hok : row_ok (tenant s) row).
  { destruct (Hread row) as [Hr1 Hr2]; [rewrite Hrows; by left|]. split_and!; try done. by rewrite Hrc. }
  destruct (stage_new store Durable rows head s origin p row Hrec eq_refl I Hrows Hprev Hh' Hok Hb Hlast Hf)
    as (store' & Hst & Hrec').
  exists row, store', {| v_source := Some Durable; v_head := p_head p |}. split_and!; try done.
  - by eapply stage_again.
  - intros k Hk. rewrite (view_get_exact _ _ _ _ _ _ _ _ Hrec' (selects_top _ _ _ _ Hh') Hk).
    by rewrite take_ge.
  - intros k Hk. assert (Hold : selects (tenant s) origin (rows ++ [row]) (length rows) head).
    { split; [rewrite length_app; lia|]. rewrite take_app_length. eauto. }
    rewrite (view_get_exact _ _ _ _ _ _ _ _ Hrec' Hold Hk), take_app_length.
    rewrite (view_get_exact _ _ _ _ _ _ _ _ Hrec Hsel Hk). by rewrite take_ge.
Qed.

(** C18. A restored receipt history is exactly the original one.  If a stream of
    rows is accepted row by row and its final head is the authenticated head of
    a history, then no two of its rows share an identity, the stream is that
    history, and the restored view answers every lookup by identity, every
    ordinal and the whole iteration as the original rows do, unless two distinct
    rows collide under SHA-256.  And the rows of every history of distinct
    identities that are valid for the state are accepted. *)
Theorem restored_receipts_exact origin rows stream s head b store :
  chain_head (tenant s) origin rows = Ok head → Forall (row_ok (tenant s)) rows →
  new_builder (tenant s) origin = Ok b → Forall readable stream →
  (∀ r r', r ∈ rows → r' ∈ stream →
     no_collision (to_json ("kasumi.mutation-receipt-row.v1", r))
                  (to_json ("kasumi.mutation-receipt-row.v1", r'))) →
  (∀ b' v, st_fold (λ _ row, push_row row s) tt stream b = (b', Ok tt) → finish_builder b' head = Ok v →
     NoDup (rr_key <$> stream) ∧ stream = rows ∧
     (∀ key, digest key = true → view_get store v key = Ok (find_row key rows)) ∧
     (∀ n, view_row store v n = context_or (row_at rows n) "receipt ordinal is outside selected generation") ∧
     view_records store v = Ok <$> rows) ∧
  (NoDup (rr_key <$> rows) → Forall (λ r, is_ok (validate_receipt r s) = true) rows →
     ∃ b' v, st_fold (λ _ row, push_row row s) tt rows b = (b', Ok tt) ∧ finish_builder b' head = Ok v).
Proof.
  intros Hh Hok Hnew Hread Hnc. unfold new_builder in Hnew. apply bind_Ok in Hnew as (h0 & Hh0 & [= <-]).
  assert (Hempty : (∅ : gmap string string) ∪ ∅ = ∅) by apply (left_id_L ∅ (∪)). split.
  - intros b' v Hpush (Hhead & ->)%finish_builder_Ok.
    apply push_rows_Ok in Hpush as (_ & Hfold & _ & Hnd & _ & Hcont); [|done]. cbn in Hfold.
    assert (Hs : chain_head (tenant s) origin stream = Ok head).
    { unfold chain_head. rewrite (proj2 (any_Ok _ _) Hh0), bind_Ok_l. by rewrite <-Hhead. }
    assert (Hrows : rows = stream).
    { eapply chain_unique; try done. eapply Forall_impl; [exact Hok|]. by intros r (_ & _ & ? & _). }
    subst stream. assert (Hrec : recorded (tenant s) (source_read store (Staged (bd_content b'))) rows).
    { change (recorded (tenant s) (λ k, bd_content b' !! k) rows). rewrite Hcont. unfold bd_content. cbn. rewrite Hempty.
      by apply (recorded_fold (tenant s) origin rows head). }
    pose proof (selects_top _ _ _ _ Hh) as Hsel. split_and!; try done.
    + intros key Hkey. rewrite (view_get_exact _ _ _ _ _ _ _ _ Hrec Hsel Hkey). by rewrite take_ge.
    + intros n. by apply (view_row_exact _ _ _ _ _ _ _ Hrec Hsel).
    + by apply (view_records_exact _ _ _ _ _ _ Hrec Hsel).
  - intros Hnd Hval.
    set (b := {| bd_table := ∅; bd_batch := Some begin_batch; bd_bytes := 0; bd_rows := 0; bd_head := h0; bd_failed := false |}).
    destruct (push_rows_accept s origin rows [] b begin_batch head) as (b' & t' & Hfold & Hst & Hf & <-); try done.
    + unfold chain_head. by rewrite (proj2 (any_Ok _ _) Hh0).
    + destruct (finish_builder_accepts _ _ Hst Hf) as [v Hv]. eauto.
Qed.

(** The paths of a receipt read back: the version entry written for a
    document of any valid collection and identity is within the length bound
    of a receipt and decodes to that collection, whatever characters the names
    contain. *)
Theorem receipt_path_round_trip c id revision acc :
  validate_name c = Ok tt → validate_name id = Ok tt →
  version_step revision acc (document_path c id, revision) = Ok ({[c]} ∪ acc).
Proof.
  intros Hc Hid. pose proof (validate_name_len _ Hc). pose proof (validate_name_len _ Hid).
  pose proof (escape_segment_len c). pose proof (escape_segment_len id).
  unfold version_step. cbn [fst snd]. apply seq_Ok. split.
  { apply demand_Ok, andb_true_iff. split; [|apply N.eqb_refl]. apply N.leb_le.
    unfold document_path. rewrite !str_len_app. change (str_len "/") with 1. lia. }
  change (strip_prefix "/" (document_path c id)) with (Some (escape_segment c +:+ String "/" (escape_segment id))).
  rewrite context_or_Some, bind_Ok_l, split_escaped, context_or_Some, bind_Ok_l. unfold decode_path_segment. cbn [fst snd].
  rewrite !decode_escaped, !bind_Ok_l, (proj2 (any_Ok _ _) Hc), (proj2 (any_Ok _ _) Hid), !bind_Ok_l. done.
Qed.
End claims.

(** ** A sample history *)

Module ReceiptSample.
#[export] Instance sha : Sha256 := Sample.sha.

Definition state : TenantState := set_revision 1 Sample.state.

Definition applied : AppliedIdentity :=
  {| a_incarnation := "i1"; a_revision := 1; a_timestamp_ms := 5; command_sha256 := Sample.zeros 64;
     origin := Raft 1 1 1 (Sample.zeros 64) |}.

Definition later : AppliedIdentity :=
  {| a_incarnation := "i1"; a_revision := 2; a_timestamp_ms := 6; command_sha256 := Sample.zeros 64;
     origin := Raft 1 1 2 (Sample.zeros 64) |}.

Definition receipt_at (n : N) : StoredReceipt :=
  {| r_scope := {| sc_tenant := "t1"; sc_incarnation := "i1"; sc_principal := "root" |};
     r_idempotency_key := "k1"; recorded_revision := n; request_digest := Sample.zeros 64;
     r_collections := ["docs"];
     r_outcome := Ok {| wr_revision := n; versions := {[document_path "docs" "a" := n]} |} |}.
Definition receipt : StoredReceipt := receipt_at 1.

Definition head : MutationReceiptHead := Eval vm_compute in
  the (mutation_receipt_head_empty "t1" "i1") eq_refl.

Definition row : ReceiptRow :=
  {| rr_ordinal := 1; rr_key := Sample.zeros 64; rr_previous_sha256 := mr_sha256 head;
     rr_applied := applied; rr_receipt := receipt |}.

(** Deserializers that know the rows of the sample. *)
#[export] Instance row_from_slice : FromSlice ReceiptRow := λ s,
  if bool_decide (s = to_json row) then Ok row else Err (AnyMessage "unknown row").
#[export] Instance ordinal_from_slice : FromSlice Ordinal := λ s,
  if bool_decide (s = to_json (index_of row)) then Ok (index_of row) else Err (AnyMessage "unknown row").

Definition absent : Absent := {| ab_key := Sample.zeros 64; ab_head := head |}.

Definition pending : PendingReceipt := Eval vm_compute in
  the (prepare_receipt {| v_source := Some Durable; v_head := head |} state (Some (receipt, absent))
         applied) eq_refl.

Definition builder : Builder := Eval vm_compute in the (new_builder "t1" "i1") eq_refl.
Definition pushed : Builder := Eval vm_compute in (push_row row state builder).1.
Definition restored : View := Eval vm_compute in the (finish_builder pushed (p_head pending)) eq_refl.
End ReceiptSample.

Section witnesses.
Import ReceiptSample.

#[local] Instance sample_hex : Sha256Hex.
Proof. intros s. reflexivity. Qed.

Lemma sample_row_ok : row_ok "t1" row.
Proof.
  split_and!; [reflexivity|reflexivity| | |vm_compute; discriminate];
    unfold readable, from_slice, row_from_slice, ordinal_from_slice; by rewrite bool_decide_true.
Qed.

Lemma receipt_publication_crash_safe_witness :
  ∃ row store' v', p_rows pending = [row] ∧ rr_receipt row = receipt ∧ rr_key row = Sample.zeros 64 ∧
    stage_receipts pending ∅ = (store', Ok v') ∧ stage_receipts pending store' = (store', Ok v') ∧
    recorded "t1" (source_read store' Durable) ([] ++ [row]) ∧
    (∀ k, digest k = true → view_get store' v' k = Ok (find_row k ([] ++ [row]))) ∧
    (∀ k, digest k = true →
       view_get store' {| v_source := Some Durable; v_head := head |} k =
       view_get ∅ {| v_source := Some Durable; v_head := head |} k).
Proof.
  apply (receipt_publication_crash_safe "i1" ∅ [] head (Sample.zeros 64) state receipt absent applied pending).
  - vm_compute. reflexivity.
  - split; [done|done|constructor].
  - vm_compute. reflexivity.
  - vm_compute. reflexivity.
  - intros r Hr. assert (Hp : p_rows pending = [row]) by (vm_compute; reflexivity).
    rewrite Hp in Hr. apply list_elem_of_singleton in Hr as ->.
    destruct sample_row_ok as (_ & _ & H1 & H2 & _). exact (conj H1 H2).
Defined.

(** An identity that is staged already is refused, and the builder with it. *)
Lemma duplicate_refused :
  ∃ b', push_row {| rr_ordinal := 2; rr_key := rr_key row; rr_previous_sha256 := sha_of row;
                    rr_applied := later; rr_receipt := receipt_at 2 |} (set_revision 2 state) pushed =
        (b', Err (AnyMessage "duplicate staged key")) ∧ bd_failed b' = true.
Proof. eexists. split; [vm_compute; reflexivity|vm_compute; reflexivity]. Qed.

Lemma restored_receipts_exact_witness :
  (NoDup (rr_key <$> [row]) ∧ [row] = [row] ∧
   (∀ key, digest key = true → view_get ∅ restored key = Ok (find_row key [row])) ∧
   (∀ n, view_row ∅ restored n = context_or (row_at [row] n) "receipt ordinal is outside selected generation") ∧
   view_records ∅ restored = Ok <$> [row]) ∧
  ∃ b' v, st_fold (λ _ row, push_row row state) tt [row] builder = (b', Ok tt) ∧ finish_builder b' (p_head pending) = Ok v.
Proof.
  destruct (restored_receipts_exact "i1" [row] [row] state (p_head pending) builder ∅) as [Hexact Haccept].
  - vm_compute. reflexivity.
  - constructor; [exact sample_row_ok|constructor].
  - vm_compute. reflexivity.
  - constructor; [|constructor]. destruct sample_row_ok as (_ & _ & H1 & _). exact H1.
  - intros r r' Hr%list_elem_of_singleton Hr'%list_elem_of_singleton. subst. by intros _.
  - split.
    + apply (Hexact pushed restored); vm_compute; reflexivity.
    + apply Haccept; [apply NoDup_singleton|]. constructor; [vm_compute; reflexivity|constructor].
Defined.

Lemma receipt_path_round_trip_witness :
  version_step 1 ∅ (document_path "a/b~" "c/d", 1) = Ok ({["a/b~"]} ∪ ∅).
Proof. apply (receipt_path_round_trip "a/b~" "c/d" 1 ∅); vm_compute; reflexivity. Defined.
End witnesses.
