(* ===== verification/Snapshot.v ===== *)
(** * The portable snapshot stream

    Models src/crates/kasumi-engine/src/snapshot_codec.rs: the records a tenant
    snapshot is made of, the encoder that frames, orders, counts and hashes them,
    the inspection of the frames of a stream before any record is decoded, and
    the visit that decodes and checks every record.

    A writer is the bytes written so far and a reader the bytes left.  A hasher
    is the bytes it was given; [finalize] is SHA-256 of them, as 32 bytes
    ([Sha256Bytes]).  Deserialization of a record is the interface [FromSlice],
    and the validation of recovery records and target resolutions, which the
    modelled code only calls, is the interface [RecordRules]. *)

From S2P Require Import Prelude Json Types Digest State Ledger Meter Wire Receipts.

(** SHA-256 as bytes. *)
Class Sha256Bytes := sha256_bytes : string → string.
Class Sha256Width `{Sha256Bytes} := sha256_bytes_len : ∀ s, str_len (sha256_bytes s) = 32.

Definition MAGIC : string := "KASUMIT8".
Definition MAX_RECORD : N := N.shiftl 32 20.
Definition RECORD_KINDS : N := 25.

(** ** Records *)

(** Rows of the other permanent histories: [staged_terminal::Row],
    [backup_binding::Row], [target_resolution::Row]. *)
Record TerminalRow := {
  tm_ordinal : N;
  tm_key : string;
  tm_previous_sha256 : string;
  tm_applied : AppliedIdentity;
  tm_stage : StagedTransaction;
}.

Record BindingRow := {
  bi_ordinal : N;
  bi_key : string;
  bi_previous_sha256 : string;
  bi_applied : AppliedIdentity;
  bi_record : value;
}.

Record ResolutionRow := {
  rs_ordinal : N;
  rs_key : string;
  rs_previous_sha256 : string;
  rs_command_sha256 : string;
  rs_applying_context_sha256 : string;
  rs_record : value;
}.

#[export] Instance serialize_TerminalRow : Serialize TerminalRow := λ r,
  VObject [("ordinal", to_value (tm_ordinal r)); ("key", VString (tm_key r));
           ("previous_sha256", VString (tm_previous_sha256 r)); ("applied", to_value (tm_applied r));
           ("stage", to_value (tm_stage r))].
#[export] Instance serialize_BindingRow : Serialize BindingRow := λ r,
  VObject [("ordinal", to_value (bi_ordinal r)); ("key", VString (bi_key r));
           ("previous_sha256", VString (bi_previous_sha256 r)); ("applied", to_value (bi_applied r));
           ("record", bi_record r)].
#[export] Instance serialize_ResolutionRow : Serialize ResolutionRow := λ r,
  VObject [("ordinal", to_value (rs_ordinal r)); ("key", VString (rs_key r));
           ("previous_sha256", VString (rs_previous_sha256 r));
           ("command_sha256", VString (rs_command_sha256 r));
           ("applying_context_sha256", VString (rs_applying_context_sha256 r));
           ("record", rs_record r)].

(** [WireChangeRecord]. *)
Record WireChangeRecord := {
  w_collection : string;
  w_id : string;
  w_document : option Document;
}.

#[export] Instance serialize_WireChangeRecord : Serialize WireChangeRecord := λ r,
  VObject [("collection", VString (w_collection r)); ("id", VString (w_id r));
           ("document", to_value (w_document r))].

(** [Record]. *)
Inductive SnapshotRecord :=
| RHeader (state : TenantState)
| RLineage (index : N) (link : RestoreLineageLink)
| RCollection (name : string) (collection : CollectionState)
| RDocument (name : string) (document : Document)
| RArchived (name id : string) (reference : ArchivedDocument)
| RReceipt (row : ReceiptRow)
| RStage (key : string) (stage : StagedTransaction)
| RStageChunk (key : string) (index : N) (chunk : StagedChunk)
| RActiveStage (key : string)
| RChange (sequence : N) (commit : ChangeCommit)
| RChangeItem (sequence index : N) (change : WireChangeRecord)
| RArchive (key : string) (archive : value)
| RActivation (key : string) (activation : value)
| RRetirement (key : string) (retirement : value)
| RAudit (sequence : N) (event : AuditEvent)
| RIntent (id : Uuid) (intent : value)
| RControlChange (id : Uuid) (change : value)
| RTarget (key : string) (target : TargetExecutionState)
| RRecoveryOperation (key : string) (record : RecoveryRecord)
| RRecoveryPhase (key : string) (record : RecoveryPhaseRecord)
| RRecoveryTarget (key : string) (operation : Uuid)
| RTerminal (row : TerminalRow)
| RTargetResolution (row : ResolutionRow)
| RRecoveryCompletionHistory (key : string) (history : RecoveryCompletionHistory)
| RBackupBinding (row : BindingRow).

(** The adjacently tagged encoding: [type] and [value]. *)
Definition tagged (name : string) (v : value) : value :=
  VObject [("type", VString name); ("value", v)].

#[export] Instance serialize_Record : Serialize SnapshotRecord := λ r,
  match r with
  | RHeader s => tagged "Header" (to_value s)
  | RLineage i l => tagged "Lineage" (to_value (i, l))
  | RCollection k c => tagged "Collection" (to_value (k, c))
  | RDocument k d => tagged "Document" (to_value (k, d))
  | RArchived k i a => tagged "Archived" (VArray [VString k; VString i; to_value a])
  | RReceipt row => tagged "Receipt" (to_value row)
  | RStage k t => tagged "Stage" (to_value (k, t))
  | RStageChunk k i c => tagged "StageChunk" (VArray [VString k; to_value i; to_value c])
  | RActiveStage k => tagged "ActiveStage" (VString k)
  | RChange i c => tagged "Change" (to_value (i, c))
  | RChangeItem i j c => tagged "ChangeItem" (VArray [to_value i; to_value j; to_value c])
  | RArchive k v => tagged "Archive" (to_value (k, v))
  | RActivation k v => tagged "Activation" (to_value (k, v))
  | RRetirement k v => tagged "Retirement" (to_value (k, v))
  | RAudit i e => tagged "Audit" (to_value (i, e))
  | RIntent u v => tagged "Intent" (VArray [uuid_value u; v])
  | RControlChange u v => tagged "ControlChange" (VArray [uuid_value u; v])
  | RTarget k t => tagged "Target" (to_value (k, t))
  | RRecoveryOperation k v => tagged "RecoveryOperation" (to_value (k, v))
  | RRecoveryPhase k v => tagged "RecoveryPhase" (to_value (k, v))
  | RRecoveryTarget k u => tagged "RecoveryTarget" (VArray [VString k; uuid_value u])
  | RTerminal row => tagged "Terminal" (to_value row)
  | RTargetResolution row => tagged "TargetResolution" (to_value row)
  | RRecoveryCompletionHistory k v => tagged "RecoveryCompletionHistory" (to_value (k, v))
  | RBackupBinding row => tagged "BackupBinding" (to_value row)
  end.

(** Whether the encoding of a record meets no stored document. *)
Definition record_pending (r : SnapshotRecord) : bool :=
  match r with
  | RHeader s =>
      forallb collection_pending (map_values (collections s)) &&
      forallb commit_pending (map_values (commits (change_feed s)))
  | RCollection _ c => collection_pending c
  | RChange _ c => commit_pending c
  | _ => true
  end.

(** The bytes [serde_json::to_writer] produces for a record. *)
Definition record_bytes_of (r : SnapshotRecord) : Anyhow string :=
  demand (record_pending r) "stored document serialization requires its selected resolver";;
  Ok (to_json r).

(** ** Order *)

(** [format!("{i:020}")]. *)
Fixpoint zero_fill (k : nat) (s : string) : string :=
  match k with O => s | S k' => String "0" (zero_fill k' s) end.
Definition pad20 (n : N) : string :=
  let s := pretty n in zero_fill (20 - String.length s) s.

Abbreviation Order := (N * string * string)%type.

(** [Record::order]. *)
Definition order (r : SnapshotRecord) : Order :=
  match r with
  | RHeader _ => (0, "", "")
  | RLineage i _ => (1, pad20 i, "")
  | RCollection k _ => (2, k, "")
  | RDocument k d => (3, k, d_id d)
  | RArchived k id _ => (4, k, id)
  | RReceipt row => (5, pad20 (rr_ordinal row), "")
  | RStage k _ => (6, k, "")
  | RStageChunk k i _ => (7, k, pad20 i)
  | RActiveStage k => (8, k, "")
  | RChange i _ => (9, pad20 i, "")
  | RChangeItem i j _ => (10, pad20 i, pad20 j)
  | RArchive k _ => (11, k, "")
  | RActivation k _ => (12, k, "")
  | RRetirement k _ => (13, k, "")
  | RAudit i _ => (14, pad20 i, "")
  | RIntent u _ => (15, uuid_text u, "")
  | RControlChange u _ => (16, uuid_text u, "")
  | RTarget k _ => (17, k, "")
  | RRecoveryOperation k _ => (18, k, "")
  | RRecoveryPhase k _ => (19, k, "")
  | RRecoveryTarget k _ => (20, k, "")
  | RTerminal row => (21, pad20 (tm_ordinal row), "")
  | RTargetResolution row => (22, pad20 (rs_ordinal row), "")
  | RRecoveryCompletionHistory k _ => (23, k, "")
  | RBackupBinding row => (24, pad20 (bi_ordinal row), "")
  end.

Definition kind_of (r : SnapshotRecord) : N := (order r).1.1.

(** [<] on strings and on orders. *)
Definition str_ltb (a b : string) : bool := bool_decide (String.le a b) && negb (bool_decide (a = b)).
Definition order_ltb (a b : Order) : bool :=
  (a.1.1 <? b.1.1) ||
  ((a.1.1 =? b.1.1) && (str_ltb a.1.2 b.1.2 || (bool_decide (a.1.2 = b.1.2) && str_ltb a.2 b.2))).

Definition after_previous (previous : option Order) (o : Order) : bool :=
  match previous with None => true | Some p => order_ltb p o end.

(** [record_limit]. *)
Definition MAX_RESOLUTION_ROW_BYTES : N := N.shiftl 256 10 + N.shiftl 64 10.

Definition record_limit (kind : N) : Anyhow N :=
  if kind =? 5 then Ok MAX_ROW_BYTES
  else if (kind <=? 20) || (kind =? 23) then Ok MAX_RECORD
  else if kind =? 21 then Ok MAX_ROW_BYTES
  else if kind =? 22 then Ok (MAX_RESOLUTION_ROW_BYTES + 64)
  else if kind =? 24 then Ok (MAX_ROW_BYTES + 256)
  else Err (AnyMessage "unsupported snapshot record kind").

(** ** The encoder *)

Record Encoder := {
  en_written : string;
  en_hashed : string;
  en_count : N;
  en_total : N;
  en_previous : option Order;
}.

(** The frame of a payload: its length, its kind, its bytes. *)
Definition kind_byte (kind : N) : string := String (ascii_of_N kind) "".
Definition frame (kind : N) (payload : string) : string :=
  be_bytes 8 (str_len payload) +:+ kind_byte kind +:+ payload.

(** [Encoder::new]. *)
Definition new_encoder : Encoder :=
  {| en_written := MAGIC; en_hashed := MAGIC; en_count := 0; en_total := 8; en_previous := None |}.

Definition set_previous (o : Order) (e : Encoder) : Encoder :=
  {| en_written := en_written e; en_hashed := en_hashed e; en_count := en_count e;
     en_total := en_total e; en_previous := Some o |}.
Definition emit (bytes : string) (e : Encoder) : Encoder :=
  {| en_written := en_written e +:+ bytes; en_hashed := en_hashed e +:+ bytes;
     en_count := en_count e; en_total := en_total e; en_previous := en_previous e |}.
Definition set_en_count (n : N) (e : Encoder) : Encoder :=
  {| en_written := en_written e; en_hashed := en_hashed e; en_count := n;
     en_total := en_total e; en_previous := en_previous e |}.
Definition set_en_total (n : N) (e : Encoder) : Encoder :=
  {| en_written := en_written e; en_hashed := en_hashed e; en_count := en_count e;
     en_total := n; en_previous := en_previous e |}.

(** [Encoder::record]. *)
Definition encode_record (r : SnapshotRecord) : ST Encoder anyhow unit :=
  e ← st_get;
  st_lift (demand (after_previous (en_previous e) (order r)) "snapshot records duplicated or unordered");;
  st_modify (set_previous (order r));;
  payload ← st_lift (record_bytes_of r);
  st_lift (demand (str_len payload <=? MAX_RECORD) "snapshot record exceeds byte limit");;
  limit ← st_lift (record_limit (kind_of r));
  st_lift (demand (str_len payload <=? limit) "snapshot typed record exceeds byte limit");;
  st_modify (emit (frame (kind_of r) payload));;
  count ← st_lift (context_or (checked_add (en_count e) 1) "snapshot record count overflow");
  st_modify (set_en_count count);;
  total ← st_lift (context_or
    (checked_add (en_total e) FRAME_HEADER_BYTES ≫= λ n, checked_add n (str_len payload))
    "snapshot byte overflow");
  st_modify (set_en_total total).

Section codec.
Context `{Sha256Bytes}.

(** [Encoder::finish]: the written stream. *)
Definition finish_encoder (e : Encoder) : string :=
  en_written e +:+ be_bytes 8 0 +:+ be_bytes 8 (en_count e) +:+ be_bytes 8 (en_total e) +:+
  sha256_bytes (en_hashed e).

(** A stream of these records. *)
Definition encode (l : list SnapshotRecord) : Anyhow string :=
  match st_fold (λ _, encode_record) tt l new_encoder with
  | (e, Ok _) => Ok (finish_encoder e)
  | (_, Err err) => Err err
  end.
End codec.

(** ** What the frames of a stream add up to *)

Record KindLayout := {
  kl_records : N;
  kl_framed_bytes : N;
  maximum_payload_bytes : N;
  kl_maximum_decode_work : N;
}.

Definition empty_layout : KindLayout :=
  {| kl_records := 0; kl_framed_bytes := 0; maximum_payload_bytes := 0; kl_maximum_decode_work := 0 |}.

Record StreamSummary := {
  su_records : N;
  su_bytes : N;
  su_kinds : list KindLayout;
}.

(** [StreamSummary::empty]. *)
Definition empty_summary : StreamSummary :=
  {| su_records := 0; su_bytes := 8; su_kinds := replicate (N.to_nat RECORD_KINDS) empty_layout |}.

Definition set_kind (kind : N) (k : KindLayout) (s : StreamSummary) : StreamSummary :=
  {| su_records := su_records s; su_bytes := su_bytes s; su_kinds := <[N.to_nat kind := k]> (su_kinds s) |}.

(** [StreamSummary::add]; an index outside the layouts would panic. *)
Definition summary_add (kind payload : N) (s : StreamSummary) : Anyhow StreamSummary :=
  (if 0 <? payload then
     limit ← record_limit kind;
     demand (payload <=? limit) "snapshot typed record exceeds byte limit"
   else demand false "snapshot typed record exceeds byte limit");;
  framed ← context_or (checked_add payload FRAME_HEADER_BYTES) "snapshot framing overflow";
  selected ← context_or (su_kinds s !! N.to_nat kind) "index out of bounds";
  n ← context_or (checked_add (kl_records selected) 1) "snapshot kind count overflow";
  b ← context_or (checked_add (kl_framed_bytes selected) framed) "snapshot kind bytes overflow";
  records ← context_or (checked_add (su_records s) 1) "snapshot record count overflow";
  bytes ← context_or (checked_add (su_bytes s) framed) "snapshot byte overflow";
  Ok {| su_records := records; su_bytes := bytes;
        su_kinds := <[N.to_nat kind :=
          {| kl_records := n; kl_framed_bytes := b;
             maximum_payload_bytes := maximum_payload_bytes selected `max` payload;
             kl_maximum_decode_work := kl_maximum_decode_work selected |}]> (su_kinds s) |}.

(** [StreamSummary::record_work]. *)
Definition record_work (kind work : N) (s : StreamSummary) : Anyhow StreamSummary :=
  selected ← context_or (su_kinds s !! N.to_nat kind) "unsupported snapshot record kind";
  Ok (set_kind kind
        {| kl_records := kl_records selected; kl_framed_bytes := kl_framed_bytes selected;
           maximum_payload_bytes := maximum_payload_bytes selected;
           kl_maximum_decode_work := kl_maximum_decode_work selected `max` work |} s).

(** [StreamSummary::resident_bytes]. *)
Definition resident_step (total : N) (nk : nat * KindLayout) : Anyhow N :=
  let kind := nk.2 in
  if bool_decide (nk.1 ∈ [5; 21; 22; 24]%nat) then Ok total
  else
    bytes ← context_or
      (if bool_decide (nk.1 = 3%nat) then checked_mul (kl_records kind) 4096
       else if bool_decide (nk.1 = 10%nat) then checked_mul (kl_records kind) 8192
       else Some (kl_framed_bytes kind))
      "compact snapshot size overflow";
    context_or (checked_add total bytes) "resident snapshot byte overflow".

Definition resident_bytes (s : StreamSummary) : Anyhow N :=
  try_fold resident_step 64 (imap pair (su_kinds s)).

(** [StreamSummary::maximum_decode_work], [index_workspace],
    [materialization_base_workspace]. *)
Definition maximum_decode_work (s : StreamSummary) : N :=
  foldr (λ k n, kl_maximum_decode_work k `max` n) 0 (su_kinds s).

Definition index_workspace (s : StreamSummary) : Anyhow N :=
  context_or (checked_add (N.shiftl 128 20) (maximum_decode_work s)) "snapshot index workspace overflow".

Definition materialization_base_workspace (s : StreamSummary) : Anyhow N :=
  let record := maximum_decode_work s in
  resident ← resident_bytes s;
  context_or (checked_mul resident 3 ≫= λ n, checked_add n record ≫= λ n, checked_add n (N.shiftl 64 20))
    "snapshot materialization workspace overflow".

(** ** Reading *)

(** [Read::read_exact] on the bytes left. *)
Fixpoint split_bytes (n : nat) (s : string) : option (string * string) :=
  match n, s with
  | O, _ => Some ("", s)
  | S n', String c s' => p ← split_bytes n' s'; Some (String c p.1, p.2)
  | S _, "" => None
  end.

Definition read_exact (n : N) : ST string anyhow string := λ s,
  if n <=? str_len s then
    match split_bytes (N.to_nat n) s with
    | Some (bytes, rest) => (rest, Ok bytes)
    | None => (s, Err (AnyMessage "failed to fill whole buffer"))
    end
  else ("", Err (AnyMessage "failed to fill whole buffer")).

(** [u64::from_be_bytes], and one byte. *)
Fixpoint be_value (s : string) (acc : N) : N :=
  match s with "" => acc | String c s' => be_value s' (acc * 256 + N_of_ascii c) end.

(** Validation of records the codec only calls. *)
Class RecordRules := {
  validate_resolution : value → Anyhow unit;
  validate_recovery : RecoveryRecord → Anyhow unit;
  validate_recovery_phase : RecoveryPhaseRecord → Anyhow unit;
  validate_recovery_history : RecoveryCompletionHistory → Anyhow unit;
}.

Section reading.
Context (site_bytes : N).
Context `{Sha256Bytes}.

(** [finish_summary]. *)
Definition finish_summary (hashed : string) (summary : StreamSummary) :
    ST string anyhow StreamSummary :=
  footer ← read_exact 48;
  st_lift (demand ((0 <? su_records summary) &&
                   (be_value (String.substring 0 8 footer) 0 =? su_records summary) &&
                   (be_value (String.substring 8 8 footer) 0 =? su_bytes summary) &&
                   bool_decide (sha256_bytes hashed = String.substring 16 32 footer))
             "snapshot terminal authentication differs");;
  rest ← st_get;
  st_lift (demand (bool_decide (rest = "")) "trailing snapshot data");;
  bytes ← st_lift (context_or (checked_add (su_bytes summary) 56) "snapshot byte overflow");
  mret {| su_records := su_records summary; su_bytes := bytes; su_kinds := su_kinds summary |}.

(** The magic prefix. *)
Definition read_magic : ST string anyhow unit :=
  magic ← read_exact 8;
  st_lift (demand (bool_decide (magic = MAGIC)) "unsupported tenant snapshot format").

(** [inspect]: the payload of a frame in buffers of 64 KiB. *)
Definition BUFFER : N := N.shiftl 64 10.

Fixpoint inspect_payload (fuel : nat) (remaining : N) (hashed : string) (work : Meter) :
    ST string anyhow (string * Meter) :=
  match fuel with
  | O => mret (hashed, work)
  | S fuel =>
      if remaining =? 0 then mret (hashed, work)
      else
        let take := remaining `min` BUFFER in
        bytes ← read_exact take;
        match consume bytes work with
        | (work, Ok _) => inspect_payload fuel (remaining - take) (hashed +:+ bytes) work
        | (_, Err e) => st_lift (Err e)
        end
  end.

(** The state of the loop of [inspect]. *)
Record Inspection := {
  ins_hashed : string;
  ins_summary : StreamSummary;
  ins_previous : N;
}.

Fixpoint inspect_loop (fuel : nat) (i : Inspection) : ST string anyhow StreamSummary :=
  match fuel with
  | O => st_lift (Err (AnyMessage "failed to fill whole buffer"))
  | S fuel =>
      length ← read_exact 8;
      let bytes := be_value length 0 in
      if bytes =? 0 then finish_summary (ins_hashed i) (ins_summary i)
      else
        kind_bytes ← read_exact 1;
        let kind := be_value kind_bytes 0 in
        st_lift (demand (((su_records (ins_summary i) =? 0) && (kind =? 0)) ||
                         ((0 <? su_records (ins_summary i)) && (0 <? kind) && (ins_previous i <=? kind)))
                   "snapshot typed frames duplicated or unordered");;
        summary ← st_lift (summary_add kind bytes (ins_summary i));
        p ← inspect_payload (S (N.to_nat (bytes / BUFFER))) bytes
              (ins_hashed i +:+ length +:+ kind_bytes) empty_meter;
        work ← st_lift (finish_meter site_bytes p.2);
        summary ← st_lift (record_work kind work summary);
        inspect_loop fuel {| ins_hashed := p.1; ins_summary := summary; ins_previous := kind |}
  end.

(** Every frame has at least nine bytes, so the length of the stream is fuel. *)
Definition inspect (stream : string) : Anyhow StreamSummary :=
  snd ((read_magic;;
        inspect_loop (S (String.length stream))
          {| ins_hashed := MAGIC; ins_summary := empty_summary; ins_previous := 0 |}) stream).
End reading.

(** ** Visiting the records *)

(** [empty_records]. *)
Definition empty_records (s : TenantState) : bool :=
  let r := recovery_control s in
  bool_decide (target_lifecycle s = ∅) &&
  (bool_decide (rc_operations r = ∅) && bool_decide (rc_phases r = ∅) &&
   bool_decide (rc_completion_history r = ∅) && bool_decide (rc_targets r = ∅)) &&
  bool_decide (collections s = ∅) && bool_decide (staged_transactions s = ∅) &&
  bool_decide (active_staged_transactions s = ∅) && bool_decide (commits (change_feed s) = ∅) &&
  bool_decide (history_archives s = ∅) && bool_decide (schema_activations s = ∅) &&
  bool_decide (retirements s = ∅) && bool_decide (audits s = []) &&
  bool_decide (restore_lineage s = []) &&
  match lifecycle_control s with
  | None => true
  | Some c => bool_decide (intents c = ∅) && bool_decide (control_changes c = ∅)
  end.

(** [RecordPosition]. *)
Record RecordPosition := { offset : N; rp_bytes : N }.

(** The local variables of [visit] that the checks of a record use. *)
Record Checks := {
  ck_lineage : N;
  ck_audit : option N;
  ck_audit_next : N;
}.

Definition no_checks : Checks :=
  {| ck_lineage := 0; ck_audit := None; ck_audit_next := 0 |}.

Definition set_ck_lineage (n : N) (c : Checks) : Checks :=
  {| ck_lineage := n; ck_audit := ck_audit c;
     ck_audit_next := ck_audit_next c |}.
Definition set_ck_audit (n : N) (c : Checks) : Checks :=
  {| ck_lineage := ck_lineage c; ck_audit := Some n;
     ck_audit_next := ck_audit_next c |}.
Definition set_ck_audit_next (n : N) (c : Checks) : Checks :=
  {| ck_lineage := ck_lineage c; ck_audit := ck_audit c;
     ck_audit_next := n |}.

Section visiting.
Context (site_bytes : N).
Context `{Sha256} `{Sha256Bytes} `{UuidParse} `{RecordRules} `{FromSlice SnapshotRecord}.

(** [backup_binding::Row::framed_bytes] and [target_resolution::Row::framed_bytes]:
    the charge of a row in its table covers its snapshot frame. *)
Definition row_charge (limit : N) (domain key : string) (ordinal : N) (row : value)
    (record : SnapshotRecord) (too_long : string) : Anyhow N :=
  let bytes := write row in
  demand (str_len bytes <=? limit) too_long;;
  sha ← any (fst <$> staged_digest (domain, row));
  let index := to_json {| o_key := key; o_sha256 := sha |} in
  charge ← try_fold (λ total item, context_or (checked_add total item) "row charge overflow") 0
    [str_len bytes; str_len index; str_len (id_key key); str_len (ordinal_key ordinal); 32];
  n ← any (encoded_len record);
  framed ← context_or (checked_add n FRAME_HEADER_BYTES) "row snapshot frame overflow";
  demand (framed <=? charge) "row table charge does not cover snapshot frame";;
  Ok charge.

Definition binding_framed_bytes (row : BindingRow) : Anyhow N :=
  row_charge MAX_ROW_BYTES "kasumi.backup-binding-row.v1" (bi_key row) (bi_ordinal row) (to_value row)
    (RBackupBinding row) "backup binding row exceeds per-record limit".

Definition resolution_framed_bytes (row : ResolutionRow) : Anyhow N :=
  row_charge MAX_RESOLUTION_ROW_BYTES "kasumi.target-resolution-row.v1" (rs_key row) (rs_ordinal row)
    (to_value row) (RTargetResolution row) "target terminal row exceeds per-record bound".

(** The checks [visit] makes of a decoded record; [records] counts it. *)
Definition visit_check (records : N) (c : Checks) (r : SnapshotRecord) : Anyhow Checks :=
  match r with
  | RHeader header =>
      demand ((records =? 1) && empty_records header) "snapshot header contains embedded records";;
      any (retention_validate (audit_retention header));;
      Ok (set_ck_audit_next (au_next_sequence (audit_retention header))
            (set_ck_audit (pruned_before (audit_retention header)) c))
  | _ =>
      demand (bool_decide (is_Some (ck_audit c))) "snapshot metadata must be first";;
      match r with
      | RLineage i _ =>
          demand (i =? ck_lineage c) "lineage sequence differs";;
          n ← context_or (checked_add (ck_lineage c) 1) "lineage sequence overflow";
          Ok (set_ck_lineage n c)
      | RAudit i _ =>
          demand (bool_decide (Some i = ck_audit c)) "audit sequence differs";;
          n ← context_or (checked_add i 1) "audit sequence overflow";
          Ok (set_ck_audit n c)
      | RCollection _ collection =>
          demand (bool_decide (documents collection = ∅) && bool_decide (archived_documents collection = ∅))
            "collection contains embedded documents";;
          Ok c
      | RStage _ stage =>
          demand (bool_decide (chunks stage = ∅)) "stage contains embedded chunks";;
          Ok c
      | RTerminal row =>
          demand ((0 <? tm_ordinal row) && negb (is_active (tm_stage row)) &&
                  bool_decide (chunks (tm_stage row) = ∅)) "invalid terminal staged record";;
          Ok c
      | RBackupBinding row => binding_framed_bytes row;; Ok c
      | RTargetResolution row =>
          validate_resolution (rs_record row);;
          resolution_framed_bytes row;;
          Ok c
      | RChange _ commit =>
          demand (bool_decide (Types.records commit = [])) "change commit contains embedded records";;
          Ok c
      | RRecoveryOperation key v =>
          validate_recovery v;;
          demand (bool_decide (key = uuid_text (rec_operation_id v))) "recovery operation key differs";;
          Ok c
      | RRecoveryCompletionHistory key v =>
          validate_recovery_history v;;
          demand (bool_decide (key = uuid_text (ch_intent v))) "closed completion key differs";;
          Ok c
      | RRecoveryPhase key v =>
          validate_recovery_phase v;;
          demand (bool_decide (key = uuid_text (ph_phase_id v))) "recovery phase key differs";;
          Ok c
      | RRecoveryTarget key operation =>
          id ← context_or (try_parse key) "invalid UUID";
          demand (negb (is_nil id) && bool_decide (uuid_text id = key) && negb (is_nil operation))
            "recovery target key differs";;
          Ok c
      | _ => Ok c
      end
  end.

(** [decode_record]: the comparing writer fails at the first piece that differs. *)
Definition starts_step (rest bytes : string) : Anyhow string :=
  context_or (strip_prefix bytes rest) "noncanonical snapshot record".

Definition decode_record (bytes : string) : Anyhow SnapshotRecord :=
  record ← from_slice bytes;
  written ← record_bytes_of record;
  rest ← starts_step bytes written;
  demand (bool_decide (rest = "")) "noncanonical snapshot record";;
  Ok record.

(** The state of the loop of [visit]. *)
Record Visit := {
  vi_hashed : string;
  vi_summary : StreamSummary;
  vi_previous : option Order;
  vi_checks : Checks;
}.

(** One frame of [visit]. *)
Definition visit_frame (v : Visit) (length : string) (size : N) :
    ST string anyhow (Visit * RecordPosition * SnapshotRecord) :=
  kind_bytes ← read_exact 1;
  let kind := be_value kind_bytes 0 in
  limit ← st_lift (record_limit kind);
  st_lift (demand (size <=? limit) "snapshot typed record exceeds byte limit");;
  start ← st_lift (context_or (checked_add (su_bytes (vi_summary v)) FRAME_HEADER_BYTES)
                     "snapshot offset overflow");
  bytes ← read_exact size;
  work ← st_lift (measure site_bytes bytes);
  record ← st_lift (decode_record bytes);
  st_lift (demand (kind_of record =? kind) "snapshot frame kind differs from decoded record");;
  summary ← st_lift (summary_add kind size (vi_summary v));
  summary ← st_lift (record_work kind work summary);
  st_lift (demand (after_previous (vi_previous v) (order record))
             "snapshot records duplicated or unordered");;
  checks ← st_lift (visit_check (su_records summary) (vi_checks v) record);
  mret ({| vi_hashed := vi_hashed v +:+ length +:+ kind_bytes +:+ bytes; vi_summary := summary;
           vi_previous := Some (order record); vi_checks := checks |},
        {| offset := start; rp_bytes := size |}, record).

(** [visit]: the reader and the state of the visitor. *)
Fixpoint visit_loop {V} (visitor : RecordPosition → SnapshotRecord → ST V anyhow unit)
    (fuel : nat) (v : Visit) : ST (string * V) anyhow StreamSummary := λ '(rest, acc),
  match fuel with
  | O => ((rest, acc), Err (AnyMessage "failed to fill whole buffer"))
  | S fuel =>
      match read_exact 8 rest with
      | (rest, Err e) => ((rest, acc), Err e)
      | (rest, Ok length) =>
          let size := be_value length 0 in
          if size =? 0 then
            let '(rest, r) :=
              (st_lift (demand (bool_decide (ck_audit (vi_checks v) = Some (ck_audit_next (vi_checks v))))
                          "audit final sequence differs");;
               finish_summary (vi_hashed v) (vi_summary v)) rest in
            ((rest, acc), r)
          else
            match visit_frame v length size rest with
            | (rest, Err e) => ((rest, acc), Err e)
            | (rest, Ok (v, position, record)) =>
                match visitor position record acc with
                | (acc, Err e) => ((rest, acc), Err e)
                | (acc, Ok _) => visit_loop visitor fuel v (rest, acc)
                end
            end
      end
  end.

Definition visit {V} (visitor : RecordPosition → SnapshotRecord → ST V anyhow unit) (stream : string) :
    ST V anyhow StreamSummary := λ acc,
  match read_magic stream with
  | (_, Err e) => (acc, Err e)
  | (rest, Ok _) =>
      let '((_, acc), r) := visit_loop visitor (S (String.length stream))
        {| vi_hashed := MAGIC; vi_summary := empty_summary; vi_previous := None;
           vi_checks := no_checks |} (rest, acc) in
      (acc, r)
  end.
End visiting.

(** ** Reading what was written *)

#[local] Opaque to_json measure encoded_len staged_digest.

Lemma split_bytes_Some n : ∀ s a b, split_bytes n s = Some (a, b) ↔ s = a +:+ b ∧ String.length a = n.
Proof.
  induction n as [|n IH]; intros s a b.
  - cbn. split; [by intros [= <- <-]|]. intros [-> Ha]. by destruct a.
  - destruct s as [|c s]; cbn.
    + split; [done|]. intros [Hs Ha]. by destruct a.
    + rewrite bind_Some. split.
      * intros ([a' b'] & Hp & [= <- <-]). apply IH in Hp as [-> Ha]. cbn. by rewrite Ha.
      * intros [Hs Ha]. destruct a as [|c' a]; [done|]. injection Hs as <- ->.
        exists (a, b). split; [apply IH; cbn in Ha; split; [done|lia]|done].
Qed.

Lemma read_exact_Ok n s rest bytes :
  read_exact n s = (rest, Ok bytes) ↔ s = bytes +:+ rest ∧ str_len bytes = n.
Proof.
  unfold read_exact. split.
  - destruct (N.leb_spec n (str_len s)) as [Hn|Hn]; [|done].
    destruct (split_bytes (N.to_nat n) s) as [[a b]|] eqn:Hs; [|done]. intros [= <- <-].
    apply split_bytes_Some in Hs as [-> Ha]. split; [done|]. unfold str_len. lia.
  - intros [-> Hb]. rewrite str_len_app.
    replace (n <=? _) with true by (symmetry; apply N.leb_le; lia).
    assert (Hs : split_bytes (N.to_nat n) (bytes +:+ rest) = Some (bytes, rest)).
    { apply split_bytes_Some. split; [done|]. unfold str_len in Hb. lia. }
    by rewrite Hs.
Qed.

Lemma be_value_app a b acc : be_value (a +:+ b) acc = be_value b (be_value a acc).
Proof. revert acc. induction a as [|c a IH]; intros acc; [done|]. cbn. apply IH. Qed.

Lemma be_value_bytes k : ∀ n, n < 256 ^ N.of_nat k → be_value (be_bytes k n) 0 = n.
Proof.
  induction k as [|k IH]; intros n Hn; [cbn in *; lia|].
  cbn [be_bytes]. rewrite be_value_app, IH.
  - cbn. rewrite N_ascii_embedding by (apply N.mod_lt; lia). pose proof (N.div_mod n 256 ltac:(lia)). lia.
  - rewrite Nat2N.inj_succ, N.pow_succ_r' in Hn. apply N.Div0.div_lt_upper_bound. lia.
Qed.

Lemma be_value_bound s : be_value s 0 < 256 ^ str_len s.
Proof.
  assert (Hg : ∀ s acc, be_value s acc < (acc + 1) * 256 ^ str_len s).
  { clear s. induction s as [|c s IH]; intros acc.
    { cbn [be_value]. change (str_len "") with 0. rewrite N.pow_0_r. lia. }
    cbn [be_value]. rewrite str_len_cons.
    eapply N.lt_le_trans; [apply IH|]. rewrite N.pow_add_r, N.pow_1_r.
    pose proof (N_ascii_bounded c). nia. }
  specialize (Hg s 0). lia.
Qed.

Lemma be_bytes_value s : be_bytes (String.length s) (be_value s 0) = s.
Proof.
  assert (Hr : ∀ k s, String.length s = k → be_bytes k (be_value s 0) = s); [|by apply Hr].
  clear s. induction k as [|k IH]; intros s Hs; [by destruct s|].
  assert (Hsplit : ∃ a c, s = a +:+ String c "" ∧ String.length a = k).
  { clear IH. revert k Hs. induction s as [|c s IHs]; intros k Hs; [done|]. cbn in Hs.
    destruct s as [|c' s]; [exists "", c; cbn in *; split; [done|lia]|].
    destruct k as [|k]; [done|]. destruct (IHs k ltac:(cbn in *; lia)) as (a & d & -> & Ha).
    exists (String c a), d. cbn. split; [done|lia]. }
  destruct Hsplit as (a & c & -> & Ha). rewrite be_value_app. cbn [be_bytes be_value].
  pose proof (N_ascii_bounded c).
  rewrite N.div_add_l, N.div_small, N.add_0_r, IH by (done || lia).
  rewrite N.add_comm, N.Div0.mod_add, N.mod_small, ascii_N_embedding by lia. done.
Qed.

Lemma kind_of_bound r : kind_of r ≤ 24.
Proof. by destruct r. Qed.

Lemma kind_byte_value k : k < 256 → be_value (kind_byte k) 0 = k.
Proof. intros Hk. cbn. by apply N_ascii_embedding. Qed.

Lemma kind_byte_read s : str_len s = 1 → kind_byte (be_value s 0) = s.
Proof.
  intros Hs. destruct s as [|c [|]]; try done; [|rewrite !str_len_cons in Hs; lia].
  unfold kind_byte. change (be_value (String c "") 0) with (N_of_ascii c). by rewrite ascii_N_embedding.
Qed.

Lemma record_limit_max k l : record_limit k = Ok l → l ≤ MAX_RECORD.
Proof.
  unfold record_limit. intros Hl. repeat case_match; simplify_eq; vm_compute; discriminate.
Qed.

Lemma record_bytes_of_Ok r bytes : record_bytes_of r = Ok bytes ↔ record_pending r = true ∧ bytes = to_json r.
Proof. unfold record_bytes_of. rewrite seq_Ok, demand_Ok. naive_solver. Qed.

Lemma decode_record_Ok `{FromSlice SnapshotRecord} bytes r :
  decode_record bytes = Ok r ↔ bytes = to_json r ∧ readable r ∧ record_pending r = true.
Proof.
  unfold decode_record, starts_step, readable. split.
  - intros Hd. apply bind_Ok in Hd as (r' & Hr & Hd). apply bind_Ok in Hd as (w & Hw & Hd).
    apply record_bytes_of_Ok in Hw as [Hp ->]. apply bind_Ok in Hd as (rest & Hrest & Hd).
    apply seq_Ok in Hd as [He%demand_Ok%bool_decide_eq_true [= <-]]. subst rest.
    apply context_or_Ok, strip_prefix_Some in Hrest. rewrite app_string_nil_r in Hrest. subst bytes. done.
  - intros (-> & Hr & Hp). rewrite Hr, bind_Ok_l.
    rewrite (proj2 (record_bytes_of_Ok r _) (conj Hp eq_refl)), bind_Ok_l.
    assert (Hs : strip_prefix (to_json r) (to_json r) = Some "").
    { apply strip_prefix_Some. by rewrite app_string_nil_r. }
    by rewrite Hs.
Qed.

Lemma summary_add_Ok k n s s' :
  summary_add k n s = Ok s' ↔
  0 < n ∧ (∃ limit, record_limit k = Ok limit ∧ n ≤ limit) ∧
  ∃ l, su_kinds s !! N.to_nat k = Some l ∧ n + FRAME_HEADER_BYTES ≤ u64_max ∧ kl_records l + 1 ≤ u64_max ∧
    kl_framed_bytes l + (n + FRAME_HEADER_BYTES) ≤ u64_max ∧ su_records s + 1 ≤ u64_max ∧
    su_bytes s + (n + FRAME_HEADER_BYTES) ≤ u64_max ∧
    s' = {| su_records := su_records s + 1; su_bytes := su_bytes s + (n + FRAME_HEADER_BYTES);
            su_kinds := <[N.to_nat k :=
              {| kl_records := kl_records l + 1; kl_framed_bytes := kl_framed_bytes l + (n + FRAME_HEADER_BYTES);
                 maximum_payload_bytes := maximum_payload_bytes l `max` n;
                 kl_maximum_decode_work := kl_maximum_decode_work l |}]> (su_kinds s) |}.
Proof.
  unfold summary_add. rewrite seq_Ok.
  assert (Hl : (if 0 <? n then limit ← record_limit k; demand (n <=? limit) "snapshot typed record exceeds byte limit"
    else demand false "snapshot typed record exceeds byte limit") = Ok tt ↔
    0 < n ∧ ∃ limit, record_limit k = Ok limit ∧ n ≤ limit).
  { destruct (N.ltb_spec 0 n) as [Hn|Hn].
    - rewrite bind_Ok. setoid_rewrite demand_Ok. setoid_rewrite N.leb_le. naive_solver.
    - split; [done|]. intros [? _]. lia. }
  rewrite Hl. clear Hl. unfold context_or. split.
  - intros [[H0 Hlim] Hr]. inv_ok. split_and!; try done. by eexists; split_and!.
  - intros (H0 & Hlim & l & Hk & ? & ? & ? & ? & ? & ->). split; [done|].
    repeat (apply bind_Ok; eexists; split;
      [apply ok_or_Ok; first [done|by apply checked_add_Some]|]). done.
Qed.

Lemma string_split n s : n ≤ str_len s → ∃ a b, s = a +:+ b ∧ str_len a = n.
Proof.
  intros Hn. pose proof (read_exact_Ok n s) as Hr. unfold read_exact in Hr.
  apply N.leb_le in Hn. rewrite Hn in Hr.
  destruct (split_bytes (N.to_nat n) s) as [[a b]|] eqn:Hs; [exists a, b; by apply Hr|].
  exfalso. apply N.leb_le in Hn. clear Hr. unfold str_len in Hn.
  assert (Hl : (N.to_nat n ≤ String.length s)%nat) by lia. clear Hn. revert s Hs Hl.
  induction (N.to_nat n) as [|k IH]; intros [|c s] Hs Hl; cbn in *; try done; [lia|].
  destruct (split_bytes k s) eqn:Hk; [done|]. apply (IH s Hk). lia.
Qed.

Lemma substring_first a b : String.substring 0 (String.length a) (a +:+ b) = a.
Proof. induction a as [|c a IH]; [by destruct b|]. exact (f_equal (String c) IH). Qed.

Lemma substring_skip a b n m : String.substring (String.length a + n) m (a +:+ b) = String.substring n m b.
Proof. induction a as [|c a IH]; [done|exact IH]. Qed.

Lemma slice_first n a b : str_len a = N.of_nat n → String.substring 0 n (a +:+ b) = a.
Proof. unfold str_len. intros Ha%Nat2N.inj. subst n. apply substring_first. Qed.

Lemma slice_middle k n a b c :
  str_len a = N.of_nat k → str_len b = N.of_nat n → String.substring k n (a +:+ b +:+ c) = b.
Proof.
  unfold str_len. intros Ha%Nat2N.inj Hb%Nat2N.inj. subst k n.
  rewrite <-(Nat.add_0_r (String.length a)), substring_skip. apply substring_first.
Qed.

Lemma slice_last k n a b :
  str_len a = N.of_nat k → str_len b = N.of_nat n → String.substring k n (a +:+ b) = b.
Proof.
  intros Ha Hb. rewrite <-(app_string_nil_r b) at 1. by apply slice_middle.
Qed.

Lemma be_value_8 n : n ≤ u64_max → be_value (be_bytes 8 n) 0 = n.
Proof. intros Hn. apply be_value_bytes. eapply N.le_lt_trans; [exact Hn|]. by vm_compute. Qed.

Lemma be_bytes_8 s : str_len s = 8 → be_bytes 8 (be_value s 0) = s.
Proof. unfold str_len. intros Hs. rewrite <-(be_bytes_value s) at 2. f_equal. lia. Qed.

Section exact.
Context (site_bytes : N).
Context `{Sha256} `{Sha256Bytes} `{UuidParse} `{RecordRules} `{FromSlice SnapshotRecord}.

(** What the visit of one record requires, and what it makes of the state. *)
Definition visits_one (v : Visit) (r : SnapshotRecord) (v' : Visit) : Prop :=
  record_pending r = true ∧ readable r ∧
  ∃ work s1 s2 c,
    measure site_bytes (to_json r) = Ok work ∧
    summary_add (kind_of r) (str_len (to_json r)) (vi_summary v) = Ok s1 ∧
    record_work (kind_of r) work s1 = Ok s2 ∧ after_previous (vi_previous v) (order r) = true ∧
    visit_check (su_records s2) (vi_checks v) r = Ok c ∧
    v' = {| vi_hashed := vi_hashed v +:+ frame (kind_of r) (to_json r); vi_summary := s2;
            vi_previous := Some (order r); vi_checks := c |}.

Lemma visit_frame_Ok v size rest rest' v' p r :
  visit_frame site_bytes v (be_bytes 8 size) size rest = (rest', Ok (v', p, r)) ↔
  visits_one v r v' ∧ size = str_len (to_json r) ∧ rest = kind_byte (kind_of r) +:+ to_json r +:+ rest' ∧
  p = {| offset := su_bytes (vi_summary v) + FRAME_HEADER_BYTES; rp_bytes := size |}.
Proof.
  pose proof (kind_of_bound r) as Hkb. unfold visit_frame. split.
  - intros Hf. apply st_bind_Ok in Hf as (rest1 & kb & Hkind & Hf).
    apply read_exact_Ok in Hkind as [-> Hlen]. rewrite <-(kind_byte_read kb Hlen).
    rewrite (kind_byte_read kb Hlen). set (k := be_value kb 0) in *.
    apply st_bind_Ok in Hf as (? & limit & [-> Hlim]%st_lift_Ok & Hf).
    apply st_bind_Ok in Hf as (? & [] & [-> _]%st_lift_Ok & Hf).
    apply st_bind_Ok in Hf as (? & start & [-> Hstart]%st_lift_Ok & Hf).
    apply st_bind_Ok in Hf as (rest2 & bytes & [-> <-]%read_exact_Ok & Hf).
    apply st_bind_Ok in Hf as (? & work & [-> Hwork]%st_lift_Ok & Hf).
    apply st_bind_Ok in Hf as (? & r1 & [-> Hr]%st_lift_Ok & Hf).
    apply st_bind_Ok in Hf as (? & [] & [-> Hk]%st_lift_Ok & Hf).
    apply st_bind_Ok in Hf as (? & s1 & [-> Hs1]%st_lift_Ok & Hf).
    apply st_bind_Ok in Hf as (? & s2 & [-> Hs2]%st_lift_Ok & Hf).
    apply st_bind_Ok in Hf as (? & [] & [-> Ho%demand_Ok]%st_lift_Ok & Hf).
    apply st_bind_Ok in Hf as (? & c & [-> Hc]%st_lift_Ok & Hf).
    apply st_ret_Ok in Hf as [-> [= -> -> ->]].
    apply decode_record_Ok in Hr as (-> & Hr & Hp). apply demand_Ok, N.eqb_eq in Hk.
    apply context_or_Ok, checked_add_Some in Hstart as [-> _].
    assert (Hkb' : kind_byte (kind_of r1) = kb) by (rewrite Hk; by apply kind_byte_read).
    split; [|by rewrite Hkb']. split; [done|]. split; [done|]. exists work, s1, s2, c.
    unfold frame. rewrite Hkb', Hk. split_and!; done.
  - intros ((Hp & Hr & work & s1 & s2 & c & Hwork & Hs1 & Hs2 & Ho & Hc & ->) & -> & -> & ->).
    pose proof (proj1 (summary_add_Ok _ _ _ _) Hs1) as (_ & (limit & Hlim & Hle) & _ & _ & _ & _ & _ & _ & Hb & _).
    assert (Hkv : be_value (kind_byte (kind_of r)) 0 = kind_of r) by (apply kind_byte_value; lia).
    rewrite (st_bind_run _ _ _ (to_json r +:+ rest') (kind_byte (kind_of r))) by (by apply read_exact_Ok).
    rewrite Hkv.
    rewrite (st_bind_lift _ _ _ _ Hlim).
    rewrite (st_bind_lift _ _ _ tt) by (by apply demand_Ok, N.leb_le).
    rewrite (st_bind_lift _ _ _ (su_bytes (vi_summary v) + FRAME_HEADER_BYTES))
      by (apply context_or_Ok, checked_add_Some; split; [done|lia]).
    rewrite (st_bind_run _ _ _ rest' (to_json r)) by (by apply read_exact_Ok).
    rewrite (st_bind_lift _ _ _ _ Hwork).
    rewrite (st_bind_lift _ _ _ r) by (by apply decode_record_Ok).
    rewrite (st_bind_lift _ _ _ tt) by (by apply demand_Ok, N.eqb_eq).
    rewrite (st_bind_lift _ _ _ _ Hs1), (st_bind_lift _ _ _ _ Hs2).
    rewrite (st_bind_lift _ _ _ tt) by (by apply demand_Ok). by rewrite (st_bind_lift _ _ _ _ Hc).
Qed.

(** ** The whole stream *)

Context `{!Sha256Width}.

Definition footer (v : Visit) : string :=
  be_bytes 8 (su_records (vi_summary v)) +:+ be_bytes 8 (su_bytes (vi_summary v)) +:+
  sha256_bytes (vi_hashed v).

(** The summary of a complete stream. *)
Definition closing (v : Visit) (summary : StreamSummary) : Prop :=
  0 < su_records (vi_summary v) ∧ su_bytes (vi_summary v) + 56 ≤ u64_max ∧
  summary = {| su_records := su_records (vi_summary v); su_bytes := su_bytes (vi_summary v) + 56;
               su_kinds := su_kinds (vi_summary v) |}.

Definition fits (s : StreamSummary) : Prop := su_records s ≤ u64_max ∧ su_bytes s ≤ u64_max.

Lemma finish_summary_Ok v rest rest' summary :
  fits (vi_summary v) →
  finish_summary (vi_hashed v) (vi_summary v) rest = (rest', Ok summary) ↔
  rest' = "" ∧ rest = footer v ∧ closing v summary.
Proof.
  intros [Hr Hb]. unfold finish_summary, footer, closing. split.
  - intros Hf. apply st_bind_Ok in Hf as (rest1 & f & [-> Hlen]%read_exact_Ok & Hf).
    apply st_bind_Ok in Hf as (? & [] & [-> Hd]%st_lift_Ok & Hf).
    apply st_bind_Ok in Hf as (? & ? & [-> ->]%st_get_Ok & Hf).
    apply st_bind_Ok in Hf as (? & [] & [-> He]%st_lift_Ok & Hf).
    apply st_bind_Ok in Hf as (? & n & [-> Hn]%st_lift_Ok & Hf). apply st_ret_Ok in Hf as [-> ->].
    apply context_or_Ok, checked_add_Some in Hn as [-> Hn]. apply demand_Ok, bool_decide_eq_true in He as ->.
    destruct (string_split 8 f) as (a & f1 & -> & Ha); [lia|]. rewrite str_len_app, Ha in Hlen.
    destruct (string_split 8 f1) as (b & c & -> & Hb1); [lia|]. rewrite str_len_app, Hb1 in Hlen.
    apply demand_Ok in Hd. rewrite (slice_first 8 a) in Hd by done.
    rewrite (slice_middle 8 8 a b c) in Hd by done.
    rewrite <-(app_string_assoc a b c), (slice_last 16 32) in Hd by (rewrite ?str_len_app; lia).
    apply andb_true_iff in Hd as [Hd Hsha%bool_decide_eq_true]. apply andb_true_iff in Hd as [Hd Ht%N.eqb_eq].
    apply andb_true_iff in Hd as [H0' Hc%N.eqb_eq]. apply N.ltb_lt in H0'.
    split; [done|]. split; [|done].
    rewrite app_string_nil_r, <-Hc, <-Ht, Hsha. by rewrite !be_bytes_8.
  - intros (-> & -> & H0' & Hn & ->). pose proof (sha256_bytes_len (vi_hashed v)) as Hsha.
    erewrite st_bind_run; [|apply read_exact_Ok; split; [by rewrite app_string_nil_r|]].
    2:{ rewrite !str_len_app, !be_bytes_len, Hsha. done. }
    rewrite (st_bind_lift _ _ _ tt).
    2:{ apply demand_Ok. rewrite (slice_first 8), (slice_middle 8 8) by (by rewrite be_bytes_len).
        rewrite <-(app_string_assoc (be_bytes 8 _)), (slice_last 16 32)
          by (rewrite ?str_len_app, ?be_bytes_len, ?Hsha; done).
        rewrite !be_value_8, !N.eqb_refl by done. rewrite bool_decide_eq_true_2 by done.
        apply N.ltb_lt in H0'. by rewrite H0'. }
    rewrite st_bind_get. rewrite (st_bind_lift _ _ _ tt) by done.
    rewrite (st_bind_lift _ _ _ (su_bytes (vi_summary v) + 56)) by (by apply context_or_Ok, checked_add_Some).
    done.
Qed.

(** The records of a stream, with their positions. *)
Definition collect (p : RecordPosition) (r : SnapshotRecord) :
    ST (list (RecordPosition * SnapshotRecord)) anyhow unit := st_modify (λ l, l ++ [(p, r)]).

Definition position_of (v : Visit) (r : SnapshotRecord) : RecordPosition :=
  {| offset := su_bytes (vi_summary v) + FRAME_HEADER_BYTES; rp_bytes := str_len (to_json r) |}.

Fixpoint visits (v : Visit) (l : list (RecordPosition * SnapshotRecord)) (v' : Visit) : Prop :=
  match l with
  | [] => v' = v
  | (p, r) :: l => p = position_of v r ∧ ∃ v1, visits_one v r v1 ∧ visits v1 l v'
  end.

Definition frame_of (r : SnapshotRecord) : string := frame (kind_of r) (to_json r).
Definition frames (l : list SnapshotRecord) : string := foldr String.app "" (frame_of <$> l).

Lemma visited_fits v r v' : visits_one v r v' → fits (vi_summary v').
Proof.
  intros (_ & _ & work & s1 & s2 & c & _ & Hs1 & Hs2 & _ & _ & ->).
  apply summary_add_Ok in Hs1 as (_ & _ & l & _ & _ & _ & _ & Hr & Hb & ->).
  unfold record_work in Hs2. apply bind_Ok in Hs2 as (k & _ & [= <-]). by split.
Qed.

Lemma visited_size v r v' :
  visits_one v r v' → 0 < str_len (to_json r) ∧ str_len (to_json r) ≤ u64_max.
Proof.
  intros (_ & _ & work & s1 & s2 & c & _ & Hs1 & _).
  apply summary_add_Ok in Hs1 as (H0' & _ & l & _ & Hn & _). split; [done|lia].
Qed.

Lemma frames_cons r l : frames (r :: l) = frame_of r +:+ frames l.
Proof. done. Qed.

Lemma visit_loop_sound fuel : ∀ v rest acc rest' out summary,
  fits (vi_summary v) →
  visit_loop site_bytes collect fuel v (rest, acc) = ((rest', out), Ok summary) →
  ∃ l v', out = acc ++ l ∧ visits v l v' ∧ rest = frames (l.*2) +:+ be_bytes 8 0 +:+ footer v' ∧
    ck_audit (vi_checks v') = Some (ck_audit_next (vi_checks v')) ∧ closing v' summary.
Proof.
  induction fuel as [|fuel IH]; intros v rest acc rest' out summary Hfit; [done|].
  cbn [visit_loop]. destruct (read_exact 8 rest) as [rest1 [len8|e]] eqn:Hread; [|done].
  apply read_exact_Ok in Hread as [-> Hlen]. pose proof (be_bytes_8 _ Hlen) as Hsize.
  destruct (N.eqb_spec (be_value len8 0) 0) as [H0'|H0'].
  - match goal with |- context [let '(_, _) := ?x in _] => destruct x as [rest2 r] eqn:Hfin end. intros [= <- <- ->].
    apply st_bind_Ok in Hfin as (? & [] & [-> Haud]%st_lift_Ok & Hfin).
    apply finish_summary_Ok in Hfin as (-> & -> & Hclose); [|done].
    exists [], v. rewrite app_nil_r. split_and!; try done.
    + cbn. by rewrite <-Hsize, H0'.
    + by apply demand_Ok, bool_decide_eq_true in Haud.
  - destruct (visit_frame site_bytes v len8 (be_value len8 0) rest1) as [rest2 [[[v1 p] r]|e]] eqn:Hf; [|done].
    rewrite <-Hsize in Hf at 1. apply visit_frame_Ok in Hf as (Hv & Hsz & -> & ->). cbn.
    intros Hl. apply IH in Hl as (l & v' & -> & Hvs & -> & Haud & Hclose); [|by eapply visited_fits].
    eexists (_ :: l), v'. rewrite <-app_assoc. split; [done|]. split; [|split; [|done]].
    + split; [by rewrite Hsz|]. by exists v1.
    + cbn [fmap list_fmap snd]. rewrite frames_cons. unfold frame_of, frame.
      rewrite <-Hsz, Hsize, !app_string_assoc. done.
Qed.

Lemma visit_loop_complete fuel : ∀ l v acc v' summary,
  fits (vi_summary v) → (length l < fuel)%nat → visits v l v' →
  ck_audit (vi_checks v') = Some (ck_audit_next (vi_checks v')) → closing v' summary →
  visit_loop site_bytes collect fuel v (frames (l.*2) +:+ be_bytes 8 0 +:+ footer v', acc) =
  (("", acc ++ l), Ok summary).
Proof.
  induction fuel as [|fuel IH]; intros [|[p r] l] v acc v' summary Hfit Hfuel Hv Haud Hclose; cbn in Hfuel; try lia.
  - cbn in Hv. subst v'. cbn [visit_loop]. rewrite app_nil_r.
    rewrite (proj2 (read_exact_Ok 8 _ (footer v) (be_bytes 8 0))) by done.
    change (be_value (be_bytes 8 0) 0 =? 0) with true. cbv iota.
    rewrite (st_bind_lift _ _ _ tt) by (by apply demand_Ok, bool_decide_eq_true).
    by rewrite (proj2 (finish_summary_Ok v (footer v) "" summary Hfit)).
  - destruct Hv as (-> & v1 & Hv1 & Hvs). pose proof (visited_size _ _ _ Hv1) as [Hpos Hmax].
    cbn [fmap list_fmap snd]. rewrite frames_cons. unfold frame_of, frame. rewrite !app_string_assoc.
    cbn [visit_loop]. erewrite (proj2 (read_exact_Ok 8 _ _ (be_bytes 8 (str_len (to_json r))))); [|split; [done|by rewrite be_bytes_len]].
    rewrite be_value_8 by done. destruct (N.eqb_spec (str_len (to_json r)) 0) as [|_]; [lia|].
    erewrite (proj2 (visit_frame_Ok v (str_len (to_json r)) _ _ v1 (position_of v r) r)); [|by split_and!].
    cbn. rewrite (IH l v1 _ v' summary); [|by eapply visited_fits|lia|done..]. by rewrite <-app_assoc.
Qed.

(** ** The encoder writes what the visit accepts *)

(** The encoder and the visit after the same records. *)
Record aligned (e : Encoder) (v : Visit) : Prop := {
  al_written : en_written e = vi_hashed v;
  al_hashed : en_hashed e = vi_hashed v;
  al_count : en_count e = su_records (vi_summary v);
  al_total : en_total e = su_bytes (vi_summary v);
  al_previous : en_previous e = vi_previous v;
}.

(** The per-kind counters of a summary stay within its totals. *)
Definition layouts_ok (s : StreamSummary) : Prop :=
  length (su_kinds s) = 25%nat ∧
  Forall (λ k, kl_records k ≤ su_records s ∧ kl_framed_bytes k + 8 ≤ su_bytes s) (su_kinds s).

Lemma encode_record_Ok r e e' :
  encode_record r e = (e', Ok tt) ↔
  after_previous (en_previous e) (order r) = true ∧ record_pending r = true ∧
  (∃ limit, record_limit (kind_of r) = Ok limit ∧ str_len (to_json r) ≤ limit) ∧
  en_count e + 1 ≤ u64_max ∧ en_total e + (str_len (to_json r) + FRAME_HEADER_BYTES) ≤ u64_max ∧
  e' = {| en_written := en_written e +:+ frame_of r; en_hashed := en_hashed e +:+ frame_of r;
          en_count := en_count e + 1; en_total := en_total e + (str_len (to_json r) + FRAME_HEADER_BYTES);
          en_previous := Some (order r) |}.
Proof.
  unfold encode_record. rewrite st_bind_get. split.
  - intros Hf. apply st_bind_Ok in Hf as (? & [] & [-> Ho]%st_lift_Ok & Hf). rewrite st_bind_modify in Hf.
    apply st_bind_Ok in Hf as (? & payload & [-> [Hp ->]%record_bytes_of_Ok]%st_lift_Ok & Hf).
    apply st_bind_Ok in Hf as (? & [] & [-> _]%st_lift_Ok & Hf).
    apply st_bind_Ok in Hf as (? & limit & [-> Hlim]%st_lift_Ok & Hf).
    apply st_bind_Ok in Hf as (? & [] & [-> Hle%demand_Ok%N.leb_le]%st_lift_Ok & Hf). rewrite st_bind_modify in Hf.
    apply st_bind_Ok in Hf as (? & n & [-> Hn]%st_lift_Ok & Hf). rewrite st_bind_modify in Hf.
    apply st_bind_Ok in Hf as (? & t & [-> Ht]%st_lift_Ok & Hf). apply st_modify_Ok in Hf as ->.
    apply context_or_Ok, checked_add_Some in Hn as [-> Hn]. apply context_or_Ok, bind_Some in Ht as (t1 & Ht1 & Ht).
    apply checked_add_Some in Ht1 as [-> _]. apply checked_add_Some in Ht as [-> Ht]. apply demand_Ok in Ho.
    split_and!; try done; [by exists limit|lia|].
    unfold set_en_total, set_en_count, emit, set_previous. cbn. f_equal. lia.
  - intros (Ho & Hp & (limit & Hlim & Hle) & Hn & Ht & ->).
    pose proof (record_limit_max _ _ Hlim) as Hmax.
    rewrite (st_bind_lift _ _ _ tt) by (by apply demand_Ok). rewrite st_bind_modify.
    rewrite (st_bind_lift _ _ _ (to_json r)) by (by apply record_bytes_of_Ok).
    rewrite (st_bind_lift _ _ _ tt) by (apply demand_Ok, N.leb_le; lia).
    rewrite (st_bind_lift _ _ _ _ Hlim). rewrite (st_bind_lift _ _ _ tt) by (by apply demand_Ok, N.leb_le).
    rewrite st_bind_modify.
    rewrite (st_bind_lift _ _ _ (en_count e + 1)) by (by apply context_or_Ok, checked_add_Some). rewrite st_bind_modify.
    rewrite (st_bind_lift _ _ _ (en_total e + FRAME_HEADER_BYTES + str_len (to_json r))).
    2:{ apply context_or_Ok, bind_Some. exists (en_total e + FRAME_HEADER_BYTES).
        rewrite !checked_add_Some. split_and!; done || lia. }
    unfold st_modify, set_en_total, set_en_count, emit, set_previous. cbn. f_equal. f_equal. lia.
Qed.

Lemma record_work_Ok k w s s' :
  record_work k w s = Ok s' ↔ ∃ l, su_kinds s !! N.to_nat k = Some l ∧
    s' = {| su_records := su_records s; su_bytes := su_bytes s;
            su_kinds := <[N.to_nat k :=
              {| kl_records := kl_records l; kl_framed_bytes := kl_framed_bytes l;
                 maximum_payload_bytes := maximum_payload_bytes l;
                 kl_maximum_decode_work := kl_maximum_decode_work l `max` w |}]> (su_kinds s) |}.
Proof.
  unfold record_work. rewrite bind_Ok. setoid_rewrite context_or_Ok. split.
  - intros (l & Hl & [= <-]). by exists l.
  - intros (l & Hl & ->). by exists l.
Qed.

Lemma visited_encoded e v r v' :
  aligned e v → visits_one v r v' → ∃ e', encode_record r e = (e', Ok tt) ∧ aligned e' v'.
Proof.
  intros [Hw Hh Hc Ht Hp] (Hpend & _ & work & s1 & s2 & c & _ & Hs1 & Hs2 & Ho & _ & ->).
  apply summary_add_Ok in Hs1 as (_ & Hlim & l & Hl & _ & _ & _ & Hr & Hb & ->).
  apply record_work_Ok in Hs2 as (l' & Hl' & ->).
  eexists. split.
  - apply encode_record_Ok. rewrite Hp, Hc, Ht. split_and!; try done.
  - constructor; cbn; rewrite ?Hw, ?Hh, ?Hc, ?Ht; done.
Qed.

Lemma visits_encoded l : ∀ e v v', aligned e v → visits v l v' →
  ∃ e', st_fold (λ _, encode_record) tt (l.*2) e = (e', Ok tt) ∧ aligned e' v'.
Proof.
  induction l as [|[p r] l IH]; intros e v v' Ha Hv.
  - cbn in Hv. subst v'. by exists e.
  - destruct Hv as (_ & v1 & Hv1 & Hvs). destruct (visited_encoded e v r v1 Ha Hv1) as (e1 & He1 & Ha1).
    destruct (IH e1 v1 v' Ha1 Hvs) as (e' & He' & Ha'). exists e'. split; [|done].
    cbn [fmap list_fmap snd]. rewrite st_fold_cons. by rewrite (st_bind_run _ _ _ _ _ He1).
Qed.

Lemma visits_hashed l : ∀ v v', visits v l v' → vi_hashed v' = vi_hashed v +:+ frames (l.*2).
Proof.
  induction l as [|[p r] l IH]; intros v v' Hv.
  - cbn in Hv. subst v'. cbn. by rewrite app_string_nil_r.
  - destruct Hv as (_ & v1 & Hv1 & Hvs). rewrite (IH v1 v' Hvs).
    destruct Hv1 as (_ & _ & ? & ? & ? & ? & _ & _ & _ & _ & _ & ->). cbn [vi_hashed].
    cbn [fmap list_fmap snd]. by rewrite frames_cons, app_string_assoc.
Qed.

(** The checks of the records alone, with their number. *)
Definition check_step (nc : N * Checks) (r : SnapshotRecord) : Anyhow (N * Checks) :=
  c ← visit_check (nc.1 + 1) nc.2 r;
  Ok (nc.1 + 1, c).

Definition measurable (r : SnapshotRecord) : Prop := ∃ work, measure site_bytes (to_json r) = Ok work.

Lemma layouts_visit k n w s s1 s2 :
  layouts_ok s → summary_add k n s = Ok s1 → record_work k w s1 = Ok s2 → layouts_ok s2.
Proof.
  intros [Hlen Hk] Hs1 Hs2. apply summary_add_Ok in Hs1 as (_ & _ & l & Hl & _ & _ & _ & _ & _ & ->).
  apply record_work_Ok in Hs2 as (l' & Hl' & ->). cbn in *.
  rewrite list_lookup_insert_eq in Hl' by (by eapply lookup_lt_Some). injection Hl' as <-.
  rewrite list_insert_insert_eq. split; cbn [su_kinds su_records su_bytes]; [by rewrite length_insert|].
  pose proof (Forall_lookup_1 _ _ _ _ Hk Hl) as [H1' H2']. apply Forall_insert; [|cbn; lia].
  eapply Forall_impl; [exact Hk|]. cbn. intros x [? ?]. lia.
Qed.

Lemma visit_encoded e v r e' n c :
  aligned e v → layouts_ok (vi_summary v) → 0 < str_len (to_json r) →
  encode_record r e = (e', Ok tt) → readable r → measurable r →
  check_step (su_records (vi_summary v), vi_checks v) r = Ok (n, c) →
  ∃ v', visits_one v r v' ∧ aligned e' v' ∧ layouts_ok (vi_summary v') ∧
    n = su_records (vi_summary v') ∧ c = vi_checks v'.
Proof.
  intros Ha Hlay Hpos He Hread [work Hwork] Hck. pose proof Ha as [Hw Hh Hc Ht Hp]. pose proof Hlay as [Hlen Hkinds].
  unfold check_step in Hck. apply bind_Ok in Hck as (c1 & Hck & [= <- <-]). cbn [fst snd] in *.
  pose proof He as (Ho & Hpend & (limit & Hlim & Hle) & Hn & Ht' & ->)%encode_record_Ok.
  destruct (lookup_lt_is_Some_2 (su_kinds (vi_summary v)) (N.to_nat (kind_of r))) as [l Hl].
  { pose proof (kind_of_bound r). lia. }
  pose proof (Forall_lookup_1 _ _ _ _ Hkinds Hl) as [H1' H2']. rewrite Hc in Hn. rewrite Ht in Ht'.
  assert (Hs1 : ∃ s1, summary_add (kind_of r) (str_len (to_json r)) (vi_summary v) = Ok s1).
  { eexists. apply summary_add_Ok. split; [done|]. split; [by exists limit|]. exists l. split_and!; done || lia. }
  destruct Hs1 as [s1 Hs1]. pose proof (proj1 (summary_add_Ok _ _ _ _) Hs1) as (_ & _ & l1 & Hl1 & _ & _ & _ & _ & _ & Hs1').
  assert (Hs2 : ∃ s2, record_work (kind_of r) work s1 = Ok s2).
  { eexists. apply record_work_Ok. eexists. split; [|done]. rewrite Hs1'. cbn.
    apply list_lookup_insert_eq. by eapply lookup_lt_Some. }
  destruct Hs2 as [s2 Hs2]. pose proof (proj1 (record_work_Ok _ _ _ _) Hs2) as (l2 & _ & Hs2').
  assert (Hrec : su_records s2 = su_records (vi_summary v) + 1) by (by rewrite Hs2', Hs1').
  assert (Hv : ∃ v', visits_one v r v' ∧ vi_summary v' = s2 ∧ vi_checks v' = c1).
  { exists {| vi_hashed := vi_hashed v +:+ frame (kind_of r) (to_json r); vi_summary := s2;
              vi_previous := Some (order r); vi_checks := c1 |}.
    split; [|done]. split; [done|]. split; [done|]. exists work, s1, s2, c1. rewrite Hrec, <-Hp. done. }
  destruct Hv as (v' & Hv & Hsum & Hchk). exists v'. split; [done|].
  destruct (visited_encoded e v r v' Ha Hv) as (e1 & He1 & Ha1).
  rewrite He in He1. injection He1 as <-. split; [done|]. rewrite Hsum. split; [by eapply layouts_visit|]. by rewrite Hchk.
Qed.

Lemma visits_of_encoded l : ∀ e v e' n c,
  aligned e v → layouts_ok (vi_summary v) → Forall (λ r, 0 < str_len (to_json r)) l →
  st_fold (λ _, encode_record) tt l e = (e', Ok tt) → Forall readable l → Forall measurable l →
  try_fold check_step (su_records (vi_summary v), vi_checks v) l = Ok (n, c) →
  ∃ pl v', pl.*2 = l ∧ visits v pl v' ∧ aligned e' v' ∧ c = vi_checks v'.
Proof.
  induction l as [|r l IH]; intros e v e' n c Ha Hlay Hpos He Hread Hmeas Hck.
  - rewrite st_fold_nil in He. rewrite try_fold_nil in Hck. injection He as <-. injection Hck as _ <-.
    by exists [], v.
  - apply Forall_cons in Hpos as [Hp Hpos]. apply Forall_cons in Hread as [Hr Hread].
    apply Forall_cons in Hmeas as [Hm Hmeas]. rewrite st_fold_cons in He.
    apply st_bind_Ok in He as (e1 & [] & He1 & He). rewrite try_fold_cons in Hck.
    apply bind_Ok in Hck as ([n1 c1] & Hc1 & Hck).
    destruct (visit_encoded e v r e1 n1 c1 Ha Hlay Hp He1 Hr Hm Hc1) as (v1 & Hv1 & Ha1 & Hl1 & -> & ->).
    destruct (IH e1 v1 e' n c Ha1 Hl1 Hpos He Hread Hmeas Hck) as (pl & v' & Hpl & Hvs & Ha' & Hc).
    exists ((position_of v r, r) :: pl), v'. cbn. rewrite Hpl. split_and!; try done. by exists v1.
Qed.

Definition start : Visit :=
  {| vi_hashed := MAGIC; vi_summary := empty_summary; vi_previous := None; vi_checks := no_checks |}.

Lemma start_aligned : aligned new_encoder start.
Proof. done. Qed.
Lemma start_layouts : layouts_ok empty_summary.
Proof. split; [done|]. by repeat constructor. Qed.
Lemma start_fits : fits empty_summary.
Proof. by split. Qed.

(** The bytes of a visited stream. *)
Lemma encode_visits l v' :
  visits start l v' →
  encode (l.*2) = Ok (MAGIC +:+ frames (l.*2) +:+ be_bytes 8 0 +:+ footer v').
Proof.
  intros Hv. destruct (visits_encoded l new_encoder start v' start_aligned Hv) as (e' & He' & [Hw Hh Hc Ht _]).
  unfold encode. rewrite He'. unfold finish_encoder, footer. rewrite Hw, Hh, Hc, Ht, (visits_hashed _ _ _ Hv).
  by rewrite !app_string_assoc.
Qed.

Lemma visit_collect stream out summary :
  visit site_bytes collect stream [] = (out, Ok summary) →
  ∃ v', visits start out v' ∧ stream = MAGIC +:+ frames (out.*2) +:+ be_bytes 8 0 +:+ footer v' ∧
    ck_audit (vi_checks v') = Some (ck_audit_next (vi_checks v')) ∧ closing v' summary.
Proof.
  unfold visit. destruct (read_magic stream) as [rest [[]|e]] eqn:Hm; [|done].
  unfold read_magic in Hm. apply st_bind_Ok in Hm as (? & magic & [-> Hlen]%read_exact_Ok & Hm).
  apply st_lift_Ok in Hm as [-> Hm]. apply demand_Ok, bool_decide_eq_true in Hm as ->.
  match goal with |- context [visit_loop ?a ?b ?c ?d ?e] => destruct (visit_loop a b c d e) as [[r o] res] eqn:Hl end.
  intros [= -> ->]. apply visit_loop_sound in Hl as (l & v' & -> & Hv & -> & Haud & Hc); [|apply start_fits].
  by exists v'.
Qed.

Lemma frames_len l : (length l ≤ String.length (frames l))%nat.
Proof.
  induction l as [|r l IH]; [done|]. rewrite frames_cons.
  pose proof (str_len_app (frame_of r) (frames l)) as Ha.
  assert (Hb : 8 ≤ str_len (frame_of r)) by (unfold frame_of, frame; rewrite str_len_app, be_bytes_len; lia).
  unfold str_len in *. cbn [length]. lia.
Qed.

Lemma visit_frames l v' summary :
  visits start l v' → ck_audit (vi_checks v') = Some (ck_audit_next (vi_checks v')) → closing v' summary →
  visit site_bytes collect (MAGIC +:+ frames (l.*2) +:+ be_bytes 8 0 +:+ footer v') [] = (l, Ok summary).
Proof.
  intros Hv Haud Hc. unfold visit, read_magic.
  erewrite st_bind_run; [|by apply read_exact_Ok]. rewrite bool_decide_eq_true_2 by done.
  change (st_lift (demand true _) ?s) with (s, @Ok anyhow unit tt). cbv iota beta.
  assert (Hlen : (length l < S (String.length (MAGIC +:+ frames (l.*2) +:+ be_bytes 8 0 +:+ footer v')))%nat).
  { pose proof (frames_len (l.*2)) as Hf. rewrite length_fmap in Hf.
    pose proof (str_len_app MAGIC (frames (l.*2) +:+ be_bytes 8 0 +:+ footer v')) as H1'.
    pose proof (str_len_app (frames (l.*2)) (be_bytes 8 0 +:+ footer v')) as H2'. unfold str_len in *. lia. }
  pose proof (visit_loop_complete _ l start [] v' summary start_fits Hlen Hv Haud Hc) as Hl.
  fold start. by rewrite Hl.
Qed.

(** ** Inspection sees the same stream *)

Lemma inspect_payload_run fuel : ∀ payload hashed m m' rest,
  scalar_bytes m ≤ u64_max → wire_bytes m ≤ u64_max → str_len payload ≤ N.of_nat fuel * BUFFER →
  consume payload m = (m', Ok tt) →
  inspect_payload fuel (str_len payload) hashed m (payload +:+ rest) = (rest, Ok (hashed +:+ payload, m')).
Proof.
  assert (Hnil : ∀ m m', scalar_bytes m ≤ u64_max → consume "" m = (m', Ok tt) → m' = m).
  { intros m m' Hm Hc. apply consume_Ok in Hc as [_ Hc]; [|done]. cbn in Hc. injection Hc as <-.
    change (str_len "") with 0. rewrite N.add_0_r. by destruct m. }
  induction fuel as [|fuel IH]; intros payload hashed m m' rest Hm Hw Hf Hc.
  - destruct payload; [|rewrite str_len_cons in Hf; lia]. apply Hnil in Hc as ->; [|done]. cbn.
    by rewrite app_string_nil_r.
  - cbn [inspect_payload]. destruct (N.eqb_spec (str_len payload) 0) as [H0'|H0'].
    { destruct payload; [|rewrite str_len_cons in H0'; lia]. apply Hnil in Hc as ->; [|done].
      by rewrite app_string_nil_r. }
    destruct (string_split (str_len payload `min` BUFFER) payload) as (a & b & -> & Ha); [lia|].
    rewrite <-Ha, app_string_assoc. erewrite st_bind_run; [|by apply read_exact_Ok].
    apply consume_app in Hc as (m1 & H1' & H2'); [|done]. rewrite H1'.
    rewrite str_len_app in *. replace (str_len a + str_len b - str_len a) with (str_len b) by lia.
    apply consume_Ok in H1' as [Hb1 H1']; [|done].
    rewrite (IH b _ m1 m' rest); [by rewrite app_string_assoc|..|done].
    + by eapply meter_bytes_bound; [|exact H1'].
    + apply meter_bytes_wire_same in H1'. cbn in H1'. lia.
    + lia.
Qed.

(** Where the visit stands: before the header, or after a record of some kind. *)
Definition standing (v : Visit) (previous : N) : Prop :=
  (su_records (vi_summary v) = 0 ∧ ck_audit (vi_checks v) = None) ∨
  (0 < su_records (vi_summary v) ∧ ∃ o, vi_previous v = Some o ∧ o.1.1 = previous).

Lemma order_ltb_kind a b : order_ltb a b = true → a.1.1 ≤ b.1.1.
Proof.
  unfold order_ltb. intros [Hl%N.ltb_lt|Hl]%orb_true_iff; [lia|].
  apply andb_true_iff in Hl as [Hl%N.eqb_eq _]. lia.
Qed.

Lemma visit_check_kind n c r c' :
  visit_check n c r = Ok c' →
  (kind_of r = 0 ∧ n = 1) ∨ (0 < kind_of r ∧ is_Some (ck_audit c)).
Proof.
  unfold visit_check. intros Hc. destruct r; try (right; split; [done|]; apply seq_Ok in Hc as [Hc%demand_Ok%bool_decide_eq_true _]; exact Hc).
  left. apply seq_Ok in Hc as [Hc%demand_Ok%andb_true_iff _]. destruct Hc as [Hc%N.eqb_eq _]. done.
Qed.

Lemma visited_standing v r v' previous :
  standing v previous → visits_one v r v' →
  standing v' (kind_of r) ∧
  ((su_records (vi_summary v) =? 0) && (kind_of r =? 0)) ||
  ((0 <? su_records (vi_summary v)) && (0 <? kind_of r) && (previous <=? kind_of r)) = true.
Proof.
  intros Hst (_ & _ & work & s1 & s2 & c & _ & Hs1 & Hs2 & Ho & Hck & ->).
  apply summary_add_Ok in Hs1 as (_ & _ & l & _ & _ & _ & _ & _ & _ & ->). apply record_work_Ok in Hs2 as (l' & _ & ->).
  cbn in *. pose proof (visit_check_kind _ _ _ _ Hck) as Hk.
  split; [right; cbn; split; [lia|]; by exists (order r)|]. apply orb_true_iff.
  destruct Hst as [[Hz Ha]|[Hz (o & Hpo & Hko)]].
  - left. destruct Hk as [[Hk _]|[_ [x Hx]]]; [|congruence]. by rewrite Hz, Hk.
  - right. destruct Hk as [[_ Hk]|[Hk _]]; [lia|]. rewrite Hpo in Ho. apply order_ltb_kind in Ho.
    apply andb_true_iff. split; [apply andb_true_iff; split; by apply N.ltb_lt|].
    apply N.leb_le. unfold kind_of. lia.
Qed.

Lemma inspect_loop_visits fuel : ∀ l v v' previous summary,
  fits (vi_summary v) → (length l < fuel)%nat → visits v l v' → standing v previous → closing v' summary →
  inspect_loop site_bytes fuel
    {| ins_hashed := vi_hashed v; ins_summary := vi_summary v; ins_previous := previous |}
    (frames (l.*2) +:+ be_bytes 8 0 +:+ footer v') = ("", Ok summary).
Proof.
  induction fuel as [|fuel IH]; intros [|[p r] l] v v' previous summary Hfit Hfuel Hv Hst Hclose;
    cbn in Hfuel; try lia; cbn [inspect_loop].
  - cbn in Hv. subst v'. rewrite (st_bind_run _ _ _ (footer v) (be_bytes 8 0)) by (by apply read_exact_Ok).
    change (be_value (be_bytes 8 0) 0 =? 0) with true. cbv iota.
    by apply (proj2 (finish_summary_Ok v (footer v) "" summary Hfit)).
  - destruct Hv as (-> & v1 & Hv1 & Hvs). pose proof (visited_size _ _ _ Hv1) as [Hpos Hmax].
    pose proof (visited_standing v r v1 previous Hst Hv1) as [Hst1 Hkind].
    pose proof Hv1 as (_ & _ & work & s1 & s2 & c & Hwork & Hs1 & Hs2 & _ & _ & Hv1').
    cbn [fmap list_fmap snd]. rewrite frames_cons. unfold frame_of, frame. rewrite !app_string_assoc.
    erewrite st_bind_run; [|apply read_exact_Ok; split; [done|by rewrite be_bytes_len]].
    rewrite be_value_8 by done. destruct (N.eqb_spec (str_len (to_json r)) 0) as [|_]; [lia|].
    erewrite st_bind_run; [|by apply read_exact_Ok].
    assert (Hkv : be_value (kind_byte (kind_of r)) 0 = kind_of r).
    { apply kind_byte_value. pose proof (kind_of_bound r). lia. }
    rewrite Hkv. cbn [ins_hashed ins_summary ins_previous].
    rewrite (st_bind_lift _ _ _ tt) by (by apply demand_Ok). rewrite (st_bind_lift _ _ _ _ Hs1).
    destruct (measure_consume _ _ _ Hwork) as (m & Hm & Hfin).
    erewrite st_bind_run.
    2:{ apply (inspect_payload_run _ (to_json r) _ empty_meter m); [done..| |done].
        pose proof (N.div_mod (str_len (to_json r)) BUFFER ltac:(done)).
        pose proof (N.mod_lt (str_len (to_json r)) BUFFER ltac:(done)). lia. }
    cbn [fst snd]. rewrite (st_bind_lift _ _ _ _ Hfin), (st_bind_lift _ _ _ _ Hs2).
    specialize (IH l v1 v' (kind_of r) summary (visited_fits _ _ _ Hv1) ltac:(lia) Hvs Hst1 Hclose).
    rewrite Hv1' in IH at 1 2. cbn [vi_hashed vi_summary] in IH. unfold frame in IH.
    by rewrite app_string_assoc.
Qed.

(** A position addresses the bytes of its record. *)
Lemma visits_positions l : ∀ v v' pre post,
  str_len pre = su_bytes (vi_summary v) → visits v l v' →
  Forall (λ pr, String.substring (N.to_nat (offset pr.1)) (N.to_nat (rp_bytes pr.1))
                  (pre +:+ frames (l.*2) +:+ post) = to_json pr.2) l.
Proof.
  induction l as [|[p r] l IH]; intros v v' pre post Hpre Hv; [done|].
  destruct Hv as (-> & v1 & Hv1 & Hvs). cbn [fmap list_fmap snd]. rewrite frames_cons, app_string_assoc.
  constructor.
  - unfold frame_of, frame. rewrite !app_string_assoc. cbn [fst snd position_of offset rp_bytes].
    set (head := be_bytes 8 (str_len (to_json r))). set (tail := frames (l.*2) +:+ post).
    replace (pre +:+ head +:+ kind_byte (kind_of r) +:+ to_json r +:+ tail)
      with ((pre +:+ head +:+ kind_byte (kind_of r)) +:+ to_json r +:+ tail) by (by rewrite !app_string_assoc).
    apply slice_middle; [|by rewrite N2Nat.id]. unfold head.
    rewrite N2Nat.id, !str_len_app, be_bytes_len, Hpre. change (str_len (kind_byte _)) with 1.
    unfold FRAME_HEADER_BYTES. lia.
  - rewrite <-(app_string_assoc pre). eapply (IH v1 v'); [|done].
    destruct Hv1 as (_ & _ & work & s1 & s2 & c & _ & Hs1 & Hs2 & _ & _ & ->). cbn [vi_summary].
    apply summary_add_Ok in Hs1 as (_ & _ & k & _ & _ & _ & _ & _ & _ & ->). apply record_work_Ok in Hs2 as (k' & _ & ->).
    cbn [su_bytes]. unfold frame_of, frame. rewrite !str_len_app, be_bytes_len, Hpre.
    change (str_len (kind_byte _)) with 1. unfold FRAME_HEADER_BYTES. lia.
Qed.

Lemma visits_totals l : ∀ v v', visits v l v' →
  su_bytes (vi_summary v') = su_bytes (vi_summary v) + str_len (frames (l.*2)) ∧
  su_records (vi_summary v') = su_records (vi_summary v) + len l.
Proof.
  induction l as [|[p r] l IH]; intros v v' Hv.
  - cbn in Hv. subst v'. change (str_len (frames _)) with 0. unfold len. cbn. lia.
  - destruct Hv as (_ & v1 & Hv1 & Hvs). destruct (IH _ _ Hvs) as [-> ->].
    destruct Hv1 as (_ & _ & work & s1 & s2 & c & _ & Hs1 & Hs2 & _ & _ & ->). cbn [vi_summary].
    apply summary_add_Ok in Hs1 as (_ & _ & k & _ & _ & _ & _ & _ & _ & ->). apply record_work_Ok in Hs2 as (k' & _ & ->).
    cbn [su_bytes su_records fmap list_fmap snd]. rewrite frames_cons, str_len_app, len_cons.
    unfold frame_of, frame. rewrite !str_len_app, be_bytes_len. change (str_len (kind_byte _)) with 1.
    unfold FRAME_HEADER_BYTES. lia.
Qed.

Lemma footer_len v : str_len (footer v) = 48.
Proof. unfold footer. rewrite !str_len_app, !be_bytes_len, sha256_bytes_len. done. Qed.

(** What the encoder writes for checked records, the visit reads back. *)
Lemma visit_encode records stream n c :
  encode records = Ok stream → Forall (λ r, 0 < str_len (to_json r)) records → Forall readable records →
  Forall measurable records → records ≠ [] → str_len stream ≤ u64_max →
  try_fold check_step (0, no_checks) records = Ok (n, c) → ck_audit c = Some (ck_audit_next c) →
  ∃ out summary, visit site_bytes collect stream [] = (out, Ok summary) ∧ out.*2 = records.
Proof.
  intros Henc Hpos Hread Hmeas Hne Hlen Hck Haud. unfold encode in Henc.
  destruct (st_fold _ tt records new_encoder) as [e [[]|err]] eqn:He; [|done].
  destruct (visits_of_encoded records new_encoder start e n c start_aligned start_layouts Hpos He Hread Hmeas Hck)
    as (out & v' & Hout & Hv & Ha & ->).
  pose proof (encode_visits out v' Hv) as Henc'. rewrite Hout in Henc'. unfold encode in Henc'. rewrite He in Henc'.
  assert (Hs : stream = MAGIC +:+ frames records +:+ be_bytes 8 0 +:+ footer v') by congruence.
  clear Henc Henc'. rewrite Hs in Hlen |- *.
  destruct (visits_totals out start v' Hv) as [Hb Hr].
  change (su_bytes (vi_summary start)) with 8 in Hb. change (su_records (vi_summary start)) with 0 in Hr. rewrite Hout in Hb.
  exists out. eexists. split; [|done]. rewrite <-Hout. apply visit_frames; [done|done|].
  split; [|split; [|done]].
  - rewrite Hr. destruct out; [by destruct records|]. rewrite len_cons. lia.
  - rewrite !str_len_app, footer_len in Hlen. rewrite Hb. change (str_len MAGIC) with 8 in Hlen.
    change (str_len (be_bytes 8 0)) with 8 in Hlen. lia.
Qed.

(** Any visitor runs over the records that [collect] collects. *)
Lemma visit_loop_with fuel : ∀ v rest pre rest' out summary,
  visit_loop site_bytes collect fuel v (rest, pre) = ((rest', out), Ok summary) →
  ∃ l, out = pre ++ l ∧ ∀ V (visitor : RecordPosition → SnapshotRecord → ST V anyhow unit) acc acc',
    st_fold (λ _ pr, visitor pr.1 pr.2) tt l acc = (acc', Ok tt) →
    visit_loop site_bytes visitor fuel v (rest, acc) = ((rest', acc'), Ok summary).
Proof.
  induction fuel as [|fuel IH]; intros v rest pre rest' out summary; [done|]. cbn [visit_loop].
  destruct (read_exact 8 rest) as [rest1 [len8|e]]; [|done].
  destruct (be_value len8 0 =? 0).
  - match goal with |- context [let '(_, _) := ?x in _] => destruct x as [rest2 r] end. intros [= <- <- ->].
    exists []. split; [by rewrite app_nil_r|]. intros V visitor acc acc' Hf. by injection Hf as <-.
  - destruct (visit_frame site_bytes v len8 (be_value len8 0) rest1) as [rest2 [[[v1 p] r]|e]]; [|done].
    cbn. intros Hl. apply IH in Hl as (l & -> & Hrun). exists ((p, r) :: l). split; [by rewrite <-app_assoc|].
    intros V visitor acc acc' Hf. rewrite st_fold_cons in Hf. apply st_bind_Ok in Hf as (acc1 & [] & Hr & Hf).
    cbn in Hr. rewrite Hr. by apply Hrun.
Qed.

Lemma visit_with stream out summary V (visitor : RecordPosition → SnapshotRecord → ST V anyhow unit) acc acc' :
  visit site_bytes collect stream [] = (out, Ok summary) →
  st_fold (λ _ pr, visitor pr.1 pr.2) tt out acc = (acc', Ok tt) →
  visit site_bytes visitor stream acc = (acc', Ok summary).
Proof.
  unfold visit. destruct (read_magic stream) as [rest [[]|e]]; [|done].
  match goal with |- context [visit_loop ?a collect ?c ?d ?e] =>
    destruct (visit_loop a collect c d e) as [[r o] res] eqn:Hl end.
  intros [= -> ->] Hf. apply visit_loop_with in Hl as (l & -> & Hrun). by rewrite (Hrun V visitor acc acc' Hf).
Qed.

(** C22. A snapshot stream is authenticated in full before anything is
    accepted: the visit accepts only the exact bytes the encoder writes for the
    records it delivered, in order, with their number, total length and digest;
    the inspection that ran before any record was decoded accepted the same
    stream with the same summary; and the position reported for every record
    addresses exactly its bytes. *)
Theorem snapshot_stream_exact stream out summary :
  visit site_bytes collect stream [] = (out, Ok summary) →
  encode (out.*2) = Ok stream ∧ inspect site_bytes stream = Ok summary ∧
  su_bytes summary = str_len stream ∧ su_records summary = len out ∧
  Forall (λ pr, String.substring (N.to_nat (offset pr.1)) (N.to_nat (rp_bytes pr.1)) stream = to_json pr.2) out.
Proof.
  intros Hvisit. apply visit_collect in Hvisit as (v' & Hv & -> & _ & Hclose).
  destruct (visits_totals out start v' Hv) as [Hb Hr].
  change (su_bytes (vi_summary start)) with 8 in Hb. change (su_records (vi_summary start)) with 0 in Hr.
  pose proof Hclose as (_ & Hmax & Hsum). split; [by apply encode_visits|]. split; [|split; [|split]].
  - unfold inspect, read_magic.
    erewrite st_bind_run; [|erewrite st_bind_run; [|by apply read_exact_Ok]; by rewrite bool_decide_eq_true_2].
    assert (Hlen : (length out < S (String.length (MAGIC +:+ frames (out.*2) +:+ be_bytes 8 0 +:+ footer v')))%nat).
    { pose proof (frames_len (out.*2)) as Hf. rewrite length_fmap in Hf.
      pose proof (str_len_app MAGIC (frames (out.*2) +:+ be_bytes 8 0 +:+ footer v')) as H1'.
      pose proof (str_len_app (frames (out.*2)) (be_bytes 8 0 +:+ footer v')) as H2'. unfold str_len in *. lia. }
    pose proof (inspect_loop_visits _ out start v' 0 summary start_fits Hlen Hv ltac:(by left) Hclose) as Hi.
    cbn [vi_hashed vi_summary start] in Hi. by rewrite Hi.
  - rewrite Hsum, !str_len_app, footer_len. cbn [su_bytes]. rewrite Hb. change (str_len MAGIC) with 8.
    change (str_len (be_bytes 8 0)) with 8. lia.
  - rewrite Hsum. cbn [su_records]. rewrite Hr. lia.
  - by apply (visits_positions out start v').
Qed.
End exact.

(** ** A sample stream *)

Module SnapshotSample.
#[export] Instance sha : Sha256 := Sample.sha.
#[export] Instance sha_bytes : Sha256Bytes := λ _, Sample.zeros 32.
#[export] Instance sha_width : Sha256Width.
Proof. intros s. reflexivity. Defined.
#[export] Instance parse : UuidParse := Sample.parse.
#[export] Instance rules : RecordRules :=
  {| validate_resolution := λ _, Ok tt; validate_recovery := λ _, Ok tt;
     validate_recovery_phase := λ _, Ok tt; validate_recovery_history := λ _, Ok tt |}.

Definition header : SnapshotRecord := RHeader (set_collections ∅ (set_audits [] Sample.state)).
Definition sample_target : SnapshotRecord :=
  RTarget "i1" {| te_origin := VNull; te_completion := None; te_activation := None |}.
Definition records : list SnapshotRecord := [header; sample_target].

(** The deserializer, on the encodings of these records. *)
#[export] Instance from_json : FromSlice SnapshotRecord := λ bytes,
  if bool_decide (bytes = to_json header) then Ok header
  else if bool_decide (bytes = to_json sample_target) then Ok sample_target
  else Err (AnyMessage "unknown record").

Definition stream : string := Eval vm_compute in
  match encode records with Ok stream => stream | Err _ => "" end.
Definition reading := visit 96 collect stream [].
Definition summary : StreamSummary := Eval vm_compute in
  match reading.2 with Ok s => s | Err _ => empty_summary end.
End SnapshotSample.

#[local] Existing Instances SnapshotSample.sha SnapshotSample.sha_bytes SnapshotSample.sha_width
  SnapshotSample.parse SnapshotSample.rules SnapshotSample.from_json.

#[local] Opaque visit encode inspect.

Lemma snapshot_stream_exact_witness :
  let out := SnapshotSample.reading.1 in
  SnapshotSample.reading = (out, Ok SnapshotSample.summary) ∧ len out = 2 ∧
  encode (out.*2) = Ok SnapshotSample.stream.
Proof.
  assert (Hs : SnapshotSample.reading.2 = Ok SnapshotSample.summary) by (vm_compute; reflexivity).
  assert (Hv : SnapshotSample.reading = (SnapshotSample.reading.1, Ok SnapshotSample.summary)).
  { exact (eq_trans (surjective_pairing _) (f_equal (pair SnapshotSample.reading.1) Hs)). }
  assert (Hl : len SnapshotSample.reading.1 = 2) by (vm_compute; reflexivity).
  split; [exact Hv|]. split; [exact Hl|].
  exact (proj1 (snapshot_stream_exact 96 SnapshotSample.stream _ _ Hv)).
Defined.
