(* ===== verification/Permanent.v ===== *)
(** * The heads of the permanent histories

    Models how the resident heads of the permanent histories count their rows:
    [Row::framed_bytes] and [advance] of
    src/crates/kasumi-engine/src/staged_terminal.rs, target_resolution.rs and
    backup_binding.rs (mutation receipts are in [Receipts.v]), and
    [snapshot_limit] of target_resolution.rs, the bytes a snapshot may take:
    the resident budget and the rows that have budgets of their own. *)

From S2P Require Import Prelude Json Types Digest State Apply ChangeFeed Staging Ledger Wire Receipts Snapshot.

(** The bytes of a record in a stream. *)
Definition framed (r : SnapshotRecord) : N := str_len (to_json r) + FRAME_HEADER_BYTES.

Section rows.
Context `{Sha256}.

(** ** Staged terminals *)

Definition terminal_sha256 (r : TerminalRow) : Anyhow string :=
  any (fst <$> staged_digest ("kasumi.staged-terminal-row.v1", r)).

Definition framed_terminal (r : TerminalRow) : Anyhow N :=
  size ← any (encoded_len (RTerminal r));
  demand (size <=? MAX_ROW_BYTES) "terminal row exceeds canonical record budget";;
  context_or (checked_add size FRAME_HEADER_BYTES) "terminal row length overflow".

Definition advance_terminal (h : StagedTerminalHead) (r : TerminalRow) : Anyhow StagedTerminalHead :=
  next ← context_or (checked_add (th_count h) 1) "terminal ordinal exhausted";
  demand ((tm_ordinal r =? next) && bool_decide (tm_previous_sha256 r = th_sha256 h))
    "terminal row is not the next committed prefix";;
  n ← framed_terminal r;
  bytes ← context_or (checked_add (th_encoded_bytes h) n) "terminal permanent byte overflow";
  sha ← terminal_sha256 r;
  Ok {| th_origin_incarnation := th_origin_incarnation h; th_count := tm_ordinal r; th_encoded_bytes := bytes;
        th_sha256 := sha |}.

(** ** Charges of a durable pair

    Target resolutions and backup bindings are charged for their point and
    ordinal records, both keys and 32 bytes of framing, which must cover the
    record of the row in a snapshot. *)
Definition pair_charge (row_len index_len : N) (key : string) (ordinal : N) (overflow : string) : Anyhow N :=
  try_fold (λ total n, context_or (checked_add total n) overflow) 0
    [row_len; index_len; str_len (id_key key); str_len (ordinal_key ordinal); 32].

Definition covered (charge : N) (r : SnapshotRecord) (overflow uncovered : string) : Anyhow N :=
  size ← any (encoded_len r);
  snapshot_bytes ← context_or (checked_add size FRAME_HEADER_BYTES) overflow;
  demand (snapshot_bytes <=? charge) uncovered;;
  Ok charge.

(** ** Target resolutions *)

Definition MAX_RESOLUTION_BYTES : N := N.shiftl 256 10 + N.shiftl 64 10.

Definition resolution_sha256 (r : ResolutionRow) : Anyhow string :=
  any (fst <$> staged_digest ("kasumi.target-resolution-row.v1", r)).

Definition framed_resolution (r : ResolutionRow) : Anyhow N :=
  let size := str_len (to_json r) in
  demand (size <=? MAX_RESOLUTION_BYTES) "target terminal row exceeds per-record bound";;
  sha ← resolution_sha256 r;
  let index := {| o_key := rs_key r; o_sha256 := sha |} in
  charge ← pair_charge size (str_len (to_json index)) (rs_key r) (rs_ordinal r) "target terminal framing overflow";
  covered charge (RTargetResolution r) "target terminal snapshot framing overflow"
    "target terminal table charge does not cover canonical snapshot framing".

Definition advance_resolution (h : TargetResolutionPrefixHead) (r : ResolutionRow) : Anyhow TargetResolutionPrefixHead :=
  next ← context_or (checked_add (tr_count h) 1) "terminal ordinal exhausted";
  demand ((rs_ordinal r =? next) && bool_decide (rs_previous_sha256 r = tr_sha256 h))
    "terminal row is not the next committed prefix";;
  n ← framed_resolution r;
  bytes ← context_or (checked_add (tr_encoded_bytes h) n) "terminal permanent byte overflow";
  sha ← resolution_sha256 r;
  Ok {| tr_origin_incarnation := tr_origin_incarnation h; tr_count := rs_ordinal r; tr_encoded_bytes := bytes;
        tr_sha256 := sha |}.

(** ** Backup bindings *)

Definition binding_sha256 (r : BindingRow) : Anyhow string :=
  any (fst <$> staged_digest ("kasumi.backup-binding-row.v1", r)).

Definition framed_binding (r : BindingRow) : Anyhow N :=
  let size := str_len (to_json r) in
  demand (size <=? MAX_ROW_BYTES) "backup binding row exceeds per-record limit";;
  sha ← binding_sha256 r;
  let index := {| o_key := bi_key r; o_sha256 := sha |} in
  charge ← pair_charge size (str_len (to_json index)) (bi_key r) (bi_ordinal r) "backup binding charge overflow";
  covered charge (RBackupBinding r) "backup binding snapshot frame overflow"
    "backup binding table charge does not cover snapshot frame".

Definition advance_binding (h : BackupBindingHead) (r : BindingRow) : Anyhow BackupBindingHead :=
  next ← context_or (checked_add (bb_count h) 1) "backup binding count overflow";
  demand ((bi_ordinal r =? next) && bool_decide (bi_previous_sha256 r = bb_sha256 h) &&
          (bb_last_applied_revision h <? a_revision (bi_applied r)))
    "backup binding row is not the next committed prefix";;
  n ← framed_binding r;
  bytes ← context_or (checked_add (bb_encoded_bytes h) n) "backup binding table budget overflow";
  sha ← binding_sha256 r;
  Ok {| bb_origin_incarnation := bb_origin_incarnation h; bb_count := bi_ordinal r; bb_encoded_bytes := bytes;
        bb_last_applied_revision := a_revision (bi_applied r); bb_sha256 := sha |}.
End rows.

(** ** The limit of a snapshot *)

Definition snapshot_limit (s : TenantState) : Anyhow N :=
  let l := limits s in
  demand ((tr_encoded_bytes (target_resolution_head s) <=? max_target_resolution_bytes l) &&
          (mr_encoded_bytes (mutation_receipt_head s) <=? max_mutation_receipt_bytes l) &&
          (bb_encoded_bytes (backup_binding_head s) <=? max_backup_binding_bytes l))
    "selected permanent bytes exceed configured table budget";;
  context_or (checked_add (max_snapshot_bytes l) (tr_encoded_bytes (target_resolution_head s)) ≫= λ n,
              checked_add n (mr_encoded_bytes (mutation_receipt_head s)) ≫= λ n,
              checked_add n (bb_encoded_bytes (backup_binding_head s)))
    "combined permanent snapshot budget overflow".

(** ** What a head says of its rows *)

Lemma snapshot_limit_Ok s n :
  snapshot_limit s = Ok n →
  n = max_snapshot_bytes (limits s) + tr_encoded_bytes (target_resolution_head s) +
      mr_encoded_bytes (mutation_receipt_head s) + bb_encoded_bytes (backup_binding_head s).
Proof.
  unfold snapshot_limit. intros [_ Hn%context_or_Ok]%seq_Ok.
  apply bind_Some in Hn as (a & [-> _]%checked_add_Some & Hn).
  by apply bind_Some in Hn as (b & [-> _]%checked_add_Some & [-> _]%checked_add_Some).
Qed.

#[local] Opaque to_json staged_digest encoded_len.

(** A fold that adds at least, or exactly, the weight of every element. *)
Lemma advance_sum {Head Row} (step : Head → Row → Anyhow Head) (total : Head → N) (weight : Row → N) (R : N → N → Prop)
    `{!Reflexive R, !Transitive R} rows :
  (∀ a b c, R a b → R (a + c) (b + c)) →
  (∀ h r h', step h r = Ok h' → R (total h + weight r) (total h')) →
  ∀ h h', try_fold step h rows = Ok h' → R (total h + lsum weight rows) (total h').
Proof.
  intros Hadd Hstep. induction rows as [|r rows IH]; intros h h'.
  - intros [= <-]. by rewrite lsum_nil, N.add_0_r.
  - rewrite try_fold_cons. intros (h1 & H1%Hstep & Hf%IH)%bind_Ok. rewrite lsum_cons, N.add_assoc. etrans; [|exact Hf]. by apply Hadd.
Qed.

Section weights.
Context `{Sha256}.

Lemma receipt_weight h r h' :
  advance h r = Ok h' → mr_encoded_bytes h + framed (RReceipt r) = mr_encoded_bytes h'.
Proof.
  intros (n & Hn & Ha%advance_framed_Ok)%bind_Ok. destruct Ha as (_ & _ & _ & _ & _ & _ & ->). cbn [mr_encoded_bytes].
  unfold framed_receipt in Hn. apply bind_Ok in Hn as (m & [-> _]%any_Ok%encoded_len_Ok & Hn).
  by apply seq_Ok in Hn as [_ [-> _]%context_or_Ok%checked_add_Some].
Qed.

Lemma terminal_weight h r h' :
  advance_terminal h r = Ok h' → th_encoded_bytes h + framed (RTerminal r) = th_encoded_bytes h'.
Proof.
  intros (next & _ & [_ Ha]%seq_Ok)%bind_Ok. apply bind_Ok in Ha as (n & Hn & Ha).
  apply bind_Ok in Ha as (b & [-> _]%context_or_Ok%checked_add_Some & Ha). apply bind_Ok in Ha as (sha & _ & [= <-]).
  unfold framed_terminal in Hn. apply bind_Ok in Hn as (m & [-> _]%any_Ok%encoded_len_Ok & Hn).
  by apply seq_Ok in Hn as [_ [-> _]%context_or_Ok%checked_add_Some].
Qed.

Lemma covered_Ok charge r e1 e2 n : covered charge r e1 e2 = Ok n → framed r ≤ n.
Proof.
  intros (m & [-> _]%any_Ok%encoded_len_Ok & Hc)%bind_Ok. apply bind_Ok in Hc as (b & [-> _]%context_or_Ok%checked_add_Some & Hc).
  by apply seq_Ok in Hc as [Hle%demand_Ok%N.leb_le [= <-]].
Qed.

Lemma resolution_weight h r h' :
  advance_resolution h r = Ok h' → tr_encoded_bytes h + framed (RTargetResolution r) ≤ tr_encoded_bytes h'.
Proof.
  intros (next & _ & [_ Ha]%seq_Ok)%bind_Ok. apply bind_Ok in Ha as (n & Hn & Ha).
  apply bind_Ok in Ha as (b & [-> _]%context_or_Ok%checked_add_Some & Ha). apply bind_Ok in Ha as (sha & _ & [= <-]).
  cbn [tr_encoded_bytes]. unfold framed_resolution in Hn. apply seq_Ok in Hn as [_ Hn].
  apply bind_Ok in Hn as (s & _ & Hn). apply bind_Ok in Hn as (c & _ & Hn%covered_Ok). lia.
Qed.

Lemma binding_weight h r h' :
  advance_binding h r = Ok h' → bb_encoded_bytes h + framed (RBackupBinding r) ≤ bb_encoded_bytes h'.
Proof.
  intros (next & _ & [_ Ha]%seq_Ok)%bind_Ok. apply bind_Ok in Ha as (n & Hn & Ha).
  apply bind_Ok in Ha as (b & [-> _]%context_or_Ok%checked_add_Some & Ha). apply bind_Ok in Ha as (sha & _ & [= <-]).
  cbn [bb_encoded_bytes]. unfold framed_binding in Hn. apply seq_Ok in Hn as [_ Hn].
  apply bind_Ok in Hn as (s & _ & Hn). apply bind_Ok in Hn as (c & _ & Hn%covered_Ok). lia.
Qed.
End weights.

(** ** Histories selected by the heads of a state *)

Section chains.
Context `{Sha256}.

(** The rows that lead from an empty history to the head of the state. *)
Definition receipt_chain (s : TenantState) (rows : list ReceiptRow) : Prop :=
  chain_head (tenant s) (mr_origin_incarnation (mutation_receipt_head s)) rows = Ok (mutation_receipt_head s).

Definition terminal_chain (s : TenantState) (rows : list TerminalRow) : Prop :=
  (h ← any (staged_terminal_head_empty (tenant s) (th_origin_incarnation (staged_terminal_head s)));
   try_fold advance_terminal h rows) = Ok (staged_terminal_head s).

Definition resolution_chain (s : TenantState) (rows : list ResolutionRow) : Prop :=
  (h ← any (target_resolution_head_empty (tenant s) (tr_origin_incarnation (target_resolution_head s)));
   try_fold advance_resolution h rows) = Ok (target_resolution_head s).

Definition binding_chain (s : TenantState) (rows : list BindingRow) : Prop :=
  (h ← any (backup_binding_head_empty (bb_origin_incarnation (backup_binding_head s)));
   try_fold advance_binding h rows) = Ok (backup_binding_head s).

Lemma receipt_chain_bytes s rows :
  receipt_chain s rows → lsum (λ r, framed (RReceipt r)) rows = mr_encoded_bytes (mutation_receipt_head s).
Proof.
  intros (h & (_ & _ & He & _)%any_Ok%empty_head_Ok & Hf)%bind_Ok.
  apply (advance_sum _ mr_encoded_bytes (λ r, framed (RReceipt r)) (=)) in Hf; [lia|lia|exact receipt_weight].
Qed.

Lemma terminal_chain_bytes s rows :
  terminal_chain s rows → lsum (λ r, framed (RTerminal r)) rows = th_encoded_bytes (staged_terminal_head s).
Proof.
  intros (h & He%any_Ok & Hf)%bind_Ok. apply seq_Ok in He as [_ He]. apply seq_Ok in He as [_ He].
  apply bind_Ok in He as (d & _ & [= <-]).
  apply (advance_sum _ th_encoded_bytes (λ r, framed (RTerminal r)) (=)) in Hf; [done|lia|exact terminal_weight].
Qed.

Lemma resolution_chain_bytes s rows :
  resolution_chain s rows → lsum (λ r, framed (RTargetResolution r)) rows ≤ tr_encoded_bytes (target_resolution_head s).
Proof.
  intros (h & He%any_Ok & Hf)%bind_Ok. apply seq_Ok in He as [_ He]. apply seq_Ok in He as [_ He].
  apply bind_Ok in He as (d & _ & [= <-]).
  apply (advance_sum _ tr_encoded_bytes (λ r, framed (RTargetResolution r)) N.le) in Hf; [done|lia|exact resolution_weight].
Qed.

Lemma binding_chain_bytes s rows :
  binding_chain s rows → lsum (λ r, framed (RBackupBinding r)) rows ≤ bb_encoded_bytes (backup_binding_head s).
Proof.
  intros (h & He%any_Ok & Hf)%bind_Ok. apply seq_Ok in He as [_ He]. apply bind_Ok in He as (d & _ & [= <-]).
  apply (advance_sum _ bb_encoded_bytes (λ r, framed (RBackupBinding r)) N.le) in Hf; [done|lia|exact binding_weight].
Qed.
End chains.
