(* ===== verification/Restore.v ===== *)
(** * Snapshots of a tenant: writing and restoring the state

    Models the part of src/crates/kasumi-engine/src/snapshot_codec.rs that takes
    a tenant state apart into records ([records_with_resolver],
    [write_with_resolver]) and puts it together again from a visited stream
    ([read]).

    Document bodies are loaded through the resolver of the generation and staged
    through the interface [DocumentTables]; the histories of the other permanent
    rows are rebuilt through the interface [History], of which the receipts of
    Receipts.v are an instance. The scratch tables of the document bodies are not
    part of the result. *)

From S2P Require Import Prelude Json Types Digest State Apply Staging Ledger Meter Wire Receipts Snapshot.

(** ** Contents: the parts of a state that are records of their own *)

Record Contents := {
  co_lineage : list RestoreLineageLink;
  co_control : option LifecycleControlState;
  co_targets : gmap string TargetExecutionState;
  co_recovery : RecoveryControlState;
  co_collections : gmap string CollectionState;
  co_staged : gmap string StagedTransaction;
  co_active : gset string;
  co_commits : gmap N ChangeCommit;
  co_archives : gmap string value;
  co_activations : gmap string value;
  co_retirements : gmap string value;
  co_audits : list AuditEvent;
}.

Definition contents (s : TenantState) : Contents :=
  {| co_lineage := restore_lineage s; co_control := lifecycle_control s; co_targets :=
     target_lifecycle s; co_recovery := recovery_control s; co_collections := collections s;
     co_staged := staged_transactions s; co_active := active_staged_transactions s; co_commits
     := commits (change_feed s); co_archives := history_archives s; co_activations :=
     schema_activations s; co_retirements := retirements s; co_audits := audits s |}.

(** The state with these contents. *)
Definition with_contents (s : TenantState) (c : Contents) : TenantState :=
  {| tenant := tenant s; incarnation := incarnation s; revision := revision s; revision_base :=
     revision_base s; policy_epoch := policy_epoch s; schema_epoch := schema_epoch s; suspended
     := suspended s; retired := retired s; pending_restore := pending_restore s; restored_from
     := restored_from s; restore_lineage := co_lineage c; lifecycle_control := co_control c;
     target_lifecycle := co_targets c; recovery_control := co_recovery c; document_count :=
     document_count s; logical_bytes := logical_bytes s; policy := policy s; limits := limits s;
     collections := co_collections c; mutation_receipt_head := mutation_receipt_head s;
     backup_binding_head := backup_binding_head s; staged_transactions := co_staged c;
     active_staged_transactions := co_active c; permanent_staged_bytes := permanent_staged_bytes
     s; reserved_staged_terminal_bytes := reserved_staged_terminal_bytes s; staged_terminal_head
     := staged_terminal_head s; target_resolution_head := target_resolution_head s;
     target_completion_head := target_completion_head s; change_feed := {| next_sequence :=
     next_sequence (change_feed s); commits := co_commits c; event_count := event_count
     (change_feed s); encoded_commit_bytes := encoded_commit_bytes (change_feed s) |};
     history_archives := co_archives c; history_archive_bytes := history_archive_bytes s;
     schema_activations := co_activations c; schema_activation_bytes := schema_activation_bytes
     s; retirements := co_retirements c; retirement_bytes := retirement_bytes s; audit_retention
     := audit_retention s; audits := co_audits c |}.

(** Assignments to one part. *)
Definition set_co_lineage (x : list RestoreLineageLink) (c : Contents) : Contents :=
  {| co_lineage := x; co_control := co_control c; co_targets := co_targets c; co_recovery :=
     co_recovery c; co_collections := co_collections c; co_staged := co_staged c; co_active :=
     co_active c; co_commits := co_commits c; co_archives := co_archives c; co_activations :=
     co_activations c; co_retirements := co_retirements c; co_audits := co_audits c |}.
Definition set_co_control (x : option LifecycleControlState) (c : Contents) : Contents :=
  {| co_lineage := co_lineage c; co_control := x; co_targets := co_targets c; co_recovery :=
     co_recovery c; co_collections := co_collections c; co_staged := co_staged c; co_active :=
     co_active c; co_commits := co_commits c; co_archives := co_archives c; co_activations :=
     co_activations c; co_retirements := co_retirements c; co_audits := co_audits c |}.
Definition set_co_targets (x : gmap string TargetExecutionState) (c : Contents) : Contents :=
  {| co_lineage := co_lineage c; co_control := co_control c; co_targets := x; co_recovery :=
     co_recovery c; co_collections := co_collections c; co_staged := co_staged c; co_active :=
     co_active c; co_commits := co_commits c; co_archives := co_archives c; co_activations :=
     co_activations c; co_retirements := co_retirements c; co_audits := co_audits c |}.
Definition set_co_recovery (x : RecoveryControlState) (c : Contents) : Contents :=
  {| co_lineage := co_lineage c; co_control := co_control c; co_targets := co_targets c;
     co_recovery := x; co_collections := co_collections c; co_staged := co_staged c; co_active
     := co_active c; co_commits := co_commits c; co_archives := co_archives c; co_activations :=
     co_activations c; co_retirements := co_retirements c; co_audits := co_audits c |}.
Definition set_co_collections (x : gmap string CollectionState) (c : Contents) : Contents :=
  {| co_lineage := co_lineage c; co_control := co_control c; co_targets := co_targets c;
     co_recovery := co_recovery c; co_collections := x; co_staged := co_staged c; co_active :=
     co_active c; co_commits := co_commits c; co_archives := co_archives c; co_activations :=
     co_activations c; co_retirements := co_retirements c; co_audits := co_audits c |}.
Definition set_co_staged (x : gmap string StagedTransaction) (c : Contents) : Contents :=
  {| co_lineage := co_lineage c; co_control := co_control c; co_targets := co_targets c;
     co_recovery := co_recovery c; co_collections := co_collections c; co_staged := x; co_active
     := co_active c; co_commits := co_commits c; co_archives := co_archives c; co_activations :=
     co_activations c; co_retirements := co_retirements c; co_audits := co_audits c |}.
Definition set_co_active (x : gset string) (c : Contents) : Contents :=
  {| co_lineage := co_lineage c; co_control := co_control c; co_targets := co_targets c;
     co_recovery := co_recovery c; co_collections := co_collections c; co_staged := co_staged c;
     co_active := x; co_commits := co_commits c; co_archives := co_archives c; co_activations :=
     co_activations c; co_retirements := co_retirements c; co_audits := co_audits c |}.
Definition set_co_commits (x : gmap N ChangeCommit) (c : Contents) : Contents :=
  {| co_lineage := co_lineage c; co_control := co_control c; co_targets := co_targets c;
     co_recovery := co_recovery c; co_collections := co_collections c; co_staged := co_staged c;
     co_active := co_active c; co_commits := x; co_archives := co_archives c; co_activations :=
     co_activations c; co_retirements := co_retirements c; co_audits := co_audits c |}.
Definition set_co_archives (x : gmap string value) (c : Contents) : Contents :=
  {| co_lineage := co_lineage c; co_control := co_control c; co_targets := co_targets c;
     co_recovery := co_recovery c; co_collections := co_collections c; co_staged := co_staged c;
     co_active := co_active c; co_commits := co_commits c; co_archives := x; co_activations :=
     co_activations c; co_retirements := co_retirements c; co_audits := co_audits c |}.
Definition set_co_activations (x : gmap string value) (c : Contents) : Contents :=
  {| co_lineage := co_lineage c; co_control := co_control c; co_targets := co_targets c;
     co_recovery := co_recovery c; co_collections := co_collections c; co_staged := co_staged c;
     co_active := co_active c; co_commits := co_commits c; co_archives := co_archives c;
     co_activations := x; co_retirements := co_retirements c; co_audits := co_audits c |}.
Definition set_co_retirements (x : gmap string value) (c : Contents) : Contents :=
  {| co_lineage := co_lineage c; co_control := co_control c; co_targets := co_targets c;
     co_recovery := co_recovery c; co_collections := co_collections c; co_staged := co_staged c;
     co_active := co_active c; co_commits := co_commits c; co_archives := co_archives c;
     co_activations := co_activations c; co_retirements := x; co_audits := co_audits c |}.
Definition set_co_audits (x : list AuditEvent) (c : Contents) : Contents :=
  {| co_lineage := co_lineage c; co_control := co_control c; co_targets := co_targets c;
     co_recovery := co_recovery c; co_collections := co_collections c; co_staged := co_staged c;
     co_active := co_active c; co_commits := co_commits c; co_archives := co_archives c;
     co_activations := co_activations c; co_retirements := co_retirements c; co_audits := x |}.

Definition empty_contents (control : option LifecycleControlState) : Contents :=
  {| co_lineage := []; co_control := control; co_targets := ∅; co_recovery := empty_recovery_control;
     co_collections := ∅; co_staged := ∅; co_active := ∅; co_commits := ∅; co_archives := ∅;
     co_activations := ∅; co_retirements := ∅; co_audits := [] |}.

(** [control_header], [metadata_with_shared], [metadata]. *)
Definition control_header (c : LifecycleControlState) : LifecycleControlState :=
  {| installation := installation c; installation_command_id := installation_command_id c;
     installation_revision := installation_revision c;
     installation_policy_epoch := installation_policy_epoch c;
     installation_policy := installation_policy c; lc_retired := lc_retired c;
     pending_change := pending_change c; intents := ∅; control_changes := ∅ |}.

Definition metadata_with_shared (s : TenantState) (p : Policy)
    (control : option LifecycleControlState) : TenantState :=
  with_contents (set_policy p s) (empty_contents control).

Definition metadata (s : TenantState) : TenantState :=
  metadata_with_shared s (policy s) (control_header <$> lifecycle_control s).

(** ** Taking a state apart *)

Definition collection_header (c : CollectionState) : CollectionState :=
  {| definition := definition c; data_epoch := data_epoch c; documents := ∅;
     archived_documents := ∅; archived_document_bytes := archived_document_bytes c |}.

Definition clear_records (c : ChangeCommit) : ChangeCommit :=
  {| cc_revision := cc_revision c; first_sequence := first_sequence c; records := [];
     record_bytes := record_bytes c |}.

Section records.
Context `{Sha256}.
Context (resolver : option (StoredDocument → result string Document)).

(** [DocumentSlot::load_owned], [WireChangeRecord::from_record]. *)
Definition load_owned (slot : DocumentSlot) : Anyhow Document :=
  match slot with
  | Pending document => Ok document
  | Stored document =>
      r ← context_or resolver "stored document has no selected resolver";
      map_err AnyMessage (load_stored r document)
  end.

Definition wire_change (r : ChangeRecord) : Anyhow WireChangeRecord :=
  document ← match cr_document r with
             | Some slot => Some <$> load_owned slot
             | None => Ok None
             end;
  Ok {| w_collection := cr_collection r; w_id := cr_id r; w_document := document |}.

(** The loans of kinds 3, 10 and 14. *)
Definition selected (primary : option string) (key : string) : bool :=
  match primary with None => true | Some p => bool_decide (p = key) end.

Definition document_item (nd : string * DocumentSlot) : Anyhow SnapshotRecord :=
  RDocument nd.1 <$> load_owned nd.2.

Definition document_items (s : TenantState) (primary : option string) : list (Anyhow SnapshotRecord) :=
  document_item <$>
    (nc ← filter (λ nc, selected primary nc.1 = true) (map_iter (collections s));
     (λ slot, (nc.1, slot)) <$> map_values (documents nc.2)).

Definition change_item (ir : N * N * ChangeRecord) : Anyhow SnapshotRecord :=
  RChangeItem ir.1.1 ir.1.2 <$> wire_change ir.2.

Definition change_items (s : TenantState) (primary : option string) : list (Anyhow SnapshotRecord) :=
  change_item <$>
    (ic ← filter (λ ic, selected primary (pad20 ic.1) = true) (map_iter (commits (change_feed s)));
     imap (λ j r, (ic.1, N.of_nat j, r)) (records ic.2)).

Definition audit_record (s : TenantState) (ie : nat * AuditEvent) : Anyhow SnapshotRecord :=
  sequence ← context_or (checked_add (pruned_before (audit_retention s)) (N.of_nat ie.1))
    "audit sequence overflow";
  Ok (RAudit sequence ie.2).

Definition item_selected (primary : option string) (item : Anyhow SnapshotRecord) : bool :=
  match item with Ok r => selected primary (order r).1.2 | Err _ => true end.

Definition audit_items (s : TenantState) (primary : option string) : list (Anyhow SnapshotRecord) :=
  filter (λ item, item_selected primary item = true) (audit_record s <$> imap pair (audits s)).

Definition selected_collections (s : TenantState) (primary : option string) :
    list (string * CollectionState) :=
  match primary with
  | Some name => match collections s !! name with Some c => [(name, c)] | None => [] end
  | None => map_iter (collections s)
  end.

(** The resident records of the other kinds. *)
Definition resident_records (s : TenantState) (kind : N) (primary : option string) :
    option (list SnapshotRecord) :=
  match kind with
  | 0 => Some [RHeader (metadata s)]
  | 1 => Some (imap (λ i l, RLineage (N.of_nat i) l) (restore_lineage s))
  | 2 => Some ((λ nc, RCollection nc.1 (collection_header nc.2)) <$> selected_collections s primary)
  | 4 => Some (nc ← selected_collections s primary;
               (λ ir, RArchived nc.1 ir.1 ir.2) <$> map_iter (archived_documents nc.2))
  | 5 | 24 => Some []
  | 6 => Some ((λ kt, RStage kt.1 (clear_chunks kt.2)) <$> map_iter (staged_transactions s))
  | 7 => Some (kt ← map_iter (staged_transactions s);
               (λ ic, RStageChunk kt.1 ic.1 ic.2) <$> map_iter (chunks kt.2))
  | 8 => Some (RActiveStage <$> set_iter (active_staged_transactions s))
  | 9 => Some ((λ ic, RChange ic.1 (clear_records ic.2)) <$> map_iter (commits (change_feed s)))
  | 11 => Some ((λ kv, RArchive kv.1 kv.2) <$> map_iter (history_archives s))
  | 12 => Some ((λ kv, RActivation kv.1 kv.2) <$> map_iter (schema_activations s))
  | 13 => Some ((λ kv, RRetirement kv.1 kv.2) <$> map_iter (retirements s))
  | 15 => Some (match lifecycle_control s with
                | Some c => (λ kv, RIntent kv.1 kv.2) <$> map_iter (intents c) | None => [] end)
  | 16 => Some (match lifecycle_control s with
                | Some c => (λ kv, RControlChange kv.1 kv.2) <$> map_iter (control_changes c)
                | None => [] end)
  | 17 => Some ((λ kv, RTarget kv.1 kv.2) <$> map_iter (target_lifecycle s))
  | 18 => Some ((λ kv, RRecoveryOperation kv.1 kv.2) <$> map_iter (rc_operations (recovery_control s)))
  | 19 => Some ((λ kv, RRecoveryPhase kv.1 kv.2) <$> map_iter (rc_phases (recovery_control s)))
  | 20 => Some ((λ kv, RRecoveryTarget kv.1 kv.2) <$> map_iter (rc_targets (recovery_control s)))
  | 23 => Some ((λ kv, RRecoveryCompletionHistory kv.1 kv.2) <$>
                  map_iter (rc_completion_history (recovery_control s)))
  | _ => None
  end.

(** [records_with_resolver]: the items of the iterator. *)
Definition records_with_resolver (s : TenantState) (kind : N) (primary : option string) :
    Anyhow (list (Anyhow SnapshotRecord)) :=
  if kind =? 3 then Ok (document_items s primary)
  else if kind =? 10 then Ok (change_items s primary)
  else if kind =? 14 then Ok (audit_items s primary)
  else
    match resident_records s kind primary with
    | Some l => Ok (Ok <$> filter (λ r, selected primary (order r).1.2 = true) l)
    | None => Err (AnyMessage "unsupported snapshot record kind")
    end.
End records.

(** ** Permanent histories *)

(** What the codec uses of a permanent history: its view, selected by the head
    in the state, and the builder that rebuilds it from a stream of rows. *)
Class History (Row : Type) := {
  HView : Type;
  HBuilder : Type;
  h_check : HView → TenantState → Anyhow unit;
  h_rows : HView → list (Anyhow Row);
  h_count : TenantState → N;
  h_new : TenantState → Anyhow HBuilder;
  h_push : Row → TenantState → ST HBuilder anyhow unit;
  h_finish : HBuilder → TenantState → Anyhow HView;
  h_empty : TenantState → Anyhow HView;
  h_selects : HView → TenantState → bool;
}.
Arguments HView Row {_}.
Arguments HBuilder Row {_}.

(** [mutation_receipt::scratch_limit]. *)
Definition receipt_scratch_limit (canonical_bytes : N) : Anyhow N :=
  context_or (checked_mul canonical_bytes 16 ≫= λ n, checked_add n (N.shiftl 64 20))
    "receipt scratch table budget overflow".

(** The mutation receipts. *)
Definition receipt_history `{Sha256} `{FromSlice Ordinal} `{FromSlice ReceiptRow}
    (store : gmap string string) : History ReceiptRow := {|
  HView := View;
  HBuilder := Builder;
  h_check := validate_view_state store;
  h_rows := view_records store;
  h_count s := mr_count (mutation_receipt_head s);
  h_new s :=
    receipt_scratch_limit (max_mutation_receipt_bytes (limits s));;
    any (new_builder (tenant s) (mr_origin_incarnation (mutation_receipt_head s)));
  h_push := push_row;
  h_finish b s := finish_builder b (mutation_receipt_head s);
  h_empty s := any (empty_view (tenant s) (mr_origin_incarnation (mutation_receipt_head s)));
  h_selects v s := bool_decide (v_head v = mutation_receipt_head s);
|}.

(** The staging of decoded document bodies. *)
Class DocumentTables := {
  document_scope : string → string → Anyhow unit;
  push_document : Document → Anyhow StoredDocument;
}.

Section codec.
Context (site_bytes : N).
Context `{Sha256} `{Sha256Bytes} `{UuidParse} `{RecordRules} `{FromSlice SnapshotRecord} `{DocumentTables}.
Context `{HR : History ReceiptRow} `{HT : History TerminalRow} `{HS : History ResolutionRow}
  `{HB : History BindingRow}.

(** ** Writing *)

(** The views of the permanent histories of a generation. *)
Record Histories := {
  hs_receipts : HView ReceiptRow;
  hs_bindings : HView BindingRow;
  hs_terminals : HView TerminalRow;
  hs_resolutions : HView ResolutionRow;
}.

(** The rows of a history as records. *)
Definition row_items {Row} (f : Row → SnapshotRecord) (rows : list (Anyhow Row)) :
    list (Anyhow SnapshotRecord) := (λ row : Anyhow Row, f <$> row) <$> rows.

Definition encode_items (items : list (Anyhow SnapshotRecord)) : ST Encoder anyhow unit :=
  st_fold (λ _ item, r ← st_lift item; encode_record r) tt items.

Definition kind_items (resolver : option (StoredDocument → result string Document))
    (s : TenantState) (h : Histories) (kind : nat) : Anyhow (list (Anyhow SnapshotRecord)) :=
  if bool_decide (kind = 5%nat) then Ok (row_items RReceipt (h_rows (hs_receipts h)))
  else records_with_resolver resolver s (N.of_nat kind) None.

(** [write_with_resolver]. *)
Definition encode_state (resolver : option (StoredDocument → result string Document))
    (s : TenantState) (h : Histories) : ST Encoder anyhow unit :=
  st_fold (λ _ kind, items ← st_lift (kind_items resolver s h kind); encode_items items) tt (seq 0 21);;
  encode_items (row_items RTerminal (h_rows (hs_terminals h)));;
  encode_items (row_items RTargetResolution (h_rows (hs_resolutions h)));;
  items ← st_lift (records_with_resolver None s 23 None);
  encode_items items;;
  encode_items (row_items RBackupBinding (h_rows (hs_bindings h))).

Definition write_with_resolver (resolver : option (StoredDocument → result string Document))
    (s : TenantState) (h : Histories) : Anyhow string :=
  demand (h_selects (hs_terminals h) s) "snapshot terminal owner differs";;
  h_check (hs_receipts h) s;;
  h_check (hs_bindings h) s;;
  h_check (hs_terminals h) s;;
  h_check (hs_resolutions h) s;;
  match encode_state resolver s h new_encoder with
  | (e, Ok _) => Ok (finish_encoder e)
  | (_, Err e) => Err e
  end.

(** ** Reading *)

(** The local variables of [read]. *)
Record Restoring := {
  rg_state : option TenantState;
  rg_receipts : option (HBuilder ReceiptRow);
  rg_bindings : option (HBuilder BindingRow);
  rg_terminals : option (HBuilder TerminalRow);
  rg_resolutions : option (HBuilder ResolutionRow);
}.

Definition nothing_read : Restoring :=
  {| rg_state := None; rg_receipts := None; rg_bindings := None; rg_terminals := None;
     rg_resolutions := None |}.

(** A builder for the history of a header that has rows. *)
Definition history_builder {Row} `{History Row} (header : TenantState) :
    Anyhow (option (HBuilder Row)) :=
  if 0 <? h_count header then Some <$> h_new header else Ok None.

(** The header. *)
Definition read_header (header : TenantState) : ST Restoring anyhow unit :=
  g ← st_get;
  st_lift (demand (bool_decide (rg_state g = None) && empty_records header)
             "snapshot header contains embedded records");;
  bindings ← st_lift (history_builder header);
  receipts ← st_lift (history_builder header);
  resolutions ← st_lift (history_builder header);
  terminals ← st_lift (history_builder header);
  st_lift (any (validate_name (incarnation header)));;
  st_lift (document_scope (tenant header) (incarnation header));;
  st_lift (context_or (checked_mul (max_snapshot_bytes (limits header)) 8 ≫= λ n,
                       checked_add n (N.shiftl 64 20)) "document staging budget overflow");;
  st_put {| rg_state := Some header; rg_receipts := receipts; rg_bindings := bindings;
            rg_terminals := terminals; rg_resolutions := resolutions |}.

(** [document_restore::Builder::push] of an optional document. *)
Definition push_optional (document : option Document) : Anyhow (option DocumentSlot) :=
  match document with
  | Some d => stored ← push_document d; Ok (Some (Stored stored))
  | None => Ok None
  end.

Definition update_control (f : LifecycleControlState → LifecycleControlState) (c : Contents) :
    Anyhow Contents :=
  control ← context_or (co_control c) "control installation missing";
  Ok (set_co_control (Some (f control)) c).

Definition add_intent (id : Uuid) (v : value) (c : LifecycleControlState) : LifecycleControlState :=
  {| installation := installation c; installation_command_id := installation_command_id c;
     installation_revision := installation_revision c;
     installation_policy_epoch := installation_policy_epoch c;
     installation_policy := installation_policy c; lc_retired := lc_retired c;
     pending_change := pending_change c; intents := <[id := v]> (intents c);
     control_changes := control_changes c |}.
Definition add_control_change (id : Uuid) (v : value) (c : LifecycleControlState) : LifecycleControlState :=
  {| installation := installation c; installation_command_id := installation_command_id c;
     installation_revision := installation_revision c;
     installation_policy_epoch := installation_policy_epoch c;
     installation_policy := installation_policy c; lc_retired := lc_retired c;
     pending_change := pending_change c; intents := intents c;
     control_changes := <[id := v]> (control_changes c) |}.

Definition add_document (id : string) (slot : DocumentSlot) (c : CollectionState) : CollectionState :=
  {| definition := definition c; data_epoch := data_epoch c; documents := <[id := slot]> (documents c);
     archived_documents := archived_documents c; archived_document_bytes := archived_document_bytes c |}.
Definition add_archived (id : string) (a : ArchivedDocument) (c : CollectionState) : CollectionState :=
  {| definition := definition c; data_epoch := data_epoch c; documents := documents c;
     archived_documents := <[id := a]> (archived_documents c);
     archived_document_bytes := archived_document_bytes c |}.
Definition add_chunk_at (i : N) (ck : StagedChunk) (t : StagedTransaction) : StagedTransaction :=
  {| st_scope := st_scope t; st_transaction_id := st_transaction_id t;
     st_manifest_digest := st_manifest_digest t; st_manifest := st_manifest t;
     chunks := <[i := ck]> (chunks t); stored_chunk_bytes := stored_chunk_bytes t;
     uploaded_payload_bytes := uploaded_payload_bytes t; uploaded_operations := uploaded_operations t;
     uploaded_read_assertions := uploaded_read_assertions t; expires_at_ms := expires_at_ms t;
     ttl_ms := ttl_ms t; outcome := outcome t |}.
Definition add_record (r : ChangeRecord) (c : ChangeCommit) : ChangeCommit :=
  {| cc_revision := cc_revision c; first_sequence := first_sequence c; records := records c ++ [r];
     record_bytes := record_bytes c |}.

Definition set_operations (x : gmap string RecoveryRecord) (r : RecoveryControlState) : RecoveryControlState :=
  {| rc_operations := x; rc_phases := rc_phases r; rc_completion_history := rc_completion_history r;
     rc_targets := rc_targets r |}.
Definition set_phases (x : gmap string RecoveryPhaseRecord) (r : RecoveryControlState) : RecoveryControlState :=
  {| rc_operations := rc_operations r; rc_phases := x; rc_completion_history := rc_completion_history r;
     rc_targets := rc_targets r |}.
Definition set_completion_history (x : gmap string RecoveryCompletionHistory) (r : RecoveryControlState) :
    RecoveryControlState :=
  {| rc_operations := rc_operations r; rc_phases := rc_phases r; rc_completion_history := x;
     rc_targets := rc_targets r |}.
Definition set_targets (x : gmap string Uuid) (r : RecoveryControlState) : RecoveryControlState :=
  {| rc_operations := rc_operations r; rc_phases := rc_phases r;
     rc_completion_history := rc_completion_history r; rc_targets := x |}.

(** The record of an operation must have been read. *)
Definition operation_read (c : Contents) (id : Uuid) (m : string) : Anyhow unit :=
  demand (bool_decide (is_Some (rc_operations (co_recovery c) !! uuid_text id))) m.

(** A resident record, inserted into its part of the state. *)
Definition insert_record (s : TenantState) (r : SnapshotRecord) : Anyhow Contents :=
  let c := contents s in
  match r with
  | RLineage i link =>
      demand (i =? len (co_lineage c)) "lineage sequence differs";;
      Ok (set_co_lineage (co_lineage c ++ [link]) c)
  | RCollection k collection =>
      demand (bool_decide (documents collection = ∅) && bool_decide (archived_documents collection = ∅))
        "collection contains embedded documents";;
      Ok (set_co_collections (<[k := collection]> (co_collections c)) c)
  | RDocument k document =>
      descriptor ← push_document document;
      collection ← context_or (co_collections c !! k) "document collection missing";
      Ok (set_co_collections
            (<[k := add_document (d_id document) (Stored descriptor) collection]> (co_collections c)) c)
  | RArchived k id reference =>
      collection ← context_or (co_collections c !! k) "archive collection missing";
      Ok (set_co_collections (<[k := add_archived id reference collection]> (co_collections c)) c)
  | RStage k stage =>
      demand (is_active stage && bool_decide (chunks stage = ∅))
        "resident stage must be an active upload header";;
      Ok (set_co_staged (<[k := stage]> (co_staged c)) c)
  | RStageChunk k i chunk =>
      stage ← context_or (co_staged c !! k) "stage missing";
      Ok (set_co_staged (<[k := add_chunk_at i chunk stage]> (co_staged c)) c)
  | RActiveStage k => Ok (set_co_active ({[k]} ∪ co_active c) c)
  | RChange i commit =>
      demand (bool_decide (records commit = [])) "change commit contains embedded records";;
      Ok (set_co_commits (<[i := commit]> (co_commits c)) c)
  | RChangeItem i index change =>
      document ← push_optional (w_document change);
      commit ← context_or (co_commits c !! i) "change commit missing";
      demand (index =? len (records commit)) "change record sequence differs";;
      Ok (set_co_commits
            (<[i := add_record {| cr_collection := w_collection change; cr_id := w_id change;
                                  cr_document := document |} commit]> (co_commits c)) c)
  | RArchive k v => Ok (set_co_archives (<[k := v]> (co_archives c)) c)
  | RActivation k v => Ok (set_co_activations (<[k := v]> (co_activations c)) c)
  | RRetirement k v => Ok (set_co_retirements (<[k := v]> (co_retirements c)) c)
  | RAudit i event =>
      demand (bool_decide (Some i = checked_add (pruned_before (audit_retention s)) (len (co_audits c))))
        "audit sequence differs";;
      Ok (set_co_audits (co_audits c ++ [event]) c)
  | RIntent id intent => update_control (add_intent id intent) c
  | RControlChange id change => update_control (add_control_change id change) c
  | RTarget k t => Ok (set_co_targets (<[k := t]> (co_targets c)) c)
  | RRecoveryOperation k v =>
      demand (bool_decide (tenant s = CONTROL_TENANT) && bool_decide (is_Some (co_control c)))
        "recovery coordinator requires installed Control state";;
      Ok (set_co_recovery (set_operations (<[k := v]> (rc_operations (co_recovery c))) (co_recovery c)) c)
  | RRecoveryPhase k v =>
      operation_read c (ph_operation_id v) "recovery phase operation missing";;
      Ok (set_co_recovery (set_phases (<[k := v]> (rc_phases (co_recovery c))) (co_recovery c)) c)
  | RRecoveryCompletionHistory k v =>
      operation_read c (ch_operation_id v) "closed completion operation missing";;
      Ok (set_co_recovery
            (set_completion_history (<[k := v]> (rc_completion_history (co_recovery c))) (co_recovery c)) c)
  | RRecoveryTarget k operation =>
      operation_read c operation "recovery target operation missing";;
      Ok (set_co_recovery (set_targets (<[k := operation]> (rc_targets (co_recovery c))) (co_recovery c)) c)
  | RHeader _ | RReceipt _ | RTerminal _ | RTargetResolution _ | RBackupBinding _ => Ok c
  end.

(** A row of a permanent history, pushed to its builder. *)
Definition push_history {Row} `{History Row} (builder : option (HBuilder Row)) (row : Row)
    (s : TenantState) (missing : string) : Anyhow (option (HBuilder Row)) :=
  b ← context_or builder missing;
  match h_push row s b with
  | (b', Ok _) => Ok (Some b')
  | (_, Err e) => Err e
  end.

Definition set_rg_state (x : option TenantState) (g : Restoring) : Restoring :=
  {| rg_state := x; rg_receipts := rg_receipts g; rg_bindings := rg_bindings g;
     rg_terminals := rg_terminals g; rg_resolutions := rg_resolutions g |}.
Definition set_rg_receipts (x : option (HBuilder ReceiptRow)) (g : Restoring) : Restoring :=
  {| rg_state := rg_state g; rg_receipts := x; rg_bindings := rg_bindings g;
     rg_terminals := rg_terminals g; rg_resolutions := rg_resolutions g |}.
Definition set_rg_bindings (x : option (HBuilder BindingRow)) (g : Restoring) : Restoring :=
  {| rg_state := rg_state g; rg_receipts := rg_receipts g; rg_bindings := x;
     rg_terminals := rg_terminals g; rg_resolutions := rg_resolutions g |}.
Definition set_rg_terminals (x : option (HBuilder TerminalRow)) (g : Restoring) : Restoring :=
  {| rg_state := rg_state g; rg_receipts := rg_receipts g; rg_bindings := rg_bindings g;
     rg_terminals := x; rg_resolutions := rg_resolutions g |}.
Definition set_rg_resolutions (x : option (HBuilder ResolutionRow)) (g : Restoring) : Restoring :=
  {| rg_state := rg_state g; rg_receipts := rg_receipts g; rg_bindings := rg_bindings g;
     rg_terminals := rg_terminals g; rg_resolutions := x |}.

(** The visitor of [read_reopening] without rows to reopen, as [read] calls it:
    receipts are always staged and documents are not compared with published ones. *)
Definition read_record (_ : RecordPosition) (r : SnapshotRecord) : ST Restoring anyhow unit :=
  match r with
  | RHeader header => read_header header
  | _ =>
      g ← st_get;
      s ← st_lift (context_or (rg_state g) "snapshot metadata must be first");
      match r with
      | RReceipt row =>
          b ← st_lift (push_history (rg_receipts g) row s "receipt row without authenticated prefix");
          st_modify (set_rg_receipts b)
      | RBackupBinding row =>
          b ← st_lift (push_history (rg_bindings g) row s "backup binding row without authenticated prefix");
          st_modify (set_rg_bindings b)
      | RTargetResolution row =>
          b ← st_lift (push_history (rg_resolutions g) row s "target resolution rows without header");
          st_modify (set_rg_resolutions b)
      | RTerminal row =>
          st_lift (demand (bool_decide (staged_transactions s !! tm_key row = None))
                     "staged identity is both active and terminal");;
          b ← st_lift (push_history (rg_terminals g) row s "terminal stream header missing");
          st_modify (set_rg_terminals b)
      | _ =>
          c ← st_lift (insert_record s r);
          st_modify (set_rg_state (Some (with_contents s c)))
      end
  end.

(** The view of a rebuilt history, or the empty one the header must select. *)
Definition finish_history {Row} `{History Row} (builder : option (HBuilder Row)) (s : TenantState)
    (missing : string) : Anyhow (HView Row) :=
  match builder with
  | Some b => h_finish b s
  | None =>
      empty ← h_empty s;
      demand (h_selects empty s) missing;;
      Ok empty
  end.

(** [Decoded], [read]. *)
Record Decoded := {
  de_state : TenantState;
  de_summary : StreamSummary;
  de_histories : Histories;
}.

Definition read (stream : string) : Anyhow Decoded :=
  match visit site_bytes read_record stream nothing_read with
  | (_, Err e) => Err e
  | (g, Ok summary) =>
      s ← context_or (rg_state g) "snapshot metadata absent";
      bindings ← finish_history (rg_bindings g) s "backup binding history missing from snapshot";
      receipts ← finish_history (rg_receipts g) s "receipt history missing from snapshot";
      terminals ← finish_history (rg_terminals g) s "empty terminal descriptor differs";
      resolutions ← finish_history (rg_resolutions g) s "empty target terminal descriptor differs";
      Ok {| de_state := s; de_summary := summary;
            de_histories := {| hs_receipts := receipts; hs_bindings := bindings;
                               hs_terminals := terminals; hs_resolutions := resolutions |} |}
  end.
End codec.

(** ** Lists and maps rebuilt in order *)

Lemma mapM_Ok {E A B} (f : A → result E B) l k :
  mapM f l = Ok k ↔ Forall2 (λ x y, f x = Ok y) l k.
Proof.
  revert k. induction l as [|x l IH]; intros k; cbn.
  - split; [by intros [= <-]|]. by inversion 1.
  - split.
    + intros Hm. apply bind_Ok in Hm as (y & Hy & Hm). apply bind_Ok in Hm as (k' & Hk & [= <-]).
      constructor; [done|]. by apply IH.
    + inversion 1 as [|? y ? k' Hy Hk]; subst. apply bind_Ok. exists y. split; [done|].
      apply bind_Ok. exists k'. split; [by apply IH|done].
Qed.

Lemma mapM_fmap {E A B} (f : A → result E B) l : mapM id (f <$> l) = mapM f l.
Proof. induction l as [|x l IH]; [done|]. rewrite fmap_cons. cbn. by rewrite IH. Qed.

Lemma mapM_fmap_Ok {E A} (l : list A) : mapM (M := result E) id (Ok <$> l) = Ok l.
Proof. rewrite mapM_fmap. induction l as [|x l IH]; [done|]. cbn. by rewrite IH. Qed.

Lemma Forall2_impl_elem {A B} (P Q : A → B → Prop) l k :
  Forall2 P l k → (∀ x y, x ∈ l → P x y → Q x y) → Forall2 Q l k.
Proof.
  induction 1 as [|x y l k Hxy Hl IH]; intros HQ; [done|].
  constructor; [apply HQ; [by left|done]|]. apply IH. intros a b Ha. apply HQ. by right.
Qed.

(** Appending numbered items. *)
Definition append_at {E A} (e : E) (x : list A) (ia : nat * A) : result E (list A) :=
  if bool_decide (ia.1 = length x) then Ok (x ++ [ia.2]) else Err e.

Lemma append_all {E A} (e : E) (l : list A) :
  try_fold (append_at e) [] (imap pair l) = Ok l.
Proof.
  assert (Hg : ∀ pre, try_fold (append_at e) pre (imap (λ i a, (length pre + i, a))%nat l) = Ok (pre ++ l)).
  { induction l as [|a l IH]; intros pre; [by rewrite app_nil_r|]. cbn [imap]. rewrite try_fold_cons.
    assert (Ha : append_at e pre (length pre + 0, a)%nat = Ok (pre ++ [a])).
    { unfold append_at. cbn [fst snd]. by rewrite bool_decide_eq_true_2 by lia. }
    rewrite Ha, bind_Ok_l.
    specialize (IH (pre ++ [a])). rewrite length_app, <-app_assoc in IH. cbn [length app] in IH.
    rewrite <-IH. f_equal. apply imap_ext. intros i x _. cbn. f_equal. lia. }
  specialize (Hg []). cbn in Hg. done.
Qed.

Lemma insert_list {K V} `{Countable K} (l : list (K * V)) (m : gmap K V) :
  foldl (λ m kv, <[kv.1 := kv.2]> m) m l = list_to_map (reverse l) ∪ m.
Proof.
  revert m. induction l as [|[k v] l IH]; intros m; cbn [foldl fst snd].
  { rewrite reverse_nil. cbn. by rewrite (left_id_L ∅ (∪)). }
  rewrite IH, reverse_cons, list_to_map_app. cbn. rewrite insert_empty.
  by rewrite <-(assoc_L (∪)), insert_union_singleton_l.
Qed.

(** Every entry of a map, inserted over entries with keys of the map. *)
Lemma insert_iter {K V W} `{OrdKey K} (g : V → W) (M : gmap K V) (m : gmap K W) :
  (∀ k, M !! k = None → m !! k = None) →
  foldl (λ m kv, <[kv.1 := kv.2]> m) m ((λ kv, (kv.1, g kv.2)) <$> map_iter M) = g <$> M.
Proof.
  intros Hdom. rewrite insert_list, <-fmap_reverse. apply map_eq. intros k.
  rewrite lookup_union, lookup_fmap.
  assert (Hl : list_to_map (M := gmap K W) ((λ kv, (kv.1, g kv.2)) <$> reverse (map_iter M)) !! k = g <$> M !! k).
  { change (λ kv : K * V, (kv.1, g kv.2)) with (prod_map (A := K) id g). rewrite list_to_map_fmap, lookup_fmap. f_equal.
    apply option_eq. intros v. rewrite <-elem_of_list_to_map.
    - rewrite elem_of_reverse. apply elem_of_map_iter.
    - rewrite fmap_reverse, reverse_Permutation. apply map_iter_NoDup. }
  rewrite Hl. destruct (M !! k) as [v|] eqn:Hk; cbn; [by destruct (m !! k)|]. by rewrite (Hdom k Hk).
Qed.

Lemma try_fold_pure {E A B} (f : B → A → B) (l : list A) (x : B) :
  try_fold (E := E) (λ x a, Ok (f x a)) x l = Ok (foldl f x l).
Proof. revert x. induction l as [|a l IH]; intros x; [done|]. rewrite try_fold_cons. apply IH. Qed.

(** Items that belong to the entries of a map, added entry by entry. *)
Section nested.
Context {K B A X : Type} `{OrdKey K} {E : Type} (e : E).
Context (add : A → X → result E A).

Definition add_item (m : gmap K A) (kx : K * X) : result E (gmap K A) :=
  a ← ok_or (m !! kx.1) e;
  a' ← add a kx.2;
  Ok (<[kx.1 := a']> m).

Lemma add_item_Ok m k x a a' :
  m !! k = Some a → add a x = Ok a' → add_item m (k, x) = Ok (<[k := a']> m).
Proof. intros Hm Ha. unfold add_item. cbn [fst snd]. rewrite Hm. cbn [ok_or]. by rewrite bind_Ok_l, Ha. Qed.

Lemma add_items k (xs : list X) : ∀ (m : gmap K A) a a',
  m !! k = Some a → try_fold add a xs = Ok a' →
  try_fold add_item m ((λ x, (k, x)) <$> xs) = Ok (<[k := a']> m).
Proof.
  induction xs as [|x xs IH]; intros m a a' Hm Hf.
  - injection Hf as <-. cbn. by rewrite insert_id.
  - rewrite try_fold_cons in Hf. apply bind_Ok in Hf as (a1 & Ha1 & Hf). 
    rewrite fmap_cons, try_fold_cons, (add_item_Ok m k x a a1 Hm Ha1), bind_Ok_l.
    rewrite (IH _ a1 a'); [by rewrite insert_insert_eq|by rewrite lookup_insert_eq|done].
Qed.

Lemma add_nested (xs : B → list X) (goal : B → A) (l : list (K * B)) : ∀ m : gmap K A,
  NoDup l.*1 → Forall (λ kb, ∃ a, m !! kb.1 = Some a ∧ try_fold add a (xs kb.2) = Ok (goal kb.2)) l →
  try_fold add_item m (kb ← l; (λ x, (kb.1, x)) <$> xs kb.2) =
  Ok (foldl (λ m kb, <[kb.1 := goal kb.2]> m) m l).
Proof.
  induction l as [|[k b] l IH]; intros m Hnd Hl; [done|].
  apply NoDup_cons in Hnd as [Hk Hnd]. apply Forall_cons in Hl as [(a & Ha & Hf) Hl]. cbn [fst snd] in *.
  rewrite bind_cons. cbn [fst snd]. rewrite try_fold_app, (add_items k (xs b) m a (goal b) Ha Hf), bind_Ok_l.
  apply IH; [done|]. apply Forall_forall. intros [k' b'] Hin. rewrite Forall_forall in Hl.
  destruct (Hl _ Hin) as (a' & Ha' & Hf'). exists a'. split; [|done]. cbn [fst snd] in *.
  rewrite lookup_insert_ne; [done|]. intros ->. apply Hk, list_elem_of_fmap. by exists (k', b').
Qed.

Lemma add_all_nested (xs : B → list X) (goal : B → A) (M : gmap K B) (m : gmap K A) :
  (∀ k, M !! k = None → m !! k = None) →
  (∀ k b, M !! k = Some b → ∃ a, m !! k = Some a ∧ try_fold add a (xs b) = Ok (goal b)) →
  try_fold add_item m (kb ← map_iter M; (λ x, (kb.1, x)) <$> xs kb.2) =
  Ok (goal <$> M).
Proof.
  intros Hdom Hall. rewrite (add_nested xs goal); [|apply map_iter_NoDup|].
  - f_equal. rewrite <-(foldl_fmap (λ m kv, <[kv.1 := kv.2]> m) m (map_iter M) (λ kb, (kb.1, goal kb.2))).
    apply insert_iter, Hdom.
  - apply Forall_forall. intros [k b] Hin. apply elem_of_map_iter in Hin. by apply Hall.
Qed.
End nested.

(** ** Records inserted kind by kind *)

Section segments.
Context `{Sha256} `{UuidParse} `{DocumentTables}.
Context (header : TenantState).

Definition insert_into (c : Contents) (r : SnapshotRecord) : Anyhow Contents :=
  insert_record (with_contents header c) r.

Lemma segment {X A} (set : X → Contents → Contents) (ins : X → A → Anyhow X)
    (R : A → SnapshotRecord → Prop) c :
  (∀ x x' a r, R a r → ins x a = Ok x' → insert_into (set x c) r = Ok (set x' c)) →
  ∀ l rs x x', Forall2 R l rs → try_fold ins x l = Ok x' → try_fold insert_into (set x c) rs = Ok (set x' c).
Proof.
  intros Hstep l rs x x' Hl. revert x. induction Hl as [|a r l rs Har Hl IH]; intros x Hf.
  - by injection Hf as <-.
  - rewrite try_fold_cons in Hf. apply bind_Ok in Hf as (x1 & Hx1 & Hf).
    rewrite try_fold_cons, (Hstep x x1 a r Har Hx1), bind_Ok_l. by apply IH.
Qed.

(** A map of records, inserted entry by entry. *)
Lemma segment_map {K V W} `{OrdKey K} (set : gmap K W → Contents → Contents) (mk : K → W → SnapshotRecord)
    (g : V → W) (M : gmap K V) c :
  set ∅ c = c →
  (∀ m k v, M !! k = Some v → insert_into (set m c) (mk k (g v)) = Ok (set (<[k := g v]> m) c)) →
  try_fold insert_into c ((λ kv, mk kv.1 (g kv.2)) <$> map_iter M) = Ok (set (g <$> M) c).
Proof.
  intros Hc Hstep. rewrite <-Hc at 1.
  eapply (segment set (λ m kw, Ok (<[kw.1 := kw.2]> m))
            (λ kw r, ∃ v, M !! kw.1 = Some v ∧ kw.2 = g v ∧ r = mk kw.1 kw.2)
            c _ ((λ kv, (kv.1, g kv.2)) <$> map_iter M)).
  - apply Forall2_fmap, Forall_Forall2_diag, Forall_forall. intros [k v] Hkv%elem_of_map_iter. by exists v.
  - rewrite try_fold_pure. by rewrite insert_iter.
  Unshelve. intros x x' [k w] r (v & Hv & -> & ->) [= <-]. by apply Hstep.
Qed.

Lemma segment_entries {K V} `{OrdKey K} (set : gmap K V → Contents → Contents) (mk : K → V → SnapshotRecord)
    (M : gmap K V) c :
  set ∅ c = c →
  (∀ m k v, M !! k = Some v → insert_into (set m c) (mk k v) = Ok (set (<[k := v]> m) c)) →
  try_fold insert_into c ((λ kv, mk kv.1 kv.2) <$> map_iter M) = Ok (set M c).
Proof.
  intros Hc Hstep. rewrite <-(map_fmap_id M) at 2. by apply (segment_map set mk id).
Qed.

(** The items of the entries of a map, whose headers were inserted before. *)
Lemma segment_nested {K A X} `{OrdKey K} (set : gmap K A → Contents → Contents)
    (R : K * X → SnapshotRecord → Prop) (add : A → X → Anyhow A)
    (xs : A → list X) (hdr goal : A → A) (M : gmap K A) c rs :
  (∀ m k x r a a', R (k, x) r → m !! k = Some a → add a x = Ok a' →
     insert_into (set m c) r = Ok (set (<[k := a']> m) c)) →
  (∀ k b, M !! k = Some b → try_fold add (hdr b) (xs b) = Ok (goal b)) →
  Forall2 R (kb ← map_iter M; (λ x, (kb.1, x)) <$> xs kb.2) rs →
  try_fold insert_into (set (hdr <$> M) c) rs = Ok (set (goal <$> M) c).
Proof.
  intros Hstep Hall Hrs. eapply (segment set (add_item (AnyMessage "") add)); [|exact Hrs|].
  - intros m m' [k x] r Hr Hm. unfold add_item in Hm. cbn [fst snd] in Hm.
    apply bind_Ok in Hm as (a & Ha%ok_or_Ok & Hm). apply bind_Ok in Hm as (a' & Ha' & [= <-]). by eapply Hstep.
  - apply add_all_nested.
    + intros k Hk. by rewrite lookup_fmap, Hk.
    + intros k b Hk. exists (hdr b). rewrite lookup_fmap, Hk. split; [done|]. by eapply Hall.
Qed.
End segments.

(** ** States that can be restored *)

Section restorable.
Context `{Sha256} `{UuidParse} `{RecordRules} `{DocumentTables}.
Context (resolver : option (StoredDocument → result string Document)).

(** A document in the store, that is stored again under its own descriptor. *)
Definition kept (slot : DocumentSlot) : Prop :=
  ∃ d, slot = Stored d ∧ ∀ document, load_owned resolver slot = Ok document → push_document document = Ok d.

(** What the engine keeps of every published state. *)
Record restorable (s : TenantState) : Prop := {
  rs_incarnation : validate_name (incarnation s) = Ok tt;
  rs_scope : document_scope (tenant s) (incarnation s) = Ok tt;
  rs_staging : max_snapshot_bytes (limits s) * 8 + N.shiftl 64 20 ≤ u64_max;
  rs_lineage : len (restore_lineage s) ≤ u64_max;
  rs_retention : retention_validate (audit_retention s) = Ok tt;
  rs_audits : au_next_sequence (audit_retention s) = pruned_before (audit_retention s) + len (audits s);
  rs_audit_bound : au_next_sequence (audit_retention s) ≤ u64_max;
  rs_documents k c id slot :
    collections s !! k = Some c → documents c !! id = Some slot → slot_id slot = id ∧ kept slot;
  rs_changes i c r slot :
    commits (change_feed s) !! i = Some c → r ∈ records c → cr_document r = Some slot → kept slot;
  rs_stages k t : staged_transactions s !! k = Some t → is_active t = true;
  rs_operations k v :
    rc_operations (recovery_control s) !! k = Some v →
    validate_recovery v = Ok tt ∧ k = uuid_text (rec_operation_id v) ∧
    tenant s = CONTROL_TENANT ∧ is_Some (lifecycle_control s);
  rs_phases k v :
    rc_phases (recovery_control s) !! k = Some v →
    validate_recovery_phase v = Ok tt ∧ k = uuid_text (ph_phase_id v) ∧
    is_Some (rc_operations (recovery_control s) !! uuid_text (ph_operation_id v));
  rs_targets k id :
    rc_targets (recovery_control s) !! k = Some id →
    (∃ uuid, try_parse k = Some uuid ∧ is_nil uuid = false ∧ uuid_text uuid = k) ∧ is_nil id = false ∧
    is_Some (rc_operations (recovery_control s) !! uuid_text id);
  rs_completions k v :
    rc_completion_history (recovery_control s) !! k = Some v →
    validate_recovery_history v = Ok tt ∧ k = uuid_text (ch_intent v) ∧
    is_Some (rc_operations (recovery_control s) !! uuid_text (ch_operation_id v));
}.

(** A record that the checks of the visit accept and that leaves them as they are. *)
Definition neutral (r : SnapshotRecord) : Prop :=
  ∀ n c, is_Some (ck_audit c) → visit_check n c r = Ok c.

Definition resident (r : SnapshotRecord) : bool :=
  match r with
  | RHeader _ | RReceipt _ | RTerminal _ | RTargetResolution _ | RBackupBinding _ => false
  | _ => true
  end.

Lemma neutral_fold rs : ∀ n c,
  Forall neutral rs → is_Some (ck_audit c) → try_fold check_step (n, c) rs = Ok (n + len rs, c).
Proof.
  induction rs as [|r rs IH]; intros n c Hrs Hc; [by rewrite N.add_0_r|].
  apply Forall_cons in Hrs as [Hr Hrs]. rewrite try_fold_cons.
  assert (Hs : check_step (n, c) r = Ok (n + 1, c)) by (unfold check_step; cbn [fst snd]; by rewrite (Hr (n + 1) c Hc)).
  rewrite Hs, bind_Ok_l, IH by done. rewrite len_cons. do 2 f_equal. lia.
Qed.

Lemma Forall_entries {K V W} `{OrdKey K} (P : SnapshotRecord → Prop) (mk : K → W → SnapshotRecord)
    (g : V → W) (M : gmap K V) :
  (∀ k v, M !! k = Some v → P (mk k (g v))) → Forall P ((λ kv, mk kv.1 (g kv.2)) <$> map_iter M).
Proof. intros HP. apply Forall_fmap, Forall_forall. intros [k v] Hkv%elem_of_map_iter. by apply HP. Qed.
End restorable.

Lemma filter_all {A} (P : A → Prop) `{∀ x, Decision (P x)} (l : list A) : (∀ x, P x) → filter P l = l.
Proof. intros HP. induction l as [|x l IH]; [done|]. rewrite filter_cons_True by done. by rewrite IH. Qed.

Lemma filter_selected {A} (key : A → string) (l : list A) :
  filter (λ x, selected None (key x) = true) l = l.
Proof. by apply filter_all. Qed.

Lemma imap_pair {A B} (f : nat → A → B) (l : list A) :
  imap f l = (λ ia, f ia.1 ia.2) <$> imap pair l.
Proof. rewrite fmap_imap. by apply imap_ext. Qed.

Lemma Forall2_fmap_graph {A B} (R : A → B → Prop) (f : A → B) (l : list A) :
  (∀ x, x ∈ l → R x (f x)) → Forall2 R l (f <$> l).
Proof. intros Hf. apply Forall2_fmap_r, Forall_Forall2_diag, Forall_forall, Hf. Qed.

(** The items of the entries of a list, as records. *)
Lemma bind_items {K A X Y} (mk : K → X → Y) (xs : A → list X) (l : list (K * A)) :
  (ka ← l; mk ka.1 <$> xs ka.2) = (λ kx, mk kx.1 kx.2) <$> (ka ← l; (λ x, (ka.1, x)) <$> xs ka.2).
Proof.
  induction l as [|[k a] l IH]; [done|]. rewrite !bind_cons, fmap_app, IH. f_equal.
  cbn [fst snd]. by rewrite <-list_fmap_compose.
Qed.

Lemma elem_of_items {K A X} `{OrdKey K} (xs : A → list X) (M : gmap K A) k x :
  (k, x) ∈ (ka ← map_iter M; (λ x, (ka.1, x)) <$> xs ka.2) → ∃ a, M !! k = Some a ∧ x ∈ xs a.
Proof.
  intros ([k' a] & Hx & Ha%elem_of_map_iter)%list_elem_of_bind.
  apply list_elem_of_fmap in Hx as (x' & [= -> ->] & Hx). by exists a.
Qed.

(** The entries of a map, put into a part of a record one by one. *)
Lemma fold_entries {K V A} `{OrdKey K} (add : K → V → A → A) (put : gmap K V → A → A) (a : A) (M : gmap K V) :
  (∀ m k v, add k v (put m a) = put (<[k := v]> m) a) →
  foldl (λ a kv, add kv.1 kv.2 a) (put ∅ a) (map_iter M) = put M a.
Proof.
  intros Hadd.
  assert (Hg : ∀ l m, foldl (λ a kv, add kv.1 kv.2 a) (put m a) l = put (foldl (λ m kv, <[kv.1 := kv.2]> m) m l) a).
  { induction l as [|[k v] l IH]; intros m; [done|]. cbn [foldl fst snd]. by rewrite Hadd, IH. }
  rewrite Hg. f_equal. rewrite <-(map_fmap_id M) at 2. rewrite <-(insert_iter id M ∅) by done.
  f_equal. rewrite <-(list_fmap_id (map_iter M)) at 1. apply list_fmap_ext. by intros ? [].
Qed.

(** ** The records of a state *)

(** The items of an iterator, when all of them are records. *)
Definition all_of (items : Anyhow (list (Anyhow SnapshotRecord))) : Anyhow (list SnapshotRecord) :=
  l ← items; mapM id l.

Definition document_records `{Sha256} resolver (s : TenantState) : Anyhow (list SnapshotRecord) :=
  mapM (document_item resolver)
    (nc ← map_iter (collections s); (λ slot, (nc.1, slot)) <$> map_values (documents nc.2)).
Definition change_records `{Sha256} resolver (s : TenantState) : Anyhow (list SnapshotRecord) :=
  mapM (change_item resolver)
    (ic ← map_iter (commits (change_feed s)); imap (λ j r, (ic.1, N.of_nat j, r)) (records ic.2)).
Definition audit_records (s : TenantState) : Anyhow (list SnapshotRecord) :=
  mapM (audit_record s) (imap pair (audits s)).

Lemma all_documents `{Sha256} resolver s :
  all_of (records_with_resolver resolver s 3 None) = document_records resolver s.
Proof.
  unfold all_of, records_with_resolver, document_items. cbn [N.eqb Pos.eqb]. rewrite bind_Ok_l, mapM_fmap.
  by rewrite (filter_selected fst).
Qed.

Lemma all_changes `{Sha256} resolver s :
  all_of (records_with_resolver resolver s 10 None) = change_records resolver s.
Proof.
  unfold all_of, records_with_resolver, change_items. cbn [N.eqb Pos.eqb]. rewrite bind_Ok_l, mapM_fmap.
  by rewrite (filter_selected (λ ic, pad20 ic.1)).
Qed.

Lemma all_audits `{Sha256} resolver s :
  all_of (records_with_resolver resolver s 14 None) = audit_records s.
Proof.
  unfold all_of, records_with_resolver, audit_items. cbn [N.eqb Pos.eqb]. rewrite bind_Ok_l.
  rewrite filter_all by (by intros []). apply mapM_fmap.
Qed.

(** The list of the next kind. *)
Ltac peel_kind H l K := apply Forall2_cons_inv_l in H as (l & ? & K & H & ->); cbn in K.

Section kinds.
Context `{Sha256} `{UuidParse} `{RecordRules} `{DocumentTables}.
Context (resolver : option (StoredDocument → result string Document)).
Context (s : TenantState) (Hs : restorable resolver s).

Abbreviation into := (try_fold (insert_into (metadata s))).

Lemma lineage_segment c :
  co_lineage c = [] →
  into c (imap (λ i l, RLineage (N.of_nat i) l) (restore_lineage s)) =
  Ok (set_co_lineage (restore_lineage s) c).
Proof.
  intros Hc. replace c with (set_co_lineage [] c) at 1 by (destruct c; cbn in *; by subst).
  rewrite imap_pair. eapply (segment _ set_co_lineage (append_at (AnyMessage "")) (λ il r, r = RLineage (N.of_nat il.1) il.2)).
  - intros x x' [i l] r -> Hx. unfold append_at in Hx. cbn [fst snd] in *. case_bool_decide as Hi; [|done].
    injection Hx as <-. unfold insert_into, insert_record. cbn. unfold len. rewrite <-Hi, N.eqb_refl. done.
  - by apply Forall2_fmap_graph.
  - apply append_all.
Qed.

Lemma audit_segment c rs :
  co_audits c = [] → audit_records s = Ok rs → into c rs = Ok (set_co_audits (audits s) c).
Proof.
  intros Hc Hl%mapM_Ok.
  replace c with (set_co_audits [] c) at 1 by (destruct c; cbn in *; by subst).
  eapply (segment _ set_co_audits (append_at (AnyMessage "")) _ c _ _ rs); [exact Hl|apply append_all].
  Unshelve. intros x x' [i e] r Hr Hx. unfold audit_record in Hr. cbn [fst snd] in *.
  apply bind_Ok in Hr as (n & Hn%context_or_Ok & [= <-]).
  unfold append_at in Hx. cbn [fst snd] in *. case_bool_decide as Hi; [|done]. injection Hx as <-.
  unfold insert_into, insert_record. cbn. unfold len. rewrite <-Hi, Hn. by rewrite bool_decide_eq_true_2.
Qed.

Lemma collection_segment c :
  co_collections c = ∅ →
  into c ((λ nc, RCollection nc.1 (collection_header nc.2)) <$> map_iter (collections s)) =
  Ok (set_co_collections (collection_header <$> collections s) c).
Proof.
  intros Hc. apply segment_map; [destruct c; cbn in *; by subst|]. intros m k v _. done.
Qed.

Definition put_archived (m : gmap string ArchivedDocument) (c : CollectionState) : CollectionState :=
  {| definition := definition c; data_epoch := data_epoch c; documents := documents c;
     archived_documents := m; archived_document_bytes := archived_document_bytes c |}.
Definition with_documents (c : CollectionState) : CollectionState :=
  {| definition := definition c; data_epoch := data_epoch c; documents := documents c;
     archived_documents := ∅; archived_document_bytes := archived_document_bytes c |}.

Lemma archived_segment c :
  co_collections c = with_documents <$> collections s →
  into c (nc ← map_iter (collections s); (λ ir, RArchived nc.1 ir.1 ir.2) <$> map_iter (archived_documents nc.2)) =
  Ok (set_co_collections (collections s) c).
Proof.
  intros Hc. replace c with (set_co_collections (with_documents <$> collections s) c) at 1 by (destruct c; cbn in *; by subst).
  rewrite <-(map_fmap_id (collections s)) at 3.
  rewrite (bind_items (λ k ir, RArchived k ir.1 ir.2) (λ c, map_iter (archived_documents c))).
  apply (segment_nested _ set_co_collections (λ kx r, r = RArchived kx.1 kx.2.1 kx.2.2)
           (λ c ir, Ok (add_archived ir.1 ir.2 c)) (λ c, map_iter (archived_documents c))).
  - intros m k [id a] r b b' -> Hm [= <-]. unfold insert_into, insert_record. cbn. by rewrite Hm.
  - intros k b _. rewrite try_fold_pure. f_equal.
    rewrite (fold_entries add_archived put_archived b); [by destruct b|done].
  - by apply Forall2_fmap_graph.
Qed.

(** A document record restores the slot it was written from. *)
Lemma document_inserted k id slot collection r m c :
  (∃ b, collections s !! k = Some b ∧ documents b !! id = Some slot) →
  RDocument k <$> load_owned resolver slot = Ok r → m !! k = Some collection →
  insert_into (metadata s) (set_co_collections m c) r =
  Ok (set_co_collections (<[k := add_document id slot collection]> m) c).
Proof.
  intros (b & Hb & Hid) Hr Hm. destruct (rs_documents _ _ Hs k b id slot Hb Hid) as [Hsid (d & -> & Hpush)].
  destruct (load_owned resolver (Stored d)) as [document|e] eqn:Hload; [|done]. injection Hr as <-.
  pose proof Hload as Hid'. cbn in Hid'. apply bind_Ok in Hid' as (f & _ & Hid').
  destruct (load_stored f d) as [document'|e] eqn:Hd; [|done]. injection Hid' as <-.
  apply load_stored_Ok in Hd as (_ & _ & Hd & _). cbn in Hsid. rewrite <-Hsid, <-Hd in *.
  unfold insert_into, insert_record. cbn. rewrite (Hpush document' eq_refl), bind_Ok_l, Hm. done.
Qed.

Lemma document_segment c rs :
  co_collections c = collection_header <$> collections s → document_records resolver s = Ok rs →
  into c rs = Ok (set_co_collections (with_documents <$> collections s) c).
Proof.
  intros Hc Hrs. unfold document_records in Hrs.
  replace c with (set_co_collections (collection_header <$> collections s) c) at 1 by (destruct c; cbn in *; by subst).
  assert (Hl : (nc ← map_iter (collections s); (λ slot, (nc.1, slot)) <$> map_values (documents nc.2)) =
    (λ kx, (kx.1, kx.2.2)) <$> (nc ← map_iter (collections s); (λ x, (nc.1, x)) <$> map_iter (documents nc.2))).
  { rewrite <-(bind_items (λ k (x : string * DocumentSlot), (k, x.2)) (λ c, map_iter (documents c))).
    apply list_bind_ext; [|done]. intros [k b]. unfold map_values. by rewrite <-list_fmap_compose. }
  rewrite Hl in Hrs. apply mapM_Ok in Hrs. rewrite Forall2_fmap_l in Hrs.
  eapply (segment_nested _ set_co_collections
           (λ kx r, (∃ b, collections s !! kx.1 = Some b ∧ documents b !! kx.2.1 = Some kx.2.2) ∧
                    RDocument kx.1 <$> load_owned resolver kx.2.2 = Ok r)
           (λ c kv, Ok (add_document kv.1 kv.2 c)) (λ c, map_iter (documents c))).
  - intros m k [id slot] r b b' [Hb Hr] Hm [= <-]. by apply document_inserted.
  - intros k b _. rewrite try_fold_pure. f_equal.
    by apply (fold_entries add_document set_documents (collection_header b)).
  - eapply Forall2_impl_elem; [exact Hrs|]. intros [k [id slot]] r Hin Hr. split; [|done].
    apply (elem_of_items (λ c, map_iter (documents c))) in Hin as (b & Hb & Hid%elem_of_map_iter). by exists b.
Qed.

Lemma stage_segment c :
  co_staged c = ∅ →
  into c ((λ kt, RStage kt.1 (clear_chunks kt.2)) <$> map_iter (staged_transactions s)) =
  Ok (set_co_staged (clear_chunks <$> staged_transactions s) c).
Proof.
  intros Hc. apply segment_map; [destruct c; cbn in *; by subst|]. intros m k t Ht.
  unfold insert_into, insert_record. change (is_active (clear_chunks t)) with (is_active t).
  by rewrite (rs_stages _ _ Hs k t Ht).
Qed.

Lemma chunk_segment c :
  co_staged c = clear_chunks <$> staged_transactions s →
  into c (kt ← map_iter (staged_transactions s); (λ ic, RStageChunk kt.1 ic.1 ic.2) <$> map_iter (chunks kt.2)) =
  Ok (set_co_staged (staged_transactions s) c).
Proof.
  intros Hc. replace c with (set_co_staged (clear_chunks <$> staged_transactions s) c) at 1 by (destruct c; cbn in *; by subst).
  rewrite <-(map_fmap_id (staged_transactions s)) at 3.
  rewrite (bind_items (λ k ic, RStageChunk k ic.1 ic.2) (λ t, map_iter (chunks t))).
  apply (segment_nested _ set_co_staged (λ kx r, r = RStageChunk kx.1 kx.2.1 kx.2.2)
           (λ t ic, Ok (add_chunk_at ic.1 ic.2 t)) (λ t, map_iter (chunks t))).
  - intros m k [i ck] r t t' -> Hm [= <-]. unfold insert_into, insert_record. cbn. by rewrite Hm.
  - intros k t _. rewrite try_fold_pure. f_equal. change (clear_chunks t) with (set_chunks ∅ t).
    rewrite (fold_entries add_chunk_at set_chunks t); [by destruct t|done].
  - by apply Forall2_fmap_graph.
Qed.

Lemma active_segment c :
  co_active c = ∅ →
  into c (RActiveStage <$> set_iter (active_staged_transactions s)) =
  Ok (set_co_active (active_staged_transactions s) c).
Proof.
  clear Hs resolver. intros Hc. replace c with (set_co_active ∅ c) at 1 by (destruct c; cbn in *; by subst).
  eapply (segment _ set_co_active (λ x k, Ok ({[k]} ∪ x)) (λ k r, r = RActiveStage k)).
  - by intros x x' k r -> [= <-].
  - by apply Forall2_fmap_graph.
  - rewrite try_fold_pure. f_equal.
    assert (Hg : ∀ l (x : gset string), foldl (λ x k, {[k]} ∪ x) x l = list_to_set l ∪ x).
    { induction l as [|k l IH]; intros x; cbn; [set_solver|]. rewrite IH. set_solver. }
    rewrite Hg. apply set_eq. intros k. rewrite elem_of_union, elem_of_list_to_set, set_iter_elem. set_solver.
Qed.

Lemma commit_segment c :
  co_commits c = ∅ →
  into c ((λ ic, RChange ic.1 (clear_records ic.2)) <$> map_iter (commits (change_feed s))) =
  Ok (set_co_commits (clear_records <$> commits (change_feed s)) c).
Proof. intros Hc. apply segment_map; [destruct c; cbn in *; by subst|]. done. Qed.

(** The change records of a commit, appended in order. *)
Definition append_record (c : ChangeCommit) (jr : nat * ChangeRecord) : Anyhow ChangeCommit :=
  if bool_decide (jr.1 = length (records c)) then Ok (add_record jr.2 c) else Err (AnyMessage "").

Lemma append_records c : try_fold append_record (clear_records c) (imap pair (records c)) = Ok c.
Proof.
  set (put l := {| cc_revision := cc_revision c; first_sequence := first_sequence c; records := l;
                   record_bytes := record_bytes c |}).
  assert (Hg : ∀ l x x', try_fold (append_at (AnyMessage "")) x l = Ok x' → try_fold append_record (put x) l = Ok (put x')).
  { induction l as [|[j r] l IH]; intros x x' Hf; [by injection Hf as <-|].
    rewrite try_fold_cons in Hf. apply bind_Ok in Hf as (x1 & Hx1 & Hf). rewrite try_fold_cons.
    assert (Ha : append_record (put x) (j, r) = Ok (put x1)).
    { unfold append_at in Hx1. unfold append_record. cbn in *. case_bool_decide; [|done]. by injection Hx1 as <-. }
    rewrite Ha, bind_Ok_l. by apply IH. }
  change (clear_records c) with (put []). rewrite (Hg _ [] (records c)); [by destruct c|apply append_all].
Qed.

Lemma change_inserted i j rec commit r m c :
  (∃ b, commits (change_feed s) !! i = Some b ∧ rec ∈ records b) →
  change_item resolver (i, N.of_nat j, rec) = Ok r → m !! i = Some commit → j = length (records commit) →
  insert_into (metadata s) (set_co_commits m c) r =
  Ok (set_co_commits (<[i := add_record rec commit]> m) c).
Proof.
  intros (b & Hb & Hrec) Hr Hm Hj. unfold change_item, wire_change in Hr. cbn [fst snd] in Hr.
  match type of Hr with ?f <$> ?e = _ => destruct e as [w|] eqn:Hw; [|done] end. injection Hr as <-.
  apply bind_Ok in Hw as (document & Hd & [= <-]).
  assert (Hpush : push_optional document = Ok (cr_document rec)).
  { destruct (cr_document rec) as [slot|] eqn:Hslot; [|by injection Hd as <-].
    destruct (rs_changes _ _ Hs i b rec slot Hb Hrec Hslot) as (d & -> & Hpush).
    destruct (load_owned resolver (Stored d)) as [doc|e] eqn:Hload; [|done]. injection Hd as <-. cbn.
    by rewrite (Hpush doc eq_refl). }
  unfold insert_into, insert_record. cbn. rewrite Hpush, bind_Ok_l, Hm. cbn. unfold len. rewrite Hj, N.eqb_refl. cbn.
  by destruct rec.
Qed.

Lemma change_segment c rs :
  co_commits c = clear_records <$> commits (change_feed s) → change_records resolver s = Ok rs →
  into c rs = Ok (set_co_commits (commits (change_feed s)) c).
Proof.
  intros Hc Hrs. unfold change_records in Hrs.
  replace c with (set_co_commits (clear_records <$> commits (change_feed s)) c) at 1 by (destruct c; cbn in *; by subst).
  rewrite <-(map_fmap_id (commits (change_feed s))) at 2.
  assert (Hl : (ic ← map_iter (commits (change_feed s)); imap (λ j r, (ic.1, N.of_nat j, r)) (records ic.2)) =
    (λ kx, (kx.1, N.of_nat kx.2.1, kx.2.2)) <$>
      (ic ← map_iter (commits (change_feed s)); (λ x, (ic.1, x)) <$> imap pair (records ic.2))).
  { rewrite <-(bind_items (λ k (x : nat * ChangeRecord), (k, N.of_nat x.1, x.2)) (λ c, imap pair (records c))).
    apply list_bind_ext; [|done]. intros [k b]. by rewrite imap_pair. }
  rewrite Hl in Hrs. apply mapM_Ok in Hrs. rewrite Forall2_fmap_l in Hrs.
  eapply (segment_nested _ set_co_commits
           (λ kx r, (∃ b, commits (change_feed s) !! kx.1 = Some b ∧ kx.2.2 ∈ records b) ∧
                    change_item resolver (kx.1, N.of_nat kx.2.1, kx.2.2) = Ok r)
           append_record (λ c, imap pair (records c))).
  - intros m k [j rec] r b b' [Hb Hr] Hm Ha. unfold append_record in Ha. cbn [fst snd] in *.
    case_bool_decide as Hj; [|done]. injection Ha as <-. by eapply change_inserted.
  - intros k b _. apply append_records.
  - eapply Forall2_impl_elem; [exact Hrs|]. intros [k [j rec]] r Hin Hr. split; [|done].
    apply (elem_of_items (λ c, imap pair (records c))) in Hin as (b & Hb & Hin). exists b. split; [done|].
    apply list_elem_of_lookup in Hin as (n & Hn). rewrite list_lookup_imap in Hn.
    destruct (records b !! n) eqn:Hr'; [|done]. injection Hn as <- <-. by eapply list_elem_of_lookup_2.
Qed.

Definition put_intents (m : gmap Uuid value) (c : LifecycleControlState) : LifecycleControlState :=
  {| installation := installation c; installation_command_id := installation_command_id c;
     installation_revision := installation_revision c;
     installation_policy_epoch := installation_policy_epoch c;
     installation_policy := installation_policy c; lc_retired := lc_retired c;
     pending_change := pending_change c; intents := m; control_changes := ∅ |}.
Definition put_changes (m : gmap Uuid value) (c : LifecycleControlState) : LifecycleControlState :=
  {| installation := installation c; installation_command_id := installation_command_id c;
     installation_revision := installation_revision c;
     installation_policy_epoch := installation_policy_epoch c;
     installation_policy := installation_policy c; lc_retired := lc_retired c;
     pending_change := pending_change c; intents := intents c; control_changes := m |}.

Lemma control_segment c :
  co_control c = control_header <$> lifecycle_control s →
  into c (match lifecycle_control s with
          | Some c => (λ kv, RIntent kv.1 kv.2) <$> map_iter (intents c) | None => [] end ++
          match lifecycle_control s with
          | Some c => (λ kv, RControlChange kv.1 kv.2) <$> map_iter (control_changes c) | None => [] end) =
  Ok (set_co_control (lifecycle_control s) c).
Proof.
  intros Hc. destruct (lifecycle_control s) as [lc|] eqn:Hlc; [|destruct c; cbn in *; by subst].
  rewrite try_fold_app, (segment_entries _ (λ m c, set_co_control (Some (put_intents m lc)) c) RIntent).
  - rewrite bind_Ok_l, (segment_entries _ (λ m c, set_co_control (Some (put_changes m lc)) c) RControlChange).
    + by destruct lc.
    + by destruct lc.
    + by intros m k v _.
  - destruct c; cbn in *; by subst.
  - by intros m k v _.
Qed.

Lemma operations_segment c :
  rc_operations (co_recovery c) = ∅ → co_control c = lifecycle_control s →
  into c ((λ kv, RRecoveryOperation kv.1 kv.2) <$> map_iter (rc_operations (recovery_control s))) =
  Ok (set_co_recovery (set_operations (rc_operations (recovery_control s)) (co_recovery c)) c).
Proof.
  intros Hc Hcon. apply (segment_entries _ (λ m c, set_co_recovery (set_operations m (co_recovery c)) c)).
  - destruct c as [? ? ? [] ? ? ? ? ? ? ? ?]; cbn in *; by subst.
  - intros m k v Hv. destruct (rs_operations _ _ Hs k v Hv) as (_ & _ & Ht & Hlc).
    unfold insert_into, insert_record. cbn. by rewrite Hcon, !bool_decide_eq_true_2.
Qed.

Lemma operation_present c id m :
  rc_operations (co_recovery c) = rc_operations (recovery_control s) →
  is_Some (rc_operations (recovery_control s) !! uuid_text id) → operation_read c id m = Ok tt.
Proof. intros Hc Hid. unfold operation_read. rewrite Hc. by rewrite bool_decide_eq_true_2. Qed.

Lemma phases_segment c :
  rc_phases (co_recovery c) = ∅ → rc_operations (co_recovery c) = rc_operations (recovery_control s) →
  into c ((λ kv, RRecoveryPhase kv.1 kv.2) <$> map_iter (rc_phases (recovery_control s))) =
  Ok (set_co_recovery (set_phases (rc_phases (recovery_control s)) (co_recovery c)) c).
Proof.
  intros Hc Hop. apply (segment_entries _ (λ m c, set_co_recovery (set_phases m (co_recovery c)) c)).
  - destruct c as [? ? ? [] ? ? ? ? ? ? ? ?]; cbn in *; by subst.
  - intros m k v Hv. destruct (rs_phases _ _ Hs k v Hv) as (_ & _ & Hid).
    unfold insert_into, insert_record. by rewrite operation_present.
Qed.

Lemma recovery_targets_segment c :
  rc_targets (co_recovery c) = ∅ → rc_operations (co_recovery c) = rc_operations (recovery_control s) →
  into c ((λ kv, RRecoveryTarget kv.1 kv.2) <$> map_iter (rc_targets (recovery_control s))) =
  Ok (set_co_recovery (set_targets (rc_targets (recovery_control s)) (co_recovery c)) c).
Proof.
  intros Hc Hop. apply (segment_entries _ (λ m c, set_co_recovery (set_targets m (co_recovery c)) c)).
  - destruct c as [? ? ? [] ? ? ? ? ? ? ? ?]; cbn in *; by subst.
  - intros m k v Hv. destruct (rs_targets _ _ Hs k v Hv) as (_ & _ & Hid).
    unfold insert_into, insert_record. by rewrite operation_present.
Qed.

Lemma completions_segment c :
  rc_completion_history (co_recovery c) = ∅ →
  rc_operations (co_recovery c) = rc_operations (recovery_control s) →
  into c ((λ kv, RRecoveryCompletionHistory kv.1 kv.2) <$> map_iter (rc_completion_history (recovery_control s))) =
  Ok (set_co_recovery (set_completion_history (rc_completion_history (recovery_control s)) (co_recovery c)) c).
Proof.
  intros Hc Hop. apply (segment_entries _ (λ m c, set_co_recovery (set_completion_history m (co_recovery c)) c)).
  - destruct c as [? ? ? [] ? ? ? ? ? ? ? ?]; cbn in *; by subst.
  - intros m k v Hv. destruct (rs_completions _ _ Hs k v Hv) as (_ & _ & Hid).
    unfold insert_into, insert_record. by rewrite operation_present.
Qed.
End kinds.

(** ** The checks of the visit on the records of a state *)

Section checks.
Context `{Sha256} `{UuidParse} `{RecordRules} `{DocumentTables}.
Context (resolver : option (StoredDocument → result string Document)).
Context (s : TenantState) (Hs : restorable resolver s).

Definition good (r : SnapshotRecord) : Prop := resident r = true ∧ neutral r.

Lemma lineage_checks l n c :
  is_Some (ck_audit c) → ck_lineage c + len l ≤ u64_max →
  try_fold check_step (n, c) (imap (λ i x, RLineage (ck_lineage c + N.of_nat i) x) l) =
  Ok (n + len l, set_ck_lineage (ck_lineage c + len l) c).
Proof.
  revert n c. induction l as [|x l IH]; intros n c Hc Hl.
  - rewrite !N.add_0_r. by destruct c.
  - rewrite len_cons in *. cbn [imap]. rewrite try_fold_cons, N.add_0_r.
    assert (Hx : check_step (n, c) (RLineage (ck_lineage c) x) = Ok (n + 1, set_ck_lineage (ck_lineage c + 1) c)).
    { unfold check_step. cbn. rewrite bool_decide_eq_true_2 by done. rewrite N.eqb_refl. cbn.
      unfold checked_add. by rewrite (proj2 (N.leb_le _ _)) by lia. }
    rewrite Hx, bind_Ok_l. specialize (IH (n + 1) (set_ck_lineage (ck_lineage c + 1) c) Hc).
    cbn [ck_lineage set_ck_lineage] in IH. rewrite (imap_ext _ (λ i y, RLineage (ck_lineage c + 1 + N.of_nat i) y)).
    + rewrite IH by lia. unfold set_ck_lineage. cbn. f_equal. f_equal; [lia|]. f_equal. lia.
    + intros i y _. cbn. f_equal. lia.
Qed.

Lemma audit_checks l : ∀ n c a,
  ck_audit c = Some a → a + len l ≤ u64_max →
  try_fold check_step (n, c) (imap (λ i x, RAudit (a + N.of_nat i) x) l) =
  Ok (n + len l, set_ck_audit (a + len l) c).
Proof.
  induction l as [|x l IH]; intros n c a Hc Hl.
  - rewrite !N.add_0_r. destruct c; cbn in *. by subst.
  - rewrite len_cons in *. cbn [imap]. rewrite try_fold_cons, N.add_0_r.
    assert (Hx : check_step (n, c) (RAudit a x) = Ok (n + 1, set_ck_audit (a + 1) c)).
    { unfold check_step. cbn. rewrite Hc. rewrite !bool_decide_eq_true_2 by done. cbn.
      unfold checked_add. by rewrite (proj2 (N.leb_le _ _)) by lia. }
    rewrite Hx, bind_Ok_l. specialize (IH (n + 1) (set_ck_audit (a + 1) c) (a + 1) eq_refl).
    rewrite (imap_ext _ (λ i y, RAudit (a + 1 + N.of_nat i) y)).
    + rewrite IH by lia. unfold set_ck_audit. cbn. f_equal. f_equal; [lia|]. do 2 f_equal. lia.
    + intros i y _. cbn. f_equal. lia.
Qed.

Ltac plain := split; [done|]; intros n c Hc; cbn; rewrite ?bool_decide_eq_true_2 by done; done.

Lemma mapM_good {A} (f : A → Anyhow SnapshotRecord) l rs :
  mapM f l = Ok rs → (∀ a r, f a = Ok r → good r) → Forall good rs.
Proof. intros Hm%mapM_Ok Hf. induction Hm; constructor; eauto. Qed.

Lemma items_good {K A X} `{OrdKey K} (mk : K → X → SnapshotRecord) (xs : A → list X) (M : gmap K A) :
  (∀ k x, good (mk k x)) → Forall good (ka ← map_iter M; mk ka.1 <$> xs ka.2).
Proof. intros Hmk. rewrite bind_items. apply Forall_fmap, Forall_true. intros [k x]. apply Hmk. Qed.

Lemma document_good rs : document_records resolver s = Ok rs → Forall good rs.
Proof.
  intros Hr. eapply mapM_good; [exact Hr|]. intros [k slot] r Hf. unfold document_item in Hf. cbn in Hf.
  destruct (load_owned resolver slot); [|done]. injection Hf as <-. plain.
Qed.

Lemma change_good rs : change_records resolver s = Ok rs → Forall good rs.
Proof.
  intros Hr. eapply mapM_good; [exact Hr|]. intros [[i j] x] r Hf. unfold change_item in Hf.
  destruct (wire_change resolver _); [|done]. injection Hf as <-. plain.
Qed.

Lemma collection_good :
  Forall good ((λ nc, RCollection nc.1 (collection_header nc.2)) <$> map_iter (collections s)).
Proof. apply Forall_entries. intros k v _. plain. Qed.

Lemma stage_good :
  Forall good ((λ kt, RStage kt.1 (clear_chunks kt.2)) <$> map_iter (staged_transactions s)).
Proof. apply Forall_entries. intros k v _. plain. Qed.

Lemma commit_good :
  Forall good ((λ ic, RChange ic.1 (clear_records ic.2)) <$> map_iter (commits (change_feed s))).
Proof. apply Forall_entries. intros k v _. plain. Qed.

Lemma entries_good {K V} `{OrdKey K} (mk : K → V → SnapshotRecord) (M : gmap K V) :
  (∀ k v, M !! k = Some v → good (mk k v)) → Forall good ((λ kv, mk kv.1 kv.2) <$> map_iter M).
Proof. apply (Forall_entries good mk id). Qed.

Lemma operations_good :
  Forall good ((λ kv, RRecoveryOperation kv.1 kv.2) <$> map_iter (rc_operations (recovery_control s))).
Proof.
  apply entries_good. intros k v Hv. destruct (rs_operations _ _ Hs k v Hv) as (Hval & Hk & _).
  split; [done|]. intros n c Hc. cbn. rewrite !bool_decide_eq_true_2 by done. by rewrite Hval.
Qed.

Lemma phases_good :
  Forall good ((λ kv, RRecoveryPhase kv.1 kv.2) <$> map_iter (rc_phases (recovery_control s))).
Proof.
  apply entries_good. intros k v Hv. destruct (rs_phases _ _ Hs k v Hv) as (Hval & Hk & _).
  split; [done|]. intros n c Hc. cbn. rewrite !bool_decide_eq_true_2 by done. by rewrite Hval.
Qed.

Lemma recovery_targets_good :
  Forall good ((λ kv, RRecoveryTarget kv.1 kv.2) <$> map_iter (rc_targets (recovery_control s))).
Proof.
  apply entries_good. intros k v Hv. destruct (rs_targets _ _ Hs k v Hv) as ((u & Hu & Hn & Hk) & Hv' & _).
  split; [done|]. intros n c Hc. cbn. rewrite bool_decide_eq_true_2 by done. cbn. rewrite Hu. cbn. rewrite Hn, Hv'.
  by rewrite bool_decide_eq_true_2.
Qed.

Lemma completions_good :
  Forall good ((λ kv, RRecoveryCompletionHistory kv.1 kv.2) <$>
                 map_iter (rc_completion_history (recovery_control s))).
Proof.
  apply entries_good. intros k v Hv. destruct (rs_completions _ _ Hs k v Hv) as (Hval & Hk & _).
  split; [done|]. intros n c Hc. cbn. rewrite !bool_decide_eq_true_2 by done. by rewrite Hval.
Qed.
End checks.

(** ** The records of a state, in the order of the stream *)

Section assembly.
Context `{Sha256} `{UuidParse} `{RecordRules} `{DocumentTables}.
Context (resolver : option (StoredDocument → result string Document)).
Context (s : TenantState) (Hs : restorable resolver s).

(** Resident records that take the contents from [c] to [c'] and the checks from [k] to [k']. *)
Definition adds (c c' : Contents) (k k' : Checks) (rs : list SnapshotRecord) : Prop :=
  try_fold (insert_into (metadata s)) c rs = Ok c' ∧ Forall (λ r, resident r = true) rs ∧
  ∀ n, try_fold check_step (n, k) rs = Ok (n + len rs, k').

Lemma adds_app c c1 c2 k k1 k2 l l' :
  adds c c1 k k1 l → adds c1 c2 k1 k2 l' → adds c c2 k k2 (l ++ l').
Proof.
  intros (Hi & Hr & Hk) (Hi' & Hr' & Hk'). split; [by rewrite try_fold_app, Hi|]. split; [by apply Forall_app|].
  intros n. rewrite try_fold_app, Hk, bind_Ok_l, Hk'. unfold len. rewrite length_app. do 2 f_equal. lia.
Qed.

Lemma adds_good c c' k rs :
  try_fold (insert_into (metadata s)) c rs = Ok c' → Forall good rs → is_Some (ck_audit k) → adds c c' k k rs.
Proof.
  intros Hi Hg Hk. split; [done|]. split; [by eapply Forall_impl; [exact Hg|]; intros r []|].
  intros n. apply neutral_fold; [|done]. by eapply Forall_impl; [exact Hg|]; intros r [].
Qed.

(** The checks after the header, after the lineage and after the audits. *)
Definition opening : Checks :=
  {| ck_lineage := 0; ck_audit := Some (pruned_before (audit_retention s));
     ck_audit_next := au_next_sequence (audit_retention s) |}.
Definition opened : Checks := set_ck_lineage (len (restore_lineage s)) opening.
Definition closed : Checks := set_ck_audit (au_next_sequence (audit_retention s)) opened.

Definition no_contents : Contents := empty_contents (control_header <$> lifecycle_control s).
Definition early_contents : Contents :=
  set_co_collections (collections s) (set_co_lineage (restore_lineage s) no_contents).
Definition late_contents : Contents :=
  set_co_recovery (set_completion_history ∅ (recovery_control s)) (contents s).

Abbreviation records_of kind := (all_of (records_with_resolver resolver s kind None)).

Lemma resident_of kind l rs :
  (kind =? 3) || (kind =? 10) || (kind =? 14) = false → resident_records s kind None = Some l →
  records_of kind = Ok rs → rs = l.
Proof.
  intros [[H3 H10]%orb_false_iff H14]%orb_false_iff Hl. unfold all_of, records_with_resolver.
  rewrite H3, H10, H14, Hl, bind_Ok_l, (filter_selected (λ r, (order r).1.2)), mapM_fmap_Ok.
  by intros [= <-].
Qed.

Lemma early_records l1 l2 l3 l4 :
  records_of 1 = Ok l1 → records_of 2 = Ok l2 → records_of 3 = Ok l3 → records_of 4 = Ok l4 →
  adds no_contents early_contents opening opened (l1 ++ l2 ++ l3 ++ l4).
Proof.
  intros H1' H2' H3' H4'. apply (resident_of 1 _ _ eq_refl eq_refl) in H1' as ->.
  apply (resident_of 2 _ _ eq_refl eq_refl) in H2' as ->. apply (resident_of 4 _ _ eq_refl eq_refl) in H4' as ->.
  rewrite all_documents in H3'.
  eapply adds_app; [|eapply adds_app; [|eapply adds_app]].
  - split; [by apply lineage_segment|]. split.
    + rewrite imap_pair. apply Forall_fmap, Forall_true. done.
    + intros n. unfold len. rewrite length_imap. exact (lineage_checks (restore_lineage s) n opening (mk_is_Some _ _ eq_refl) (rs_lineage _ _ Hs)).
  - apply adds_good; [by apply collection_segment|apply collection_good|done].
  - apply adds_good; [by eapply document_segment|by eapply document_good|done].
  - apply adds_good; [by eapply archived_segment| |done].
    apply (items_good (λ k ir, RArchived k ir.1 ir.2) (λ c, map_iter (archived_documents c))).
    intros k [id a]. split; [done|]. intros n c Hc. cbn. by rewrite bool_decide_eq_true_2.
Qed.

Lemma audit_adds c l :
  co_audits c = [] → records_of 14 = Ok l → adds c (set_co_audits (audits s) c) opened closed l.
Proof.
  intros Hc Hl. rewrite all_audits in Hl. split; [by apply audit_segment|]. apply mapM_Ok in Hl as Hm.
  assert (Hrs : l = imap (λ i x, RAudit (pruned_before (audit_retention s) + N.of_nat i) x) (audits s)).
  { rewrite imap_pair. apply list_eq_Forall2. rewrite Forall2_fmap_r. apply Forall2_flip.
    eapply Forall2_impl; [exact Hm|]. intros [i e] r Hr. unfold audit_record in Hr. cbn [fst snd] in Hr.
    apply bind_Ok in Hr as (n & [-> _]%context_or_Ok%checked_add_Some & [= <-]). done. }
  clear Hm Hl. subst l. split; [rewrite imap_pair; apply Forall_fmap, Forall_true; done|].
  intros n. unfold closed. rewrite (rs_audits _ _ Hs). unfold len. rewrite length_imap. apply audit_checks; [done|].
  pose proof (rs_audit_bound _ _ Hs) as Hb. by rewrite (rs_audits _ _ Hs) in Hb.
Qed.

Ltac plain_record := intros; split; [done|]; intros ? ? ?; cbn; by rewrite bool_decide_eq_true_2.

Lemma staged_records l6 l7 l8 :
  records_of 6 = Ok l6 → records_of 7 = Ok l7 → records_of 8 = Ok l8 →
  adds early_contents
    (set_co_active (active_staged_transactions s) (set_co_staged (staged_transactions s) early_contents))
    opened opened (l6 ++ l7 ++ l8).
Proof.
  intros H6 H7 H8. apply (resident_of 6 _ _ eq_refl eq_refl) in H6 as ->.
  apply (resident_of 7 _ _ eq_refl eq_refl) in H7 as ->. apply (resident_of 8 _ _ eq_refl eq_refl) in H8 as ->.
  eapply adds_app; [|eapply adds_app].
  - apply adds_good; [by eapply stage_segment|apply stage_good|done].
  - apply adds_good; [by eapply chunk_segment| |done].
    apply (items_good (λ k ic, RStageChunk k ic.1 ic.2) (λ t, map_iter (chunks t))). plain_record.
  - apply adds_good; [by apply active_segment| |done]. apply Forall_fmap, Forall_true. plain_record.
Qed.

Lemma archive_records c l9 l10 l11 l12 l13 :
  records_of 9 = Ok l9 → records_of 10 = Ok l10 → records_of 11 = Ok l11 → records_of 12 = Ok l12 →
  records_of 13 = Ok l13 →
  co_commits c = ∅ → co_archives c = ∅ → co_activations c = ∅ → co_retirements c = ∅ →
  adds c (set_co_retirements (retirements s) (set_co_activations (schema_activations s)
           (set_co_archives (history_archives s) (set_co_commits (commits (change_feed s)) c))))
    opened opened (l9 ++ l10 ++ l11 ++ l12 ++ l13).
Proof.
  intros H9 H10 H11 H12 H13 Hc Ha Hv Hr. apply (resident_of 9 _ _ eq_refl eq_refl) in H9 as ->.
  rewrite all_changes in H10.
  apply (resident_of 11 _ _ eq_refl eq_refl) in H11 as ->. apply (resident_of 12 _ _ eq_refl eq_refl) in H12 as ->.
  apply (resident_of 13 _ _ eq_refl eq_refl) in H13 as ->.
  eapply adds_app; [|eapply adds_app; [|eapply adds_app; [|eapply adds_app]]].
  - apply adds_good; [by eapply commit_segment|apply commit_good|done].
  - apply adds_good; [by eapply change_segment|by eapply change_good|done].
  - apply adds_good; [|apply entries_good; plain_record|done].
    apply (segment_entries _ set_co_archives); [destruct c; cbn in *; by subst|done].
  - apply adds_good; [|apply entries_good; plain_record|done].
    apply (segment_entries _ set_co_activations); [destruct c; cbn in *; by subst|done].
  - apply adds_good; [|apply entries_good; plain_record|done].
    apply (segment_entries _ set_co_retirements); [destruct c; cbn in *; by subst|done].
Qed.

Lemma recovery_records c l18 l19 l20 :
  records_of 18 = Ok l18 → records_of 19 = Ok l19 → records_of 20 = Ok l20 →
  co_recovery c = empty_recovery_control → co_control c = lifecycle_control s →
  adds c (set_co_recovery (set_completion_history ∅ (recovery_control s)) c) closed closed (l18 ++ l19 ++ l20).
Proof.
  intros H18 H19 H20 Hc Hcon. apply (resident_of 18 _ _ eq_refl eq_refl) in H18 as ->.
  apply (resident_of 19 _ _ eq_refl eq_refl) in H19 as ->. apply (resident_of 20 _ _ eq_refl eq_refl) in H20 as ->.
  eapply adds_app; [|eapply adds_app].
  - apply adds_good; [|by eapply operations_good|done]. eapply operations_segment; [done|by rewrite Hc|done].
  - apply adds_good; [|by eapply phases_good|done]. eapply phases_segment; [done|by cbn; rewrite Hc|done].
  - apply adds_good; [|by eapply recovery_targets_good|done].
    erewrite recovery_targets_segment; [|done|by cbn; rewrite Hc|done]. cbn. by rewrite Hc.
Qed.

Lemma late_records l15 l16 l17 c :
  records_of 15 = Ok l15 → records_of 16 = Ok l16 → records_of 17 = Ok l17 →
  co_control c = control_header <$> lifecycle_control s → co_targets c = ∅ →
  adds c (set_co_targets (target_lifecycle s) (set_co_control (lifecycle_control s) c)) closed closed
    (l15 ++ l16 ++ l17).
Proof.
  intros H15 H16 H17 Hc Ht. apply (resident_of 15 _ _ eq_refl eq_refl) in H15 as ->.
  apply (resident_of 16 _ _ eq_refl eq_refl) in H16 as ->. apply (resident_of 17 _ _ eq_refl eq_refl) in H17 as ->.
  rewrite app_assoc. eapply adds_app.
  - apply adds_good; [by apply control_segment| |done]. apply Forall_app.
    split; (destruct (lifecycle_control s); [apply entries_good; plain_record|done]).
  - apply adds_good; [|apply entries_good; plain_record|done].
    apply (segment_entries _ set_co_targets); [destruct c; cbn in *; by subst|done].
Qed.

Lemma assembled receipts first :
  mapM (λ kind, if bool_decide (kind = 5%nat) then receipts else records_of (N.of_nat kind)) (seq 0 21) = Ok first →
  ∃ early rows late, concat first = RHeader (metadata s) :: early ++ rows ++ late ∧ receipts = Ok rows ∧
    adds no_contents early_contents opening opened early ∧ adds early_contents late_contents opened closed late.
Proof.
  intros Hm%mapM_Ok. cbn [seq] in Hm.
  peel_kind Hm l0 K0. peel_kind Hm l1 K1. peel_kind Hm l2 K2. peel_kind Hm l3 K3. peel_kind Hm l4 K4.
  peel_kind Hm l5 K5. peel_kind Hm l6 K6. peel_kind Hm l7 K7. peel_kind Hm l8 K8. peel_kind Hm l9 K9.
  peel_kind Hm l10 K10. peel_kind Hm l11 K11. peel_kind Hm l12 K12. peel_kind Hm l13 K13. peel_kind Hm l14 K14.
  peel_kind Hm l15 K15. peel_kind Hm l16 K16. peel_kind Hm l17 K17. peel_kind Hm l18 K18. peel_kind Hm l19 K19.
  peel_kind Hm l20 K20. apply Forall2_nil_inv_l in Hm as ->.
  apply (resident_of 0 _ _ eq_refl eq_refl) in K0 as ->.
  exists (l1 ++ l2 ++ l3 ++ l4), l5,
    ((l6 ++ l7 ++ l8) ++ (l9 ++ l10 ++ l11 ++ l12 ++ l13) ++ l14 ++ (l15 ++ l16 ++ l17) ++ (l18 ++ l19 ++ l20)).
  split; [cbn; rewrite app_nil_r, <-!app_assoc; done|]. split; [done|]. split; [by apply early_records|].
  eapply adds_app; [by apply staged_records|]. eapply adds_app; [by apply archive_records|].
  eapply adds_app; [by apply audit_adds|]. eapply adds_app; [by apply late_records|].
  by eapply recovery_records.
Qed.
End assembly.

(** ** Reading the records of a state *)

Lemma record_nonempty (r : SnapshotRecord) : 0 < str_len (to_json r).
Proof.
  assert (Ht : ∀ name v, 0 < str_len (write (tagged name v))).
  { intros name v. unfold tagged. cbn [write]. rewrite str_len_app. change (str_len "{") with 1. lia. }
  destruct r; apply Ht.
Qed.

Section reading.
Context (site_bytes : N).
Context `{Sha256} `{Sha256Bytes} `{!Sha256Width} `{UuidParse} `{RecordRules} `{FromSlice SnapshotRecord}
  `{DocumentTables}.
Context `{HR : History ReceiptRow} `{HT : History TerminalRow} `{HS : History ResolutionRow}
  `{HB : History BindingRow}.
Context (resolver : option (StoredDocument → result string Document)).
Context (s : TenantState) (Hs : restorable resolver s).

Definition nowhere : RecordPosition := {| offset := 0; rp_bytes := 0 |}.

Definition read_all (rs : list SnapshotRecord) : ST Restoring anyhow unit :=
  st_fold (λ _, read_record nowhere) tt rs.

Lemma read_all_app l l' g g1 :
  read_all l g = (g1, Ok tt) → read_all (l ++ l') g = read_all l' g1.
Proof.
  revert g. induction l as [|r l IH]; intros g Hl; [by injection Hl as <-|].
  unfold read_all in *. rewrite st_fold_cons in Hl. cbn [app]. rewrite st_fold_cons.
  apply st_bind_Ok in Hl as (g2 & [] & Hr & Hl). erewrite st_bind_run by exact Hr. by apply IH.
Qed.

Lemma read_positions pl g :
  st_fold (λ _ pr, read_record pr.1 pr.2) tt pl g = read_all pl.*2 g.
Proof.
  revert g. induction pl as [|[p r] pl IH]; intros g; [done|]. rewrite fmap_cons. unfold read_all in *.
  rewrite !st_fold_cons. cbn [fst snd]. change (read_record p r) with (read_record nowhere r).
  destruct (read_record nowhere r g) as [g1 [[]|e]] eqn:Hr.
  - rewrite !(st_bind_run _ _ _ _ _ Hr). apply IH.
  - unfold mbind, ST_bind. by rewrite Hr.
Qed.

Definition state_of (c : Contents) : TenantState := with_contents (metadata s) c.

Lemma resident_read c c' rs : ∀ g,
  rg_state g = Some (state_of c) → try_fold (insert_into (metadata s)) c rs = Ok c' →
  Forall (λ r, resident r = true) rs → read_all rs g = (set_rg_state (Some (state_of c')) g, Ok tt).
Proof.
  revert c. induction rs as [|r rs IH]; intros c g Hg Hf Hr.
  - injection Hf as <-. unfold read_all. rewrite st_fold_nil. destruct g; cbn in *. by subst.
  - apply Forall_cons in Hr as [Hr Hrs]. rewrite try_fold_cons in Hf. apply bind_Ok in Hf as (c1 & Hc1 & Hf).
    unfold read_all. rewrite st_fold_cons.
    assert (Hstep : read_record nowhere r g = (set_rg_state (Some (state_of c1)) g, Ok tt)).
    { unfold insert_into in Hc1. unfold state_of in *.
      destruct r; try done; unfold read_record; rewrite st_bind_get, Hg, context_or_Some;
        (erewrite st_bind_run by reflexivity); rewrite Hc1; done. }
    erewrite st_bind_run by exact Hstep. by apply (IH c1 (set_rg_state (Some (state_of c1)) g)).
Qed.

(** The rows of a history pushed to the builder of the header. *)
Definition pushed {Row} `{History Row} (st : TenantState) (rows : list Row) (o o' : option (HBuilder Row)) : Prop :=
  match o with
  | None => rows = [] ∧ o' = None
  | Some b0 => ∃ b, st_fold (λ _ row, h_push row st) tt rows b0 = (b, Ok tt) ∧ o' = Some b
  end.

(** The rows, read in the state [st], rebuild the history with view [v]. *)
Definition rebuilt {Row} `{History Row} (st : TenantState) (rows : list Row) (v : HView Row) : Prop :=
  ∃ o o', history_builder (metadata s) = Ok o ∧ pushed st rows o o' ∧ ∀ m, finish_history o' s m = Ok v.

Lemma rows_read {Row} `{Hh : History Row} (mk : Row → SnapshotRecord)
    (set : option (HBuilder Row) → Restoring → Restoring) (st : TenantState) (rows : list Row) g o o' :
  (∀ row b b' x, row ∈ rows → h_push row st b = (b', Ok x) →
     read_record nowhere (mk row) (set (Some b) g) = (set (Some b') g, Ok tt)) →
  pushed st rows o o' → read_all (mk <$> rows) (set o g) = (set o' g, Ok tt).
Proof.
  intros Hstep Hp. destruct o as [b|]; [|by destruct Hp as [-> ->]]. destruct Hp as (b' & Hp & ->).
  revert b Hp. induction rows as [|row rows IH]; intros b Hp.
  - rewrite st_fold_nil in Hp. by injection Hp as <-.
  - rewrite st_fold_cons in Hp. apply st_bind_Ok in Hp as (b1 & [] & Hb1 & Hp).
    rewrite fmap_cons. unfold read_all. rewrite st_fold_cons.
    erewrite st_bind_run by (eapply Hstep; [by left|exact Hb1]).
    apply IH; [|done]. intros row' b2 b3 x Hin. apply Hstep. by right.
Qed.

(** The histories of a view, and the views they are rebuilt to. *)
Record histories_rebuilt (h h' : Histories) : Prop := {
  hr_receipts rows :
    h_rows (hs_receipts h) = Ok <$> rows → rebuilt (state_of (early_contents s)) rows (hs_receipts h');
  hr_terminals rows :
    h_rows (hs_terminals h) = Ok <$> rows →
    rebuilt (state_of (late_contents s)) rows (hs_terminals h') ∧ Forall (λ row, neutral (RTerminal row)) rows ∧
    Forall (λ row, staged_transactions s !! tm_key row = None) rows;
  hr_resolutions rows :
    h_rows (hs_resolutions h) = Ok <$> rows →
    rebuilt (state_of (late_contents s)) rows (hs_resolutions h') ∧
    Forall (λ row, neutral (RTargetResolution row)) rows;
  hr_bindings rows :
    h_rows (hs_bindings h) = Ok <$> rows →
    rebuilt s rows (hs_bindings h') ∧ Forall (λ row, neutral (RBackupBinding row)) rows;
}.

(** All records of the stream of a state, when no item fails. *)
Definition snapshot_records (h : Histories) : Anyhow (list SnapshotRecord) :=
  first ← mapM (λ kind, if bool_decide (kind = 5%nat) then mapM id (row_items RReceipt (h_rows (hs_receipts h)))
                        else all_of (records_with_resolver resolver s (N.of_nat kind) None)) (seq 0 21);
  terminals ← mapM id (row_items RTerminal (h_rows (hs_terminals h)));
  resolutions ← mapM id (row_items RTargetResolution (h_rows (hs_resolutions h)));
  completions ← all_of (records_with_resolver None s 23 None);
  bindings ← mapM id (row_items RBackupBinding (h_rows (hs_bindings h)));
  Ok (concat first ++ terminals ++ resolutions ++ completions ++ bindings).

Lemma encode_app l l' e e1 e2 :
  st_fold (λ _, encode_record) tt l e = (e1, Ok tt) → st_fold (λ _, encode_record) tt l' e1 = (e2, Ok tt) →
  st_fold (λ _, encode_record) tt (l ++ l') e = (e2, Ok tt).
Proof.
  revert e. induction l as [|r l IH]; intros e Hl Hl'; [by injection Hl as <-|].
  rewrite st_fold_cons in Hl. cbn [app]. rewrite st_fold_cons.
  apply st_bind_Ok in Hl as (e3 & [] & Hr & Hl). erewrite st_bind_run by exact Hr. by apply IH.
Qed.

Lemma encode_items_Ok items : ∀ e e',
  encode_items items e = (e', Ok tt) →
  ∃ rs, mapM id items = Ok rs ∧ st_fold (λ _, encode_record) tt rs e = (e', Ok tt).
Proof.
  unfold encode_items. induction items as [|item items IH]; intros e e' He.
  - exists []. split; [done|]. exact He.
  - rewrite st_fold_cons in He. apply st_bind_Ok in He as (e1 & [] & Hi & He).
    apply st_bind_Ok in Hi as (? & r & [-> ->]%st_lift_Ok & Hr). apply IH in He as (rs & Hrs & He).
    exists (r :: rs). split; [cbn; by rewrite Hrs|]. rewrite st_fold_cons. by erewrite st_bind_run by exact Hr.
Qed.

Lemma encode_kinds_Ok h kinds : ∀ e e',
  st_fold (λ _ kind, items ← st_lift (kind_items resolver s h kind); encode_items items) tt kinds e = (e', Ok tt) →
  ∃ first, mapM (λ kind, if bool_decide (kind = 5%nat) then mapM id (row_items RReceipt (h_rows (hs_receipts h)))
                  else all_of (records_with_resolver resolver s (N.of_nat kind) None)) kinds = Ok first ∧
    st_fold (λ _, encode_record) tt (concat first) e = (e', Ok tt).
Proof.
  induction kinds as [|kind kinds IH]; intros e e' He; [exists []; split; [done|exact He]|].
  rewrite st_fold_cons in He. apply st_bind_Ok in He as (e1 & [] & Hi & He).
  apply st_bind_Ok in Hi as (? & items & [-> Hitems]%st_lift_Ok & Hi).
  apply IH in He as (first & Hf & He). apply encode_items_Ok in Hi as (rs & Hrs & Hi).
  exists (rs :: first). split; [|by eapply encode_app].
  apply mapM_Ok. apply mapM_Ok in Hf. constructor; [|done]. unfold kind_items in Hitems.
  case_bool_decide; [by injection Hitems as <-|]. unfold all_of. by rewrite Hitems.
Qed.

(** A written stream is the encoding of all records. *)
Lemma encode_state_Ok h e e' :
  encode_state resolver s h e = (e', Ok tt) →
  ∃ records, snapshot_records h = Ok records ∧ st_fold (λ _, encode_record) tt records e = (e', Ok tt).
Proof.
  intros He. unfold encode_state in He. apply st_bind_Ok in He as (e1 & [] & (first & Hf & H1')%encode_kinds_Ok & He).
  apply st_bind_Ok in He as (e2 & [] & (terminals & Ht & H2')%encode_items_Ok & He).
  apply st_bind_Ok in He as (e3 & [] & (resolutions & Hr & H3')%encode_items_Ok & He).
  apply st_bind_Ok in He as (? & items & [-> Hi]%st_lift_Ok & He).
  apply st_bind_Ok in He as (e4 & [] & (completions & Hc & H4')%encode_items_Ok & He).
  apply encode_items_Ok in He as (bindings & Hb & H5').
  exists (concat first ++ terminals ++ resolutions ++ completions ++ bindings). split.
  - unfold snapshot_records. rewrite Hf, bind_Ok_l, Ht, bind_Ok_l, Hr, bind_Ok_l. unfold all_of.
    by rewrite Hi, bind_Ok_l, Hc, bind_Ok_l, Hb.
  - by repeat (eapply encode_app; [eassumption|]).
Qed.

Lemma row_records_Ok {Row} (f : Row → SnapshotRecord) rows rs :
  mapM id (row_items f rows) = Ok rs → ∃ l, rows = Ok <$> l ∧ rs = f <$> l.
Proof.
  unfold row_items. rewrite mapM_fmap. intros Hm%mapM_Ok. induction Hm as [|row r rows rs Hr Hm IH]; [by exists []|].
  destruct IH as (l & -> & ->). destruct row as [row|]; [|done]. injection Hr as <-. by exists (row :: l).
Qed.

Lemma state_of_contents : state_of (contents s) = s.
Proof. unfold state_of, metadata, metadata_with_shared. by destruct s as [? ? ? ? ? ? ? ? ? ? ? ? ? ? ? ? ? ? ? ? ? ? ? ? ? ? ? ? []]. Qed.

Lemma metadata_empty : empty_records (metadata s) = true.
Proof.
  unfold empty_records. cbn. rewrite !bool_decide_eq_true_2 by done.
  destruct (lifecycle_control s); cbn; by rewrite ?bool_decide_eq_true_2.
Qed.

Lemma header_read o1 o2 o3 o4 :
  history_builder (Row := BindingRow) (metadata s) = Ok o1 → history_builder (Row := ReceiptRow) (metadata s) = Ok o2 →
  history_builder (Row := ResolutionRow) (metadata s) = Ok o3 → history_builder (Row := TerminalRow) (metadata s) = Ok o4 →
  read_record nowhere (RHeader (metadata s)) nothing_read =
  ({| rg_state := Some (metadata s); rg_receipts := o2; rg_bindings := o1; rg_terminals := o4;
      rg_resolutions := o3 |}, Ok tt).
Proof.
  intros H1' H2' H3' H4'. unfold read_record, read_header. rewrite st_bind_get.
  rewrite H1', H2', H3', H4'.
  assert (Hn : any (validate_name (incarnation (metadata s))) = Ok tt) by apply any_Ok, (rs_incarnation _ _ Hs).
  assert (Hd : document_scope (tenant (metadata s)) (incarnation (metadata s)) = Ok tt) by apply (rs_scope _ _ Hs).
  pose proof (rs_staging _ _ Hs) as Hb.
  assert (Hm : (checked_mul (max_snapshot_bytes (limits (metadata s))) 8 ≫= λ n, checked_add n (N.shiftl 64 20)) =
               Some (max_snapshot_bytes (limits s) * 8 + N.shiftl 64 20)).
  { change (limits (metadata s)) with (limits s). assert (Hm : checked_mul (max_snapshot_bytes (limits s)) 8 = Some (max_snapshot_bytes (limits s) * 8))
      by (apply checked_mul_Some; lia). rewrite Hm.
    cbn [mbind option_bind]. by apply checked_add_Some. }
  rewrite Hn, Hd, Hm, metadata_empty, bool_decide_eq_true_2 by done. done.
Qed.

Lemma snapshot_records_split h h' records :
  histories_rebuilt h h' → snapshot_records h = Ok records →
  ∃ early receipts late terminals resolutions completions bindings,
    records = RHeader (metadata s) :: early ++ (RReceipt <$> receipts) ++ late ++ (RTerminal <$> terminals) ++
      (RTargetResolution <$> resolutions) ++ completions ++ (RBackupBinding <$> bindings) ∧
    h_rows (hs_receipts h) = Ok <$> receipts ∧ h_rows (hs_terminals h) = Ok <$> terminals ∧
    h_rows (hs_resolutions h) = Ok <$> resolutions ∧ h_rows (hs_bindings h) = Ok <$> bindings ∧
    adds s (no_contents s) (early_contents s) (opening s) (opened s) early ∧
    adds s (early_contents s) (late_contents s) (opened s) (closed s) late ∧
    adds s (late_contents s) (contents s) (closed s) (closed s) completions.
Proof.
  intros Hh Hr. unfold snapshot_records in Hr. apply bind_Ok in Hr as (first & Hf & Hr).
  apply bind_Ok in Hr as (? & (terminals & Ht & ->)%row_records_Ok & Hr).
  apply bind_Ok in Hr as (? & (resolutions & Hres & ->)%row_records_Ok & Hr).
  apply bind_Ok in Hr as (completions & Hc & Hr).
  apply bind_Ok in Hr as (? & (bindings & Hb & ->)%row_records_Ok & [= <-]).
  apply (assembled resolver s Hs) in Hf as (early & ? & late & -> & (receipts & Hrc & ->)%row_records_Ok & He & Hl).
  exists early, receipts, late, terminals, resolutions, completions, bindings.
  split; [by cbn; rewrite <-!app_assoc|]. split_and!; try done.
  apply (resident_of None s 23 _ _ eq_refl eq_refl) in Hc as ->.
  apply adds_good; [|by eapply completions_good|done].
  rewrite (completions_segment resolver s Hs); [|done|done]. f_equal. unfold late_contents, contents. cbn.
  by destruct (recovery_control s).
Qed.

Lemma rows_neutral {Row} (mk : Row → SnapshotRecord) rows n c :
  Forall (λ row, neutral (mk row)) rows → is_Some (ck_audit c) →
  try_fold check_step (n, c) (mk <$> rows) = Ok (n + len (mk <$> rows), c).
Proof. intros Hr Hc. apply neutral_fold; [by apply Forall_fmap|done]. Qed.

(** The checks of the visit accept the records of a state. *)
Lemma records_checked h h' records :
  histories_rebuilt h h' → snapshot_records h = Ok records →
  ∃ n, try_fold check_step (0, no_checks) records = Ok (n, closed s).
Proof.
  intros Hh Hr. destruct (snapshot_records_split h h' records Hh Hr)
    as (early & receipts & late & terminals & resolutions & completions & bindings & -> & _ & Ht & Hres & Hb &
        (_ & _ & He) & (_ & _ & Hl) & (_ & _ & Hc)).
  destruct (hr_terminals _ _ Hh _ Ht) as (_ & Hnt & _). destruct (hr_resolutions _ _ Hh _ Hres) as (_ & Hnr).
  destruct (hr_bindings _ _ Hh _ Hb) as (_ & Hnb).
  assert (Hhead : check_step (0, no_checks) (RHeader (metadata s)) = Ok (1, opening s)).
  { unfold check_step, visit_check. cbn [fst snd].
    change (audit_retention (metadata s)) with (audit_retention s).
    rewrite (proj2 (any_Ok _ _) (rs_retention _ _ Hs)), metadata_empty. done. }
  rewrite try_fold_cons, Hhead, bind_Ok_l, try_fold_app, He, bind_Ok_l, try_fold_app, rows_neutral, bind_Ok_l;
    [|apply Forall_true; intros row n c Hc'; cbn; by rewrite bool_decide_eq_true_2|done].
  rewrite try_fold_app, Hl, bind_Ok_l, try_fold_app, rows_neutral, bind_Ok_l by done.
  rewrite try_fold_app, rows_neutral, bind_Ok_l by done.
  rewrite try_fold_app, Hc, bind_Ok_l, rows_neutral by done. by eexists.
Qed.

Ltac push_step Hp := unfold read_record; rewrite st_bind_get; cbn; (erewrite st_bind_run by reflexivity);
  unfold push_history; cbn; rewrite Hp; done.

Lemma receipts_read st rows g o o' :
  rg_state g = Some st → rg_receipts g = o → pushed st rows o o' →
  read_all (RReceipt <$> rows) g = (set_rg_receipts o' g, Ok tt).
Proof.
  intros Hg Ho Hp. replace g with (set_rg_receipts o g) at 1 by (destruct g; cbn in *; by subst).
  apply (rows_read RReceipt set_rg_receipts st); [|done]. intros row b b' x _ Hb. destruct g; cbn in *; subst.
  push_step Hb.
Qed.

Lemma resolutions_read st rows g o o' :
  rg_state g = Some st → rg_resolutions g = o → pushed st rows o o' →
  read_all (RTargetResolution <$> rows) g = (set_rg_resolutions o' g, Ok tt).
Proof.
  intros Hg Ho Hp. replace g with (set_rg_resolutions o g) at 1 by (destruct g; cbn in *; by subst).
  apply (rows_read RTargetResolution set_rg_resolutions st); [|done]. intros row b b' x _ Hb. destruct g; cbn in *; subst.
  push_step Hb.
Qed.

Lemma bindings_read st rows g o o' :
  rg_state g = Some st → rg_bindings g = o → pushed st rows o o' →
  read_all (RBackupBinding <$> rows) g = (set_rg_bindings o' g, Ok tt).
Proof.
  intros Hg Ho Hp. replace g with (set_rg_bindings o g) at 1 by (destruct g; cbn in *; by subst).
  apply (rows_read RBackupBinding set_rg_bindings st); [|done]. intros row b b' x _ Hb. destruct g; cbn in *; subst.
  push_step Hb.
Qed.

Lemma terminals_read st rows g o o' :
  rg_state g = Some st → rg_terminals g = o → pushed st rows o o' →
  Forall (λ row, staged_transactions st !! tm_key row = None) rows →
  read_all (RTerminal <$> rows) g = (set_rg_terminals o' g, Ok tt).
Proof.
  intros Hg Ho Hp Hf. replace g with (set_rg_terminals o g) at 1 by (destruct g; cbn in *; by subst).
  apply (rows_read RTerminal set_rg_terminals st); [|done]. intros row b b' x Hin Hb.
  rewrite Forall_forall in Hf. specialize (Hf row Hin). destruct g; cbn in *; subst.
  unfold read_record. rewrite st_bind_get. cbn. erewrite st_bind_run by reflexivity.
  rewrite bool_decide_eq_true_2 by done. unfold push_history. cbn. rewrite Hb. done.
Qed.

(** The visitor of [read] puts the state together again. *)
Lemma records_read h h' records :
  histories_rebuilt h h' → snapshot_records h = Ok records →
  ∃ g, read_all records nothing_read = (g, Ok tt) ∧ rg_state g = Some s ∧
    ∀ m, finish_history (rg_bindings g) s m = Ok (hs_bindings h') ∧
      finish_history (rg_receipts g) s m = Ok (hs_receipts h') ∧
      finish_history (rg_terminals g) s m = Ok (hs_terminals h') ∧
      finish_history (rg_resolutions g) s m = Ok (hs_resolutions h').
Proof.
  intros Hh Hr. destruct (snapshot_records_split h h' records Hh Hr)
    as (early & receipts & late & terminals & resolutions & completions & bindings & -> & Hrc & Ht & Hres & Hb &
        (He & Her & _) & (Hl & Hlr & _) & (Hc & Hcr & _)).
  destruct (hr_receipts _ _ Hh _ Hrc) as (o2 & o2' & Ho2 & Hp2 & Hf2).
  destruct (hr_terminals _ _ Hh _ Ht) as ((o4 & o4' & Ho4 & Hp4 & Hf4) & _ & Hst).
  destruct (hr_resolutions _ _ Hh _ Hres) as ((o3 & o3' & Ho3 & Hp3 & Hf3) & _).
  destruct (hr_bindings _ _ Hh _ Hb) as ((o1 & o1' & Ho1 & Hp1 & Hf1) & _).
  exists {| rg_state := Some s; rg_receipts := o2'; rg_bindings := o1'; rg_terminals := o4'; rg_resolutions := o3' |}.
  split; [|by split]. unfold read_all at 1. rewrite st_fold_cons.
  erewrite st_bind_run by (by apply header_read). fold (read_all (early ++ (RReceipt <$> receipts) ++ late ++
    (RTerminal <$> terminals) ++ (RTargetResolution <$> resolutions) ++ completions ++ (RBackupBinding <$> bindings))).
  erewrite read_all_app by (by eapply (resident_read (no_contents s))).
  erewrite read_all_app by (by eapply receipts_read).
  erewrite read_all_app by (by eapply (resident_read (early_contents s))).
  erewrite read_all_app by (by eapply terminals_read).
  erewrite read_all_app by (by eapply resolutions_read).
  erewrite read_all_app by (by eapply (resident_read (late_contents s))).
  erewrite bindings_read; [|cbn; by rewrite state_of_contents|done|exact Hp1].
  cbn. by rewrite state_of_contents.
Qed.
End reading.

(** ** Restoring *)

Section claims.
Context (site_bytes : N).
Context `{Sha256} `{Sha256Bytes} `{!Sha256Width} `{UuidParse} `{RecordRules} `{FromSlice SnapshotRecord}
  `{DocumentTables}.
Context `{HR : History ReceiptRow} `{HT : History TerminalRow} `{HS : History ResolutionRow}
  `{HB : History BindingRow}.

(** C19. A snapshot restores the tenant exactly: whenever the snapshot of a
    published state is written, reading the stream succeeds and returns that
    state, every collection, document slot, archive reference, staged chunk,
    change record, audit event, control and recovery record included, together
    with the histories its rows rebuild. *)
Theorem snapshot_restores_state resolver s h h' stream :
  restorable resolver s → histories_rebuilt s h h' →
  (∀ records, snapshot_records resolver s h = Ok records →
     Forall readable records ∧ Forall (measurable site_bytes) records) →
  str_len stream ≤ u64_max → write_with_resolver resolver s h = Ok stream →
  ∃ summary, read site_bytes stream = Ok {| de_state := s; de_summary := summary; de_histories := h' |}.
Proof.
  intros Hs Hh Hread Hlen Hw. unfold write_with_resolver in Hw. do 5 apply seq_Ok in Hw as [_ Hw].
  destruct (encode_state resolver s h new_encoder) as [e [[]|err]] eqn:He; [|done]. injection Hw as Hw.
  apply encode_state_Ok in He as (records & Hrec & He).
  assert (Henc : encode records = Ok stream) by (unfold encode; by rewrite He, Hw). destruct (Hread records Hrec) as [Hr Hm].
  destruct (records_checked resolver s Hs h h' records Hh Hrec) as (n & Hck).
  destruct (records_read resolver s Hs h h' records Hh Hrec) as (g & Hall & Hg & Hfin).
  destruct (visit_encode site_bytes records stream n (closed s) Henc) as (out & summary & Hv & Hout); try done.
  { apply Forall_true, record_nonempty. }
  { intros ->. destruct (snapshot_records_split resolver s Hs h h' _ Hh Hrec)
      as (? & ? & ? & ? & ? & ? & ? & Hnil & _). done. }
  exists summary. unfold read.
  rewrite (visit_with site_bytes stream out summary _ read_record nothing_read g Hv)
    by (by rewrite read_positions, Hout).
  rewrite Hg, context_or_Some, bind_Ok_l.
  rewrite (proj1 (Hfin _)), bind_Ok_l, (proj1 (proj2 (Hfin _))), bind_Ok_l.
  rewrite (proj1 (proj2 (proj2 (Hfin _)))), bind_Ok_l, (proj2 (proj2 (proj2 (Hfin _)))), bind_Ok_l.
  by destruct h'.
Qed.
End claims.

(** ** A sample snapshot *)

Module RestoreSample.
#[export] Instance sha : Sha256 := Sample.sha.
#[export] Instance sha_bytes : Sha256Bytes := SnapshotSample.sha_bytes.
#[export] Instance sha_width : Sha256Width := SnapshotSample.sha_width.
#[export] Instance parse : UuidParse := Sample.parse.
#[export] Instance rules : RecordRules := SnapshotSample.rules.

Definition document : Document :=
  {| d_id := "a"; d_version := 3; body := VObject [("n", VNumber "1")] |}.
Definition descriptor : StoredDocument :=
  {| s_id := "a"; s_version := 3; s_body_bytes := 7; s_document_bytes := 37;
     body_sha256 := Sample.zeros 64; body_object := ""; body_object_bytes := 9; body_decode_work := 10;
     body_manifest_work := 10 |}.
Definition resolver : option (StoredDocument → result string Document) := Some (λ _, Ok document).
#[export] Instance tables : DocumentTables :=
  {| document_scope := λ _ _, Ok tt; push_document := λ _, Ok descriptor |}.

(** A tenant with a stored document, its change record and an audit event. *)
Definition collection : CollectionState :=
  {| definition := ApplySample.definition "docs" Mutable; data_epoch := 3;
     documents := {["a" := Stored descriptor]}; archived_documents := ∅; archived_document_bytes := 0 |}.
Definition commit : ChangeCommit :=
  {| cc_revision := 3; first_sequence := 1;
     records := [{| cr_collection := "docs"; cr_id := "a"; cr_document := Some (Stored descriptor) |}];
     record_bytes := 80 |}.
Definition retention : AuditRetentionState :=
  {| stream_id := 5; au_next_sequence := 1; pruned_before := 0; hot_bytes := 100; archive_bytes := 0;
     archive_segments := 0; draining := false; archive_head := None |}.
Definition state : TenantState :=
  set_audit_retention retention (set_audits [Sample.event]
    (set_change_feed {| next_sequence := 2; commits := {[1 := commit]}; event_count := 1;
                        encoded_commit_bytes := 90 |}
      (set_collections {["docs" := collection]} Sample.state))).

(** The histories of this state are empty. *)
#[export] Instance receipts : History ReceiptRow :=
  @receipt_history sha (λ _, Err (AnyMessage "")) (λ _, Err (AnyMessage "")) ∅.
Definition no_rows (Row : Type) : History Row :=
  {| HView := unit; HBuilder := unit; h_check := λ _ _, Ok tt; h_rows := λ _, []; h_count := λ _, 0;
     h_new := λ _, Ok tt; h_push := λ _ _, mret tt; h_finish := λ _ _, Ok tt; h_empty := λ _, Ok tt;
     h_selects := λ _ _, true |}.
#[export] Instance terminals : History TerminalRow := no_rows TerminalRow.
#[export] Instance resolutions : History ResolutionRow := no_rows ResolutionRow.
#[export] Instance bindings : History BindingRow := no_rows BindingRow.
Definition histories : Histories :=
  {| hs_receipts := {| v_source := None; v_head := mutation_receipt_head state |}; hs_bindings := tt;
     hs_terminals := tt; hs_resolutions := tt |}.

Definition snapshot : list SnapshotRecord := Eval vm_compute in
  match snapshot_records resolver state histories with Ok l => l | Err _ => [] end.

(** The deserializer, on the encodings of these records. *)
#[export] Instance from_json : FromSlice SnapshotRecord := λ bytes,
  ok_or (find (λ r, bool_decide (bytes = to_json r)) snapshot) (AnyMessage "unknown record").

Definition stream : string := Eval vm_compute in
  match write_with_resolver resolver state histories with Ok x => x | Err _ => "" end.
End RestoreSample.

#[local] Existing Instances RestoreSample.sha RestoreSample.sha_bytes RestoreSample.sha_width
  RestoreSample.parse RestoreSample.rules RestoreSample.tables RestoreSample.receipts
  RestoreSample.terminals RestoreSample.resolutions RestoreSample.bindings RestoreSample.from_json.

Lemma sample_restorable : restorable RestoreSample.resolver RestoreSample.state.
Proof.
  assert (Hk : kept RestoreSample.resolver (Stored RestoreSample.descriptor)) by (by exists RestoreSample.descriptor).
  split; [vm_compute; done|done|vm_compute; done|done|done|done|done|..].
  - intros k c id slot Hc Hd.
    change (({["docs" := RestoreSample.collection]} : gmap string CollectionState) !! k = Some c) in Hc.
    apply lookup_singleton_Some in Hc as [<- <-].
    change (({["a" := Stored RestoreSample.descriptor]} : gmap string DocumentSlot) !! id = Some slot) in Hd.
    by apply lookup_singleton_Some in Hd as [<- <-].
  - intros i c r slot Hc Hr Hslot. change (({[1 := RestoreSample.commit]} : gmap N ChangeCommit) !! i = Some c) in Hc.
    apply lookup_singleton_Some in Hc as [<- <-]. apply list_elem_of_singleton in Hr as ->.
    by injection Hslot as <-.
  - intros k t Ht. change ((∅ : gmap string StagedTransaction) !! k = Some t) in Ht. by rewrite lookup_empty in Ht.
  - intros k t Ht. change ((∅ : gmap string RecoveryRecord) !! k = Some t) in Ht. by rewrite lookup_empty in Ht.
  - intros k t Ht. change ((∅ : gmap string RecoveryPhaseRecord) !! k = Some t) in Ht. by rewrite lookup_empty in Ht.
  - intros k t Ht. change ((∅ : gmap string Uuid) !! k = Some t) in Ht. by rewrite lookup_empty in Ht.
  - intros k t Ht. change ((∅ : gmap string RecoveryCompletionHistory) !! k = Some t) in Ht. by rewrite lookup_empty in Ht.
Qed.

Lemma sample_rebuilt : histories_rebuilt RestoreSample.state RestoreSample.histories RestoreSample.histories.
Proof.
  split; intros [|row rows] Hrows; try done.
  - exists None, None. split_and!; try done.
  - split_and!; try done. by exists None, None.
  - split_and!; try done. by exists None, None.
  - split_and!; try done. by exists None, None.
Qed.

Lemma sample_readable records :
  snapshot_records RestoreSample.resolver RestoreSample.state RestoreSample.histories = Ok records →
  Forall readable records ∧ Forall (measurable 96) records.
Proof.
  intros Hr. assert (Hs : snapshot_records RestoreSample.resolver RestoreSample.state RestoreSample.histories =
    Ok RestoreSample.snapshot) by (vm_compute; reflexivity).
  rewrite Hs in Hr. injection Hr as <-. split.
  - repeat (apply Forall_cons; split; [unfold readable; vm_compute; reflexivity|]). done.
  - repeat (apply Forall_cons; split; [eexists; vm_compute; reflexivity|]). done.
Qed.

#[local] Opaque read write_with_resolver.

Lemma snapshot_restores_state_witness :
  write_with_resolver RestoreSample.resolver RestoreSample.state RestoreSample.histories = Ok RestoreSample.stream ∧
  ∃ summary, read 96 RestoreSample.stream =
    Ok {| de_state := RestoreSample.state; de_summary := summary; de_histories := RestoreSample.histories |}.
Proof.
  assert (Hw : write_with_resolver RestoreSample.resolver RestoreSample.state RestoreSample.histories =
    Ok RestoreSample.stream) by (vm_compute; reflexivity).
  assert (Hlen : str_len RestoreSample.stream ≤ u64_max) by (vm_compute; discriminate).
  split; [exact Hw|].
  exact (snapshot_restores_state 96 RestoreSample.resolver RestoreSample.state RestoreSample.histories
           RestoreSample.histories RestoreSample.stream sample_restorable sample_rebuilt sample_readable Hlen Hw).
Defined.
