(* ===== verification/Accounting.v ===== *)
(** * Snapshot byte accounting

    Models src/crates/kasumi-engine/src/accounting.rs: the sizes of snapshot
    records, the accounting that is carried from one published state to the next
    ([SnapshotAccounting], [SharedAccounting]), the bytes of a snapshot and the
    capacity a state must leave free.

    Pointer comparisons of shared parts are the interface [Sharing]: equal
    pointers mean equal values, different pointers mean nothing. The projected
    record of a completed control change, built from signed documents, is the
    interface [CompletedMetadata]. *)

From S2P Require Import Prelude Json Types Digest State Apply ChangeFeed Staging Ledger Meter.
From S2P Require Import Wire Receipts Snapshot Restore.

(** ** Interfaces *)

(** [Arc::ptr_eq] and [OrdMap::ptr_eq] on parts of two states. *)
Class Sharing := {
  ptr_policy : TenantState → TenantState → bool;
  ptr_lineage : TenantState → TenantState → bool;
  ptr_control : TenantState → TenantState → bool;
  ptr_definition : CollectionState → CollectionState → bool;
  ptr_commits : TenantState → TenantState → bool;
  ptr_archives : TenantState → TenantState → bool;
  ptr_activations : TenantState → TenantState → bool;
  ptr_retirements : TenantState → TenantState → bool;
}.

Class SharingLaws `{Sharing} := {
  ptr_policy_eq s t : ptr_policy s t = true → policy s = policy t;
  ptr_lineage_eq s t : ptr_lineage s t = true → restore_lineage s = restore_lineage t;
  ptr_control_eq s t : ptr_control s t = true → lifecycle_control s = lifecycle_control t;
  ptr_definition_eq c d : ptr_definition c d = true → definition c = definition d;
  ptr_commits_eq s t : ptr_commits s t = true → commits (change_feed s) = commits (change_feed t);
  ptr_archives_eq s t : ptr_archives s t = true → history_archives s = history_archives t;
  ptr_activations_eq s t : ptr_activations s t = true → schema_activations s = schema_activations t;
  ptr_retirements_eq s t : ptr_retirements s t = true → retirements s = retirements t;
}.

(** [lifecycle::completed_metadata]. *)
Class CompletedMetadata :=
  completed_metadata : LifecycleControlState → Uuid → Result (Policy * LifecycleControlState).

(** ** Sizes of records *)

(** [change]. *)
Definition change (total old new : N) : Result N :=
  ok_or (checked_sub total old ≫= λ n, checked_add n new)
    (new_error Corruption "snapshot accounting mismatch").

(** [record]. *)
Definition record_size (r : SnapshotRecord) : Result N :=
  n ← (if record_pending r then encoded_len r else fail InvalidArgument "JSON encoding failed");
  framed_record_bytes n.

(** A loop that adds the size of every item. *)
Definition add_sizes {A} (size : A → Result N) (total : N) (l : list A) : Result N :=
  try_fold (λ t a, n ← size a; change t 0 n) total l.

(** [lineage_bytes], [control_record_bytes], [collection_header_bytes]. *)
Definition lineage_bytes (links : list RestoreLineageLink) : Result N :=
  add_sizes (λ il, record_size (RLineage (N.of_nat il.1) il.2)) 0 (imap pair links).

Definition control_record_bytes (c : LifecycleControlState) : Result N :=
  total ← add_sizes (λ kv, record_size (RIntent kv.1 kv.2)) 0 (map_iter (intents c));
  add_sizes (λ kv, record_size (RControlChange kv.1 kv.2)) total (map_iter (control_changes c)).

Definition collection_header_bytes (name : string) (c : CollectionState) : Result N :=
  record_size (RCollection name (collection_header c)).

Section sizes.
Context `{Sha256}.

(** [document_record]. *)
Definition document_record (name : string) (slot : DocumentSlot) : Result N :=
  base ← encoded_len (tagged "Document" (VArray [VString name; VNull]));
  n ← map_err (λ _, new_error Corruption "document length invalid") (slot_document_bytes slot);
  bytes ← framing_with_document base n;
  framed_record_bytes bytes.

(** [feed]. *)
Definition feed_item (key : N) (ir : nat * ChangeRecord) : Result N :=
  let r := ir.2 in
  bytes ← record_size (RChangeItem key (N.of_nat ir.1)
    {| w_collection := cr_collection r; w_id := cr_id r; w_document := None |});
  match cr_document r with
  | None => Ok bytes
  | Some slot =>
      n ← map_err (λ _, new_error Corruption "document length invalid") (slot_document_bytes slot);
      framing_with_document bytes n
  end.

Definition feed_size (key : N) (c : ChangeCommit) : Result N :=
  size ← record_size (RChange key (clear_records c));
  add_sizes (feed_item key) size (imap pair (records c)).
End sizes.

(** [stage]. *)
Definition stage_size (key : string) (t : StagedTransaction) : Result N :=
  size ← staged_header key t;
  add_sizes (λ ic, record_size (RStageChunk key ic.1 ic.2)) size (map_iter (chunks t)).

Definition audit_size (first : N) (ie : nat * AuditEvent) : Result N :=
  sequence ← ok_or (checked_add first (N.of_nat ie.1)) (new_error Corruption "audit sequence overflow");
  record_size (RAudit sequence ie.2).

(** [optional]. *)
Definition optional {A} (o : option A) (size : A → Result N) : Result N :=
  match o with Some a => size a | None => Ok 0 end.

(** [OrdMap::diff]: the entries that differ, in key order. *)
Inductive DiffItem (K V : Type) :=
| DiffAdd (k : K) (v : V)
| DiffRemove (k : K) (v : V)
| DiffUpdate (k : K) (old new : V).
Arguments DiffAdd {K V}.
Arguments DiffRemove {K V}.
Arguments DiffUpdate {K V}.

Definition diff_at {K V} `{OrdKey K, EqDecision V} (previous next : gmap K V) (k : K) : option (DiffItem K V) :=
  match previous !! k, next !! k with
  | None, Some v => Some (DiffAdd k v)
  | Some v, None => Some (DiffRemove k v)
  | Some o, Some n => if bool_decide (o = n) then None else Some (DiffUpdate k o n)
  | None, None => None
  end.

Definition map_diff {K V} `{OrdKey K, EqDecision V} (previous next : gmap K V) : list (DiffItem K V) :=
  omap (diff_at previous next) (set_iter (dom previous ∪ dom next)).

(** [map_changes]. *)
Definition diff_step {V} (size : string → V → Result N) (total : N) (d : DiffItem string V) : Result N :=
  match d with
  | DiffAdd k v => n ← size k v; change total 0 n
  | DiffRemove k v => o ← size k v; change total o 0
  | DiffUpdate k old new => o ← size k old; n ← size k new; change total o n
  end.

Definition map_changes {V} `{EqDecision V} (total : N) (previous next : gmap string V)
    (size : string → V → Result N) : Result N :=
  try_fold (diff_step size) total (map_diff previous next).

#[export] Instance RecoveryRecord_eq_dec : EqDecision RecoveryRecord.
Proof. solve_decision. Defined.
#[export] Instance RecoveryPhaseRecord_eq_dec : EqDecision RecoveryPhaseRecord.
Proof. solve_decision. Defined.
#[export] Instance RecoveryCompletionHistory_eq_dec : EqDecision RecoveryCompletionHistory.
Proof. solve_decision. Defined.

(** ** Shared parts *)

(** [u64::ilog10], by division. *)
Fixpoint ilog10_go (fuel : nat) (n : N) : N :=
  match fuel with
  | O => 0
  | S fuel' => if n <? 10 then 0 else 1 + ilog10_go fuel' (n / 10)
  end.
Definition ilog10 (n : N) : N := ilog10_go 20 n.

(** The decimal digits of the two counters of a collection header. *)
Definition counters (c : CollectionState) : N :=
  ilog10 (data_epoch c `max` 1) + ilog10 (archived_document_bytes c `max` 1) + 2.

Record CompletionSizes := {
  cs_policy : N;
  cs_control_header : N;
  cs_control_records : N;
  cs_control : N;
}.

Record SharedAccounting := {
  sh_policy : N;
  sh_lineage : N;
  sh_control_header : option N;
  sh_control_records : N;
  sh_collections : N;
  sh_completion : option CompletionSizes;
}.

(** The sizes [SharedAccounting::control] assigns. *)
Record ControlSizes := {
  co_header : option N;
  co_records : N;
  co_completion : option CompletionSizes;
}.

Section shared.
Context `{CompletedMetadata} `{Sharing}.

Definition completion_sizes (c : LifecycleControlState) (id : Uuid) : Result CompletionSizes :=
  pc ← completed_metadata c id;
  p ← encoded_len pc.1;
  header ← encoded_len (control_header pc.2);
  recs ← control_record_bytes pc.2;
  all ← encoded_len pc.2;
  Ok {| cs_policy := p; cs_control_header := header; cs_control_records := recs; cs_control := all |}.

(** [SharedAccounting::control]. *)
Definition control_sizes (control : option LifecycleControlState) : Result ControlSizes :=
  match control with
  | None => Ok {| co_header := None; co_records := 0; co_completion := None |}
  | Some c =>
      header ← encoded_len (control_header c);
      recs ← control_record_bytes c;
      match pending_change c with
      | None => Ok {| co_header := Some header; co_records := recs; co_completion := None |}
      | Some id =>
          completion ← completion_sizes c id;
          Ok {| co_header := Some header; co_records := recs; co_completion := Some completion |}
      end
  end.

Definition set_control (x : ControlSizes) (a : SharedAccounting) : SharedAccounting :=
  {| sh_policy := sh_policy a; sh_lineage := sh_lineage a; sh_control_header := co_header x;
     sh_control_records := co_records x; sh_collections := sh_collections a;
     sh_completion := co_completion x |}.

(** [SharedAccounting::rebuild]. *)
Definition rebuild_shared (s : TenantState) : Result SharedAccounting :=
  p ← encoded_len (policy s);
  lineage ← lineage_bytes (restore_lineage s);
  control ← control_sizes (lifecycle_control s);
  cs ← add_sizes (λ nc, collection_header_bytes nc.1 nc.2) 0 (map_iter (collections s));
  Ok (set_control control
        {| sh_policy := p; sh_lineage := lineage; sh_control_header := None; sh_control_records := 0;
           sh_collections := cs; sh_completion := None |}).

(** The loops of [SharedAccounting::updated] over the collections. *)
Definition update_collection (next : TenantState) (total : N) (nc : string * CollectionState) : Result N :=
  let '(name, old) := nc in
  match collections next !! name with
  | Some new =>
      if ptr_definition old new then
        let before := counters old in
        let after := counters new in
        (if before <? after then collection_header_bytes name new;; Ok tt else Ok tt);;
        change total before after
      else
        o ← collection_header_bytes name old;
        n ← collection_header_bytes name new;
        change total o n
  | None =>
      o ← collection_header_bytes name old;
      change total o 0
  end.

Definition add_collection (previous : TenantState) (total : N) (nc : string * CollectionState) : Result N :=
  let '(name, new) := nc in
  match collections previous !! name with
  | None =>
      n ← collection_header_bytes name new;
      change total 0 n
  | Some _ => Ok total
  end.

(** [SharedAccounting::updated]. *)
Definition update_shared (a : SharedAccounting) (previous next : TenantState) : Result SharedAccounting :=
  p ← (if ptr_policy previous next then Ok (sh_policy a) else encoded_len (policy next));
  lineage ← (if ptr_lineage previous next then Ok (sh_lineage a) else lineage_bytes (restore_lineage next));
  control ← (let same := match lifecycle_control previous, lifecycle_control next with
                         | Some _, Some _ => ptr_control previous next
                         | None, None => true
                         | _, _ => false
                         end in
             if same then Ok {| co_header := sh_control_header a; co_records := sh_control_records a;
                                co_completion := sh_completion a |}
             else control_sizes (lifecycle_control next));
  cs ← try_fold (update_collection next) (sh_collections a) (map_iter (collections previous));
  cs ← try_fold (add_collection previous) cs (map_iter (collections next));
  Ok (set_control control
        {| sh_policy := p; sh_lineage := lineage; sh_control_header := None; sh_control_records := 0;
           sh_collections := cs; sh_completion := None |}).
End shared.

(** ** The accounting of a state *)

Record SnapshotAccounting := {
  sa_shared : option SharedAccounting;
  sa_documents : N;
  sa_archived : N;
  sa_audits : N;
  sa_staged : N;
  sa_feed : N;
  sa_archives : N;
  sa_activations : N;
  sa_retirements : N;
  sa_operations : N;
  sa_phases : N;
  sa_targets : N;
  sa_completions : N;
}.

Section accounting.
Context `{Sha256} `{CompletedMetadata} `{Sharing}.

Definition recovery_operation (k : string) (v : RecoveryRecord) : Result N := record_size (RRecoveryOperation k v).
Definition recovery_phase (k : string) (v : RecoveryPhaseRecord) : Result N := record_size (RRecoveryPhase k v).
Definition recovery_target (k : string) (v : Uuid) : Result N := record_size (RRecoveryTarget k v).
Definition recovery_completion_history (k : string) (v : RecoveryCompletionHistory) : Result N :=
  record_size (RRecoveryCompletionHistory k v).

(** The documents and archive references of a collection. *)
Definition rebuild_collection (da : N * N) (nc : string * CollectionState) : Result (N * N) :=
  d ← add_sizes (document_record nc.1) da.1 (map_values (documents nc.2));
  a ← add_sizes (λ ir, record_size (RArchived nc.1 ir.1 ir.2)) da.2 (map_iter (archived_documents nc.2));
  Ok (d, a).

(** [SnapshotAccounting::other]: archives, activations and retirements. *)
Definition other (s : TenantState) : Result (N * N * N) :=
  a ← add_sizes (λ kv, record_size (RArchive kv.1 kv.2)) 0 (map_iter (history_archives s));
  v ← add_sizes (λ kv, record_size (RActivation kv.1 kv.2)) 0 (map_iter (schema_activations s));
  r ← add_sizes (λ kv, record_size (RRetirement kv.1 kv.2)) 0 (map_iter (retirements s));
  Ok (a, v, r).

(** [SnapshotAccounting::rebuild]. *)
Definition rebuild (s : TenantState) : Result SnapshotAccounting :=
  da ← try_fold rebuild_collection (0, 0) (map_iter (collections s));
  au ← add_sizes (audit_size (pruned_before (audit_retention s))) 0 (imap pair (audits s));
  st ← add_sizes (λ kt, stage_size kt.1 kt.2) 0 (map_iter (staged_transactions s));
  fd ← add_sizes (λ ic, feed_size ic.1 ic.2) 0 (map_iter (commits (change_feed s)));
  o ← other s;
  sh ← rebuild_shared s;
  ops ← map_changes 0 ∅ (rc_operations (recovery_control s)) recovery_operation;
  phs ← map_changes 0 ∅ (rc_phases (recovery_control s)) recovery_phase;
  chs ← map_changes 0 ∅ (rc_completion_history (recovery_control s)) recovery_completion_history;
  tgs ← map_changes 0 ∅ (rc_targets (recovery_control s)) recovery_target;
  Ok {| sa_shared := Some sh; sa_documents := da.1; sa_archived := da.2; sa_audits := au; sa_staged := st;
        sa_feed := fd; sa_archives := o.1.1; sa_activations := o.1.2; sa_retirements := o.2;
        sa_operations := ops; sa_phases := phs; sa_targets := tgs; sa_completions := chs |}.

(** The loops of [SnapshotAccounting::updated]. *)
Definition update_document (name : string) (old new : CollectionState) (da : N * N) (id : string) : Result (N * N) :=
  o ← optional (documents old !! id) (document_record name);
  n ← optional (documents new !! id) (document_record name);
  d ← change da.1 o n;
  o ← optional (archived_documents old !! id) (λ x, record_size (RArchived name id x));
  n ← optional (archived_documents new !! id) (λ x, record_size (RArchived name id x));
  a ← change da.2 o n;
  Ok (d, a).

Definition update_documents (previous next : TenantState) (da : N * N) (ni : string * gset string) :
    Result (N * N) :=
  old ← ok_or (collections previous !! ni.1) (new_error Corruption "previous collection missing");
  new ← ok_or (collections next !! ni.1) (new_error Corruption "next collection missing");
  try_fold (update_document ni.1 old new) da (set_iter ni.2).

Definition update_stage (previous next : TenantState) (total : N) (key : string) : Result N :=
  o ← optional (staged_transactions previous !! key) (stage_size key);
  n ← optional (staged_transactions next !! key) (stage_size key);
  change total o n.

Definition update_audits (previous next : TenantState) (total : N) : Result N :=
  let before := audit_retention previous in
  let after := audit_retention next in
  if negb (stream_id before =? stream_id after) || (pruned_before after <? pruned_before before) ||
     (au_next_sequence before <? pruned_before after) ||
     (au_next_sequence after <? au_next_sequence before) ||
     negb (bool_decide (checked_sub (au_next_sequence after) (pruned_before after) = Some (len (audits next))))
  then fail Corruption "audit accounting transition differs"
  else
    let removed := N.to_nat (pruned_before after - pruned_before before) in
    total ← try_fold (λ t ie, o ← audit_size (pruned_before before) ie; change t o 0) total
              (imap pair (take removed (audits previous)));
    let retained := N.to_nat (au_next_sequence before - pruned_before after) in
    add_sizes (audit_size (pruned_before after)) total (drop retained (imap pair (audits next))).

Fixpoint take_while {A} (p : A → bool) (l : list A) : list A :=
  match l with
  | [] => []
  | x :: l' => if p x then x :: take_while p l' else []
  end.

Definition update_feed (previous next : TenantState) (total : N) : Result N :=
  if ptr_commits previous next then Ok total
  else
    let old := map_iter (commits (change_feed previous)) in
    let new := map_iter (commits (change_feed next)) in
    total ← try_fold (λ t ic, o ← feed_size ic.1 ic.2; change t o 0) total
              (take_while (λ ic, match head new with Some (first, _) => ic.1 <? first | None => true end) old);
    add_sizes (λ ic, feed_size ic.1 ic.2) total
      (take_while (λ ic, match last old with Some (last, _) => last <? ic.1 | None => true end) (reverse new)).

(** [SnapshotAccounting::updated]. *)
Definition updated (x : SnapshotAccounting) (previous next : TenantState)
    (changed_documents : gmap string (gset string)) (changed_stages : gset string) :
    Result SnapshotAccounting :=
  sh ← match sa_shared x with
       | Some shared => update_shared shared previous next
       | None => rebuild_shared next
       end;
  da ← try_fold (update_documents previous next) (sa_documents x, sa_archived x) (map_iter changed_documents);
  st ← try_fold (update_stage previous next) (sa_staged x) (set_iter changed_stages);
  au ← update_audits previous next (sa_audits x);
  fd ← update_feed previous next (sa_feed x);
  o ← (if ptr_archives previous next && ptr_activations previous next && ptr_retirements previous next
       then Ok (sa_archives x, sa_activations x, sa_retirements x)
       else other next);
  ops ← map_changes (sa_operations x) (rc_operations (recovery_control previous))
          (rc_operations (recovery_control next)) recovery_operation;
  phs ← map_changes (sa_phases x) (rc_phases (recovery_control previous))
          (rc_phases (recovery_control next)) recovery_phase;
  chs ← map_changes (sa_completions x) (rc_completion_history (recovery_control previous))
          (rc_completion_history (recovery_control next)) recovery_completion_history;
  tgs ← map_changes (sa_targets x) (rc_targets (recovery_control previous))
          (rc_targets (recovery_control next)) recovery_target;
  Ok {| sa_shared := Some sh; sa_documents := da.1; sa_archived := da.2; sa_audits := au; sa_staged := st;
        sa_feed := fd; sa_archives := o.1.1; sa_activations := o.1.2; sa_retirements := o.2;
        sa_operations := ops; sa_phases := phs; sa_targets := tgs; sa_completions := chs |}.

(** ** The bytes of a snapshot and its capacity *)

Definition default_policy : Policy := {| grants := []; p_strict_read_audit := false |}.

(** [SnapshotAccounting::bytes]. *)
Definition header_bytes (shared : SharedAccounting) (s : TenantState) : Result N :=
  header ← encoded_len (RHeader (metadata_with_shared s default_policy None));
  empty ← encoded_len default_policy;
  header ← change header empty (sh_policy shared);
  header ← match sh_control_header shared with Some c => change header 4 c | None => Ok header end;
  framed_record_bytes header.

Definition bytes (x : SnapshotAccounting) (s : TenantState) : Result N :=
  total ← change 64 0 (th_encoded_bytes (staged_terminal_head s));
  shared ← match sa_shared x with Some shared => Ok shared | None => rebuild_shared s end;
  header ← header_bytes shared s;
  total ← change total 0 header;
  total ← change total 0 (sh_lineage shared);
  total ← change total 0 (sh_collections shared);
  total ← add_sizes (λ key, record_size (RActiveStage key)) total (set_iter (active_staged_transactions s));
  total ← change total 0 (sh_control_records shared);
  total ← add_sizes (λ kt, record_size (RTarget kt.1 kt.2)) total (map_iter (target_lifecycle s));
  add_sizes Ok total
    [sa_documents x; sa_archived x; sa_audits x; sa_staged x; sa_feed x; sa_archives x; sa_activations x;
     sa_retirements x; sa_operations x; sa_phases x; sa_targets x; sa_completions x].

(** [to_string().len()] of an integer. *)
Definition digits (n : N) : N := str_len (pretty n).

(** [staged_headroom], [target_completion_reserve], [snapshot_headroom]. *)
Definition staged_headroom (s : TenantState) : Result N :=
  let d := if reserved_staged_terminal_bytes s =? 0 then 0
           else 80 - digits (permanent_staged_bytes s) - digits (reserved_staged_terminal_bytes s)
                - digits (th_count (staged_terminal_head s)) - digits (th_encoded_bytes (staged_terminal_head s)) in
  ok_or (checked_add (reserved_staged_terminal_bytes s) d)
    (new_error Corruption "staged snapshot headroom overflow").

Definition MAX_TARGET_COMPLETION_RECORD_BYTES : N := N.shiftl 256 10.

Definition target_completion_reserve (s : TenantState) : N :=
  match target_completion_head s with
  | Some {| active := Some _ |} =>
      match target_lifecycle s !! incarnation s with
      | Some {| te_completion := None |} => MAX_TARGET_COMPLETION_RECORD_BYTES
      | _ => 0
      end
  | _ => 0
  end.

Definition snapshot_headroom (s : TenantState) : Result N :=
  staged ← staged_headroom s;
  ok_or (checked_add staged (target_audit_reserve s) ≫= λ n,
         checked_add n (target_completion_reserve s) ≫= λ n,
         checked_add n (match target_completion_head s with Some _ => N.shiftl 64 10 | None => 0 end))
    (new_error Corruption "target completion workspace overflow").

(** [fits_bytes], [fits]. *)
Definition fits_bytes (s : TenantState) (n : N) : Result bool :=
  headroom ← snapshot_headroom s;
  Ok match checked_add n (20 - digits (revision s)) ≫= λ n, checked_add n headroom with
     | Some n => n <=? max_snapshot_bytes (limits s)
     | None => false
     end.

Definition fits (x : SnapshotAccounting) (s : TenantState) : Result bool :=
  n ← bytes x s;
  fits_bytes s n.

(** [fits_completion]; [projection] is absent only in states that have no
    pending control change, for which [completion_fits] does not call it. *)
Definition set_shared (sh : SharedAccounting) (x : SnapshotAccounting) : SnapshotAccounting :=
  {| sa_shared := Some sh; sa_documents := sa_documents x; sa_archived := sa_archived x;
     sa_audits := sa_audits x; sa_staged := sa_staged x; sa_feed := sa_feed x; sa_archives := sa_archives x;
     sa_activations := sa_activations x; sa_retirements := sa_retirements x;
     sa_operations := sa_operations x; sa_phases := sa_phases x; sa_targets := sa_targets x;
     sa_completions := sa_completions x |}.

Definition projected (projection : CompletionSizes) (sh : SharedAccounting) : SharedAccounting :=
  {| sh_policy := cs_policy projection; sh_lineage := sh_lineage sh;
     sh_control_header := Some (cs_control_header projection);
     sh_control_records := cs_control_records projection; sh_collections := sh_collections sh;
     sh_completion := sh_completion sh |}.

Definition fits_completion (x : SnapshotAccounting) (s : TenantState) (control : LifecycleControlState)
    (completed : TenantState) : Result bool :=
  shared ← match sa_shared x with Some shared => Ok shared | None => rebuild_shared s end;
  projection ← ok_or (sh_completion shared) (new_error Corruption "pending completion accounting absent");
  if max_state_bytes (installation control) <? cs_control projection then Ok false
  else
    a ← updated x s completed ∅ ∅;
    match sa_shared a with
    | Some sh => fits (set_shared (projected projection sh) a) completed
    | None => Ok false
    end.

(** [lifecycle::completion_fits]: the widest administrative record. *)
Fixpoint repeat_string (n : nat) (s : string) : string :=
  match n with O => "" | S n' => s +:+ repeat_string n' s end.

Definition quote_char : string := String "034" "".
Definition null_char : string := String "000" "".

Definition completion_event (s : TenantState) : AuditEvent :=
  {| event_id := incarnation s +:+ ":" +:+ pretty u64_max; e_principal := repeat_string 256 quote_char;
     e_action := "lifecycle_control"; e_request_id := repeat_string (N.to_nat MAX_REQUEST_ID_BYTES) null_char;
     e_timestamp_ms := u64_max; data_revision := Some u64_max; e_outcome := "committed";
     e_collection := None |}.

Definition completion_fits (s : TenantState) (x : SnapshotAccounting) : Result bool :=
  match lifecycle_control s with
  | None => Ok true
  | Some control =>
      match pending_change control with
      | None => Ok true
      | Some _ =>
          epoch ← next_policy_epoch (policy_epoch s);
          match append_audit (completion_event s) (set_policy_epoch epoch s) with
          | (_, Err e) => Err e
          | (completed, Ok _) =>
              if budget_hot_bytes (l_audit_retention (limits completed)) <? hot_bytes (audit_retention completed)
              then Ok false
              else fits_completion x s control completed
          end
      end
  end.
End accounting.

(** ** Sums of sizes *)

Lemma record_size_Ok r n :
  record_size r = Ok n ↔ record_pending r = true ∧ n = vlen (to_value r) + 9 ∧ vlen (to_value r) ≤ 33554432.
Proof.
  unfold record_size. rewrite bind_Ok. split.
  - intros (k & Hk & Hf). destruct (record_pending r); [|done]. apply encoded_len_Ok in Hk as [-> _].
    by apply framed_record_Ok in Hf.
  - intros (-> & -> & Hle). exists (vlen (to_value r)). rewrite framed_record_Ok, encoded_len_Ok. unfold u64_max.
    split; [split; [reflexivity|lia]|done].
Qed.

#[local] Opaque document_record record_size feed_size stage_size encoded_len.

Lemma change_Ok t o n t' : change t o n = Ok t' ↔ o ≤ t ∧ t' = t - o + n ∧ t' ≤ u64_max.
Proof.
  unfold change. rewrite ok_or_Ok, bind_Some. setoid_rewrite checked_add_Some. unfold checked_sub. split.
  - intros (x & Hx & -> & Hb). destruct (N.leb_spec o t); [|done]. injection Hx as <-. done.
  - intros (Ho & -> & Hb). exists (t - o). rewrite (proj2 (N.leb_le _ _) Ho). done.
Qed.

(** The size of an item, when it has one. *)
Definition weight {A} (size : A → Result N) (a : A) : N :=
  match size a with Ok n => n | Err _ => 0 end.
Definition sized {A} (size : A → Result N) (a : A) : Prop := is_ok (size a) = true.

Lemma sized_Ok {A} (size : A → Result N) a n : size a = Ok n → sized size a ∧ weight size a = n.
Proof. intros Ha. unfold sized, weight. by rewrite Ha. Qed.
Lemma sized_weight {A} (size : A → Result N) a : sized size a → size a = Ok (weight size a).
Proof. unfold sized, weight. by destruct (size a). Qed.

Fixpoint weights {A} (size : A → Result N) (l : list A) : N :=
  match l with [] => 0 | a :: l' => weight size a + weights size l' end.

Lemma weights_app {A} (size : A → Result N) l k : weights size (l ++ k) = weights size l + weights size k.
Proof. induction l as [|a l IH]; cbn; [done|]. rewrite IH. lia. Qed.

#[export] Instance weights_perm {A} (size : A → Result N) : Proper ((≡ₚ) ==> (=)) (weights size).
Proof. induction 1; cbn; lia. Qed.

Lemma weights_fmap {A B} (g : A → B) (size : B → Result N) l :
  weights size (g <$> l) = weights (λ a, size (g a)) l.
Proof. induction l as [|a l IH]; [done|]. rewrite fmap_cons. cbn. by rewrite IH. Qed.

Lemma weights_ext {A} (f g : A → Result N) l :
  (∀ a, a ∈ l → weight f a = weight g a) → weights f l = weights g l.
Proof.
  induction l as [|a l IH]; intros Hfg; [done|]. cbn. rewrite (Hfg a) by left.
  rewrite IH; [done|]. intros b Hb. apply Hfg. by right.
Qed.

Lemma add_sizes_Ok {A} (size : A → Result N) l : ∀ t t', t ≤ u64_max →
  add_sizes size t l = Ok t' ↔ Forall (sized size) l ∧ t' = t + weights size l ∧ t' ≤ u64_max.
Proof.
  induction l as [|a l IH]; intros t t' Ht.
  - unfold add_sizes. rewrite try_fold_nil. cbn. rewrite N.add_0_r. split; [intros [= <-]; by split_and!|].
    by intros (_ & -> & _).
  - unfold add_sizes. rewrite try_fold_cons. fold (add_sizes size). split.
    + intros Hf. apply bind_Ok in Hf as (t1 & Ht1 & Hf). apply bind_Ok in Ht1 as (n & Hn & Ht1).
      apply change_Ok in Ht1 as (_ & -> & Hb). apply IH in Hf as (Hl & -> & Hb'); [|done].
      apply sized_Ok in Hn as [Hs Hw]. cbn. rewrite Hw. split_and!; [by constructor|lia|lia].
    + intros (Hl & -> & Hb). apply Forall_cons in Hl as [Ha Hl]. cbn in Hb. apply bind_Ok.
      exists (t + weight size a). split.
      * apply bind_Ok. exists (weight size a). split; [by apply sized_weight|]. apply change_Ok. lia.
      * apply IH; [lia|]. cbn. split_and!; [done|lia|lia].
Qed.

(** The sizes of the entries of a map. *)
Section mass.
Context {K V : Type} `{Countable K} (f : K → V → Result N).

Definition entry_size (kv : K * V) : Result N := f kv.1 kv.2.
Definition mass (m : gmap K V) : N := weights entry_size (map_to_list m).
Definition all_sized (m : gmap K V) : Prop := ∀ k v, m !! k = Some v → sized (f k) v.
Definition option_weight (k : K) (o : option V) : N := match o with Some v => weight (f k) v | None => 0 end.

Lemma all_sized_list m l :
  l ≡ₚ map_to_list m → Forall (sized entry_size) l ↔ all_sized m.
Proof.
  intros Hl. rewrite Hl, Forall_forall. split.
  - intros Hm k v Hk. apply (Hm (k, v)). by apply elem_of_map_to_list.
  - intros Hm [k v] Hk%elem_of_map_to_list. by apply Hm.
Qed.

Lemma mass_Ok m l t :
  l ≡ₚ map_to_list m → add_sizes entry_size 0 l = Ok t ↔ all_sized m ∧ t = mass m ∧ t ≤ u64_max.
Proof. intros Hl. rewrite add_sizes_Ok, (all_sized_list m) by (done || lia). by rewrite Hl. Qed.

Lemma mass_empty : mass ∅ = 0.
Proof. unfold mass. by rewrite map_to_list_empty. Qed.

Lemma mass_insert m k v : m !! k = None → mass (<[k := v]> m) = weight (f k) v + mass m.
Proof. intros Hk. unfold mass. by rewrite map_to_list_insert by done. Qed.

Lemma mass_delete m k v : m !! k = Some v → mass m = weight (f k) v + mass (delete k m).
Proof.
  intros Hk. rewrite <-(mass_insert (delete k m) k v) by apply lookup_delete_eq.
  by rewrite insert_delete_id.
Qed.

(** Replacing one entry. *)
Lemma mass_replace m k o :
  mass (partial_alter (λ _, o) k m) + option_weight k (m !! k) = mass m + option_weight k o.
Proof.
  assert (Hd : mass m = option_weight k (m !! k) + mass (delete k m)).
  { destruct (m !! k) as [v|] eqn:Hk; cbn; [by apply mass_delete|]. by rewrite delete_id. }
  assert (Hp : mass (partial_alter (λ _, o) k m) = option_weight k o + mass (delete k m)).
  { destruct o as [v|]; cbn.
    - rewrite <-mass_insert by apply lookup_delete_eq. f_equal. apply map_eq. intros j.
      destruct (decide (k = j)) as [->|Hj].
      + by rewrite lookup_partial_alter_eq, lookup_insert_eq.
      + rewrite lookup_partial_alter_ne, lookup_insert_ne, lookup_delete_ne by done. done.
    - done. }
  lia.
Qed.

Lemma mass_lookup m k : option_weight k (m !! k) ≤ mass m.
Proof.
  destruct (m !! k) as [v|] eqn:Hk; cbn; [|lia]. rewrite (mass_delete m k v Hk). lia.
Qed.

(** A loop that moves the keys of [l] from [previous] to [next]. *)
Context {A : Type} (key : A → K) (step : N → A → Result N) (next : gmap K V).

Definition moves (previous : gmap K V) (l : list A) : Prop :=
  ∀ t t' a, a ∈ l → option_weight (key a) (previous !! key a) ≤ t →
    step t a = Ok t' ↔ (∀ v, next !! key a = Some v → sized (f (key a)) v) ∧
      t' = t - option_weight (key a) (previous !! key a) + option_weight (key a) (next !! key a) ∧ t' ≤ u64_max.

Lemma moves_tail previous a l :
  NoDup (key <$> a :: l) → moves previous (a :: l) →
  moves (partial_alter (λ _, next !! key a) (key a) previous) l.
Proof.
  intros [Ha _]%NoDup_cons Hm t t' b Hb Hw.
  assert (Hne : key a ≠ key b) by (intros Heq; apply Ha; rewrite Heq; by apply list_elem_of_fmap_2).
  rewrite lookup_partial_alter_ne in * by done. apply Hm; [by right|done].
Qed.

Lemma moved_sound l : ∀ previous t,
  NoDup (key <$> l) → moves previous l → (∀ k, k ∉ key <$> l → previous !! k = next !! k) →
  all_sized previous → try_fold step (mass previous) l = Ok t →
  all_sized next ∧ t = mass next ∧ (mass previous ≤ u64_max → t ≤ u64_max).
Proof.
  induction l as [|a l IH]; intros previous t Hnd Hm Hout Hp Hf.
  - rewrite try_fold_nil in Hf. injection Hf as <-.
    assert (previous = next) as -> by (apply map_eq; intros k; apply Hout; by rewrite fmap_nil; intros ?%elem_of_nil).
    done.
  - rewrite try_fold_cons in Hf. apply bind_Ok in Hf as (t1 & Ht1 & Hf).
    pose proof (mass_lookup previous (key a)) as Hle. pose proof (mass_replace previous (key a) (next !! key a)) as Hr.
    apply (Hm _ _ a) in Ht1 as (Hn & -> & Hb); [|by left|done].
    set (p1 := partial_alter (λ _, next !! key a) (key a) previous) in *.
    replace (mass previous - option_weight (key a) (previous !! key a) + option_weight (key a) (next !! key a))
      with (mass p1) in Hf, Hb by lia.
    apply IH in Hf as (Hs & -> & Hfin); [split_and!; auto|by apply NoDup_cons in Hnd as [_ Hnd]|by apply moves_tail| |].
    + intros k Hk. destruct (decide (key a = k)) as [<-|Hne]; [by apply lookup_partial_alter_eq|].
      unfold p1. rewrite lookup_partial_alter_ne by done. apply Hout.
      rewrite fmap_cons, not_elem_of_cons. split; [by intros ->|done].
    + intros k v Hk. destruct (decide (key a = k)) as [<-|Hne].
      * unfold p1 in Hk. rewrite lookup_partial_alter_eq in Hk. by apply Hn.
      * unfold p1 in Hk. rewrite lookup_partial_alter_ne in Hk by done. by apply Hp.
Qed.

Lemma moved_complete l : ∀ previous,
  NoDup (key <$> l) → moves previous l → (∀ k, k ∉ key <$> l → previous !! k = next !! k) →
  all_sized next → mass previous + mass next ≤ u64_max → try_fold step (mass previous) l = Ok (mass next).
Proof.
  assert (Hbound : ∀ l previous bound, NoDup (key <$> l) → moves previous l →
    (∀ k, k ∉ key <$> l → previous !! k = next !! k) → all_sized next →
    mass previous + weights (λ a, Ok (option_weight (key a) (next !! key a))) l ≤ bound → bound ≤ u64_max →
    try_fold step (mass previous) l = Ok (mass next)).
  { clear l. induction l as [|a l IH]; intros previous bound Hnd Hm Hout Hn Hle Hb.
    - assert (previous = next) as -> by (apply map_eq; intros k; apply Hout; by rewrite fmap_nil; intros ?%elem_of_nil).
      done.
    - rewrite try_fold_cons. cbn in Hle.
      pose proof (mass_lookup previous (key a)) as Hlk. pose proof (mass_replace previous (key a) (next !! key a)) as Hr.
      set (p1 := partial_alter (λ _, next !! key a) (key a) previous) in *.
      change (weight (λ a, Ok (option_weight (key a) (next !! key a))) a)
        with (option_weight (key a) (next !! key a)) in Hle.
      assert (Hstep : step (mass previous) a = Ok (mass p1)).
      { apply (Hm _ _ a); [by left|done|]. split_and!; [intros v; apply Hn|lia|lia]. }
      rewrite Hstep, bind_Ok_l. apply (IH p1 bound); [by apply NoDup_cons in Hnd as [_ Hnd]|by apply moves_tail| |done|lia|done].
      intros k Hk. destruct (decide (key a = k)) as [<-|Hne]; [by apply lookup_partial_alter_eq|].
      unfold p1. rewrite lookup_partial_alter_ne by done. apply Hout.
      rewrite fmap_cons, not_elem_of_cons. split; [by intros ->|done]. }
  intros previous Hnd Hm Hout Hn Hle. eapply Hbound; [done..| |exact Hle].
  apply N.add_le_mono_l. clear -Hnd.
  revert next Hnd. induction l as [|a l IH]; intros m Hnd; [cbn; lia|].
  apply NoDup_cons in Hnd as [Ha Hnd]. cbn. specialize (IH (delete (key a) m) Hnd).
  change (weight (λ a, Ok (option_weight (key a) (m !! key a))) a) with (option_weight (key a) (m !! key a)).
  assert (Hsame : weights (λ a, Ok (option_weight (key a) (m !! key a))) l =
                  weights (λ b, Ok (option_weight (key b) (delete (key a) m !! key b))) l).
  { apply weights_ext. intros b Hb. unfold weight. rewrite lookup_delete_ne; [done|].
    intros Heq. apply Ha. rewrite Heq. by apply list_elem_of_fmap_2. }
  rewrite Hsame. destruct (m !! key a) as [v|] eqn:Hk; cbn.
  - rewrite (mass_delete m (key a) v Hk). lia.
  - rewrite delete_id in IH |- * by done. lia.
Qed.

(** A loop over a map that does not change. *)
Lemma moved_same l :
  moves next l → all_sized next → mass next ≤ u64_max → try_fold step (mass next) l = Ok (mass next).
Proof.
  induction l as [|a l IH]; intros Hm Hn Hb; [done|]. rewrite try_fold_cons.
  rewrite (proj2 (Hm (mass next) (mass next) a ltac:(by left) (mass_lookup next (key a)))), bind_Ok_l.
  - apply IH; [|done..]. intros t t' b Hb'. apply Hm. by right.
  - pose proof (mass_lookup next (key a)). split_and!; [intros v; apply Hn|lia|done].
Qed.
End mass.

(** ** Components carried from one state to the next *)

(** The result is the mass of [next], whenever that is within range. *)
Definition tracked {K V} `{Countable K} (f : K → V → Result N) (previous next : gmap K V) (r : Result N) : Prop :=
  (∀ t, r = Ok t → all_sized f next ∧ t = mass f next ∧ t ≤ u64_max) ∧
  (all_sized f next → mass f previous + mass f next ≤ u64_max ∨ previous = next → r = Ok (mass f next)).

Lemma moved {K V A} `{Countable K} (f : K → V → Result N) (key : A → K) (step : N → A → Result N)
    (previous next : gmap K V) (l : list A) :
  NoDup (key <$> l) → moves f key step next previous l → (∀ k, k ∉ key <$> l → previous !! k = next !! k) →
  all_sized f previous → mass f previous ≤ u64_max →
  tracked f previous next (try_fold step (mass f previous) l).
Proof.
  intros Hnd Hm Hout Hp Hb. split.
  - intros t Ht. eapply moved_sound in Ht as (Hn & -> & Hle); try done. auto.
  - intros Hn [Hle|<-]; [by eapply moved_complete|by apply (moved_same f key)].
Qed.

Lemma tracked_same {K V} `{Countable K} (f : K → V → Result N) (m : gmap K V) :
  all_sized f m → mass f m ≤ u64_max → tracked f m m (Ok (mass f m)).
Proof. intros Hs Hb. split; [by intros t [= <-]|done]. Qed.

(** A step that evaluates both sizes. *)
Lemma optional_Ok {V} (o : option V) (f : V → Result N) n :
  optional o f = Ok n ↔ (∀ v, o = Some v → sized f v) ∧ n = match o with Some v => weight f v | None => 0 end.
Proof.
  destruct o as [v|]; cbn.
  - split.
    + intros [Hs Hw]%sized_Ok. split; [by intros ? [= <-]|done].
    + intros [Hs ->]. by apply sized_weight, Hs.
  - split; [by intros [= <-]|by intros [_ ->]].
Qed.

Lemma both_sizes {K V} `{Countable K} (f : K → V → Result N) (previous next : gmap K V) k t t' :
  all_sized f previous → option_weight f k (previous !! k) ≤ t →
  (o ← optional (previous !! k) (f k); n ← optional (next !! k) (f k); change t o n) = Ok t' ↔
  (∀ v, next !! k = Some v → sized (f k) v) ∧
  t' = t - option_weight f k (previous !! k) + option_weight f k (next !! k) ∧ t' ≤ u64_max.
Proof.
  intros Hp Hle. split.
  - intros Hr. apply bind_Ok in Hr as (o & [_ ->]%optional_Ok & Hr).
    apply bind_Ok in Hr as (n & [Hn ->]%optional_Ok & Hr). apply change_Ok in Hr as (_ & Ht & Hb). done.
  - intros (Hn & Ht & Hb). apply bind_Ok. exists (option_weight f k (previous !! k)).
    split; [apply optional_Ok; split; [intros v; apply Hp|done]|].
    apply bind_Ok. exists (option_weight f k (next !! k)). split; [by apply optional_Ok|]. by apply change_Ok.
Qed.

Section diff.
Context {V : Type} `{EqDecision V} (f : string → V → Result N) (previous next : gmap string V).

Definition diff_key (d : DiffItem string V) : string :=
  match d with DiffAdd k _ | DiffRemove k _ | DiffUpdate k _ _ => k end.

Lemma diff_at_key k d : diff_at previous next k = Some d → diff_key d = k.
Proof. unfold diff_at. intros Hd. repeat case_match; by simplify_eq. Qed.

Lemma diff_keys (l : list string) : diff_key <$> omap (diff_at previous next) l = filter (λ k, is_Some (diff_at previous next k)) l.
Proof.
  induction l as [|k l IH]; [done|]. rewrite filter_cons. cbn.
  destruct (diff_at previous next k) as [d|] eqn:Hd; cbn.
  - rewrite decide_True by done. by rewrite IH, (diff_at_key k d Hd).
  - rewrite decide_False by (by intros []). done.
Qed.

Lemma diff_step_Ok d t : diff_at previous next (diff_key d) = Some d →
  diff_step f t d = (o ← optional (previous !! diff_key d) (f (diff_key d));
                     n ← optional (next !! diff_key d) (f (diff_key d)); change t o n).
Proof.
  unfold diff_at. intros Hd. destruct d as [k v|k v|k o n]; cbn in *;
    destruct (previous !! k) eqn:Hp, (next !! k) eqn:Hn; repeat case_match; simplify_eq; cbn; try done.
Qed.

Lemma map_changes_tracked :
  all_sized f previous → mass f previous ≤ u64_max →
  tracked f previous next (map_changes (mass f previous) previous next f).
Proof.
  intros Hp Hb. unfold map_changes. apply (moved f diff_key); try done.
  - unfold map_diff. rewrite diff_keys. apply NoDup_filter, set_iter_NoDup.
  - intros t t' d Hd Hle. apply list_elem_of_omap in Hd as (k & _ & Hk). pose proof (diff_at_key k d Hk) as <-.
    rewrite diff_step_Ok by done. by apply both_sizes.
  - intros k Hk. unfold map_diff in Hk. rewrite diff_keys, list_elem_of_filter in Hk.
    destruct (previous !! k) as [o|] eqn:Hpk, (next !! k) as [n|] eqn:Hnk; try done.
    + destruct (decide (o = n)) as [->|Hne]; [done|]. exfalso. apply Hk. split.
      * unfold diff_at. rewrite Hpk, Hnk, bool_decide_eq_false_2 by done. done.
      * apply set_iter_elem, elem_of_union_l. by apply elem_of_dom_2 in Hpk.
    + exfalso. apply Hk. split; [unfold diff_at; by rewrite Hpk, Hnk|].
      apply set_iter_elem, elem_of_union_l. by apply elem_of_dom_2 in Hpk.
    + exfalso. apply Hk. split; [unfold diff_at; by rewrite Hpk, Hnk|].
      apply set_iter_elem, elem_of_union_r. by apply elem_of_dom_2 in Hnk.
Qed.
End diff.

(** Rebuilding from nothing. *)
Lemma map_changes_rebuilt {V} `{EqDecision V} (f : string → V → Result N) (m : gmap string V) t :
  map_changes 0 ∅ m f = Ok t ↔ all_sized f m ∧ t = mass f m ∧ t ≤ u64_max.
Proof.
  destruct (map_changes_tracked f ∅ m) as [Hs Hc]; [by intros k v Hk|rewrite mass_empty; lia|].
  rewrite mass_empty in *. split; [apply Hs|]. intros (Hm & -> & Hb). apply Hc; [done|lia].
Qed.

Section stages.
Context (previous next : TenantState) (changed : gset string).

Lemma update_stages_tracked :
  (∀ k, k ∉ changed → staged_transactions previous !! k = staged_transactions next !! k) →
  all_sized stage_size (staged_transactions previous) →
  mass stage_size (staged_transactions previous) ≤ u64_max →
  tracked stage_size (staged_transactions previous) (staged_transactions next)
    (try_fold (update_stage previous next) (mass stage_size (staged_transactions previous)) (set_iter changed)).
Proof.
  intros Hout Hp Hb. apply (moved stage_size id); try done.
  - rewrite list_fmap_id. apply set_iter_NoDup.
  - intros t t' k _ Hle. unfold update_stage. by apply both_sizes.
  - intros k Hk. apply Hout. rewrite list_fmap_id, set_iter_elem in Hk. done.
Qed.
End stages.

(** *** The change feed *)

Lemma take_while_filter {A} (R : relation A) (p : A → bool) (l : list A) :
  StronglySorted R l → (∀ x y, R x y → p y = true → p x = true) → take_while p l = filter (λ x, p x = true) l.
Proof.
  intros Hl Hp. induction Hl as [|x l Hl IH Hx]; [done|]. cbn [take_while]. rewrite filter_cons.
  destruct (p x) eqn:Hpx; [by rewrite decide_True, IH|]. rewrite decide_False by done. symmetry.
  apply elem_of_nil_inv. intros y Hy. apply list_elem_of_filter in Hy as [Hpy Hy].
  rewrite Forall_forall in Hx. by rewrite (Hp x y) in Hpx by auto.
Qed.

Lemma StronglySorted_reverse {A} (R : relation A) (l : list A) :
  StronglySorted R l → StronglySorted (flip R) (reverse l).
Proof.
  induction 1 as [|x l Hl IH Hx]; [constructor|]. rewrite reverse_cons. apply StronglySorted_app.
  split; [|split; [done|by repeat constructor]].
  intros y z Hy Hz. apply list_elem_of_singleton in Hz as ->. rewrite elem_of_reverse in Hy.
  rewrite Forall_forall in Hx. by apply Hx.
Qed.

Section feed.
Context `{Sha256} `{Sharing} `{!SharingLaws} (previous next : TenantState).

Abbreviation old_commits := (commits (change_feed previous)).
Abbreviation new_commits := (commits (change_feed next)).

(** Commits leave at the front and arrive at the back. *)
Record feed_moves : Prop := {
  fm_kept k c d : old_commits !! k = Some c → new_commits !! k = Some d → c = d;
  fm_left k c j d : old_commits !! k = Some c → new_commits !! k = None → new_commits !! j = Some d → k < j;
  fm_joined k c j d : new_commits !! k = Some c → old_commits !! k = None → old_commits !! j = Some d → j < k;
}.

Definition leaves (ic : N * ChangeCommit) : bool :=
  match head (map_iter new_commits) with Some (first, _) => ic.1 <? first | None => true end.
Definition joins (ic : N * ChangeCommit) : bool :=
  match last (map_iter old_commits) with Some (last, _) => last <? ic.1 | None => true end.

Lemma leaves_true k c : leaves (k, c) = true → new_commits !! k = None.
Proof.
  unfold leaves. destruct (head (map_iter new_commits)) as [[first d]|] eqn:Hh.
  - intros Hlt%N.ltb_lt. destruct (new_commits !! k) as [e|] eqn:Hk; [|done].
    change (get_min new_commits = Some (first, d)) in Hh. apply get_min_Some in Hh as [_ Hmin].
    specialize (Hmin k e Hk). cbn in *. lia.
  - intros _. apply head_None, map_iter_nil in Hh. rewrite Hh. apply lookup_empty.
Qed.

Lemma last_max k c l d : last (map_iter old_commits) = Some (l, d) → old_commits !! k = Some c → k ≤ l.
Proof.
  intros Hl Hk. apply last_Some in Hl as (pre & Hl). pose proof (map_iter_sorted old_commits) as Hs.
  rewrite Hl in Hs. apply elem_of_map_iter in Hk. rewrite Hl, elem_of_app, list_elem_of_singleton in Hk.
  destruct Hk as [Hk|[= -> ->]]; [|done].
  apply StronglySorted_app in Hs as (Hs & _). specialize (Hs (k, c) (l, d) Hk ltac:(by left)). done.
Qed.

Lemma joins_true k c : joins (k, c) = true → old_commits !! k = None.
Proof.
  unfold joins. destruct (last (map_iter old_commits)) as [[l d]|] eqn:Hl.
  - intros Hlt%N.ltb_lt. destruct (old_commits !! k) as [e|] eqn:Hk; [|done].
    pose proof (last_max k e l d Hl Hk). cbn in *. lia.
  - intros _. apply last_None, map_iter_nil in Hl. rewrite Hl. apply lookup_empty.
Qed.

Lemma joins_reversed : take_while joins (reverse (map_iter new_commits)) = filter (λ x, joins x = true) (reverse (map_iter new_commits)).
Proof.
  apply (take_while_filter (flip entry_le)); [apply StronglySorted_reverse, map_iter_sorted|].
  intros [k c] [j d] Hle. unfold joins. cbn. destruct (last (map_iter old_commits)) as [[l e]|]; [|done].
  intros Hlt%N.ltb_lt. apply N.ltb_lt. unfold flip, entry_le in Hle. cbn in Hle. lia.
Qed.

Lemma leaves_sorted : take_while leaves (map_iter old_commits) = filter (λ x, leaves x = true) (map_iter old_commits).
Proof.
  apply (take_while_filter entry_le); [apply map_iter_sorted|].
  intros [k c] [j d] Hle. unfold leaves. cbn. destruct (head (map_iter new_commits)) as [[f e]|]; [|done].
  intros Hlt%N.ltb_lt. apply N.ltb_lt. unfold entry_le in Hle. cbn in Hle. lia.
Qed.

(** The two loops as one list of departures and arrivals. *)
Definition feed_step (t : N) (x : bool * (N * ChangeCommit)) : Result N :=
  n ← feed_size x.2.1 x.2.2;
  if x.1 then change t n 0 else change t 0 n.

Definition feed_list : list (bool * (N * ChangeCommit)) :=
  (pair true <$> take_while leaves (map_iter old_commits)) ++
  (pair false <$> take_while joins (reverse (map_iter new_commits))).

Lemma feed_list_elem (b : bool) k c :
  (b, (k, c)) ∈ feed_list ↔
  if b then old_commits !! k = Some c ∧ leaves (k, c) = true else new_commits !! k = Some c ∧ joins (k, c) = true.
Proof.
  unfold feed_list. rewrite leaves_sorted, joins_reversed, elem_of_app, !list_elem_of_fmap. split.
  - intros [([j d] & [= -> -> ->] & [? ?%elem_of_map_iter]%list_elem_of_filter)|
            ([j d] & [= -> -> ->] & Hx)]; [done|].
    by apply list_elem_of_filter in Hx as [? ?%elem_of_reverse%elem_of_map_iter].
  - destruct b; intros [Hk Hb]; [left|right]; exists (k, c); (split; [done|]); apply list_elem_of_filter;
      (split; [done|]); rewrite ?elem_of_reverse; by apply elem_of_map_iter.
Qed.

Definition feed_key (x : bool * (N * ChangeCommit)) : N := x.2.1.

Lemma feed_list_NoDup : NoDup (feed_key <$> feed_list).
Proof.
  unfold feed_list. rewrite leaves_sorted, joins_reversed, fmap_app, <-!list_fmap_compose.
  apply NoDup_app. split; [|split].
  - apply (sublist_NoDup _ (map_iter old_commits).*1); [apply map_iter_NoDup|].
    apply (fmap_sublist (fst : N * ChangeCommit → N)), sublist_filter.
  - intros k Hk Hk'. apply list_elem_of_fmap in Hk as ([j c] & -> & [Hl ?%elem_of_map_iter]%list_elem_of_filter).
    apply list_elem_of_fmap in Hk' as ([i d] & Heq & [Hj Hd%elem_of_reverse%elem_of_map_iter]%list_elem_of_filter).
    cbn in *. subst i. by rewrite (leaves_true j c) in Hd.
  - apply (sublist_NoDup _ (reverse (map_iter new_commits)).*1).
    + rewrite fmap_reverse, reverse_Permutation. apply map_iter_NoDup.
    + apply (fmap_sublist (fst : N * ChangeCommit → N)), sublist_filter.
Qed.

Lemma feed_list_moves :
  all_sized feed_size old_commits → moves feed_size feed_key feed_step new_commits old_commits feed_list.
Proof.
  intros Hp t t' [b [k c]] Hx%feed_list_elem Hle. unfold feed_step, feed_key in *. cbn [fst snd] in *.
  destruct b; destruct Hx as [Hk Hb].
  - rewrite (leaves_true k c Hb), Hk in *. cbn [option_weight] in *. rewrite (sized_weight _ _ (Hp k c Hk)), bind_Ok_l, change_Ok.
    split; [by intros (_ & -> & ?)|by intros (_ & -> & ?)].
  - rewrite (joins_true k c Hb), Hk in *. cbn [option_weight] in *. split.
    + intros Hf. apply bind_Ok in Hf as (n & [Hs <-]%sized_Ok & (_ & -> & ?)%change_Ok). split; [by intros v [= <-]|done].
    + intros (Hs & -> & ?). apply bind_Ok. exists (weight (feed_size k) c).
      split; [by apply sized_weight, Hs|]. apply change_Ok. by split_and!; [lia|..].
Qed.

Lemma feed_list_covers :
  feed_moves → ∀ k, k ∉ feed_key <$> feed_list → old_commits !! k = new_commits !! k.
Proof.
  intros Hfm k Hk. destruct (old_commits !! k) as [c|] eqn:Ho, (new_commits !! k) as [d|] eqn:Hn; [|exfalso|exfalso|done].
  - f_equal. by eapply fm_kept.
  - apply Hk, list_elem_of_fmap. exists (true, (k, c)). split; [done|]. apply feed_list_elem. split; [done|].
    unfold leaves. destruct (head (map_iter new_commits)) as [[f e]|] eqn:Hh; [|done]. apply N.ltb_lt. cbn.
    change (get_min new_commits = Some (f, e)) in Hh. apply get_min_Some in Hh as [Hf _]. by eapply fm_left.
  - apply Hk, list_elem_of_fmap. exists (false, (k, d)). split; [done|]. apply feed_list_elem. split; [done|].
    unfold joins. destruct (last (map_iter old_commits)) as [[l e]|] eqn:Hl; [|done]. apply N.ltb_lt. cbn.
    assert (Hle : old_commits !! l = Some e) by (apply elem_of_map_iter; apply last_Some in Hl as (pre & ->); apply elem_of_app; right; by left).
    by eapply fm_joined.
Qed.

Lemma update_feed_tracked :
  feed_moves → all_sized feed_size old_commits → mass feed_size old_commits ≤ u64_max →
  tracked feed_size old_commits new_commits (update_feed previous next (mass feed_size old_commits)).
Proof.
  intros Hfm Hp Hb. unfold update_feed. destruct (ptr_commits previous next) eqn:Hptr.
  - rewrite <-(ptr_commits_eq _ _ Hptr). by apply tracked_same.
  - assert (Heq : ∀ t, try_fold feed_step t feed_list =
      (total ← try_fold (λ t ic, o ← feed_size ic.1 ic.2; change t o 0) t (take_while leaves (map_iter old_commits));
       add_sizes (λ ic, feed_size ic.1 ic.2) total (take_while joins (reverse (map_iter new_commits))))).
    { intros t. unfold feed_list. rewrite try_fold_app, try_fold_fmap.
      change (λ t ic, o ← feed_size ic.1 ic.2; change t o 0) with (λ x a, feed_step x (true, a)).
      destruct (try_fold (λ x a, feed_step x (true, a)) t _) as [t1|e]; [|done]. rewrite !bind_Ok_l. apply try_fold_fmap. }
    pose proof (moved feed_size feed_key feed_step old_commits new_commits feed_list feed_list_NoDup
      (feed_list_moves Hp) (feed_list_covers Hfm) Hp Hb) as Ht. by rewrite Heq in Ht.
Qed.
End feed.

(** *** Documents and archive references *)

Lemma pair_fold {A} (f g : N → A → Result N) (l : list A) : ∀ d0 a0 d a,
  try_fold (λ da x, d ← f da.1 x; a ← g da.2 x; Ok (d, a)) (d0, a0) l = Ok (d, a) ↔
  try_fold f d0 l = Ok d ∧ try_fold g a0 l = Ok a.
Proof.
  induction l as [|x l IH]; intros d0 a0 d a.
  - rewrite !try_fold_nil. naive_solver.
  - rewrite !try_fold_cons. cbn [fst snd]. destruct (f d0 x) as [d1|]; [|split; [done|by intros []]].
    destruct (g a0 x) as [a1|]; [|split; [done|by intros []]]. apply IH.
Qed.

Lemma add_sizes_nested {A B} (size : A → B → Result N) (xs : A → list B) (l : list A) t :
  try_fold (λ t a, add_sizes (size a) t (xs a)) t l =
  add_sizes (λ ab, size ab.1 ab.2) t (a ← l; pair a <$> xs a).
Proof.
  revert t. induction l as [|a l IH]; intros t; [done|]. rewrite bind_cons, try_fold_cons. unfold add_sizes.
  rewrite try_fold_app, try_fold_fmap. cbn [fst snd].
  destruct (try_fold (λ t b, n ← size a b; change t 0 n) t (xs a)) as [t1|e]; [|done]. apply IH.
Qed.

Section parts.
Context {V : Type} (part : CollectionState → gmap string V).

(** The parts of all collections as one map. *)
Definition flat (s : TenantState) : gmap (string * string) V := map_uncurry (part <$> collections s).

Lemma flat_lookup s n id : flat s !! (n, id) = collections s !! n ≫= λ c, part c !! id.
Proof.
  unfold flat. rewrite lookup_map_uncurry, lookup_fmap. by destruct (collections s !! n).
Qed.

Definition flat_list (s : TenantState) : list (string * string * V) :=
  nc ← map_iter (collections s); (λ kv, (nc.1, kv.1, kv.2)) <$> map_iter (part nc.2).

Lemma flat_list_elem s n id v : (n, id, v) ∈ flat_list s ↔ flat s !! (n, id) = Some v.
Proof.
  unfold flat_list. rewrite flat_lookup, bind_Some, list_elem_of_bind. split.
  - intros ([k c] & Hx & Hk%elem_of_map_iter). apply list_elem_of_fmap in Hx as ([j w] & [= -> -> ->] & Hj%elem_of_map_iter).
    by exists c.
  - intros (c & Hc & Hid). exists (n, c). split; [|by apply elem_of_map_iter].
    apply list_elem_of_fmap. exists (id, v). split; [done|]. by apply elem_of_map_iter.
Qed.

Lemma flat_list_perm s : flat_list s ≡ₚ map_to_list (flat s).
Proof.
  apply NoDup_Permutation.
  - apply NoDup_bind.
    + intros [n c] [m d] [[k id] v] Hn%elem_of_map_iter Hm%elem_of_map_iter.
      intros (? & [= -> -> ->] & _)%list_elem_of_fmap (? & [= -> _ _] & _)%list_elem_of_fmap. cbn in *. congruence.
    + intros [n c] _. apply (NoDup_fmap_1 (λ x, x.1.2)). rewrite <-list_fmap_compose. apply map_iter_NoDup.
    + eapply NoDup_fmap_1, map_iter_NoDup.
  - apply NoDup_map_to_list.
  - intros [[n id] v]. by rewrite flat_list_elem, elem_of_map_to_list.
Qed.
End parts.

Lemma add_sizes_fmap {A B} (size : B → Result N) (g : A → B) t (l : list A) :
  add_sizes size t (g <$> l) = add_sizes (λ a, size (g a)) t l.
Proof. unfold add_sizes. apply try_fold_fmap. Qed.

(** Sizes of one part, collection by collection. *)
Lemma flat_sizes {V} (part : CollectionState → gmap string V) (f : string * string → V → Result N) s t :
  try_fold (λ t nc, add_sizes (λ kv, f (nc.1, kv.1) kv.2) t (map_iter (part nc.2))) 0 (map_iter (collections s)) = Ok t ↔
  all_sized f (flat part s) ∧ t = mass f (flat part s) ∧ t ≤ u64_max.
Proof.
  rewrite <-(mass_Ok f (flat part s) (flat_list part s)) by apply flat_list_perm.
  rewrite (add_sizes_nested (λ nc kv, f (nc.1, kv.1) kv.2) (λ nc, map_iter (part nc.2))).
  assert (Hl : flat_list part s = (λ ab, (ab.1.1, ab.2.1, ab.2.2)) <$>
    (nc ← map_iter (collections s); pair nc <$> map_iter (part nc.2))).
  { unfold flat_list. induction (map_iter (collections s)) as [|nc l IH]; [done|].
    rewrite !bind_cons, fmap_app, IH, <-list_fmap_compose. done. }
  rewrite Hl, add_sizes_fmap. done.
Qed.

Section documents.
Context `{Sha256}.

Definition document_part (k : string * string) (slot : DocumentSlot) : Result N := document_record k.1 slot.
Definition archived_part (k : string * string) (a : ArchivedDocument) : Result N := record_size (RArchived k.1 k.2 a).

Lemma rebuild_documents_Ok s d a :
  try_fold rebuild_collection (0, 0) (map_iter (collections s)) = Ok (d, a) ↔
  (all_sized document_part (flat documents s) ∧ d = mass document_part (flat documents s) ∧ d ≤ u64_max) ∧
  (all_sized archived_part (flat archived_documents s) ∧
   a = mass archived_part (flat archived_documents s) ∧ a ≤ u64_max).
Proof.
  rewrite <-!flat_sizes, <-pair_fold.
  assert (Heq : ∀ l da, try_fold rebuild_collection da l =
    try_fold (λ da nc, d ← add_sizes (λ kv, document_part (nc.1, kv.1) kv.2) da.1 (map_iter (documents nc.2));
      a ← add_sizes (λ kv, archived_part (nc.1, kv.1) kv.2) da.2 (map_iter (archived_documents nc.2)); Ok (d, a)) da l).
  { induction l as [|nc l IH]; intros da; [done|]. rewrite !try_fold_cons.
    assert (Hr : rebuild_collection da nc =
      (d ← add_sizes (λ kv, document_part (nc.1, kv.1) kv.2) da.1 (map_iter (documents nc.2));
       a ← add_sizes (λ kv, archived_part (nc.1, kv.1) kv.2) da.2 (map_iter (archived_documents nc.2)); Ok (d, a))).
    { unfold rebuild_collection, map_values. rewrite add_sizes_fmap. reflexivity. }
    rewrite Hr. match goal with |- (?x ≫= _) = _ => destruct x; [apply IH|done] end. }
  by rewrite Heq.
Qed.

Context (previous next : TenantState) (changed : gmap string (gset string)).

(** Every changed collection is in both states. *)
Definition names_present : Prop :=
  ∀ n ids, changed !! n = Some ids → is_Some (collections previous !! n) ∧ is_Some (collections next !! n).

Definition changed_list : list (string * string) :=
  ni ← map_iter changed; pair ni.1 <$> set_iter ni.2.

Definition part_step {V} (part : CollectionState → gmap string V) (f : string * string → V → Result N)
    (t : N) (k : string * string) : Result N :=
  o ← optional (flat part previous !! k) (f k);
  n ← optional (flat part next !! k) (f k);
  change t o n.

Lemma changed_elem n id : (n, id) ∈ changed_list ↔ ∃ ids, changed !! n = Some ids ∧ id ∈ ids.
Proof.
  unfold changed_list. rewrite list_elem_of_bind. split.
  - intros ([m ids] & Hx & Hm%elem_of_map_iter). apply list_elem_of_fmap in Hx as (j & [= -> ->] & Hj%set_iter_elem).
    by exists ids.
  - intros (ids & Hn & Hid). exists (n, ids). split; [|by apply elem_of_map_iter].
    apply list_elem_of_fmap. exists id. split; [done|]. by apply set_iter_elem.
Qed.

Lemma changed_NoDup : NoDup changed_list.
Proof.
  apply NoDup_bind.
  - intros [n x] [m y] [k id] Hn%elem_of_map_iter Hm%elem_of_map_iter.
    intros (? & [= -> ->] & _)%list_elem_of_fmap (? & [= -> _] & _)%list_elem_of_fmap. cbn in *. congruence.
  - intros [n x] _. apply (NoDup_fmap_2_strong (pair n)); [by intros ? ? _ _ [= ->]|apply set_iter_NoDup].
  - eapply NoDup_fmap_1, map_iter_NoDup.
Qed.

Lemma update_document_flat n old new da id :
  collections previous !! n = Some old → collections next !! n = Some new →
  update_document n old new da id =
  (d ← part_step documents document_part da.1 (n, id); a ← part_step archived_documents archived_part da.2 (n, id); Ok (d, a)).
Proof.
  intros Ho Hn. unfold update_document, part_step. rewrite !flat_lookup, Ho, Hn. cbn [mbind option_bind].
  change (document_part (n, id)) with (document_record n).
  change (archived_part (n, id)) with (λ x, record_size (RArchived n id x)).
  destruct (optional (documents old !! id) _) as [?|]; [|done]. rewrite !bind_Ok_l.
  destruct (optional (documents new !! id) _) as [?|]; [|done]. rewrite !bind_Ok_l.
  destruct (change da.1 _ _) as [?|]; [|done]. rewrite !bind_Ok_l.
  destruct (optional (archived_documents old !! id) _) as [?|]; [|done]. rewrite !bind_Ok_l.
  destruct (optional (archived_documents new !! id) _) as [?|]; done.
Qed.

Lemma update_documents_flat da :
  names_present →
  try_fold (update_documents previous next) da (map_iter changed) =
  try_fold (λ da k, d ← part_step documents document_part da.1 k;
                    a ← part_step archived_documents archived_part da.2 k; Ok (d, a)) da changed_list.
Proof.
  intros Hn. unfold changed_list.
  assert (Hl : ∀ n ids, (n, ids) ∈ map_iter changed → is_Some (collections previous !! n) ∧ is_Some (collections next !! n)).
  { intros n ids Hin%elem_of_map_iter. by eapply Hn. }
  revert da Hl. induction (map_iter changed) as [|[n ids] l IH]; intros da Hl; [done|].
  rewrite bind_cons, try_fold_cons, try_fold_app, try_fold_fmap.
  destruct (Hl n ids ltac:(by left)) as [[old Ho] [new Hnew]].
  assert (Hu : update_documents previous next da (n, ids) = try_fold (update_document n old new) da (set_iter ids)).
  { unfold update_documents. cbn [fst snd]. by rewrite Ho, Hnew. }
  rewrite Hu.
  assert (Heq : ∀ k da, try_fold (update_document n old new) da k =
    try_fold (λ da a, d ← part_step documents document_part da.1 (n, a);
                      b ← part_step archived_documents archived_part da.2 (n, a); Ok (d, b)) da k).
  { induction k as [|id k IHk]; intros da'; [done|]. rewrite !try_fold_cons, (update_document_flat n old new) by done.
    match goal with |- (?x ≫= _) = _ => destruct x; [apply IHk|done] end. }
  rewrite Heq. cbn [fst snd]. match goal with |- (?x ≫= _) = _ => destruct x; [|done] end.
  rewrite !bind_Ok_l. apply IH. intros m x Hin. eapply Hl. by right.
Qed.

Lemma part_tracked {V} (part : CollectionState → gmap string V) (f : string * string → V → Result N) :
  (∀ k, k ∉ changed_list → flat part previous !! k = flat part next !! k) →
  all_sized f (flat part previous) → mass f (flat part previous) ≤ u64_max →
  tracked f (flat part previous) (flat part next)
    (try_fold (part_step part f) (mass f (flat part previous)) changed_list).
Proof.
  intros Hout Hp Hb. apply (moved f id); try done.
  - rewrite list_fmap_id. apply changed_NoDup.
  - intros t t' k _ Hle. unfold part_step. by apply both_sizes.
  - intros k Hk. apply Hout. by rewrite list_fmap_id in Hk.
Qed.
End documents.

(** *** Audit events *)

Lemma sub_sizes {A} (size : A → Result N) (l : list A) : ∀ t,
  Forall (sized size) l → weights size l ≤ t → t ≤ u64_max →
  try_fold (λ t a, o ← size a; change t o 0) t l = Ok (t - weights size l).
Proof.
  induction l as [|a l IH]; intros t Hl Hle Hb; [rewrite try_fold_nil; cbn; f_equal; lia|].
  apply Forall_cons in Hl as [Ha Hl]. cbn [weights] in *. rewrite try_fold_cons, (sized_weight _ _ Ha), bind_Ok_l.
  rewrite (proj2 (change_Ok t (weight size a) 0 (t - weight size a))) by lia.
  rewrite bind_Ok_l, IH by (done || lia). f_equal. lia.
Qed.

Section audits.
Context (first : N).

Definition numbered (l : list AuditEvent) : list (nat * AuditEvent) := imap pair l.

Lemma numbered_app l k : numbered (l ++ k) = numbered l ++ ((λ ie, (ie.1 + length l, ie.2)%nat) <$> numbered k).
Proof.
  unfold numbered. rewrite imap_app. f_equal. rewrite fmap_imap. apply imap_ext. intros i e _. cbn.
  f_equal. lia.
Qed.

Lemma audit_size_shift n ie : audit_size first (ie.1 + n, ie.2)%nat = audit_size (first + N.of_nat n) ie.
Proof.
  unfold audit_size. cbn [fst snd]. replace (checked_add first (N.of_nat (ie.1 + n)))
    with (checked_add (first + N.of_nat n) (N.of_nat ie.1)); [done|].
  unfold checked_add. replace (first + N.of_nat (ie.1 + n)) with (first + N.of_nat n + N.of_nat ie.1) by lia. done.
Qed.

Lemma audits_sized_app l k :
  Forall (sized (audit_size first)) (numbered (l ++ k)) ↔
  Forall (sized (audit_size first)) (numbered l) ∧
  Forall (sized (audit_size (first + N.of_nat (length l)))) (numbered k).
Proof.
  rewrite numbered_app, Forall_app, Forall_fmap. apply and_iff_compat_l. apply Forall_iff. intros ie.
  unfold sized, compose. by rewrite audit_size_shift.
Qed.

Lemma audits_weights_app l k :
  weights (audit_size first) (numbered (l ++ k)) =
  weights (audit_size first) (numbered l) + weights (audit_size (first + N.of_nat (length l))) (numbered k).
Proof.
  rewrite numbered_app, weights_app, weights_fmap. f_equal. apply weights_ext. intros ie _.
  unfold weight. by rewrite audit_size_shift.
Qed.
End audits.

Lemma audit_loop p (l m k : list AuditEvent) t :
  Forall (sized (audit_size p)) (numbered (l ++ m)) → weights (audit_size p) (numbered (l ++ m)) ≤ u64_max →
  (total ← try_fold (λ t ie, o ← audit_size p ie; change t o 0) (weights (audit_size p) (numbered (l ++ m))) (numbered l);
   add_sizes (audit_size (p + N.of_nat (length l))) total (drop (length m) (numbered (m ++ k)))) = Ok t ↔
  Forall (sized (audit_size (p + N.of_nat (length l)))) (numbered (m ++ k)) ∧
  t = weights (audit_size (p + N.of_nat (length l))) (numbered (m ++ k)) ∧ t ≤ u64_max.
Proof.
  rewrite !audits_sized_app, !audits_weights_app. intros [Hl Hm] Hb. rewrite sub_sizes by (done || lia).
  rewrite bind_Ok_l, numbered_app, drop_app_length' by (unfold numbered; by rewrite length_imap).
  rewrite add_sizes_fmap. unfold add_sizes. set (q := p + N.of_nat (length l)) in *.
  assert (Heq : ∀ t0, try_fold (λ t a, n ← audit_size q (a.1 + length m, a.2)%nat; change t 0 n) t0 (numbered k) =
    add_sizes (audit_size (q + N.of_nat (length m))) t0 (numbered k)).
  { intros t0. unfold add_sizes. revert t0. generalize (numbered k). induction l0 as [|a l0 IH]; intros t0; [done|].
    rewrite !try_fold_cons, audit_size_shift. by destruct (n ← _; change t0 0 n) as [t1|e]; [apply IH|]. }
  rewrite Heq, add_sizes_Ok by lia. split.
  - intros (Hk & -> & Ht). split_and!; [done..|lia|lia].
  - intros ([_ Hk] & -> & Ht). split_and!; [done|lia|lia].
Qed.

Section audit_moves.
Context (previous next : TenantState).

Abbreviation before := (audit_retention previous).
Abbreviation after := (audit_retention next).

(** Events leave at the front and arrive at the back of one stream. *)
Record audit_moves : Prop := {
  am_stream : stream_id before = stream_id after;
  am_pruned : pruned_before before ≤ pruned_before after ≤ au_next_sequence before;
  am_next : au_next_sequence before ≤ au_next_sequence after;
  am_previous : pruned_before before + len (audits previous) = au_next_sequence before;
  am_present : pruned_before after + len (audits next) = au_next_sequence after;
  am_kept : drop (N.to_nat (pruned_before after - pruned_before before)) (audits previous) =
            take (N.to_nat (au_next_sequence before - pruned_before after)) (audits next);
}.

Definition audit_mass (s : TenantState) : N :=
  weights (audit_size (pruned_before (audit_retention s))) (numbered (audits s)).
Definition audits_sized (s : TenantState) : Prop :=
  Forall (sized (audit_size (pruned_before (audit_retention s)))) (numbered (audits s)).

Lemma update_audits_Ok t :
  audit_moves → audits_sized previous → audit_mass previous ≤ u64_max →
  update_audits previous next (audit_mass previous) = Ok t ↔
  audits_sized next ∧ t = audit_mass next ∧ t ≤ u64_max.
Proof.
  intros [Hs [Hp1 Hp2] Hn Hlp Hln Hk] Hsz Hb. unfold update_audits.
  rewrite Hs, N.eqb_refl, (proj2 (N.ltb_ge _ _) Hp1), (proj2 (N.ltb_ge _ _) Hp2), (proj2 (N.ltb_ge _ _) Hn).
  rewrite bool_decide_eq_true_2 by (unfold checked_sub; rewrite (proj2 (N.leb_le _ _)) by lia; f_equal; lia).
  cbn [negb orb]. set (r := N.to_nat (pruned_before after - pruned_before before)) in *.
  set (m := N.to_nat (au_next_sequence before - pruned_before after)) in *. unfold len in *.
  assert (Hr : length (take r (audits previous)) = r) by (rewrite length_take; lia).
  assert (Hm : length (take m (audits next)) = m) by (rewrite length_take; lia).
  pose proof (audit_loop (pruned_before before) (take r (audits previous)) (take m (audits next))
    (drop m (audits next)) t) as Hloop.
  rewrite <-Hk, take_drop, Hk, take_drop, Hr, Hm in Hloop.
  replace (pruned_before before + N.of_nat r) with (pruned_before after) in Hloop by lia. by apply Hloop.
Qed.
End audit_moves.

(** *** Collection headers *)

Lemma ilog10_go_digits fuel : ∀ n s, 0 < n → n < 10 ^ N.of_nat fuel →
  str_len (pretty_N_go n s) = ilog10_go fuel n + 1 + str_len s.
Proof.
  induction fuel as [|fuel IH]; intros n s H0 Hn; [cbn in Hn; lia|].
  rewrite pretty_N_go_step by done. cbn [ilog10_go]. destruct (N.ltb_spec n 10) as [Hlt|Hge].
  - rewrite N.div_small, pretty_N_go_0 by done. unfold str_len. cbn [String.length]. lia.
  - rewrite IH.
    + unfold str_len. cbn [String.length]. lia.
    + apply N.div_str_pos. lia.
    + apply N.Div0.div_lt_upper_bound. rewrite Nat2N.inj_succ, N.pow_succ_r' in Hn. lia.
Qed.

Lemma ilog10_digits n : n ≤ u64_max → vlen (to_value n) = ilog10 (n `max` 1) + 1.
Proof.
  intros Hn. change (vlen (to_value n)) with (str_len (pretty n)). unfold pretty, pretty_N.
  case_decide as H0; [by subst|]. rewrite N.max_l by lia. unfold ilog10. rewrite (ilog10_go_digits 20); [|lia|].
  - change (str_len "") with 0. lia.
  - eapply N.le_lt_trans; [exact Hn|by vm_compute].
Qed.

(** The counters are the only part of a header a write changes. *)
Lemma header_value_len name c d :
  definition c = definition d → data_epoch c ≤ u64_max → archived_document_bytes c ≤ u64_max →
  data_epoch d ≤ u64_max → archived_document_bytes d ≤ u64_max →
  vlen (to_value (RCollection name (collection_header c))) + counters d =
  vlen (to_value (RCollection name (collection_header d))) + counters c.
Proof.
  intros Hdef Hc1 Hc2 Hd1 Hd2.
  assert (Hv : ∀ e, vlen (to_value (RCollection name (collection_header e))) =
    vlen (VObject [("type", VString "Collection"); ("value", VArray [VString name;
      VObject [("definition", to_value (definition e)); ("data_epoch", to_value (data_epoch e));
               ("documents", VObject []); ("archived_documents", VObject []);
               ("archived_document_bytes", to_value (archived_document_bytes e))]])])) by reflexivity.
  rewrite !Hv, !vlen_pair, !vlen_array, !lsum_cons, !lsum_nil, !vlen_object, !lsum_cons, !lsum_nil. cbn [fst snd].
  rewrite Hdef, !ilog10_digits by done. unfold counters, len. cbn [length]. lia.
Qed.

Section headers.
Context `{Sharing} `{!SharingLaws} (previous next : TenantState).

Abbreviation header_size := collection_header_bytes.

(** Counters are machine integers. *)
Definition counters_in_range (s : TenantState) : Prop :=
  ∀ n c, collections s !! n = Some c → data_epoch c ≤ u64_max ∧ archived_document_bytes c ≤ u64_max.

Lemma header_Ok name c n :
  header_size name c = Ok n ↔
  n = vlen (to_value (RCollection name (collection_header c))) + 9 ∧
  vlen (to_value (RCollection name (collection_header c))) ≤ 33554432.
Proof.
  unfold collection_header_bytes. rewrite record_size_Ok. split; [by intros (_ & ? & ?)|].
  intros [? ?]. split_and!; [reflexivity|done..].
Qed.

Lemma header_sized name c :
  sized (header_size name) c ↔ vlen (to_value (RCollection name (collection_header c))) ≤ 33554432.
Proof.
  split.
  - intros Hs%sized_weight. by apply header_Ok in Hs as [_ ?].
  - intros Hle. eapply sized_Ok, header_Ok. split; [reflexivity|done].
Qed.

Lemma header_weight name c :
  sized (header_size name) c →
  weight (header_size name) c = vlen (to_value (RCollection name (collection_header c))) + 9.
Proof. intros Hs%sized_weight. by apply header_Ok in Hs as [? _]. Qed.

Lemma counters_le name c : data_epoch c ≤ u64_max → archived_document_bytes c ≤ u64_max →
  counters c ≤ vlen (to_value (RCollection name (collection_header c))).
Proof.
  intros H1 H2. pose proof (header_value_len name c
    {| definition := definition c; data_epoch := 0; documents := ∅; archived_documents := ∅; archived_document_bytes := 0 |}
    eq_refl H1 H2 ltac:(by vm_compute) ltac:(by vm_compute)) as Hl.
  set (z := vlen (to_value (RCollection name (collection_header {| data_epoch := 0 |})))) in Hl.
  assert (2 ≤ z); [|unfold counters in Hl at 1; cbn [data_epoch archived_document_bytes] in Hl;
    change (ilog10 (0 `max` 1)) with 0 in Hl; lia].
  unfold z. change (to_value (RCollection name ?c)) with (tagged "Collection" (to_value (name, c))).
  unfold tagged. rewrite vlen_pair. lia.
Qed.

(** A header whose definition is shared changes by the width of its counters. *)
Lemma shared_header_Ok name old new t t' :
  definition old = definition new → data_epoch old ≤ u64_max → archived_document_bytes old ≤ u64_max →
  data_epoch new ≤ u64_max → archived_document_bytes new ≤ u64_max →
  sized (header_size name) old → weight (header_size name) old ≤ t →
  ((if counters old <? counters new then header_size name new;; Ok tt else Ok tt);;
   change t (counters old) (counters new)) = Ok t' ↔
  sized (header_size name) new ∧
  t' = t - weight (header_size name) old + weight (header_size name) new ∧ t' ≤ u64_max.
Proof.
  intros Hdef Ho1 Ho2 Hn1 Hn2 Hs Hle. pose proof (header_value_len name old new Hdef Ho1 Ho2 Hn1 Hn2) as Hl.
  pose proof (counters_le name old Ho1 Ho2) as Hc. rewrite header_weight in Hle |- * by done.
  pose proof Hs as Hb. rewrite header_sized in Hb. split.
  - intros Hr. apply seq_Ok in Hr as [Hif (_ & -> & Hm)%change_Ok].
    assert (Hn : sized (header_size name) new).
    { destruct (N.ltb_spec (counters old) (counters new)) as [Hlt|Hge]; [|apply header_sized; lia].
      apply bind_Ok in Hif as (n & Hn & _). by eapply sized_Ok. }
    rewrite (header_weight name new) by done. split_and!; [done|lia|done].
  - intros (Hn & -> & Hm). rewrite (header_weight name new) in * by done. apply seq_Ok. split.
    + destruct (counters old <? counters new); [|done]. apply bind_Ok. eexists. split; [by apply sized_weight|done].
    + apply change_Ok. rewrite header_sized in Hn. lia.
Qed.

Definition header_step (t : N) (x : (string * CollectionState) + (string * CollectionState)) : Result N :=
  match x with
  | inl nc => update_collection next t nc
  | inr nc => n ← header_size nc.1 nc.2; change t 0 n
  end.

Definition header_key (x : (string * CollectionState) + (string * CollectionState)) : string :=
  match x with inl nc | inr nc => nc.1 end.

Definition header_list : list ((string * CollectionState) + (string * CollectionState)) :=
  (inl <$> map_iter (collections previous)) ++
  (inr <$> filter (λ nc, collections previous !! nc.1 = None) (map_iter (collections next))).

Lemma header_list_elem x : x ∈ header_list ↔
  match x with
  | inl nc => collections previous !! nc.1 = Some nc.2
  | inr nc => collections previous !! nc.1 = None ∧ collections next !! nc.1 = Some nc.2
  end.
Proof.
  unfold header_list. rewrite elem_of_app, !list_elem_of_fmap. split.
  - intros [([n c] & -> & Hx%elem_of_map_iter)|([n c] & -> & [Hp Hx%elem_of_map_iter]%list_elem_of_filter)]; done.
  - destruct x as [[n c]|[n c]].
    + intros Hx. left. exists (n, c). by rewrite elem_of_map_iter.
    + intros [Hp Hx]. right. exists (n, c). by rewrite list_elem_of_filter, elem_of_map_iter.
Qed.

Lemma header_list_NoDup : NoDup (header_key <$> header_list).
Proof.
  unfold header_list. rewrite fmap_app, <-!list_fmap_compose. apply NoDup_app. split; [apply map_iter_NoDup|split].
  - intros n Hn Hn'. apply list_elem_of_fmap in Hn as ([m c] & -> & Hc%elem_of_map_iter).
    apply list_elem_of_fmap in Hn' as ([k d] & Heq & [Hd _]%list_elem_of_filter). cbn in *. congruence.
  - apply (sublist_NoDup _ (map_iter (collections next)).*1); [apply map_iter_NoDup|].
    apply (fmap_sublist (fst : string * CollectionState → string)), sublist_filter.
Qed.

Lemma add_collections_filtered (l : list (string * CollectionState)) : ∀ t,
  try_fold (add_collection previous) t l =
  add_sizes (λ nc, header_size nc.1 nc.2) t (filter (λ nc, collections previous !! nc.1 = None) l).
Proof.
  induction l as [|[n c] l IH]; intros t; [done|]. rewrite filter_cons, try_fold_cons. cbn [fst].
  assert (Ha : add_collection previous t (n, c) =
    match collections previous !! n with None => k ← header_size n c; change t 0 k | Some _ => Ok t end) by done.
  rewrite Ha. destruct (collections previous !! n) as [d|] eqn:Hn.
  - rewrite decide_False by done. rewrite bind_Ok_l. apply IH.
  - rewrite decide_True by done. unfold add_sizes in *. rewrite try_fold_cons. cbn [fst snd].
    destruct (k ← header_size n c; change t 0 k) as [t1|e]; [|done]. rewrite !bind_Ok_l. apply IH.
Qed.

Lemma header_list_moves :
  counters_in_range previous → counters_in_range next →
  all_sized header_size (collections previous) →
  moves header_size header_key header_step (collections next) (collections previous) header_list.
Proof.
  intros Hcp Hcn Hp t t' x Hx%header_list_elem Hle. destruct x as [[n c]|[n c]]; cbn [header_key header_step fst snd] in *.
  - rewrite Hx in Hle |- *. cbn [option_weight] in *. unfold update_collection.
    pose proof (Hp n c Hx) as Hs. destruct (collections next !! n) as [d|] eqn:Hn.
    + destruct (Hcp n c Hx) as [? ?], (Hcn n d Hn) as [? ?]. destruct (ptr_definition c d) eqn:Hptr.
      * rewrite shared_header_Ok by (done || by apply ptr_definition_eq).
        split; [by intros (? & ? & ?); split_and!; [intros v [= <-]|..]|intros (Hv & ? & ?); split_and!; auto].
      * pose proof (both_sizes header_size (collections previous) (collections next) n t t' Hp) as Hb.
        rewrite Hx, Hn in Hb. by apply Hb.
    + rewrite (sized_weight _ _ Hs), bind_Ok_l, change_Ok. cbn [option_weight].
      split; [by intros (_ & -> & ?)|by intros (_ & -> & ?)].
  - destruct Hx as [Hx Hn]. rewrite Hx, Hn in *. cbn [option_weight] in *. split.
    + intros Hf. apply bind_Ok in Hf as (k & [Hs <-]%sized_Ok & (_ & -> & ?)%change_Ok). split; [by intros v [= <-]|done].
    + intros (Hs & -> & ?). apply bind_Ok. exists (weight (header_size n) c).
      split; [by apply sized_weight, Hs|]. apply change_Ok. by split_and!; [lia|..].
Qed.

Lemma update_collections_tracked :
  counters_in_range previous → counters_in_range next →
  all_sized header_size (collections previous) → mass header_size (collections previous) ≤ u64_max →
  tracked header_size (collections previous) (collections next)
    (cs ← try_fold (update_collection next) (mass header_size (collections previous)) (map_iter (collections previous));
     try_fold (add_collection previous) cs (map_iter (collections next))).
Proof.
  intros Hcp Hcn Hp Hb.
  assert (Hout : ∀ k, k ∉ header_key <$> header_list → collections previous !! k = collections next !! k).
  { intros k Hk. destruct (collections previous !! k) as [c|] eqn:Ho; [|destruct (collections next !! k) as [d|] eqn:Hn; [|done]].
    - exfalso. apply Hk, list_elem_of_fmap. exists (inl (k, c)). split; [done|]. by apply header_list_elem.
    - exfalso. apply Hk, list_elem_of_fmap. exists (inr (k, d)). split; [done|]. by apply header_list_elem. }
  pose proof (moved header_size header_key header_step (collections previous) (collections next) header_list
    header_list_NoDup (header_list_moves Hcp Hcn Hp) Hout Hp Hb) as Ht.
  unfold header_list in Ht. rewrite try_fold_app, try_fold_fmap in Ht.
  change (λ t a, header_step t (inl a)) with (update_collection next) in Ht.
  destruct (try_fold (update_collection next) _ _) as [t1|e]; [|done].
  rewrite bind_Ok_l in Ht |- *. rewrite try_fold_fmap in Ht. by rewrite add_collections_filtered.
Qed.
End headers.

(** ** The carried accounting is the accounting of the new state *)

(** [t] is the size of all entries of [m]. *)
Definition counted {K V} `{Countable K} (f : K → V → Result N) (m : gmap K V) (t : N) : Prop :=
  all_sized f m ∧ t = mass f m ∧ t ≤ u64_max.

Lemma counted_iter {K V} `{OrdKey K} (f : K → V → Result N) (m : gmap K V) t :
  add_sizes (λ kv, f kv.1 kv.2) 0 (map_iter m) = Ok t ↔ counted f m t.
Proof. apply (mass_Ok f). apply map_iter_perm. Qed.

Lemma tracked_sound {K V} `{Countable K} (f : K → V → Result N) (m n : gmap K V) t r u :
  counted f m t → tracked f m n r → r = Ok u → counted f n u.
Proof. intros _ [Hs _] Hr. by apply Hs. Qed.

Lemma tracked_complete {K V} `{Countable K} (f : K → V → Result N) (m n : gmap K V) t r u :
  counted f m t → counted f n u → t + u ≤ u64_max ∨ m = n → tracked f m n r → r = Ok u.
Proof. intros (_ & -> & _) (Hn & -> & _) Hle [_ Hc]. by apply Hc. Qed.

Section correct.
Context `{Sha256} `{CompletedMetadata} `{Sharing} `{!SharingLaws}.

Definition shared_control (sh : SharedAccounting) : ControlSizes :=
  {| co_header := sh_control_header sh; co_records := sh_control_records sh; co_completion := sh_completion sh |}.

Record shared_accounts (s : TenantState) (sh : SharedAccounting) : Prop := {
  sa_has_policy : encoded_len (policy s) = Ok (sh_policy sh);
  sa_has_lineage : lineage_bytes (restore_lineage s) = Ok (sh_lineage sh);
  sa_has_control : control_sizes (lifecycle_control s) = Ok (shared_control sh);
  sa_has_collections : counted collection_header_bytes (collections s) (sh_collections sh);
}.

Record accounts (s : TenantState) (x : SnapshotAccounting) : Prop := {
  ac_documents : counted document_part (flat documents s) (sa_documents x);
  ac_archived : counted archived_part (flat archived_documents s) (sa_archived x);
  ac_audits : audits_sized s ∧ sa_audits x = audit_mass s ∧ sa_audits x ≤ u64_max;
  ac_staged : counted stage_size (staged_transactions s) (sa_staged x);
  ac_feed : counted feed_size (commits (change_feed s)) (sa_feed x);
  ac_other : other s = Ok (sa_archives x, sa_activations x, sa_retirements x);
  ac_shared : ∃ sh, sa_shared x = Some sh ∧ shared_accounts s sh;
  ac_operations : counted recovery_operation (rc_operations (recovery_control s)) (sa_operations x);
  ac_phases : counted recovery_phase (rc_phases (recovery_control s)) (sa_phases x);
  ac_completions :
    counted recovery_completion_history (rc_completion_history (recovery_control s)) (sa_completions x);
  ac_targets : counted recovery_target (rc_targets (recovery_control s)) (sa_targets x);
}.

Lemma rebuild_shared_Ok s sh : rebuild_shared s = Ok sh ↔ shared_accounts s sh.
Proof.
  unfold rebuild_shared. split.
  - intros Hr. apply bind_Ok in Hr as (p & Hp & Hr). apply bind_Ok in Hr as (l & Hl & Hr).
    apply bind_Ok in Hr as (c & Hc & Hr). apply bind_Ok in Hr as (cs & Hcs%counted_iter & [= <-]).
    constructor; cbn; try done. by destruct c.
  - intros [Hp Hl Hc Hcs]. rewrite Hp, bind_Ok_l, Hl, bind_Ok_l, Hc, bind_Ok_l.
    rewrite (proj2 (counted_iter _ _ _) Hcs), bind_Ok_l. by destruct sh.
Qed.

Lemma rebuild_Ok s x : rebuild s = Ok x ↔ accounts s x.
Proof.
  unfold rebuild. split.
  - intros Hr. apply bind_Ok in Hr as ([d a] & [Hd Ha]%rebuild_documents_Ok & Hr).
    apply bind_Ok in Hr as (au & Hau & Hr). apply add_sizes_Ok in Hau; [|by vm_compute].
    apply bind_Ok in Hr as (st & Hst%counted_iter & Hr). apply bind_Ok in Hr as (fd & Hfd%counted_iter & Hr).
    apply bind_Ok in Hr as ([[o1 o2] o3] & Ho & Hr). apply bind_Ok in Hr as (sh & Hsh%rebuild_shared_Ok & Hr).
    apply bind_Ok in Hr as (ops & Hops%map_changes_rebuilt & Hr).
    apply bind_Ok in Hr as (phs & Hphs%map_changes_rebuilt & Hr).
    apply bind_Ok in Hr as (chs & Hchs%map_changes_rebuilt & Hr).
    apply bind_Ok in Hr as (tgs & Htgs%map_changes_rebuilt & [= <-]).
    constructor; cbn; try done. by exists sh.
  - intros [Hd Ha Hau Hst Hfd Ho (sh & Hx & Hsh) Hops Hphs Hchs Htgs].
    rewrite (proj2 (rebuild_documents_Ok s _ _) (conj Hd Ha)), bind_Ok_l.
    fold (numbered (audits s)). rewrite (proj2 (add_sizes_Ok _ _ 0 (sa_audits x) ltac:(by vm_compute)) Hau), bind_Ok_l.
    rewrite (proj2 (counted_iter _ _ _) Hst), bind_Ok_l, (proj2 (counted_iter _ _ _) Hfd), bind_Ok_l.
    rewrite Ho, bind_Ok_l, (proj2 (rebuild_shared_Ok _ _) Hsh), bind_Ok_l.
    rewrite (proj2 (map_changes_rebuilt _ _ _) Hops), bind_Ok_l, (proj2 (map_changes_rebuilt _ _ _) Hphs), bind_Ok_l.
    rewrite (proj2 (map_changes_rebuilt _ _ _) Hchs), bind_Ok_l, (proj2 (map_changes_rebuilt _ _ _) Htgs), bind_Ok_l.
    rewrite <-Hx. by destruct x.
Qed.

(** How a state gives way to the next: only the named documents and stages
    differ, the feed and the audit stream move at their ends. *)
Record transition (previous next : TenantState) (changed : gmap string (gset string)) (stages : gset string) : Prop := {
  tr_names : names_present previous next changed;
  tr_documents k : k ∉ changed_list changed → flat documents previous !! k = flat documents next !! k;
  tr_archived k : k ∉ changed_list changed →
    flat archived_documents previous !! k = flat archived_documents next !! k;
  tr_stages k : k ∉ stages → staged_transactions previous !! k = staged_transactions next !! k;
  tr_audits : audit_moves previous next;
  tr_feed : feed_moves previous next;
  tr_counters : counters_in_range previous;
  tr_next_counters : counters_in_range next;
}.

(** Each part of a state is as it was, or the sizes of its old and its new
    entries can be added. *)
Record addable (previous next : TenantState) (x y : SnapshotAccounting) : Prop := {
  ab_documents : sa_documents x + sa_documents y ≤ u64_max ∨ flat documents previous = flat documents next;
  ab_archived :
    sa_archived x + sa_archived y ≤ u64_max ∨ flat archived_documents previous = flat archived_documents next;
  ab_staged : sa_staged x + sa_staged y ≤ u64_max ∨ staged_transactions previous = staged_transactions next;
  ab_feed : sa_feed x + sa_feed y ≤ u64_max ∨ commits (change_feed previous) = commits (change_feed next);
  ab_operations : sa_operations x + sa_operations y ≤ u64_max ∨
    rc_operations (recovery_control previous) = rc_operations (recovery_control next);
  ab_phases : sa_phases x + sa_phases y ≤ u64_max ∨
    rc_phases (recovery_control previous) = rc_phases (recovery_control next);
  ab_completions : sa_completions x + sa_completions y ≤ u64_max ∨
    rc_completion_history (recovery_control previous) = rc_completion_history (recovery_control next);
  ab_targets : sa_targets x + sa_targets y ≤ u64_max ∨
    rc_targets (recovery_control previous) = rc_targets (recovery_control next);
  ab_collections sh sh' : sa_shared x = Some sh → sa_shared y = Some sh' →
    sh_collections sh + sh_collections sh' ≤ u64_max ∨ collections previous = collections next;
}.

Context (previous next : TenantState) (changed : gmap string (gset string)) (stages : gset string).

Lemma update_shared_collections sh :
  counters_in_range previous → counters_in_range next → shared_accounts previous sh →
  tracked collection_header_bytes (collections previous) (collections next)
    (cs ← try_fold (update_collection next) (sh_collections sh) (map_iter (collections previous));
     try_fold (add_collection previous) cs (map_iter (collections next))).
Proof.
  intros Hcp Hcn [_ _ _ (Hs & -> & Hb)]. by apply update_collections_tracked.
Qed.

Lemma update_policy sh : encoded_len (policy previous) = Ok (sh_policy sh) →
  (if ptr_policy previous next then Ok (sh_policy sh) else encoded_len (policy next)) = encoded_len (policy next).
Proof. intros Hp. destruct (ptr_policy previous next) eqn:He; [|done]. by rewrite <-(ptr_policy_eq _ _ He). Qed.

Lemma update_lineage sh : lineage_bytes (restore_lineage previous) = Ok (sh_lineage sh) →
  (if ptr_lineage previous next then Ok (sh_lineage sh) else lineage_bytes (restore_lineage next)) =
  lineage_bytes (restore_lineage next).
Proof. intros Hp. destruct (ptr_lineage previous next) eqn:He; [|done]. by rewrite <-(ptr_lineage_eq _ _ He). Qed.

Lemma update_control sh : control_sizes (lifecycle_control previous) = Ok (shared_control sh) →
  (if match lifecycle_control previous, lifecycle_control next with
      | Some _, Some _ => ptr_control previous next
      | None, None => true
      | _, _ => false
      end then Ok (shared_control sh) else control_sizes (lifecycle_control next)) =
  control_sizes (lifecycle_control next).
Proof.
  intros Hp. destruct (lifecycle_control previous) eqn:Ho, (lifecycle_control next) eqn:Hn; try done.
  destruct (ptr_control previous next) eqn:He; [|done]. apply ptr_control_eq in He. congruence.
Qed.

Lemma update_shared_eq sh : shared_accounts previous sh →
  update_shared sh previous next =
  (p ← encoded_len (policy next);
   lineage ← lineage_bytes (restore_lineage next);
   control ← control_sizes (lifecycle_control next);
   cs ← (cs ← try_fold (update_collection next) (sh_collections sh) (map_iter (collections previous));
         try_fold (add_collection previous) cs (map_iter (collections next)));
   Ok {| sh_policy := p; sh_lineage := lineage; sh_control_header := co_header control;
         sh_control_records := co_records control; sh_collections := cs; sh_completion := co_completion control |}).
Proof.
  intros [Hp Hl Hc _]. unfold update_shared. rewrite (update_policy sh Hp), (update_lineage sh Hl).
  cbv zeta. fold (shared_control sh). rewrite (update_control sh Hc).
  destruct (encoded_len (policy next)) as [?|]; [|done]. rewrite !bind_Ok_l.
  destruct (lineage_bytes (restore_lineage next)) as [?|]; [|done]. rewrite !bind_Ok_l.
  destruct (control_sizes (lifecycle_control next)) as [?|]; [|done]. rewrite !bind_Ok_l.
  destruct (try_fold (update_collection next) _ _) as [?|]; [|done]. rewrite !bind_Ok_l.
  by destruct (try_fold (add_collection previous) _ _) as [?|].
Qed.

Lemma update_shared_sound sh sh' :
  counters_in_range previous → counters_in_range next → shared_accounts previous sh →
  update_shared sh previous next = Ok sh' → shared_accounts next sh'.
Proof.
  intros Hcp Hcn Hsh. pose proof (update_shared_collections sh Hcp Hcn Hsh) as Ht.
  rewrite (update_shared_eq sh Hsh). intros Hr. apply bind_Ok in Hr as (p & Hp & Hr).
  apply bind_Ok in Hr as (l & Hl & Hr). apply bind_Ok in Hr as (c & Hc & Hr). apply bind_Ok in Hr as (cs & Hcs & [= <-]).
  constructor; cbn; [done..|by destruct c|]. eapply tracked_sound; [apply Hsh|exact Ht|exact Hcs].
Qed.

Lemma update_shared_complete sh sh' :
  counters_in_range previous → counters_in_range next → shared_accounts previous sh →
  shared_accounts next sh' →
  sh_collections sh + sh_collections sh' ≤ u64_max ∨ collections previous = collections next →
  update_shared sh previous next = Ok sh'.
Proof.
  intros Hcp Hcn Hsh Hn Hle. pose proof (update_shared_collections sh Hcp Hcn Hsh) as Ht.
  rewrite (update_shared_eq sh Hsh). destruct Hn as [Hp Hl Hc Hcs].
  rewrite Hp, bind_Ok_l, Hl, bind_Ok_l, Hc, bind_Ok_l.
  rewrite (tracked_complete _ _ _ _ _ _ (sa_has_collections _ _ Hsh) Hcs Hle Ht), bind_Ok_l. by destruct sh'.
Qed.

Lemma update_other x :
  other previous = Ok (sa_archives x, sa_activations x, sa_retirements x) →
  (if ptr_archives previous next && ptr_activations previous next && ptr_retirements previous next
   then Ok (sa_archives x, sa_activations x, sa_retirements x) else other next) = other next.
Proof.
  intros Ho. destruct (ptr_archives previous next && _ && _) eqn:He; [|done].
  apply andb_true_iff in He as [[Ha%ptr_archives_eq Hv%ptr_activations_eq]%andb_true_iff Hr%ptr_retirements_eq].
  rewrite <-Ho. unfold other. by rewrite Ha, Hv, Hr.
Qed.

(** The loop over the changed documents, part by part. *)
Lemma update_documents_Ok x d a :
  transition previous next changed stages → accounts previous x →
  try_fold (update_documents previous next) (sa_documents x, sa_archived x) (map_iter changed) = Ok (d, a) ↔
  try_fold (part_step previous next documents document_part) (sa_documents x) (changed_list changed) = Ok d ∧
  try_fold (part_step previous next archived_documents archived_part) (sa_archived x) (changed_list changed) = Ok a.
Proof. intros Htr Hx. rewrite update_documents_flat by apply Htr. apply pair_fold. Qed.

Lemma documents_tracked x : transition previous next changed stages → accounts previous x →
  tracked document_part (flat documents previous) (flat documents next)
    (try_fold (part_step previous next documents document_part) (sa_documents x) (changed_list changed)).
Proof. intros Htr [(Hs & -> & Hb) _ _ _ _ _ _ _ _ _ _]. apply part_tracked; [apply Htr|done..]. Qed.

Lemma archived_tracked x : transition previous next changed stages → accounts previous x →
  tracked archived_part (flat archived_documents previous) (flat archived_documents next)
    (try_fold (part_step previous next archived_documents archived_part) (sa_archived x) (changed_list changed)).
Proof. intros Htr [_ (Hs & -> & Hb) _ _ _ _ _ _ _ _ _]. apply part_tracked; [apply Htr|done..]. Qed.

Lemma stages_tracked x : transition previous next changed stages → accounts previous x →
  tracked stage_size (staged_transactions previous) (staged_transactions next)
    (try_fold (update_stage previous next) (sa_staged x) (set_iter stages)).
Proof. intros Htr [_ _ _ (Hs & -> & Hb) _ _ _ _ _ _ _]. apply update_stages_tracked; [apply Htr|done..]. Qed.

Lemma feed_tracked x : transition previous next changed stages → accounts previous x →
  tracked feed_size (commits (change_feed previous)) (commits (change_feed next)) (update_feed previous next (sa_feed x)).
Proof. intros Htr [_ _ _ _ (Hs & -> & Hb) _ _ _ _ _ _]. apply update_feed_tracked; [apply Htr|done..]. Qed.

Lemma counted_changes {V} `{EqDecision V} (f : string → V → Result N) (m n : gmap string V) t :
  counted f m t → tracked f m n (map_changes t m n f).
Proof. intros (Hs & -> & Hb). by apply map_changes_tracked. Qed.

Lemma updated_sound x y :
  transition previous next changed stages → accounts previous x →
  updated x previous next changed stages = Ok y → accounts next y.
Proof.
  intros Htr Hx. pose proof (ac_shared _ _ Hx) as (sh & Hxs & Hsh). unfold updated. rewrite Hxs. intros Hr.
  apply bind_Ok in Hr as (sh' & Hsh' & Hr). apply update_shared_sound in Hsh'; [|apply Htr..|done].
  apply bind_Ok in Hr as ([d a] & Hda & Hr). apply (update_documents_Ok x) in Hda as [Hd Ha]; [|done..].
  apply bind_Ok in Hr as (st & Hst & Hr). apply bind_Ok in Hr as (au & Hau & Hr).
  rewrite (proj1 (proj2 (ac_audits _ _ Hx))) in Hau. apply update_audits_Ok in Hau;
    [|apply Htr|apply Hx|rewrite <-(proj1 (proj2 (ac_audits _ _ Hx))); apply Hx].
  apply bind_Ok in Hr as (fd & Hfd & Hr). rewrite (update_other x) in Hr by apply Hx.
  apply bind_Ok in Hr as ([[o1 o2] o3] & Ho & Hr). apply bind_Ok in Hr as (ops & Hops & Hr).
  apply bind_Ok in Hr as (phs & Hphs & Hr). apply bind_Ok in Hr as (chs & Hchs & Hr).
  apply bind_Ok in Hr as (tgs & Htgs & [= <-]). constructor; cbn; try done; [..|by exists sh'| | | |].
  all: eapply tracked_sound; [apply Hx| |done].
  all: try (apply counted_changes, Hx).
  - by apply documents_tracked.
  - by apply archived_tracked.
  - by apply stages_tracked.
  - by apply feed_tracked.
Qed.

Lemma updated_complete x y :
  transition previous next changed stages → accounts previous x → accounts next y → addable previous next x y →
  updated x previous next changed stages = Ok y.
Proof.
  intros Htr Hx Hy Hadd. pose proof (ac_shared _ _ Hx) as (sh & Hxs & Hsh).
  pose proof (ac_shared _ _ Hy) as (sh' & Hys & Hsh'). destruct Hadd as [? ? ? ? ? ? ? ? Hadd].
  specialize (Hadd sh sh' Hxs Hys).
  unfold updated. rewrite Hxs, (update_shared_complete sh sh'), bind_Ok_l by (apply Htr || done).
  rewrite (proj2 (update_documents_Ok x (sa_documents y) (sa_archived y) Htr Hx)), bind_Ok_l.
  2: { split.
       - eapply (tracked_complete document_part (flat documents previous)); [apply Hx|apply Hy|done|by apply documents_tracked].
       - eapply (tracked_complete archived_part (flat archived_documents previous)); [apply Hx|apply Hy|done|by apply archived_tracked]. }
  rewrite (tracked_complete _ _ _ _ _ _ (ac_staged _ _ Hx) (ac_staged _ _ Hy) ltac:(done) (stages_tracked x Htr Hx)), bind_Ok_l.
  rewrite (proj1 (proj2 (ac_audits _ _ Hx))), (proj2 (update_audits_Ok previous next (sa_audits y) (tr_audits _ _ _ _ Htr)
    (proj1 (ac_audits _ _ Hx)) ltac:(rewrite <-(proj1 (proj2 (ac_audits _ _ Hx))); apply Hx)) (ac_audits _ _ Hy)), bind_Ok_l.
  rewrite (tracked_complete _ _ _ _ _ _ (ac_feed _ _ Hx) (ac_feed _ _ Hy) ltac:(done) (feed_tracked x Htr Hx)), bind_Ok_l.
  rewrite (update_other x) by apply Hx. rewrite (ac_other _ _ Hy), bind_Ok_l.
  rewrite (tracked_complete _ _ _ _ _ _ (ac_operations _ _ Hx) (ac_operations _ _ Hy) ltac:(done) (counted_changes _ _ _ _ (ac_operations _ _ Hx))), bind_Ok_l.
  rewrite (tracked_complete _ _ _ _ _ _ (ac_phases _ _ Hx) (ac_phases _ _ Hy) ltac:(done) (counted_changes _ _ _ _ (ac_phases _ _ Hx))), bind_Ok_l.
  rewrite (tracked_complete _ _ _ _ _ _ (ac_completions _ _ Hx) (ac_completions _ _ Hy) ltac:(done) (counted_changes _ _ _ _ (ac_completions _ _ Hx))), bind_Ok_l.
  rewrite (tracked_complete _ _ _ _ _ _ (ac_targets _ _ Hx) (ac_targets _ _ Hy) ltac:(done) (counted_changes _ _ _ _ (ac_targets _ _ Hx))), bind_Ok_l.
  rewrite <-Hys. by destruct y.
Qed.
End correct.

(** C20. Carrying the snapshot accounting from one published state to the next
    gives the accounting a rebuild of the next state gives: an update that
    succeeds returns exactly the rebuilt sizes, and where the next state can be
    rebuilt and the sums stay within the machine range the update succeeds. *)
Theorem updated_equals_rebuild `{Sha256} `{CompletedMetadata} `{Sharing} `{!SharingLaws}
    (previous next : TenantState) (changed : gmap string (gset string)) (stages : gset string)
    (x y : SnapshotAccounting) :
  transition previous next changed stages → rebuild previous = Ok x →
  (updated x previous next changed stages = Ok y → rebuild next = Ok y) ∧
  (rebuild next = Ok y → addable previous next x y → updated x previous next changed stages = Ok y).
Proof.
  intros Htr Hx%rebuild_Ok. split.
  - intros Hu. apply rebuild_Ok. by eapply updated_sound.
  - intros Hy%rebuild_Ok Hadd. by apply updated_complete.
Qed.

(** *** A concrete transition *)

Module AccountingSample.
#[export] Instance sha : Sha256 := Sample.sha.
#[export] Instance completed : CompletedMetadata := λ _ _, fail Corruption "no pending change".

#[export] Instance ScalarType_eq_dec : EqDecision ScalarType.
Proof. solve_decision. Defined.
#[export] Instance Analyzer_eq_dec : EqDecision Analyzer.
Proof. solve_decision. Defined.
#[export] Instance IndexField_eq_dec : EqDecision IndexField.
Proof. solve_decision. Defined.
#[export] Instance IndexDefinition_eq_dec : EqDecision IndexDefinition.
Proof. solve_decision. Defined.
#[export] Instance CollectionDefinition_eq_dec : EqDecision CollectionDefinition.
Proof. solve_decision. Defined.

(** Pointers that are equal for equal definitions and for empty parts. *)
#[export] Instance sharing : Sharing := {|
  ptr_policy _ _ := false;
  ptr_lineage s t := bool_decide (restore_lineage s = [] ∧ restore_lineage t = []);
  ptr_control _ _ := false;
  ptr_definition c d := bool_decide (definition c = definition d);
  ptr_commits _ _ := false;
  ptr_archives s t := bool_decide (history_archives s = ∅ ∧ history_archives t = ∅);
  ptr_activations s t := bool_decide (schema_activations s = ∅ ∧ schema_activations t = ∅);
  ptr_retirements s t := bool_decide (retirements s = ∅ ∧ retirements t = ∅);
|}.
#[export] Instance sharing_laws : SharingLaws.
Proof. split; intros s t He; try done; apply bool_decide_eq_true_1 in He; [|done|..]; by destruct He as [-> ->]. Qed.

(** One document joins, which widens the epoch of its collection. *)
Definition collection (epoch : N) (docs : gmap string DocumentSlot) : CollectionState :=
  {| definition := ApplySample.definition "docs" Mutable; data_epoch := epoch; documents := docs;
     archived_documents := ∅; archived_document_bytes := 0 |}.
Definition slot : DocumentSlot := Stored RestoreSample.descriptor.
Definition retention : AuditRetentionState :=
  {| stream_id := 5; au_next_sequence := 2; pruned_before := 0; hot_bytes := 200; archive_bytes := 0;
     archive_segments := 0; draining := false; archive_head := None |}.
Definition previous : TenantState := set_collections {["docs" := collection 9 {["a" := slot]}]} RestoreSample.state.
Definition next : TenantState :=
  set_audit_retention retention (set_audits [Sample.event; Sample.event]
    (set_change_feed {| next_sequence := 3; commits := {[2 := RestoreSample.commit]}; event_count := 1;
                        encoded_commit_bytes := 90 |}
      (set_collections {["docs" := collection 10 {["a" := slot; "b" := slot]}]} RestoreSample.state))).
Definition changed : gmap string (gset string) := {["docs" := {["b"]}]}.


Definition no_accounting : SnapshotAccounting :=
  {| sa_shared := None; sa_documents := 0; sa_archived := 0; sa_audits := 0; sa_staged := 0; sa_feed := 0;
     sa_archives := 0; sa_activations := 0; sa_retirements := 0; sa_operations := 0; sa_phases := 0;
     sa_targets := 0; sa_completions := 0 |}.
Definition old_sizes : SnapshotAccounting := Eval vm_compute in
  match rebuild previous with Ok x => x | Err _ => no_accounting end.
Definition new_sizes : SnapshotAccounting := Eval vm_compute in
  match rebuild next with Ok x => x | Err _ => no_accounting end.
End AccountingSample.

#[local] Existing Instances AccountingSample.sha AccountingSample.completed AccountingSample.sharing
  AccountingSample.sharing_laws.

Lemma sample_transition :
  transition AccountingSample.previous AccountingSample.next AccountingSample.changed ∅.
Proof.
  assert (Hf : ∀ {V} (part : CollectionState → gmap string V) k,
    (∀ id, id ≠ "b" → part (AccountingSample.collection 9 {["a" := AccountingSample.slot]}) !! id =
       part (AccountingSample.collection 10 {["a" := AccountingSample.slot; "b" := AccountingSample.slot]}) !! id) →
    k ∉ changed_list AccountingSample.changed →
    flat part AccountingSample.previous !! k = flat part AccountingSample.next !! k).
  { intros V part [n id] Hp Hk. rewrite !flat_lookup, changed_elem in *.
    change (collections AccountingSample.previous) with
      ({["docs" := AccountingSample.collection 9 {["a" := AccountingSample.slot]}]} : gmap string CollectionState).
    change (collections AccountingSample.next) with
      ({["docs" := AccountingSample.collection 10 {["a" := AccountingSample.slot; "b" := AccountingSample.slot]}]}
         : gmap string CollectionState).
    destruct (decide (n = "docs")) as [->|Hn]; [|by rewrite !lookup_singleton_ne].
    rewrite !lookup_singleton_eq. cbn [mbind option_bind]. apply Hp. intros ->. apply Hk.
    exists {["b"]}. split; [apply lookup_singleton_eq|set_solver]. }
  split.
  - intros n ids Hn. unfold AccountingSample.changed in Hn. apply lookup_singleton_Some in Hn as [<- <-].
    split; eexists; reflexivity.
  - intros k. apply Hf. intros id Hid. cbn [AccountingSample.collection documents].
    destruct (decide (id = "a")) as [->|Ha]; [by rewrite lookup_singleton_eq, lookup_insert_eq|].
    by rewrite lookup_singleton_ne, lookup_insert_ne, lookup_singleton_ne.
  - intros k. by apply Hf.
  - done.
  - split; vm_compute; try done; split; done.
  - assert (Ho : commits (change_feed AccountingSample.previous) = {[1 := RestoreSample.commit]}) by reflexivity.
    assert (Hn : commits (change_feed AccountingSample.next) = {[2 := RestoreSample.commit]}) by reflexivity.
    split; rewrite Ho, Hn.
    + intros k c d [<- _]%lookup_singleton_Some [? _]%lookup_singleton_Some. done.
    + intros k c j d [<- _]%lookup_singleton_Some _ [<- _]%lookup_singleton_Some. done.
    + intros k c j d [<- _]%lookup_singleton_Some _ [<- _]%lookup_singleton_Some. done.
  - intros n c Hc. change (collections AccountingSample.previous) with
      ({["docs" := AccountingSample.collection 9 {["a" := AccountingSample.slot]}]} : gmap string CollectionState) in Hc.
    apply lookup_singleton_Some in Hc as [_ <-]. vm_compute. done.
  - intros n c Hc. change (collections AccountingSample.next) with
      ({["docs" := AccountingSample.collection 10 {["a" := AccountingSample.slot; "b" := AccountingSample.slot]}]}
         : gmap string CollectionState) in Hc.
    apply lookup_singleton_Some in Hc as [_ <-]. vm_compute. done.
Qed.

Lemma updated_equals_rebuild_witness :
  updated AccountingSample.old_sizes AccountingSample.previous AccountingSample.next AccountingSample.changed ∅ =
    Ok AccountingSample.new_sizes.
Proof.
  assert (Ho : rebuild AccountingSample.previous = Ok AccountingSample.old_sizes) by (vm_compute; reflexivity).
  assert (Hn : rebuild AccountingSample.next = Ok AccountingSample.new_sizes) by (vm_compute; reflexivity).
  assert (Ha : addable AccountingSample.previous AccountingSample.next AccountingSample.old_sizes AccountingSample.new_sizes)
    by (split; [left; vm_compute; discriminate..|intros sh sh' Hs Hs'; injection Hs as <-; injection Hs' as <-; left; vm_compute; discriminate]).
  exact (proj2 (updated_equals_rebuild AccountingSample.previous AccountingSample.next AccountingSample.changed ∅
    AccountingSample.old_sizes AccountingSample.new_sizes sample_transition Ho) Hn Ha).
Defined.
