(* ===== verification/Capacity.v ===== *)
(** * The accounting and the snapshot stream

    Composes src/crates/kasumi-engine/src/accounting.rs (module [Accounting])
    with src/crates/kasumi-engine/src/snapshot_codec.rs ([Snapshot], [Restore])
    and the heads of the permanent histories ([Permanent]): the length of the
    stream the codec writes for a state is what the accounting charges, which
    includes the staged terminals, and the rows of the receipts, the target
    resolutions and the backup bindings, which have budgets of their own. *)

From S2P Require Import Prelude Json Types Digest State Apply ChangeFeed Staging Ledger Meter.
From S2P Require Import Wire Receipts Snapshot Permanent Restore Accounting.

(** The rows of a history in a stream. *)
Definition row_bytes {Row} (f : Row → SnapshotRecord) (rows : list (Anyhow Row)) : N :=
  lsum (λ row, match row with Ok r => framed (f r) | Err _ => 0 end) rows.

Definition history_bytes `{HR : History ReceiptRow} `{HT : History TerminalRow} `{HS : History ResolutionRow}
    `{HB : History BindingRow} (h : Histories) : N :=
  row_bytes RReceipt (h_rows (hs_receipts h)) + row_bytes RTerminal (h_rows (hs_terminals h)) +
  row_bytes RTargetResolution (h_rows (hs_resolutions h)) + row_bytes RBackupBinding (h_rows (hs_bindings h)).

(** ** The length of a stream *)

Lemma frame_len r : str_len (frame_of r) = framed r.
Proof.
  unfold frame_of, frame, framed, FRAME_HEADER_BYTES. rewrite !str_len_app, be_bytes_len.
  unfold kind_byte. change (str_len (String _ "")) with 1. lia.
Qed.

Lemma written_len l : ∀ e e',
  st_fold (λ _, encode_record) tt l e = (e', Ok tt) →
  str_len (en_written e') = str_len (en_written e) + lsum framed l.
Proof.
  induction l as [|r l IH]; intros e e' He.
  - injection He as <-. rewrite lsum_nil. lia.
  - rewrite st_fold_cons in He. apply st_bind_Ok in He as (e1 & [] & Hr & He). apply IH in He as ->.
    apply encode_record_Ok in Hr as (_ & _ & _ & _ & _ & ->). cbn [en_written].
    rewrite str_len_app, frame_len, lsum_cons. lia.
Qed.

Section stream.
Context `{Sha256} `{Sha256Bytes} `{!Sha256Width}.
Context `{HR : History ReceiptRow} `{HT : History TerminalRow} `{HS : History ResolutionRow}
  `{HB : History BindingRow}.

Lemma stream_len resolver s h stream :
  write_with_resolver resolver s h = Ok stream →
  ∃ records, snapshot_records resolver s h = Ok records ∧ str_len stream = 64 + lsum framed records.
Proof.
  intros Hw. unfold write_with_resolver in Hw. do 5 (apply seq_Ok in Hw as [_ Hw]).
  destruct (encode_state resolver s h new_encoder) as [e [[]|]] eqn:He; [|done]. injection Hw as <-.
  apply encode_state_Ok in He as (records & Hr & He). exists records. split; [done|].
  unfold finish_encoder. rewrite !str_len_app, !be_bytes_len, sha256_bytes_len.
  rewrite (written_len _ _ _ He). change (str_len (en_written new_encoder)) with 8. lia.
Qed.

Lemma row_records_framed {Row} (f : Row → SnapshotRecord) rows rs :
  mapM id (row_items f rows) = Ok rs → lsum framed rs = row_bytes f rows.
Proof.
  intros (l & -> & ->)%row_records_Ok. unfold row_bytes. induction l as [|r l IH]; [done|].
  rewrite !fmap_cons, !lsum_cons, IH. done.
Qed.
End stream.

(** ** Sizes of lists of records *)

Lemma framed_vlen r : framed r = vlen (to_value r) + 9.
Proof. reflexivity. Qed.

Lemma document_record_Ok `{Sha256} name slot t :
  document_record name slot = Ok t →
  ∃ n, slot_document_bytes slot = Ok n ∧
    t + 4 = vlen (tagged "Document" (VArray [VString name; VNull])) + n + 9.
Proof.
  unfold document_record. intros Hd. apply bind_Ok in Hd as (base & [-> _]%encoded_vlen & Hd).
  apply bind_Ok in Hd as (n & Hn & Hd). apply bind_Ok in Hd as (b & Hb & [-> _]%framed_record_Ok).
  exists n. split; [by destruct (slot_document_bytes slot); simplify_eq/=|].
  unfold framing_with_document in Hb. apply ok_or_Ok, bind_Some in Hb as (x & Hx & [-> _]%checked_add_Some).
  unfold checked_sub in Hx. destruct (N.leb_spec 4 (vlen (tagged "Document" (VArray [VString name; VNull])))); [|discriminate].
  injection Hx as <-. lia.
Qed.

Lemma feed_item_Ok `{Sha256} key ir t :
  feed_item key ir = Ok t →
  let r := RChangeItem key (N.of_nat ir.1)
    {| w_collection := cr_collection ir.2; w_id := cr_id ir.2; w_document := None |} in
  match cr_document ir.2 with
  | None => t = framed r
  | Some slot => ∃ n, slot_document_bytes slot = Ok n ∧ t + 4 = framed r + n
  end.
Proof.
  unfold feed_item. intros Hf. apply bind_Ok in Hf as (b & (_ & -> & _)%record_size_Ok & Hf).
  destruct (cr_document ir.2) as [slot|]; [|by injection Hf as <-].
  apply bind_Ok in Hf as (n & Hn & Hf). exists n. split; [by destruct (slot_document_bytes slot); simplify_eq/=|].
  unfold framing_with_document in Hf. apply ok_or_Ok, bind_Some in Hf as (x & Hx & [-> _]%checked_add_Some).
  unfold checked_sub in Hx. destruct (4 <=? _) eqn:Hle in Hx; [|discriminate]. apply N.leb_le in Hle.
  injection Hx as <-. rewrite framed_vlen. lia.
Qed.

Lemma feed_size_Ok `{Sha256} key c n :
  feed_size key c = Ok n →
  Forall (sized (feed_item key)) (imap pair (records c)) ∧
  n = framed (RChange key (clear_records c)) + weights (feed_item key) (imap pair (records c)).
Proof.
  unfold feed_size. intros Hf. apply bind_Ok in Hf as (b & (_ & -> & Hle)%record_size_Ok & Hf).
  apply add_sizes_Ok in Hf as (Hs & -> & _); [done|]. unfold u64_max. lia.
Qed.

Lemma stage_size_Ok key t n :
  stage_size key t = Ok n →
  n = framed (RStage key (clear_chunks t)) +
      lsum framed ((λ ic, RStageChunk key ic.1 ic.2) <$> map_iter (chunks t)).
Proof.
  unfold stage_size. intros Hs. apply bind_Ok in Hs as (h & [-> Hle]%staged_header_Ok & Hs).
  apply add_sizes_Ok in Hs as (Hf & -> & _); [|unfold u64_max; lia].
  change (framed (RStage key (clear_chunks t))) with (vlen (stage_record key (clear_chunks t)) + 9). f_equal.
  induction Hf as [|a l Ha Hf IH]; [done|]. cbn [weights]. rewrite fmap_cons, lsum_cons, IH. f_equal.
  apply sized_weight in Ha. by apply record_size_Ok in Ha as (_ & -> & _).
Qed.

#[local] Opaque document_record record_size feed_size stage_size encoded_len framed.

Lemma record_framed r n : record_size r = Ok n → n = framed r.
Proof. by intros (_ & -> & _)%record_size_Ok. Qed.

Lemma weights_items {A E} (size : A → Result N) (item : A → result E SnapshotRecord) l rs :
  (∀ a r n, a ∈ l → item a = Ok r → size a = Ok n → n = framed r) →
  Forall (sized size) l → mapM item l = Ok rs → weights size l = lsum framed rs.
Proof.
  intros Hi Hs Hm%mapM_Ok. revert Hi Hs. induction Hm as [|a r l rs Ha Hm IH]; intros Hi Hs; [done|].
  apply Forall_cons in Hs as [Hsa Hs]. cbn [weights]. rewrite lsum_cons, IH; [|intros b x n Hb; apply Hi; by right|done].
  f_equal. apply (Hi a); [by left|done|by apply sized_weight].
Qed.

Lemma weights_records {A} (size : A → Result N) (mk : A → SnapshotRecord) l :
  (∀ a n, size a = Ok n → n = framed (mk a)) → Forall (sized size) l → weights size l = lsum framed (mk <$> l).
Proof.
  intros Hi Hs. induction Hs as [|a l Ha Hs IH]; [done|]. cbn [weights]. rewrite fmap_cons, lsum_cons, IH.
  f_equal. by apply Hi, sized_weight.
Qed.

Lemma add_records {A} (size : A → Result N) (mk : A → SnapshotRecord) l t t' :
  (∀ a n, size a = Ok n → n = framed (mk a)) → t ≤ u64_max → add_sizes size t l = Ok t' →
  t' = t + lsum framed (mk <$> l) ∧ t' ≤ u64_max.
Proof.
  intros Hi Ht Ha. apply add_sizes_Ok in Ha as (Hs & -> & Hb); [|done]. by rewrite <-(weights_records size mk).
Qed.

Lemma counted_records {K V} `{Countable K} (f : K → V → Result N) (mk : K * V → SnapshotRecord) m l t :
  (∀ k v n, f k v = Ok n → n = framed (mk (k, v))) → l ≡ₚ map_to_list m → counted f m t →
  t = lsum framed (mk <$> l).
Proof.
  intros Hi Hl (Hs & -> & _). unfold mass. rewrite <-Hl. apply weights_records.
  - intros [k v] n. apply Hi.
  - by apply (all_sized_list f m).
Qed.

(** ** Documents *)

Section documents.
Context `{Sha256} (resolver : option (StoredDocument → result string Document)).

(** A loaded document has the size its slot records. *)
Lemma loaded_size slot d n :
  load_owned resolver slot = Ok d → slot_document_bytes slot = Ok n → n = vlen (to_value d).
Proof.
  destruct slot as [p|p]; unfold load_owned, slot_document_bytes.
  - intros [= ->] Hn. destruct (fingerprint d) as [[k x]|] eqn:Hf; [|discriminate]. injection Hn as <-.
    apply fingerprint_Ok in Hf as (-> & _ & _). reflexivity.
  - intros Hl [= <-]. apply bind_Ok in Hl as (r & _ & Hl). destruct (load_stored r p) as [doc|] eqn:Hld; [|discriminate].
    injection Hl as ->. unfold load_stored in Hld. apply seq_Ok in Hld as [_ Hld].
    apply bind_Ok in Hld as (doc & _ & Hld). apply seq_Ok in Hld as [_ Hld]. apply bind_Ok in Hld as (f & _ & Hld).
    apply seq_Ok in Hld as [_ Hld]. apply bind_Ok in Hld as ([g x] & Hg & Hld). apply seq_Ok in Hld as [Hr [= ->]].
    apply fingerprint_Ok in Hg as (-> & _ & _). unfold reject_if in Hr. cbn [fst] in Hr.
    destruct (N.eqb_spec (str_len (to_json d)) (s_document_bytes p)) as [<-|]; [reflexivity|discriminate].
Qed.

Lemma document_framed name slot r n :
  document_item resolver (name, slot) = Ok r → document_record name slot = Ok n → n = framed r.
Proof.
  unfold document_item. cbn [fst snd]. intros Hr (k & Hk & Hn)%document_record_Ok.
  destruct (load_owned resolver slot) as [d|] eqn:Hd; [|discriminate]. injection Hr as <-.
  rewrite (loaded_size slot d k Hd Hk) in Hn. rewrite framed_vlen.
  change (to_value (RDocument name d)) with (tagged "Document" (VArray [VString name; to_value d])).
  unfold tagged in *. rewrite !vlen_pair, !vlen_array, !lsum_cons, !lsum_nil in *.
  change (vlen VNull) with 4 in Hn. unfold len in *. cbn [length] in *. lia.
Qed.

Lemma change_framed key ir r n :
  change_item resolver (key, N.of_nat ir.1, ir.2) = Ok r → feed_item key ir = Ok n → n = framed r.
Proof.
  unfold change_item. cbn [fst snd]. intros Hr Hn%feed_item_Ok. cbv zeta in Hn.
  destruct (wire_change resolver ir.2) as [w|] eqn:Hw; [|discriminate]. injection Hr as <-.
  unfold wire_change in Hw. apply bind_Ok in Hw as (doc & Hd & [= <-]).
  destruct (cr_document ir.2) as [slot|]; [|injection Hd as <-; done].
  destruct Hn as (k & Hk & Hn). destruct (load_owned resolver slot) as [d|] eqn:Hl; [|discriminate]. injection Hd as <-.
  rewrite (loaded_size slot d k Hl Hk) in Hn. rewrite !framed_vlen in *.
  assert (Hv : ∀ o, vlen (to_value (RChangeItem key (N.of_nat ir.1) {| w_collection := cr_collection ir.2; w_id := cr_id ir.2; w_document := o |})) =
    vlen (tagged "ChangeItem" (VArray [to_value key; to_value (N.of_nat ir.1);
      VObject [("collection", VString (cr_collection ir.2)); ("id", VString (cr_id ir.2)); ("document", to_value o)]])))
    by reflexivity.
  rewrite !Hv in *. unfold tagged in *.
  rewrite !vlen_pair, !vlen_array, !lsum_cons, !lsum_nil, !vlen_object, !lsum_cons, !lsum_nil in *. cbn [fst snd] in *.
  change (vlen (to_value None)) with 4 in Hn. change (to_value (Some d)) with (to_value d).
  unfold len in *. cbn [length] in *. lia.
Qed.
End documents.

(** ** Parts made of several kinds of record *)

Lemma lsum_bind {A} (g : A → list SnapshotRecord) l :
  lsum framed (a ← l; g a) = lsum (λ a, lsum framed (g a)) l.
Proof. induction l as [|a l IH]; [done|]. by rewrite bind_cons, lsum_app, lsum_cons, IH. Qed.

Lemma lsum_add {A} (f g : A → N) l : lsum (λ a, f a + g a) l = lsum f l + lsum g l.
Proof. induction l as [|a l IH]; [done|]. rewrite !lsum_cons, IH. lia. Qed.

Lemma weights_lsum {A} (size : A → Result N) l : weights size l = lsum (weight size) l.
Proof. induction l as [|a l IH]; [done|]. by rewrite lsum_cons, <-IH. Qed.

(** Staged transactions: their headers and their chunks. *)
Lemma stages_framed s t :
  counted stage_size (staged_transactions s) t →
  t = lsum framed ((λ kt, RStage kt.1 (clear_chunks kt.2)) <$> map_iter (staged_transactions s)) +
      lsum framed (kt ← map_iter (staged_transactions s);
                   (λ ic, RStageChunk kt.1 ic.1 ic.2) <$> map_iter (chunks kt.2)).
Proof.
  intros (Hs & -> & _). unfold mass. rewrite <-map_iter_perm. rewrite lsum_bind, lsum_fmap, <-lsum_add, weights_lsum.
  apply lsum_ext. intros [k v] Hk%elem_of_map_iter. cbn [fst snd]. apply stage_size_Ok. apply (sized_weight (stage_size k)).
  by apply Hs.
Qed.

(** Commits: their headers and their records. *)
Lemma mapM_compose {A B E} (f : B → result E SnapshotRecord) (g : A → B) (l : list A) :
  mapM f (g <$> l) = mapM (λ a, f (g a)) l.
Proof. induction l as [|x l IH]; [done|]. rewrite fmap_cons. cbn. by rewrite IH. Qed.

Lemma mapM_bind {A B E} (f : B → result E SnapshotRecord) (g : A → list B) (l : list A) rs :
  mapM f (a ← l; g a) = Ok rs →
  ∃ rss, Forall2 (λ a rs, mapM f (g a) = Ok rs) l rss ∧ lsum framed rs = lsum (lsum framed) rss.
Proof.
  revert rs. induction l as [|a l IH]; intros rs Hm.
  - exists []. injection Hm as <-. done.
  - rewrite bind_cons in Hm. apply mapM_Ok, Forall2_app_inv_l in Hm as (r1 & r2 & H1%mapM_Ok & H2%mapM_Ok & ->).
    apply IH in H2 as (rss & Hf & Hl). exists (r1 :: rss). split; [by constructor|]. by rewrite lsum_app, lsum_cons, Hl.
Qed.

Lemma commits_framed `{Sha256} resolver s t rs :
  counted feed_size (commits (change_feed s)) t → change_records resolver s = Ok rs →
  t = lsum framed ((λ ic, RChange ic.1 (clear_records ic.2)) <$> map_iter (commits (change_feed s))) +
      lsum framed rs.
Proof.
  intros (Hs & -> & _) Hr. unfold change_records in Hr. apply mapM_bind in Hr as (rss & Hf & ->).
  unfold mass. rewrite <-map_iter_perm.
  assert (Hall : Forall (λ ic, sized (feed_size ic.1) ic.2) (map_iter (commits (change_feed s)))).
  { apply Forall_forall. intros [k c] Hk%elem_of_map_iter. by apply Hs. }
  clear Hs. induction Hf as [|[k c] r l rss Hr Hf IH]; [done|].
  apply Forall_cons in Hall as [Hc Hall]. cbn [weights]. rewrite fmap_cons, !lsum_cons, IH by done. cbn [fst snd] in *.
  apply sized_weight in Hc. change (weight (entry_size feed_size) (k, c)) with (weight (feed_size k) c).
  apply feed_size_Ok in Hc as [Hi ->]. rewrite imap_pair, mapM_compose in Hr.
  rewrite (weights_items (feed_item k) (λ ir, change_item resolver (k, N.of_nat ir.1, ir.2)) _ r); [lia| |done|done].
  intros ir x n _. apply change_framed.
Qed.

(** ** The header *)

Lemma vlen_field l k v l' w :
  vlen (VObject (l ++ (k, v) :: l')) + vlen w = vlen (VObject (l ++ (k, w) :: l')) + vlen v.
Proof.
  rewrite !vlen_object, !lsum_app, !lsum_cons. unfold len. rewrite !length_app. cbn [fst snd length]. lia.
Qed.

(** The metadata of a state with another policy and another control state. *)
Lemma metadata_len s p c p' c' :
  vlen (to_value (metadata_with_shared s p c)) + vlen (to_value p') + vlen (to_value c') =
  vlen (to_value (metadata_with_shared s p' c')) + vlen (to_value p) + vlen (to_value c).
Proof.
  assert (Hm : ∃ l1 l2 l3, ∀ p c, to_value (metadata_with_shared s p c) =
    VObject (l1 ++ ("lifecycle_control", to_value c) :: l2 ++ ("policy", to_value p) :: l3)).
  { set (l := match to_value (metadata_with_shared s default_policy None) with VObject l => l | _ => [] end).
    exists (take 11 l), (take 4 (drop 12 l)), (drop 17 l). intros p0 c0. reflexivity. }
  destruct Hm as (l1 & l2 & l3 & Hm). rewrite !Hm.
  pose proof (vlen_field l1 "lifecycle_control" (to_value c) (l2 ++ ("policy", to_value p) :: l3) (to_value c')).
  pose proof (vlen_field (l1 ++ ("lifecycle_control", to_value c') :: l2) "policy" (to_value p) l3 (to_value p')) as Hp.
  rewrite <-!app_assoc in Hp. cbn [app] in Hp. lia.
Qed.

Section header.
Context `{CompletedMetadata}.

Lemma control_sizes_Ok c x :
  control_sizes c = Ok x →
  co_header x = (λ c, vlen (to_value (control_header c))) <$> c ∧
  co_records x = lsum framed (from_option (λ c, (λ kv, RIntent kv.1 kv.2) <$> map_iter (intents c)) [] c) +
                 lsum framed (from_option (λ c, (λ kv, RControlChange kv.1 kv.2) <$> map_iter (control_changes c)) [] c).
Proof.
  destruct c as [c|]; [|by intros [= <-]]. unfold control_sizes. intros Hc.
  apply bind_Ok in Hc as (h & [-> _]%encoded_len_Ok & Hc). apply bind_Ok in Hc as (r & Hr & Hc).
  unfold control_record_bytes in Hr. apply bind_Ok in Hr as (t & Ht & Hr).
  apply (add_records _ (λ kv, RIntent kv.1 kv.2)) in Ht as [-> Hb]; [|intros; by apply record_framed|by vm_compute].
  apply (add_records _ (λ kv, RControlChange kv.1 kv.2)) in Hr as [-> _]; [|intros; by apply record_framed|done].
  destruct (pending_change c) as [id|]; [apply bind_Ok in Hc as (z & _ & [= <-])|injection Hc as <-];
    (split; [reflexivity|cbn [co_records from_option]; lia]).
Qed.

Lemma header_framed s sh n :
  shared_accounts s sh → header_bytes sh s = Ok n → n = framed (RHeader (metadata s)).
Proof.
  intros [Hp _ Hc _] Hh. apply encoded_len_Ok in Hp as [Hp _]. apply control_sizes_Ok in Hc as [Hc _].
  cbn [shared_control co_header] in Hc.
  unfold header_bytes in Hh. apply bind_Ok in Hh as (h0 & [-> _]%encoded_len_Ok & Hh).
  apply bind_Ok in Hh as (e & [-> _]%encoded_len_Ok & Hh). apply bind_Ok in Hh as (h1 & (Hle & -> & _)%change_Ok & Hh).
  apply bind_Ok in Hh as (h2 & H2 & [-> _]%framed_record_Ok). rewrite framed_vlen.
  pose proof (metadata_len s default_policy None (policy s) (control_header <$> lifecycle_control s)) as Hm.
  change (to_value (RHeader (metadata s))) with (tagged "Header" (to_value (metadata s))).
  change (str_len (to_json (RHeader (metadata_with_shared s default_policy None))))
    with (vlen (tagged "Header" (to_value (metadata_with_shared s default_policy None)))) in *.
  change (str_len (to_json default_policy)) with (vlen (to_value default_policy)) in *.
  change (str_len (to_json (policy s))) with (vlen (to_value (policy s))) in *.
  fold (metadata s) in Hm. unfold tagged in *. rewrite !vlen_pair in *.
  change (vlen (to_value None)) with 4 in Hm. rewrite Hc in H2. destruct (lifecycle_control s) as [c|]; cbn [fmap option_fmap option_map] in *.
  - apply change_Ok in H2 as (Hle' & -> & _).
    change (to_value (Some (control_header c))) with (to_value (control_header c)) in Hm.
    lia.
  - injection H2 as <-. change (vlen (to_value None)) with 4 in Hm. lia.
Qed.
End header.

(** ** The charge of a state *)

Section charge.
Context `{Sha256} `{CompletedMetadata} `{Sharing}.

(** What [bytes] adds up. *)
Lemma bytes_Ok x s sh n :
  sa_shared x = Some sh → bytes x s = Ok n →
  ∃ header, header_bytes sh s = Ok header ∧
    n = 64 + th_encoded_bytes (staged_terminal_head s) + header + sh_lineage sh + sh_collections sh +
        lsum framed (RActiveStage <$> set_iter (active_staged_transactions s)) + sh_control_records sh +
        lsum framed ((λ kt, RTarget kt.1 kt.2) <$> map_iter (target_lifecycle s)) +
        (sa_documents x + sa_archived x + sa_audits x + sa_staged x + sa_feed x + sa_archives x +
         sa_activations x + sa_retirements x + sa_operations x + sa_phases x + sa_targets x + sa_completions x).
Proof.
  intros Hx Hb. unfold bytes in Hb. rewrite Hx in Hb.
  apply bind_Ok in Hb as (t0 & (_ & -> & _)%change_Ok & Hb). rewrite bind_Ok_l in Hb.
  apply bind_Ok in Hb as (header & Hh & Hb). apply bind_Ok in Hb as (t1 & (_ & -> & _)%change_Ok & Hb).
  apply bind_Ok in Hb as (t2 & (_ & -> & _)%change_Ok & Hb). apply bind_Ok in Hb as (t3 & (_ & -> & Ht3)%change_Ok & Hb).
  apply bind_Ok in Hb as (t4 & Ha & Hb).
  apply (add_records _ RActiveStage) in Ha as [-> _]; [|intros; by apply record_framed|done].
  apply bind_Ok in Hb as (t5 & (_ & -> & Ht5)%change_Ok & Hb). apply bind_Ok in Hb as (t6 & Ha & Hb).
  apply (add_records _ (λ kt, RTarget kt.1 kt.2)) in Ha as [-> Ht6]; [|intros; by apply record_framed|done].
  apply add_sizes_Ok in Hb as (_ & -> & _); [|done]. exists header. split; [done|].
  assert (Hw : ∀ l, weights Ok l = lsum id l) by (induction l as [|a l IH]; [done|]; by rewrite lsum_cons, <-IH).
  rewrite Hw, !lsum_cons, lsum_nil. unfold id. lia.
Qed.

Lemma lineage_framed l n : lineage_bytes l = Ok n → n = lsum framed (imap (λ i l, RLineage (N.of_nat i) l) l).
Proof.
  unfold lineage_bytes. intros Hl. apply (add_records _ (λ il, RLineage (N.of_nat il.1) il.2)) in Hl as [-> _];
    [|intros; by apply record_framed|by vm_compute].
  by rewrite (imap_pair (λ i l, RLineage (N.of_nat i) l)).
Qed.

Lemma other_framed s a v r :
  other s = Ok (a, v, r) →
  a = lsum framed ((λ kv, RArchive kv.1 kv.2) <$> map_iter (history_archives s)) ∧
  v = lsum framed ((λ kv, RActivation kv.1 kv.2) <$> map_iter (schema_activations s)) ∧
  r = lsum framed ((λ kv, RRetirement kv.1 kv.2) <$> map_iter (retirements s)).
Proof.
  unfold other. intros Ho. apply bind_Ok in Ho as (a' & Ha & Ho). apply bind_Ok in Ho as (v' & Hv & Ho).
  apply bind_Ok in Ho as (r' & Hr & [= <- <- <-]).
  apply (add_records _ (λ kv, RArchive kv.1 kv.2)) in Ha as [-> _]; [|intros; by apply record_framed|by vm_compute].
  apply (add_records _ (λ kv, RActivation kv.1 kv.2)) in Hv as [-> _]; [|intros; by apply record_framed|by vm_compute].
  apply (add_records _ (λ kv, RRetirement kv.1 kv.2)) in Hr as [-> _]; [|intros; by apply record_framed|by vm_compute].
  done.
Qed.

Lemma documents_framed resolver s t rs :
  counted document_part (flat documents s) t → document_records resolver s = Ok rs → t = lsum framed rs.
Proof.
  intros (Hs & -> & _) Hr. unfold mass. rewrite <-flat_list_perm.
  eapply (weights_items _ (λ kv, document_item resolver (kv.1.1, kv.2))).
  - intros [[n id] v] r k _ Hi Hk. by eapply document_framed.
  - apply (all_sized_list _ (flat documents s)); [apply flat_list_perm|done].
  - rewrite <-Hr. unfold document_records. rewrite <-(mapM_compose (document_item resolver) (λ kv, (kv.1.1, kv.2))).
    f_equal. unfold flat_list. induction (map_iter (collections s)) as [|nc l IH]; [done|].
    rewrite !bind_cons, fmap_app, IH. f_equal. unfold map_values. by rewrite <-!list_fmap_compose.
Qed.

Lemma archived_framed s t :
  counted archived_part (flat archived_documents s) t →
  t = lsum framed (nc ← map_iter (collections s);
                   (λ ir, RArchived nc.1 ir.1 ir.2) <$> map_iter (archived_documents nc.2)).
Proof.
  intros Hc. apply (counted_records _ (λ kv, RArchived kv.1.1 kv.1.2 kv.2) _ (flat_list archived_documents s)) in Hc as ->.
  - f_equal. unfold flat_list. induction (map_iter (collections s)) as [|nc l IH]; [done|].
    rewrite !bind_cons, fmap_app, IH. f_equal. by rewrite <-list_fmap_compose.
  - intros k v n. apply record_framed.
  - apply flat_list_perm.
Qed.

Lemma audits_framed s t rs :
  audits_sized s ∧ t = audit_mass s ∧ t ≤ u64_max → audit_records s = Ok rs → t = lsum framed rs.
Proof.
  intros (Hs & -> & _) Hr. unfold audit_mass. eapply weights_items; [|done|exact Hr].
  intros ie r n _ Ha Hn. unfold audit_record in Ha. unfold audit_size in Hn.
  apply bind_Ok in Ha as (q & Hq & [= <-]). apply bind_Ok in Hn as (q' & Hq' & Hn).
  apply context_or_Ok in Hq. apply ok_or_Ok in Hq'. rewrite Hq in Hq'. injection Hq' as <-. by apply record_framed.
Qed.

Context `{HR : History ReceiptRow} `{HT : History TerminalRow} `{HS : History ResolutionRow}
  `{HB : History BindingRow}.

(** The bytes of all resident records, kind by kind. *)
Definition resident_charge (s : TenantState) (kinds : list N) : N :=
  lsum (λ kind, lsum framed (default [] (resident_records s kind None))) kinds.

Definition resident_kinds : list N := [0; 1; 2; 4; 6; 7; 8; 9; 11; 12; 13; 15; 16; 17; 18; 19; 20; 23].

Ltac resident r s K n := apply (resident_of r s n _ _ eq_refl eq_refl) in K as ->.

Lemma records_by_kind resolver s h records :
  snapshot_records resolver s h = Ok records →
  ∃ docs changes events,
    document_records resolver s = Ok docs ∧ change_records resolver s = Ok changes ∧ audit_records s = Ok events ∧
    lsum framed records =
      history_bytes h + resident_charge s resident_kinds + lsum framed docs + lsum framed changes + lsum framed events.
Proof.
  intros Hr. unfold snapshot_records in Hr.
  apply bind_Ok in Hr as (first & Hm%mapM_Ok & Hr). apply bind_Ok in Hr as (tr & Htr%row_records_framed & Hr).
  apply bind_Ok in Hr as (re & Hre%row_records_framed & Hr). apply bind_Ok in Hr as (co & Hco & Hr).
  apply bind_Ok in Hr as (bi & Hbi%row_records_framed & [= <-]). cbn [seq] in Hm.
  peel_kind Hm l0 K0. peel_kind Hm l1 K1. peel_kind Hm l2 K2. peel_kind Hm l3 K3. peel_kind Hm l4 K4.
  peel_kind Hm l5 K5. peel_kind Hm l6 K6. peel_kind Hm l7 K7. peel_kind Hm l8 K8. peel_kind Hm l9 K9.
  peel_kind Hm l10 K10. peel_kind Hm l11 K11. peel_kind Hm l12 K12. peel_kind Hm l13 K13. peel_kind Hm l14 K14.
  peel_kind Hm l15 K15. peel_kind Hm l16 K16. peel_kind Hm l17 K17. peel_kind Hm l18 K18. peel_kind Hm l19 K19.
  peel_kind Hm l20 K20. apply Forall2_nil_inv_l in Hm as ->.
  rewrite all_documents in K3. rewrite all_changes in K10. rewrite all_audits in K14. apply row_records_framed in K5.
  exists l3, l10, l14. split_and!; [done..|]. unfold history_bytes. rewrite <-K5, <-Htr, <-Hre, <-Hbi.
  resident resolver s K0 0. resident resolver s K1 1. resident resolver s K2 2. resident resolver s K4 4. resident resolver s K6 6. resident resolver s K7 7. resident resolver s K8 8.
  resident resolver s K9 9. resident resolver s K11 11. resident resolver s K12 12. resident resolver s K13 13. resident resolver s K15 15. resident resolver s K16 16.
  resident resolver s K17 17. resident resolver s K18 18. resident resolver s K19 19. resident resolver s K20 20. resident (None : option (StoredDocument → result string Document)) s Hco 23.
  unfold resident_charge, resident_kinds. rewrite !lsum_cons, lsum_nil. cbn [resident_records default from_option].
  cbn [concat]. rewrite !lsum_app, lsum_nil. unfold id. lia.
Qed.

Lemma counted_list {K V} `{OrdKey K} (f : K → V → Result N) (mk : K → V → SnapshotRecord) m t :
  (∀ k v n, f k v = Ok n → n = framed (mk k v)) → counted f m t →
  t = lsum framed ((λ kv, mk kv.1 kv.2) <$> map_iter m).
Proof. intros Hf. apply counted_records; [done|apply map_iter_perm]. Qed.

(** The resident kinds, in the order in which the accounting holds them. *)
Lemma resident_charged s x sh docs changes events resolver :
  accounts s x → sa_shared x = Some sh →
  document_records resolver s = Ok docs → change_records resolver s = Ok changes → audit_records s = Ok events →
  resident_charge s resident_kinds + lsum framed docs + lsum framed changes + lsum framed events =
    framed (RHeader (metadata s)) + sh_lineage sh + sh_collections sh +
    lsum framed (RActiveStage <$> set_iter (active_staged_transactions s)) + sh_control_records sh +
    lsum framed ((λ kt, RTarget kt.1 kt.2) <$> map_iter (target_lifecycle s)) +
    (sa_documents x + sa_archived x + sa_audits x + sa_staged x + sa_feed x + sa_archives x +
     sa_activations x + sa_retirements x + sa_operations x + sa_phases x + sa_targets x + sa_completions x).
Proof.
  intros [Hd Ha Hau Hst Hfd Ho (sh' & Hx & [_ Hl Hc Hcs]) Hops Hphs Hchs Htgs] Hsh Kd Kc Ke.
  rewrite Hsh in Hx. injection Hx as <-.
  apply (documents_framed resolver) with (rs := docs) in Hd; [|done].
  apply (commits_framed resolver) with (rs := changes) in Hfd; [|done].
  apply (audits_framed s) with (rs := events) in Hau; [|done].
  apply archived_framed in Ha. apply stages_framed in Hst. apply other_framed in Ho as (Ho1 & Ho2 & Ho3).
  apply lineage_framed in Hl. apply control_sizes_Ok in Hc as [_ Hc]. cbn [shared_control co_records] in Hc.
  apply (counted_list _ (λ k c, RCollection k (collection_header c))) in Hcs; [|intros ? ? ?; apply record_framed].
  apply (counted_list _ RRecoveryOperation) in Hops; [|intros ? ? ?; apply record_framed].
  apply (counted_list _ RRecoveryPhase) in Hphs; [|intros ? ? ?; apply record_framed].
  apply (counted_list _ RRecoveryCompletionHistory) in Hchs; [|intros ? ? ?; apply record_framed].
  apply (counted_list _ RRecoveryTarget) in Htgs; [|intros ? ? ?; apply record_framed].
  rewrite Hd, Hfd, Hau, Ha, Hst, Ho1, Ho2, Ho3, Hl, Hc, Hcs, Hops, Hphs, Hchs, Htgs.
  clear. unfold resident_charge, resident_kinds. rewrite !lsum_cons, lsum_nil.
  cbn [resident_records default from_option selected_collections]. unfold id. rewrite lsum_cons, lsum_nil.
  destruct (lifecycle_control s) as [c|]; cbn [from_option]; lia.
Qed.
End charge.

(** A state that fits leaves its headroom free. *)
Lemma fits_Ok `{Sha256} `{CompletedMetadata} `{Sharing} x s n :
  bytes x s = Ok n → fits x s = Ok true →
  ∃ headroom, snapshot_headroom s = Ok headroom ∧
    n + (20 - digits (revision s)) + headroom ≤ max_snapshot_bytes (limits s).
Proof.
  intros Hn Hf. unfold fits in Hf. rewrite Hn, bind_Ok_l in Hf. unfold fits_bytes in Hf.
  apply bind_Ok in Hf as (headroom & Hh & [= Hf]). exists headroom. split; [done|].
  destruct (checked_add n _ ≫= _) as [t|] eqn:Ht; [|discriminate].
  apply bind_Some in Ht as (t1 & [-> _]%checked_add_Some & [-> _]%checked_add_Some). by apply N.leb_le.
Qed.

(** The views of the histories hold the rows that lead to the heads of the state. *)
Record histories_selected `{Sha256} `{HR : History ReceiptRow} `{HT : History TerminalRow} `{HS : History ResolutionRow}
    `{HB : History BindingRow} (s : TenantState) (h : Histories) : Prop := {
  sel_receipts : ∃ rows, h_rows (hs_receipts h) = Ok <$> rows ∧ receipt_chain s rows;
  sel_terminals : ∃ rows, h_rows (hs_terminals h) = Ok <$> rows ∧ terminal_chain s rows;
  sel_resolutions : ∃ rows, h_rows (hs_resolutions h) = Ok <$> rows ∧ resolution_chain s rows;
  sel_bindings : ∃ rows, h_rows (hs_bindings h) = Ok <$> rows ∧ binding_chain s rows;
}.

Lemma row_bytes_Ok {Row} (f : Row → SnapshotRecord) rows : row_bytes f (Ok <$> rows) = lsum (λ r, framed (f r)) rows.
Proof. unfold row_bytes. induction rows as [|r rows IH]; [done|]. by rewrite fmap_cons, !lsum_cons, IH. Qed.

(** C21. The length of the snapshot stream of a state is exactly what the
    accounting charges for the state, the bytes the receipt head records, and the
    records of the target resolutions and backup bindings, which the bytes of
    their heads cover.  So the stream of a state that fits is within the limit
    the snapshot spool is opened with, with the headroom of the state and a
    revision of any width left free. *)
Theorem bytes_measure_stream `{Sha256} `{Sha256Bytes} `{!Sha256Width} `{CompletedMetadata} `{Sharing}
    `{HR : History ReceiptRow} `{HT : History TerminalRow} `{HS : History ResolutionRow} `{HB : History BindingRow}
    (resolver : option (StoredDocument → result string Document)) (s : TenantState) (h : Histories)
    (x : SnapshotAccounting) (stream : string) (n : N) :
  rebuild s = Ok x → bytes x s = Ok n → histories_selected s h → write_with_resolver resolver s h = Ok stream →
  str_len stream = n + mr_encoded_bytes (mutation_receipt_head s) +
    row_bytes RTargetResolution (h_rows (hs_resolutions h)) + row_bytes RBackupBinding (h_rows (hs_bindings h)) ∧
  row_bytes RTargetResolution (h_rows (hs_resolutions h)) ≤ tr_encoded_bytes (target_resolution_head s) ∧
  row_bytes RBackupBinding (h_rows (hs_bindings h)) ≤ bb_encoded_bytes (backup_binding_head s) ∧
  (∀ limit, fits x s = Ok true → snapshot_limit s = Ok limit → ∃ headroom, snapshot_headroom s = Ok headroom ∧
     str_len stream + (20 - digits (revision s)) + headroom ≤ limit).
Proof.
  intros Hx%rebuild_Ok Hb [(r1 & Hr1 & C1%receipt_chain_bytes) (r2 & Hr2 & C2%terminal_chain_bytes)
    (r3 & Hr3 & C3%resolution_chain_bytes) (r4 & Hr4 & C4%binding_chain_bytes)] (records & Hr & ->)%stream_len.
  destruct (ac_shared _ _ Hx) as (sh & Hsh & Hs).
  pose proof (bytes_Ok _ _ sh _ Hsh Hb) as (header & Hh & Hn). apply (header_framed s sh) in Hh as ->; [|done].
  apply records_by_kind in Hr as (docs & changes & events & Hd & Hc & He & ->).
  pose proof (resident_charged s x sh docs changes events resolver Hx Hsh Hd Hc He).
  unfold history_bytes in *. rewrite Hr1, Hr2, Hr3, Hr4, !row_bytes_Ok in *. split_and!; [lia|done|done|].
  intros limit (headroom & Hh & Hle)%(fits_Ok _ _ _ Hb) ->%snapshot_limit_Ok. exists headroom. split; [done|lia].
Qed.

Module CapacitySample.
#[export] Instance sha : Sha256 := RestoreSample.sha.
#[export] Instance sha_bytes : Sha256Bytes := RestoreSample.sha_bytes.
#[export] Instance sha_width : Sha256Width := RestoreSample.sha_width.
#[export] Instance completed : CompletedMetadata := AccountingSample.completed.
#[export] Instance sharing : Sharing := AccountingSample.sharing.

(** Histories that are lists of rows, and the durable receipts of one row. *)
Definition listed (Row : Type) : History Row :=
  {| HView := list Row; HBuilder := unit; h_check := λ _ _, Ok tt; h_rows := fmap Ok; h_count := λ _, 0;
     h_new := λ _, Ok tt; h_push := λ _ _, mret tt; h_finish := λ _ _, Ok []; h_empty := λ _, Ok [];
     h_selects := λ _ _, true |}.
#[export] Instance terminals : History TerminalRow := listed TerminalRow.
#[export] Instance resolutions : History ResolutionRow := listed ResolutionRow.
#[export] Instance bindings : History BindingRow := listed BindingRow.
#[export] Instance read_ordinal : FromSlice Ordinal := ReceiptSample.ordinal_from_slice.
#[export] Instance read_row : FromSlice ReceiptRow := ReceiptSample.row_from_slice.
Definition store : gmap string string := (stage_receipts ReceiptSample.pending ∅).1.
#[export] Instance receipts : History ReceiptRow :=
  @receipt_history sha read_ordinal read_row store.

Definition resolution : ResolutionRow :=
  {| rs_ordinal := 1; rs_key := Sample.zeros 64; rs_previous_sha256 := Sample.zeros 64; rs_command_sha256 := Sample.zeros 64;
     rs_applying_context_sha256 := Sample.zeros 64; rs_record := VObject [("fact", VString "completed")] |}.
Definition binding : BindingRow :=
  {| bi_ordinal := 1; bi_key := "session"; bi_previous_sha256 := Sample.zeros 64; bi_applied := ReceiptSample.applied;
     bi_record := VObject [("claim", VNull)] |}.

Definition terminal_head : StagedTerminalHead := Eval vm_compute in the (staged_terminal_head_empty "t1" "i1") eq_refl.
Definition resolution_head : TargetResolutionPrefixHead := Eval vm_compute in
  the (h ← any (target_resolution_head_empty "t1" "i1"); try_fold advance_resolution h [resolution]) eq_refl.
Definition binding_head : BackupBindingHead := Eval vm_compute in
  the (h ← any (backup_binding_head_empty "i1"); try_fold advance_binding h [binding]) eq_refl.

(** A state with a row in each of these histories. *)
Definition with_heads (s : TenantState) : TenantState :=
  {| tenant := tenant s; incarnation := incarnation s; revision := 1; revision_base := revision_base s;
     policy_epoch := policy_epoch s; schema_epoch := schema_epoch s; suspended := suspended s;
     retired := retired s; pending_restore := pending_restore s; restored_from := restored_from s;
     restore_lineage := restore_lineage s; lifecycle_control := lifecycle_control s;
     target_lifecycle := target_lifecycle s; recovery_control := recovery_control s;
     document_count := document_count s; logical_bytes := logical_bytes s; policy := policy s;
     limits := limits s; collections := collections s; mutation_receipt_head := p_head ReceiptSample.pending;
     backup_binding_head := binding_head; staged_transactions := staged_transactions s;
     active_staged_transactions := active_staged_transactions s;
     permanent_staged_bytes := permanent_staged_bytes s;
     reserved_staged_terminal_bytes := reserved_staged_terminal_bytes s; staged_terminal_head := terminal_head;
     target_resolution_head := resolution_head; target_completion_head := target_completion_head s;
     change_feed := change_feed s; history_archives := history_archives s;
     history_archive_bytes := history_archive_bytes s; schema_activations := schema_activations s;
     schema_activation_bytes := schema_activation_bytes s; retirements := retirements s;
     retirement_bytes := retirement_bytes s; audit_retention := audit_retention s; audits := audits s |}.
Definition state : TenantState := with_heads Sample.state.
Definition histories : Histories :=
  {| hs_receipts := {| v_source := Some Durable; v_head := p_head ReceiptSample.pending |}; hs_bindings := [binding];
     hs_terminals := []; hs_resolutions := [resolution] |}.

Definition sizes : SnapshotAccounting := Eval vm_compute in
  match rebuild state with Ok x => x | Err _ => AccountingSample.no_accounting end.
Definition charge : N := Eval vm_compute in match bytes sizes state with Ok n => n | Err _ => 0 end.
Definition limit : N := Eval vm_compute in match snapshot_limit state with Ok n => n | Err _ => 0 end.
Definition stream : string := Eval vm_compute in
  match write_with_resolver None state histories with Ok x => x | Err _ => "" end.
End CapacitySample.

#[local] Existing Instances CapacitySample.sha CapacitySample.sha_bytes CapacitySample.sha_width
  CapacitySample.completed CapacitySample.sharing CapacitySample.receipts CapacitySample.terminals
  CapacitySample.resolutions CapacitySample.bindings.

Lemma sample_selected : histories_selected CapacitySample.state CapacitySample.histories.
Proof.
  split.
  - exists [ReceiptSample.row]. split; vm_compute; reflexivity.
  - exists []. split; vm_compute; reflexivity.
  - exists [CapacitySample.resolution]. split; vm_compute; reflexivity.
  - exists [CapacitySample.binding]. split; vm_compute; reflexivity.
Qed.

#[local] Opaque write_with_resolver rebuild bytes fits.

Lemma bytes_measure_stream_witness :
  0 < mr_encoded_bytes (mutation_receipt_head CapacitySample.state) ∧
  str_len CapacitySample.stream = CapacitySample.charge + mr_encoded_bytes (mutation_receipt_head CapacitySample.state) +
    row_bytes RTargetResolution [Ok CapacitySample.resolution] + row_bytes RBackupBinding [Ok CapacitySample.binding] ∧
  ∃ headroom, snapshot_headroom CapacitySample.state = Ok headroom ∧
    str_len CapacitySample.stream + (20 - digits (revision CapacitySample.state)) + headroom ≤ CapacitySample.limit.
Proof.
  assert (Hw : write_with_resolver None CapacitySample.state CapacitySample.histories = Ok CapacitySample.stream)
    by (vm_compute; reflexivity).
  assert (Hx : rebuild CapacitySample.state = Ok CapacitySample.sizes) by (vm_compute; reflexivity).
  assert (Hb : bytes CapacitySample.sizes CapacitySample.state = Ok CapacitySample.charge) by (vm_compute; reflexivity).
  assert (Hf : fits CapacitySample.sizes CapacitySample.state = Ok true) by (vm_compute; reflexivity).
  assert (Hl : snapshot_limit CapacitySample.state = Ok CapacitySample.limit) by (vm_compute; reflexivity).
  destruct (bytes_measure_stream None CapacitySample.state CapacitySample.histories
    CapacitySample.sizes CapacitySample.stream CapacitySample.charge Hx Hb sample_selected Hw) as (Hlen & _ & _ & Hroom).
  split; [vm_compute; reflexivity|]. exact (conj Hlen (Hroom _ Hf Hl)).
Defined.
