(* ===== verification/Mutate.v ===== *)
(** * Ordered mutation commands

    Models src/crates/kasumi-engine/src/mutation_apply.rs: the admission of a
    mutation command, the permit that reserves the bytes of its permanent
    receipt, the attempt, and the generation it prepares; with
    [Pending::prepare_publication] of mutation_receipt.rs and
    [check_admitted_at] of authorization.rs.

    The query indexes of a generation are the interface [IndexUpdates]; the
    installed store of a publication is the record [Roots]. *)

From S2P Require Import Prelude Json Types Digest State Apply ChangeFeed Staging Ledger Meter.
From S2P Require Import Wire Receipts Snapshot Restore Accounting Capacity.

(** ** Interfaces *)

(** [index_source::update_with_resolvers]. *)
Class IndexUpdates := {
  Indexes : Type;
  update_indexes : Indexes → TenantState → TenantState → gmap string (gset string) → Resolver → Anyhow Indexes;
}.

(** What a publication uses of [SourceRootsRef]: whether the receipts belong to
    its store, the overhead of an encrypted record and the admission of a
    workspace. *)
Record Roots := {
  rt_same_store : bool;
  rt_encryption_overhead : Anyhow N;
  rt_reserve : N → Anyhow unit;
}.

(** ** Admission *)

(** [RequestAuthorization::check_admitted_at]. *)
Definition check_admitted_at (a : AuthorizationMetadata) (trusted_timestamp_ms : N) : Result unit :=
  match a with
  | MServiceIdentity => Ok tt
  | MCredential expires_at_ms _ =>
      if trusted_timestamp_ms <? expires_at_ms then Ok tt
      else fail Unauthorized "authenticated credential expired"
  end.

Definition assertion_collection (a : ReadAssertion) : option string :=
  match a with
  | ADocument collection _ _ | ACollection collection _ => Some collection
  | _ => None
  end.

(** The closure that decides whether a command is authorized. *)
Definition authorize_mutation `{UuidParse} (s : TenantState) (c : Command) (batch : MutationBatch) : Result unit :=
  if negb (bool_decide (c_tenant (context c) = tenant s)) then fail Forbidden "tenant access denied"
  else
    check_admitted_at (authorization (context c)) (timestamp_ms c);;
    authorize_resource s (context c);;
    guard s (operation c);;
    try_fold (λ _ m, authorize_state s (context c) (Some (target m).1) Write) tt (operations batch);;
    try_fold (λ _ a, match assertion_collection a with
                     | Some collection => authorize_state s (context c) (Some collection) Read
                     | None => Ok tt
                     end) tt (read_set batch);;
    validate_name (c_principal (context c));;
    validate_name (idempotency_key batch);;
    if (len (operations batch) =? 0) || (256 <? len (operations batch)) then
      fail InvalidArgument "invalid mutation operation count"
    else
      try_fold (λ _ m, validate_name (target m).1;; validate_name (target m).2) tt (operations batch).

(** ** Events and errors *)

(** [audit]. *)
Definition mutation_audit (c : Command) (s : TenantState) (outcome : string) : AuditEvent :=
  {| event_id := incarnation s +:+ ":" +:+ pretty (revision s); e_principal := c_principal (context c);
     e_action := "mutation"; e_request_id := request_id (context c); e_timestamp_ms := timestamp_ms c;
     data_revision := Some (revision s); e_outcome := outcome; e_collection := None |}.

(** [maximum_error]. *)
Definition maximum_error : Error :=
  new_error ResourceExhausted (repeat_string (N.to_nat MAX_MESSAGE_BYTES) (String "001" "")).

Definition set_receipt_outcome (o : Result WriteReceipt) (r : StoredReceipt) : StoredReceipt :=
  {| r_scope := r_scope r; r_idempotency_key := r_idempotency_key r;
     recorded_revision := recorded_revision r; request_digest := request_digest r;
     r_collections := r_collections r; r_outcome := o |}.

Definition set_row_outcome (o : Result WriteReceipt) (r : ReceiptRow) : ReceiptRow :=
  {| rr_ordinal := rr_ordinal r; rr_key := rr_key r; rr_previous_sha256 := rr_previous_sha256 r;
     rr_applied := rr_applied r; rr_receipt := set_receipt_outcome o (rr_receipt r) |}.

#[export] Instance Source_eq_dec : EqDecision Source.
Proof. solve_decision. Defined.

(** ** The permit *)

Record Permit := {
  template : StoredReceipt;
  maximum_row_bytes : N;
  maximum_head : MutationReceiptHead;
}.

Section mutate.
Context `{Sha256} `{UuidParse} `{FromSlice Ordinal} `{FromSlice ReceiptRow} `{QueryRules} `{IndexRules} `{IndexUpdates}
  `{CompletedMetadata} `{Sharing}.

(** The receipt every outcome of a batch is recorded with. *)
Definition receipt_template (s : TenantState) (c : Command) (batch : MutationBatch) (digest : string) :
    StoredReceipt :=
  {| r_scope := {| sc_tenant := tenant s; sc_incarnation := incarnation s; sc_principal := c_principal (context c) |};
     r_idempotency_key := idempotency_key batch; recorded_revision := revision s; request_digest := digest;
     r_collections := set_iter (list_to_set ((λ m, (target m).1) <$> operations batch) : gset string);
     r_outcome := Err maximum_error |}.

(** The receipt of a batch that applies. *)
Definition maximum_receipt (s : TenantState) (batch : MutationBatch) : WriteReceipt :=
  {| wr_revision := revision s;
     versions := foldl (λ m op, <[document_path (target op).1 (target op).2 := revision s]> m) ∅ (operations batch) |}.

(** [Permit::prepare]. *)
Definition prepare_permit (s : TenantState) (c : Command) (batch : MutationBatch) (applied : AppliedIdentity)
    (digest : string) : Result Permit :=
  let template := receipt_template s c batch digest in
  let h := mutation_receipt_head s in
  ordinal ← ok_or (checked_add (mr_count h) 1) (new_error QuotaExceeded "receipt ordinal exhausted");
  key ← staged_digest (sc_principal (r_scope template), r_idempotency_key template);
  let row := {| rr_ordinal := ordinal; rr_key := key.1; rr_previous_sha256 := mr_sha256 h;
                rr_applied := applied; rr_receipt := template |} in
  rejected_bytes ← map_err terminal_error (validate_receipt row s);
  committed_bytes ← map_err terminal_error
    (validate_receipt (set_row_outcome (Ok (maximum_receipt s batch)) row) s);
  let maximum_row_bytes := rejected_bytes `max` committed_bytes in
  encoded ← ok_or (checked_add (mr_encoded_bytes h) maximum_row_bytes)
    (new_error QuotaExceeded "receipt byte counter exhausted");
  if max_mutation_receipt_bytes (limits s) <? encoded then
    fail QuotaExceeded "permanent mutation receipt byte budget exhausted"
  else
    Ok {| template := template; maximum_row_bytes := maximum_row_bytes;
          maximum_head := {| mr_origin_incarnation := mr_origin_incarnation h; mr_count := ordinal;
                             mr_encoded_bytes := encoded; mr_last_applied_revision := revision s;
                             mr_sha256 := repeat_string 64 "f" |} |}.

(** [Permit::finalize]: the pending row and the state that selects it. *)
Definition finalize_permit (p : Permit) (owner : View) (absent : Absent) (s : TenantState)
    (outcome : Result WriteReceipt) (applied : AppliedIdentity) : Anyhow (PendingReceipt * TenantState) :=
  pending ← prepare_receipt owner s (Some (set_receipt_outcome outcome (template p), absent)) applied;
  n ← any (ok_or (checked_sub (mr_encoded_bytes (p_head pending)) (mr_encoded_bytes (v_head owner)))
             (new_error Corruption "receipt reserved bytes decreased"));
  if (maximum_row_bytes p <? n) || negb (mr_count (p_head pending) =? mr_count (maximum_head p)) ||
     (mr_encoded_bytes (maximum_head p) <? mr_encoded_bytes (p_head pending))
  then Err (AnyError (new_error Corruption "admitted receipt exceeded its terminal reservation"))
  else Ok (pending, set_mutation_receipt_head (p_head pending) s).

(** ** Publication of the receipt *)

(** [PreparedPublication]: the writes that join the publication of the cursor. *)
Record Publication := {
  pb_writes : list (string * string);
  pb_source : Source;
  pb_head : MutationReceiptHead;
  pb_tenant : string;
  pb_retained : N;
}.

Definition MAX_ROW : N := N.shiftl 64 10.
Definition MAX_ENCRYPTION_OVERHEAD : N := 512.

(** [PreparedPublication::require_view]. *)
Definition require_view (b : Publication) (v : View) : Anyhow unit :=
  demand (bool_decide (v_head v = pb_head b) && bool_decide (v_source v = Some (pb_source b)))
    "private receipt publication differs from candidate".

(** [Pending::stage] as the separate commit. *)
Definition stage_separately (p : PendingReceipt) : ST (gmap string string) anyhow (View * option Publication) :=
  v ← stage_receipts p;
  mret (v, None).

(** The pair of a small row, to be written with the cursor. *)
Definition prepare_pair (roots : Roots) (p : PendingReceipt) (source : Source) (row : ReceiptRow) (length : N) :
    ST (gmap string string) anyhow (View * option Publication) :=
  st_lift (rt_reserve roots (4 * length + N.shiftl 64 10));;
  pair ← st_lift (row_pair row);
  store ← st_get;
  old_row ← st_lift (source_get store source pair.1.1);
  old_index ← st_lift (source_get store source pair.2.1);
  let tenant := sc_tenant (r_scope (rr_receipt row)) in
  let view := {| v_source := Some source; v_head := p_head p |} in
  match old_row, old_index with
  | Some r, Some i =>
      st_lift (demand (bool_decide (r = pair.1.2) && bool_decide (i = pair.2.2))
        "future receipt row differs from exact original command replay");;
      st_lift (check_head store view tenant);;
      mret (view, None)
  | None, None =>
      sha ← st_lift (receipt_sha256 row);
      st_lift (demand ((rr_ordinal row =? mr_count (p_head p)) && bool_decide (sha = mr_sha256 (p_head p)))
        "prospective receipt head differs from immutable pair");;
      let publication := {| pb_writes := [pair.1; pair.2]; pb_source := source; pb_head := p_head p;
                            pb_tenant := tenant; pb_retained := 2 * length + N.shiftl 64 10 |} in
      st_lift (check_head_metadata view tenant);;
      st_lift (require_view publication view);;
      mret (view, Some publication)
  | _, _ => st_lift (Err (AnyMessage "partially published receipt row/index"))
  end.

(** [Pending::prepare_publication]. *)
Definition prepare_publication (roots : Roots) (p : PendingReceipt) :
    ST (gmap string string) anyhow (View * option Publication) :=
  match p_rows p with
  | [] => mret (p_previous p, None)
  | row :: rest =>
      st_lift (demand (bool_decide (rest = [])) "ordinary receipt publication has multiple rows");;
      match v_source (p_previous p) with
      | Some source =>
          if source_durable source then
            st_lift (demand (rt_same_store roots) "receipt publication belongs to another application store");;
            overhead ← st_lift (rt_encryption_overhead roots);
            if MAX_ENCRYPTION_OVERHEAD <? overhead then stage_separately p
            else
              length ← st_lift (any (encoded_len row));
              if MAX_ROW <? length then stage_separately p else prepare_pair roots p source row length
          else stage_separately p
      | None => stage_separately p
      end
  end.

Definition publish_receipt (roots : option Roots) (p : PendingReceipt) :
    ST (gmap string string) anyhow (View * option Publication) :=
  match roots with Some r => prepare_publication r p | None => stage_separately p end.

(** ** Generations *)

(** The parts of a [Generation] a mutation selects, and [PreparedCommand]. *)
Record Generation := {
  g_state : TenantState;
  g_receipts : View;
  g_indexes : Indexes;
  g_accounting : SnapshotAccounting;
}.

Record PreparedCommand := {
  pc_publication : option Publication;
  pc_generation : option Generation;
  pc_changed : gmap string (gset string);
  pc_outcome : Result WriteReceipt;
}.

(** The three capacity checks of a state with its accounting. *)
Definition publishable (x : SnapshotAccounting) (s : TenantState) : Result bool :=
  if audit_fits s then
    f ← fits x s;
    if (f : bool) then completion_fits s x else Ok false
  else Ok false.

(** A state with one more audit event, and its accounting. *)
Definition append_event (previous : Generation) (event : AuditEvent) (changed : gmap string (gset string))
    (s : TenantState) : Anyhow (TenantState * SnapshotAccounting) :=
  match append_audit event s with
  | (s', Ok _) => x ← any (updated (g_accounting previous) (g_state previous) s' changed ∅); Ok (s', x)
  | (_, Err e) => Err (AnyError e)
  end.

(** [prepare_mutation_observation]. *)
Definition outcome_name {A} (r : Result A) : string := match r with Ok _ => "committed" | Err _ => "rejected" end.

Definition observed (previous : Generation) (s : TenantState) (x : SnapshotAccounting) (o : Result WriteReceipt) :
    PreparedCommand :=
  {| pc_publication := None;
     pc_generation := Some {| g_state := s; g_receipts := g_receipts previous; g_indexes := g_indexes previous;
                              g_accounting := x |};
     pc_changed := ∅; pc_outcome := o |}.

Definition prepare_mutation_observation (previous : Generation) (c : Command) (revision : N)
    (outcome : Result WriteReceipt) : Anyhow PreparedCommand :=
  let cursor := set_revision revision (g_state previous) in
  sx ← append_event previous (mutation_audit c cursor (outcome_name outcome)) ∅ cursor;
  ok ← any (publishable sx.2 sx.1);
  if (ok : bool) then Ok (observed previous sx.1 sx.2 outcome)
  else
    let unavailable : Result WriteReceipt :=
      fail AuditUnavailable "required mutation observation audit capacity unavailable" in
    sx ← append_event previous (mutation_audit c cursor "rejected") ∅ cursor;
    ok ← any (publishable sx.2 sx.1);
    if (ok : bool) then Ok (observed previous sx.1 sx.2 unavailable)
    else Ok (observed previous cursor (g_accounting previous) unavailable).

(** ** The attempt *)

(** The closure that applies, validates and publishes to the feed; a panic ends
    the command like a failed source. *)
Definition attempt_mutation (c : Command) (batch : MutationBatch) (revision : N) (resolver : Resolver)
    (state : TenantState) : ST TenantState ReadFailure WriteReceipt :=
  receipt ← apply_batch batch revision (timestamp_ms c) resolver;
  next ← st_get;
  st_lift (validate_changes state next (batch_changes batch) resolver);;
  match append state next (batch_changes batch) with
  | Some (next', r) => st_put next';; st_lift (query r);; mret receipt
  | None => st_lift (Err (FSource "collection missing"))
  end.

(** What a finished attempt selects: an outer failure, or an outcome. *)
Definition deterministic (r : SourceResult WriteReceipt) : Anyhow (Result WriteReceipt) :=
  match r with
  | Ok receipt => Ok (Ok receipt)
  | Err (FSource e) => Err (AnyMessage e)
  | Err (FQuery e) => if bool_decide (code e = Corruption) then Err (AnyError e) else Ok (Err e)
  end.

(** The generation that records an outcome. *)
Definition select (previous : Generation) (roots : option Roots) (pending : PendingReceipt) (s : TenantState)
    (indexes : Indexes) (x : SnapshotAccounting) (changed : gmap string (gset string))
    (outcome : Result WriteReceipt) : ST (gmap string string) anyhow PreparedCommand :=
  vp ← publish_receipt roots pending;
  mret {| pc_publication := vp.2;
          pc_generation := Some {| g_state := s; g_receipts := vp.1; g_indexes := indexes; g_accounting := x |};
          pc_changed := changed; pc_outcome := outcome |}.

(** An admitted batch that is rejected. *)
Definition prepare_rejection (previous : Generation) (roots : option Roots) (permit : Permit) (absent : Absent)
    (c : Command) (revision : N) (applied : AppliedIdentity) (e : Error) :
    ST (gmap string string) anyhow PreparedCommand :=
  ps ← st_lift (finalize_permit permit (g_receipts previous) absent (set_revision revision (g_state previous))
                  (Err e) applied);
  sx ← st_lift (append_event previous (mutation_audit c ps.2 "rejected") ∅ ps.2);
  ok ← st_lift (any (publishable sx.2 sx.1));
  if negb (ok : bool) then st_lift (Err (AnyError (new_error Corruption "reserved mutation terminal cannot publish")))
  else select previous roots ps.1 sx.1 (g_indexes previous) sx.2 ∅ (Err e).

(** An admitted batch: the attempt, and the receipt of its outcome. *)
Definition prepare_admitted (previous : Generation) (roots : option Roots) (permit : Permit) (absent : Absent)
    (committed : AuditEvent) (begin_change_tree : MutationBatch → Anyhow unit) (c : Command)
    (batch : MutationBatch) (revision : N) (applied : AppliedIdentity) (resolver : Resolver) :
    ST (gmap string string) anyhow PreparedCommand :=
  st_lift (begin_change_tree batch);;
  let state := g_state previous in
  let changed := batch_changes batch in
  let attempt := attempt_mutation c batch revision resolver state (set_revision revision state) in
  outcome ← st_lift (deterministic attempt.2);
  match outcome with
  | Err e => prepare_rejection previous roots permit absent c revision applied e
  | Ok receipt =>
      ps ← st_lift (finalize_permit permit (g_receipts previous) absent attempt.1 (Ok receipt) applied);
      sx ← st_lift (append_event previous committed changed ps.2);
      ok ← st_lift (any (publishable sx.2 sx.1));
      if (ok : bool) then
        indexes ← st_lift (update_indexes (g_indexes previous) state sx.1 changed resolver);
        select previous roots ps.1 sx.1 indexes sx.2 changed (Ok receipt)
      else prepare_rejection previous roots permit absent c revision applied
             (new_error QuotaExceeded "serialized tenant snapshot byte budget exhausted")
  end.

(** The permit and the reservation of a new identity. *)
Definition admit_mutation (previous : Generation) (roots : option Roots) (absent : Absent) (digest : string)
    (begin_change_tree : MutationBatch → Anyhow unit) (c : Command) (batch : MutationBatch)
    (applied : AppliedIdentity) (resolver : Resolver) : ST (gmap string string) anyhow PreparedCommand :=
  let revision := a_revision applied in
  let reserved := set_revision revision (g_state previous) in
  match prepare_permit reserved c batch applied digest with
  | Err e =>
      if bool_decide (code e = QuotaExceeded)
      then st_lift (prepare_mutation_observation previous c revision (Err e))
      else st_lift (Err (AnyError e))
  | Ok permit =>
      let reserved := set_mutation_receipt_head (maximum_head permit) reserved in
      let committed := mutation_audit c reserved "committed" in
      sx ← st_lift (append_event previous committed ∅ reserved);
      ok ← st_lift (any (publishable sx.2 sx.1));
      if negb (ok : bool) then
        st_lift (prepare_mutation_observation previous c revision
          (fail AuditUnavailable "required mutation terminal and audit capacity unavailable"))
      else prepare_admitted previous roots permit absent committed begin_change_tree c batch revision applied resolver
  end.

(** [prepare_mutation_ordered], in the committed scope. *)
Definition prepare_mutation_ordered (previous : Generation) (roots : option Roots)
    (begin_change_tree : MutationBatch → Anyhow unit) (c : Command) (batch : MutationBatch)
    (applied : AppliedIdentity) (resolver : Resolver) : ST (gmap string string) anyhow PreparedCommand :=
  let s := g_state previous in
  let revision := a_revision applied in
  match authorize_mutation s c batch with
  | Err e => st_lift (prepare_mutation_observation previous c revision (Err e))
  | Ok _ =>
      key ← st_lift (any (staged_digest (c_principal (context c), idempotency_key batch)));
      digest ← st_lift (any (batch_digest batch));
      store ← st_get;
      lookup ← st_lift (view_lookup store (g_receipts previous) key.1);
      match lookup with
      | Found row =>
          st_lift (validate_receipt row s);;
          st_lift (prepare_mutation_observation previous c revision
            (if bool_decide (request_digest (rr_receipt row) = digest) then r_outcome (rr_receipt row)
             else fail Conflict "idempotency key reused for different input"))
      | Missing absent => admit_mutation previous roots absent digest begin_change_tree c batch applied resolver
      end
  end.
End mutate.

(** ** What a command may change *)

(** A state that differs from another in its revision, its audit events and the
    head of its receipts. *)
Definition recorded_only (s s' : TenantState) : Prop :=
  ∃ r h t a, s' = set_audit_retention t (set_audits a (set_mutation_receipt_head h (set_revision r s))).

(** A state that differs from another in its revision and its audit events. *)
Definition audited_only (s s' : TenantState) : Prop :=
  recorded_only s s' ∧ mutation_receipt_head s' = mutation_receipt_head s.

Lemma append_audit_state e s s' :
  append_audit e s = (s', Ok tt) → ∃ t, s' = set_audit_retention t (set_audits (audits s ++ [e]) s).
Proof. intros (p & _ & ->)%append_audit_Ok. by eexists. Qed.

Section steps.
Context `{Sha256} `{UuidParse} `{FromSlice Ordinal} `{FromSlice ReceiptRow} `{QueryRules} `{IndexRules} `{IndexUpdates}
  `{CompletedMetadata} `{Sharing}.

(** The writes of a publication, once its cursor is published. *)
Definition write_all (store : gmap string string) (l : list (string * string)) : gmap string string :=
  foldl (λ m kv, <[kv.1 := kv.2]> m) store l.
Definition committed (store : gmap string string) (pc : PreparedCommand) : gmap string string :=
  match pc_publication pc with Some p => write_all store (pb_writes p) | None => store end.

Lemma append_event_Ok g e changed s s' x :
  append_event g e changed s = Ok (s', x) →
  append_audit e s = (s', Ok tt) ∧ updated (g_accounting g) (g_state g) s' changed ∅ = Ok x.
Proof.
  unfold append_event. destruct (append_audit e s) as [t [[]|]] eqn:Ha; [|done].
  intros Hr. apply bind_Ok in Hr as (y & Hy%any_Ok & [= <- <-]). done.
Qed.

Lemma append_event_state g e changed s s' x :
  append_event g e changed s = Ok (s', x) → ∃ t, s' = set_audit_retention t (set_audits (audits s ++ [e]) s).
Proof. intros [Ha _]%append_event_Ok. by eapply append_audit_state. Qed.

Lemma cursor_audited s rev : audited_only s (set_revision rev s).
Proof. split; [|done]. by exists rev, (mutation_receipt_head s), (audit_retention s), (audits s). Qed.

Lemma audited_recorded g e changed s rev h s' x :
  append_event g e changed (set_mutation_receipt_head h (set_revision rev s)) = Ok (s', x) →
  recorded_only s s' ∧ mutation_receipt_head s' = h ∧ revision s' = rev.
Proof. intros (t & ->)%append_event_state. split; [|done]. by eexists rev, h, t, _. Qed.

Lemma audited_cursor g e changed s rev s' x :
  append_event g e changed (set_revision rev s) = Ok (s', x) → audited_only s s' ∧ revision s' = rev.
Proof.
  change (set_revision rev s) with (set_mutation_receipt_head (mutation_receipt_head s) (set_revision rev s)).
  by intros (? & ? & ?)%audited_recorded.
Qed.

(** An observation changes no document and no receipt. *)
Lemma observation_facts g c rev outcome pc :
  prepare_mutation_observation g c rev outcome = Ok pc →
  ∃ s x, pc = observed g s x (pc_outcome pc) ∧ audited_only (g_state g) s ∧ revision s = rev ∧
    (pc_outcome pc = outcome ∨
     pc_outcome pc = fail AuditUnavailable "required mutation observation audit capacity unavailable").
Proof.
  unfold prepare_mutation_observation. intros Hp.
  apply bind_Ok in Hp as ([s x] & [Ha Hr]%audited_cursor & Hp). apply bind_Ok in Hp as (ok & _ & Hp). destruct ok.
  { injection Hp as <-. exists s, x. by auto. }
  apply bind_Ok in Hp as ([s' x'] & [Ha' Hr']%audited_cursor & Hp). apply bind_Ok in Hp as (ok & _ & Hp).
  destruct ok; injection Hp as <-.
  - exists s', x'. by auto.
  - exists (set_revision rev (g_state g)), (g_accounting g). split_and!; [done|apply cursor_audited|done|by right].
Qed.

(** ** Publishing the receipt of an outcome *)

Lemma stage_separately_Ok p store store' v o :
  stage_separately p store = (store', Ok (v, o)) → stage_receipts p store = (store', Ok v) ∧ o = None.
Proof.
  unfold stage_separately. intros Hs. apply st_bind_Ok in Hs as (s1 & v1 & Hv & Hs).
  injection Hs as <- <- <-. done.
Qed.

Lemma prepare_publication_Ok roots p row store store' v o :
  p_rows p = [row] → prepare_publication roots p store = (store', Ok (v, o)) →
  (stage_receipts p store = (store', Ok v) ∧ o = None) ∨
  ∃ source length, v_source (p_previous p) = Some source ∧ source_durable source = true ∧
    prepare_pair roots p source row length store = (store', Ok (v, o)).
Proof.
  intros Hrow. unfold prepare_publication. rewrite Hrow. intros Hp.
  apply st_bind_Ok in Hp as (? & [] & [-> _]%st_lift_Ok & Hp).
  destruct (v_source (p_previous p)) as [source|]; [|left; by apply stage_separately_Ok in Hp].
  destruct (source_durable source) eqn:Hd; [|left; by apply stage_separately_Ok in Hp].
  apply st_bind_Ok in Hp as (? & [] & [-> _]%st_lift_Ok & Hp).
  apply st_bind_Ok in Hp as (? & ov & [-> _]%st_lift_Ok & Hp).
  destruct (MAX_ENCRYPTION_OVERHEAD <? ov); [left; by apply stage_separately_Ok in Hp|].
  apply st_bind_Ok in Hp as (? & length & [-> _]%st_lift_Ok & Hp).
  destruct (MAX_ROW <? length); [left; by apply stage_separately_Ok in Hp|].
  right. by exists source, length.
Qed.

Context `{!Sha256Hex}.

(** The next ordinal of an exact store is free. *)
Lemma next_ordinal_free tn origin store rows row h :
  recorded tn (source_read store Durable) rows → chain_head tn origin (rows ++ [row]) = Ok h →
  source_read store Durable (ordinal_key (rr_ordinal row)) = None.
Proof.
  intros Hrec Hh.
  destruct (chain_head_facts _ _ _ _ Hh) as (_ & Hmax & _ & _ & [Hn|(rows' & r & h0 & Heq & _ & _ & _ & _ & Hord & _)]);
    [by destruct rows|]. apply app_inj_tail in Heq as [<- <-].
  unfold len in Hord, Hmax. rewrite length_app in Hord, Hmax. cbn [length] in Hord, Hmax.
  rewrite (recorded_ordinals _ _ _ Hrec), lookup_ge_None_2 by lia. done.
Qed.

Lemma prepare_pair_Ok tn origin roots p row length store store' v o rows :
  recorded tn (source_read store Durable) rows → row_ok tn row → find_row (rr_key row) rows = None →
  chain_head tn origin (rows ++ [row]) = Ok (p_head p) →
  prepare_pair roots p Durable row length store = (store', Ok (v, o)) →
  store' = store ∧ v = {| v_source := Some Durable; v_head := p_head p |} ∧
  ∃ b, o = Some b ∧ recorded tn (source_read (write_all store (pb_writes b)) Durable) (rows ++ [row]).
Proof.
  intros Hrec Hok Hf Hh Hp. unfold prepare_pair in Hp.
  apply st_bind_Ok in Hp as (? & [] & [-> _]%st_lift_Ok & Hp).
  apply st_bind_Ok in Hp as (? & pr & [-> Hpr]%st_lift_Ok & Hp).
  rewrite (row_pair_Ok _ _ _ _ _ Hh) in Hpr. injection Hpr as <-. rewrite st_bind_get in Hp. cbn [fst snd] in Hp.
  assert (Hid : source_get store Durable (id_key (rr_key row)) = Ok None).
  { unfold source_get. rewrite (recorded_points _ _ _ Hrec), Hf. done. }
  assert (Hor : source_get store Durable (ordinal_key (rr_ordinal row)) = Ok None).
  { unfold source_get. rewrite (next_ordinal_free _ _ _ _ _ _ Hrec Hh). done. }
  rewrite (st_bind_lift _ _ _ _ Hid), (st_bind_lift _ _ _ _ Hor) in Hp.
  apply st_bind_Ok in Hp as (? & sha & [-> _]%st_lift_Ok & Hp).
  apply st_bind_Ok in Hp as (? & [] & [-> _]%st_lift_Ok & Hp).
  apply st_bind_Ok in Hp as (? & [] & [-> _]%st_lift_Ok & Hp).
  apply st_bind_Ok in Hp as (? & [] & [-> _]%st_lift_Ok & Hp). injection Hp as <- <- <-.
  split_and!; [done..|]. eexists. split; [done|]. cbn [pb_writes write_all foldl fst snd].
  by apply (recorded_snoc tn origin store Durable rows row (p_head p)).
Qed.

(** Publishing the row of a new identity adds exactly that row. *)
Lemma publish_receipt_Ok origin roots p row s h store store' v o rows :
  recorded (tenant s) (source_read store Durable) rows → row_ok (tenant s) row →
  find_row (rr_key row) rows = None → p_rows p = [row] →
  p_previous p = {| v_source := Some Durable; v_head := h |} →
  chain_head (tenant s) origin (rows ++ [row]) = Ok (p_head p) →
  0 < mr_encoded_bytes (p_head p) → 0 < mr_last_applied_revision (p_head p) →
  publish_receipt roots p store = (store', Ok (v, o)) →
  v = {| v_source := Some Durable; v_head := p_head p |} ∧
  recorded (tenant s) (source_read (from_option (λ b, write_all store' (pb_writes b)) store' o) Durable) (rows ++ [row]).
Proof.
  intros Hrec Hok Hf Hrows Hprev Hh Hb Hl Hp.
  assert (Hstage : stage_receipts p store = (store', Ok v) → o = None →
    v = {| v_source := Some Durable; v_head := p_head p |} ∧
    recorded (tenant s) (source_read (from_option (λ b, write_all store' (pb_writes b)) store' o) Durable) (rows ++ [row])).
  { intros Hst ->. destruct (stage_new store Durable rows h s origin p row Hrec eq_refl I Hrows Hprev Hh Hok Hb Hl Hf)
      as (store1 & Hst' & Hrec'). rewrite Hst in Hst'. injection Hst' as -> ->. done. }
  destruct roots as [roots|]; cbn [publish_receipt] in Hp.
  - apply (prepare_publication_Ok _ _ row) in Hp as [[Hst Ho]|(source & length & Hsrc & _ & Hpp)]; [by apply Hstage| |done].
    rewrite Hprev in Hsrc. injection Hsrc as <-.
    apply (prepare_pair_Ok (tenant s) origin _ _ _ _ _ _ _ _ rows) in Hpp as (-> & -> & b & -> & Hrec'); done.
  - apply stage_separately_Ok in Hp as [Hst ->]. by apply Hstage.
Qed.

(** ** The receipts of a generation *)

(** The store of a generation holds exactly these rows, and its view and its
    state select all of them. *)
Record durable (origin : string) (rows : list ReceiptRow) (store : gmap string string) (g : Generation) : Prop := {
  du_source : v_source (g_receipts g) = Some Durable;
  du_head : v_head (g_receipts g) = mutation_receipt_head (g_state g);
  du_chain : chain_head (tenant (g_state g)) origin rows = Ok (v_head (g_receipts g));
  du_rows : recorded (tenant (g_state g)) (source_read store Durable) rows;
}.

(** The row that records an outcome of a new identity. *)
Definition next_row (g : Generation) (c : Command) (batch : MutationBatch) (applied : AppliedIdentity)
    (key digest : string) (outcome : Result WriteReceipt) : ReceiptRow :=
  {| rr_ordinal := mr_count (v_head (g_receipts g)) + 1; rr_key := key;
     rr_previous_sha256 := mr_sha256 (v_head (g_receipts g)); rr_applied := applied;
     rr_receipt := set_receipt_outcome outcome
                     (receipt_template (set_revision (a_revision applied) (g_state g)) c batch digest) |}.

Lemma prepare_receipt_row previous s receipt absent applied p :
  prepare_receipt previous s (Some (receipt, absent)) applied = Ok p →
  p_rows p = [{| rr_ordinal := mr_count (v_head previous) + 1; rr_key := ab_key absent;
                 rr_previous_sha256 := mr_sha256 (v_head previous); rr_applied := applied; rr_receipt := receipt |}].
Proof.
  unfold prepare_receipt. intros [_ Hp]%seq_Ok. apply bind_Ok in Hp as (d & _ & Hp).
  apply seq_Ok in Hp as [Hab%demand_Ok Hp]. rewrite andb_true_iff, !bool_decide_eq_true in Hab. destruct Hab as [-> _].
  apply bind_Ok in Hp as (n & [-> _]%context_or_Ok%checked_add_Some & Hp). apply bind_Ok in Hp as (fb & _ & Hp).
  apply bind_Ok in Hp as (h & _ & Hp). by apply seq_Ok in Hp as [_ [= <-]].
Qed.

Lemma prepare_permit_template s c batch applied digest permit :
  prepare_permit s c batch applied digest = Ok permit → template permit = receipt_template s c batch digest.
Proof.
  unfold prepare_permit. intros Hp. do 5 (apply bind_Ok in Hp as (? & _ & Hp)).
  by apply reject_Ok in Hp as [_ [= <-]].
Qed.

Lemma finalize_permit_Ok permit v absent s outcome applied p s' :
  finalize_permit permit v absent s outcome applied = Ok (p, s') →
  prepare_receipt v s (Some (set_receipt_outcome outcome (template permit), absent)) applied = Ok p ∧
  s' = set_mutation_receipt_head (p_head p) s.
Proof.
  unfold finalize_permit. intros Hf. apply bind_Ok in Hf as (q & Hq & Hf). apply bind_Ok in Hf as (n & _ & Hf).
  destruct (_ || _ || _); [done|]. by injection Hf as <- <-.
Qed.

(** A generation selected for an outcome holds one more row. *)
Lemma select_Ok origin rows store store' g roots permit absent key digest c batch applied s s1 p s2 idx x changed outcome pc :
  durable origin rows store g → ab_key absent = key → find_row key rows = None →
  prepare_permit (set_revision (a_revision applied) (g_state g)) c batch applied digest = Ok permit →
  finalize_permit permit (g_receipts g) absent s outcome applied = Ok (p, s1) →
  (∃ t a, s2 = set_audit_retention t (set_audits a s1)) →
  readable (next_row g c batch applied key digest outcome) →
  readable (index_of (next_row g c batch applied key digest outcome)) →
  select g roots p s2 idx x changed outcome store = (store', Ok pc) →
  ∃ g', pc_generation pc = Some g' ∧ g_state g' = s2 ∧ pc_outcome pc = outcome ∧
    durable origin (rows ++ [next_row g c batch applied key digest outcome]) (committed store' pc) g'.
Proof.
  intros [Hsrc Hhd Hch Hrec] <- Hf Hpm Hfin (t & a & ->) Hr1 Hr2 Hsel.
  apply finalize_permit_Ok in Hfin as [Hprep ->]. rewrite (prepare_permit_template _ _ _ _ _ _ Hpm) in Hprep.
  destruct (g_receipts g) as [src h] eqn:Hg. cbn [v_source v_head] in *. subst src.
  pose proof (prepare_receipt_row _ _ _ _ _ _ Hprep) as Hrow. cbn [v_head] in Hrow.
  assert (Ht : tenant s = tenant (g_state g)).
  { unfold prepare_receipt in Hprep. apply seq_Ok in Hprep as [_ Hprep]. apply bind_Ok in Hprep as (d & _ & Hprep).
    apply seq_Ok in Hprep as [_ Hprep]. apply bind_Ok in Hprep as (n & _ & Hprep). apply bind_Ok in Hprep as (fb & Hv & _).
    by apply validate_receipt_facts in Hv as (_ & <- & _ & _). }
  rewrite <-Ht in Hch, Hrec.
  destruct (prepare_receipt_facts _ _ _ _ _ _ _ _ Hprep Hch)
    as (row & Hrows & Hprev & Hrc & _ & Hkey & Hh' & Hd & Htn & Hsz & Hb & Hlast & _).
  assert (Hnr : row = next_row g c batch applied (ab_key absent) digest outcome).
  { rewrite Hrow in Hrows. injection Hrows as <-. unfold next_row. by rewrite Hg. }
  unfold select in Hsel. apply st_bind_Ok in Hsel as (st1 & [v o] & Hpub & Hsel). injection Hsel as <- <-.
  assert (Hok : row_ok (tenant s) row) by (subst row; split_and!; try done).
  apply (publish_receipt_Ok origin _ _ row s h _ _ _ _ rows) in Hpub as [-> Hrec']; try done; [|by rewrite Hkey].
  eexists. split; [done|]. cbn [pc_outcome g_state]. split_and!; [done|done|]. subst row.
  split; cbn; [done..|]. unfold committed. cbn. by destruct o.
Qed.

(** The answer to an identity that has a row. *)
Definition replayed (row : ReceiptRow) (digest : string) : Result WriteReceipt :=
  if bool_decide (request_digest (rr_receipt row) = digest) then r_outcome (rr_receipt row)
  else fail Conflict "idempotency key reused for different input".

Definition unavailable : Result WriteReceipt :=
  fail AuditUnavailable "required mutation observation audit capacity unavailable".

(** A command that only observes. *)
Record observes (origin : string) (rows : list ReceiptRow) (store store' : gmap string string)
    (g g' : Generation) (pc : PreparedCommand) (outcome : Result WriteReceipt) : Prop := {
  ob_store : store' = store;
  ob_durable : durable origin rows (committed store' pc) g';
  ob_state : audited_only (g_state g) (g_state g');
  ob_outcome : pc_outcome pc = outcome ∨ pc_outcome pc = unavailable;
}.

(** A command that is admitted. *)
Record admitted (origin : string) (rows : list ReceiptRow) (store' : gmap string string) (g g' : Generation)
    (c : Command) (batch : MutationBatch) (applied : AppliedIdentity) (resolver : Resolver) (key digest : string)
    (pc : PreparedCommand) : Prop := {
  ad_durable : durable origin (rows ++ [next_row g c batch applied key digest (pc_outcome pc)]) (committed store' pc) g';
  ad_effect :
    match pc_outcome pc with
    | Ok receipt => ∃ next,
        attempt_mutation c batch (a_revision applied) resolver (g_state g)
          (set_revision (a_revision applied) (g_state g)) = (next, Ok receipt) ∧ recorded_only next (g_state g')
    | Err _ => recorded_only (g_state g) (g_state g')
    end;
}.

Lemma observation_observes origin rows store g c rev outcome pc :
  durable origin rows store g → prepare_mutation_observation g c rev outcome = Ok pc →
  ∃ g', pc_generation pc = Some g' ∧ observes origin rows store store g g' pc outcome.
Proof.
  intros [Hsrc Hhd Hch Hrec] (s & x & Hpc & Hau & Hrev & Ho)%observation_facts. rewrite Hpc. eexists. split; [done|].
  pose proof Hau as [(r & h & t & a & Hs) Hh]. split; [done| |done|by rewrite <-Hpc].
  split; cbn [observed g_receipts g_state committed pc_publication]; [done|by rewrite Hh|..]; by rewrite Hs.
Qed.

Lemma rejection_admitted origin rows store store' g roots permit absent key digest c batch applied resolver e pc :
  durable origin rows store g → ab_key absent = key → find_row key rows = None →
  prepare_permit (set_revision (a_revision applied) (g_state g)) c batch applied digest = Ok permit →
  readable (next_row g c batch applied key digest (pc_outcome pc)) →
  readable (index_of (next_row g c batch applied key digest (pc_outcome pc))) →
  prepare_rejection g roots permit absent c (a_revision applied) applied e store = (store', Ok pc) →
  ∃ g', pc_generation pc = Some g' ∧ admitted origin rows store' g g' c batch applied resolver key digest pc.
Proof.
  intros Hdu Hk Hf Hpm Hr1 Hr2 Hp. unfold prepare_rejection in Hp.
  apply st_bind_Ok in Hp as (? & [p s1] & [-> Hfin]%st_lift_Ok & Hp).
  apply st_bind_Ok in Hp as (? & [s2 x] & [-> Hau]%st_lift_Ok & Hp).
  apply st_bind_Ok in Hp as (? & ok & [-> _]%st_lift_Ok & Hp). destruct ok; [|by apply st_lift_Ok in Hp as [_ ?]].
  cbn [negb fst snd] in *. pose proof (finalize_permit_Ok _ _ _ _ _ _ _ _ Hfin) as [_ Hs1].
  assert (Ho : pc_outcome pc = Err e).
  { unfold select in Hp. apply st_bind_Ok in Hp as (? & vp & _ & Hp). by injection Hp as _ <-. }
  rewrite Ho in Hr1, Hr2.
  destruct (append_event_state _ _ _ _ _ _ Hau) as (t & Ht).
  eapply select_Ok in Hp as (g' & Hg' & Hst & _ & Hd); [|done..|by eexists t, _|done|done].
  exists g'. split; [done|]. split; rewrite Ho; [done|]. rewrite Hst, Ht, Hs1. by eexists _, _, t, _.
Qed.

Lemma admission_step origin rows store store' g roots bct absent key digest c batch applied resolver pc :
  durable origin rows store g → ab_key absent = key → find_row key rows = None →
  readable (next_row g c batch applied key digest (pc_outcome pc)) →
  readable (index_of (next_row g c batch applied key digest (pc_outcome pc))) →
  admit_mutation g roots absent digest bct c batch applied resolver store = (store', Ok pc) →
  ∃ g', pc_generation pc = Some g' ∧
    ((∃ e, observes origin rows store store' g g' pc (Err e)) ∨
     admitted origin rows store' g g' c batch applied resolver key digest pc).
Proof.
  intros Hdu Hk Hf Hr1 Hr2 Hp. unfold admit_mutation in Hp.
  destruct (prepare_permit _ c batch applied digest) as [permit|e] eqn:Hpm.
  2: { destruct (bool_decide (code e = QuotaExceeded)); [|by apply st_lift_Ok in Hp as [_ ?]].
       apply st_lift_Ok in Hp as [-> Hp]. eapply observation_observes in Hp as (g' & Hg' & Hob); [|done]. eauto. }
  apply st_bind_Ok in Hp as (? & [s1 x1] & [-> _]%st_lift_Ok & Hp).
  apply st_bind_Ok in Hp as (? & ok & [-> _]%st_lift_Ok & Hp). destruct ok; cbn [negb] in Hp.
  2: { apply st_lift_Ok in Hp as [-> Hp]. eapply observation_observes in Hp as (g' & Hg' & Hob); [|done]. eauto. }
  unfold prepare_admitted in Hp. apply st_bind_Ok in Hp as (? & [] & [-> _]%st_lift_Ok & Hp).
  apply st_bind_Ok in Hp as (? & outcome & [-> Ho]%st_lift_Ok & Hp).
  assert (Hrej : ∀ e, prepare_rejection g roots permit absent c (a_revision applied) applied e store = (store', Ok pc) →
    ∃ g', pc_generation pc = Some g' ∧
      ((∃ e, observes origin rows store store' g g' pc (Err e)) ∨ admitted origin rows store' g g' c batch applied resolver key digest pc)).
  { intros e (g' & Hg' & Had)%(rejection_admitted origin rows _ _ _ _ _ _ key digest _ batch _ resolver); eauto. }
  destruct outcome as [receipt|e]; [|by apply (Hrej e)].
  apply st_bind_Ok in Hp as (? & [p s2] & [-> Hfin]%st_lift_Ok & Hp).
  apply st_bind_Ok in Hp as (? & [s3 x3] & [-> Hau]%st_lift_Ok & Hp).
  apply st_bind_Ok in Hp as (? & ok & [-> _]%st_lift_Ok & Hp). destruct ok; [|by eapply Hrej].
  apply st_bind_Ok in Hp as (? & idx & [-> _]%st_lift_Ok & Hp). cbn [fst snd] in *.
  pose proof (finalize_permit_Ok _ _ _ _ _ _ _ _ Hfin) as [_ Hs2].
  destruct (append_event_state _ _ _ _ _ _ Hau) as (t & Ht).
  assert (Hpo : pc_outcome pc = Ok receipt).
  { unfold select in Hp. apply st_bind_Ok in Hp as (? & vp & _ & Hp). by injection Hp as _ <-. }
  rewrite Hpo in Hr1, Hr2.
  eapply select_Ok in Hp as (g' & Hg' & Hst & _ & Hd); [|done..|by eexists t, _|done|done].
  exists g'. split; [done|]. right. split; rewrite Hpo; [done|].
  unfold deterministic in Ho. destruct (attempt_mutation _ _ _ _ _ _) as [nx [rc|[f|f]]] eqn:Hatt; cbn [snd fst] in *;
    [|done|by destruct (bool_decide (code f = Corruption))].
  injection Ho as <-. exists nx. split; [done|]. rewrite Hst, Ht, Hs2. by eexists _, _, t, _.
Qed.

Lemma mutation_step origin rows store store' g roots bct c batch applied resolver key n digest pc :
  durable origin rows store g →
  staged_digest (c_principal (context c), idempotency_key batch) = Ok (key, n) → batch_digest batch = Ok digest →
  readable (next_row g c batch applied key digest (pc_outcome pc)) →
  readable (index_of (next_row g c batch applied key digest (pc_outcome pc))) →
  prepare_mutation_ordered g roots bct c batch applied resolver store = (store', Ok pc) →
  ∃ g', pc_generation pc = Some g' ∧
    match find_row key rows with
    | Some row => observes origin rows store store' g g' pc (replayed row digest) ∨
                  ∃ e, observes origin rows store store' g g' pc (Err e)
    | None => (∃ e, observes origin rows store store' g g' pc (Err e)) ∨
              admitted origin rows store' g g' c batch applied resolver key digest pc
    end.
Proof.
  intros Hdu Hkey Hdig Hr1 Hr2 Hp. unfold prepare_mutation_ordered in Hp.
  destruct (authorize_mutation (g_state g) c batch) as [[]|e].
  2: { apply st_lift_Ok in Hp as [-> Hp]. eapply observation_observes in Hp as (g' & Hg' & Hob); [|done].
       exists g'. split; [done|]. destruct (find_row key rows); eauto. }
  rewrite Hkey, Hdig in Hp. rewrite (st_bind_lift _ _ _ (key, n)), (st_bind_lift _ _ _ digest) in Hp by done.
  rewrite st_bind_get in Hp. cbn [fst snd] in Hp.
  assert (Hd : Ledger.digest key = true) by (by apply staged_digest_Ok in Hkey as (-> & _); apply sha256_hex_digest).
  pose proof Hdu as [Hsrc _ Hch Hrec]. apply st_bind_Ok in Hp as (? & lookup & [-> Hl]%st_lift_Ok & Hp).
  unfold view_lookup in Hl. destruct (g_receipts g) as [src h] eqn:Hg. cbn [v_source v_head] in *. subst src.
  rewrite (view_get_exact _ _ _ _ _ _ _ _ Hrec (selects_top _ _ _ _ Hch) Hd), take_ge, bind_Ok_l in Hl by done.
  injection Hl as <-. destruct (find_row key rows) as [row|] eqn:Hf.
  - apply st_bind_Ok in Hp as (? & fb & [-> _]%st_lift_Ok & Hp). apply st_lift_Ok in Hp as [-> Hp].
    eapply observation_observes in Hp as (g' & Hg' & Hob); [|done]. eauto.
  - eapply (admission_step origin rows _ _ _ _ _ {| ab_key := key; ab_head := h |} key) in Hp; done.
Qed.

(** ** Sequences of commands *)

Record Executed := {
  x_key : string;
  x_digest : string;
  x_outcome : Result WriteReceipt;
  x_before : TenantState;
  x_after : TenantState;
}.

(** Commands one after the other; the writes of each are committed before the
    next, and the store reads back what it wrote. *)
Inductive runs : gmap string string → Generation → list Executed → gmap string string → Generation → Prop :=
| runs_nil store g : runs store g [] store g
| runs_step store g roots bct c batch applied resolver key n digest store' pc g' l store2 g2 :
    staged_digest (c_principal (context c), idempotency_key batch) = Ok (key, n) → batch_digest batch = Ok digest →
    prepare_mutation_ordered g roots bct c batch applied resolver store = (store', Ok pc) →
    readable (next_row g c batch applied key digest (pc_outcome pc)) →
    readable (index_of (next_row g c batch applied key digest (pc_outcome pc))) →
    pc_generation pc = Some g' → runs (committed store' pc) g' l store2 g2 →
    runs store g ({| x_key := key; x_digest := digest; x_outcome := pc_outcome pc; x_before := g_state g;
                     x_after := g_state g' |} :: l) store2 g2.

(** A success is in the history under its key. *)
Definition recorded_success (rows : list ReceiptRow) (x : Executed) : Prop :=
  ∀ receipt, x_outcome x = Ok receipt →
    ∃ row, find_row (x_key x) rows = Some row ∧ request_digest (rr_receipt row) = x_digest x ∧
      r_outcome (rr_receipt row) = Ok receipt.

Lemma find_row_more key rows more row : find_row key rows = Some row → find_row key (rows ++ more) = Some row.
Proof.
  induction more as [|r more IH] using rev_ind; intros Hf; [by rewrite app_nil_r|].
  rewrite app_assoc, find_row_app, IH by done. done.
Qed.

Lemma observed_success origin rows store store' g g' pc outcome receipt :
  observes origin rows store store' g g' pc outcome → pc_outcome pc = Ok receipt → outcome = Ok receipt.
Proof. intros [_ _ _ [Ho|Ho]] Hr; [congruence|]. by rewrite Ho in Hr. Qed.

Lemma replayed_success row digest receipt :
  replayed row digest = Ok receipt → request_digest (rr_receipt row) = digest ∧ r_outcome (rr_receipt row) = Ok receipt.
Proof. unfold replayed. by case_bool_decide. Qed.

(** One command: the history grows by at most a row, which holds its outcome. *)
Lemma step_facts origin rows store store' g roots bct c batch applied resolver key n digest pc g' :
  durable origin rows store g →
  staged_digest (c_principal (context c), idempotency_key batch) = Ok (key, n) → batch_digest batch = Ok digest →
  prepare_mutation_ordered g roots bct c batch applied resolver store = (store', Ok pc) →
  readable (next_row g c batch applied key digest (pc_outcome pc)) →
  readable (index_of (next_row g c batch applied key digest (pc_outcome pc))) →
  pc_generation pc = Some g' →
  ∃ more, durable origin (rows ++ more) (committed store' pc) g' ∧
    (∀ receipt, pc_outcome pc = Ok receipt → ∃ row, find_row key (rows ++ more) = Some row ∧
       request_digest (rr_receipt row) = digest ∧ r_outcome (rr_receipt row) = Ok receipt) ∧
    (audited_only (g_state g) (g_state g') ∨
     find_row key rows = None ∧ ∃ row, find_row key (rows ++ more) = Some row ∧
       request_digest (rr_receipt row) = digest ∧ r_outcome (rr_receipt row) = pc_outcome pc).
Proof.
  intros Hdu Hk Hd Hp Hr1 Hr2 Hg'.
  destruct (mutation_step origin rows store store' g roots bct c batch applied resolver key n digest pc Hdu Hk Hd Hr1 Hr2 Hp)
    as (g1 & Hg1 & Hcase). rewrite Hg' in Hg1. injection Hg1 as <-.
  assert (Hob : ∀ o, observes origin rows store store' g g' pc o →
    (∀ receipt, o = Ok receipt → ∃ row, find_row key rows = Some row ∧
       request_digest (rr_receipt row) = digest ∧ r_outcome (rr_receipt row) = Ok receipt) →
    ∃ more, durable origin (rows ++ more) (committed store' pc) g' ∧
    (∀ receipt, pc_outcome pc = Ok receipt → ∃ row, find_row key (rows ++ more) = Some row ∧
       request_digest (rr_receipt row) = digest ∧ r_outcome (rr_receipt row) = Ok receipt) ∧
    (audited_only (g_state g) (g_state g') ∨
     find_row key rows = None ∧ ∃ row, find_row key (rows ++ more) = Some row ∧
       request_digest (rr_receipt row) = digest ∧ r_outcome (rr_receipt row) = pc_outcome pc)).
  { intros o Hobs Ho. exists []. rewrite app_nil_r. split_and!; [apply Hobs| |left; apply Hobs].
    intros receipt Hrc. eapply Ho, observed_success; done. }
  destruct (find_row key rows) as [row|] eqn:Hf.
  - destruct Hcase as [Hc|[e Hc]]; eapply Hob; try done. intros receipt [? ?]%replayed_success. by exists row.
  - destruct Hcase as [[e Hc]|[Hdu' Heff]]; [by eapply Hob|]. eexists [_]. split; [exact Hdu'|].
    assert (Hrow : find_row key (rows ++ [next_row g c batch applied key digest (pc_outcome pc)]) =
      Some (next_row g c batch applied key digest (pc_outcome pc))).
    { rewrite find_row_app, Hf. cbn. by rewrite bool_decide_true. }
    split; [|right; split; [done|]; by eexists]. intros receipt Hrc. rewrite Hrow. eexists. by split_and!.
Qed.

Lemma runs_recorded origin store g l store' g' : runs store g l store' g' →
  ∀ rows, durable origin rows store g →
  ∃ more, durable origin (rows ++ more) store' g' ∧ Forall (recorded_success (rows ++ more)) l.
Proof.
  induction 1 as [|store g roots bct c batch applied resolver key n digest store' pc g' l store2 g2 Hk Hd Hp Hr1 Hr2 Hg' Hrun IH];
    intros rows Hdu; [exists []; by rewrite app_nil_r|].
  destruct (step_facts origin rows _ _ _ _ _ _ _ _ _ _ _ _ _ _ Hdu Hk Hd Hp Hr1 Hr2 Hg') as (m1 & Hdu' & Hok & _).
  destruct (IH _ Hdu') as (m2 & Hdu2 & Hall). rewrite <-app_assoc in Hdu2, Hall. exists (m1 ++ m2).
  split; [done|]. constructor; [|done]. intros receipt Hrc. destruct (Hok receipt Hrc) as (row & Hf & ? & ?).
  exists row. cbn. rewrite app_assoc. split_and!; [by apply find_row_more|done..].
Qed.

Lemma runs_keys store g l store' g' : runs store g l store' g' → Forall (λ x, Ledger.digest (x_key x) = true) l.
Proof.
  induction 1 as [|store g roots bct c batch applied resolver key n digest store' pc g' l store2 g2 Hk]; constructor; [|done].
  apply staged_digest_Ok in Hk as (-> & _). apply sha256_hex_digest.
Qed.

(** A key with a row is only observed. *)
Lemma runs_known origin store g l store' g' : runs store g l store' g' →
  ∀ rows key row, durable origin rows store g → find_row key rows = Some row →
  ∀ y, y ∈ l → x_key y = key → audited_only (x_before y) (x_after y) ∧
    ∀ receipt, x_outcome y = Ok receipt → x_digest y = request_digest (rr_receipt row) ∧ r_outcome (rr_receipt row) = Ok receipt.
Proof.
  induction 1 as [|store g roots bct c batch applied resolver key n digest store' pc g' l store2 g2 Hk Hd Hp Hr1 Hr2 Hg' Hrun IH];
    intros rows k row Hdu Hf y Hy Hyk; [by apply elem_of_nil in Hy|].
  destruct (step_facts origin rows _ _ _ _ _ _ _ _ _ _ _ _ _ _ Hdu Hk Hd Hp Hr1 Hr2 Hg') as (m1 & Hdu' & Hok & Hch).
  apply elem_of_cons in Hy as [->|Hy]; [|eapply IH; [exact Hdu'|by apply find_row_more|done|done]].
  cbn in Hyk |- *. subst k. split; [by destruct Hch as [?|[Hn _]]; [|rewrite Hf in Hn]|].
  intros receipt Hrc. destruct (Hok receipt Hrc) as (r & Hr & Hrd & Hro).
  rewrite (find_row_more _ _ m1 _ Hf) in Hr. injection Hr as <-. done.
Qed.

Lemma runs_at_most_once origin store g l store' g' : runs store g l store' g' →
  ∀ rows, durable origin rows store g →
  ∀ i j x y, (i < j)%nat → l !! i = Some x → l !! j = Some y → x_key x = x_key y →
  ¬ audited_only (x_before x) (x_after x) →
  audited_only (x_before y) (x_after y) ∧
  ∀ receipt, x_outcome y = Ok receipt → x_digest y = x_digest x ∧ x_outcome x = Ok receipt.
Proof.
  induction 1 as [|store g roots bct c batch applied resolver key n digest store' pc g' l store2 g2 Hk Hd Hp Hr1 Hr2 Hg' Hrun IH];
    intros rows Hdu i j x y Hij Hi Hj Hxy Hch; [done|].
  destruct (step_facts origin rows _ _ _ _ _ _ _ _ _ _ _ _ _ _ Hdu Hk Hd Hp Hr1 Hr2 Hg') as (m1 & Hdu' & _ & Hstep).
  destruct j as [|j]; [lia|]. cbn in Hj. destruct i as [|i]; [|cbn in Hi; eapply (IH _ Hdu' i j); eauto; lia].
  cbn in Hi. injection Hi as <-. destruct Hstep as [Hau|[_ (row & Hf & Hrd & Hro)]]; [done|]. cbn in Hxy |- *.
  destruct (runs_known origin _ _ _ _ _ Hrun _ key row Hdu' Hf y) as [Hy Hout];
    [by eapply list_elem_of_lookup_2|done|]. split; [done|].
  intros receipt Hrc. destruct (Hout receipt Hrc) as [-> Ho]. split; congruence.
Qed.
End steps.

(** C1. A mutation is applied at most once and its answer is permanent: over
    any sequence of mutation commands, whether receipts are committed apart or
    with the cursor, every success is in the final history under its key with
    the digest of its batch and its receipt; and once a command under a key
    changed more than the cursor and the audit log, every later command under
    that key changes nothing else and succeeds only with the recorded receipt,
    for the same batch. *)
Theorem mutation_at_most_once `{Sha256} `{UuidParse} `{FromSlice Ordinal} `{FromSlice ReceiptRow} `{QueryRules}
    `{IndexRules} `{IndexUpdates} `{CompletedMetadata} `{Sharing} `{!Sha256Hex}
    (origin : string) (rows : list ReceiptRow) (store store' : gmap string string) (g g' : Generation)
    (l : list Executed) :
  durable origin rows store g → runs store g l store' g' →
  (∀ x receipt, x ∈ l → x_outcome x = Ok receipt →
     ∃ row, view_get store' (g_receipts g') (x_key x) = Ok (Some row) ∧
       request_digest (rr_receipt row) = x_digest x ∧ r_outcome (rr_receipt row) = Ok receipt) ∧
  (∀ i j x y, (i < j)%nat → l !! i = Some x → l !! j = Some y → x_key x = x_key y →
     ¬ audited_only (x_before x) (x_after x) →
     audited_only (x_before y) (x_after y) ∧
     ∀ receipt, x_outcome y = Ok receipt → x_digest y = x_digest x ∧ x_outcome x = Ok receipt).
Proof.
  intros Hdu Hrun. split; [|by eapply runs_at_most_once].
  intros x receipt Hx Hrc. pose proof (runs_keys _ _ _ _ _ Hrun) as Hd. rewrite Forall_forall in Hd. specialize (Hd x Hx).
  destruct (runs_recorded origin _ _ _ _ _ Hrun rows Hdu) as (more & [Hsrc _ Hch Hrec] & Hall).
  rewrite Forall_forall in Hall. destruct (Hall x Hx receipt Hrc) as (row & Hf & Hrd & Hro). exists row.
  split_and!; [|done..]. destruct (g_receipts g') as [src h]. cbn [v_source v_head] in *. subst src.
  rewrite (view_get_exact _ _ _ _ _ _ _ _ Hrec (selects_top _ _ _ _ Hch) Hd). by rewrite take_ge, Hf.
Qed.

Module MutateSample.
#[export] Instance sha : Sha256 := Sample.sha.
#[export] Instance parse : UuidParse := Sample.parse.
#[export] Instance rules : QueryRules := ApplySample.rules.
#[export] Instance index_rules : IndexRules := StagingSample.index_rules.
#[export] Instance updates : IndexUpdates := {| Indexes := unit; update_indexes _ _ _ _ _ := Ok tt |}.
#[export] Instance completed : CompletedMetadata := AccountingSample.completed.
#[export] Instance sharing : Sharing := AccountingSample.sharing.

(** The store of the publication. *)
Definition roots : Roots := {| rt_same_store := true; rt_encryption_overhead := Ok 40; rt_reserve _ := Ok tt |}.

Definition state : TenantState := ApplySample.state.
Definition sizes : SnapshotAccounting := Eval vm_compute in
  match rebuild state with Ok x => x | Err _ => AccountingSample.no_accounting end.
Definition generation : Generation :=
  {| g_state := state; g_receipts := {| v_source := Some Durable; v_head := ReceiptSample.head |};
     g_indexes := tt; g_accounting := sizes |}.

Definition batch : MutationBatch := {| idempotency_key := "k1"; read_set := []; operations := ApplySample.ops |}.
Definition command (b : MutationBatch) : Command :=
  {| context := Sample.context; timestamp_ms := 1000; operation := Mutate b |}.
Definition applied (rev : N) : AppliedIdentity :=
  {| a_incarnation := "i1"; a_revision := rev; a_timestamp_ms := 1000; command_sha256 := Sample.zeros 64;
     origin := Raft 1 1 rev (Sample.zeros 64) |}.
Definition receipt : WriteReceipt :=
  {| wr_revision := 5; versions := {[document_path "docs" "a" := 5; document_path "log" "b" := 5]} |}.
(** The row of the batch, and the row that a second execution would have. *)
Definition row : ReceiptRow := Eval vm_compute in
  next_row generation (command batch) batch (applied 5) (Sample.zeros 64) (Sample.zeros 64) (Ok receipt).
Definition again : ReceiptRow := Eval vm_compute in
  {| rr_ordinal := 2; rr_key := rr_key row; rr_previous_sha256 := Sample.zeros 64; rr_applied := applied 6;
     rr_receipt := {| r_scope := r_scope (rr_receipt row); r_idempotency_key := "k1"; recorded_revision := 6;
                      request_digest := Sample.zeros 64; r_collections := r_collections (rr_receipt row);
                      r_outcome := Ok receipt |} |}.
#[export] Instance row_from_slice : FromSlice ReceiptRow := λ s,
  if bool_decide (s = to_json row) then Ok row
  else if bool_decide (s = to_json again) then Ok again else Err (AnyMessage "unknown row").
(** Both rows have the same commitment. *)
Definition ordinal : Ordinal := Eval vm_compute in index_of row.
#[export] Instance ordinal_from_slice : FromSlice Ordinal := λ s,
  if bool_decide (s = to_json ordinal) then Ok ordinal else Err (AnyMessage "unknown row").

(** A command on a store, and what it prepares. *)
Abbreviation execute g rev store :=
  (prepare_mutation_ordered g (Some roots) (λ _, Ok tt) (command batch) batch (applied rev) None store).
Definition prepared (r : Anyhow PreparedCommand) : PreparedCommand :=
  match r with
  | Ok pc => pc
  | Err _ => {| pc_publication := None; pc_generation := None; pc_changed := ∅; pc_outcome := Ok receipt |}
  end.
Definition first : PreparedCommand := Eval vm_compute in prepared (execute generation 5 ∅).2.
Definition applied_once : Generation := Eval vm_compute in default generation (pc_generation first).
Abbreviation store := (committed (execute generation 5 ∅).1 first).
Definition second : PreparedCommand := Eval vm_compute in prepared (execute applied_once 6 store).2.
Definition replayed_once : Generation := Eval vm_compute in default generation (pc_generation second).
Abbreviation store_after := (committed (execute applied_once 6 store).1 second).
End MutateSample.

(** An equation that the virtual machine decides. *)
Ltac vm_refl := unfold readable; match goal with |- ?x = ?y => exact (@eq_refl _ y <: x = y) end.

Section mutate_witness.
Import MutateSample.

#[local] Instance mutate_hex : Sha256Hex.
Proof. intros s. reflexivity. Qed.

Lemma sample_durable : durable "i1" [] ∅ generation.
Proof. split; [reflexivity|vm_compute; reflexivity|vm_compute; reflexivity|]. split; [done|done|constructor]. Qed.

Definition first_executed : Executed :=
  {| x_key := Sample.zeros 64; x_digest := Sample.zeros 64; x_outcome := pc_outcome first; x_before := g_state generation;
     x_after := g_state applied_once |}.
Definition second_executed : Executed :=
  {| x_key := Sample.zeros 64; x_digest := Sample.zeros 64; x_outcome := pc_outcome second; x_before := g_state applied_once;
     x_after := g_state replayed_once |}.

Lemma run_prepared {S E A} (p : S * result E A) a : p.2 = Ok a → p = (p.1, Ok a).
Proof. destruct p. by intros <-. Qed.

Lemma first_prepared : (execute generation 5 ∅).2 = Ok first.
Proof. vm_refl. Qed.

Lemma second_prepared : (execute applied_once 6 store).2 = Ok second.
Proof. vm_refl. Qed.

Lemma sample_key : staged_digest (c_principal (context (command batch)), idempotency_key batch) = Ok (Sample.zeros 64, 13).
Proof. vm_refl. Qed.

Lemma sample_digest : batch_digest batch = Ok (Sample.zeros 64).
Proof. vm_refl. Qed.

Lemma first_row :
  next_row generation (command batch) batch (applied 5) (Sample.zeros 64) (Sample.zeros 64) (pc_outcome first) = row.
Proof. vm_refl. Qed.
Lemma second_row :
  next_row applied_once (command batch) batch (applied 6) (Sample.zeros 64) (Sample.zeros 64) (pc_outcome second) = again.
Proof. vm_refl. Qed.

Lemma sample_ordinals : index_of row = ordinal ∧ index_of again = ordinal.
Proof. split; vm_refl. Qed.

Lemma sample_rows_readable (r : ReceiptRow) : r = row ∨ r = again → readable r ∧ readable (index_of r).
Proof.
  destruct sample_ordinals as [Hr Ha]. intros [->| ->]; [rewrite Hr|rewrite Ha]; split; vm_refl.
Qed.

Lemma second_selected : pc_generation second = Some replayed_once.
Proof. vm_refl. Qed.

Lemma first_selected : pc_generation first = Some applied_once.
Proof. vm_refl. Qed.

Lemma sample_second : runs store applied_once [second_executed] store_after replayed_once.
Proof.
  unfold second_executed. eapply runs_step; [exact sample_key|exact sample_digest|exact (run_prepared _ _ second_prepared)| | | |].
  - rewrite second_row. apply sample_rows_readable. by right.
  - rewrite second_row. apply sample_rows_readable. by right.
  - exact second_selected.
  - apply runs_nil.
Qed.

Lemma sample_runs : runs ∅ generation [first_executed; second_executed] store_after replayed_once.
Proof.
  unfold first_executed. eapply runs_step; [exact sample_key|exact sample_digest|exact (run_prepared _ _ first_prepared)| | | |].
  - rewrite first_row. apply sample_rows_readable. by left.
  - rewrite first_row. apply sample_rows_readable. by left.
  - exact first_selected.
  - exact sample_second.
Qed.

(** A batch that writes two documents, and its replay. *)
Lemma mutation_at_most_once_witness :
  (∃ row, view_get store_after (g_receipts replayed_once) (Sample.zeros 64) = Ok (Some row) ∧
     request_digest (rr_receipt row) = Sample.zeros 64 ∧ r_outcome (rr_receipt row) = Ok receipt) ∧
  audited_only (g_state applied_once) (g_state replayed_once).
Proof.
  destruct (mutation_at_most_once "i1" [] ∅ store_after generation replayed_once
    [first_executed; second_executed] sample_durable sample_runs) as [Hrec Hone].
  split.
  - exact (Hrec first_executed receipt (list_elem_of_here _ _) eq_refl).
  - refine (proj1 (Hone 0%nat 1%nat _ _ _ eq_refl eq_refl eq_refl _)); [lia|].
    intros [(r & h & t & a & Hs) _]. apply (f_equal document_count) in Hs. vm_compute in Hs. discriminate.
Defined.
End mutate_witness.
