(* ===== verification/Reserve.v ===== *)
(** * The capacity an admitted mutation reserves

    Shows of src/crates/kasumi-engine/src/mutation_apply.rs (module [Mutate])
    what its comments promise: once a mutation is admitted, its rejection can
    always be recorded. The permit bounds the row of every rejection, and the
    reserved state dominates the rejected one in every byte the accounting
    charges. *)

From S2P Require Import Prelude Json Types Digest State Apply ChangeFeed Staging Ledger Meter.
From S2P Require Import Wire Receipts Snapshot Restore Accounting Capacity Mutate.

(** ** The longest error *)

Lemma escaped_len s : str_len (escaped_contents s) ≤ 6 * str_len s.
Proof.
  induction s as [|c s IH]; [done|]. cbn [escaped_contents]. rewrite str_len_app, str_len_cons.
  pose proof (escape_char_len c). lia.
Qed.

Lemma maximum_error_longest e :
  str_len (message e) ≤ MAX_MESSAGE_BYTES → vlen (to_value e) ≤ vlen (to_value maximum_error).
Proof.
  intros Hm. assert (Hv : ∀ e, vlen (to_value e) =
    vlen (VObject [("code", to_value (code e)); ("message", VString (message e))])) by reflexivity.
  rewrite !Hv, !vlen_pair.
  assert (Hc : vlen (to_value (code e)) ≤ vlen (to_value (code maximum_error))).
  { destruct (code e); vm_compute; discriminate. }
  assert (Hs : ∀ s, vlen (VString s) = 2 + str_len (escaped_contents s)).
  { intros s. unfold vlen. cbn [write]. unfold write_str. rewrite !str_len_app. change (str_len quote_mark) with 1. lia. }
  rewrite !Hs. pose proof (escaped_len (message e)) as Hl.
  assert (Hmax : str_len (escaped_contents (message maximum_error)) = 6 * MAX_MESSAGE_BYTES) by (vm_compute; reflexivity).
  rewrite Hmax. lia.
Qed.

(** ** The row of a rejection *)

Section rows.
Context `{Sha256}.

Definition row_value (r : ReceiptRow) : value := VObject [("type", VString "Receipt"); ("value", to_value r)].

Lemma framed_receipt_Ok r n :
  framed_receipt r = Ok n ↔ n = vlen (row_value r) + 9 ∧ vlen (row_value r) ≤ MAX_ROW_BYTES.
Proof.
  unfold framed_receipt. fold (row_value r). rewrite bind_Ok. split.
  - intros (k & [-> _]%any_Ok%encoded_vlen & [Hd%demand_Ok%N.leb_le Hr]%seq_Ok).
    by apply context_or_Ok, checked_add_Some in Hr as [-> _].
  - intros [-> Hle]. exists (vlen (row_value r)). rewrite any_Ok, encoded_vlen, seq_Ok, demand_Ok, N.leb_le.
    rewrite context_or_Ok, checked_add_Some. unfold MAX_ROW_BYTES, FRAME_HEADER_BYTES, u64_max in *.
    change (N.shiftl 2 20) with 2097152 in *. split_and!; [done|lia|lia|done|lia].
Qed.

Lemma row_value_len r e e' :
  vlen (row_value (set_row_outcome (Err e) r)) + vlen (to_value e') =
  vlen (row_value (set_row_outcome (Err e') r)) + vlen (to_value e).
Proof.
  assert (Hv : ∀ x, vlen (row_value (set_row_outcome (Err x) r)) = vlen (VObject [("type", VString "Receipt");
    ("value", VObject [("ordinal", to_value (rr_ordinal r)); ("key", VString (rr_key r));
      ("previous_sha256", VString (rr_previous_sha256 r)); ("applied", to_value (rr_applied r));
      ("receipt", VObject [("scope", to_value (r_scope (rr_receipt r))); ("idempotency_key", VString (r_idempotency_key (rr_receipt r)));
           ("recorded_revision", to_value (recorded_revision (rr_receipt r)));
           ("request_digest", VString (request_digest (rr_receipt r)));
           ("collections", to_value (r_collections (rr_receipt r)));
           ("outcome", VObject [("Err", to_value x)])])])])) by reflexivity.
  rewrite !Hv, !vlen_object, !lsum_cons, !lsum_nil. cbn [fst snd].
  rewrite !vlen_object, !lsum_cons, !lsum_nil. cbn [fst snd].
  rewrite !vlen_object, !lsum_cons, !lsum_nil. cbn [fst snd].
  rewrite !vlen_object, !lsum_cons, !lsum_nil. cbn [fst snd]. unfold len. cbn [length]. lia.
Qed.

(** A rejection with a shorter error is a valid row that is not longer. *)
Lemma validate_rejection r s e e' n :
  validate_receipt (set_row_outcome (Err e) r) s = Ok n → vlen (to_value e') ≤ vlen (to_value e) →
  ∃ n', validate_receipt (set_row_outcome (Err e') r) s = Ok n' ∧ n' ≤ n.
Proof.
  unfold validate_receipt. cbn [set_row_outcome rr_ordinal rr_key rr_previous_sha256 rr_applied rr_receipt set_receipt_outcome r_scope r_collections r_outcome recorded_revision].
  intros [Hd Hr]%seq_Ok Hle. apply bind_Ok in Hr as (b & Hb & Hr). apply seq_Ok in Hr as [Hid Hr].
  apply seq_Ok in Hr as [Hsc Hr]. apply seq_Ok in Hr as [Hcn Hr]. apply bind_Ok in Hr as (p & Hp & Hr).
  apply seq_Ok in Hr as [_ Hr]. apply framed_receipt_Ok in Hr as [-> Hmax].
  pose proof (row_value_len r e e') as Hlen. fold (set_row_outcome (Err e) r) in *.
  exists (vlen (row_value (set_row_outcome (Err e') r)) + 9). split; [|lia].
  rewrite Hd, bind_Ok_l, Hb, bind_Ok_l. apply seq_Ok. split; [exact Hid|]. rewrite Hsc, bind_Ok_l, Hcn, bind_Ok_l, Hp, bind_Ok_l.
  apply seq_Ok. split; [done|]. apply framed_receipt_Ok. split; [done|lia].
Qed.

Lemma receipt_sha256_sized r n : framed_receipt r = Ok n → receipt_sha256 r = Ok (sha_of r).
Proof.
  intros [_ Hle]%framed_receipt_Ok. assert (Hs : ∃ sha, receipt_sha256 r = Ok sha).
  { eexists. apply receipt_sha256_Ok. split; [reflexivity|].
    change (str_len (to_json ("kasumi.mutation-receipt-row.v1", r))) with
      (vlen (VArray [VString "kasumi.mutation-receipt-row.v1"; to_value r])).
    unfold row_value in Hle. rewrite vlen_pair in Hle. rewrite vlen_array, !lsum_cons, lsum_nil.
    change (vlen (VString "kasumi.mutation-receipt-row.v1")) with 32. unfold len. cbn [length].
    change MAX_ROW_BYTES with 2097152 in Hle. unfold u64_max. lia. }
  destruct Hs as [sha Hs]. rewrite Hs. by rewrite (sha_of_Ok _ _ Hs).
Qed.

(** What a permit holds. *)
Lemma prepare_permit_Ok s c batch applied digest permit :
  prepare_permit s c batch applied digest = Ok permit →
  ∃ key n rejected,
    staged_digest (c_principal (context c), idempotency_key batch) = Ok (key, n) ∧
    let h := mutation_receipt_head s in
    let row := {| rr_ordinal := mr_count h + 1; rr_key := key; rr_previous_sha256 := mr_sha256 h;
                  rr_applied := applied; rr_receipt := receipt_template s c batch digest |} in
    mr_count h + 1 ≤ u64_max ∧ validate_receipt (set_row_outcome (Err maximum_error) row) s = Ok rejected ∧
    template permit = receipt_template s c batch digest ∧ rejected ≤ maximum_row_bytes permit ∧
    maximum_head permit =
      {| mr_origin_incarnation := mr_origin_incarnation h; mr_count := mr_count h + 1;
         mr_encoded_bytes := mr_encoded_bytes h + maximum_row_bytes permit;
         mr_last_applied_revision := revision s; mr_sha256 := repeat_string 64 "f" |} ∧
    mr_encoded_bytes h + maximum_row_bytes permit ≤ max_mutation_receipt_bytes (limits s) ∧
    mr_encoded_bytes h + maximum_row_bytes permit ≤ u64_max.
Proof.
  unfold prepare_permit. intros Hp.
  apply bind_Ok in Hp as (ordinal & [-> Hc]%ok_or_Ok%checked_add_Some & Hp).
  apply bind_Ok in Hp as ([key n] & Hk & Hp). apply bind_Ok in Hp as (rejected & Hrej & Hp).
  apply map_err_Ok in Hrej. apply bind_Ok in Hp as (com & _ & Hp).
  apply bind_Ok in Hp as (enc & [-> He]%ok_or_Ok%checked_add_Some & Hp).
  apply reject_Ok in Hp as [Hl%N.ltb_ge [= <-]]. exists key, n, rejected. split; [done|].
  cbn [template maximum_row_bytes maximum_head fst]. split_and!; try done.
  lia.
Qed.

Context `{IndexUpdates} `{FromSlice Ordinal} `{FromSlice ReceiptRow} `{!Sha256Hex}.

Lemma rejection_finalized origin rows store g c batch applied digest permit key n e :
  durable origin rows store g →
  staged_digest (c_principal (context c), idempotency_key batch) = Ok (key, n) →
  prepare_permit (set_revision (a_revision applied) (g_state g)) c batch applied digest = Ok permit →
  mr_last_applied_revision (mutation_receipt_head (g_state g)) < a_revision applied →
  str_len (message e) ≤ MAX_MESSAGE_BYTES →
  ∃ p, finalize_permit permit (g_receipts g) {| ab_key := key; ab_head := v_head (g_receipts g) |}
         (set_revision (a_revision applied) (g_state g)) (Err e) applied =
       Ok (p, set_mutation_receipt_head (p_head p) (set_revision (a_revision applied) (g_state g))) ∧
    p_rows p = [next_row g c batch applied key digest (Err e)] ∧
    mr_origin_incarnation (p_head p) = mr_origin_incarnation (maximum_head permit) ∧
    mr_count (p_head p) = mr_count (maximum_head permit) ∧
    mr_encoded_bytes (p_head p) ≤ mr_encoded_bytes (maximum_head permit) ∧
    mr_last_applied_revision (p_head p) = mr_last_applied_revision (maximum_head permit) ∧
    Ledger.digest (mr_sha256 (p_head p)) = true.
Proof.
  intros [_ Hhd _ _] Hk Hpm Hlast Hm.
  destruct (prepare_permit_Ok _ _ _ _ _ _ Hpm) as (key' & n' & rejected & Hk' & Hc & Hrej & Htm & Hle & Hmax & Hq & Hov).
  rewrite Hk in Hk'. injection Hk' as <- <-.
  apply (validate_rejection _ _ _ e) in Hrej as (fb & Hv & Hfb); [|by apply maximum_error_longest].
  destruct (validate_receipt_facts _ _ _ Hv) as (Hfr & _).
  set (s := set_revision (a_revision applied) (g_state g)) in *.
  change (mutation_receipt_head s) with (mutation_receipt_head (g_state g)) in *. rewrite <-Hhd in *.
  set (h := v_head (g_receipts g)) in *. set (row := set_row_outcome (Err e) _) in Hv, Hfr.
  assert (Hadv : advance_framed h row fb = Ok
    {| mr_origin_incarnation := mr_origin_incarnation h; mr_count := mr_count h + 1;
       mr_encoded_bytes := mr_encoded_bytes h + fb; mr_last_applied_revision := a_revision applied; mr_sha256 := sha_of row |}).
  { apply advance_framed_Ok. split_and!; try done; [lia|]. by eapply receipt_sha256_sized. }
  set (h' := {| mr_sha256 := sha_of row |}) in Hadv.
  assert (Hprep : prepare_receipt (g_receipts g) s (Some (set_receipt_outcome (Err e) (template permit), {| ab_key := key; ab_head := h |})) applied =
    Ok {| p_previous := g_receipts g; p_head := h'; p_rows := [row] |}).
  { unfold prepare_receipt. apply seq_Ok. split; [by apply demand_Ok, bool_decide_eq_true|].
    rewrite Htm. cbn [set_receipt_outcome receipt_template r_scope sc_principal r_idempotency_key].
    rewrite Hk. cbn [any map_err]. rewrite bind_Ok_l. apply seq_Ok. split; [apply demand_Ok; cbn; by rewrite !bool_decide_true|].
    apply bind_Ok. exists (mr_count h + 1). split; [by apply context_or_Ok, checked_add_Some|]. cbv zeta.
    fold h. change (validate_receipt _ s) with (validate_receipt row s). rewrite Hv, bind_Ok_l.
    change (advance_framed h _ fb) with (advance_framed h row fb). rewrite Hadv, bind_Ok_l.
    apply seq_Ok. split; [apply demand_Ok, N.leb_le; unfold h'; cbn [mr_encoded_bytes]; lia|done]. }
  exists {| p_previous := g_receipts g; p_head := h'; p_rows := [row] |}. split; [|cbn [p_rows p_head]; rewrite Hmax; cbn [mr_origin_incarnation mr_count mr_encoded_bytes mr_last_applied_revision mr_sha256];
    unfold h'; cbn [mr_origin_incarnation mr_count mr_encoded_bytes mr_last_applied_revision mr_sha256]; split_and!; [reflexivity|reflexivity|reflexivity|lia|reflexivity|]].
  - unfold finalize_permit. rewrite Hprep, bind_Ok_l. cbn [p_head h' mr_encoded_bytes mr_count]. fold h.
    rewrite (proj2 (any_Ok _ fb)); [|apply ok_or_Ok; unfold checked_sub; rewrite (proj2 (N.leb_le _ _)) by lia; f_equal; lia].
    rewrite bind_Ok_l, Hmax. cbn [mr_count mr_encoded_bytes].
    rewrite (proj2 (N.ltb_ge _ _)), N.eqb_refl, (proj2 (N.ltb_ge _ _)) by lia. done.
  - apply sha_of_digest. by eapply receipt_sha256_sized.
Qed.
End rows.

(** ** One more audit event *)

(** The positions of the audit events of a state. *)
Definition audits_numbered (s : TenantState) : Prop :=
  pruned_before (audit_retention s) + len (audits s) = au_next_sequence (audit_retention s).

(** A cursor that selects [h] and has one more event. *)
Definition appended (s : TenantState) (h : MutationReceiptHead) (rev : N) (e : AuditEvent) (hot : N) : TenantState :=
  audited (set_mutation_receipt_head h (set_revision rev s)) (au_next_sequence (audit_retention s) + 1, hot) [e].

Lemma feed_moves_same s t : change_feed s = change_feed t → feed_moves s t.
Proof. intros Hf. split; rewrite Hf; congruence. Qed.

Lemma appended_transition s h rev e hot :
  audits_numbered s → counters_in_range s → transition s (appended s h rev e hot) ∅ ∅.
Proof.
  intros Ha Hc. split; try done.
  - unfold audits_numbered, len in Ha. split; cbn; [done|split; [done|lia]|lia|unfold len; lia| |].
    + unfold len. rewrite length_app. cbn [length]. lia.
    + rewrite N.sub_diag. change (N.to_nat 0) with 0%nat. rewrite drop_0.
      replace (N.to_nat (au_next_sequence (audit_retention s) - pruned_before (audit_retention s)))
        with (length (audits s)) by lia. by rewrite take_app_length.
  - by apply feed_moves_same.
Qed.

Section accounted.
Context `{Sha256} `{CompletedMetadata} `{Sharing} `{!SharingLaws}.

(** The sizes with other audit bytes. *)
Definition set_sa_audits (n : N) (x : SnapshotAccounting) : SnapshotAccounting :=
  {| sa_shared := sa_shared x; sa_documents := sa_documents x; sa_archived := sa_archived x; sa_audits := n;
     sa_staged := sa_staged x; sa_feed := sa_feed x; sa_archives := sa_archives x;
     sa_activations := sa_activations x; sa_retirements := sa_retirements x; sa_operations := sa_operations x;
     sa_phases := sa_phases x; sa_targets := sa_targets x; sa_completions := sa_completions x |}.

Definition event_size (s : TenantState) (e : AuditEvent) : Result N :=
  record_size (RAudit (au_next_sequence (audit_retention s)) e).

Lemma audit_size_first n e : n ≤ u64_max → audit_size n (0%nat, e) = record_size (RAudit n e).
Proof.
  intros Hn. unfold audit_size. cbn [fst snd]. unfold checked_add. rewrite N.add_0_r, (proj2 (N.leb_le _ _) Hn). done.
Qed.

Lemma appended_audits s h rev e hot :
  audits_numbered s → au_next_sequence (audit_retention s) ≤ u64_max →
  (audits_sized (appended s h rev e hot) ↔ audits_sized s ∧ sized (event_size s) e) ∧
  audit_mass (appended s h rev e hot) = audit_mass s + weight (event_size s) e.
Proof.
  intros Ha Hm. unfold audits_sized, audit_mass.
  change (pruned_before (audit_retention (appended s h rev e hot))) with (pruned_before (audit_retention s)).
  change (audits (appended s h rev e hot)) with (audits s ++ [e]). rewrite audits_sized_app, audits_weights_app.
  unfold audits_numbered, len in Ha. rewrite Ha. change (numbered [e]) with [(0%nat, e)]. rewrite Forall_singleton.
  cbn [weights]. unfold sized, weight, event_size. rewrite audit_size_first by done. split; [done|lia].
Qed.

(** The accounting of the state with one more event. *)
Lemma appended_accounts s x h rev e hot :
  accounts s x → audits_numbered s → au_next_sequence (audit_retention s) ≤ u64_max →
  sized (event_size s) e → sa_audits x + weight (event_size s) e ≤ u64_max →
  accounts (appended s h rev e hot) (set_sa_audits (sa_audits x + weight (event_size s) e) x).
Proof.
  intros [Hd Ha (Hau & Hm & Hb) Hst Hfd Ho (sh & Hx & Hsh) Hops Hphs Hchs Htgs] Hn Hmax Hs Hle.
  destruct (appended_audits s h rev e hot Hn Hmax) as [Hsz Hmass].
  split; try done; [|exists sh; split; [done|]; by destruct Hsh].
  cbn [set_sa_audits sa_audits]. rewrite Hmass, <-Hm. split_and!; [by apply Hsz|done|done].
Qed.

Lemma appended_updated s x h rev e hot :
  accounts s x → audits_numbered s → counters_in_range s → au_next_sequence (audit_retention s) ≤ u64_max →
  sized (event_size s) e → sa_audits x + weight (event_size s) e ≤ u64_max →
  updated x s (appended s h rev e hot) ∅ ∅ = Ok (set_sa_audits (sa_audits x + weight (event_size s) e) x).
Proof.
  intros Hx Hn Hc Hmax Hs Hle. apply updated_complete; [by apply appended_transition|done|by apply appended_accounts|].
  split; intros; by right.
Qed.

(** What an update to that state returned. *)
Lemma appended_updated_Ok s x h rev e hot y :
  accounts s x → audits_numbered s → counters_in_range s → au_next_sequence (audit_retention s) ≤ u64_max →
  updated x s (appended s h rev e hot) ∅ ∅ = Ok y →
  y = set_sa_audits (sa_audits x + weight (event_size s) e) x ∧ sized (event_size s) e ∧
  sa_audits x + weight (event_size s) e ≤ u64_max.
Proof.
  intros Hx Hn Hc Hmax Hu. pose proof (appended_audits s h rev e hot Hn Hmax) as [Hsz Hmass].
  pose proof (updated_sound _ _ _ _ _ _ (appended_transition s h rev e hot Hn Hc) Hx Hu) as Hy.
  destruct (ac_audits _ _ Hy) as (Hs & Hm & Hb). rewrite Hmass in Hm. destruct (ac_audits _ _ Hx) as (_ & Hxm & _).
  rewrite <-Hxm in Hm. apply Hsz in Hs as [_ Hs]. rewrite Hm in Hb. split_and!; [|done|done].
  rewrite (appended_updated s x h rev e hot) in Hu by done. by injection Hu.
Qed.
End accounted.

(** ** Lengths that do not grow *)

Lemma ilog10_go_mono fuel : ∀ n m, n ≤ m → ilog10_go fuel n ≤ ilog10_go fuel m.
Proof.
  induction fuel as [|fuel IH]; intros n m Hle; [done|]. cbn [ilog10_go].
  destruct (N.ltb_spec n 10), (N.ltb_spec m 10); cbv iota; [lia..|].
  specialize (IH (n / 10) (m / 10) ltac:(by apply N.Div0.div_le_mono)). lia.
Qed.

Lemma vlen_mono n m : n ≤ m → m ≤ u64_max → vlen (to_value n) ≤ vlen (to_value m).
Proof.
  intros Hle Hm. rewrite !ilog10_digits by lia. pose proof (ilog10_go_mono 20 (n `max` 1) (m `max` 1) ltac:(lia)) as Hi.
  unfold ilog10. lia.
Qed.

Lemma hex_escape c : sha256_char c = true → escape_char c = String c "".
Proof. destruct c as [[] [] [] [] [] [] [] []]; vm_compute; (discriminate || reflexivity). Qed.

Lemma hex_len s : all_chars sha256_char s = true → vlen (VString s) = str_len s + 2.
Proof.
  intros Hs. unfold vlen. cbn [write]. unfold write_str. rewrite !str_len_app. change (str_len quote_mark) with 1.
  assert (He : str_len (escaped_contents s) = str_len s); [|lia].
  induction s as [|c s IH]; [done|]. cbn [all_chars] in Hs. apply andb_true_iff in Hs as [Hc Hs].
  cbn [escaped_contents]. rewrite str_len_app, (hex_escape c Hc), IH by done.
  rewrite !str_len_cons. change (str_len "") with 0. lia.
Qed.

Lemma digest_vlen s : Ledger.digest s = true → vlen (VString s) = 66.
Proof.
  intros Hd. rewrite hex_len; [by rewrite digest_len|]. unfold Ledger.digest in Hd. by apply andb_true_iff in Hd as [_ Hd].
Qed.

(** A head whose encoding is at most that of another. *)
Record head_le (h m : MutationReceiptHead) : Prop := {
  hl_origin : mr_origin_incarnation h = mr_origin_incarnation m;
  hl_count : mr_count h = mr_count m;
  hl_bytes : mr_encoded_bytes h ≤ mr_encoded_bytes m ≤ u64_max;
  hl_last : mr_last_applied_revision h = mr_last_applied_revision m;
  hl_sha : vlen (VString (mr_sha256 h)) ≤ vlen (VString (mr_sha256 m));
}.

Lemma head_le_len h m : head_le h m → vlen (to_value h) ≤ vlen (to_value m).
Proof.
  intros [Ho Hc [Hb Hm] Hl Hs].
  assert (Hv : ∀ h, vlen (to_value h) = vlen (VObject
    [("origin_incarnation", VString (mr_origin_incarnation h)); ("count", to_value (mr_count h));
     ("encoded_bytes", to_value (mr_encoded_bytes h)); ("last_applied_revision", to_value (mr_last_applied_revision h));
     ("sha256", VString (mr_sha256 h))])) by reflexivity.
  rewrite !Hv, !vlen_object, !lsum_cons, !lsum_nil. cbn [fst snd]. rewrite Ho, Hc, Hl.
  pose proof (vlen_mono _ _ Hb Hm). unfold len. cbn [length]. lia.
Qed.

Lemma retention_len next hot hot' r :
  hot ≤ hot' → hot' ≤ u64_max →
  vlen (to_value (set_audit_position next hot r)) ≤ vlen (to_value (set_audit_position next hot' r)).
Proof.
  intros Hh Hm. assert (Hv : ∀ h, vlen (to_value (set_audit_position next h r)) = vlen (VObject
    [("stream_id", uuid_value (stream_id r)); ("next_sequence", to_value next);
     ("pruned_before", to_value (pruned_before r)); ("hot_bytes", to_value h);
     ("archive_bytes", to_value (archive_bytes r)); ("archive_segments", to_value (archive_segments r));
     ("draining", to_value (draining r)); ("archive_head", to_value (archive_head r))])) by reflexivity.
  rewrite !Hv, !vlen_object, !lsum_cons, !lsum_nil. cbn [fst snd].
  pose proof (vlen_mono _ _ Hh Hm). unfold len. cbn [length]. lia.
Qed.

(** The header of a state with another head and other audit positions. *)
Lemma appended_metadata s h rev e hot h' e' hot' p c :
  head_le h h' → hot ≤ hot' → hot' ≤ u64_max →
  vlen (to_value (metadata_with_shared (appended s h rev e hot) p c)) ≤
  vlen (to_value (metadata_with_shared (appended s h' rev e' hot') p c)).
Proof.
  intros Hh%head_le_len Hhot Hm. pose proof (retention_len (au_next_sequence (audit_retention s) + 1) _ _ (audit_retention s) Hhot Hm) as Hr.
  assert (Hf : ∃ l1 l2 l3, ∀ h e hot, to_value (metadata_with_shared (appended s h rev e hot) p c) =
    VObject (l1 ++ ("mutation_receipt_head", to_value h) :: l2 ++
      ("audit_retention", to_value (set_audit_position (au_next_sequence (audit_retention s) + 1) hot (audit_retention s))) :: l3)).
  { set (l := match to_value (metadata_with_shared (set_revision rev s) p c) with VObject l => l | _ => [] end).
    exists (take 19 l), (take 15 (drop 20 l)), (drop 36 l). intros h0 e0 hot0. reflexivity. }
  destruct Hf as (l1 & l2 & l3 & Hf). rewrite !Hf.
  set (r := to_value (set_audit_position _ hot _)). set (r' := to_value (set_audit_position _ hot' _)).
  pose proof (vlen_field l1 "mutation_receipt_head" (to_value h) (l2 ++ ("audit_retention", r) :: l3) (to_value h')).
  pose proof (vlen_field (l1 ++ ("mutation_receipt_head", to_value h') :: l2) "audit_retention" r l3 r') as Hp.
  rewrite <-!app_assoc in Hp. cbn [app] in Hp. fold r r' in Hr. lia.
Qed.

Section bytes.
Context `{Sha256} `{CompletedMetadata} `{Sharing}.

Lemma metadata_contains s : vlen (to_value default_policy) + 4 ≤ vlen (to_value (metadata_with_shared s default_policy None)).
Proof.
  set (l := match to_value (metadata_with_shared s default_policy None) with VObject l => l | _ => [] end).
  assert (Hf : to_value (metadata_with_shared s default_policy None) =
    VObject (take 11 l ++ ("lifecycle_control", VNull) :: take 4 (drop 12 l) ++ ("policy", to_value default_policy) :: drop 17 l))
    by reflexivity.
  rewrite Hf, vlen_object, lsum_app, lsum_cons, lsum_app, lsum_cons. cbn [fst snd]. change (vlen VNull) with 4. lia.
Qed.

Lemma json_vlen {A} `{Serialize A} (a : A) : str_len (to_json a) = vlen (to_value a).
Proof. done. Qed.

Lemma header_vlen t :
  str_len (to_json (RHeader (metadata_with_shared t default_policy None))) =
  vlen (to_value (metadata_with_shared t default_policy None)) + 26.
Proof.
  rewrite json_vlen. change (to_value (RHeader (metadata_with_shared t default_policy None))) with
    (tagged "Header" (to_value (metadata_with_shared t default_policy None))).
  generalize (to_value (metadata_with_shared t default_policy None)) as v. intros v. unfold tagged. rewrite vlen_pair.
  change (str_len (write_str "type")) with 6. change (str_len (write_str "value")) with 7.
  change (vlen (VString "Header")) with 8. lia.
Qed.

(** A header that is not longer is charged no more. *)
#[local] Opaque encoded_len.
Definition header_charge (sh : SharedAccounting) (record : SnapshotRecord) (empty : Policy) : Result N :=
  header ← encoded_len record;
  empty ← encoded_len empty;
  header ← change header empty (sh_policy sh);
  header ← match sh_control_header sh with Some c => change header 4 c | None => Ok header end;
  framed_record_bytes header.

Lemma header_charge_mono sh r r' p n :
  str_len (to_json r') ≤ str_len (to_json r) → str_len (to_json p) + 4 ≤ str_len (to_json r') →
  header_charge sh r p = Ok n → ∃ n', header_charge sh r' p = Ok n' ∧ n' ≤ n.
Proof.
  intros Hm Hc Hh. unfold header_charge in Hh. apply bind_Ok in Hh as (h0 & [-> Hb0]%encoded_len_Ok & Hh).
  apply bind_Ok in Hh as (e & He & Hh). pose proof He as [Hev _]%encoded_len_Ok. rewrite <-Hev in Hc.
  apply bind_Ok in Hh as (h1 & (_ & -> & Hb1)%change_Ok & Hh). apply bind_Ok in Hh as (h2 & H2 & [-> Hb2]%framed_record_Ok).
  unfold header_charge. rewrite (proj2 (encoded_len_Ok r' (str_len (to_json r')))), bind_Ok_l by lia.
  rewrite He, bind_Ok_l. clear He Hev. revert Hm Hc Hb0 Hb1 Hb2 H2.
  generalize (str_len (to_json r)) (str_len (to_json r')). intros l l' Hm Hc Hb0 Hb1 Hb2 H2.
  rewrite (proj2 (change_Ok l' e (sh_policy sh) (l' - e + sh_policy sh))), bind_Ok_l by lia.
  destruct (sh_control_header sh) as [k|].
  - apply change_Ok in H2 as (_ & -> & Hb3). eexists. split.
    + rewrite (proj2 (change_Ok _ 4 k _)) by (split_and!; [|reflexivity|]; lia). rewrite bind_Ok_l.
      apply framed_record_Ok. split; [reflexivity|lia].
    + lia.
  - injection H2 as <-. eexists. split; [rewrite bind_Ok_l; apply framed_record_Ok; split; [reflexivity|lia]|lia].
Qed.

Lemma header_bytes_mono sh s s' n :
  vlen (to_value (metadata_with_shared s' default_policy None)) ≤
  vlen (to_value (metadata_with_shared s default_policy None)) →
  header_bytes sh s = Ok n → ∃ n', header_bytes sh s' = Ok n' ∧ n' ≤ n.
Proof.
  intros Hm. pose proof (metadata_contains s') as Hc. rewrite <-(json_vlen default_policy) in Hc.
  pose proof (header_charge_mono sh (RHeader (metadata_with_shared s default_policy None))
    (RHeader (metadata_with_shared s' default_policy None)) default_policy n) as Hh.
  rewrite !header_vlen in Hh. unfold header_charge in Hh. unfold header_bytes.
  refine (Hh _ _); [by apply N.add_le_mono_r|]. etransitivity; [exact Hc|]. apply N.le_add_r.
Qed.

Definition active_size (key : string) : Result N := record_size (RActiveStage key).
Definition target_size (kt : string * TargetExecutionState) : Result N := record_size (RTarget kt.1 kt.2).

Definition part_bytes (x : SnapshotAccounting) : N :=
  sa_documents x + sa_archived x + sa_audits x + sa_staged x + sa_feed x + sa_archives x + sa_activations x +
  sa_retirements x + sa_operations x + sa_phases x + sa_targets x + sa_completions x.

Lemma bytes_iff x s sh n :
  sa_shared x = Some sh →
  bytes x s = Ok n ↔
  ∃ header, header_bytes sh s = Ok header ∧
    Forall (sized active_size) (set_iter (active_staged_transactions s)) ∧
    Forall (sized target_size) (map_iter (target_lifecycle s)) ∧
    n = 64 + th_encoded_bytes (staged_terminal_head s) + header + sh_lineage sh + sh_collections sh +
        weights active_size (set_iter (active_staged_transactions s)) + sh_control_records sh +
        weights target_size (map_iter (target_lifecycle s)) + part_bytes x ∧ n ≤ u64_max.
Proof.
  intros Hx.
  assert (Hw : ∀ l, weights Ok l = lsum id l) by (induction l as [|a l IH]; [done|]; by rewrite lsum_cons, <-IH).
  assert (Hs : ∀ l, Forall (sized (Ok (E := Error) (A := N))) l) by (intros l; by apply Forall_true).
  unfold bytes. rewrite Hx. change (λ key, record_size (RActiveStage key)) with active_size.
  change (λ kt, record_size (RTarget kt.1 kt.2)) with target_size. split.
  - intros Hb. apply bind_Ok in Hb as (t0 & (_ & -> & _)%change_Ok & Hb). rewrite bind_Ok_l in Hb.
    apply bind_Ok in Hb as (header & Hh & Hb). apply bind_Ok in Hb as (t1 & (_ & -> & _)%change_Ok & Hb).
    apply bind_Ok in Hb as (t2 & (_ & -> & _)%change_Ok & Hb). apply bind_Ok in Hb as (t3 & (_ & -> & Ht3)%change_Ok & Hb).
    apply bind_Ok in Hb as (t4 & Ha & Hb). apply add_sizes_Ok in Ha as (Hact & -> & Ht4); [|done].
    apply bind_Ok in Hb as (t5 & (_ & -> & Ht5)%change_Ok & Hb). apply bind_Ok in Hb as (t6 & Ha & Hb).
    apply add_sizes_Ok in Ha as (Htg & -> & Ht6); [|done].
    apply add_sizes_Ok in Hb as (_ & -> & Hb); [|done]. exists header. rewrite Hw, !lsum_cons, lsum_nil in *.
    unfold id, part_bytes in *. split_and!; [done..|lia|lia].
  - intros (header & Hh & Hact & Htg & Hn & Hb). unfold part_bytes in Hn.
    apply bind_Ok. eexists. split; [apply change_Ok; split_and!; [lia|reflexivity|lia]|]. rewrite bind_Ok_l, Hh, bind_Ok_l.
    do 3 (apply bind_Ok; eexists; split; [apply change_Ok; split_and!; [lia|reflexivity|lia]|]).
    apply bind_Ok. eexists. split; [apply add_sizes_Ok; [lia|split_and!; [done|reflexivity|lia]]|].
    apply bind_Ok. eexists. split; [apply change_Ok; split_and!; [lia|reflexivity|lia]|].
    apply bind_Ok. eexists. split; [apply add_sizes_Ok; [lia|split_and!; [done|reflexivity|lia]]|].
    apply add_sizes_Ok; [lia|]. rewrite Hw, !lsum_cons, lsum_nil. unfold id. split_and!; [apply Hs|lia|lia].
Qed.

(** The bytes of two states that differ by a head and an event. *)
Lemma bytes_mono s x sh h rev e hot a h' e' hot' a' n :
  sa_shared x = Some sh → head_le h h' → hot ≤ hot' → hot' ≤ u64_max → a ≤ a' →
  bytes (set_sa_audits a' x) (appended s h' rev e' hot') = Ok n →
  ∃ m, bytes (set_sa_audits a x) (appended s h rev e hot) = Ok m ∧ m ≤ n.
Proof.
  intros Hx Hh Hhot Hm Ha (header & Hhd & Hact & Htg & -> & Hb)%(bytes_iff _ _ sh); [|done].
  pose proof (appended_metadata s h rev e hot h' e' hot' default_policy None Hh Hhot Hm) as Hmd.
  destruct (header_bytes_mono sh _ _ _ Hmd Hhd) as (header' & Hhd' & Hle).
  eexists. split.
  - apply (bytes_iff _ _ sh); [done|]. exists header'. split_and!; [done|exact Hact|exact Htg|reflexivity|].
    unfold part_bytes in *. cbn [set_sa_audits sa_documents sa_archived sa_audits sa_staged sa_feed sa_archives sa_activations
      sa_retirements sa_operations sa_phases sa_targets sa_completions] in *. 
    change (staged_terminal_head (appended s h rev e hot)) with (staged_terminal_head (appended s h' rev e' hot')).
    change (active_staged_transactions (appended s h rev e hot)) with (active_staged_transactions (appended s h' rev e' hot')).
    change (target_lifecycle (appended s h rev e hot)) with (target_lifecycle (appended s h' rev e' hot')). lia.
  - unfold part_bytes in *. cbn [set_sa_audits sa_documents sa_archived sa_audits sa_staged sa_feed sa_archives sa_activations
      sa_retirements sa_operations sa_phases sa_targets sa_completions] in *.
    change (staged_terminal_head (appended s h rev e hot)) with (staged_terminal_head (appended s h' rev e' hot')).
    change (active_staged_transactions (appended s h rev e hot)) with (active_staged_transactions (appended s h' rev e' hot')).
    change (target_lifecycle (appended s h rev e hot)) with (target_lifecycle (appended s h' rev e' hot')). lia.
Qed.

#[local] Opaque bytes.

Lemma appended_headroom s h rev e hot h' e' hot' :
  snapshot_headroom (appended s h rev e hot) = snapshot_headroom (appended s h' rev e' hot').
Proof. reflexivity. Qed.

#[local] Opaque snapshot_headroom digits.

Lemma fits_bytes_mono s t n m :
  snapshot_headroom t = snapshot_headroom s → revision t = revision s → limits t = limits s → m ≤ n →
  fits_bytes s n = Ok true → fits_bytes t m = Ok true.
Proof.
  intros Hroom Hrev Hlim Hle Hf. unfold fits_bytes in *. rewrite Hroom, Hrev, Hlim.
  apply bind_Ok in Hf as (room & Hr & [= Hf]). rewrite Hr, bind_Ok_l. f_equal.
  revert Hf. generalize (20 - digits (revision s)) (max_snapshot_bytes (limits s)).
  intros d limit Hf. destruct (checked_add n d ≫= λ n, checked_add n room) as [k|] eqn:Hk; [|done].
  apply bind_Some in Hk as (k' & [-> Hk']%checked_add_Some & [-> Hk]%checked_add_Some). apply N.leb_le in Hf.
  rewrite (proj2 (checked_add_Some m d (m + d))) by lia. cbn [mbind option_bind].
  rewrite (proj2 (checked_add_Some (m + d) room (m + d + room))) by lia. apply N.leb_le. lia.
Qed.

Lemma fits_mono s x sh h rev e hot a h' e' hot' a' :
  sa_shared x = Some sh → head_le h h' → hot ≤ hot' → hot' ≤ u64_max → a ≤ a' →
  fits (set_sa_audits a' x) (appended s h' rev e' hot') = Ok true →
  fits (set_sa_audits a x) (appended s h rev e hot) = Ok true.
Proof.
  intros Hx Hh Hhot Hm Ha Hf. unfold fits in *. apply bind_Ok in Hf as (n & Hn & Hf).
  destruct (bytes_mono s x sh h rev e hot a h' e' hot' a' n Hx Hh Hhot Hm Ha Hn) as (m & Hbm & Hle).
  rewrite Hbm, bind_Ok_l. by apply (fits_bytes_mono (appended s h' rev e' hot') _ n); [apply appended_headroom|..].
Qed.
End bytes.

(** ** The event of a rejection *)

Lemma rejected_event_len c s t :
  revision s = revision t → incarnation s = incarnation t →
  vlen (to_value (mutation_audit c s "rejected")) + 1 = vlen (to_value (mutation_audit c t "committed")).
Proof.
  intros Hr Hi. unfold mutation_audit. rewrite Hr, Hi.
  assert (Hv : ∀ o, vlen (to_value (mutation_audit c t o)) = vlen (VObject
    [("event_id", VString (incarnation t +:+ ":" +:+ pretty (revision t))); ("principal", VString (c_principal (context c)));
     ("action", VString "mutation"); ("request_id", VString (request_id (context c))); ("timestamp_ms", to_value (timestamp_ms c));
     ("data_revision", to_value (Some (revision t))); ("outcome", VString o); ("collection", VNull)])) by reflexivity.
  unfold mutation_audit in Hv. rewrite !Hv, !vlen_object, !lsum_cons, !lsum_nil. cbn [fst snd].
  change (vlen (VString "rejected")) with 10. change (vlen (VString "committed")) with 11. unfold len. cbn [length]. lia.
Qed.

(** A shorter event is charged less. *)
#[local] Opaque record_size.
Lemma event_size_le `{Sha256} s e e' :
  vlen (to_value e) ≤ vlen (to_value e') → sized (event_size s) e' →
  sized (event_size s) e ∧ weight (event_size s) e ≤ weight (event_size s) e'.
Proof.
  intros Hle (_ & Hw & Hm)%sized_weight%record_size_Ok.
  assert (Hv : ∀ e, vlen (to_value (RAudit (au_next_sequence (audit_retention s)) e)) =
    vlen (tagged "Audit" (VArray [to_value (au_next_sequence (audit_retention s)); to_value e]))) by reflexivity.
  assert (Hl : vlen (to_value (RAudit (au_next_sequence (audit_retention s)) e)) ≤
    vlen (to_value (RAudit (au_next_sequence (audit_retention s)) e'))).
  { rewrite !Hv. unfold tagged. rewrite !vlen_pair, !vlen_array, !lsum_cons, !lsum_nil. unfold len. cbn [length]. lia. }
  assert (Hn : event_size s e = Ok (vlen (to_value (RAudit (au_next_sequence (audit_retention s)) e)) + 9)).
  { apply record_size_Ok. split_and!; [done|done|lia]. }
  apply sized_Ok in Hn as [Hs ->]. split; [done|lia].
Qed.

Lemma append_cursor h rev e s s' :
  append_audit e (set_mutation_receipt_head h (set_revision rev s)) = (s', Ok tt) ↔
  s' = appended s h rev e (hot_bytes (audit_retention s) + vlen (to_value e)) ∧
  vlen (to_value e) ≤ MAX_AUDIT_EVENT_BYTES ∧ au_next_sequence (audit_retention s) + 1 ≤ u64_max ∧
  hot_bytes (audit_retention s) + vlen (to_value e) ≤ u64_max.
Proof.
  rewrite append_audit_Ok. unfold audit_position. cbn [fst snd].
  change (audit_retention (set_mutation_receipt_head h (set_revision rev s))) with (audit_retention s). split.
  - intros ([next hot] & (bytes & [-> _]%encoded_len_Ok & Hb & -> & -> & Hn & Ht)%audit_append_totals_Ok & ->).
    rewrite json_vlen in *. done.
  - intros (-> & Hb & Hn & Ht). eexists. split; [|reflexivity]. apply audit_append_totals_Ok.
    exists (vlen (to_value e)). split_and!; [|done..]. apply encoded_len_Ok. split; [done|]. unfold u64_max in *. lia.
Qed.

Lemma audit_fits_mono s h rev e hot h' e' hot' :
  hot ≤ hot' → audit_fits (appended s h' rev e' hot') = true → audit_fits (appended s h rev e hot) = true.
Proof.
  intros Hle. unfold audit_fits.
  change (target_audit_reserve (appended s h rev e hot)) with (target_audit_reserve s).
  change (target_audit_reserve (appended s h' rev e' hot')) with (target_audit_reserve s).
  change (limits (appended s h rev e hot)) with (limits s). change (limits (appended s h' rev e' hot')) with (limits s).
  change (hot_bytes (audit_retention (appended s h rev e hot))) with hot.
  change (hot_bytes (audit_retention (appended s h' rev e' hot'))) with hot'.
  destruct (checked_add hot' _) as [n|] eqn:Hn; [|done]. apply checked_add_Some in Hn as [-> Hn]. intros Hb%N.leb_le.
  rewrite (proj2 (checked_add_Some hot _ (hot + target_audit_reserve s))) by lia. apply N.leb_le. lia.
Qed.

(** A command that the guard lets mutate finds no pending control change. *)
Lemma guard_mutate s batch :
  guard s (Mutate batch) = Ok tt → ∀ control, lifecycle_control s = Some control → pending_change control = None.
Proof.
  unfold guard. intros Hg control Hc. rewrite Hc in Hg. cbn [closed_allows frozen_allows negb] in Hg.
  destruct (pending_change control); [|done]. rewrite bool_decide_true in Hg by by eexists. done.
Qed.

Lemma authorized_guard `{UuidParse} s c batch :
  authorize_mutation s c batch = Ok tt → guard s (operation c) = Ok tt.
Proof.
  unfold authorize_mutation. destruct (negb _); [done|]. intros [_ Ha]%seq_Ok. apply seq_Ok in Ha as [_ Ha].
  by apply seq_Ok in Ha as [Ha _].
Qed.

Lemma completion_fits_idle `{Sha256} `{CompletedMetadata} `{Sharing} s x :
  (∀ control, lifecycle_control s = Some control → pending_change control = None) → completion_fits s x = Ok true.
Proof.
  intros Hg. unfold completion_fits. destruct (lifecycle_control s) as [control|]; [|done]. by rewrite (Hg control).
Qed.

(** ** Publication of the receipt *)

(** A store that is the publication's own and grants its workspace. *)
Definition roots_available (roots : option Roots) : Prop :=
  match roots with
  | Some r => rt_same_store r = true ∧ (∃ n, rt_encryption_overhead r = Ok n) ∧ ∀ n, rt_reserve r n = Ok tt
  | None => True
  end.

Section reserve.
Context `{Sha256} `{UuidParse} `{FromSlice Ordinal} `{FromSlice ReceiptRow} `{QueryRules} `{IndexRules} `{IndexUpdates}
  `{CompletedMetadata} `{Sharing} `{!SharingLaws} `{!Sha256Hex}.

Lemma prepare_pair_new tn origin roots p row size store rows :
  (∀ n, rt_reserve roots n = Ok tt) → recorded tn (source_read store Durable) rows → row_ok tn row →
  find_row (rr_key row) rows = None → chain_head tn origin (rows ++ [row]) = Ok (p_head p) →
  0 < mr_encoded_bytes (p_head p) → 0 < mr_last_applied_revision (p_head p) →
  ∃ vp, prepare_pair roots p Durable row size store = (store, Ok vp).
Proof.
  intros Hres Hrec Hok Hf Hh Hb Hl.
  assert (Hid : source_get store Durable (id_key (rr_key row)) = Ok None).
  { unfold source_get. rewrite (recorded_points _ _ _ Hrec), Hf. done. }
  assert (Hor : source_get store Durable (ordinal_key (rr_ordinal row)) = Ok None).
  { unfold source_get. rewrite (next_ordinal_free _ _ _ _ _ _ Hrec Hh). done. }
  pose proof (row_pair_Ok _ _ _ _ _ Hh) as Hpr. pose proof (chain_head_origin _ _ _ _ Hh) as Hn.
  destruct (chain_head_facts _ _ _ _ Hh) as (Hc & _ & Ho & (y & Hy) & [Hnil|(rows' & r & h0 & Heq & _ & Hs & _ & _ & Hord & Hsha & _)]);
    [by destruct rows|]. apply app_inj_tail in Heq as [<- <-].
  eexists. unfold prepare_pair. rewrite (st_bind_lift _ _ _ tt) by apply Hres. rewrite (st_bind_lift _ _ _ _ Hpr), st_bind_get.
  cbn [fst snd]. rewrite (st_bind_lift _ _ _ _ Hid), (st_bind_lift _ _ _ _ Hor), (st_bind_lift _ _ _ _ Hsha).
  rewrite (st_bind_lift _ _ _ tt).
  2: { apply demand_Ok. rewrite Hord, Hc, N.eqb_refl, Hs. by rewrite bool_decide_true. }
  rewrite (st_bind_lift _ _ _ tt); [rewrite (st_bind_lift _ _ _ tt); [reflexivity|apply demand_Ok; cbn; by rewrite !bool_decide_true]|].
  unfold check_head_metadata. cbn [v_head]. rewrite Ho. apply seq_Ok.
  split; [by apply any_Ok|]. apply seq_Ok. split; [apply demand_Ok; rewrite Hy; apply sha256_hex_digest|].
  rewrite (proj2 (N.eqb_neq _ _)) by (rewrite Hc; unfold len; rewrite length_app; cbn [length]; lia).
  apply demand_Ok, andb_true_iff. by rewrite !N.ltb_lt.
Qed.

Lemma publish_receipt_new origin roots p row s h store rows :
  roots_available roots → recorded (tenant s) (source_read store Durable) rows → row_ok (tenant s) row →
  find_row (rr_key row) rows = None → p_rows p = [row] →
  p_previous p = {| v_source := Some Durable; v_head := h |} →
  chain_head (tenant s) origin (rows ++ [row]) = Ok (p_head p) → str_len (to_json row) ≤ MAX_ROW_BYTES →
  0 < mr_encoded_bytes (p_head p) → 0 < mr_last_applied_revision (p_head p) →
  ∃ store' vp, publish_receipt roots p store = (store', Ok vp).
Proof.
  intros Hav Hrec Hok Hf Hrows Hprev Hh Hsz Hb Hl.
  assert (Hst : ∃ store' vp, stage_separately p store = (store', Ok vp)).
  { destruct (stage_new store Durable rows h s origin p row Hrec eq_refl I Hrows Hprev Hh Hok Hb Hl Hf) as (store' & Hst & _).
    exists store'. eexists. unfold stage_separately. rewrite (st_bind_run _ _ _ _ _ Hst). reflexivity. }
  destruct roots as [roots|]; [|exact Hst]. destruct Hav as (Hsame & [ov Hov] & Hres).
  cbn [publish_receipt]. unfold prepare_publication. rewrite Hrows, Hprev. cbn [v_source source_durable].
  rewrite (st_bind_lift _ _ _ tt), (st_bind_lift _ _ _ tt), (st_bind_lift _ _ _ ov) by (by rewrite ?Hsame).
  destruct (MAX_ENCRYPTION_OVERHEAD <? ov); [exact Hst|].
  rewrite (st_bind_lift _ _ _ (str_len (to_json row))).
  2: { apply any_Ok, encoded_len_Ok. split; [done|]. change MAX_ROW_BYTES with 2097152 in Hsz. unfold u64_max. lia. }
  destruct (MAX_ROW <? _); [exact Hst|]. exists store. by eapply prepare_pair_new.
Qed.

(** ** The reservation suffices *)

(** A generation whose store, accounting and audit positions are exact. *)
Record exact (origin : string) (rows : list ReceiptRow) (store : gmap string string) (g : Generation) : Prop := {
  ex_durable : durable origin rows store g;
  ex_accounting : rebuild (g_state g) = Ok (g_accounting g);
  ex_audits : audits_numbered (g_state g);
  ex_counters : counters_in_range (g_state g);
}.

(** The state that holds the largest head of a permit. *)
Definition reserved_state (g : Generation) (permit : Permit) (rev : N) : TenantState :=
  set_mutation_receipt_head (maximum_head permit) (set_revision rev (g_state g)).

(** The reservation of a new identity: its permit, and room for it. *)
Record reserves (g : Generation) (c : Command) (batch : MutationBatch) (applied : AppliedIdentity)
    (digest : string) (permit : Permit) : Prop := {
  rs_permit : prepare_permit (set_revision (a_revision applied) (g_state g)) c batch applied digest = Ok permit;
  rs_room : ∃ s x,
    append_event g (mutation_audit c (reserved_state g permit (a_revision applied)) "committed") ∅
      (reserved_state g permit (a_revision applied)) = Ok (s, x) ∧ publishable x s = Ok true;
}.

(** A smaller head and the event of a rejection fit where the reservation did. *)
Lemma rejection_fits g c h hm rev s1 x1 :
  rebuild (g_state g) = Ok (g_accounting g) → audits_numbered (g_state g) → counters_in_range (g_state g) →
  (∀ control, lifecycle_control (g_state g) = Some control → pending_change control = None) → head_le h hm →
  let reserved := set_mutation_receipt_head hm (set_revision rev (g_state g)) in
  let rejected := set_mutation_receipt_head h (set_revision rev (g_state g)) in
  append_event g (mutation_audit c reserved "committed") ∅ reserved = Ok (s1, x1) → publishable x1 s1 = Ok true →
  ∃ s2 x2, append_event g (mutation_audit c rejected "rejected") ∅ rejected = Ok (s2, x2) ∧ publishable x2 s2 = Ok true.
Proof.
  intros Hac%rebuild_Ok Hau Hct Hidle Hle reserved rejected [Ha Hu]%append_event_Ok Hpub.
  pose proof (rejected_event_len c rejected reserved eq_refl eq_refl) as Hlen.
  set (e := mutation_audit c rejected "rejected") in *. set (e' := mutation_audit c reserved "committed") in *.
  apply append_cursor in Ha as (-> & Hmax & Hseq & Hhot).
  apply appended_updated_Ok in Hu as (-> & Hsz & Hsum); [|done..|lia].
  destruct (event_size_le (g_state g) e e' ltac:(lia) Hsz) as [Hsz' Hw].
  destruct (ac_shared _ _ Hac) as (sh & Hsh & _).
  exists (appended (g_state g) h rev e (hot_bytes (audit_retention (g_state g)) + vlen (to_value e))).
  exists (set_sa_audits (sa_audits (g_accounting g) + weight (event_size (g_state g)) e) (g_accounting g)). split.
  - unfold append_event. unfold rejected. rewrite (proj2 (append_cursor h rev e (g_state g) _)) by (split_and!; [reflexivity|lia..]).
    rewrite appended_updated by (done || lia). done.
  - unfold publishable in *. destruct (audit_fits _) eqn:Hf in Hpub; [|done]. apply bind_Ok in Hpub as (f & Hfits & Hpub).
    destruct f; [|done]. eapply audit_fits_mono in Hf as ->; [|lia].
    rewrite (fits_mono (g_state g) (g_accounting g) sh h rev e _ _ hm e' (hot_bytes (audit_retention (g_state g)) + vlen (to_value e'))
      (sa_audits (g_accounting g) + weight (event_size (g_state g)) e')) by (done || lia). rewrite bind_Ok_l.
    by apply completion_fits_idle.
Qed.

(** The ways an admitted batch is rejected: by the attempt, or because the
    state it leads to does not fit. *)
Inductive rejection (g : Generation) (c : Command) (batch : MutationBatch) (applied : AppliedIdentity)
    (resolver : Resolver) (permit : Permit) (absent : Absent) : Error → Prop :=
| rejected_attempt next e :
    attempt_mutation c batch (a_revision applied) resolver (g_state g)
      (set_revision (a_revision applied) (g_state g)) = (next, Err (FQuery e)) →
    code e ≠ Corruption → rejection g c batch applied resolver permit absent e
| rejected_size next receipt p s1 s2 x :
    attempt_mutation c batch (a_revision applied) resolver (g_state g)
      (set_revision (a_revision applied) (g_state g)) = (next, Ok receipt) →
    finalize_permit permit (g_receipts g) absent next (Ok receipt) applied = Ok (p, s1) →
    append_event g (mutation_audit c (reserved_state g permit (a_revision applied)) "committed")
      (batch_changes batch) s1 = Ok (s2, x) →
    publishable x s2 = Ok false →
    rejection g c batch applied resolver permit absent
      (new_error QuotaExceeded "serialized tenant snapshot byte budget exhausted").

Lemma permit_head_le h m : mr_origin_incarnation h = mr_origin_incarnation m → mr_count h = mr_count m →
  mr_encoded_bytes h ≤ mr_encoded_bytes m → mr_encoded_bytes m ≤ u64_max →
  mr_last_applied_revision h = mr_last_applied_revision m → Ledger.digest (mr_sha256 h) = true →
  mr_sha256 m = repeat_string 64 "f" → head_le h m.
Proof.
  intros Ho Hc Hb Hm Hl Hd Hs. split; [done..|]. rewrite Hs, (digest_vlen _ Hd). by vm_compute.
Qed.

Lemma rejection_publishes origin rows store g roots permit key n digest c batch applied e :
  exact origin rows store g → roots_available roots →
  (∀ control, lifecycle_control (g_state g) = Some control → pending_change control = None) →
  staged_digest (c_principal (context c), idempotency_key batch) = Ok (key, n) → find_row key rows = None →
  reserves g c batch applied digest permit →
  mr_last_applied_revision (mutation_receipt_head (g_state g)) < a_revision applied →
  str_len (message e) ≤ MAX_MESSAGE_BYTES →
  readable (next_row g c batch applied key digest (Err e)) →
  readable (index_of (next_row g c batch applied key digest (Err e))) →
  ∃ store' pc, prepare_rejection g roots permit {| ab_key := key; ab_head := v_head (g_receipts g) |} c
      (a_revision applied) applied e store = (store', Ok pc) ∧ pc_outcome pc = Err e.
Proof.
  intros [Hdu Hac Hau Hct] Hav Hidle Hk Hf [Hpm (s1 & x1 & Happ & Hpub)] Hlast Hm Hr1 Hr2.
  destruct (rejection_finalized _ _ _ _ _ _ _ _ _ _ _ e Hdu Hk Hpm Hlast Hm) as (p & Hfin & Hrow & Ho & Hc & Hb & Hl & Hd).
  destruct (prepare_permit_Ok _ _ _ _ _ _ Hpm) as (key' & n' & rj & _ & _ & _ & _ & _ & Hmax & _ & Hov).
  assert (Hle : head_le (p_head p) (maximum_head permit)).
  { apply permit_head_le; try done; by rewrite Hmax. }
  destruct (rejection_fits g c _ _ (a_revision applied) s1 x1 Hac Hau Hct Hidle Hle Happ Hpub) as (s2 & x2 & Happ2 & Hpub2).
  pose proof (finalize_permit_Ok _ _ _ _ _ _ _ _ Hfin) as [Hprep _].
  destruct Hdu as [Hsrc _ Hch Hrec].
  destruct (prepare_receipt_facts origin _ _ _ _ _ _ rows Hprep Hch)
    as (row & Hrows & Hprev & Hrc & _ & Hkey & Hh' & Hdk & Htn & Hsz & Hbp & Hlp & _).
  rewrite Hrow in Hrows. injection Hrows as <-.
  destruct (publish_receipt_new origin roots p (next_row g c batch applied key digest (Err e))
    (set_revision (a_revision applied) (g_state g)) (v_head (g_receipts g)) store rows) as (store' & vp & Hpr); try done.
  { rewrite Hprev. by destruct (g_receipts g); cbn in Hsrc |- *; rewrite Hsrc. }
  exists store'. eexists. unfold prepare_rejection. rewrite (st_bind_lift _ _ _ _ Hfin). cbn [fst snd].
  rewrite (st_bind_lift _ _ _ _ Happ2). cbn [fst snd]. rewrite (st_bind_lift _ _ _ true) by (by rewrite Hpub2).
  cbn [negb]. unfold select. rewrite (st_bind_run _ _ _ _ _ Hpr). split; reflexivity.
Qed.

(** The command reaches the recording of its rejection. *)
Lemma rejection_reached origin rows store g roots begin_change_tree c batch applied resolver key n digest permit e :
  durable origin rows store g → authorize_mutation (g_state g) c batch = Ok tt →
  staged_digest (c_principal (context c), idempotency_key batch) = Ok (key, n) → batch_digest batch = Ok digest →
  find_row key rows = None → reserves g c batch applied digest permit → begin_change_tree batch = Ok tt →
  rejection g c batch applied resolver permit {| ab_key := key; ab_head := v_head (g_receipts g) |} e →
  prepare_mutation_ordered g roots begin_change_tree c batch applied resolver store =
  prepare_rejection g roots permit {| ab_key := key; ab_head := v_head (g_receipts g) |} c (a_revision applied) applied e store.
Proof.
  intros [Hsrc _ Hch Hrec] Hauth Hk Hdig Hf [Hpm (s1 & x1 & Happ & Hpub)] Hbct Hrej.
  unfold prepare_mutation_ordered. rewrite Hauth, Hk, Hdig. rewrite (st_bind_lift _ _ _ (key, n)), (st_bind_lift _ _ _ digest) by done.
  rewrite st_bind_get. cbn [fst snd].
  rewrite (st_bind_lift _ _ _ (Missing {| ab_key := key; ab_head := v_head (g_receipts g) |})).
  2: { unfold view_lookup. destruct (g_receipts g) as [src h]. cbn [v_source v_head] in *. subst src.
       assert (Hd : Ledger.digest key = true) by (by apply staged_digest_Ok in Hk as (-> & _); apply sha256_hex_digest).
       rewrite (view_get_exact _ _ _ _ _ _ _ _ Hrec (selects_top _ _ _ _ Hch) Hd), take_ge, bind_Ok_l by done.
       by rewrite Hf. }
  unfold admit_mutation. rewrite Hpm. fold (reserved_state g permit (a_revision applied)).
  rewrite (st_bind_lift _ _ _ _ Happ). cbn [fst snd]. rewrite (st_bind_lift _ _ _ true) by (by rewrite Hpub). cbn [negb].
  unfold prepare_admitted. rewrite (st_bind_lift _ _ _ tt) by done.
  destruct Hrej as [next e Hatt Hcode|next receipt p s2 s3 x Hatt Hfin Hap2 Hno].
  - rewrite Hatt. rewrite (st_bind_lift _ _ _ (Err e)); [done|]. cbn. by rewrite bool_decide_false.
  - rewrite Hatt. rewrite (st_bind_lift _ _ _ (Ok receipt)) by done. cbn [fst snd].
    rewrite (st_bind_lift _ _ _ _ Hfin). cbn [fst snd]. rewrite (st_bind_lift _ _ _ _ Hap2). cbn [fst snd].
    rewrite (st_bind_lift _ _ _ false) by (by rewrite Hno). done.
Qed.

(** C4.  An admitted command always finds room for its receipt.  Once a new
    identity has its permit and the state with the permit's largest head and the
    event of a commit fits the budgets, a batch that is rejected, by its attempt
    or because the state it leads to does not fit, is answered with that
    rejection: the row, the head and the event that record it fit in what was
    reserved, its publication succeeds, the store then holds exactly one more
    row, which records the rejection, and no document has changed. *)
Theorem admitted_rejection_publishes origin rows store g roots begin_change_tree c batch applied resolver key n digest permit e :
  exact origin rows store g → roots_available roots →
  operation c = Mutate batch → authorize_mutation (g_state g) c batch = Ok tt →
  staged_digest (c_principal (context c), idempotency_key batch) = Ok (key, n) → batch_digest batch = Ok digest →
  find_row key rows = None →
  mr_last_applied_revision (mutation_receipt_head (g_state g)) < a_revision applied →
  reserves g c batch applied digest permit → begin_change_tree batch = Ok tt →
  rejection g c batch applied resolver permit {| ab_key := key; ab_head := v_head (g_receipts g) |} e →
  str_len (message e) ≤ MAX_MESSAGE_BYTES →
  readable (next_row g c batch applied key digest (Err e)) →
  readable (index_of (next_row g c batch applied key digest (Err e))) →
  ∃ store' pc g',
    prepare_mutation_ordered g roots begin_change_tree c batch applied resolver store = (store', Ok pc) ∧
    pc_outcome pc = Err e ∧ pc_generation pc = Some g' ∧
    durable origin (rows ++ [next_row g c batch applied key digest (Err e)]) (committed store' pc) g' ∧
    recorded_only (g_state g) (g_state g').
Proof.
  intros Hex Hav Hop Hauth Hk Hdig Hf Hlast Hrs Hbct Hrej Hm Hr1 Hr2. pose proof (ex_durable _ _ _ _ Hex) as Hdu.
  assert (Hidle : ∀ control, lifecycle_control (g_state g) = Some control → pending_change control = None).
  { apply (guard_mutate _ batch). rewrite <-Hop. by eapply authorized_guard. }
  destruct (rejection_publishes _ _ _ _ roots permit key n digest c batch applied e Hex Hav Hidle Hk Hf Hrs Hlast Hm Hr1 Hr2)
    as (store' & pc & Hp & Ho).
  pose proof (rejection_reached _ _ _ _ roots begin_change_tree _ _ _ resolver _ _ _ _ _ Hdu Hauth Hk Hdig Hf Hrs Hbct Hrej) as Hcmd.
  rewrite Hp in Hcmd. destruct Hrs as [Hpm _].
  pose proof Hp as Had. rewrite <-Ho in Hr1, Hr2.
  eapply (rejection_admitted origin rows _ _ _ _ _ _ key digest _ batch _ resolver) in Had as (g' & Hg' & [Hd He]); try done.
  rewrite Ho in Hd, He. by exists store', pc, g'.
Qed.
End reserve.

Module ReserveSample.
#[export] Instance sha : Sha256 := Sample.sha.
#[export] Instance parse : UuidParse := Sample.parse.
#[export] Instance rules : QueryRules := ApplySample.rules.
#[export] Instance index_rules : IndexRules := StagingSample.index_rules.
#[export] Instance updates : IndexUpdates := MutateSample.updates.
#[export] Instance completed : CompletedMetadata := AccountingSample.completed.
#[export] Instance sharing : Sharing := AccountingSample.sharing.
#[export] Instance sharing_laws : SharingLaws := AccountingSample.sharing_laws.

(** A batch whose precondition does not hold. *)
Definition batch : MutationBatch :=
  {| idempotency_key := "k1"; read_set := []; operations := [Put "log" "a" (VObject []) PAbsent] |}.
Definition command : Command := MutateSample.command batch.
Definition generation : Generation := MutateSample.generation.
Definition attempt : TenantState * SourceResult WriteReceipt := Eval vm_compute in
  attempt_mutation command batch 5 None (g_state generation) (set_revision 5 (g_state generation)).
Definition refusal : Error := Eval vm_compute in
  match attempt.2 with Err (FQuery e) => e | _ => new_error Corruption "not refused" end.
Definition row : ReceiptRow := Eval vm_compute in
  next_row generation command batch (MutateSample.applied 5) (Sample.zeros 64) (Sample.zeros 64) (Err refusal).
#[export] Instance row_from_slice : FromSlice ReceiptRow := λ s,
  if bool_decide (s = to_json row) then Ok row else Err (AnyMessage "unknown row").
#[export] Instance ordinal_from_slice : FromSlice Ordinal := λ s,
  if bool_decide (s = to_json (index_of row)) then Ok (index_of row) else Err (AnyMessage "unknown row").

Definition permit : Permit := Eval vm_compute in
  the (prepare_permit (set_revision 5 (g_state generation)) command batch (MutateSample.applied 5) (Sample.zeros 64)) eq_refl.
Definition room : TenantState * SnapshotAccounting := Eval vm_compute in
  the (append_event generation (mutation_audit command (reserved_state generation permit 5) "committed") ∅
         (reserved_state generation permit 5)) eq_refl.
End ReserveSample.

Section reserve_witness.
Import ReserveSample.

#[local] Instance reserve_hex : Sha256Hex.
Proof. intros s. reflexivity. Qed.

Lemma admitted_rejection_publishes_witness :
  ∃ store' pc g',
    prepare_mutation_ordered generation (Some MutateSample.roots) (λ _, Ok tt) command batch (MutateSample.applied 5) None ∅ =
      (store', Ok pc) ∧
    pc_outcome pc = Err refusal ∧ pc_generation pc = Some g' ∧
    durable "i1" ([] ++ [next_row generation command batch (MutateSample.applied 5) (Sample.zeros 64) (Sample.zeros 64) (Err refusal)])
      (committed store' pc) g' ∧
    recorded_only (g_state generation) (g_state g').
Proof.
  apply (admitted_rejection_publishes "i1" [] ∅ generation (Some MutateSample.roots) (λ _, Ok tt) command batch
    (MutateSample.applied 5) None (Sample.zeros 64) 13 (Sample.zeros 64) permit refusal); [|..|vm_refl|vm_refl].
  - split; [split; [reflexivity|vm_refl|vm_refl|split; [done|done|by apply Forall_nil]]|vm_refl|vm_compute; reflexivity|].
    intros n c Hc. change (collections (g_state generation)) with
      (<["docs" := ApplySample.collection "docs" Mutable]> {["log" := ApplySample.collection "log" AppendOnly]} :
         gmap string CollectionState) in Hc.
    apply lookup_insert_Some in Hc as [[_ <-]|[_ Hc]]; [|apply lookup_singleton_Some in Hc as [_ <-]]; split; vm_compute; discriminate.
  - split_and!; [done|by eexists|done].
  - reflexivity.
  - vm_refl.
  - vm_refl.
  - vm_refl.
  - vm_refl.
  - vm_compute. reflexivity.
  - split; [vm_refl|]. exists room.1, room.2. split; vm_refl.
  - reflexivity.
  - eapply (rejected_attempt _ _ _ _ _ _ _ attempt.1); [vm_refl|done].
  - vm_compute. discriminate.
Defined.
End reserve_witness.
