(* ===== verification/Scalars.v ===== *)
(** * Scalars of the query engine

    Models src/crates/kasumi-query/src/scalar.rs: the ordered scalars that
    fields of documents are indexed, compared and grouped by; and the lookup of
    a field by its JSON Pointer, [pointer] of
    src/crates/kasumi-query/src/allocation.rs, beside [Value::pointer] of the
    vendored serde_json.

    Exact decimals (the package bigdecimal) are the interface [Decimals]: a
    total order, whose equality is that of the numbers. *)

From S2P Require Import Prelude Json Types Digest State.

(** ** Decimals *)

Class Decimals := {
  BigDecimal : Type;
  #[global] big_decimal_eq_dec :: EqDecision BigDecimal;
  #[global] big_decimal_countable :: Countable BigDecimal;
  #[global] big_decimal_ord :: OrdKey BigDecimal;
  parse_decimal : string → option BigDecimal;
  normalized : BigDecimal → BigDecimal;
}.

(** ** Parsing of integers *)

Definition digit_value (c : ascii) : option N :=
  let n := N_of_ascii c in
  if (48 <=? n) && (n <=? 57) then Some (n - 48) else None.

Fixpoint parse_digits (acc : N) (s : string) : option N :=
  match s with
  | "" => Some acc
  | String c s' => d ← digit_value c; parse_digits (10 * acc + d) s'
  end.

Definition parse_nat (s : string) : option N :=
  match s with "" => None | _ => parse_digits 0 s end.

(** [str::parse::<usize>] and [str::parse::<i32>]. *)
Definition parse_usize (s : string) : option N :=
  n ← match s with String "+" s' => parse_nat s' | _ => parse_nat s end;
  if n <=? u64_max then Some n else None.

Definition parse_i32 (s : string) : option Z :=
  n ← match s with
      | String "+" s' => Z.of_N <$> parse_nat s'
      | String "-" s' => (λ n, - Z.of_N n)%Z <$> parse_nat s'
      | _ => Z.of_N <$> parse_nat s
      end;
  if ((-2147483648 <=? n) && (n <=? 2147483647))%Z then Some n else None.

(** ** Scalars *)

Section scalars.
Context `{Decimals}.

Inductive Scalar :=
| KMissing
| KNull
| KBoolean (b : bool)
| KNumber (n : BigDecimal)
| KString (s : string)
| KUpperBound.

#[export] Instance Scalar_eq_dec : EqDecision Scalar.
Proof. solve_decision. Defined.

Definition scalar_encode (x : Scalar) : (unit + unit + unit) + (bool + (BigDecimal + string)) :=
  match x with
  | KMissing => inl (inl (inl tt))
  | KNull => inl (inl (inr tt))
  | KUpperBound => inl (inr tt)
  | KBoolean b => inr (inl b)
  | KNumber n => inr (inr (inl n))
  | KString s => inr (inr (inr s))
  end.
Definition scalar_decode (x : (unit + unit + unit) + (bool + (BigDecimal + string))) : Scalar :=
  match x with
  | inl (inl (inl _)) => KMissing
  | inl (inl (inr _)) => KNull
  | inl (inr _) => KUpperBound
  | inr (inl b) => KBoolean b
  | inr (inr (inl n)) => KNumber n
  | inr (inr (inr s)) => KString s
  end.
#[export] Instance Scalar_countable : Countable Scalar.
Proof. apply (inj_countable' scalar_encode scalar_decode). by intros []. Defined.

(** The derived order: the order of the constructors, then of their contents. *)
Definition tag (x : Scalar) : N :=
  match x with
  | KMissing => 0 | KNull => 1 | KBoolean _ => 2 | KNumber _ => 3 | KString _ => 4 | KUpperBound => 5
  end.

Definition scalar_le (x y : Scalar) : Prop :=
  match x, y with
  | KBoolean a, KBoolean b => implb a b = true
  | KNumber a, KNumber b => key_le a b
  | KString a, KString b => String.le a b
  | _, _ => tag x ≤ tag y
  end.

#[export] Instance scalar_le_dec : RelDecision scalar_le.
Proof. intros x y. destruct x, y; cbn; apply _. Defined.
#[export] Instance scalar_le_total : Total scalar_le.
Proof.
  intros x y. destruct x, y; cbn; try (left; lia); try (right; lia);
    [destruct b, b0; auto|apply total, _|apply total, _].
Qed.
#[export] Instance scalar_le_po : PartialOrder scalar_le.
Proof.
  split; [split|].
  - intros []; cbn; [lia|lia|by destruct b|done|done|lia].
  - intros [] [] []; cbn; try lia; try (intros; lia).
    + destruct b, b0, b1; auto.
    + apply transitivity.
    + apply transitivity.
  - intros [] []; cbn; try done; try lia.
    + destruct b, b0; auto; done.
    + intros Hx Hy. f_equal. by apply (anti_symm key_le).
    + intros Hx Hy. f_equal. by apply (anti_symm String.le).
Qed.

#[export] Instance scalar_ord_key : OrdKey Scalar := {| key_le := scalar_le |}.

Definition invalid {A} (message : string) : Result A := fail InvalidArgument message.
Definition exhausted {A} (message : string) : Result A := fail ResourceExhausted message.

(** [str::split_once(['e', 'E'])]. *)
Fixpoint split_exponent (s : string) : option (string * string) :=
  match s with
  | "" => None
  | String c s' =>
      if bool_decide (c = "e"%char) || bool_decide (c = "E"%char) then Some ("", s')
      else p ← split_exponent s'; Some (String c p.1, p.2)
  end.

Fixpoint count_digits (s : string) : N :=
  match s with
  | "" => 0
  | String c s' => (if bool_decide (is_Some (digit_value c)) then 1 else 0) + count_digits s'
  end.

(** [decimal]. *)
Definition decimal (text : string) : Result BigDecimal :=
  if 256 <? str_len text then invalid "number exceeds 256-byte limit"
  else
    let parts := default (text, "0") (split_exponent text) in
    if 100 <? count_digits parts.1 then invalid "number exceeds 100 significant/input digits"
    else
      exponent ← ok_or (parse_i32 parts.2) (new_error InvalidArgument "invalid numeric exponent");
      if negb ((-1000 <=? exponent) && (exponent <=? 1000))%Z then
        invalid "numeric exponent must be between -1000 and 1000"
      else
        number ← ok_or (parse_decimal text) (new_error InvalidArgument "invalid exact decimal");
        Ok (normalized number).

(** [scalar]. *)
Definition mismatch : Result Scalar := invalid "value does not match the declared scalar type".

Definition scalar (v : option value) (kind : option ScalarType) : Result Scalar :=
  match v with
  | None => Ok KMissing
  | Some v =>
      if is_null v then Ok KNull
      else match kind, v with
           | Some SDecimal, VString text => KNumber <$> decimal text
           | (Some SString | Some SStringArray | None), VString text => Ok (KString text)
           | (Some SNumber | Some SNumberArray | None), VNumber n => KNumber <$> decimal n
           | (Some SBoolean | None), VBool b => Ok (KBoolean b)
           | _, _ => mismatch
           end
  end.

(** [indexed_values]. *)
Definition is_array_kind (kind : ScalarType) : bool :=
  match kind with SStringArray | SNumberArray => true | _ => false end.

Definition element_scalar (kind : ScalarType) (v : value) : Result Scalar :=
  if is_null v then invalid "indexed array elements cannot be null" else scalar (Some v) (Some kind).

Definition try_map {E A B} (f : A → result E B) (l : list A) : result E (list B) :=
  try_fold (λ acc x, y ← f x; Ok (acc ++ [y])) [] l.

Definition indexed_values (v : option value) (kind : ScalarType) : Result (list Scalar) :=
  if is_array_kind kind then
    match v with
    | None => Ok [KMissing]
    | Some VNull => Ok [KNull]
    | Some (VArray values) =>
        if 4096 <? len values then invalid "indexed arrays are limited to 4096 values"
        else try_map (element_scalar kind) values
    | Some _ => invalid "array index requires an array"
    end
  else
    s ← scalar v (Some kind);
    Ok [s].
End scalars.

(** ** Pointers *)

(** [validate_pointer]. *)
Fixpoint escapes_ok (s : string) : bool :=
  match s with
  | "" => true
  | String c s' =>
      if bool_decide (c = "~"%char) then
        match s' with
        | String d s'' => (bool_decide (d = "0"%char) || bool_decide (d = "1"%char)) && escapes_ok s''
        | "" => false
        end
      else escapes_ok s'
  end.

Definition validate_pointer (path : string) : Result unit :=
  if (1024 <? str_len path) || (negb (bool_decide (path = "")) && negb (starts_with path "/")) then
    fail InvalidArgument "field must be a JSON Pointer of at most 1024 bytes"
  else if negb (escapes_ok path) then fail InvalidArgument "invalid JSON Pointer escape"
  else Ok tt.

(** [str::split('/')]. *)
Fixpoint split_slash (s : string) : list string :=
  match s with
  | "" => [""]
  | String c s' =>
      if bool_decide (c = "/"%char) then "" :: split_slash s'
      else match split_slash s' with [] => [String c ""] | t :: l => String c t :: l end
  end.

(** [str::replace] of a pattern of two characters. *)
Fixpoint replace_pair (a b c : ascii) (s : string) : string :=
  match s with
  | "" => ""
  | String x s' =>
      match s' with
      | String y s'' =>
          if bool_decide (x = a) && bool_decide (y = b) then String c (replace_pair a b c s'')
          else String x (replace_pair a b c s')
      | "" => String x ""
      end
  end.

(** [parse_index], and the member of a value that a token names. *)
Definition parse_index (s : string) : option N :=
  if starts_with s "+" || (starts_with s "0" && negb (str_len s =? 1)) then None else parse_usize s.

Definition member (target : value) (token : string) : option value :=
  match target with
  | VObject l => obj_lookup token l
  | VArray l => i ← parse_index token; l !! N.to_nat i
  | _ => None
  end.

Fixpoint descend (target : value) (tokens : list (option string)) : option value :=
  match tokens with
  | [] => Some target
  | t :: l => token ← t; v ← member target token; descend v l
  end.

(** serde_json's [Value::pointer]. *)
Definition value_pointer (v : value) (path : string) : option value :=
  if bool_decide (path = "") then Some v
  else if negb (starts_with path "/") then None
  else descend v ((λ x, Some (replace_pair "~" "0" "~" (replace_pair "~" "1" "/" x))) <$> tail (split_slash path)).

(** The query engine's [pointer], which decodes into a buffer. *)
Fixpoint decode_token (s : string) : option string :=
  match s with
  | "" => Some ""
  | String c s' =>
      if bool_decide (c = "~"%char) then
        match s' with
        | String d s'' =>
            if bool_decide (d = "0"%char) then String "~" <$> decode_token s''
            else if bool_decide (d = "1"%char) then String "/" <$> decode_token s''
            else None
        | "" => None
        end
      else String c <$> decode_token s'
  end.

Fixpoint contains_char (c : ascii) (s : string) : bool :=
  match s with "" => false | String x s' => bool_decide (x = c) || contains_char c s' end.

Definition pointer (v : value) (path : string) : option value :=
  if 1024 <? str_len path then None
  else match path with
       | "" => Some v
       | String "/" rest =>
           descend v ((λ t, if contains_char "~" t then decode_token t else Some t) <$> split_slash rest)
       | _ => None
       end.

(** ** The two lookups agree *)

Lemma escapes_ok_cons c s : bool_decide (c = "~"%char) = false → escapes_ok (String c s) = escapes_ok s.
Proof. cbn [escapes_ok]. by intros ->. Qed.

(** A strong induction on valid escapes. *)
Lemma escapes_ind (P : string → Prop) :
  P "" → (∀ s, P s → P (String "~" (String "0" s))) → (∀ s, P s → P (String "~" (String "1" s))) →
  (∀ c s, c ≠ "~"%char → escapes_ok s = true → P s → P (String c s)) → ∀ s, escapes_ok s = true → P s.
Proof.
  intros H0 Hz Ho Hc. assert (Hn : ∀ n s, (String.length s ≤ n)%nat → escapes_ok s = true → P s).
  { induction n as [|n IH]; intros s Hl Hs; [by destruct s; cbn in Hl; [|lia]|].
    destruct s as [|c s]; [done|]. cbn [escapes_ok String.length] in Hs, Hl. case_bool_decide as Hcc.
    - subst c. destruct s as [|d s]; [done|]. apply andb_true_iff in Hs as [Hd Hs]. cbn [String.length] in Hl.
      apply orb_true_iff in Hd as [->%bool_decide_eq_true| ->%bool_decide_eq_true];
        [apply Hz, IH|apply Ho, IH]; auto with lia.
    - apply Hc; [done..|]. apply IH; [lia|done]. }
  intros s. by apply (Hn (String.length s)).
Qed.

Lemma replace_pair_skip a b c x s :
  x ≠ a → replace_pair a b c (String x s) = String x (replace_pair a b c s).
Proof.
  intros Hx. cbn [replace_pair]. destruct s as [|y s]; [done|]. by rewrite bool_decide_false.
Qed.

Lemma replace_pair_hit a b c s : replace_pair a b c (String a (String b s)) = String c (replace_pair a b c s).
Proof. cbn [replace_pair]. by rewrite (bool_decide_true (a = a)), (bool_decide_true (b = b)). Qed.

Lemma replace_pair_miss a b c y s :
  y ≠ b → y ≠ a → replace_pair a b c (String a (String y s)) = String a (String y (replace_pair a b c s)).
Proof.
  intros Hy Ha. cbn [replace_pair]. rewrite (bool_decide_true (a = a)), (bool_decide_false (y = b)) by done. cbn [andb]. f_equal.
  apply (replace_pair_skip a b c y s Ha).
Qed.

(** One pass over a valid token decodes what the two replacements do. *)
Lemma decode_token_replace s :
  escapes_ok s = true → decode_token s = Some (replace_pair "~" "0" "~" (replace_pair "~" "1" "/" s)).
Proof.
  revert s. apply escapes_ind; [done|..].
  - intros s IH. rewrite replace_pair_miss, replace_pair_hit by done. cbn [decode_token]. by rewrite IH.
  - intros s IH. rewrite replace_pair_hit, replace_pair_skip by done. cbn [decode_token]. by rewrite IH.
  - intros c s Hc _ IH. rewrite !replace_pair_skip by done. cbn [decode_token]. by rewrite bool_decide_false, IH by done.
Qed.

Lemma plain_token s : contains_char "~" s = false → decode_token s = Some s.
Proof.
  induction s as [|c s IH]; [done|]. cbn [contains_char decode_token]. intros [Hc Hs]%orb_false_iff.
  rewrite Hc, IH by done. done.
Qed.

(** The tokens of a valid path are valid. *)
Lemma split_slash_tokens s : escapes_ok s = true → Forall (λ t, escapes_ok t = true) (split_slash s).
Proof.
  revert s. apply escapes_ind.
  - by repeat constructor.
  - intros s Hs. cbn [split_slash]. rewrite !bool_decide_false by done.
    destruct (split_slash s) as [|t l]; inversion Hs; by repeat constructor.
  - intros s Hs. cbn [split_slash]. rewrite !bool_decide_false by done.
    destruct (split_slash s) as [|t l]; inversion Hs; by repeat constructor.
  - intros c s Hc _ Hs. cbn [split_slash]. case_bool_decide; [by constructor|].
    destruct (split_slash s) as [|t l]; inversion Hs; constructor; try done; rewrite escapes_ok_cons; try done;
      by apply bool_decide_eq_false.
Qed.

(** For every pointer that validation accepts, the lookup with a fixed buffer
    returns what serde_json's [Value::pointer] returns. *)
Lemma pointer_equals_reference v path :
  validate_pointer path = Ok tt → pointer v path = value_pointer v path.
Proof.
  unfold validate_pointer, pointer, value_pointer. intros [Hp Hv]%reject_Ok.
  apply orb_false_iff in Hp as [Hl Hp]. rewrite Hl. apply reject_Ok in Hv as [He%negb_false_iff _].
  destruct path as [|c path]; [done|]. rewrite bool_decide_false in Hp |- * by done. cbn [negb andb] in Hp.
  rewrite Hp. apply negb_false_iff in Hp. unfold starts_with in Hp. cbn [String.prefix] in Hp.
  destruct (ascii_dec "/" c) as [<-|]; [|done]. cbn [split_slash]. rewrite bool_decide_true by done. cbn [tail].
  rewrite escapes_ok_cons in He by done. f_equal. apply list_fmap_ext. intros i t Ht.
  apply split_slash_tokens in He. rewrite Forall_lookup in He. specialize (He i t Ht). cbn beta.
  rewrite <-decode_token_replace by done. destruct (contains_char "~" t) eqn:Hc; [done|]. by rewrite plain_token.
Qed.

(** ** An instance: the decimals that are natural numbers *)

Definition natural_decimals : Decimals := {|
  BigDecimal := N;
  parse_decimal := parse_nat;
  normalized := λ n, n;
|}.
