(* ===== verification/Cancellation.v ===== *)
(** * Cooperative cancellation and the cancellable heapsort

    Models src/crates/kasumi-query/src/cancellation.rs: the token that query
    work checks, and the in-place heapsort that checks it at every comparison.

    The flag of a token is set by another thread and never cleared: a [Token]
    says after how many more checks the flag is seen, if ever.  An index out of
    range panics. *)

From S2P Require Import Prelude Json Types Digest State.

(** ** Tokens *)

Inductive Token := Never | After (checks : nat).

(** [QueryCancellation::check]. *)
Definition cancelled : Error := new_error ResourceExhausted "query work cancelled".

Definition observe_token (t : Token) : Token * Result unit :=
  match t with
  | Never => (Never, Ok tt)
  | After O => (After O, Err cancelled)
  | After (S n) => (After n, Ok tt)
  end.

Definition check_token : ST Token Error unit := observe_token.

(** ** Heapsort *)

Inductive SortFailure := SCancelled (e : Error) | SPanic.

Section sort.
Context {T : Type} (compare : T → T → comparison).

Definition is_lt (c : comparison) : bool := match c with Lt => true | _ => false end.

(** The token and the slice. *)
Abbreviation Sorting := (ST (Token * list T) SortFailure unit).

Definition sort_check : Sorting := λ s,
  match check_token s.1 with
  | (t, Ok _) => ((t, s.2), Ok tt)
  | (t, Err e) => ((t, s.2), Err (SCancelled e))
  end.

(** [slice::swap]. *)
Definition swap (i j : nat) (items : list T) : option (list T) :=
  x ← items !! i;
  y ← items !! j;
  Some (<[i := y]> (<[j := x]> items)).

Definition sort_swap (i j : nat) : Sorting := λ s,
  match swap i j s.2 with
  | Some items => ((s.1, items), Ok tt)
  | None => (s, Err SPanic)
  end.

(** The left child of a root below [end]. *)
Definition left_child (root : nat) (e : nat) : option nat :=
  x ← checked_mul (N.of_nat root) 2;
  y ← checked_add x 1;
  if y <? N.of_nat e then Some (N.to_nat y) else None.

(** The larger child. *)
Definition choose_child (items : list T) (child : nat) (e : nat) : option nat :=
  if (S child <? e)%nat then
    a ← items !! child;
    b ← items !! S child;
    Some (if is_lt (compare a b) then S child else child)
  else Some child.

(** [sift]. *)
Fixpoint sift (fuel : nat) (root e : nat) : Sorting :=
  match left_child root e with
  | None => mret tt
  | Some first =>
      sort_check;;
      s ← st_get;
      match choose_child s.2 first e with
      | None => st_lift (Err SPanic)
      | Some child =>
          match s.2 !! root, s.2 !! child with
          | Some r, Some c =>
              if negb (is_lt (compare r c)) then mret tt
              else match fuel with
                   | O => st_lift (Err SPanic)
                   | S fuel => sort_swap root child;; sift fuel child e
                   end
          | _, _ => st_lift (Err SPanic)
          end
      end
  end.

Fixpoint build_heap (n : nat) (e : nat) : Sorting :=
  match n with
  | O => mret tt
  | S root => sift e root e;; build_heap root e
  end.

(** The loop that moves the maximum to the end, for [end] from [n] to one. *)
Fixpoint extract (n : nat) : Sorting :=
  match n with
  | O => mret tt
  | S n' => sort_check;; sort_swap 0 n;; sift n 0 n;; extract n'
  end.

(** [sort]. *)
Definition sort : Sorting :=
  sort_check;;
  s ← st_get;
  let n := length s.2 in
  build_heap (n / 2) n;;
  extract (n - 1);;
  sort_check.
End sort.

(** ** Correctness of the heapsort *)

#[local] Open Scope nat_scope.

Section swaps.
Context {T : Type}.
Implicit Types l : list T.

Lemma swap_Some i j l l' :
  swap i j l = Some l' ↔ ∃ x y, l !! i = Some x ∧ l !! j = Some y ∧ l' = <[i := y]> (<[j := x]> l).
Proof.
  unfold swap. rewrite bind_Some. setoid_rewrite bind_Some. naive_solver.
Qed.

Definition swapped (i j k : nat) : nat := if decide (k = i) then j else if decide (k = j) then i else k.

Lemma swap_lookup i j l l' k : swap i j l = Some l' → l' !! k = l !! swapped i j k.
Proof.
  intros (x & y & Hi & Hj & ->)%swap_Some. apply lookup_lt_Some in Hi as Hli. apply lookup_lt_Some in Hj as Hlj.
  unfold swapped. destruct (decide (k = i)) as [->|Hki].
  { rewrite list_lookup_insert_eq by (rewrite length_insert; done). done. }
  rewrite list_lookup_insert_ne by done. destruct (decide (k = j)) as [->|Hkj].
  { by rewrite list_lookup_insert_eq. }
  by rewrite list_lookup_insert_ne.
Qed.

Lemma swap_perm i j l l' : swap i j l = Some l' → l' ≡ₚ l.
Proof.
  intros Hs. apply Permutation_inj. split.
  - apply swap_Some in Hs as (x & y & _ & _ & ->). by rewrite !length_insert.
  - exists (swapped i j). split; [|intros k; by apply swap_lookup].
    intros a b. unfold swapped. repeat case_decide; congruence.
Qed.

(** What moving elements inside a range keeps. *)
Record moved (lo e : nat) (l l' : list T) : Prop := {
  mv_perm : l' ≡ₚ l;
  mv_outside : ∀ i, i < lo ∨ e ≤ i → l' !! i = l !! i;
  mv_inside : ∀ i x, lo ≤ i < e → l' !! i = Some x → ∃ j, lo ≤ j < e ∧ l !! j = Some x;
}.

Lemma moved_refl lo e l : moved lo e l l.
Proof. split; [done|done|eauto]. Qed.

Lemma moved_trans lo e l1 l2 l3 : moved lo e l1 l2 → moved lo e l2 l3 → moved lo e l1 l3.
Proof.
  intros [P1 O1 I1] [P2 O2 I2]. split.
  - by rewrite P2.
  - intros i Hi. by rewrite O2, O1.
  - intros i x Hi Hx. destruct (I2 i x Hi Hx) as (j & Hj & Hjx). by apply (I1 j).
Qed.

Lemma swap_moved lo e i j l l' : lo ≤ i < e → lo ≤ j < e → swap i j l = Some l' → moved lo e l l'.
Proof.
  intros Hi Hj Hs. split.
  - by eapply swap_perm.
  - intros k Hk. rewrite (swap_lookup _ _ _ _ k Hs). unfold swapped. repeat case_decide; try done; lia.
  - intros k x Hk Hx. rewrite (swap_lookup _ _ _ _ k Hs) in Hx. eexists. split; [|exact Hx].
    unfold swapped. repeat case_decide; lia.
Qed.

Lemma swap_exists i j l : i < length l → j < length l → ∃ l', swap i j l = Some l'.
Proof.
  intros [x Hx]%lookup_lt_is_Some_2 [y Hy]%lookup_lt_is_Some_2. eexists. apply swap_Some. by exists x, y.
Qed.
End swaps.

Section heap.
Context {T : Type} (compare : T → T → comparison).

Definition le (x y : T) : Prop := compare x y ≠ Gt.

Context (compare_opp : ∀ x y, compare y x = CompOpp (compare x y)).
Context (le_trans : ∀ x y z, le x y → le y z → le x z).

Lemma not_lt_le x y : is_lt (compare x y) = false ↔ le y x.
Proof. unfold le. rewrite (compare_opp x y). by destruct (compare x y). Qed.
Lemma lt_le x y : is_lt (compare x y) = true → le x y.
Proof. unfold le. by destruct (compare x y). Qed.
Lemma le_refl x : le x x.
Proof. unfold le. pose proof (compare_opp x x) as Hx. by destruct (compare x x). Qed.

Definition le_at (l : list T) (i j : nat) : Prop := ∀ x y, l !! i = Some x → l !! j = Some y → le x y.

Definition child (p c : nat) : Prop := c = 2 * p + 1 ∨ c = 2 * p + 2.

(** Every parent from [lo] on is at least its children below [e]. *)
Definition heap (lo e : nat) (l : list T) : Prop := ∀ p c, lo ≤ p → child p c → c < e → le_at l c p.

(** So is every parent but [root], whose own parent is at least its children. *)
Record holed (lo e root : nat) (l : list T) : Prop := {
  ho_others : ∀ p c, lo ≤ p → p ≠ root → child p c → c < e → le_at l c p;
  ho_over : ∀ p c, lo ≤ p → child p root → child root c → c < e → le_at l c p;
}.

Lemma left_child_spec root e :
  (2 * N.of_nat e ≤ u64_max)%N → root < e →
  left_child root e = if decide (2 * root + 1 < e) then Some (2 * root + 1) else None.
Proof.
  intros He Hr. unfold left_child, checked_mul. rewrite (proj2 (N.leb_le _ _)) by lia. cbn [mbind option_bind].
  unfold checked_add. rewrite (proj2 (N.leb_le _ _)) by lia. cbn [mbind option_bind].
  case_decide as Hd.
  - rewrite (proj2 (N.ltb_lt _ _)) by lia. f_equal. lia.
  - by rewrite (proj2 (N.ltb_ge _ _)) by lia.
Qed.

(** The chosen child is the larger one. *)
Lemma choose_child_spec l first root e :
  first = 2 * root + 1 → first < e → e ≤ length l →
  ∃ c x y, choose_child compare l first e = Some c ∧ child root c ∧ c < e ∧ l !! root = Some x ∧ l !! c = Some y ∧
    ∀ d, child root d → d < e → le_at l d c.
Proof.
  intros Hf Hlt Hlen. destruct (lookup_lt_is_Some_2 l root) as [x Hx]; [lia|].
  destruct (lookup_lt_is_Some_2 l first) as [a Ha]; [lia|]. unfold choose_child, child.
  destruct (Nat.ltb_spec (S first) e) as [Hs|Hs].
  - destruct (lookup_lt_is_Some_2 l (S first)) as [b Hb]; [lia|]. rewrite Ha, Hb. cbn [mbind option_bind].
    destruct (is_lt (compare a b)) eqn:Hab.
    + exists (S first), x, b. split_and!; [done|lia|lia|done|done|]. intros d Hd Hde u v Hu Hv.
      rewrite Hb in Hv. injection Hv as <-. destruct (decide (d = first)) as [->|].
      * rewrite Ha in Hu. injection Hu as <-. by apply lt_le.
      * assert (d = S first) as -> by lia. rewrite Hb in Hu. injection Hu as <-. apply le_refl.
    + exists first, x, a. split_and!; [done|lia|lia|done|done|]. intros d Hd Hde u v Hu Hv.
      rewrite Ha in Hv. injection Hv as <-. destruct (decide (d = first)) as [->|].
      * rewrite Ha in Hu. injection Hu as <-. apply le_refl.
      * assert (d = S first) as -> by lia. rewrite Hb in Hu. injection Hu as <-. by apply not_lt_le.
  - exists first, x, a. split_and!; [done|lia|lia|done|done|]. intros d Hd Hde u v Hu Hv.
    assert (d = first) as -> by lia. rewrite Ha in Hu, Hv. simplify_eq. apply le_refl.
Qed.

(** Moving the root below its larger child moves the hole. *)
Lemma swap_holed lo e root c x y l l' :
  lo ≤ root → holed lo e root l → child root c → c < e → l !! root = Some x → l !! c = Some y →
  (∀ d, child root d → d < e → le_at l d c) → le x y → swap root c l = Some l' → holed lo e c l'.
Proof.
  intros Hlo [Hoth Hover] Hc Hce Hx Hy Hbig Hxy Hs.
  assert (Hne : c ≠ root) by (unfold child in Hc; lia).
  assert (Hlk : ∀ k, l' !! k = l !! swapped root c k) by (intros k; by apply swap_lookup).
  assert (Hr' : l' !! root = Some y).
  { rewrite Hlk. unfold swapped. by rewrite decide_True. }
  assert (Hc' : l' !! c = Some x).
  { rewrite Hlk. unfold swapped. by rewrite decide_False, decide_True. }
  assert (Ho' : ∀ k, k ≠ root → k ≠ c → l' !! k = l !! k).
  { intros k H1 H2. rewrite Hlk. unfold swapped. by rewrite !decide_False. }
  split.
  - intros p d Hp Hpc Hd Hde u v Hu Hv. destruct (decide (p = root)) as [->|Hpr].
    + rewrite Hr' in Hv. injection Hv as <-. destruct (decide (d = c)) as [->|Hdc].
      * rewrite Hc' in Hu. injection Hu as <-. done.
      * rewrite Ho' in Hu by (unfold child in *; lia). by apply (Hbig d).
    + rewrite (Ho' p) in Hv by done. destruct (decide (d = root)) as [->|Hdr].
      * rewrite Hr' in Hu. injection Hu as <-. apply (Hover p c Hp Hd Hc Hce y v Hy Hv).
      * assert (d ≠ c) by (unfold child in *; lia). rewrite Ho' in Hu by done. by apply (Hoth p d).
  - intros p d Hp Hpc Hcd Hde u v Hu Hv. assert (p = root) as -> by (unfold child in *; lia).
    rewrite Hr' in Hv. injection Hv as <-. rewrite Ho' in Hu by (unfold child in *; lia).
    apply (Hoth c d); [unfold child in *; lia|done|done|done|done|done].
Qed.

Lemma holed_heap lo e root l :
  holed lo e root l → (∀ c, child root c → c < e → le_at l c root) → heap lo e l.
Proof.
  intros [Hoth _] Hr p c Hp Hc Hce. destruct (decide (p = root)) as [->|]; [by apply Hr|by apply Hoth].
Qed.

(** How a run ends: normally or cancelled, and normally when nothing cancels. *)
Definition stopped (t t' : Token) (r : result SortFailure unit) : Prop :=
  (r = Ok tt ∨ r = Err (SCancelled cancelled)) ∧ (t = Never → t' = Never ∧ r = Ok tt).

Lemma sort_check_run t (l : list T) : ∃ t' r, sort_check (t, l) = ((t', l), r) ∧ stopped t t' r.
Proof.
  destruct t as [|[|n]]; (eexists _, _; split; [reflexivity|split; [by auto|done]]).
Qed.

Lemma stopped_trans t t1 t2 r : stopped t t1 (Ok tt) → stopped t1 t2 r → stopped t t2 r.
Proof. intros [_ H1] [Hr H2]. split; [done|]. intros Ht. destruct (H1 Ht) as [Ht1 _]. by apply H2. Qed.

(** A step after a check. *)
Lemma checked_run (f : unit → ST (Token * list T) SortFailure unit) t l (P : list T → Prop) (Q : list T → Prop) :
  P l →
  (∀ t1, stopped t t1 (Ok tt) →
     ∃ t' l' r, f tt (t1, l) = ((t', l'), r) ∧ stopped t1 t' r ∧ P l' ∧ (r = Ok tt → Q l')) →
  ∃ t' l' r, (sort_check ≫= f) (t, l) = ((t', l'), r) ∧ stopped t t' r ∧ P l' ∧ (r = Ok tt → Q l').
Proof.
  intros HP Hf. destruct (sort_check_run t l) as (t1 & r & Hc & Hs). destruct r as [[]|e].
  - destruct (Hf t1 Hs) as (t' & l' & r & Hr & Hs' & HP' & HQ). exists t', l', r. split_and!; [|by eapply stopped_trans|done|done].
    by rewrite (st_bind_run _ _ _ _ _ Hc).
  - exists t1, l, (Err e). split_and!; [|done|done|done]. unfold mbind, ST_bind. by rewrite Hc.
Qed.

Lemma sift_run lo e fuel : (2 * N.of_nat e ≤ u64_max)%N → ∀ root t l,
  lo ≤ root < e → holed lo e root l → e ≤ length l → e ≤ root + fuel + 1 →
  ∃ t' l' r, sift compare fuel root e (t, l) = ((t', l'), r) ∧ stopped t t' r ∧
    moved lo e l l' ∧ (r = Ok tt → heap lo e l').
Proof.
  intros He. induction fuel as [|fuel IH]; intros root t l Hroot Hh Hlen Hfuel; cbn [sift];
    rewrite left_child_spec by (done || lia); case_decide as Hd.
  1: lia.
  1, 3: exists t, l, (Ok tt); split_and!; [done|split; [by left|done]|apply moved_refl|];
    intros _; eapply holed_heap; [done|]; intros c [-> | ->] Hc; lia.
  destruct (choose_child_spec l (2 * root + 1) root e eq_refl Hd Hlen) as (c & x & y & Hch & Hrc & Hce & Hx & Hy & Hbig).
  apply checked_run; [apply moved_refl|]. intros t1 Ht1. rewrite st_bind_get. cbn [snd]. rewrite Hch, Hx, Hy.
  destruct (is_lt (compare x y)) eqn:Hxy; cbn [negb].
  - destruct (swap_exists root c l) as [l1 Hl1]; [lia..|].
    assert (Hsw : sort_swap root c (t1, l) = ((t1, l1), Ok tt)) by (unfold sort_swap; cbn [fst snd]; by rewrite Hl1).
    rewrite (st_bind_run _ _ _ _ _ Hsw).
    pose proof (swap_moved lo e root c l l1 ltac:(lia) ltac:(unfold child in Hrc; lia) Hl1) as Hmv.
    destruct (IH c t1 l1) as (t' & l' & r & Hs & Hst & Hm & Hq).
    + unfold child in Hrc. lia.
    + apply (swap_holed lo e root c x y l l1); try done; [lia|by apply lt_le].
    + rewrite (Permutation_length (mv_perm _ _ _ _ Hmv)). done.
    + unfold child in Hrc. lia.
    + exists t', l', r. split_and!; [done|done|by eapply moved_trans|done].
  - exists t1, l, (Ok tt). split_and!; [done|split; [by left|done]|apply moved_refl|].
    intros _. eapply holed_heap; [done|]. intros d Hrd Hde u v Hu Hv. rewrite Hx in Hv. injection Hv as <-.
    apply (le_trans _ y); [by apply (Hbig d)|]. by apply not_lt_le.
Qed.

Lemma heap_holed lo e root l : heap (S root) e l → lo = root → holed lo e root l.
Proof.
  intros Hh ->. split.
  - intros p c Hp Hpr. apply Hh. lia.
  - intros p c Hp Hpr. unfold child in Hpr. lia.
Qed.

Lemma build_heap_run n e : (2 * N.of_nat e ≤ u64_max)%N → ∀ t l,
  heap n e l → n ≤ e → e ≤ length l →
  ∃ t' l' r, build_heap compare n e (t, l) = ((t', l'), r) ∧ stopped t t' r ∧
    moved 0 e l l' ∧ (r = Ok tt → heap 0 e l').
Proof.
  intros He. induction n as [|n IH]; intros t l Hh Hn Hlen; cbn [build_heap].
  { exists t, l, (Ok tt). split_and!; [done|split; [by left|done]|apply moved_refl|done]. }
  destruct (sift_run n e e He n t l) as (t1 & l1 & r1 & Hs & Hst & Hm & Hq); [lia|by apply heap_holed|done|lia|].
  assert (Hm0 : moved 0 e l l1).
  { destruct Hm as [P O I]. split; [done|intros i Hi; apply O; lia|].
    intros i x Hi Hx. destruct (decide (n ≤ i)) as [Hni|Hni].
    - destruct (I i x ltac:(lia) Hx) as (j & Hj & Hjx). exists j. split; [lia|done].
    - rewrite O in Hx by lia. by exists i. }
  destruct r1 as [[]|err].
  - destruct (IH t1 l1) as (t' & l' & r & Hr & Hst' & Hm' & Hq'); [by apply Hq|lia| |].
    { rewrite (Permutation_length (mv_perm _ _ _ _ Hm)). done. }
    exists t', l', r. rewrite (st_bind_run _ _ _ _ _ Hs). split_and!; [done|by eapply stopped_trans|by eapply moved_trans|done].
  - exists t1, l1, (Err err). unfold mbind, ST_bind. rewrite Hs. split_and!; [done|done|done|done].
Qed.

(** The first element of a heap is its largest. *)
Lemma heap_top e l i : heap 0 e l → i < e → le_at l i 0.
Proof.
  intros Hh. induction i as [i IH] using lt_wf_ind. intros Hi x y Hx Hy. destruct (decide (i = 0)) as [->|Hi0].
  { rewrite Hx in Hy. injection Hy as <-. apply le_refl. }
  set (p := (i - 1) / 2). assert (Hp : child p i).
  { unfold child, p. pose proof (Nat.div_mod_eq (i - 1) 2). pose proof (Nat.mod_upper_bound (i - 1) 2). lia. }
  destruct (lookup_lt_is_Some_2 l p) as [z Hz].
  { apply lookup_lt_Some in Hx. unfold child in Hp. lia. }
  apply (le_trans _ z); [by apply (Hh p i ltac:(lia) Hp Hi)|]. apply (IH p); [unfold child in Hp; lia..|done|done].
Qed.

(** Past [n] the slice is sorted and above what is before. *)
Record tailed (n : nat) (l : list T) : Prop := {
  ta_sorted : ∀ i j, n < i → i < j → le_at l i j;
  ta_above : ∀ i j, i ≤ n → n < j → le_at l i j;
}.

Lemma extract_step n l l1 l2 :
  n ≠ 0 → heap 0 (S n) l → tailed n l → swap 0 n l = Some l1 → moved 0 n l1 l2 → tailed (n - 1) l2.
Proof.
  intros Hn Hh [Hs Ha] Hsw [_ O I].
  assert (H1 : ∀ k, n < k → l2 !! k = l !! k).
  { intros k Hk. rewrite O by lia. rewrite (swap_lookup _ _ _ _ k Hsw). unfold swapped. by rewrite !decide_False by lia. }
  assert (H2 : l2 !! n = l !! 0).
  { rewrite O by lia. rewrite (swap_lookup _ _ _ _ n Hsw). unfold swapped. by rewrite decide_False, decide_True by lia. }
  assert (H3 : ∀ i x, i < n → l2 !! i = Some x → ∃ j, j ≤ n ∧ l !! j = Some x).
  { intros i x Hi Hx. destruct (I i x ltac:(lia) Hx) as (j & Hj & Hjx). rewrite (swap_lookup _ _ _ _ j Hsw) in Hjx.
    eexists. split; [|exact Hjx]. unfold swapped. repeat case_decide; lia. }
  split.
  - intros i j Hi Hij x y Hx Hy. destruct (decide (i = n)) as [->|Hin].
    + rewrite H2 in Hx. rewrite H1 in Hy by lia. by apply (Ha 0 j ltac:(lia) ltac:(lia)).
    + rewrite H1 in Hx, Hy by lia. by apply (Hs i j ltac:(lia) ltac:(lia)).
  - intros i j Hi Hj x y Hx Hy. destruct (H3 i x ltac:(lia) Hx) as (k & Hk & Hkx). destruct (decide (j = n)) as [->|Hjn].
    + rewrite H2 in Hy. by apply (heap_top (S n) l k Hh ltac:(lia)).
    + rewrite H1 in Hy by lia. by apply (Ha k j ltac:(lia) ltac:(lia)).
Qed.

Lemma extract_run n : (2 * N.of_nat (S n) ≤ u64_max)%N → ∀ t l,
  heap 0 (S n) l → tailed n l → n < length l ∨ n = 0 →
  ∃ t' l' r, extract compare n (t, l) = ((t', l'), r) ∧ stopped t t' r ∧
    l' ≡ₚ l ∧ (r = Ok tt → ∀ i j, i < j → le_at l' i j).
Proof.
  induction n as [|n IH]; intros He t l Hh Hta Hlen; cbn [extract].
  { exists t, l, (Ok tt). split_and!; [done|split; [by left|done]|done|]. intros _ i j Hij.
    destruct (decide (i = 0)); [apply (ta_above 0 l Hta); lia|apply (ta_sorted 0 l Hta); lia]. }
  apply checked_run; [done|]. intros t1 Ht1.
  destruct (swap_exists 0 (S n) l) as [l1 Hl1]; [lia..|].
  assert (Hsw : sort_swap 0 (S n) (t1, l) = ((t1, l1), Ok tt)) by (unfold sort_swap; cbn [fst snd]; by rewrite Hl1).
  rewrite (st_bind_run _ _ _ _ _ Hsw).
  assert (Hl : length l1 = length l) by apply (Permutation_length (swap_perm _ _ _ _ Hl1)).
  destruct (sift_run 0 (S n) (S n) ltac:(lia) 0 t1 l1) as (t2 & l2 & r2 & Hs & Hst & Hm & Hq); [lia| |lia|lia|].
  { split; [|intros p c _ Hp; unfold child in Hp; lia]. intros p c _ Hp Hc Hce x y Hx Hy.
    rewrite (swap_lookup _ _ _ _ c Hl1) in Hx. rewrite (swap_lookup _ _ _ _ p Hl1) in Hy. unfold swapped in Hx, Hy.
    rewrite !decide_False in Hx by (unfold child in Hc; lia). rewrite !decide_False in Hy by (unfold child in Hc; lia).
    by apply (Hh p c ltac:(lia) Hc ltac:(lia)). }
  pose proof (mv_perm _ _ _ _ Hm) as Hp2. pose proof (swap_perm _ _ _ _ Hl1) as Hp1.
  destruct r2 as [[]|err].
  - destruct (IH ltac:(lia) t2 l2) as (t' & l' & r & Hr & Hst' & Hp' & Hq').
    + by apply Hq.
    + replace n with (S n - 1) by lia. by eapply (extract_step (S n)).
    + rewrite (Permutation_length Hp2). lia.
    + exists t', l', r. rewrite (st_bind_run _ _ _ _ _ Hs). split_and!; [done|by eapply stopped_trans| |done].
      by rewrite Hp', Hp2, Hp1.
  - exists t2, l2, (Err err). unfold mbind, ST_bind. rewrite Hs. split_and!; [done|done| |done]. by rewrite Hp2, Hp1.
Qed.

(** Where the loop over the parents starts. *)
Lemma leaves_heap e l : heap (e / 2) e l.
Proof.
  intros p c Hp Hc Hce. unfold child in Hc. pose proof (Nat.div_mod_eq e 2). pose proof (Nat.mod_upper_bound e 2). lia.
Qed.

Lemma sort_run t l : (2 * len l ≤ u64_max)%N →
  ∃ t' l' r, sort compare (t, l) = ((t', l'), r) ∧ stopped t t' r ∧ l' ≡ₚ l ∧ (r = Ok tt → ∀ i j, i < j → le_at l' i j).
Proof.
  intros He. unfold len in He. unfold sort. apply checked_run; [done|]. intros t1 Ht1. rewrite st_bind_get. cbn [snd]. cbv zeta.
  destruct (build_heap_run (length l / 2) (length l) He t1 l (leaves_heap _ _)) as (t2 & l2 & r2 & Hb & Hst & Hm & Hq);
    [apply Nat.Div0.div_le_upper_bound; lia|done|].
  pose proof (mv_perm _ _ _ _ Hm) as Hp2. pose proof (Permutation_length Hp2) as Hl2.
  destruct r2 as [[]|err].
  2: { exists t2, l2, (Err err). unfold mbind at 1, ST_bind at 1. rewrite Hb. by split_and!. }
  rewrite (st_bind_run _ _ _ _ _ Hb).
  destruct (decide (length l = 0)) as [H0|H0].
  { destruct l2; [|rewrite H0 in Hl2; done]. rewrite H0. cbn [Nat.sub extract].
    destruct (sort_check_run t2 (@nil T)) as (t3 & r3 & Hc & Hs3). exists t3, [], r3. split_and!; [|by eapply stopped_trans|done|by intros _ i j _ x y Hx].
    unfold mbind, ST_bind, mret, ST_ret. cbn. exact Hc. }
  destruct (extract_run (length l - 1) ltac:(lia) t2 l2) as (t3 & l3 & r3 & Hx & Hs3 & Hp3 & Hq3).
  - replace (S (length l - 1)) with (length l) by lia. by apply Hq.
  - split; intros i j Hi Hj x y Hx Hy; apply lookup_lt_Some in Hy; lia.
  - lia.
  - destruct r3 as [[]|err].
    + rewrite (st_bind_run _ _ _ _ _ Hx). destruct (sort_check_run t3 l3) as (t4 & r4 & Hc & Hs4). exists t4, l3, r4.
      split_and!; [done|eapply stopped_trans; [by eapply stopped_trans|done]|by rewrite Hp3, Hp2|]. intros _. by apply Hq3.
    + exists t3, l3, (Err err). unfold mbind, ST_bind. rewrite Hx. split_and!; [done|by eapply stopped_trans|by rewrite Hp3, Hp2|done].
Qed.
End heap.

Lemma sorted_positions {T} (R : T → T → Prop) l :
  (∀ i j x y, i < j → l !! i = Some x → l !! j = Some y → R x y) → StronglySorted R l.
Proof.
  induction l as [|a l IH]; intros Hl; constructor.
  - apply IH. intros i j x y Hij. apply (Hl (S i) (S j)). lia.
  - apply Forall_lookup. intros i x Hx. by apply (Hl 0 (S i) a x); [lia|..].
Qed.

(** C27.  The cancellable heapsort sorts: for every comparison that is a total
    preorder, and however the token is cancelled, it never indexes outside the
    slice and always ends, leaving a permutation of it; when nothing cancels it
    returns normally, and whenever it returns normally the slice is sorted. *)
Theorem sort_sorts {T} (compare : T → T → comparison) (t : Token) (l : list T) :
  (∀ x y, compare y x = CompOpp (compare x y)) →
  (∀ x y z, compare x y ≠ Gt → compare y z ≠ Gt → compare x z ≠ Gt) →
  (2 * len l ≤ u64_max)%N →
  ∃ t' l' r, sort compare (t, l) = ((t', l'), r) ∧ l' ≡ₚ l ∧
    (r = Ok tt ∨ r = Err (SCancelled cancelled)) ∧ (t = Never → r = Ok tt) ∧
    (r = Ok tt → StronglySorted (λ x y, compare x y ≠ Gt) l').
Proof.
  intros Hopp Htr Hl. destruct (sort_run compare Hopp Htr t l Hl) as (t' & l' & r & Hs & [Hr Hn] & Hp & Hq).
  exists t', l', r. split_and!; [done|done|done|by intros Ht; apply Hn|]. intros Hok. apply sorted_positions.
  intros i j x y Hij Hx Hy. by apply (Hq Hok i j Hij).
Qed.

Lemma sort_sorts_witness :
  ∃ t' l' r, sort N.compare (Never, [3; 1; 2; 1]%N) = ((t', l'), r) ∧ l' ≡ₚ [3; 1; 2; 1]%N ∧
    (r = Ok tt ∨ r = Err (SCancelled cancelled)) ∧ (Never = Never → r = Ok tt) ∧
    (r = Ok tt → StronglySorted (λ x y, N.compare x y ≠ Gt) l').
Proof.
  apply (sort_sorts N.compare Never [3; 1; 2; 1]%N).
  - intros x y. apply N.compare_antisym.
  - intros x y z Hxy Hyz. rewrite N.compare_ngt_iff in *. lia.
  - vm_compute. discriminate.
Defined.

(** ** Cancellable computations

    What a computation that observes a token yields: whenever it returns, it
    returns [a]; it never fails with a bad error; and a token that is never set
    lets it return when [c] holds. *)

#[local] Close Scope nat_scope.

Record computes {E A : Type} (bad : E → Prop) (m : ST Token E A) (a : A) (c : Prop) : Prop := {
  cp_exact : ∀ t t' x, m t = (t', Ok x) → x = a;
  cp_safe : ∀ t t' e, m t = (t', Err e) → ¬ bad e;
  cp_total : c → m Never = (Never, Ok a);
}.

Section computes.
Context {E : Type} (bad : E → Prop).

Lemma computes_weaken {A} (m : ST Token E A) a a' (c c' : Prop) :
  computes bad m a c → a = a' → (c' → c) → computes bad m a' c'.
Proof. intros [H1 H2 H3] <- Hc. split; eauto. Qed.

Lemma computes_ret {A} (a : A) c : computes bad (mret a) a c.
Proof. split; [|done|done]. by intros t t' x [= _ <-]. Qed.

Lemma computes_bind {A B} (m : ST Token E A) (f : A → ST Token E B) a b c :
  computes bad m a c → computes bad (f a) b c → computes bad (m ≫= f) b c.
Proof.
  intros [H1 H2 H3] [G1 G2 G3]. unfold mbind, ST_bind. split.
  - intros t t' x. destruct (m t) as [t1 [y|e]] eqn:Hm; [|done]. apply H1 in Hm as ->. apply G1.
  - intros t t' e. destruct (m t) as [t1 [y|e']] eqn:Hm; [apply H1 in Hm as ->; apply G2|]. intros [= <- <-]. by eapply H2.
  - intros Hc. by rewrite H3, G3.
Qed.

Lemma computes_lift {A} (r : result E A) a (c : Prop) :
  (∀ x, r = Ok x → x = a) → (∀ e, r = Err e → ¬ bad e) → (c → r = Ok a) → computes bad (st_lift r) a c.
Proof.
  intros H1 H2 H3. split.
  - intros t t' x [= _ Hx]. by apply H1.
  - intros t t' e [= _ Hx]. by apply H2.
  - intros Hc. unfold st_lift. by rewrite H3.
Qed.

(** A loop computes a pure fold when every iteration does. *)
Lemma computes_fold {A B} (f : B → A → ST Token E B) (g : B → A → B) acc l c :
  (∀ l1 x l2, l = l1 ++ x :: l2 → computes bad (f (foldl g acc l1) x) (g (foldl g acc l1) x) c) →
  computes bad (st_fold f acc l) (foldl g acc l) c.
Proof.
  revert acc. induction l as [|x l IH]; intros acc Hl; [apply computes_ret|].
  cbn [st_fold foldl]. apply (computes_bind _ _ (g acc x)); [apply (Hl [] x l eq_refl)|].
  apply IH. intros l1 y l2 ->. apply (Hl (x :: l1) y l2 eq_refl).
Qed.
End computes.

Lemma computes_check (bad : Error → Prop) c : (∀ e, ¬ bad e) → computes bad check_token tt c.
Proof. intros Hb. split; [by intros ? ? []|by intros|done]. Qed.
