(* ===== verification/Indexes.v ===== *)
(** * Structured indexes

    Models the index part of src/crates/kasumi-query/src/structured.rs (field
    indexes, unique indexes, their construction and their incremental update)
    and the checks of their inputs in index_input.rs.

    A source lends its rows and then succeeds or fails ([Feed]); every replay of
    it lends the same rows, which is what the digests that index_input.rs
    compares between passes make sure of. *)

From S2P Require Import Prelude Json Types Digest State Apply Scalars.

(** ** Sources *)

Inductive SourceRecord :=
| LiveRecord (d : Document)
| ArchivedRecord (d : ArchivedDocument).

Record Feed (A : Type) := {
  feed_rows : list A;
  feed_failure : option string;
}.
Arguments feed_rows {_}.
Arguments feed_failure {_}.

Record DocumentDelta := {
  dl_id : string;
  dl_old : option SourceRecord;
  dl_new : option SourceRecord;
}.

(** [check_source_record] and [Order::row]; [last] is empty before the first row. *)
Definition check_source_record (id : string) (r : SourceRecord) : Result unit :=
  match r with
  | LiveRecord d =>
      if negb (bool_decide (d_id d = id)) then fail Corruption "index input record identity differs" else Ok tt
  | ArchivedRecord _ => Ok tt
  end.

Definition order_row (last id : string) (r : option SourceRecord) : Result string :=
  validate_name id;;
  if negb (bool_decide (last = "")) && bool_decide (String.le id last) then
    fail Corruption "index input IDs are not strictly ordered"
  else
    match r with Some r => check_source_record id r | None => Ok tt end;;
    Ok id.

Definition feed_end {A S} (feed : Feed A) (s : S) : SourceResult S :=
  match feed_failure feed with Some e => Err (FSource e) | None => Ok s end.

(** [CheckedRecords::visit_records]. *)
Definition visit_records {S} (feed : Feed (string * SourceRecord)) (lend : string → SourceRecord → S → Result S) (s : S) :
    SourceResult S :=
  p ← query (try_fold (λ '(last, s) row,
       last ← order_row last row.1 (Some row.2);
       s ← lend row.1 row.2 s;
       Ok (last, s)) ("", s) (feed_rows feed));
  feed_end feed p.2.

(** [CheckedChanges::visit_changes]. *)
Definition visit_changes {S} (feed : Feed DocumentDelta) (lend : DocumentDelta → S → Result S) (s : S) : SourceResult S :=
  p ← query (try_fold (λ '(last, s) delta,
       last ← order_row last (dl_id delta) (dl_old delta);
       match dl_new delta with Some r => check_source_record (dl_id delta) r | None => Ok tt end;;
       s ← lend delta s;
       Ok (last, s)) ("", s) (feed_rows feed));
  feed_end feed p.2.

(** A loop over the values of a map, in key order. *)
Definition map_try {V} (f : string → V → Result V) (m : gmap string V) : Result (gmap string V) :=
  try_fold (λ acc kv, v ← f kv.1 kv.2; Ok (<[kv.1 := v]> acc)) m (map_iter m).

(** ** Indexes *)

Section indexes.
Context `{Decimals}.

Record FieldIndex := {
  fi_kind : ScalarType;
  fi_entries : gmap Scalar (gset string);
  fi_present : gset string;
}.

Record UniqueIndex := {
  ui_fields : list IndexField;
  ui_entries : gmap (list Scalar) string;
}.

Record Structured := {
  st_fields : gmap string FieldIndex;
  st_ids : gset string;
  st_unique : gmap string UniqueIndex;
}.

(** [record_value]. *)
Definition record_value (r : SourceRecord) (path : string) : option value :=
  match r with
  | LiveRecord d => value_pointer (body d) path
  | ArchivedRecord d => obj_lookup path (indexed_fields d)
  end.

(** [UniqueIndex::key], [UniqueIndex::insert]. *)
Definition unique_key (fields : list IndexField) (r : SourceRecord) : Result (option (list Scalar)) :=
  key ← try_map (λ f, scalar (record_value r (f_path f)) (Some (f_kind f))) fields;
  Ok (if bool_decide (KMissing ∈ key) then None else Some key).

Definition set_ui_entries (entries : gmap (list Scalar) string) (u : UniqueIndex) : UniqueIndex :=
  {| ui_fields := ui_fields u; ui_entries := entries |}.

Definition unique_insert (id : string) (r : SourceRecord) (name : string) (u : UniqueIndex) : Result UniqueIndex :=
  key ← unique_key (ui_fields u) r;
  match key with
  | Some key =>
      match ui_entries u !! key with
      | Some _ => fail Conflict ("unique index " +:+ name +:+ " conflicts")
      | None => Ok (set_ui_entries (<[key := id]> (ui_entries u)) u)
      end
  | None => Ok u
  end.

(** [entries.entry(key).or_default().insert(id)] for each key. *)
Definition insert_key (id : string) (entries : gmap Scalar (gset string)) (key : Scalar) : gmap Scalar (gset string) :=
  <[key := {[id]} ∪ default ∅ (entries !! key)]> entries.

Definition add_record (id : string) (r : SourceRecord) (path : string) (i : FieldIndex) : Result FieldIndex :=
  let v := record_value r path in
  keys ← indexed_values v (fi_kind i);
  Ok {| fi_kind := fi_kind i; fi_entries := foldl (insert_key id) (fi_entries i) keys;
        fi_present := match v with Some _ => {[id]} ∪ fi_present i | None => fi_present i end |}.

(** The indexes of a definition, empty. *)
Definition empty_unique (d : CollectionDefinition) : gmap string UniqueIndex :=
  foldl (λ m i, if unique i then <[i_name i := {| ui_fields := i_fields i; ui_entries := ∅ |}]> m else m) ∅ (cd_indexes d).

Definition or_insert_field (m : gmap string FieldIndex) (f : IndexField) : gmap string FieldIndex :=
  match m !! f_path f with
  | Some _ => m
  | None => <[f_path f := {| fi_kind := f_kind f; fi_entries := ∅; fi_present := ∅ |}]> m
  end.

Definition empty_fields (d : CollectionDefinition) : gmap string FieldIndex :=
  foldl (λ m i, foldl or_insert_field m (i_fields i)) ∅ (cd_indexes d).

(** [Structured::build]. *)
Definition build_row (id : string) (r : SourceRecord) (s : Structured) : Result Structured :=
  fields ← map_try (add_record id r) (st_fields s);
  uniques ← map_try (unique_insert id r) (st_unique s);
  Ok {| st_fields := fields; st_ids := {[id]} ∪ st_ids s; st_unique := uniques |}.

Definition empty_structured (d : CollectionDefinition) : Structured :=
  {| st_fields := empty_fields d; st_ids := ∅; st_unique := empty_unique d |}.

(** [Structured::build_unique]. *)
Definition build_unique (d : CollectionDefinition) (source : Feed (string * SourceRecord)) :
    SourceResult (gmap string UniqueIndex) :=
  if bool_decide (empty_unique d = ∅) then Ok (empty_unique d)
  else visit_records source (λ id r, map_try (unique_insert id r)) (empty_unique d).

Definition build_structured (d : CollectionDefinition) (source : Feed (string * SourceRecord)) : SourceResult Structured :=
  visit_records source build_row (empty_structured d).

(** ** Updates *)

(** [Structured::unique_delta]. *)
Definition unique_remove (id : string) (r : SourceRecord) (_ : string) (u : UniqueIndex) : Result UniqueIndex :=
  key ← unique_key (ui_fields u) r;
  match key with
  | Some key =>
      if bool_decide (ui_entries u !! key = Some id) then Ok (set_ui_entries (delete key (ui_entries u)) u)
      else fail Corruption "old unique mapping differs from delta"
  | None => Ok u
  end.

Definition unique_delta (s : Structured) (changes : Feed DocumentDelta) : SourceResult (gmap string UniqueIndex) :=
  if bool_decide (st_unique s = ∅) then Ok (st_unique s)
  else
    m ← visit_changes changes (λ delta m,
          match dl_old delta with Some old => map_try (unique_remove (dl_id delta) old) m | None => Ok m end)
          (st_unique s);
    visit_changes changes (λ delta m,
      match dl_new delta with Some new => map_try (unique_insert (dl_id delta) new) m | None => Ok m end) m.

(** [Structured::update]. *)
Definition remove_key (id : string) (entries : gmap Scalar (gset string)) (key : Scalar) : gmap Scalar (gset string) :=
  match entries !! key with
  | Some ids =>
      let ids := ids ∖ {[id]} in
      if bool_decide (ids = ∅) then delete key entries else <[key := ids]> entries
  | None => entries
  end.

Definition drop_record (id : string) (r : SourceRecord) (path : string) (i : FieldIndex) : Result FieldIndex :=
  keys ← indexed_values (record_value r path) (fi_kind i);
  Ok {| fi_kind := fi_kind i; fi_entries := foldl (remove_key id) (fi_entries i) keys;
        fi_present := fi_present i ∖ {[id]} |}.

Definition update_field (delta : DocumentDelta) (path : string) (i : FieldIndex) : Result FieldIndex :=
  match dl_old delta, dl_new delta with
  | Some old, Some new =>
      if bool_decide (record_value old path = record_value new path) then Ok i
      else i ← drop_record (dl_id delta) old path i; add_record (dl_id delta) new path i
  | Some old, None => drop_record (dl_id delta) old path i
  | None, Some new => add_record (dl_id delta) new path i
  | None, None => Ok i
  end.

Definition update_row (delta : DocumentDelta) (s : Structured) : Result Structured :=
  match dl_old delta, dl_new delta with
  | None, None => Ok s
  | old, new =>
      let ids := match old, new with
                 | _, None => st_ids s ∖ {[dl_id delta]}
                 | None, Some _ => {[dl_id delta]} ∪ st_ids s
                 | Some _, Some _ => st_ids s
                 end in
      fields ← map_try (update_field delta) (st_fields s);
      Ok {| st_fields := fields; st_ids := ids; st_unique := st_unique s |}
  end.

Definition update_structured (s : Structured) (changes : Feed DocumentDelta) : SourceResult Structured :=
  uniques ← unique_delta s changes;
  visit_changes changes update_row {| st_fields := st_fields s; st_ids := st_ids s; st_unique := uniques |}.

(** [Structured::validate_unique_changes]. *)
Definition validate_unique_changes (s : Structured) (changes : Feed DocumentDelta) : SourceResult unit :=
  unique_delta s changes;;
  Ok tt.

(** ** Specification *)

(** What the indexes of a collection hold: the declared paths and unique
    indexes, over the records of the collection. *)
Definition declared (d : CollectionDefinition) : gmap string ScalarType := fi_kind <$> empty_fields d.
Definition declared_unique (d : CollectionDefinition) : gmap string (list IndexField) := ui_fields <$> empty_unique d.

Record field_exact (R : gmap string SourceRecord) (path : string) (kind : ScalarType) (i : FieldIndex) : Prop := {
  fe_kind : fi_kind i = kind;
  fe_typed : ∀ id r, R !! id = Some r → ∃ keys, indexed_values (record_value r path) kind = Ok keys;
  fe_entries : ∀ key id, id ∈ default ∅ (fi_entries i !! key) ↔
    ∃ r, R !! id = Some r ∧ ∃ keys, indexed_values (record_value r path) kind = Ok keys ∧ key ∈ keys;
  fe_nonempty : ∀ key, fi_entries i !! key ≠ Some ∅;
  fe_present : ∀ id, id ∈ fi_present i ↔ ∃ r, R !! id = Some r ∧ is_Some (record_value r path);
}.

Record unique_exact (R : gmap string SourceRecord) (fields : list IndexField) (u : UniqueIndex) : Prop := {
  ue_fields : ui_fields u = fields;
  ue_typed : ∀ id r, R !! id = Some r → ∃ key, unique_key fields r = Ok key;
  ue_entries : ∀ key id, ui_entries u !! key = Some id ↔
    ∃ r, R !! id = Some r ∧ unique_key fields r = Ok (Some key);
}.

Definition fields_exact (d : CollectionDefinition) (R : gmap string SourceRecord) (m : gmap string FieldIndex) : Prop :=
  map_Forall2 (field_exact R) (declared d) m.

Definition uniques_exact (d : CollectionDefinition) (R : gmap string SourceRecord) (m : gmap string UniqueIndex) : Prop :=
  map_Forall2 (λ _, unique_exact R) (declared_unique d) m.

Record exact (d : CollectionDefinition) (R : gmap string SourceRecord) (s : Structured) : Prop := {
  ex_ids : st_ids s = dom R;
  ex_fields : fields_exact d R (st_fields s);
  ex_unique : uniques_exact d R (st_unique s);
}.

(** The records a definition admits: every indexed value has its declared type,
    and no two records have the same complete key of a unique index. *)
Definition field_typed (R : gmap string SourceRecord) (path : string) (kind : ScalarType) : Prop :=
  ∀ id r, R !! id = Some r → ∃ keys, indexed_values (record_value r path) kind = Ok keys.

Definition unique_distinct (R : gmap string SourceRecord) (fields : list IndexField) : Prop :=
  (∀ id r, R !! id = Some r → ∃ key, unique_key fields r = Ok key) ∧
  ∀ id id' r r' key, R !! id = Some r → R !! id' = Some r' →
    unique_key fields r = Ok (Some key) → unique_key fields r' = Ok (Some key) → id = id'.

Definition typed (d : CollectionDefinition) (R : gmap string SourceRecord) : Prop :=
  map_Forall (field_typed R) (declared d).

Definition distinct (d : CollectionDefinition) (R : gmap string SourceRecord) : Prop :=
  map_Forall (λ _, unique_distinct R) (declared_unique d).

Definition admissible (d : CollectionDefinition) (R : gmap string SourceRecord) : Prop := typed d R ∧ distinct d R.

(** Rows in the order a source must lend them. *)
Definition names_record (id : string) (r : SourceRecord) : Prop :=
  validate_name id = Ok tt ∧ check_source_record id r = Ok tt.

Definition names_delta (delta : DocumentDelta) : Prop :=
  validate_name (dl_id delta) = Ok tt ∧
  (∀ r, dl_old delta = Some r ∨ dl_new delta = Some r → check_source_record (dl_id delta) r = Ok tt).

Definition in_order (ids : list string) : Prop := StronglySorted (strict String.le) ids.

Definition apply_delta (R : gmap string SourceRecord) (delta : DocumentDelta) : gmap string SourceRecord :=
  match dl_new delta with Some r => <[dl_id delta := r]> R | None => delete (dl_id delta) R end.
End indexes.

(** ** Maps *)

Lemma try_fold_values {V} (f : string → V → Result V) (l : list (string * V)) (acc m : gmap string V) :
  NoDup l.*1 →
  try_fold (λ acc kv, v ← f kv.1 kv.2; Ok (<[kv.1 := v]> acc)) acc l = Ok m ↔
  (∀ k v, (k, v) ∈ l → ∃ v', f k v = Ok v' ∧ m !! k = Some v') ∧ ∀ k, k ∉ l.*1 → m !! k = acc !! k.
Proof.
  revert acc. induction l as [|[k v] l IH]; intros acc Hl.
  - rewrite try_fold_nil. split; [|intros [_ Hm]; f_equal; symmetry; apply map_eq; intros k; apply Hm; set_solver].
    intros [= ->]. split; [set_solver|done].
  - cbn [fmap list_fmap fst] in Hl. apply NoDup_cons in Hl as [Hk Hl].
    rewrite try_fold_cons. cbn [fst snd]. rewrite bind_Ok. split.
    + intros (acc' & (v' & Hv & [= <-])%bind_Ok & Hm). apply IH in Hm as [H1 H2]; [|done]. split.
      * intros k1 v1 [[= -> ->]|Hin]%elem_of_cons; [|by apply H1]. exists v'. split; [done|].
        rewrite H2 by done. apply lookup_insert_eq.
      * intros k1 Hk1. cbn [fmap list_fmap fst] in Hk1. rewrite H2 by set_solver. apply lookup_insert_ne. set_solver.
    + intros [H1 H2]. destruct (H1 k v) as (v' & Hv & Hm); [set_solver|]. exists (<[k := v']> acc).
      split; [by rewrite Hv|]. apply IH; [done|]. split; [set_solver|]. intros k1 Hk1. destruct (decide (k1 = k)) as [->|].
      * by rewrite lookup_insert_eq.
      * rewrite lookup_insert_ne by done. apply H2. cbn [fmap list_fmap fst]. set_solver.
Qed.

Lemma map_try_Ok {V} (f : string → V → Result V) m m' :
  map_try f m = Ok m' ↔ map_Forall2 (λ k v v', f k v = Ok v') m m'.
Proof.
  unfold map_try. rewrite try_fold_values by apply map_iter_NoDup. split.
  - intros [H1 H2] k. destruct (m !! k) as [v|] eqn:Hk.
    + apply elem_of_map_iter in Hk. destruct (H1 _ _ Hk) as (v' & ? & ->). by constructor.
    + rewrite H2, Hk; [constructor|]. intros ([k1 v] & -> & Hin)%list_elem_of_fmap. apply elem_of_map_iter in Hin.
      cbn in Hk. congruence.
  - intros Hm. split.
    + intros k v Hin%elem_of_map_iter. specialize (Hm k). rewrite Hin in Hm. inversion Hm; subst. eauto.
    + intros k Hk. specialize (Hm k). destruct (m !! k) as [v|] eqn:Hv; [|by inversion Hm].
      destruct Hk. apply list_elem_of_fmap. exists (k, v). split; [done|]. by apply elem_of_map_iter.
Qed.

(** A loop whose body keeps a relation to the configuration keeps it on the map. *)
Lemma map_try_spec {C V} (P Q : string → C → V → Prop) f (c : gmap string C) m m' :
  (∀ k x v v', c !! k = Some x → P k x v → f k v = Ok v' ↔ Q k x v') → map_Forall2 P c m →
  map_try f m = Ok m' ↔ map_Forall2 Q c m'.
Proof.
  intros Hf Hm. rewrite map_try_Ok. apply forall_proper. intros k. specialize (Hm k). specialize (Hf k).
  inversion Hm as [x v Hp Hc Hv|Hc Hv].
  - rewrite <-Hc in Hf. split; intros Hq; inversion Hq; subst; constructor; by apply (Hf x v).
  - split; intros Hq; inversion Hq; constructor.
Qed.

(** A computation that establishes a relation with at most one solution, and
    fails only when there is none. *)
Lemma run_iff {E A} (r : result E A) (Q : A → Prop) a :
  (∀ x, r = Ok x → Q x) → (Q a → ∃ x, r = Ok x) → (∀ x y, Q x → Q y → x = y) → r = Ok a ↔ Q a.
Proof. intros H1 H2 H3. split; [apply H1|]. intros Ha. destruct (H2 Ha) as [x Hx]. rewrite Hx. f_equal. auto. Qed.

Lemma map_Forall2_functional {C V} (P : string → C → V → Prop) (c : gmap string C) m m' :
  (∀ k x v v', P k x v → P k x v' → v = v') → map_Forall2 P c m → map_Forall2 P c m' → m = m'.
Proof.
  intros HP Hm Hm'. apply map_eq. intros k. specialize (Hm k). specialize (Hm' k).
  inversion Hm as [x v Hv Hc Hk|Hc Hk]; rewrite <-Hc in Hm'; inversion Hm'; f_equal; eauto.
Qed.

Lemma exists_insert (R : gmap string SourceRecord) id r id' (Q : SourceRecord → Prop) :
  R !! id = None →
  (∃ r', <[id := r]> R !! id' = Some r' ∧ Q r') ↔ (id' = id ∧ Q r) ∨ ∃ r', R !! id' = Some r' ∧ Q r'.
Proof.
  intros Hid. destruct (decide (id' = id)) as [->|].
  - rewrite lookup_insert_eq, Hid. naive_solver.
  - rewrite lookup_insert_ne by done. naive_solver.
Qed.

Lemma exists_delete (R : gmap string SourceRecord) id id' (Q : SourceRecord → Prop) :
  (∃ r', delete id R !! id' = Some r' ∧ Q r') ↔ id' ≠ id ∧ ∃ r', R !! id' = Some r' ∧ Q r'.
Proof. setoid_rewrite lookup_delete_Some. naive_solver. Qed.

(** ** One field index *)

Section facts.
Context `{Decimals}.

(** The postings of a key. *)
Abbreviation postings entries key := (default (∅ : gset string) (entries !! (key : Scalar))).

Lemma insert_keys id keys entries key id' :
  id' ∈ postings (foldl (insert_key id) entries keys) key ↔ (key ∈ keys ∧ id' = id) ∨ id' ∈ postings entries key.
Proof.
  revert entries. induction keys as [|k keys IH]; intros entries; cbn [foldl]; [set_solver|].
  rewrite IH. unfold insert_key. destruct (decide (k = key)) as [->|].
  - rewrite lookup_insert_eq. set_solver.
  - rewrite lookup_insert_ne by done. set_solver.
Qed.

Lemma insert_keys_nonempty id keys entries :
  (∀ key, entries !! key ≠ Some ∅) → ∀ key, foldl (insert_key id) entries keys !! key ≠ Some ∅.
Proof.
  revert entries. induction keys as [|k keys IH]; intros entries He; cbn [foldl]; [done|]. apply IH.
  intros key. unfold insert_key. destruct (decide (k = key)) as [->|].
  - rewrite lookup_insert_eq. intros [= Hk]. set_solver.
  - by rewrite lookup_insert_ne.
Qed.

Lemma remove_key_lookup id k entries key :
  (∀ key, entries !! key ≠ Some ∅) →
  (∀ id', id' ∈ postings (remove_key id entries k) key ↔ id' ∈ postings entries key ∧ (key = k → id' ≠ id)) ∧
  remove_key id entries k !! key ≠ Some ∅.
Proof.
  intros He. unfold remove_key. destruct (entries !! k) as [ids|] eqn:Hk.
  - case_bool_decide as Hi; destruct (decide (k = key)) as [->|].
    + rewrite lookup_delete_eq, Hk. cbn. split; [|done]. set_solver.
    + rewrite lookup_delete_ne by done. split; [|done]. set_solver.
    + rewrite lookup_insert_eq, Hk. cbn. split; [|congruence]. set_solver.
    + rewrite lookup_insert_ne by done. split; [|done]. set_solver.
  - split; [|done]. intros id'. destruct (decide (key = k)) as [->|]; [rewrite Hk; cbn; set_solver|naive_solver].
Qed.

Lemma remove_keys id keys entries :
  (∀ key, entries !! key ≠ Some ∅) → ∀ key,
  (∀ id', id' ∈ postings (foldl (remove_key id) entries keys) key ↔
    id' ∈ postings entries key ∧ (key ∈ keys → id' ≠ id)) ∧
  foldl (remove_key id) entries keys !! key ≠ Some ∅.
Proof.
  revert entries. induction keys as [|k keys IH]; intros entries He key; cbn [foldl]; [set_solver|].
  destruct (IH (remove_key id entries k)) with (key := key) as [H1 H2].
  { intros key'. by apply remove_key_lookup. }
  split; [|done]. intros id'. rewrite H1. destruct (remove_key_lookup id k entries key He) as [-> _]. set_solver.
Qed.

Lemma field_exact_unique R path kind i i' :
  field_exact R path kind i → field_exact R path kind i' → i = i'.
Proof.
  destruct i as [k e p], i' as [k' e' p']. intros [Hk _ He Hn Hp] [Hk' _ He' Hn' Hp']. cbn in *. f_equal; [congruence| |].
  - apply map_eq. intros key. specialize (Hn key). specialize (Hn' key).
    assert (Hm : postings e key = postings e' key) by (apply set_eq; intros id; by rewrite He, He').
    destruct (e !! key), (e' !! key); cbn in Hm; naive_solver.
  - apply set_eq. intros id. by rewrite Hp, Hp'.
Qed.

Lemma field_exact_empty path kind :
  field_exact ∅ path kind {| fi_kind := kind; fi_entries := ∅; fi_present := ∅ |}.
Proof. split; cbn; [done|..]; intros *; rewrite ?lookup_empty; cbn; set_solver. Qed.

Lemma add_record_exact R path kind i id r i' :
  field_exact R path kind i → R !! id = None →
  add_record id r path i = Ok i' ↔ field_exact (<[id := r]> R) path kind i'.
Proof.
  intros [<- Ht He Hn Hp] Hid. apply run_iff; [|intros [_ Ht' _ _ _]|apply field_exact_unique].
  - intros x (keys & Hk & [= <-])%bind_Ok. split; cbn; [done|..].
    + intros id' r' [[-> ->]|[_ Hr]]%lookup_insert_Some; eauto.
    + intros key id'. rewrite insert_keys, He, exists_insert, Hk by done. naive_solver.
    + by apply insert_keys_nonempty.
    + intros id'. rewrite exists_insert by done. rewrite <-Hp. destruct (record_value r path) as [v|] eqn:Hv; [set_solver|].
      split; [auto|]. intros [[_ [? [=]]]|]; done.
  - destruct (Ht' id r) as [keys Hk]; [apply lookup_insert_eq|]. unfold add_record. rewrite Hk. eauto.
Qed.

Lemma drop_record_exact R path kind i id r i' :
  field_exact R path kind i → R !! id = Some r →
  drop_record id r path i = Ok i' ↔ field_exact (delete id R) path kind i'.
Proof.
  intros [<- Ht He Hn Hp] Hid. destruct (Ht id r Hid) as [keys Hk]. unfold drop_record. rewrite Hk, bind_Ok_l.
  apply run_iff; [|by eauto|apply field_exact_unique]. intros x [= <-]. split; cbn; [done|..].
  - intros id' r' [_ Hr]%lookup_delete_Some. eauto.
  - intros key id'. destruct (remove_keys id keys (fi_entries i) Hn key) as [-> _]. rewrite exists_delete, <-He.
    split; [|naive_solver]. intros [Hin Hkey]. split; [|done]. intros ->. apply Hkey; [|done].
    apply He in Hin as (r' & Hr & keys' & Hk' & ?). congruence.
  - intros key. by apply remove_keys.
  - intros id'. rewrite elem_of_difference, elem_of_singleton, exists_delete, Hp. naive_solver.
Qed.

Lemma field_exact_same R path kind i id r r' :
  R !! id = Some r → record_value r path = record_value r' path →
  field_exact R path kind i → field_exact (<[id := r']> R) path kind i.
Proof.
  intros Hid Hv [Hk Ht He Hn Hp].
  assert (Hx : ∀ id' (Q : option value → Prop),
    (∃ r1, <[id := r']> R !! id' = Some r1 ∧ Q (record_value r1 path)) ↔ ∃ r1, R !! id' = Some r1 ∧ Q (record_value r1 path)).
  { intros id' Q. destruct (decide (id' = id)) as [->|]; [|by rewrite lookup_insert_ne].
    rewrite lookup_insert_eq, Hid. split; intros (? & [= <-] & HQ); eexists; (split; [done|]); congruence. }
  split; [done| | |done|].
  - intros id1 r1 [[-> ->]|[_ Hr]]%lookup_insert_Some; [|by eauto]. rewrite <-Hv. eauto.
  - intros key id'. rewrite He. symmetry. apply (Hx id' (λ v, ∃ keys, indexed_values v kind = Ok keys ∧ key ∈ keys)).
  - intros id'. rewrite Hp. symmetry. apply (Hx id' is_Some).
Qed.

Lemma update_field_exact R path kind i delta i' :
  field_exact R path kind i → R !! dl_id delta = dl_old delta →
  update_field delta path i = Ok i' ↔ field_exact (apply_delta R delta) path kind i'.
Proof.
  intros Hi Hold. unfold update_field, apply_delta. destruct delta as [id [old|] [new|]]; cbn in *.
  - case_bool_decide as Hv.
    + pose proof (field_exact_same R path kind i id old new Hold Hv Hi) as Hi'.
      split; [by intros [= <-]|]. intros Hx. f_equal. by apply (field_exact_unique _ _ _ _ _ Hi' Hx).
    + rewrite bind_Ok, <-(insert_delete_eq R id new). setoid_rewrite (drop_record_exact R path kind i id old); [|done..].
      split.
      * intros (i1 & H1 & H2). by apply (add_record_exact _ path kind i1 id new i' H1 (lookup_delete_eq R id)).
      * intros Hx. destruct (drop_record id old path i) as [i1|e] eqn:Hd.
        -- apply (drop_record_exact R path kind i id old) in Hd; [|done..]. exists i1. split; [done|].
           by apply (add_record_exact _ path kind i1 id new i' Hd (lookup_delete_eq R id)).
        -- destruct Hi as [<- Ht _ _ _]. destruct (Ht id old Hold) as [keys Hk]. unfold drop_record in Hd. by rewrite Hk in Hd.
  - by apply drop_record_exact.
  - by apply add_record_exact.
  - rewrite delete_id by done. split; [by intros [= <-]|]. intros Hx. f_equal. by apply (field_exact_unique _ _ _ _ _ Hi Hx).
Qed.

(** ** One unique index *)

Lemma unique_exact_unique R fields u u' : unique_exact R fields u → unique_exact R fields u' → u = u'.
Proof.
  destruct u as [f e], u' as [f' e']. intros [Hf _ He] [Hf' _ He']. cbn in *. f_equal; [congruence|].
  apply map_eq. intros key. apply option_eq. intros id. by rewrite He, He'.
Qed.

Lemma unique_exact_empty fields : unique_exact ∅ fields {| ui_fields := fields; ui_entries := ∅ |}.
Proof. split; cbn; [done|..]; intros *; rewrite !lookup_empty; [done|]. naive_solver. Qed.

Lemma unique_insert_exact R fields u id r name u' :
  unique_exact R fields u → R !! id = None →
  unique_insert id r name u = Ok u' ↔ unique_exact (<[id := r]> R) fields u'.
Proof.
  intros [<- Ht He] Hid. apply run_iff; [|intros [_ Ht' He']|apply unique_exact_unique].
  - intros x (key & Hk & Hx)%bind_Ok.
    assert (Htyped : ∀ id' r', <[id := r]> R !! id' = Some r' → ∃ key, unique_key (ui_fields u) r' = Ok key).
    { intros id' r' [[-> ->]|[_ Hr]]%lookup_insert_Some; eauto. }
    destruct key as [key|]; [destruct (ui_entries u !! key) as [owner|] eqn:Ho; [done|]|]; injection Hx as <-;
      (split; [done|done|]); intros key' id'; rewrite exists_insert, <-He, Hk by done.
    + cbn. rewrite lookup_insert_Some. destruct (decide (key = key')) as [->|]; [rewrite Ho|]; naive_solver.
    + naive_solver.
  - destruct (Ht' id r) as [key Hk]; [apply lookup_insert_eq|]. unfold unique_insert. rewrite Hk, bind_Ok_l.
    destruct key as [key|]; [|by eauto]. destruct (ui_entries u !! key) as [owner|] eqn:Ho; [|by eauto]. exfalso.
    assert (Hown : R !! owner ≠ None) by (apply He in Ho as (r' & Hr & _); congruence).
    assert (H1 : ui_entries u' !! key = Some id) by (apply He', exists_insert; auto).
    assert (H2 : ui_entries u' !! key = Some owner) by (apply He', exists_insert; [done|]; right; by apply He).
    congruence.
Qed.

Lemma unique_remove_exact R fields u id r name u' :
  unique_exact R fields u → R !! id = Some r →
  unique_remove id r name u = Ok u' ↔ unique_exact (delete id R) fields u'.
Proof.
  intros [<- Ht He] Hid. destruct (Ht id r Hid) as [key Hk]. unfold unique_remove. rewrite Hk, bind_Ok_l.
  assert (Htyped : ∀ id' r', delete id R !! id' = Some r' → ∃ key, unique_key (ui_fields u) r' = Ok key).
  { intros id' r' [_ Hr]%lookup_delete_Some; eauto. }
  destruct key as [key|]; [rewrite bool_decide_true by (apply He; eauto)|]; (apply run_iff; [|by eauto|apply unique_exact_unique]);
    intros x [= <-]; (split; [done|done|]); intros key' id'; rewrite exists_delete, <-He; cbn.
  - rewrite lookup_delete_Some. split; (intros [Hne Hl]; split; [intros ->|done]).
    + apply He in Hl as (r' & Hr & ?). congruence.
    + apply Hne. assert (Ho : ui_entries u !! key' = Some id) by (apply He; eauto). congruence.
  - split; [|naive_solver]. intros Hl. split; [intros ->|done]. apply He in Hl as (r' & Hr & ?). congruence.
Qed.
End facts.

(** ** Ordered visits *)

Section visits.
Context {A S : Type} (key : A → string) (valid : A → Prop) (row : string → A → Result string) (lend : A → S → Result S).
Hypothesis row_Ok : ∀ last x last', row last x = Ok last' ↔
  last' = key x ∧ valid x ∧ (last = "" ∨ strict String.le last (key x)).
Hypothesis key_named : ∀ x, valid x → key x ≠ "".

Lemma ordered_fold l last s s' :
  (∃ last', try_fold (λ '(last, s) x, last ← row last x; s ← lend x s; Ok (last, s)) (last, s) l = Ok (last', s')) ↔
  (last = "" ∨ Forall (strict String.le last) (key <$> l)) ∧ Forall valid l ∧ in_order (key <$> l) ∧
  try_fold (λ s x, lend x s) s l = Ok s'.
Proof.
  revert last s. induction l as [|x l IH]; intros last s.
  - cbn. split; [|naive_solver]. intros (? & [= <- <-]). split; [by right|]. split; [done|]. by split; [constructor|].
  - rewrite fmap_cons, !try_fold_cons, !Forall_cons. cbn [fst snd]. split.
    + intros (last' & (p & (l1 & (-> & Hv & Hl)%row_Ok & (s1 & Hs & [= <-])%bind_Ok)%bind_Ok & Hf)%bind_Ok).
      rewrite Hs, bind_Ok_l. destruct (IH (key x) s1) as [(Hx & HV & Ho & Hr) _]; [by exists last'|].
      destruct Hx as [Hx|Hx]; [by apply key_named in Hx|]. split; [|by repeat constructor].
      destruct Hl as [->|Hl]; [by left|]. right. split; [done|]. eapply Forall_impl; [done|]. intros y. cbn. by transitivity (key x).
    + intros (Hl & [Hv HV] & Ho & (s1 & Hs & Hr)%bind_Ok). apply StronglySorted_inv in Ho as [Ho Hx].
      destruct (IH (key x) s1) as [_ (last' & Hf)]; [by repeat split; auto|]. exists last'.
      assert (Hrow : row last x = Ok (key x)) by (apply row_Ok; naive_solver).
      by rewrite Hrow, bind_Ok_l, Hs, !bind_Ok_l.
Qed.
End visits.

Lemma order_row_Ok last id r last' :
  order_row last id r = Ok last' ↔
  last' = id ∧ (validate_name id = Ok tt ∧ ∀ x, r = Some x → check_source_record id x = Ok tt) ∧ (last = "" ∨ strict String.le last id).
Proof.
  unfold order_row. rewrite seq_Ok.
  assert (Hc : (match r with Some r => check_source_record id r | None => Ok tt end;; Ok id) = Ok last' ↔
    last' = id ∧ ∀ x, r = Some x → check_source_record id x = Ok tt).
  { rewrite seq_Ok. destruct r; naive_solver. }
  destruct (negb (bool_decide (last = "")) && bool_decide (String.le id last)) eqn:Hb.
  - apply andb_true_iff in Hb as [Hb%negb_true_iff%bool_decide_eq_false Hle%bool_decide_eq_true].
    split; [naive_solver|]. intros (_ & _ & [?|[_ ?]]); done.
  - rewrite Hc. apply andb_false_iff in Hb. assert (last = "" ∨ strict String.le last id); [|naive_solver].
    destruct Hb as [Hb%negb_false_iff%bool_decide_eq_true|Hb%bool_decide_eq_false]; [by left|right].
    split; [|done]. by destruct (total String.le last id).
Qed.

Lemma named_nonempty id : validate_name id = Ok tt → id ≠ "".
Proof. by intros Hv ->. Qed.

Lemma query_bind_end {A S} (feed : Feed A) (r : Result (string * S)) s :
  (p ← query r; feed_end feed p.2) = Ok s ↔ feed_failure feed = None ∧ ∃ last, r = Ok (last, s).
Proof.
  rewrite bind_Ok. unfold feed_end. setoid_rewrite query_Ok. split.
  - intros ([last s'] & -> & Hf). cbn in Hf. destruct (feed_failure feed); [done|]. injection Hf as ->. eauto.
  - intros (-> & last & ->). by exists (last, s).
Qed.

Lemma visit_records_Ok {S} feed (lend : string → SourceRecord → S → Result S) s s' :
  visit_records feed lend s = Ok s' ↔
  feed_failure feed = None ∧ Forall (λ row, names_record row.1 row.2) (feed_rows feed) ∧ in_order (feed_rows feed).*1 ∧
  try_fold (λ s row, lend row.1 row.2 s) s (feed_rows feed) = Ok s'.
Proof.
  unfold visit_records. rewrite query_bind_end. apply and_iff_compat_l.
  rewrite (ordered_fold fst (λ row, names_record row.1 row.2) (λ last row, order_row last row.1 (Some row.2))
    (λ row, lend row.1 row.2)).
  - naive_solver.
  - intros last row last'. rewrite order_row_Ok. unfold names_record. naive_solver.
  - intros row [Hv _]. by apply named_nonempty.
Qed.

Lemma visit_changes_Ok {S} feed (lend : DocumentDelta → S → Result S) s s' :
  visit_changes feed lend s = Ok s' ↔
  feed_failure feed = None ∧ Forall names_delta (feed_rows feed) ∧ in_order (dl_id <$> feed_rows feed) ∧
  try_fold (λ s delta, lend delta s) s (feed_rows feed) = Ok s'.
Proof.
  set (row := λ last delta, last ← order_row last (dl_id delta) (dl_old delta);
    match dl_new delta with Some r => check_source_record (dl_id delta) r | None => Ok tt end;; Ok last).
  assert (Hv : visit_changes feed lend s = (p ← query (try_fold (λ '(last, s) delta,
    last ← row last delta; s ← lend delta s; Ok (last, s)) ("", s) (feed_rows feed)); feed_end feed p.2)).
  { unfold visit_changes. f_equal. f_equal. generalize "". intros last. revert last s.
    induction (feed_rows feed) as [|delta l IH]; intros last s; [done|]. rewrite !try_fold_cons. unfold row.
    destruct (order_row last _ _) as [last'|]; cbn; [|done].
    destruct (match dl_new delta with Some r => _ | None => _ end); cbn; [|done]. destruct (lend delta s); cbn; [apply IH|done]. }
  rewrite Hv, query_bind_end. apply and_iff_compat_l. rewrite (ordered_fold dl_id names_delta row lend).
  - naive_solver.
  - intros last delta last'. unfold row, names_delta. rewrite bind_Ok. setoid_rewrite order_row_Ok. setoid_rewrite seq_Ok.
    destruct (dl_new delta); naive_solver.
  - intros delta [Hn _]. by apply named_nonempty.
Qed.

(** ** Folds over changes *)

Definition matches (R : gmap string SourceRecord) (l : list DocumentDelta) : Prop :=
  NoDup (dl_id <$> l) ∧ Forall (λ delta, R !! dl_id delta = dl_old delta) l.

Abbreviation apply_deltas := (foldl apply_delta).

Lemma apply_delta_eq R delta : apply_delta R delta !! dl_id delta = dl_new delta.
Proof. unfold apply_delta. destruct (dl_new delta); [apply lookup_insert_eq|apply lookup_delete_eq]. Qed.

Lemma apply_delta_ne R delta id : id ≠ dl_id delta → apply_delta R delta !! id = R !! id.
Proof. intros Hid. unfold apply_delta. destruct (dl_new delta); [by rewrite lookup_insert_ne|by rewrite lookup_delete_ne]. Qed.

Lemma apply_deltas_other l R id : id ∉ dl_id <$> l → apply_deltas R l !! id = R !! id.
Proof.
  revert R. induction l as [|delta l IH]; intros R Hid; [done|]. cbn [foldl fmap list_fmap] in *.
  rewrite IH by set_solver. apply apply_delta_ne. set_solver.
Qed.

Lemma apply_deltas_new l R delta : NoDup (dl_id <$> l) → delta ∈ l → apply_deltas R l !! dl_id delta = dl_new delta.
Proof.
  revert R. induction l as [|x l IH]; intros R Hn Hin; [by apply elem_of_nil in Hin|]. cbn [foldl fmap list_fmap] in *.
  apply NoDup_cons in Hn as [Hx Hn]. apply elem_of_cons in Hin as [->|Hin]; [|by apply IH].
  rewrite apply_deltas_other by done. apply apply_delta_eq.
Qed.

Lemma matches_cons R delta l :
  matches R (delta :: l) → R !! dl_id delta = dl_old delta ∧ matches (apply_delta R delta) l.
Proof.
  intros [Hn Hf]. cbn [fmap list_fmap] in Hn. apply NoDup_cons in Hn as [Hx Hn]. apply Forall_cons in Hf as [Hd Hf].
  split; [done|]. split; [done|]. rewrite Forall_forall in Hf |- *. intros y Hy. rewrite apply_delta_ne; [by apply Hf|].
  intros Heq. apply Hx. rewrite <-Heq. by apply list_elem_of_fmap_2.
Qed.

(** Records that are, identifier by identifier, those of one of two maps. *)
Definition between (R X R' : gmap string SourceRecord) : Prop := ∀ id, X !! id = R !! id ∨ X !! id = R' !! id.

Lemma between_step R delta l : NoDup (dl_id <$> delta :: l) → between R (apply_delta R delta) (apply_deltas R (delta :: l)).
Proof.
  intros Hn id. destruct (decide (id = dl_id delta)) as [->|]; [right|left; by apply apply_delta_ne].
  rewrite (apply_deltas_new (delta :: l) R delta Hn) by set_solver. apply apply_delta_eq.
Qed.

Section deltas.
Context {S : Type} (P : gmap string SourceRecord → S → Prop) (good : gmap string SourceRecord → Prop).
Context (form : DocumentDelta → Prop).
Context (rel : gmap string SourceRecord → gmap string SourceRecord → Prop) (step : DocumentDelta → S → Result S).
Hypothesis P_good : ∀ R s, P R s → good R.
Hypothesis good_P : ∀ R, good R → ∃ s, P R s.
Hypothesis P_unique : ∀ R s s', P R s → P R s' → s = s'.
Hypothesis rel_between : ∀ R X R', rel R R' → between R X R' → rel X R' ∧ (good R → good R' → good X).
Hypothesis step_P : ∀ R s delta s', form delta → P R s → R !! dl_id delta = dl_old delta →
  step delta s = Ok s' ↔ P (apply_delta R delta) s'.

Lemma fold_deltas l R s s' :
  Forall form l → P R s → matches R l → rel R (apply_deltas R l) →
  try_fold (λ s delta, step delta s) s l = Ok s' ↔ P (apply_deltas R l) s'.
Proof.
  revert R s. induction l as [|delta l IH]; intros R s Hf Hs Hm Hr.
  - rewrite try_fold_nil. cbn. split; [by intros [= <-]|]. intros Hs'. f_equal. by apply (P_unique R).
  - rewrite try_fold_cons, bind_Ok. pose proof (between_step R delta l (proj1 Hm)) as Hb.
    apply Forall_cons in Hf as [Hd Hf]. destruct (rel_between _ _ _ Hr Hb) as [Hr' Hg]. destruct (matches_cons _ _ _ Hm) as [Hold Hm'].
    setoid_rewrite (λ x, step_P R s delta x Hd Hs Hold). split.
    + intros (s1 & H1 & H2). by apply (IH (apply_delta R delta) s1).
    + intros Hl. destruct (good_P (apply_delta R delta)) as [s1 H1]; [by apply Hg; eauto|].
      exists s1. split; [done|]. by apply (IH (apply_delta R delta) s1).
Qed.
End deltas.

(** ** Admissible records are those that have indexes *)

Lemma map_Forall2_exists {C V} (P : string → C → V → Prop) (c : gmap string C) :
  map_Forall (λ k x, ∃ v, P k x v) c → ∃ m, map_Forall2 P c m.
Proof.
  induction c as [|k x c Hk IH] using map_ind; intros Hc; [exists ∅; apply map_Forall2_empty|].
  apply map_Forall_insert in Hc as [[v Hv] Hc]; [|done]. destruct (IH Hc) as [m Hm]. exists (<[k := v]> m).
  by apply map_Forall2_insert_2.
Qed.

Lemma map_Forall2_Forall {C V} (P : string → C → V → Prop) (Q : string → C → Prop) (c : gmap string C) m :
  (∀ k x v, P k x v → Q k x) → map_Forall2 P c m → map_Forall Q c.
Proof. intros HP Hm k x Hx. specialize (Hm k). rewrite Hx in Hm. inversion Hm; subst. eauto. Qed.

Section admissible.
Context `{Decimals} (d : CollectionDefinition).

Lemma field_typed_exact R path kind : field_typed R path kind → ∃ i, field_exact R path kind i.
Proof.
  induction R as [|id r R Hid IH] using map_ind; intros Ht; [by eexists; apply field_exact_empty|].
  destruct IH as [i Hi].
  { intros id' r' Hr. apply (Ht id' r'). rewrite lookup_insert_ne; [done|congruence]. }
  destruct (Ht id r) as [keys Hk]; [apply lookup_insert_eq|].
  assert (Hadd : ∃ i', add_record id r path i = Ok i').
  { unfold add_record. rewrite (fe_kind _ _ _ _ Hi), Hk. eauto. }
  destruct Hadd as [i' Ha]. exists i'. by apply (add_record_exact R path kind i id r).
Qed.

Lemma unique_distinct_mono R R' fields : R ⊆ R' → unique_distinct R' fields → unique_distinct R fields.
Proof.
  intros Hs [Ht Hd]. split; [intros id r Hr; eapply Ht, lookup_weaken; eauto|].
  intros id id' r r' key Hr Hr'. apply (Hd id id' r r' key); by eapply lookup_weaken.
Qed.

Lemma unique_distinct_exact R fields : unique_distinct R fields ↔ ∃ u, unique_exact R fields u.
Proof.
  split.
  - induction R as [|id r R Hid IH] using map_ind; intros Hd; [by eexists; apply unique_exact_empty|].
    destruct IH as [u Hu]; [by eapply unique_distinct_mono; [apply insert_subseteq|]|].
    destruct Hd as [Ht Hd]. destruct (Ht id r) as [key Hk]; [apply lookup_insert_eq|].
    assert (Hadd : ∃ u', unique_insert id r "" u = Ok u').
    { unfold unique_insert. rewrite (ue_fields _ _ _ Hu), Hk, bind_Ok_l. destruct key as [key|]; [|by eauto].
      destruct (ui_entries u !! key) as [owner|] eqn:Ho; [|by eauto]. apply (ue_entries _ _ _ Hu) in Ho as (r' & Hr & Hk').
      assert (owner ≠ id) as Hne by congruence. destruct Hne.
      apply (Hd owner id r' r key); rewrite ?lookup_insert_eq, ?lookup_insert_ne; congruence. }
    destruct Hadd as [u' Ha]. exists u'. by apply (unique_insert_exact R fields u id r "").
  - intros [u [Hf Ht He]]. split; [done|]. intros id id' r r' key Hr Hr' Hk Hk'.
    assert (ui_entries u !! key = Some id) by (apply He; eauto).
    assert (ui_entries u !! key = Some id') by (apply He; eauto). congruence.
Qed.

Lemma typed_exact R : typed d R ↔ ∃ m, fields_exact d R m.
Proof.
  split; [|intros [m Hm]; by eapply map_Forall2_Forall; [|done]; intros path kind i []].
  intros Ht. apply map_Forall2_exists. intros path kind Hk. by apply field_typed_exact, Ht.
Qed.

Lemma distinct_exact R : distinct d R ↔ ∃ m, uniques_exact d R m.
Proof.
  split; [|intros [m Hm]; eapply map_Forall2_Forall; [|done]; intros name fields u Hu; apply unique_distinct_exact; by exists u].
  intros Ht. apply map_Forall2_exists. intros name fields Hf. by apply unique_distinct_exact, (Ht name).
Qed.

Lemma admissible_exact R : admissible d R ↔ ∃ s, exact d R s.
Proof.
  unfold admissible. rewrite typed_exact, distinct_exact. split; [|intros [s []]; eauto].
  intros [[fields Hf] [uniques Hu]]. by exists {| st_fields := fields; st_ids := dom R; st_unique := uniques |}.
Qed.

Lemma fields_exact_unique R m m' : fields_exact d R m → fields_exact d R m' → m = m'.
Proof. apply map_Forall2_functional. intros path kind i i'. apply field_exact_unique. Qed.

Lemma uniques_exact_unique R m m' : uniques_exact d R m → uniques_exact d R m' → m = m'.
Proof. apply map_Forall2_functional. intros _ fields u u'. apply unique_exact_unique. Qed.

Lemma exact_unique R s s' : exact d R s → exact d R s' → s = s'.
Proof.
  destruct s as [f i u], s' as [f' i' u']. intros [Hi Hf Hu] [Hi' Hf' Hu']. cbn in *.
  f_equal; [by eapply fields_exact_unique|congruence|by eapply uniques_exact_unique].
Qed.

Lemma typed_between R X R' : between R X R' → typed d R → typed d R' → typed d X.
Proof. intros Hb Ht Ht' path kind Hk id r Hr. destruct (Hb id) as [He|He]; rewrite He in Hr; [eapply Ht|eapply Ht']; eauto. Qed.

Lemma typed_mono R R' : R ⊆ R' → typed d R' → typed d R.
Proof. intros Hs Ht path kind Hk id r Hr. eapply Ht; [done|]. by eapply lookup_weaken. Qed.

Lemma distinct_mono R R' : R ⊆ R' → distinct d R' → distinct d R.
Proof. intros Hs Hd name fields Hf. eapply unique_distinct_mono; [done|]. by apply (Hd name). Qed.
End admissible.

Lemma between_upper R X R' : between R X R' → R ⊆ R' → X ⊆ R'.
Proof. intros Hb Hs. apply map_subseteq_spec. intros id r Hr. destruct (Hb id) as [He|He]; [|congruence]. eapply lookup_weaken; [|done]. congruence. Qed.

Lemma between_lower R X R' : between R X R' → R' ⊆ R → X ⊆ R ∧ R' ⊆ X.
Proof.
  intros Hb Hs. split; apply map_subseteq_spec; intros id r Hr; destruct (Hb id) as [He|He]; try congruence.
  - eapply lookup_weaken; [|done]. congruence.
  - rewrite He. by eapply lookup_weaken.
Qed.

(** ** Construction *)

Section construction.
Context `{Decimals} (d : CollectionDefinition).

Lemma or_insert_fields_empty (fields : list IndexField) m :
  map_Forall (λ _ i, i = {| fi_kind := fi_kind i; fi_entries := ∅; fi_present := ∅ |}) m →
  map_Forall (λ _ i, i = {| fi_kind := fi_kind i; fi_entries := ∅; fi_present := ∅ |}) (foldl or_insert_field m fields).
Proof.
  revert m. induction fields as [|f fields IH]; intros m Hm; [done|]. cbn [foldl]. apply IH. unfold or_insert_field.
  destruct (m !! f_path f); [done|]. by apply map_Forall_insert_2.
Qed.

Lemma empty_fields_exact : fields_exact d ∅ (empty_fields d).
Proof.
  assert (He : map_Forall (λ _ i, i = {| fi_kind := fi_kind i; fi_entries := ∅; fi_present := ∅ |}) (empty_fields d)).
  { unfold empty_fields. assert (He : map_Forall (λ _ i, i = {| fi_kind := fi_kind i; fi_entries := ∅; fi_present := ∅ |})
      (∅ : gmap string FieldIndex)) by apply map_Forall_empty. revert He. generalize (∅ : gmap string FieldIndex).
    induction (cd_indexes d) as [|i l IH]; intros m Hm; [done|]. cbn [foldl]. by apply IH, or_insert_fields_empty. }
  intros path. unfold declared. rewrite lookup_fmap. destruct (empty_fields d !! path) as [i|] eqn:Hi; constructor.
  rewrite (He path i Hi). apply field_exact_empty.
Qed.

Lemma empty_unique_exact : uniques_exact d ∅ (empty_unique d).
Proof.
  assert (He : map_Forall (λ _ u, u = {| ui_fields := ui_fields u; ui_entries := ∅ |}) (empty_unique d)).
  { unfold empty_unique. assert (He : map_Forall (λ _ u, u = {| ui_fields := ui_fields u; ui_entries := ∅ |})
      (∅ : gmap string UniqueIndex)) by apply map_Forall_empty. revert He. generalize (∅ : gmap string UniqueIndex).
    induction (cd_indexes d) as [|i l IH]; intros m Hm; [done|]. cbn [foldl]. apply IH.
    destruct (unique i); [|done]. by apply map_Forall_insert_2. }
  intros name. unfold declared_unique. rewrite lookup_fmap. destruct (empty_unique d !! name) as [u|] eqn:Hu; constructor.
  rewrite (He name u Hu). apply unique_exact_empty.
Qed.

Lemma build_row_exact R id r s s' :
  exact d R s → R !! id = None → build_row id r s = Ok s' ↔ exact d (<[id := r]> R) s'.
Proof.
  intros [Hi Hf Hu] Hid. unfold build_row.
  assert (HF : ∀ m, map_try (add_record id r) (st_fields s) = Ok m ↔ fields_exact d (<[id := r]> R) m).
  { intros m. apply (map_try_spec (field_exact R)); [|done]. intros path kind i i' _ Hx. by apply add_record_exact. }
  assert (HU : ∀ m, map_try (unique_insert id r) (st_unique s) = Ok m ↔ uniques_exact d (<[id := r]> R) m).
  { intros m. apply (map_try_spec (λ _, unique_exact R)); [|done]. intros name fields u u' _ Hx. by apply unique_insert_exact. }
  rewrite bind_Ok. setoid_rewrite bind_Ok. setoid_rewrite HF. setoid_rewrite HU. split.
  - intros (m & Hm & m' & Hm' & [= <-]). split; cbn; [|done..]. rewrite dom_insert_L, Hi. done.
  - intros [Hi' Hf' Hu']. exists (st_fields s'). split; [done|]. exists (st_unique s'). split; [done|].
    destruct s'. cbn in *. f_equal. f_equal. rewrite Hi', dom_insert_L, Hi. done.
Qed.

Lemma insert_only l R :
  (∀ row, row ∈ l → R !! row.1 = None) → NoDup l.*1 →
  apply_deltas R ((λ row : string * SourceRecord, {| dl_id := row.1; dl_old := None; dl_new := Some row.2 |}) <$> l) =
  list_to_map l ∪ R.
Proof.
  revert R. induction l as [|[id r] l IH]; intros R Hr Hn; [cbn; by rewrite (left_id_L ∅ (∪))|].
  cbn [fmap list_fmap fst] in Hn. apply NoDup_cons in Hn as [Hid Hn]. cbn [fmap list_fmap foldl]. unfold apply_delta at 2. cbn [dl_new dl_id fst snd].
  fold (apply_deltas). etrans; [apply IH; [|done]|].
  - intros row Hin. rewrite lookup_insert_ne; [apply Hr; set_solver|]. intros ->. apply Hid. by apply list_elem_of_fmap_2.
  - cbn [list_to_map foldr]. rewrite <-insert_union_l, <-insert_union_r; [done|]. by apply not_elem_of_list_to_map.
Qed.

Lemma build_rows l s :
  NoDup l.*1 → try_fold (λ s row, build_row row.1 row.2 s) (empty_structured d) l = Ok s ↔ exact d (list_to_map l) s.
Proof.
  intros Hn.
  set (g := λ row : string * SourceRecord, {| dl_id := row.1; dl_old := None; dl_new := Some row.2 |}).
  set (step := λ delta s, match dl_new delta with Some r => build_row (dl_id delta) r s | None => Ok s end).
  assert (Hfold : try_fold (λ s row, build_row row.1 row.2 s) (empty_structured d) l =
    try_fold (λ s delta, step delta s) (empty_structured d) (g <$> l)) by (by rewrite try_fold_fmap).
  assert (Hg : apply_deltas ∅ (g <$> l) = list_to_map l).
  { unfold g. rewrite insert_only; [apply right_id_L, _|done..]. }
  rewrite Hfold, <-Hg. apply (fold_deltas (exact d) (admissible d) (λ delta, dl_old delta = None) (⊆)).
  - intros R x Hx. apply admissible_exact. eauto.
  - intros R. apply admissible_exact.
  - intros R. apply exact_unique.
  - intros R X R' Hs Hb. split; [by eapply between_upper|]. intros _ [Ht Hd]. pose proof (between_upper _ _ _ Hb Hs).
    split; [by eapply typed_mono|by eapply distinct_mono].
  - intros R x delta x' Hold Hx Hid. unfold step, apply_delta. rewrite Hold in Hid. destruct (dl_new delta) as [r|].
    + by apply build_row_exact.
    + rewrite delete_id by done. split; [by intros [= <-]|]. intros Hx'. f_equal. by apply (exact_unique d R).
  - apply Forall_fmap, Forall_true. done.
  - split; [done|apply empty_fields_exact|apply empty_unique_exact].
  - split; [|apply Forall_fmap, Forall_true; done]. rewrite <-list_fmap_compose. done.
  - apply map_empty_subseteq.
Qed.
End construction.

(** ** Updates *)

Section updates.
Context `{Decimals} (d : CollectionDefinition).

(** A batch in two passes: every old record leaves, then every new one enters. *)
Definition old_only (delta : DocumentDelta) : DocumentDelta := {| dl_id := dl_id delta; dl_old := dl_old delta; dl_new := None |}.
Definition new_only (delta : DocumentDelta) : DocumentDelta := {| dl_id := dl_id delta; dl_old := None; dl_new := dl_new delta |}.

Lemma only_ids (f : DocumentDelta → DocumentDelta) (l : list DocumentDelta) : (∀ x, dl_id (f x) = dl_id x) → dl_id <$> (f <$> l) = dl_id <$> l.
Proof. intros Hf. rewrite <-list_fmap_compose. apply list_fmap_ext; intros i x _; apply Hf. Qed.

Lemma old_only_lookup (l : list DocumentDelta) R id :
  NoDup (dl_id <$> l) → apply_deltas R (old_only <$> l) !! id = if bool_decide (id ∈ dl_id <$> l) then None else R !! id.
Proof.
  intros Hn. case_bool_decide as Hin; [|by apply apply_deltas_other; rewrite only_ids].
  apply list_elem_of_fmap in Hin as (delta & -> & Hin).
  rewrite (apply_deltas_new (old_only <$> l) R (old_only delta)); [done|by rewrite only_ids|by apply list_elem_of_fmap_2].
Qed.

Lemma two_passes (l : list DocumentDelta) R :
  NoDup (dl_id <$> l) → apply_deltas (apply_deltas R (old_only <$> l)) (new_only <$> l) = apply_deltas R l.
Proof.
  intros Hn. apply map_eq. intros id. destruct (decide (id ∈ dl_id <$> l)) as [Hin|Hin].
  - apply list_elem_of_fmap in Hin as (delta & -> & Hin). rewrite (apply_deltas_new l R delta) by done.
    apply (apply_deltas_new (new_only <$> l) _ (new_only delta)); [by rewrite only_ids|by apply list_elem_of_fmap_2].
  - rewrite (apply_deltas_other l) by done. rewrite apply_deltas_other by (by rewrite only_ids).
    by rewrite old_only_lookup, bool_decide_false by done.
Qed.

Lemma fold_removals l R m m' :
  uniques_exact d R m → matches R l →
  try_fold (λ m delta, match dl_old delta with Some old => map_try (unique_remove (dl_id delta) old) m | None => Ok m end) m l = Ok m' ↔
  uniques_exact d (apply_deltas R (old_only <$> l)) m'.
Proof.
  intros Hm [Hn Hl].
  set (step := λ delta m, match dl_old delta with Some old => map_try (unique_remove (dl_id delta) old) m | None => Ok m end).
  assert (Hfold : try_fold (λ m delta, step delta m) m l = try_fold (λ m delta, step delta m) m (old_only <$> l)).
  { by rewrite try_fold_fmap. }
  transitivity (try_fold (λ m delta, step delta m) m (old_only <$> l) = Ok m'); [by rewrite <-Hfold|].
  apply (fold_deltas (uniques_exact d) (distinct d) (λ delta, dl_new delta = None) (flip (⊆))).
  - intros X x Hx. apply distinct_exact. eauto.
  - intros X. apply distinct_exact.
  - intros X. apply uniques_exact_unique.
  - intros X Y X' Hs Hb. destruct (between_lower _ _ _ Hb Hs). split; [done|]. intros HX _. by eapply distinct_mono.
  - intros X x delta x' Hnew Hx Hid. unfold step, apply_delta. rewrite Hnew. destruct (dl_old delta) as [r|].
    + apply (map_try_spec (λ _, unique_exact X)); [|done]. intros name fields u u' _ Hu. by apply unique_remove_exact.
    + rewrite delete_id by done. split; [by intros [= <-]|]. intros Hx'. f_equal. by apply (uniques_exact_unique d X).
  - apply Forall_fmap, Forall_true. done.
  - done.
  - split; [by rewrite only_ids|]. by apply Forall_fmap.
  - apply map_subseteq_spec. intros id r. rewrite old_only_lookup by done. by case_bool_decide.
Qed.

Lemma fold_insertions l R m m' :
  uniques_exact d (apply_deltas R (old_only <$> l)) m → matches R l →
  try_fold (λ m delta, match dl_new delta with Some new => map_try (unique_insert (dl_id delta) new) m | None => Ok m end) m l = Ok m' ↔
  uniques_exact d (apply_deltas R l) m'.
Proof.
  intros Hm [Hn Hl].
  set (step := λ delta m, match dl_new delta with Some new => map_try (unique_insert (dl_id delta) new) m | None => Ok m end).
  assert (Hfold : try_fold (λ m delta, step delta m) m l = try_fold (λ m delta, step delta m) m (new_only <$> l)).
  { by rewrite try_fold_fmap. }
  rewrite <-two_passes by done. transitivity (try_fold (λ m delta, step delta m) m (new_only <$> l) = Ok m'); [by rewrite <-Hfold|].
  apply (fold_deltas (uniques_exact d) (distinct d) (λ delta, dl_old delta = None) (⊆)).
  - intros X x Hx. apply distinct_exact. eauto.
  - intros X. apply distinct_exact.
  - intros X. apply uniques_exact_unique.
  - intros X Y X' Hs Hb. pose proof (between_upper _ _ _ Hb Hs). split; [done|]. intros _ HX. by eapply distinct_mono.
  - intros X x delta x' Hold Hx Hid. unfold step, apply_delta. rewrite Hold in Hid. destruct (dl_new delta) as [r|].
    + apply (map_try_spec (λ _, unique_exact X)); [|done]. intros name fields u u' _ Hu. by apply unique_insert_exact.
    + rewrite delete_id by done. split; [by intros [= <-]|]. intros Hx'. f_equal. by apply (uniques_exact_unique d X).
  - apply Forall_fmap, Forall_true. done.
  - done.
  - split; [by rewrite only_ids|]. apply Forall_fmap, Forall_forall. intros delta Hin. cbn.
    rewrite old_only_lookup, bool_decide_true; [done|by apply list_elem_of_fmap_2|done].
  - rewrite two_passes by done. apply map_subseteq_spec. intros id r. rewrite old_only_lookup by done. case_bool_decide; [done|].
    by rewrite apply_deltas_other.
Qed.

(** [unique_delta] reads its changes twice; without unique indexes, not at all. *)
Definition changes_ok (feed : Feed DocumentDelta) : Prop :=
  feed_failure feed = None ∧ Forall names_delta (feed_rows feed) ∧ in_order (dl_id <$> feed_rows feed).

Lemma unique_delta_exact R s changes m :
  exact d R s → matches R (feed_rows changes) → changes_ok changes →
  unique_delta s changes = Ok m ↔ uniques_exact d (apply_deltas R (feed_rows changes)) m.
Proof.
  intros [_ _ Hu] Hm (Hf & Hn & Ho). unfold unique_delta. case_bool_decide as He.
  - rewrite He in Hu |- *. assert (Hdecl : declared_unique d = ∅) by (by eapply map_Forall2_empty_inv_r).
    unfold uniques_exact. rewrite Hdecl. split; [intros [= <-]; apply map_Forall2_empty|].
    intros Hx. f_equal. symmetry. by eapply map_Forall2_empty_inv_l.
  - rewrite bind_Ok. setoid_rewrite visit_changes_Ok. setoid_rewrite fold_removals; [|done..]. split.
    + intros (m1 & (_ & _ & _ & H1) & (_ & _ & _ & H2)). by apply (fold_insertions _ R m1).
    + intros Hx. assert (Hd : distinct d (apply_deltas R (old_only <$> feed_rows changes))).
      { eapply distinct_mono; [|apply distinct_exact; by exists (st_unique s)]. apply map_subseteq_spec. intros id r.
        rewrite old_only_lookup by apply Hm. by case_bool_decide. }
      apply distinct_exact in Hd as [m1 H1]. exists m1. split; [done|]. do 3 (split; [done|]).
      by apply (fold_insertions _ R m1).
Qed.

(** The structure without its unique indexes, which [update] replaces first. *)
Record partly_exact (uniques : gmap string UniqueIndex) (R : gmap string SourceRecord) (s : Structured) : Prop := {
  pe_ids : st_ids s = dom R;
  pe_fields : fields_exact d R (st_fields s);
  pe_unique : st_unique s = uniques;
}.

Lemma partly_exact_unique uniques R s s' : partly_exact uniques R s → partly_exact uniques R s' → s = s'.
Proof.
  destruct s as [f i u], s' as [f' i' u']. intros [Hi Hf Hu] [Hi' Hf' Hu']. cbn in *.
  f_equal; [by eapply fields_exact_unique|congruence..].
Qed.

Lemma dom_apply_delta R delta :
  R !! dl_id delta = dl_old delta →
  dom (apply_delta R delta) =
  match dl_old delta, dl_new delta with
  | _, None => dom R ∖ {[dl_id delta]}
  | None, Some _ => {[dl_id delta]} ∪ dom R
  | Some _, Some _ => dom R
  end.
Proof.
  unfold apply_delta. intros Hid. destruct (dl_new delta) as [r|].
  - rewrite dom_insert_L. destruct (dl_old delta) as [r'|]; [|done]. apply elem_of_dom_2 in Hid. set_solver.
  - rewrite dom_delete_L. by destruct (dl_old delta).
Qed.

Lemma update_row_exact uniques R delta s s' :
  partly_exact uniques R s → R !! dl_id delta = dl_old delta →
  update_row delta s = Ok s' ↔ partly_exact uniques (apply_delta R delta) s'.
Proof.
  intros [Hi Hf Hu] Hid. pose proof (dom_apply_delta R delta Hid) as Hdom.
  assert (HF : ∀ m, map_try (update_field delta) (st_fields s) = Ok m ↔ fields_exact d (apply_delta R delta) m).
  { intros m. apply (map_try_spec (field_exact R)); [|done]. intros path kind i i' _ Hx. by apply update_field_exact. }
  assert (Hstep : ∀ ids, dom (apply_delta R delta) = ids →
    (fields ← map_try (update_field delta) (st_fields s);
     Ok {| st_fields := fields; st_ids := ids; st_unique := st_unique s |}) = Ok s' ↔
    partly_exact uniques (apply_delta R delta) s').
  { intros ids <-. rewrite bind_Ok. setoid_rewrite HF. split; [intros (m & Hm & [= <-]); by split|].
    intros [Hi' Hf' Hu']. exists (st_fields s'). split; [done|]. destruct s'. cbn in *. congruence. }
  unfold update_row. destruct (dl_old delta) as [old|] eqn:Ho, (dl_new delta) as [new|] eqn:Hnew;
    try (apply Hstep; by rewrite Hdom, Hi).
  unfold apply_delta. rewrite Hnew, delete_id by congruence. split; [by intros [= <-]|]. intros Hx. f_equal.
  by apply (partly_exact_unique uniques R).
Qed.

Lemma update_exact R s changes s' :
  exact d R s → matches R (feed_rows changes) → changes_ok changes →
  update_structured s changes = Ok s' ↔ exact d (apply_deltas R (feed_rows changes)) s'.
Proof.
  intros Hs Hm Hc. unfold update_structured. rewrite bind_Ok.
  setoid_rewrite (λ m, unique_delta_exact R s changes m Hs Hm Hc). destruct Hs as [Hi Hf Hu]. destruct Hc as (Hfail & Hn & Ho).
  assert (HF : ∀ uniques, visit_changes changes update_row {| st_fields := st_fields s; st_ids := st_ids s; st_unique := uniques |} = Ok s' ↔
    partly_exact uniques (apply_deltas R (feed_rows changes)) s').
  { intros uniques. rewrite visit_changes_Ok. transitivity (try_fold (λ s delta, update_row delta s)
      {| st_fields := st_fields s; st_ids := st_ids s; st_unique := uniques |} (feed_rows changes) = Ok s'); [naive_solver|].
    apply (fold_deltas (partly_exact uniques) (typed d) (λ _, True) (λ _ _, True)); try done.
    - intros X x [_ Hx _]. apply typed_exact. eauto.
    - intros X Ht. apply typed_exact in Ht as [m Hx]. by exists {| st_fields := m; st_ids := dom X; st_unique := uniques |}.
    - intros X. apply partly_exact_unique.
    - intros X Y X' _ Hb. split; [done|]. by apply typed_between.
    - intros X x delta x' _. apply update_row_exact.
    - apply Forall_true. done. }
  setoid_rewrite HF. split; [intros (m & Hx & [? ? <-]); by split|]. intros [? ? ?]. by exists (st_unique s').
Qed.
End updates.

(** ** What the indexes promise *)

Section promises.
Context `{Decimals} (d : CollectionDefinition).

Definition records_feed (R : gmap string SourceRecord) : Feed (string * SourceRecord) :=
  {| feed_rows := map_iter R; feed_failure := None |}.

Lemma map_iter_in_order (R : gmap string SourceRecord) : in_order (map_iter R).*1.
Proof.
  unfold in_order. pose proof (map_iter_sorted R) as Hs. pose proof (map_iter_NoDup R) as Hn. revert Hs Hn.
  induction (map_iter R) as [|[id r] l IH]; intros Hs Hn; [constructor|]. cbn [fmap list_fmap fst] in *.
  apply StronglySorted_inv in Hs as [Hs Hl]. apply NoDup_cons in Hn as [Hid Hn]. constructor; [by apply IH|].
  apply Forall_forall. intros id' ([id1 r1] & -> & Hin)%list_elem_of_fmap. rewrite Forall_forall in Hl. specialize (Hl _ Hin).
  split; [done|]. intros Hle. apply Hid. apply list_elem_of_fmap. exists (id1, r1). split; [|done].
  apply (anti_symm String.le); done.
Qed.

Lemma build_records R s :
  build_structured d (records_feed R) = Ok s ↔ map_Forall names_record R ∧ exact d R s.
Proof.
  unfold build_structured. rewrite visit_records_Ok. cbn [feed_rows feed_failure records_feed].
  rewrite build_rows by apply map_iter_NoDup.
  assert (Hl : list_to_map (map_iter R) = R).
  { rewrite <-(list_to_map_to_list R) at 2. apply list_to_map_proper; [apply map_iter_NoDup|apply map_iter_perm]. }
  assert (HF : Forall (λ row, names_record row.1 row.2) (map_iter R) ↔ map_Forall names_record R).
  { rewrite Forall_forall. split; [intros Hx id r Hr%elem_of_map_iter; by apply (Hx (id, r))|].
    intros Hx [id r] Hr%elem_of_map_iter. by apply Hx. }
  rewrite Hl, HF. pose proof (map_iter_in_order R). naive_solver.
Qed.

Lemma in_order_NoDup l : in_order l → NoDup l.
Proof.
  induction 1 as [|x l _ IH Hx]; constructor; [|done]. intros Hin. rewrite Forall_forall in Hx. by destruct (Hx x Hin).
Qed.

Definition changes_feed (changes : list DocumentDelta) : Feed DocumentDelta :=
  {| feed_rows := changes; feed_failure := None |}.

Lemma names_applied R changes :
  map_Forall names_record R → Forall names_delta changes → map_Forall names_record (apply_deltas R changes).
Proof.
  revert R. induction changes as [|delta changes IH]; intros R HR Hf; [done|]. apply Forall_cons in Hf as [[Hn Hc] Hf].
  cbn [foldl]. apply IH; [|done]. unfold apply_delta. destruct (dl_new delta) as [r|]; [|by apply map_Forall_delete].
  apply map_Forall_insert_2; [|done]. split; auto.
Qed.

(** C6.  Changing the indexes is rebuilding them: when the indexes were built
    over the records of a collection and a batch lends each changed identifier
    once, in order, with its old and its new record, the update succeeds exactly
    when a build over the changed records does, and then both give the same
    indexes.  This covers batches that exchange the keys of a unique index. *)
Theorem update_equals_build R changes s s' :
  build_structured d (records_feed R) = Ok s →
  Forall (λ delta, R !! dl_id delta = dl_old delta) changes → Forall names_delta changes → in_order (dl_id <$> changes) →
  update_structured s (changes_feed changes) = Ok s' ↔
  build_structured d (records_feed (apply_deltas R changes)) = Ok s'.
Proof.
  intros [HR Hs]%build_records Hm Hn Ho.
  rewrite (update_exact d R s (changes_feed changes)), build_records; [|done|split; [by apply in_order_NoDup|done]|by split].
  cbn [feed_rows changes_feed]. pose proof (names_applied R changes HR Hn). naive_solver.
Qed.

(** C28.  The records a collection's indexes accept: a build succeeds exactly
    when every identifier is a name and that of its document, every indexed value
    has its declared type, and no two records have the same complete key of a
    unique index; a key with a missing field does not count. *)
Theorem build_succeeds_iff R :
  (∃ s, build_structured d (records_feed R) = Ok s) ↔ map_Forall names_record R ∧ admissible d R.
Proof. setoid_rewrite build_records. rewrite admissible_exact. naive_solver. Qed.
End promises.

(** ** A batch that exchanges two unique keys *)

Module IndexSample.
#[local] Existing Instance natural_decimals.

Definition people : CollectionDefinition := {|
  cd_name := "people"; write_mode := Mutable; retention_class := Operational; schema := VBool true;
  cd_indexes := [{| i_name := "mail"; i_fields := [{| f_path := "/m"; f_kind := SString |}]; unique := true; i_text := None |};
                 {| i_name := "age"; i_fields := [{| f_path := "/n"; f_kind := SNumber |}]; unique := false; i_text := None |}];
  cd_strict_read_audit := false |}.

Definition person (id mail : string) (age : string) : SourceRecord :=
  LiveRecord {| d_id := id; d_version := 1; body := VObject [("m", VString mail); ("n", VNumber age)] |}.

Abbreviation before := (<["a" := person "a" "x" "1"]> (<["b" := person "b" "y" "2"]> (∅ : gmap string SourceRecord))).

Definition exchange : list DocumentDelta :=
  [{| dl_id := "a"; dl_old := Some (person "a" "x" "1"); dl_new := Some (person "a" "y" "1") |};
   {| dl_id := "b"; dl_old := Some (person "b" "y" "2"); dl_new := Some (person "b" "x" "3") |}].

Lemma exchange_builds :
  is_ok (build_structured people (records_feed before)) = true ∧
  is_ok (build_structured people (records_feed (apply_deltas before exchange))) = true.
Proof. split; vm_compute; reflexivity. Qed.

Lemma exchange_ok :
  Forall (λ delta, before !! dl_id delta = dl_old delta) exchange ∧ Forall names_delta exchange ∧ in_order (dl_id <$> exchange).
Proof.
  split; [repeat constructor|]. split.
  - repeat constructor; cbn; intros r [[= <-]|[= <-]]; reflexivity.
  - repeat constructor; vm_compute; congruence.
Qed.

Lemma update_equals_build_witness : ∃ s s',
  build_structured people (records_feed before) = Ok s ∧
  update_structured s (changes_feed exchange) = Ok s' ∧
  build_structured people (records_feed (apply_deltas before exchange)) = Ok s'.
Proof.
  destruct exchange_ok as (Ho & Hn & Hi).
  destruct (is_ok_Ok _ (proj1 exchange_builds)) as [s Hs]. destruct (is_ok_Ok _ (proj2 exchange_builds)) as [s' Hs'].
  exact (ex_intro _ s (ex_intro _ s' (conj Hs (conj (proj2 (update_equals_build people before exchange s s' Hs Ho Hn Hi) Hs') Hs')))).
Defined.
End IndexSample.
