(* ===== verification/Filters.v ===== *)
(** * Filters

    Models the filter language of src/crates/kasumi-types/src/query.rs (its data
    and its typed builder) and the part of src/crates/kasumi-query/src/structured.rs
    that plans a filter, checks it against the declared indexes and evaluates it
    on one document.  The evaluation observes the cancellation token. *)

From S2P Require Import Prelude Json Types Digest State Scalars Cancellation.

(** ** The language *)

Record Condition := {
  c_eq : option value;
  c_ne : option value;
  c_gt : option value;
  c_gte : option value;
  c_lt : option value;
  c_lte : option value;
  c_in : option (list value);
  c_nin : option (list value);
  c_exists : option bool;
  c_contains : option value;
}.

#[export] Instance Condition_eq_dec : EqDecision Condition.
Proof. solve_decision. Defined.

Definition condition_default : Condition :=
  {| c_eq := None; c_ne := None; c_gt := None; c_gte := None; c_lt := None; c_lte := None; c_in := None;
     c_nin := None; c_exists := None; c_contains := None |}.

Definition condition_is_empty (c : Condition) : bool := bool_decide (c = condition_default).

Definition is_some {A} (o : option A) : bool := match o with Some _ => true | None => false end.

(** [Condition::disjoint]. *)
Definition either_none {A} (a b : option A) : bool := negb (is_some a) || negb (is_some b).
Definition has_lower (c : Condition) : bool := is_some (c_gt c) || is_some (c_gte c).
Definition has_upper (c : Condition) : bool := is_some (c_lt c) || is_some (c_lte c).

Definition disjoint (a b : Condition) : bool :=
  either_none (c_eq a) (c_eq b)
  && either_none (c_ne a) (c_ne b)
  && negb (has_lower a && has_lower b)
  && negb (has_upper a && has_upper b)
  && either_none (c_in a) (c_in b)
  && either_none (c_nin a) (c_nin b)
  && either_none (c_exists a) (c_exists b)
  && either_none (c_contains a) (c_contains b).

(** [Condition::merge]. *)
Definition take_slot {A} (slot new : option A) : option A := match new with Some _ => new | None => slot end.

Definition merge_condition (a b : Condition) : Condition :=
  {| c_eq := take_slot (c_eq a) (c_eq b); c_ne := take_slot (c_ne a) (c_ne b);
     c_gt := take_slot (c_gt a) (c_gt b); c_gte := take_slot (c_gte a) (c_gte b);
     c_lt := take_slot (c_lt a) (c_lt b); c_lte := take_slot (c_lte a) (c_lte b);
     c_in := take_slot (c_in a) (c_in b); c_nin := take_slot (c_nin a) (c_nin b);
     c_exists := take_slot (c_exists a) (c_exists b); c_contains := take_slot (c_contains a) (c_contains b) |}.

Inductive Filter := MkFilter {
  ff_fields : gmap string Condition;
  ff_and : list Filter;
  ff_or : list Filter;
  ff_not : option Filter;
}.

Definition filter_default : Filter := MkFilter ∅ [] [] None.

Definition is_all (f : Filter) : bool :=
  bool_decide (ff_fields f = ∅) && match ff_and f, ff_or f, ff_not f with [], [], None => true | _, _, _ => false end.

(** [Not::not] and [Filter::or]. *)
Definition filter_not (f : Filter) : Filter := MkFilter ∅ [] [] (Some f).

Definition filter_or (filters : list Filter) : Filter :=
  match filters with [] => filter_not filter_default | _ => MkFilter ∅ [] filters None end.

Definition only_field (path : string) (c : Condition) : Filter := MkFilter {[path := c]} [] [] None.

(** The body of the loop of [Filter::and] over the fields of the other filter. *)
Definition and_field (f : Filter) (field : string * Condition) : Filter :=
  match ff_fields f !! field.1 with
  | None => MkFilter (<[field.1 := field.2]> (ff_fields f)) (ff_and f) (ff_or f) (ff_not f)
  | Some existing =>
      if disjoint existing field.2 then
        MkFilter (<[field.1 := merge_condition existing field.2]> (ff_fields f)) (ff_and f) (ff_or f) (ff_not f)
      else MkFilter (ff_fields f) (ff_and f ++ [only_field field.1 field.2]) (ff_or f) (ff_not f)
  end.

(** [Filter::and]; its alternatives and its negation take the free places. *)
Definition and_alternatives (f : Filter) (alternatives : list Filter) : Filter :=
  match alternatives with
  | [] => f
  | _ =>
      match ff_or f with
      | [] => MkFilter (ff_fields f) (ff_and f) alternatives (ff_not f)
      | _ => MkFilter (ff_fields f) (ff_and f ++ [filter_or alternatives]) (ff_or f) (ff_not f)
      end
  end.

Definition and_negated (f : Filter) (negated : option Filter) : Filter :=
  match negated with
  | None => f
  | Some n =>
      match ff_not f with
      | None => MkFilter (ff_fields f) (ff_and f) (ff_or f) (Some n)
      | Some _ => MkFilter (ff_fields f) (ff_and f ++ [filter_not n]) (ff_or f) (ff_not f)
      end
  end.

Definition filter_and (f other : Filter) : Filter :=
  if is_all f then other
  else
    let f := foldl and_field f (map_iter (ff_fields other)) in
    let f := MkFilter (ff_fields f) (ff_and f ++ ff_and other) (ff_or f) (ff_not f) in
    and_negated (and_alternatives f (ff_or other)) (ff_not other).

(** [Filter::with]: [c] has the one slot that the caller names. *)
Definition filter_with (path : string) (c : Condition) (f : Filter) : Filter :=
  let existing := default condition_default (ff_fields f !! path) in
  if disjoint existing c then
    MkFilter (<[path := merge_condition existing c]> (ff_fields f)) (ff_and f) (ff_or f) (ff_not f)
  else
    MkFilter (<[path := existing]> (ff_fields f)) (ff_and f ++ [only_field path c]) (ff_or f) (ff_not f).

(** ** Plans *)

Inductive Bound (A : Type) := Included (a : A) | Excluded (a : A) | Unbounded.
Arguments Included {_}.
Arguments Excluded {_}.
Arguments Unbounded {_}.

Inductive FilterTest :=
| TEq (v : value)
| TIn (l : list value)
| TRange (lower upper : Bound value)
| TExists (b : bool)
| TContains (v : value).

Inductive FilterNode :=
| NAll
| NLeaf (path : string) (test : FilterTest)
| NAnd (l : list FilterNode)
| NOr (l : list FilterNode)
| NNot (n : FilterNode).

Definition max_filter_depth : N := 16.
Definition max_filter_nodes : N := 256.
Definition max_filter_in_values : N := 256.

(** [count]. *)
Definition count_node : ST N Error unit := λ nodes,
  let nodes := nodes + 1 in
  (nodes, if max_filter_nodes <? nodes then invalid "filter exceeds 256 conditions" else Ok tt).

Definition push_node (out : list FilterNode) (node : FilterNode) : ST N Error (list FilterNode) :=
  count_node;;
  mret (out ++ [node]).

(** The bound of a condition: strict, inclusive or none. *)
Definition condition_bound (strictly inclusively : option value) : Bound value :=
  match strictly, inclusively with
  | Some v, _ => Excluded v
  | None, Some v => Included v
  | None, None => Unbounded
  end.

(** [plan_condition]. *)
Definition push_values (path : string) (values : option (list value)) (negated : bool) (out : list FilterNode) :
    ST N Error (list FilterNode) :=
  match values with
  | None => mret out
  | Some values =>
      if max_filter_in_values <? len values then st_lift (invalid "in/nin are limited to 256 values")
      else let node := NLeaf path (TIn values) in push_node out (if negated then NNot node else node)
  end.

Definition plan_condition (path : string) (c : Condition) (out : list FilterNode) : ST N Error (list FilterNode) :=
  if condition_is_empty c then st_lift (invalid (path +:+ ": empty field condition"))
  else if is_some (c_gt c) && is_some (c_gte c) then st_lift (invalid (path +:+ ": use either gt or gte"))
  else if is_some (c_lt c) && is_some (c_lte c) then st_lift (invalid (path +:+ ": use either lt or lte"))
  else
    out ← match c_eq c with Some v => push_node out (NLeaf path (TEq v)) | None => mret out end;
    out ← match c_ne c with Some v => push_node out (NNot (NLeaf path (TEq v))) | None => mret out end;
    let lower := condition_bound (c_gt c) (c_gte c) in
    let upper := condition_bound (c_lt c) (c_lte c) in
    out ← match lower, upper with
          | Unbounded, Unbounded => mret out
          | _, _ => push_node out (NLeaf path (TRange lower upper))
          end;
    out ← push_values path (c_in c) false out;
    out ← push_values path (c_nin c) true out;
    out ← match c_exists c with Some b => push_node out (NLeaf path (TExists b)) | None => mret out end;
    match c_contains c with Some v => push_node out (NLeaf path (TContains v)) | None => mret out end.

Definition conjunction (children : list FilterNode) : FilterNode :=
  match children with [] => NAll | [n] => n | _ => NAnd children end.

(** [plan_filter] and [plan]. *)
Fixpoint plan_filter (depth : N) (f : Filter) {struct f} : ST N Error FilterNode :=
  match f with
  | MkFilter fields conjuncts alternatives negated =>
      if max_filter_depth <? depth then st_lift (invalid "filter exceeds 16 nesting levels")
      else
        children ← st_fold (λ out field, st_lift (validate_pointer field.1);; plan_condition field.1 field.2 out) []
                     (map_iter fields);
        children ← st_fold (λ out g, count_node;; n ← plan_filter (depth + 1) g; mret (out ++ [n])) children conjuncts;
        children ← match alternatives with
                   | [] => mret children
                   | _ =>
                       count_node;;
                       l ← st_fold (λ l g, n ← plan_filter (depth + 1) g; mret (l ++ [n])) [] alternatives;
                       mret (children ++ [NOr l])
                   end;
        children ← match negated with
                   | None => mret children
                   | Some g => count_node;; n ← plan_filter (depth + 1) g; mret (children ++ [NNot n])
                   end;
        mret (conjunction children)
  end.

Definition plan (f : Filter) : Result FilterNode := (plan_filter 0 f 0).2.

(** ** Bounds and checks *)

Section tests.
Context `{Decimals}.

(** [bound_value], [scalar_bound], [index_range] and [empty_range]. *)
Definition bound_value {A} (b : Bound A) : option A :=
  match b with Included v | Excluded v => Some v | Unbounded => None end.

Definition scalar_bound (b : Bound value) (kind : option ScalarType) : Result (Bound Scalar) :=
  match b with
  | Included v => Included <$> scalar (Some v) kind
  | Excluded v => Excluded <$> scalar (Some v) kind
  | Unbounded => Ok Unbounded
  end.

Definition index_range (lower upper : Bound value) (kind : option ScalarType) : Result (Bound Scalar * Bound Scalar) :=
  l ← scalar_bound lower kind;
  u ← scalar_bound upper kind;
  Ok (match l with Unbounded => Excluded KNull | _ => l end, u).

Definition scalar_leb (x y : Scalar) : bool := bool_decide (scalar_le x y).
Definition scalar_ltb (x y : Scalar) : bool := scalar_leb x y && negb (bool_decide (x = y)).

Definition empty_range (range : Bound Scalar * Bound Scalar) : bool :=
  match range with
  | (Included l, Included u) => scalar_ltb u l
  | (Included l, Excluded u) | (Excluded l, Included u) | (Excluded l, Excluded u) => scalar_leb u l
  | _ => false
  end.

(** [RangeBounds::contains]. *)
Definition above (lower : Bound Scalar) (x : Scalar) : bool :=
  match lower with Included l => scalar_leb l x | Excluded l => scalar_ltb l x | Unbounded => true end.
Definition below (upper : Bound Scalar) (x : Scalar) : bool :=
  match upper with Included u => scalar_leb x u | Excluded u => scalar_ltb x u | Unbounded => true end.
Definition range_contains (lower upper : Bound Scalar) (x : Scalar) : bool := above lower x && below upper x.

(** [validate_test]. *)
Definition same_discriminant (x y : Scalar) : bool := tag x =? tag y.

Definition validate_bound (path : string) (kind : option ScalarType) (first : option Scalar) (v : value) :
    Result (option Scalar) :=
  key ← scalar (Some v) kind;
  if bool_decide (key = KNull) then invalid "ordered comparison requires a non-null scalar"
  else match first with
       | Some x =>
           if negb (same_discriminant x key) then invalid (path +:+ ": range bounds must have one type")
           else Ok (Some key)
       | None => Ok (Some key)
       end.

Definition bound_values {A} (lower upper : Bound A) : list A :=
  option_list (bound_value lower) ++ option_list (bound_value upper).

Definition validate_test (path : string) (test : FilterTest) (kind : option ScalarType) : Result unit :=
  let array := match kind with Some k => is_array_kind k | None => false end in
  let array_error := invalid (path +:+ " is an array field; use contains to match its elements") in
  match test with
  | TExists _ => Ok tt
  | TContains v =>
      if is_some kind && negb array then invalid (path +:+ ": contains requires an array field")
      else if is_null v then invalid "array membership requires a non-null scalar"
      else scalar (Some v) kind;; Ok tt
  | TEq v => if array && negb (is_null v) then array_error else scalar (Some v) kind;; Ok tt
  | TIn values => if array then array_error else try_for_each (λ v, scalar (Some v) kind;; Ok tt) values
  | TRange lower upper =>
      if array then array_error else try_fold (validate_bound path kind) None (bound_values lower upper);; Ok tt
  end.

(** ** Prepared tests *)

Definition scanned_scalar (v : option value) (kind : option ScalarType) : option Scalar :=
  match scalar v kind with Ok x => Some x | Err _ => None end.

Inductive PreparedTest :=
| PEq (x : Scalar)
| PIn (s : gset Scalar)
| PRange (lower upper : Bound Scalar)
| PExists (b : bool)
| PContains (x : Scalar).

(** [PreparedTest::new]. *)
Definition prepare_test (test : FilterTest) (kind : option ScalarType) : Result PreparedTest :=
  match test with
  | TEq v => PEq <$> scalar (Some v) kind
  | TContains v => PContains <$> scalar (Some v) kind
  | TIn values => (λ l, PIn (list_to_set l)) <$> try_map (λ v, scalar (Some v) kind) values
  | TRange lower upper =>
      l ← scalar_bound lower kind;
      u ← scalar_bound upper kind;
      Ok (PRange l u)
  | TExists b => Ok (PExists b)
  end.

(** [PreparedTest::evaluate]. *)
Fixpoint contains_element (expected : Scalar) (kind : option ScalarType) (elements : list value) : ST Token Error bool :=
  match elements with
  | [] => mret false
  | e :: elements =>
      check_token;;
      if bool_decide (scanned_scalar (Some e) kind = Some expected) then mret true
      else contains_element expected kind elements
  end.

Definition bound_differs (b : Bound Scalar) (actual : Scalar) : bool :=
  match bound_value b with Some key => negb (same_discriminant key actual) | None => false end.

Definition evaluate_scalar (p : PreparedTest) (actual : Scalar) : bool :=
  match p with
  | PEq expected => bool_decide (actual = expected)
  | PIn expected => bool_decide (actual ∈ expected)
  | PRange lower upper =>
      if bool_decide (actual = KMissing) || bool_decide (actual = KNull) then false
      else if bound_differs lower actual || bound_differs upper actual then false
      else range_contains lower upper actual
  | PExists _ | PContains _ => false
  end.

Definition evaluate_test (p : PreparedTest) (actual : option value) (kind : option ScalarType) : ST Token Error bool :=
  check_token;;
  match p with
  | PExists b => mret (Bool.eqb (is_some actual) b)
  | PContains expected =>
      match actual with Some (VArray elements) => contains_element expected kind elements | _ => mret false end
  | _ =>
      match actual with
      | None => mret false
      | Some _ => match scanned_scalar actual kind with Some x => mret (evaluate_scalar p x) | None => mret false end
      end
  end.

(** ** Scans *)

Inductive Scan :=
| ScanAll
| ScanLeaf (path : string) (test : PreparedTest)
| ScanAnd (l : list Scan)
| ScanOr (l : list Scan)
| ScanNot (s : Scan).

(** [Scan::prepare]: the paths with an index are not scanned.  [prepare_list]
    is its loop over children, which stops at the first that is not scanned. *)
Definition prepare_list (prepare : FilterNode → Result (option Scan)) :
    list Scan → list FilterNode → Result (option (list Scan)) :=
  fix go prepared l :=
    match l with
    | [] => Ok (Some prepared)
    | n :: l =>
        s ← prepare n;
        match s with None => Ok None | Some s => go (prepared ++ [s]) l end
    end.

Fixpoint prepare_scan (indexed : string → bool) (n : FilterNode) : Result (option Scan) :=
  match n with
  | NAll => Ok (Some ScanAll)
  | NLeaf path test =>
      if negb (indexed path) then (λ p, Some (ScanLeaf path p)) <$> prepare_test test None else Ok None
  | NNot n => o ← prepare_scan indexed n; Ok (option_map ScanNot o)
  | NAnd l => o ← prepare_list (prepare_scan indexed) [] l; Ok (option_map ScanAnd o)
  | NOr l => o ← prepare_list (prepare_scan indexed) [] l; Ok (option_map ScanOr o)
  end.

Fixpoint has_leaf (s : Scan) : bool :=
  match s with
  | ScanAll => false
  | ScanLeaf _ _ => true
  | ScanNot s => has_leaf s
  | ScanAnd l | ScanOr l => existsb has_leaf l
  end.

(** [Scan::evaluate]; its loops stop at the first child that decides. *)
Definition evaluate_until (evaluate : Scan → ST Token Error bool) (stop : bool) : list Scan → ST Token Error bool :=
  fix go l :=
    match l with
    | [] => mret (negb stop)
    | s :: l => b ← evaluate s; if Bool.eqb b stop then mret stop else go l
    end.

Fixpoint evaluate_scan (document : value) (s : Scan) : ST Token Error bool :=
  check_token;;
  match s with
  | ScanAll => mret true
  | ScanLeaf path test => evaluate_test test (pointer document path) None
  | ScanNot s => b ← evaluate_scan document s; mret (negb b)
  | ScanAnd l => evaluate_until (evaluate_scan document) false l
  | ScanOr l => evaluate_until (evaluate_scan document) true l
  end.

(** ** What a filter means *)

(** The scalar of a present value. *)
Definition equals (kind : option ScalarType) (actual : option value) (v : value) : bool :=
  match actual with
  | None => false
  | Some a =>
      match scalar (Some a) kind, scalar (Some v) kind with Ok x, Ok y => bool_decide (x = y) | _, _ => false end
  end.

(** Ordered comparisons never match absent, null or differently typed values. *)
Definition ordered (rel : Scalar → Scalar → bool) (kind : option ScalarType) (actual : option value) (v : value) : bool :=
  match actual with
  | None => false
  | Some a =>
      match scalar (Some a) kind, scalar (Some v) kind with
      | Ok x, Ok y => negb (bool_decide (x = KNull)) && same_discriminant y x && rel x y
      | _, _ => false
      end
  end.

Definition contains_value (kind : option ScalarType) (actual : option value) (v : value) : bool :=
  match actual with Some (VArray l) => existsb (λ e, equals kind (Some e) v) l | _ => false end.

Definition when {A} (o : option A) (f : A → bool) : bool := match o with Some a => f a | None => true end.

Definition condition_holds (kind : option ScalarType) (actual : option value) (c : Condition) : bool :=
  when (c_eq c) (equals kind actual)
  && when (c_ne c) (λ v, negb (equals kind actual v))
  && when (c_gt c) (ordered (λ x y, scalar_ltb y x) kind actual)
  && when (c_gte c) (ordered (λ x y, scalar_leb y x) kind actual)
  && when (c_lt c) (ordered scalar_ltb kind actual)
  && when (c_lte c) (ordered scalar_leb kind actual)
  && when (c_in c) (existsb (equals kind actual))
  && when (c_nin c) (λ l, negb (existsb (equals kind actual) l))
  && when (c_exists c) (Bool.eqb (is_some actual))
  && when (c_contains c) (contains_value kind actual).

(** Every entry of a filter must hold; [kinds] are the declared types of the
    indexed fields and [fields] the values of a document. *)
Fixpoint filter_holds (kinds : string → option ScalarType) (fields : string → option value) (f : Filter) : bool :=
  match f with
  | MkFilter conditions conjuncts alternatives negated =>
      forallb (λ pc, condition_holds (kinds pc.1) (fields pc.1) pc.2) (map_iter conditions)
      && forallb (filter_holds kinds fields) conjuncts
      && match alternatives with [] => true | _ => existsb (filter_holds kinds fields) alternatives end
      && match negated with None => true | Some g => negb (filter_holds kinds fields g) end
  end.

(** What a plan means. *)
Definition bound_holds (rel strictly : Scalar → Scalar → bool) (kind : option ScalarType) (actual : option value)
    (b : Bound value) : bool :=
  match b with
  | Included v => ordered rel kind actual v
  | Excluded v => ordered strictly kind actual v
  | Unbounded => true
  end.

Definition orderable (kind : option ScalarType) (actual : option value) : bool :=
  match actual with
  | None => false
  | Some a => match scalar (Some a) kind with Ok x => negb (bool_decide (x = KNull)) | Err _ => false end
  end.

Definition test_holds (kind : option ScalarType) (actual : option value) (t : FilterTest) : bool :=
  match t with
  | TEq v => equals kind actual v
  | TIn l => existsb (equals kind actual) l
  | TRange lower upper =>
      orderable kind actual
      && bound_holds (λ x y, scalar_leb y x) (λ x y, scalar_ltb y x) kind actual lower
      && bound_holds scalar_leb scalar_ltb kind actual upper
  | TExists b => Bool.eqb (is_some actual) b
  | TContains v => contains_value kind actual v
  end.

Fixpoint node_holds (kinds : string → option ScalarType) (fields : string → option value) (n : FilterNode) : bool :=
  match n with
  | NAll => true
  | NLeaf path t => test_holds (kinds path) (fields path) t
  | NAnd l => forallb (node_holds kinds fields) l
  | NOr l => existsb (node_holds kinds fields) l
  | NNot n => negb (node_holds kinds fields n)
  end.
End tests.

(** ** Induction principles *)

Section Filter_induction.
Variable P : Filter → Prop.
Hypothesis HF : ∀ fields conjuncts alternatives negated,
  Forall P conjuncts → Forall P alternatives → (∀ g, negated = Some g → P g) →
  P (MkFilter fields conjuncts alternatives negated).

Fixpoint Filter_induction (f : Filter) : P f :=
  match f with
  | MkFilter fields conjuncts alternatives negated =>
      let all := fix all (l : list Filter) : Forall P l :=
        match l with [] => Forall_nil_2 P | g :: l => Forall_cons_2 P g l (Filter_induction g) (all l) end in
      HF fields conjuncts alternatives negated (all conjuncts) (all alternatives)
        (match negated with
         | Some n => λ g Hg, match Hg in _ = o return match o with Some x => P x | None => True end with
                             | eq_refl => Filter_induction n
                             end
         | None => λ g Hg, match Hg in _ = o return match o with Some x => P x | None => True end with eq_refl => I end
         end)
  end.
End Filter_induction.

Section Node_induction.
Variable P : FilterNode → Prop.
Hypothesis Hall : P NAll.
Hypothesis Hleaf : ∀ path test, P (NLeaf path test).
Hypothesis Hand : ∀ l, Forall P l → P (NAnd l).
Hypothesis Hor : ∀ l, Forall P l → P (NOr l).
Hypothesis Hnot : ∀ n, P n → P (NNot n).

Fixpoint Node_induction (n : FilterNode) : P n :=
  let all := fix all (l : list FilterNode) : Forall P l :=
    match l with [] => Forall_nil_2 P | n :: l => Forall_cons_2 P n l (Node_induction n) (all l) end in
  match n with
  | NAll => Hall
  | NLeaf path test => Hleaf path test
  | NAnd l => Hand l (all l)
  | NOr l => Hor l (all l)
  | NNot n => Hnot n (Node_induction n)
  end.
End Node_induction.

(** ** Plans keep the meaning of filters *)

Lemma push_node_Ok out n s s' out' :
  push_node out n s = (s', Ok out') → out' = out ++ [n] ∧ s' = s + 1 ∧ s' ≤ max_filter_nodes.
Proof.
  intros (s1 & [] & Hc & [= <- <-])%st_bind_Ok. revert Hc. unfold count_node.
  destruct (max_filter_nodes <? s + 1) eqn:Hb; [done|]. intros [= <-]. apply N.ltb_ge in Hb. done.
Qed.

Section meaning.
Context `{Decimals} (kinds : string → option ScalarType) (fields : string → option value).

Abbreviation all_hold := (forallb (node_holds kinds fields)).

(** What a step of planning appends, and what it counts: at least one node for
    each leaf. *)
Fixpoint leaves (n : FilterNode) : N :=
  match n with
  | NAll => 0
  | NLeaf _ _ => 1
  | NAnd l | NOr l => lsum leaves l
  | NNot n => leaves n
  end.

Definition appends (s : N) (out : list FilterNode) (s' : N) (out' : list FilterNode) (meaning : bool) : Prop :=
  all_hold out' = all_hold out && meaning ∧ lsum leaves out' + s ≤ lsum leaves out + s' ∧ s ≤ s' ∧
  (s ≤ max_filter_nodes → s' ≤ max_filter_nodes).

Lemma appends_refl s out : appends s out s out true.
Proof. unfold appends. rewrite andb_true_r. repeat split; lia. Qed.

Lemma appends_trans s1 o1 s2 o2 s3 o3 a b :
  appends s1 o1 s2 o2 a → appends s2 o2 s3 o3 b → appends s1 o1 s3 o3 (a && b).
Proof. intros (H1 & H2 & H3 & H4) (G1 & G2 & G3 & G4). unfold appends. rewrite G1, H1, andb_assoc. repeat split; auto; lia. Qed.

Lemma appends_push s out s' out' n :
  leaves n = 1 → push_node out n s = (s', Ok out') → appends s out s' out' (node_holds kinds fields n).
Proof.
  intros Hn (-> & -> & Hs)%push_node_Ok. unfold appends. rewrite forallb_app, lsum_app, lsum_cons, lsum_nil, Hn. cbn.
  rewrite andb_true_r. repeat split; lia.
Qed.

(** An optional operator of a condition. *)
Lemma appends_when {A} (o : option A) (node : A → FilterNode) (f : A → bool) s out s' out' :
  (∀ a, leaves (node a) = 1) → (∀ a, node_holds kinds fields (node a) = f a) →
  match o with Some a => push_node out (node a) | None => mret out end s = (s', Ok out') →
  appends s out s' out' (when o f).
Proof.
  intros Hn Hf. destruct o as [a|]; cbn [when]; [|intros [= <- <-]; apply appends_refl].
  intros Hp. rewrite <-Hf. by apply appends_push.
Qed.

Lemma appends_values path values (negated : bool) (f : list value → bool) s out s' out' :
  (∀ l, node_holds kinds fields (if negated then NNot (NLeaf path (TIn l)) else NLeaf path (TIn l)) = f l) →
  push_values path values negated out s = (s', Ok out') → appends s out s' out' (when values f).
Proof.
  unfold push_values. intros Hf. destruct values as [l|]; cbn [when]; [|intros [= <- <-]; apply appends_refl].
  destruct (max_filter_in_values <? len l); [done|]. intros Hp. rewrite <-Hf. apply appends_push; [by destruct negated|done].
Qed.

Lemma ordered_orderable rel kind actual v : orderable kind actual && ordered rel kind actual v = ordered rel kind actual v.
Proof.
  unfold orderable, ordered. destruct actual as [a|]; [|done]. destruct (scalar (Some a) kind) as [x|]; [|done].
  destruct (scalar (Some v) kind) as [y|]; [|apply andb_false_r]. by destruct (negb (bool_decide (x = KNull))).
Qed.

(** The bounds of a condition are one range. *)
Lemma range_meaning (path : string) (c : Condition) :
  is_some (c_gt c) && is_some (c_gte c) = false → is_some (c_lt c) && is_some (c_lte c) = false →
  let kind := kinds path in let actual := fields path in
  when (c_gt c) (ordered (λ x y, scalar_ltb y x) kind actual) && when (c_gte c) (ordered (λ x y, scalar_leb y x) kind actual)
  && (when (c_lt c) (ordered scalar_ltb kind actual) && when (c_lte c) (ordered scalar_leb kind actual)) =
  match condition_bound (c_gt c) (c_gte c), condition_bound (c_lt c) (c_lte c) with
  | Unbounded, Unbounded => true
  | l, u => node_holds kinds fields (NLeaf path (TRange l u))
  end.
Proof.
  intros Hl Hu kind actual. unfold condition_bound, when.
  destruct (c_gt c), (c_gte c); try discriminate Hl; destruct (c_lt c), (c_lte c); try discriminate Hu;
    cbn [node_holds test_holds bound_holds]; fold kind; fold actual;
    rewrite ?andb_true_r, ?andb_true_l, ?andb_assoc, ?ordered_orderable; done.
Qed.

Lemma plan_condition_appends (path : string) (c : Condition) s out s' out' :
  plan_condition path c out s = (s', Ok out') → appends s out s' out' (condition_holds (kinds path) (fields path) c).
Proof.
  unfold plan_condition. destruct (condition_is_empty c); [done|].
  destruct (is_some (c_gt c) && is_some (c_gte c)) eqn:Hl; [done|].
  destruct (is_some (c_lt c) && is_some (c_lte c)) eqn:Hu; [done|].
  intros (s1 & o1 & H1 & (s2 & o2 & H2 & (s3 & o3 & H3 & (s4 & o4 & H4 & (s5 & o5 & H5 &
    (s6 & o6 & H6 & H7)%st_bind_Ok)%st_bind_Ok)%st_bind_Ok)%st_bind_Ok)%st_bind_Ok)%st_bind_Ok.
  apply (appends_when _ _ (equals (kinds path) (fields path))) in H1; [|done..].
  apply (appends_when _ _ (λ v, negb (equals (kinds path) (fields path) v))) in H2; [|done..].
  apply (appends_values _ _ _ (existsb (equals (kinds path) (fields path)))) in H4; [|done].
  apply (appends_values _ _ _ (λ l, negb (existsb (equals (kinds path) (fields path)) l))) in H5; [|done].
  apply (appends_when _ _ (Bool.eqb (is_some (fields path)))) in H6; [|done..].
  apply (appends_when _ _ (contains_value (kinds path) (fields path))) in H7; [|done..].
  assert (H3' : appends s2 o2 s3 o3 (match condition_bound (c_gt c) (c_gte c), condition_bound (c_lt c) (c_lte c) with
    | Unbounded, Unbounded => true | l, u => node_holds kinds fields (NLeaf path (TRange l u)) end)).
  { destruct (condition_bound (c_gt c) (c_gte c)), (condition_bound (c_lt c) (c_lte c));
      try (by apply appends_push); injection H3 as <- <-; apply appends_refl. }
  rewrite <-range_meaning in H3' by done.
  pose proof (appends_trans _ _ _ _ _ _ _ _ H1 (appends_trans _ _ _ _ _ _ _ _ H2 (appends_trans _ _ _ _ _ _ _ _ H3'
    (appends_trans _ _ _ _ _ _ _ _ H4 (appends_trans _ _ _ _ _ _ _ _ H5 (appends_trans _ _ _ _ _ _ _ _ H6 H7)))))) as Hx.
  unfold condition_holds. rewrite !andb_assoc in Hx. exact Hx.
Qed.

Fixpoint filter_depth (f : Filter) : N :=
  match f with
  | MkFilter _ conjuncts alternatives negated =>
      N.max (foldr (λ g m, N.max (1 + filter_depth g) m) 0 conjuncts)
        (N.max (foldr (λ g m, N.max (1 + filter_depth g) m) 0 alternatives)
           match negated with Some g => 1 + filter_depth g | None => 0 end)
  end.

(** What planning a filter at a depth yields. *)
Definition planned (depth s : N) (f : Filter) (s' : N) (n : FilterNode) : Prop :=
  appends s [] s' [n] (filter_holds kinds fields f) ∧ depth + filter_depth f ≤ max_filter_depth.

Definition plans (f : Filter) : Prop := ∀ depth s s' n, plan_filter depth f s = (s', Ok n) → planned depth s f s' n.

Lemma conjunction_holds l :
  node_holds kinds fields (conjunction l) = all_hold l ∧ leaves (conjunction l) = lsum leaves l.
Proof. destruct l as [|n [|m l]]; cbn; [done| |done]. rewrite andb_true_r. unfold lsum. cbn. by rewrite N.add_0_r. Qed.

Lemma count_node_Ok s s' u : count_node s = (s', Ok u) → s' = s + 1 ∧ s' ≤ max_filter_nodes.
Proof. unfold count_node. destruct (max_filter_nodes <? s + 1) eqn:Hb; [done|]. intros [= <-]. by apply N.ltb_ge in Hb. Qed.

Lemma fields_appends l s out s' out' :
  st_fold (λ out (field : string * Condition), st_lift (validate_pointer field.1);; plan_condition field.1 field.2 out) out l s = (s', Ok out') →
  appends s out s' out' (forallb (λ pc, condition_holds (kinds pc.1) (fields pc.1) pc.2) l).
Proof.
  revert s out. induction l as [|[path c] l IH]; intros s out; [intros [= <- <-]; apply appends_refl|].
  intros (s1 & o1 & (s0 & u & [[= <-] _]%st_lift_Ok & H1)%st_bind_Ok & H2)%st_bind_Ok. cbn [forallb fst snd].
  apply (appends_trans _ _ _ _ _ _ _ _ (plan_condition_appends _ _ _ _ _ _ H1) (IH _ _ H2)).
Qed.

(** A counted child that means what a filter does. *)
Lemma appends_child s s1 s' out n (child : FilterNode) (b : bool) :
  s1 = s + 1 → s1 ≤ max_filter_nodes → appends s1 [] s' [n] b →
  node_holds kinds fields child = b → leaves child = leaves n → appends s out s' (out ++ [child]) b.
Proof.
  intros -> Hs (H1 & H2 & H3 & H4) Hb Hl. unfold appends. rewrite forallb_app, lsum_app, !lsum_cons, !lsum_nil in *. cbn.
  rewrite Hb, andb_true_r. repeat split; auto; lia.
Qed.

Lemma conjuncts_appends depth l s out s' out' :
  Forall plans l →
  st_fold (λ out g, count_node;; n ← plan_filter (depth + 1) g; mret (out ++ [n])) out l s = (s', Ok out') →
  appends s out s' out' (forallb (filter_holds kinds fields) l) ∧
  Forall (λ g, depth + 1 + filter_depth g ≤ max_filter_depth) l.
Proof.
  intros Hl. revert s out. induction Hl as [|g l Hg _ IH]; intros s out; [intros [= <- <-]; split; [apply appends_refl|done]|].
  intros (s1 & o1 & (s2 & u & [Hc Hm]%count_node_Ok & (s3 & n & [Hn Hd]%Hg & [= <- <-])%st_bind_Ok)%st_bind_Ok & [H2 HD]%IH)%st_bind_Ok.
  cbn [forallb]. split; [|by constructor]. eapply appends_trans; [|exact H2]. eapply appends_child; [done|done|exact Hn| |done].
  destruct Hn as [Hn _]. cbn in Hn. by rewrite andb_true_r in Hn.
Qed.

Lemma alternatives_plan depth l s out s' out' :
  Forall plans l →
  st_fold (λ out g, n ← plan_filter (depth + 1) g; mret (out ++ [n])) out l s = (s', Ok out') →
  existsb (node_holds kinds fields) out' = existsb (node_holds kinds fields) out || existsb (filter_holds kinds fields) l ∧
  lsum leaves out' + s ≤ lsum leaves out + s' ∧ s ≤ s' ∧ (s ≤ max_filter_nodes → s' ≤ max_filter_nodes) ∧
  Forall (λ g, depth + 1 + filter_depth g ≤ max_filter_depth) l.
Proof.
  intros Hl. revert s out. induction Hl as [|g l Hg _ IH]; intros s out.
  { intros [= <- <-]. cbn. rewrite orb_false_r. repeat split; [lia..|done]. }
  intros (s1 & o1 & (s3 & n & [(Hn & Hc & Hm & Hx) Hd]%Hg & [= <- <-])%st_bind_Ok & (H1 & H2 & H3 & H4 & HD)%IH)%st_bind_Ok.
  rewrite H1, existsb_app. rewrite lsum_app, lsum_cons, lsum_nil in *. cbn in Hn |- *. rewrite andb_true_r in Hn.
  rewrite Hn, orb_false_r, orb_assoc. split_and!; [done|lia|lia|auto|by constructor].
Qed.

Lemma foldr_depth (l : list Filter) (b : N) :
  Forall (λ g, 1 + filter_depth g ≤ b) l → foldr (λ g m, N.max (1 + filter_depth g) m) 0 l ≤ b.
Proof. induction 1; cbn; lia. Qed.

Lemma plan_filter_plans f : plans f.
Proof.
  induction f as [conds conjuncts alternatives negated Hand Hor Hnot] using Filter_induction.
  intros depth s s' n. cbn [plan_filter]. destruct (max_filter_depth <? depth) eqn:Hdepth; [done|]. apply N.ltb_ge in Hdepth.
  intros (s1 & o1 & H1%fields_appends & (s2 & o2 & [H2 HD2]%conjuncts_appends & (s3 & o3 & H3 & (s4 & o4 & H4 & [= <- <-])%st_bind_Ok)%st_bind_Ok)%st_bind_Ok)%st_bind_Ok; [|done].
  assert (H3' : appends s2 o2 s3 o3 match alternatives with [] => true | _ => existsb (filter_holds kinds fields) alternatives end ∧
    Forall (λ g, depth + 1 + filter_depth g ≤ max_filter_depth) alternatives).
  { destruct alternatives as [|a l]; [injection H3 as <- <-; split; [apply appends_refl|done]|].
    apply st_bind_Ok in H3 as (t1 & u & [-> Hm]%count_node_Ok & (t2 & alts & Ha & [= <- <-])%st_bind_Ok).
    apply alternatives_plan in Ha as (G1 & G2 & G3 & G4 & GD); [|done]. split; [|done]. unfold appends.
    rewrite forallb_app, lsum_app, !lsum_cons, !lsum_nil in *. cbn [forallb node_holds leaves]. rewrite G1, andb_true_r.
    cbn [existsb orb]. repeat split; auto; unfold lsum in *; cbn in *; lia. }
  assert (H4' : appends s3 o3 s4 o4 match negated with None => true | Some g => negb (filter_holds kinds fields g) end ∧
    ∀ g, negated = Some g → depth + 1 + filter_depth g ≤ max_filter_depth).
  { destruct negated as [g|]; [|injection H4 as <- <-; split; [apply appends_refl|done]].
    apply st_bind_Ok in H4 as (t1 & u & [-> Hm]%count_node_Ok & (t2 & m & [(Hh & Hl & Hs & Hx) Hd]%(Hnot g eq_refl) & [= <- <-])%st_bind_Ok).
    split; [|by intros g' [= <-]]. unfold appends. rewrite forallb_app, lsum_app, !lsum_cons, !lsum_nil in *. cbn in *.
    rewrite andb_true_r in Hh. rewrite Hh, andb_true_r. repeat split; auto; lia. }
  destruct H3' as [H3' HD3], H4' as [H4' HD4]. split.
  - pose proof (appends_trans _ _ _ _ _ _ _ _ (appends_trans _ _ _ _ _ _ _ _ (appends_trans _ _ _ _ _ _ _ _ H1 H2) H3') H4') as (G1 & G2 & G3 & G4).
    destruct (conjunction_holds o4) as [C1 C2]. unfold appends. rewrite lsum_cons, C2. cbn [forallb filter_holds].
    rewrite C1, andb_true_r, G1. repeat split; auto. rewrite lsum_nil in *. lia.
  - cbn [filter_depth]. pose proof (foldr_depth conjuncts (max_filter_depth - depth)) as F1.
    pose proof (foldr_depth alternatives (max_filter_depth - depth)) as F2.
    assert (match negated with Some g => 1 + filter_depth g | None => 0 end ≤ max_filter_depth - depth).
    { destruct negated as [g|]; [|lia]. specialize (HD4 g eq_refl). lia. }
    assert (foldr (λ g m, N.max (1 + filter_depth g) m) 0 conjuncts ≤ max_filter_depth - depth).
    { apply F1. eapply Forall_impl; [exact HD2|]. cbn. lia. }
    assert (foldr (λ g m, N.max (1 + filter_depth g) m) 0 alternatives ≤ max_filter_depth - depth).
    { apply F2. eapply Forall_impl; [exact HD3|]. cbn. lia. }
    lia.
Qed.
End meaning.

(** ** The builder *)

Section builder.
Context `{Decimals} (kinds : string → option ScalarType) (fields : string → option value).

Abbreviation holds f := (filter_holds kinds fields f = true).
Abbreviation field_holds := (λ path c, condition_holds (kinds path) (fields path) c = true).

Lemma holds_iff m conjuncts alternatives negated :
  holds (MkFilter m conjuncts alternatives negated) ↔
  map_Forall field_holds m ∧ Forall (λ f, holds f) conjuncts ∧
  (alternatives = [] ∨ Exists (λ f, holds f) alternatives) ∧ ∀ g, negated = Some g → ¬ holds g.
Proof.
  cbn [filter_holds]. rewrite !andb_true_iff.
  assert (H1 : forallb (λ pc, condition_holds (kinds pc.1) (fields pc.1) pc.2) (map_iter m) = true ↔ map_Forall field_holds m).
  { rewrite forallb_ok, Forall_forall. split; [intros Hx path c Hc%elem_of_map_iter; by apply (Hx (path, c))|].
    intros Hx [path c] Hc%elem_of_map_iter. by apply Hx. }
  assert (H3 : match alternatives with [] => true | _ => existsb (filter_holds kinds fields) alternatives end = true ↔
    (alternatives = [] ∨ Exists (λ f, holds f) alternatives)).
  { destruct alternatives as [|a l]; [naive_solver|]. rewrite existsb_exists, Exists_exists. setoid_rewrite list_elem_of_In. naive_solver. }
  rewrite H1, forallb_ok, H3. destruct negated as [g|]; [rewrite negb_true_iff, <-not_true_iff_false|]; naive_solver.
Qed.

Lemma when_take {A} (a b : option A) (f : A → bool) :
  either_none a b = true → when (take_slot a b) f = when a f && when b f.
Proof. destruct a, b; cbn; try done; intros _; by rewrite andb_true_r. Qed.

(** Conditions that fit in one mean the same there. *)
Lemma merge_holds kind actual a b :
  disjoint a b = true → condition_holds kind actual (merge_condition a b) = condition_holds kind actual a && condition_holds kind actual b.
Proof.
  unfold disjoint. rewrite !andb_true_iff, !negb_true_iff. intros [[[[[[[He Hn] Hl] Hu] Hi] Hni] Hx] Hc].
  assert (Hlow : either_none (c_gt a) (c_gt b) = true ∧ either_none (c_gte a) (c_gte b) = true).
  { revert Hl. unfold has_lower, either_none. by destruct (c_gt a), (c_gt b), (c_gte a), (c_gte b). }
  assert (Hup : either_none (c_lt a) (c_lt b) = true ∧ either_none (c_lte a) (c_lte b) = true).
  { revert Hu. unfold has_upper, either_none. by destruct (c_lt a), (c_lt b), (c_lte a), (c_lte b). }
  unfold condition_holds, merge_condition; cbn [c_eq c_ne c_gt c_gte c_lt c_lte c_in c_nin c_exists c_contains].
  rewrite !when_take by naive_solver. apply eq_true_iff_eq. rewrite !andb_true_iff. tauto.
Qed.

Lemma default_holds path : field_holds path condition_default.
Proof. done. Qed.

Lemma only_field_holds path c : holds (only_field path c) ↔ field_holds path c.
Proof.
  unfold only_field. rewrite holds_iff, map_Forall_singleton. split; [naive_solver|]. intros Hc.
  split; [done|]. split; [constructor|]. split; [by left|done].
Qed.

Lemma insert_merged (m : gmap string Condition) path existing c :
  m !! path = Some existing → disjoint existing c = true →
  map_Forall field_holds (<[path := merge_condition existing c]> m) ↔ map_Forall field_holds m ∧ field_holds path c.
Proof.
  intros Hm Hd. rewrite <-insert_delete_eq, map_Forall_insert by apply lookup_delete_eq. rewrite merge_holds, andb_true_iff by done.
  rewrite <-(insert_id m path existing Hm) at 2. rewrite <-(insert_delete_eq m path existing), map_Forall_insert by apply lookup_delete_eq. tauto.
Qed.

Lemma and_field_holds f path c : holds (and_field f (path, c)) ↔ holds f ∧ field_holds path c.
Proof.
  destruct f as [m conjuncts alternatives negated]. unfold and_field. cbn [ff_fields ff_and ff_or ff_not fst snd].
  destruct (m !! path) as [existing|] eqn:Hm; [destruct (disjoint existing c) eqn:Hd|]; rewrite !holds_iff.
  - rewrite insert_merged by done. tauto.
  - rewrite Forall_app, Forall_singleton, only_field_holds. tauto.
  - rewrite map_Forall_insert by done. tauto.
Qed.

Lemma and_fields_hold f l :
  holds (foldl and_field f l) ↔ holds f ∧ Forall (λ pc : string * Condition, field_holds pc.1 pc.2) l.
Proof.
  revert f. induction l as [|[path c] l IH]; intros f; cbn [foldl]; [rewrite Forall_nil; tauto|].
  rewrite IH, and_field_holds, Forall_cons. cbn [fst snd]. tauto.
Qed.

Lemma filter_or_holds l : holds (filter_or l) ↔ Exists (λ f, holds f) l.
Proof.
  destruct l as [|f l]; unfold filter_or, filter_not; rewrite holds_iff.
  - rewrite Exists_nil. split; [|done]. intros (_ & _ & _ & Hn). by destruct (Hn filter_default eq_refl).
  - split; [by intros (_ & _ & [?|?] & _)|]. intros Hx. split; [apply map_Forall_empty|]. split; [constructor|]. by split; [right|].
Qed.

Lemma filter_not_holds f : holds (filter_not f) ↔ ¬ holds f.
Proof.
  unfold filter_not. rewrite holds_iff. split; [naive_solver|]. intros Hf. split; [apply map_Forall_empty|].
  split; [constructor|]. split; [by left|]. by intros g [= <-].
Qed.

Lemma is_all_holds f : is_all f = true → holds f.
Proof.
  destruct f as [m [|] [|] [|]]; unfold is_all; cbn [ff_fields ff_and ff_or ff_not]; rewrite ?andb_false_r, ?andb_true_r; try done.
  intros ->%bool_decide_eq_true. apply holds_iff. split; [apply map_Forall_empty|]. split; [constructor|]. by split; [left|].
Qed.

Lemma map_iter_holds (m : gmap string Condition) :
  Forall (λ pc : string * Condition, field_holds pc.1 pc.2) (map_iter m) ↔ map_Forall field_holds m.
Proof.
  rewrite Forall_forall. split; [intros Hx path c Hc%elem_of_map_iter; by apply (Hx (path, c))|].
  intros Hx [path c] Hc%elem_of_map_iter. by apply Hx.
Qed.

Lemma and_alternatives_holds f l : holds (and_alternatives f l) ↔ holds f ∧ (l = [] ∨ Exists (λ f, holds f) l).
Proof.
  destruct f as [m a o n], l as [|x l]; cbn [and_alternatives ff_or]; [naive_solver|].
  destruct o as [|y o]; cbn [ff_fields ff_and ff_not]; rewrite !holds_iff; [naive_solver|].
  rewrite Forall_app, Forall_singleton, filter_or_holds. naive_solver.
Qed.

Lemma and_negated_holds f n : holds (and_negated f n) ↔ holds f ∧ ∀ g, n = Some g → ¬ holds g.
Proof.
  destruct f as [m a o [n'|]], n as [n|]; cbn [and_negated ff_not]; [|naive_solver| |naive_solver];
    cbn [ff_fields ff_and ff_or]; rewrite !holds_iff; [|naive_solver].
  rewrite Forall_app, Forall_singleton, filter_not_holds. naive_solver.
Qed.

Lemma filter_and_holds f g : holds (filter_and f g) ↔ holds f ∧ holds g.
Proof.
  unfold filter_and. destruct (is_all f) eqn:Hf; [apply is_all_holds in Hf; tauto|].
  rewrite and_negated_holds, and_alternatives_holds.
  pose proof (and_fields_hold f (map_iter (ff_fields g))) as Hfold. rewrite map_iter_holds in Hfold.
  destruct (foldl and_field f (map_iter (ff_fields g))) as [m a o n], g as [m' a' o' n'].
  cbn [ff_fields ff_and ff_or ff_not] in *. rewrite holds_iff in Hfold. rewrite !holds_iff, Forall_app. tauto.
Qed.

Lemma filter_with_holds path c f : holds (filter_with path c f) ↔ holds f ∧ field_holds path c.
Proof.
  destruct f as [m a o n]. unfold filter_with. cbn [ff_fields ff_and ff_or ff_not].
  destruct (m !! path) as [existing|] eqn:Hm; cbn [from_option]; unfold id.
  - destruct (disjoint existing c) eqn:Hd; rewrite !holds_iff.
    + rewrite insert_merged by done. tauto.
    + rewrite insert_id, Forall_app, Forall_singleton, only_field_holds by done. tauto.
  - assert (Hd : disjoint condition_default c = true) by done. rewrite Hd, !holds_iff, map_Forall_insert, merge_holds by done.
    pose proof (default_holds path) as Hdef. cbn beta in Hdef. rewrite Hdef. cbn [andb]. tauto.
Qed.
End builder.

(** ** Evaluation computes the meaning *)

Lemma try_map_acc {E A B} (f : A → result E B) l acc ys :
  try_fold (λ acc x, y ← f x; Ok (acc ++ [y])) acc l = Ok ys ↔ ∃ zs, ys = acc ++ zs ∧ Forall2 (λ x y, f x = Ok y) l zs.
Proof.
  revert acc. induction l as [|x l IH]; intros acc.
  - rewrite try_fold_nil. split; [intros [= <-]; exists []; split; [by rewrite app_nil_r|constructor]|].
    intros (zs & -> & Hz). inversion Hz. by rewrite app_nil_r.
  - rewrite try_fold_cons, bind_Ok. setoid_rewrite bind_Ok. split.
    + intros (b & (y & Hy & [= <-]) & (zs & -> & Hz)%IH). exists (y :: zs). split; [by rewrite <-app_assoc|by constructor].
    + intros (zs & -> & Hz). inversion Hz as [|? y ? zs' Hy Hz']; subst. exists (acc ++ [y]). split; [eauto|].
      apply IH. exists zs'. split; [by rewrite <-app_assoc|done].
Qed.

Lemma try_map_Ok {E A B} (f : A → result E B) l ys : try_map f l = Ok ys ↔ Forall2 (λ x y, f x = Ok y) l ys.
Proof. unfold try_map. rewrite try_map_acc. split; [by intros (zs & -> & Hz)|]. intros Hz. by exists ys. Qed.

Abbreviation no_error := (λ _ : Error, False).

Section evaluation.
Context `{Decimals}.

Lemma scalar_present v kind x : scalar (Some v) kind = Ok x → x ≠ KMissing ∧ x ≠ KUpperBound.
Proof.
  unfold scalar. destruct (is_null v); [intros [= <-]; done|].
  destruct kind as [[]|], v; try done; try (intros [= <-]; done); intros (n & _ & ->)%fmap_Ok; done.
Qed.

Lemma contains_element_computes x kind l c :
  computes no_error (contains_element x kind l) (existsb (λ e, bool_decide (scanned_scalar (Some e) kind = Some x)) l) c.
Proof.
  induction l as [|e l IH]; [apply computes_ret|]. cbn [contains_element existsb].
  apply (computes_bind _ _ _ tt); [by apply computes_check; auto|]. case_bool_decide; [apply computes_ret|exact IH].
Qed.

Lemma scanned_equals kind a v x :
  scalar (Some v) kind = Ok x → bool_decide (scanned_scalar (Some a) kind = Some x) = equals kind (Some a) v.
Proof.
  intros Hv. unfold scanned_scalar, equals. rewrite Hv. destruct (scalar (Some a) kind) as [y|]; [|done].
  apply bool_decide_ext. naive_solver.
Qed.

Lemma existsb_values kind a l xs y :
  Forall2 (λ v x, scalar (Some v) kind = Ok x) l xs → scalar (Some a) kind = Ok y →
  bool_decide (y ∈ (list_to_set xs : gset Scalar)) = existsb (equals kind (Some a)) l.
Proof.
  intros Hl Hy. induction Hl as [|v x l xs Hx _ IH]; [done|]. cbn [existsb list_to_set]. rewrite <-IH.
  unfold equals. rewrite Hy, Hx. rewrite <-bool_decide_or. apply bool_decide_ext. set_solver.
Qed.

Lemma existsb_none {A} (f : A → bool) l : (∀ x, f x = false) → existsb f l = false.
Proof. intros Hf. induction l as [|x l IH]; [done|]. cbn. by rewrite Hf, IH. Qed.

Lemma bound_evaluates (kind : option ScalarType) (a : value) (b : Bound value) (sb : Bound Scalar) (y : Scalar) (rel srel : Scalar → Scalar → bool) :
  scalar_bound b kind = Ok sb → scalar (Some a) kind = Ok y → y ≠ KNull →
  negb (bound_differs sb y) && match sb with Included x => rel y x | Excluded x => srel y x | Unbounded => true end =
  bound_holds rel srel kind (Some a) b.
Proof.
  intros Hb Hy Hn. destruct b as [v|v|]; cbn [scalar_bound] in Hb; [| |by injection Hb as <-];
    apply fmap_Ok in Hb as (x & Hx & ->); cbn [bound_holds ordered]; rewrite Hy, Hx, bool_decide_false by done;
    unfold bound_differs; cbn [bound_value negb andb]; by rewrite negb_involutive.
Qed.

Lemma evaluate_test_computes t kind p actual c :
  prepare_test t kind = Ok p → computes no_error (evaluate_test p actual kind) (test_holds kind actual t) c.
Proof.
  intros Hp. unfold evaluate_test. apply (computes_bind _ _ _ tt); [by apply computes_check; auto|].
  destruct t as [v|l|lower upper|b|v]; cbn [prepare_test] in Hp; cbn [test_holds].
  - apply fmap_Ok in Hp as (x & Hx & ->). destruct actual as [a|]; [|apply computes_ret].
    rewrite <-(scanned_equals kind a v x Hx). destruct (scanned_scalar (Some a) kind) as [y|]; [|apply computes_ret].
    eapply computes_weaken; [apply computes_ret| |done]. apply bool_decide_ext. naive_solver.
  - apply fmap_Ok in Hp as (xs & Hx%try_map_Ok & ->). destruct actual as [a|]; [|].
    + unfold scanned_scalar. destruct (scalar (Some a) kind) as [y|] eqn:Hy.
      * rewrite <-(existsb_values kind a l xs y Hx Hy). apply computes_ret.
      * eapply computes_weaken; [apply computes_ret| |done]. rewrite existsb_none; [done|]. intros v. unfold equals. by rewrite Hy.
    + eapply computes_weaken; [apply computes_ret| |done]. by rewrite existsb_none.
  - apply bind_Ok in Hp as (sl & Hl & (su & Hu & [= <-])%bind_Ok). destruct actual as [a|]; [|apply computes_ret].
    unfold scanned_scalar, orderable. destruct (scalar (Some a) kind) as [y|] eqn:Hy; [|apply computes_ret].
    eapply computes_weaken; [apply computes_ret| |done]. cbn [evaluate_scalar].
    rewrite (bool_decide_false (y = KMissing)) by (by apply scalar_present in Hy as []). cbn [orb].
    case_bool_decide as Hn; [done|]. cbn [negb andb].
    rewrite <-(bound_evaluates kind a lower sl y _ _ Hl Hy Hn), <-(bound_evaluates kind a upper su y _ _ Hu Hy Hn).
    unfold range_contains, above, below. destruct (bound_differs sl y), (bound_differs su y), sl, su; cbn; by rewrite ?andb_false_r, ?andb_true_r.
  - injection Hp as <-. apply computes_ret.
  - apply fmap_Ok in Hp as (x & Hx & ->). destruct actual as [[]|]; try apply computes_ret.
    eapply computes_weaken; [apply contains_element_computes| |done]. cbn [contains_value].
    induction l as [|e l IH]; [done|]. cbn [existsb]. by rewrite (scanned_equals kind e v x Hx), IH.
Qed.
End evaluation.

(** Every leaf of a plan. *)
Fixpoint each_leaf (P : string → FilterTest → Prop) (n : FilterNode) : Prop :=
  match n with
  | NAll => True
  | NLeaf path t => P path t
  | NAnd l | NOr l => foldr (λ n Q, each_leaf P n ∧ Q) True l
  | NNot n => each_leaf P n
  end.

Section scanning.
Context `{Decimals} (indexed : string → bool) (kinds : string → option ScalarType).
Hypothesis unindexed : ∀ path, indexed path = false → kinds path = None.

Lemma prepare_list_Ok (f : FilterNode → Result (option Scan)) l acc ss :
  prepare_list f acc l = Ok (Some ss) → ∃ zs, ss = acc ++ zs ∧ Forall2 (λ n s, f n = Ok (Some s)) l zs.
Proof.
  revert acc. induction l as [|n l IH]; intros acc; cbn [prepare_list].
  - intros [= <-]. exists []. split; [by rewrite app_nil_r|constructor].
  - intros ([s|] & Hs & Hl)%bind_Ok; [|done]. apply IH in Hl as (zs & -> & Hz). exists (s :: zs).
    split; [by rewrite <-app_assoc|by constructor].
Qed.

Lemma evaluate_until_computes (ev : Scan → ST Token Error bool) stop ss bs c :
  Forall2 (λ s b, computes no_error (ev s) b c) ss bs →
  computes no_error (evaluate_until ev stop ss) (if stop then existsb id bs else forallb id bs) c.
Proof.
  induction 1 as [|s b ss bs Hs _ IH]; cbn [evaluate_until].
  - destruct stop; apply computes_ret.
  - apply (computes_bind _ _ _ b); [exact Hs|]. destruct b, stop; cbn; (exact IH || apply computes_ret).
Qed.

Lemma scan_computes document c n : ∀ s,
  prepare_scan indexed n = Ok (Some s) → each_leaf (λ path _, validate_pointer path = Ok tt) n →
  computes no_error (evaluate_scan document s) (node_holds kinds (value_pointer document) n) c.
Proof.
  assert (Hlist : ∀ l, Forall (λ n, ∀ s, prepare_scan indexed n = Ok (Some s) → each_leaf (λ path _, validate_pointer path = Ok tt) n →
    computes no_error (evaluate_scan document s) (node_holds kinds (value_pointer document) n) c) l →
    ∀ ss, prepare_list (prepare_scan indexed) [] l = Ok (Some ss) →
    Forall (each_leaf (λ path _, validate_pointer path = Ok tt)) l →
    Forall2 (λ s b, computes no_error (evaluate_scan document s) b c) ss (node_holds kinds (value_pointer document) <$> l)).
  { intros l Hl ss (zs & -> & Hz)%prepare_list_Ok Hv. cbn [app]. revert Hl Hv. induction Hz as [|m s l zs Hs _ IH]; [constructor|].
    intros [Hn Hl]%Forall_cons [Hvn Hv]%Forall_cons. constructor; auto. }
  induction n as [|path t|l IH|l IH|n IH] using Node_induction; intros s Hs Hv; cbn [prepare_scan] in Hs.
  - injection Hs as <-. apply (computes_bind _ _ _ tt); [by apply computes_check; auto|]. apply computes_ret.
  - destruct (indexed path) eqn:Hi; [done|]. cbn [negb] in Hs. apply fmap_Ok in Hs as (p & Hp & [= ->]).
    apply (computes_bind _ _ _ tt); [by apply computes_check; auto|]. cbn [node_holds each_leaf] in *.
    rewrite (unindexed path Hi), <-pointer_equals_reference by done. by apply evaluate_test_computes.
  - apply bind_Ok in Hs as ([ss|] & Hss & [= <-]). apply (computes_bind _ _ _ tt); [by apply computes_check; auto|].
    cbn [each_leaf] in Hv. rewrite foldr_and_Forall in Hv. eapply computes_weaken; [apply evaluate_until_computes, (Hlist l IH ss Hss Hv)| |done].
    cbn [node_holds]. clear. induction l; [done|]. cbn. by f_equal.
  - apply bind_Ok in Hs as ([ss|] & Hss & [= <-]). apply (computes_bind _ _ _ tt); [by apply computes_check; auto|].
    cbn [each_leaf] in Hv. rewrite foldr_and_Forall in Hv. eapply computes_weaken; [apply evaluate_until_computes, (Hlist l IH ss Hss Hv)| |done].
    cbn [node_holds]. clear. induction l; [done|]. cbn. by f_equal.
  - apply bind_Ok in Hs as ([s'|] & Hs' & [= <-]). apply (computes_bind _ _ _ tt); [by apply computes_check; auto|].
    apply (computes_bind _ _ _ (node_holds kinds (value_pointer document) n)); [by apply IH|]. apply computes_ret.
Qed.
End scanning.

(** ** What planning and building promise *)

Lemma plan_node_holds `{Decimals} f n kinds fields :
  plan f = Ok n → node_holds kinds fields n = filter_holds kinds fields f.
Proof.
  unfold plan. destruct (plan_filter 0 f 0) as [s r] eqn:Hp. cbn. intros ->.
  destruct (plan_filter_plans kinds fields f 0 0 s n Hp) as [[Hh _] _]. cbn in Hh. by rewrite andb_true_r in Hh.
Qed.

(** C23.  A plan means what its filter means: on every document and whatever the
    declared types are, the plan of an accepted filter holds exactly when every
    condition, conjunct, alternative and negation of the filter does; an accepted
    filter has at most sixteen nesting levels and its plan at most 256 tests. *)
Theorem plan_keeps_meaning `{Decimals} f n :
  plan f = Ok n →
  (∀ kinds fields, node_holds kinds fields n = filter_holds kinds fields f) ∧
  leaves n ≤ max_filter_nodes ∧ filter_depth f ≤ max_filter_depth.
Proof.
  intros Hf. split; [intros kinds fields; by apply plan_node_holds|]. revert Hf.
  unfold plan. destruct (plan_filter 0 f 0) as [s r] eqn:Hp. cbn. intros ->.
  destruct (plan_filter_plans (λ _, None) (λ _, None) f 0 0 s n Hp) as [(_ & Hl & _ & Hs) Hd]. rewrite lsum_cons, !lsum_nil in Hl.
  split; [|lia]. assert (s ≤ max_filter_nodes) by (apply Hs; vm_compute; discriminate). lia.
Qed.

(** C29.  The typed builder composes meanings: conjunction, which merges the
    conditions of a field where they fit in one, holds exactly when both filters
    do; disjunction when one alternative does, so never without alternatives;
    negation when the filter does not; and an operator added to a field when the
    filter and the operator do. *)
Theorem builder_meaning `{Decimals} kinds fields f g l path c :
  filter_holds kinds fields (filter_and f g) = filter_holds kinds fields f && filter_holds kinds fields g ∧
  filter_holds kinds fields (filter_or l) = existsb (filter_holds kinds fields) l ∧
  filter_holds kinds fields (filter_not f) = negb (filter_holds kinds fields f) ∧
  filter_holds kinds fields (filter_with path c f) =
    filter_holds kinds fields f && condition_holds (kinds path) (fields path) c.
Proof.
  split_and!; apply eq_true_iff_eq.
  - rewrite filter_and_holds, andb_true_iff. done.
  - rewrite filter_or_holds, existsb_exists, Exists_exists. by setoid_rewrite list_elem_of_In.
  - rewrite filter_not_holds, negb_true_iff, not_true_iff_false. done.
  - rewrite filter_with_holds, andb_true_iff. done.
Qed.

Module FilterSample.
#[local] Existing Instance natural_decimals.

Definition open_orders : Filter :=
  filter_and (filter_with "/status" {| c_eq := Some (VString "open"); c_ne := None; c_gt := None; c_gte := None; c_lt := None;
                c_lte := None; c_in := None; c_nin := None; c_exists := None; c_contains := None |} filter_default)
    (filter_and (filter_not (only_field "/hidden" {| c_eq := None; c_ne := None; c_gt := None; c_gte := None; c_lt := None;
                   c_lte := None; c_in := None; c_nin := None; c_exists := Some true; c_contains := None |}))
       (only_field "/total" {| c_eq := None; c_ne := None; c_gt := None; c_gte := Some (VNumber "10"); c_lt := Some (VNumber "100");
          c_lte := None; c_in := None; c_nin := None; c_exists := None; c_contains := None |})).

Definition open_plan : FilterNode :=
  NAnd [NLeaf "/status" (TEq (VString "open")); NLeaf "/total" (TRange (Included (VNumber "10")) (Excluded (VNumber "100")));
        NNot (NLeaf "/hidden" (TExists true))].

Lemma plan_keeps_meaning_witness :
  plan open_orders = Ok open_plan ∧
  (∀ kinds fields, node_holds kinds fields open_plan = filter_holds kinds fields open_orders) ∧
  leaves open_plan ≤ max_filter_nodes ∧ filter_depth open_orders ≤ max_filter_depth.
Proof.
  assert (Hp : plan open_orders = Ok open_plan) by (vm_compute; reflexivity).
  split; [exact Hp|]. apply (plan_keeps_meaning open_orders open_plan Hp).
Defined.
End FilterSample.
