(* ===== verification/Candidates.v ===== *)
(** * Candidate selection

    Models the second half of src/crates/kasumi-query/src/structured.rs (the
    checks of a plan against the indexes, estimates, the order of conjuncts and
    the selection of candidate identifiers from indexes, complements and scans)
    and [with_live] of document_source.rs.

    A source is two operations around a loan, each free to observe the token and
    to fail; its identity is that of the bound view.  The test for one root of
    two persistent sets is that of the imbl crate. *)

From S2P Require Import Prelude Json Types Digest State Apply Scalars Cancellation Indexes Filters.

(** ** Sources *)

Class LendingSource := {
  loan : string → ST Token ReadFailure (option SourceRecord);
  finish : string → ST Token ReadFailure unit;
}.

Class SharedRoots := { ptr_eq : gset string → gset string → bool }.

(** How a selection stops: with a failure of the query or the source, or on an
    index out of range. *)
Inductive Halt := Failed (e : ReadFailure) | Panicked.

Definition lift_source {A} (m : ST Token ReadFailure A) : ST Token Halt A := λ t,
  let '(t, r) := m t in (t, map_err Failed r).
Definition lift_query {A} (m : ST Token Error A) : ST Token Halt A := λ t,
  let '(t, r) := m t in (t, map_err (λ e, Failed (FQuery e)) r).

Definition check_query : ST Token Halt unit := lift_query check_token.

Definition set_len (s : gset string) : N := N.of_nat (size s).

Definition check_size (size limit : N) : Result unit :=
  if limit <? size then exhausted "query candidate budget exceeded" else Ok tt.

(** ** Loans *)

Section loans.
Context `{LendingSource}.

(** [DocumentSource::with_record] without an expected version. *)
Definition with_record {A} (id : string) (lend : option SourceRecord → ST Token Error A) : ST Token Halt A :=
  r ← lift_source (loan id);
  x ← lift_query (lend r);
  lift_source (finish id);;
  mret x.

(** [with_live]. *)
Definition with_live {A} (id : string) (lend : Document → ST Token Error A) : ST Token Halt A :=
  check_query;;
  x ← with_record id (λ r,
        check_token;;
        match r with
        | Some (LiveRecord d) =>
            if negb (bool_decide (d_id d = id)) then st_lift (fail Corruption "source document identity/version differs")
            else lend d
        | Some (ArchivedRecord _) => st_lift (fail Unavailable "selected archived content requires bounded hydration")
        | None => st_lift (fail Corruption "index/document generation mismatch")
        end);
  check_query;;
  mret x.
End loans.

(** The identifiers that a test of each selects. *)
Definition select_ids (universe : gset string) (matched : string → ST Token Halt bool) : ST Token Halt (gset string) :=
  st_fold (λ selected id, m ← matched id; mret (if m : bool then {[id]} ∪ selected else selected)) ∅ (set_iter universe).

Section plans.
Context `{Decimals} (s : Structured).

(** ** Checks of a plan *)

Definition field_kind (path : string) (allow_scan : bool) : Result (option ScalarType) :=
  validate_pointer path;;
  match st_fields s !! path with
  | Some i => Ok (Some (fi_kind i))
  | None =>
      if allow_scan then Ok None
      else fail IndexRequired ("declare an index for " +:+ path +:+ " or explicitly allow_scan")
  end.

(** [Structured::validate]. *)
Fixpoint validate_node (allow_scan : bool) (n : FilterNode) : Result unit :=
  match n with
  | NAll => Ok tt
  | NAnd l | NOr l => try_for_each (validate_node allow_scan) l
  | NNot n => validate_node allow_scan n
  | NLeaf path t => kind ← field_kind path allow_scan; validate_test path t kind
  end.

(** ** Estimates *)

Definition range_estimate_budget : N := 4096.

(** [OrdMap::range]. *)
Definition entries_range (range : Bound Scalar * Bound Scalar) (entries : gmap Scalar (gset string)) :
    list (Scalar * gset string) :=
  filter (λ kv, range_contains range.1 range.2 kv.1 = true) (map_iter entries).

Fixpoint estimate_range (limit universe visited total : N) (l : list (Scalar * gset string)) : N :=
  match l with
  | [] => total
  | (_, ids) :: l =>
      let total := saturating_add total (set_len ids) in
      if (limit <? total) || (limit <=? visited) then N.max universe total
      else estimate_range limit universe (visited + 1) total l
  end.

Definition estimate_leaf (path : string) (t : FilterTest) (universe budget : N) : Result (option N) :=
  match st_fields s !! path with
  | None => Ok None
  | Some i =>
      let ids v := k ← scalar (Some v) (Some (fi_kind i));
                   Ok (match fi_entries i !! k with Some ids => set_len ids | None => 0 end) in
      match t with
      | TEq v | TContains v => Some <$> ids v
      | TIn l => Some <$> try_fold (λ total v, n ← ids v; Ok (saturating_add total n)) 0 l
      | TExists true => Ok (Some (set_len (fi_present i)))
      | TExists false => Ok (Some (universe - set_len (fi_present i)))
      | TRange lower upper =>
          range ← index_range lower upper (Some (fi_kind i));
          if empty_range range then Ok (Some 0)
          else Ok (Some (estimate_range (N.min budget range_estimate_budget) universe 0 0 (entries_range range (fi_entries i))))
      end
  end.

(** The alternatives of a disjunction, up to the first without an estimate. *)
Definition estimate_alternatives (estimate : FilterNode → Result (option N)) (universe : N) :
    N → list FilterNode → Result (option N) :=
  fix go total l :=
    match l with
    | [] => Ok (Some (N.min total universe))
    | n :: l => e ← estimate n; match e with Some e => go (saturating_add total e) l | None => Ok None end
    end.

(** [Structured::estimate]. *)
Fixpoint estimate (universe budget : N) (n : FilterNode) : Result (option N) :=
  match n with
  | NAll => Ok (Some universe)
  | NNot n => Ok (match n with NAll => Some 0 | _ => None end)
  | NAnd l =>
      try_fold (λ best n,
        e ← estimate universe budget n;
        Ok (match e with
            | Some e => Some (match best with Some b => N.min b e | None => e end)
            | None => best
            end)) None l
  | NOr l => estimate_alternatives (estimate universe budget) universe 0 l
  | NLeaf path t => estimate_leaf path t universe budget
  end.

(** ** The order of conjuncts *)

Definition rank := (bool * N * nat)%type.

Definition rank_le (x y : rank) : Prop :=
  let '(b, e, p) := x in
  let '(b', e', p') := y in
  (b = false ∧ b' = true) ∨ (b = b' ∧ (e < e' ∨ (e = e' ∧ (p ≤ p')%nat))).

#[export] Instance rank_le_dec : RelDecision rank_le.
Proof. intros [[b e] p] [[b' e'] p']. apply _. Defined.

Definition is_range (n : FilterNode) : bool := match n with NLeaf _ (TRange _ _) => true | _ => false end.

(** One pass over the children, with the ranks and the budget so far. *)
Definition rank_pass (universe : N) (pass : bool) (acc : list rank * N) (children : list (nat * FilterNode)) :
    Result (list rank * N) :=
  try_fold (λ '(ranked, budget) '(position, child),
    if negb (Bool.eqb (is_range child) pass) then Ok (ranked, budget)
    else
      e ← estimate universe budget child;
      let budget := match e with Some e => N.min budget e | None => budget end in
      Ok (ranked ++ [(negb (is_some e), default u64_max e, position)], budget)) acc children.

(** [Structured::conjunct_order]. *)
Definition conjunct_order (children : list FilterNode) (universe : N) : Result (list nat) :=
  let numbered := zip (seq 0 (length children)) children in
  acc ← rank_pass universe false ([], universe) numbered;
  acc ← rank_pass universe true acc numbered;
  Ok (snd <$> merge_sort rank_le acc.1).
End plans.

(** ** Sets of identifiers *)

(** [complement]. *)
Definition complement (universe excluded : gset string) : ST Token Error (gset string) :=
  if set_len excluded <=? set_len universe / 2 then
    st_fold (λ candidates id, check_token;; mret (candidates ∖ {[id]})) universe (set_iter excluded)
  else
    st_fold (λ candidates id, check_token;; mret (if bool_decide (id ∈ excluded) then candidates else {[id]} ∪ candidates)) ∅
      (set_iter universe).

(** The closure [add] of [FieldIndex::candidates]. *)
Definition add_ids (universe : gset string) (whole : bool) (cap : N) (candidates ids : gset string) :
    ST Token Error (gset string) :=
  if whole then
    st_lift (check_size (N.min (saturating_add (set_len candidates) (set_len ids)) (set_len universe)) cap);;
    candidates ← (if set_len candidates <? set_len ids
                  then st_fold (λ c id, check_token;; mret ({[id]} ∪ c)) ids (set_iter candidates)
                  else st_fold (λ c id, check_token;; mret ({[id]} ∪ c)) candidates (set_iter ids));
    st_lift (check_size (set_len candidates) cap);;
    mret candidates
  else
    let '(shorter, longer) := if set_len ids <=? set_len universe then (ids, universe) else (universe, ids) in
    st_fold (λ c id,
      check_token;;
      if bool_decide (id ∈ longer) then st_lift (check_size (set_len ({[id]} ∪ c)) cap);; mret ({[id]} ∪ c)
      else mret c) candidates (set_iter shorter).

Section selection.
Context `{Decimals}.

Definition unordered (key : Scalar) : bool := bool_decide (key = KMissing) || bool_decide (key = KNull).

(** [FieldIndex::candidates]. *)
Definition field_candidates (i : FieldIndex) (t : FilterTest) (universe : gset string) (whole : bool) (cap : N) :
    ST Token Error (gset string) :=
  let kind := Some (fi_kind i) in
  match t with
  | TExists true => add_ids universe whole cap ∅ (fi_present i)
  | TExists false =>
      if whole then
        candidates ← complement universe (fi_present i);
        st_lift (check_size (set_len candidates) cap);;
        mret candidates
      else
        st_fold (λ c id,
          check_token;;
          if bool_decide (id ∈ fi_present i) then mret c
          else st_lift (check_size (set_len ({[id]} ∪ c)) cap);; mret ({[id]} ∪ c)) ∅ (set_iter universe)
  | TEq v | TContains v =>
      key ← st_lift (scalar (Some v) kind);
      match fi_entries i !! key with Some ids => add_ids universe whole cap ∅ ids | None => mret ∅ end
  | TIn values =>
      keys ← st_fold (λ (keys : gset Scalar) v, check_token;; key ← st_lift (scalar (Some v) kind); mret ({[key]} ∪ keys)) ∅ values;
      st_fold (λ c key,
        check_token;;
        match fi_entries i !! key with Some ids => add_ids universe whole cap c ids | None => mret c end) ∅ (set_iter keys)
  | TRange lower upper =>
      range ← st_lift (index_range lower upper kind);
      if empty_range range then mret ∅
      else
        let entries := entries_range range (fi_entries i) in
        st_fold (λ c '(visited, (key, ids)),
          check_token;;
          (if whole then st_lift (check_size (N.of_nat visited + 1) cap) else mret tt);;
          if unordered key then mret c else add_ids universe whole cap c ids) ∅ (zip (seq 0 (length entries)) entries)
  end.

Context `{LendingSource} `{SharedRoots} (s : Structured) (allow_scan allow_index_reads : bool) (cap : N).

(** A conjunction: each child over the survivors of the previous ones. *)
Definition narrow (runs : list (gset string → ST Token Halt (gset string))) (universe : gset string) :
    option (gset string) → list nat → ST Token Halt (gset string) :=
  fix go survivors positions :=
    match positions with
    | [] => mret (default universe survivors)
    | position :: positions =>
        match runs !! position with
        | None => st_lift (Err Panicked)
        | Some run =>
            next ← run (default universe survivors);
            if bool_decide (next = ∅) then mret next else go (Some next) positions
        end
    end.

Definition is_compound (n : FilterNode) : bool := match n with NAnd _ | NOr _ | NNot _ => true | _ => false end.

Definition is_indexed (path : string) : bool := is_some (st_fields s !! path).

(** The scan of a compound node without indexed leaves, if it reads documents. *)
Definition whole_scan (n : FilterNode) : Result (option Scan) :=
  if allow_scan && is_compound n then
    scan ← prepare_scan is_indexed n;
    Ok (match scan with Some scan => if has_leaf scan then Some scan else None | None => None end)
  else Ok None.

(** Whether a range is tested on the records of a small universe. *)
Definition reads_records (path : string) (t : FilterTest) (kind : option ScalarType) (universe : gset string) : Result bool :=
  if allow_index_reads && is_some kind && is_range (NLeaf path t) && negb (ptr_eq universe (st_ids s))
     && (saturating_mul (set_len universe) 8 <? set_len (st_ids s)) then
    e ← estimate s (set_len (st_ids s)) (set_len universe) (NLeaf path t);
    Ok (match e with Some size => set_len universe <? size | None => false end)
  else Ok false.

Definition read_matches (path : string) (p : PreparedTest) (kind : option ScalarType) (id : string) : ST Token Halt bool :=
  with_record id (λ r,
    check_token;;
    match r with
    | None => st_lift (fail Corruption "index/document generation mismatch")
    | Some r =>
        if match r with LiveRecord d => negb (bool_decide (d_id d = id)) | ArchivedRecord _ => false end then
          st_lift (fail Corruption "source document identity/version differs")
        else evaluate_test p (record_value r path) kind
    end).

Definition leaf_candidates (path : string) (t : FilterTest) (universe : gset string) : ST Token Halt (gset string) :=
  kind ← lift_query (st_lift (field_kind s path allow_scan));
  direct ← lift_query (st_lift (reads_records path t kind universe));
  if direct : bool then
    p ← lift_query (st_lift (prepare_test t kind));
    select_ids universe (read_matches path p kind)
  else
    match st_fields s !! path with
    | Some i => lift_query (field_candidates i t universe (ptr_eq universe (st_ids s)) cap)
    | None =>
        lift_query (st_lift (check_size (set_len universe) cap));;
        p ← lift_query (st_lift (prepare_test t kind));
        select_ids universe (λ id, with_live id (λ d, evaluate_test p (pointer (body d) path) kind))
    end.

(** [Structured::candidates]. *)
Fixpoint candidates (n : FilterNode) (universe : gset string) {struct n} : ST Token Halt (gset string) :=
  check_query;;
  scan ← lift_query (st_lift (whole_scan n));
  match scan with
  | Some scan =>
      lift_query (st_lift (check_size (set_len universe) cap));;
      select_ids universe (λ id, with_live id (λ d, evaluate_scan (body d) scan))
  | None =>
      match n with
      | NAll => lift_query (st_lift (check_size (set_len universe) cap));; mret universe
      | NAnd l =>
          positions ← lift_query (st_lift (conjunct_order s l (set_len universe)));
          narrow (candidates <$> l) universe None positions
      | NOr l =>
          st_fold (λ acc n,
            ids ← candidates n universe;
            acc ← st_fold (λ acc id, check_query;; mret ({[id]} ∪ acc)) acc (set_iter ids);
            lift_query (st_lift (check_size (set_len acc) cap));;
            mret acc) ∅ l
      | NNot NAll => mret ∅
      | NNot n =>
          excluded ← candidates n universe;
          lift_query (st_lift (check_size (set_len universe - set_len excluded) cap));;
          lift_query (complement universe excluded)
      | NLeaf path t => leaf_candidates path t universe
      end
  end.
End selection.

(** ** Loops that cannot fail *)

Lemma try_fold_ok {E A B} (f : B → A → result E B) l acc :
  (∀ acc x, x ∈ l → ∃ acc', f acc x = Ok acc') → ∃ acc', try_fold f acc l = Ok acc'.
Proof.
  revert acc. induction l as [|x l IH]; intros acc Hf; [by exists acc|]. rewrite try_fold_cons.
  destruct (Hf acc x) as [acc1 ->]; [by left|]. rewrite bind_Ok_l. apply IH. intros acc2 y Hy. apply Hf. by right.
Qed.

(** ** Sets built in loops *)

Abbreviation panics := (λ e : Halt, e = Panicked).

Lemma foldl_insert_elem (f : string → bool) l c x :
  x ∈ foldl (λ c id, if f id then {[id]} ∪ c else c) (c : gset string) l ↔ x ∈ c ∨ (x ∈ l ∧ f x = true).
Proof.
  revert c. induction l as [|y l IH]; intros c; cbn [foldl]; [rewrite elem_of_nil; naive_solver|].
  rewrite IH, elem_of_cons. destruct (f y) eqn:Hy; [rewrite elem_of_union, elem_of_singleton|].
  - split; [intros [[->|?]|[? ?]]; auto|]. intros [?|[[->|?] ?]]; auto.
  - split; [intros [?|[? ?]]; auto|]. intros [?|[[->|?] ?]]; auto. congruence.
Qed.

Lemma foldl_insert_all l (c : gset string) : foldl (λ c id, {[id]} ∪ c) c l = c ∪ list_to_set l.
Proof.
  revert c. induction l as [|y l IH]; intros c; cbn [foldl list_to_set]; [by rewrite (right_id_L ∅ (∪))|].
  rewrite IH. rewrite (assoc_L (∪)). by rewrite (comm_L (∪) c {[y]}).
Qed.

Lemma foldl_remove_all l (c : gset string) : foldl (λ c id, c ∖ {[id]}) c l = c ∖ list_to_set l.
Proof.
  revert c. induction l as [|y l IH]; intros c; cbn [foldl list_to_set]; [by rewrite difference_empty_L|].
  rewrite IH. by rewrite difference_difference_l_L.
Qed.

Lemma set_iter_list (u : gset string) : list_to_set (set_iter u) = u.
Proof. apply set_eq. intros x. rewrite elem_of_list_to_set. apply set_iter_elem. Qed.

Lemma set_len_mono (a b : gset string) : a ⊆ b → set_len a ≤ set_len b.
Proof. intros Hs%subseteq_size. unfold set_len. lia. Qed.

Lemma computes_query {A} (m : ST Token Error A) a c : computes no_error m a c → computes panics (lift_query m) a c.
Proof.
  intros [H1 H2 H3]. unfold lift_query. split.
  - intros t t' x. destruct (m t) as [t1 [y|e]] eqn:Hm; [|done]. intros [= <- <-]. by eapply H1.
  - intros t t' e. destruct (m t) as [t1 [y|e']] eqn:Hm; [done|]. intros [= <- <-]. done.
  - intros Hc. by rewrite H3.
Qed.

Lemma computes_source {A} (m : ST Token ReadFailure A) a c : computes (λ _, False) m a c → computes panics (lift_source m) a c.
Proof.
  intros [H1 H2 H3]. unfold lift_source. split.
  - intros t t' x. destruct (m t) as [t1 [y|e]] eqn:Hm; [|done]. intros [= <- <-]. by eapply H1.
  - intros t t' e. destruct (m t) as [t1 [y|e']] eqn:Hm; [done|]. intros [= <- <-]. done.
  - intros Hc. by rewrite H3.
Qed.

Lemma computes_halt_check c : computes panics check_query tt c.
Proof. apply computes_query, computes_check. auto. Qed.

(** A checked pure result. *)
Lemma computes_pure {A} (r : Result A) a (c : Prop) :
  (∀ x, r = Ok x → x = a) → (c → r = Ok a) → computes no_error (st_lift r) a c.
Proof. intros H1 H2. apply computes_lift; auto. Qed.

(** A failure computes anything that is not promised. *)
Lemma computes_error {A} (e : Error) (a : A) (c : Prop) : ¬ c → computes no_error (st_lift (Err e)) a c.
Proof. intros Hc. split; [done|auto|done]. Qed.

Lemma computes_size size limit (c : Prop) : (c → size ≤ limit) → computes no_error (st_lift (check_size size limit)) tt c.
Proof.
  intros Hc. apply computes_pure; [by intros []|]. intros Hl%Hc. unfold check_size. apply N.ltb_ge in Hl. by rewrite Hl.
Qed.

Ltac checked := apply (computes_bind _ _ _ tt); [by (apply computes_halt_check || (apply computes_check; auto))|].

Lemma select_ids_computes universe matched (f : string → bool) c :
  (∀ id, id ∈ universe → computes panics (matched id) (f id) c) →
  computes panics (select_ids universe matched) (filter (λ id, f id = true) universe) c.
Proof.
  intros Hm. eapply computes_weaken; [apply (computes_fold _ _ (λ sel id, if f id then {[id]} ∪ sel else sel))| |done].
  - intros l1 id l2 Hl. apply (computes_bind _ _ _ (f id)); [|apply computes_ret]. apply Hm, set_iter_elem. rewrite Hl. set_solver.
  - apply set_eq. intros x. rewrite foldl_insert_elem, elem_of_filter, set_iter_elem. set_solver.
Qed.

Lemma complement_computes universe excluded c :
  computes no_error (complement universe excluded) (universe ∖ excluded) c.
Proof.
  unfold complement. destruct (set_len excluded <=? set_len universe / 2).
  - eapply computes_weaken; [apply (computes_fold _ _ (λ c id, c ∖ {[id]}))| |done].
    + intros l1 id l2 _. checked. apply computes_ret.
    + by rewrite foldl_remove_all, set_iter_list.
  - eapply computes_weaken; [apply (computes_fold _ _ (λ c id, if negb (bool_decide (id ∈ excluded)) then {[id]} ∪ c else c))| |done].
    + intros l1 id l2 _. checked. eapply computes_weaken; [apply computes_ret| |done]. by case_bool_decide.
    + apply set_eq. intros x. rewrite foldl_insert_elem, set_iter_elem, negb_true_iff, bool_decide_eq_false. set_solver.
Qed.

Lemma add_ids_computes universe (whole : bool) cap candidates ids :
  candidates ⊆ universe → (whole = true → ids ⊆ universe) →
  computes no_error (add_ids universe whole cap candidates ids) (candidates ∪ (ids ∩ universe)) (set_len universe ≤ cap).
Proof.
  intros Hc Hw. unfold add_ids. destruct whole.
  - apply (computes_bind _ _ _ tt); [apply computes_size; lia|]. specialize (Hw eq_refl).
    apply (computes_bind _ _ _ (candidates ∪ ids)).
    + destruct (set_len candidates <? set_len ids).
      * eapply computes_weaken; [apply (computes_fold _ _ (λ c id, {[id]} ∪ c))| |done].
        -- intros l1 id l2 _. checked. apply computes_ret.
        -- rewrite foldl_insert_all, set_iter_list. set_solver.
      * eapply computes_weaken; [apply (computes_fold _ _ (λ c id, {[id]} ∪ c))| |done].
        -- intros l1 id l2 _. checked. apply computes_ret.
        -- by rewrite foldl_insert_all, set_iter_list.
    + apply (computes_bind _ _ _ tt).
      * apply computes_size. intros Hs. etrans; [apply (set_len_mono _ universe)|done]. set_solver.
      * eapply computes_weaken; [apply computes_ret| |done]. set_solver.
  - assert (Hlist : ∀ shorter longer, shorter ∩ longer = ids ∩ universe →
      computes no_error (st_fold (λ c id, check_token;; if bool_decide (id ∈ longer) then st_lift (check_size (set_len ({[id]} ∪ c)) cap);; mret ({[id]} ∪ c) else mret c)
        candidates (set_iter shorter)) (candidates ∪ (ids ∩ universe)) (set_len universe ≤ cap)).
    { intros shorter longer Hsl.
      eapply computes_weaken; [apply (computes_fold _ _ (λ c id, if bool_decide (id ∈ longer) then {[id]} ∪ c else c))| |done].
      - intros l1 id l2 Hl. checked. case_bool_decide as Hin; [|apply computes_ret].
        apply (computes_bind _ _ _ tt); [|apply computes_ret]. apply computes_size. intros Hs. etrans; [apply (set_len_mono _ universe)|done].
        intros x [->%elem_of_singleton|[Hx|[Hx Hx']]%(foldl_insert_elem (λ id, bool_decide (id ∈ longer)))]%elem_of_union.
        + assert (id ∈ shorter) by (apply set_iter_elem; rewrite Hl; set_solver). set_solver.
        + set_solver.
        + apply bool_decide_eq_true in Hx'. assert (x ∈ shorter) by (apply set_iter_elem; rewrite Hl; set_solver). set_solver.
      - apply set_eq. intros x. rewrite foldl_insert_elem, set_iter_elem, bool_decide_eq_true. set_solver. }
    destruct (set_len ids <=? set_len universe); apply Hlist; set_solver.
Qed.

(** ** What the postings of a key are *)

Section keys.
Context `{Decimals}.

Definition kind_tag (kind : ScalarType) : N :=
  match kind with SBoolean => 2 | SNumber | SNumberArray | SDecimal => 3 | SString | SStringArray => 4 end.

Lemma scalar_tag v kind x : scalar (Some v) (Some kind) = Ok x → x ≠ KNull → tag x = kind_tag kind.
Proof.
  unfold scalar. destruct (is_null v); [by intros [= <-]|].
  destruct kind, v; try done; try (intros [= <-]; done); intros (n & _ & ->)%fmap_Ok; done.
Qed.

Lemma scalar_null v kind x : scalar (Some v) kind = Ok x → x = KNull ↔ v = VNull.
Proof.
  unfold scalar. destruct v; cbn [is_null]; try (intros [= <-]; done);
    destruct kind as [[]|]; try done; try (intros [= <-]; done); intros (n & _ & ->)%fmap_Ok; done.
Qed.

(** The keys of a value of a type that is not an array. *)
Lemma plain_keys v kind keys :
  is_array_kind kind = false → indexed_values v kind = Ok keys → ∃ x, keys = [x] ∧ scalar v (Some kind) = Ok x.
Proof. unfold indexed_values. intros ->. intros (x & Hx & [= <-])%bind_Ok. eauto. Qed.

Lemma plain_equals v w kind keys x :
  is_array_kind kind = false → indexed_values v kind = Ok keys → scalar (Some w) (Some kind) = Ok x →
  x ∈ keys ↔ equals (Some kind) v w = true.
Proof.
  intros Hk (y & -> & Hy)%plain_keys Hx; [|done]. rewrite list_elem_of_singleton. unfold equals. destruct v as [a|].
  - rewrite Hy, Hx, bool_decide_eq_true. naive_solver.
  - injection Hy as <-. apply scalar_present in Hx. naive_solver.
Qed.

Lemma element_keys kind l keys :
  try_map (element_scalar kind) l = Ok keys → Forall2 (λ e x, scalar (Some e) (Some kind) = Ok x ∧ x ≠ KNull) l keys.
Proof.
  intros Hl%try_map_Ok. eapply Forall2_impl; [exact Hl|]. cbn beta. unfold element_scalar. intros e x.
  destruct (is_null e) eqn:He; [done|]. intros Hx. split; [done|]. intros Hn. apply (scalar_null _ _ _ Hx) in Hn as ->. done.
Qed.

Lemma array_keys a kind keys :
  is_array_kind kind = true → indexed_values (Some a) kind = Ok keys →
  (a = VNull ∧ keys = [KNull]) ∨
  ∃ l, a = VArray l ∧ Forall2 (λ e x, scalar (Some e) (Some kind) = Ok x ∧ x ≠ KNull) l keys.
Proof.
  unfold indexed_values. intros ->. destruct a; try done; [by intros [= <-]; left|].
  destruct (4096 <? len l); [done|]. intros Hk%element_keys. right. eauto.
Qed.

Lemma array_null v kind keys :
  is_array_kind kind = true → indexed_values v kind = Ok keys → KNull ∈ keys ↔ equals (Some kind) v VNull = true.
Proof.
  intros Hk Hv. destruct v as [a|].
  - destruct (array_keys a kind keys Hk Hv) as [[-> ->]|(l & -> & Hl)].
    { rewrite list_elem_of_singleton. split; [intros _; by apply bool_decide_eq_true|done]. }
    cbn [equals]. assert (Hs : scalar (Some (VArray l)) (Some kind) = mismatch) by (by destruct kind).
    rewrite Hs. split; [|done]. intros Hin. apply list_elem_of_lookup in Hin as [j Hj].
    destruct (Forall2_lookup_r _ _ _ _ _ Hl Hj) as (e & _ & _ & ?). done.
  - revert Hv. unfold indexed_values. rewrite Hk. intros [= <-]. split; [|done]. by intros ?%list_elem_of_singleton.
Qed.

Lemma array_contains v w kind keys x :
  is_array_kind kind = true → indexed_values v kind = Ok keys → is_null w = false → scalar (Some w) (Some kind) = Ok x →
  x ∈ keys ↔ contains_value (Some kind) v w = true.
Proof.
  intros Hk Hv Hw Hx. assert (Hn : x ≠ KNull) by (intros Hn; apply (scalar_null _ _ _ Hx) in Hn as ->; done).
  destruct v as [a|].
  - destruct (array_keys a kind keys Hk Hv) as [[-> ->]|(l & -> & Hl)]; [by rewrite list_elem_of_singleton|].
    cbn [contains_value]. clear Hv. induction Hl as [|e y l keys [He Hy] _ IH]; [cbn; rewrite elem_of_nil; done|].
    rewrite elem_of_cons, IH. cbn [existsb]. rewrite orb_true_iff. unfold equals at 2. rewrite He, Hx, bool_decide_eq_true. naive_solver.
  - revert Hv. unfold indexed_values. rewrite Hk. intros [= <-]. cbn. rewrite list_elem_of_singleton.
    apply scalar_present in Hx. naive_solver.
Qed.
End keys.

(** ** Ranges *)

Section ranges.
Context `{Decimals}.

Lemma bounds_present path kind lower upper :
  validate_test path (TRange lower upper) (Some kind) = Ok tt →
  is_array_kind kind = false ∧
  ∀ v, v ∈ bound_values lower upper → ∃ x, scalar (Some v) (Some kind) = Ok x ∧ x ≠ KNull.
Proof.
  cbn [validate_test]. destruct (is_array_kind kind); [done|]. intros (first & Hf & _)%bind_Ok. split; [done|].
  revert Hf. generalize (@None Scalar). induction (bound_values lower upper) as [|w l IH]; intros o Hf v; [by intros ?%elem_of_nil|].
  rewrite try_fold_cons in Hf. apply bind_Ok in Hf as (o' & Hb & Hf). intros [->|Hin]%elem_of_cons; [|by apply (IH o')].
  apply bind_Ok in Hb as (x & Hx & Hb). exists x. split; [done|]. revert Hb. by case_bool_decide.
Qed.

Lemma index_range_present kind lower upper :
  (∀ v, v ∈ bound_values lower upper → ∃ x, scalar (Some v) (Some kind) = Ok x ∧ x ≠ KNull) →
  ∃ range, index_range lower upper (Some kind) = Ok range.
Proof.
  intros Hb. unfold index_range.
  assert (Hs : ∀ b, (∀ v, v ∈ option_list (bound_value b) → ∃ x, scalar (Some v) (Some kind) = Ok x ∧ x ≠ KNull) →
    ∃ sb, scalar_bound b (Some kind) = Ok sb).
  { intros [v|v|] Hx; [destruct (Hx v) as (x & Hx' & _); [by apply list_elem_of_singleton|]..|]; cbn [scalar_bound]; rewrite ?Hx'; eauto. }
  destruct (Hs lower) as [sl ->]; [intros v Hx; apply Hb, elem_of_app; by left|].
  destruct (Hs upper) as [su ->]; [intros v Hx; apply Hb, elem_of_app; by right|]. eauto.
Qed.

Lemma bound_tag b kind sb y :
  (∀ v, v ∈ option_list (bound_value b) → ∃ x, scalar (Some v) (Some kind) = Ok x ∧ x ≠ KNull) →
  scalar_bound b (Some kind) = Ok sb → tag y = kind_tag kind → bound_differs sb y = false.
Proof.
  intros Hb Hs Hy. unfold bound_differs. destruct b as [v|v|]; cbn [scalar_bound] in Hs; [| |by injection Hs as <-];
    apply fmap_Ok in Hs as (x & Hx & ->); cbn [bound_value]; unfold same_discriminant;
    (destruct (Hb v) as (x' & Hx' & Hn); [by apply list_elem_of_singleton|]); rewrite Hx in Hx'; injection Hx' as <-;
    rewrite (scalar_tag v kind x Hx Hn), Hy, N.eqb_refl; done.
Qed.

Lemma null_before y : 1 < tag y → scalar_ltb KNull y = true.
Proof.
  intros Hy. unfold scalar_ltb, scalar_leb. apply andb_true_iff. split.
  - apply bool_decide_eq_true. destruct y; cbn in *; lia.
  - apply negb_true_iff, bool_decide_eq_false. intros <-. cbn in Hy. lia.
Qed.

(** A key of the index is in the range of a test, and is not null or missing,
    exactly when the values with that key pass the test. *)
Lemma range_key_holds path kind lower upper range v y :
  validate_test path (TRange lower upper) (Some kind) = Ok tt → index_range lower upper (Some kind) = Ok range →
  scalar v (Some kind) = Ok y →
  negb (unordered y) && range_contains range.1 range.2 y = test_holds (Some kind) v (TRange lower upper).
Proof.
  intros [Hk Hb]%bounds_present (sl & Hl & (su & Hu & [= <-])%bind_Ok)%bind_Ok Hy. unfold unordered. cbn [test_holds fst snd].
  destruct v as [a|]; [|injection Hy as <-; by rewrite bool_decide_true]. unfold orderable. rewrite Hy.
  rewrite (bool_decide_false (y = KMissing)) by (by apply scalar_present in Hy as []). cbn [orb].
  case_bool_decide as Hn; [done|]. cbn [negb andb]. pose proof (scalar_tag a kind y Hy Hn) as Ht.
  assert (Hdl : bound_differs sl y = false) by (eapply bound_tag; [|done|done]; intros v Hv; apply Hb; apply elem_of_app; by left).
  assert (Hdu : bound_differs su y = false) by (eapply bound_tag; [|done|done]; intros v Hv; apply Hb; apply elem_of_app; by right).
  rewrite <-(bound_evaluates (Some kind) a lower sl y _ _ Hl Hy Hn), <-(bound_evaluates (Some kind) a upper su y _ _ Hu Hy Hn), Hdl, Hdu.
  unfold range_contains. cbn [negb andb]. f_equal. destruct sl; cbn [above]; [done..|].
  apply null_before. rewrite Ht. by destruct kind.
Qed.

Lemma scalar_ltb_spec x y : scalar_ltb x y = true ↔ scalar_le x y ∧ x ≠ y.
Proof. unfold scalar_ltb, scalar_leb. by rewrite andb_true_iff, negb_true_iff, bool_decide_eq_true, bool_decide_eq_false. Qed.

Lemma empty_range_contains range y : empty_range range = true → range_contains range.1 range.2 y = false.
Proof.
  intros He. apply not_true_iff_false. unfold range_contains. rewrite andb_true_iff. intros [Ha Hb].
  destruct range as [[l|l|] [u|u|]]; cbn [empty_range fst snd above below] in *; try done;
    rewrite ?scalar_ltb_spec in *; unfold scalar_leb in *; rewrite ?bool_decide_eq_true in *;
    repeat match goal with Hx : _ ∧ _ |- _ => destruct Hx end.
  - assert (scalar_le l u) by (by transitivity y). by assert (u = l) by (by apply (anti_symm scalar_le)).
  - assert (scalar_le y l) by (by transitivity u). assert (y = l) by (by apply (anti_symm scalar_le)). subst.
    by assert (l = u) by (by apply (anti_symm scalar_le)).
  - assert (scalar_le y l) by (by transitivity u). by assert (l = y) by (by apply (anti_symm scalar_le)).
  - assert (scalar_le y l) by (by transitivity u). by assert (l = y) by (by apply (anti_symm scalar_le)).
Qed.
End ranges.

(** ** One index selects what its test means *)

Lemma foldl_union_elem {A} (F : A → gset string) l c x :
  x ∈ foldl (λ c k, c ∪ F k) c l ↔ x ∈ c ∨ ∃ k, k ∈ l ∧ x ∈ F k.
Proof.
  revert c. induction l as [|k l IH]; intros c; cbn [foldl].
  - split; [auto|]. intros [?|(k & Hk%elem_of_nil & _)]; done.
  - rewrite IH, elem_of_union. setoid_rewrite elem_of_cons. split.
    + intros [[?|?]|(k' & ? & ?)]; eauto.
    + intros [?|(k' & [->|?] & ?)]; eauto.
Qed.

Lemma foldl_union_subset {A} (F : A → gset string) l c (u : gset string) :
  c ⊆ u → (∀ k, F k ⊆ u) → foldl (λ c k, c ∪ F k) c l ⊆ u.
Proof. intros Hc HF x [?|(k & _ & ?)]%foldl_union_elem; [by apply Hc|by eapply HF]. Qed.

Lemma size_list_to_set_le {A} `{Countable A} (l : list A) : (size (list_to_set l : gset A) ≤ length l)%nat.
Proof.
  induction l as [|x l IH]; [done|]. cbn [list_to_set length]. rewrite size_union_alt, size_singleton.
  assert (size ((list_to_set l : gset A) ∖ {[x]}) ≤ size (list_to_set l : gset A))%nat by (apply subseteq_size; set_solver). lia.
Qed.

Lemma zip_split {A} (l : list A) l1 x l2 :
  zip (seq 0 (length l)) l = l1 ++ x :: l2 → x.1 = length l1 ∧ (length l1 < length l)%nat ∧ l !! length l1 = Some x.2.
Proof.
  intros Hz. assert (Hx : zip (seq 0 (length l)) l !! length l1 = Some x) by (rewrite Hz; by apply list_lookup_middle).
  apply lookup_zip_with_Some in Hx as (n & y & -> & [Hn Hlt]%lookup_seq & Hy). cbn. split; [lia|]. split; [lia|done].
Qed.

Lemma zip_elem {A} (l : list A) (y : A) : (∃ n, (n, y) ∈ zip (seq 0 (length l)) l) ↔ y ∈ l.
Proof.
  split.
  - intros [n [j Hj]%list_elem_of_lookup]. apply lookup_zip_with_Some in Hj as (n' & y' & [= <- <-] & _ & Hy). by eapply list_elem_of_lookup_2.
  - intros [j Hj]%list_elem_of_lookup. exists j. apply list_elem_of_lookup. exists j. apply lookup_zip_with_Some. exists j, y.
    split; [done|]. split; [|done]. apply lookup_seq. apply lookup_lt_Some in Hj. lia.
Qed.

Section one_index.
Context `{Decimals} (R : gmap string SourceRecord) (path : string) (kind : ScalarType) (i : FieldIndex).
Hypothesis exact_index : field_exact R path kind i.

(** What a test means for the record of an identifier. *)
Definition test_on (t : FilterTest) (id : string) : bool :=
  match R !! id with Some r => test_holds (Some kind) (record_value r path) t | None => false end.

Abbreviation ids_of key := (default (∅ : gset string) (fi_entries i !! key)).

Lemma postings_test key t :
  (∀ v keys, indexed_values v kind = Ok keys → key ∈ keys ↔ test_holds (Some kind) v t = true) →
  ∀ id, id ∈ ids_of key ↔ test_on t id = true.
Proof.
  intros Ht id. rewrite (fe_entries _ _ _ _ exact_index). unfold test_on. split.
  - intros (r & -> & keys & Hk & Hin). by apply (Ht _ keys).
  - destruct (R !! id) as [r|] eqn:Hr; [|done]. intros Hh. destruct (fe_typed _ _ _ _ exact_index id r Hr) as [keys Hk].
    exists r. split; [done|]. exists keys. split; [done|]. by apply (Ht (record_value r path)).
Qed.

Lemma ids_of_dom key : ids_of key ⊆ dom R.
Proof. intros id (r & Hr & _)%(fe_entries _ _ _ _ exact_index). by apply elem_of_dom_2 in Hr. Qed.

Lemma entries_bound : is_array_kind kind = false → N.of_nat (size (fi_entries i)) ≤ set_len (dom R).
Proof.
  intros Hk. set (key_of := λ id, match R !! id with Some r => match scalar (record_value r path) (Some kind) with Ok x => x | Err _ => KMissing end | None => KMissing end).
  assert (Hsub : dom (fi_entries i) ⊆ (list_to_set (key_of <$> elements (dom R)) : gset Scalar)).
  { intros key [ids Hids]%elem_of_dom.
    assert (Hne : ids ≠ ∅) by (intros ->; by apply (fe_nonempty _ _ _ _ exact_index key)).
    apply set_choose_L in Hne as [id Hid]. assert (Hp : id ∈ ids_of key) by (by rewrite Hids).
    apply (fe_entries _ _ _ _ exact_index) in Hp as (r & Hr & keys & Hkeys & Hin).
    apply plain_keys in Hkeys as (x & -> & Hx); [|done]. apply list_elem_of_singleton in Hin as ->.
    apply elem_of_list_to_set, list_elem_of_fmap. exists id. split; [unfold key_of; by rewrite Hr, Hx|].
    apply elem_of_elements, elem_of_dom. eauto. }
  apply subseteq_size in Hsub. rewrite size_dom in Hsub. pose proof (size_list_to_set_le (key_of <$> elements (dom R))) as Hl.
  rewrite length_fmap in Hl. unfold set_len, size at 2, set_size. cbn. lia.
Qed.

Context (universe : gset string) (whole : bool) (cap : N).
Hypothesis universe_dom : universe ⊆ dom R.
Hypothesis whole_dom : whole = true → universe = dom R.

Lemma ids_of_whole key : whole = true → ids_of key ⊆ universe.
Proof. intros ->%whole_dom. apply ids_of_dom. Qed.

Lemma key_computes key c :
  c ⊆ universe →
  computes no_error (match fi_entries i !! key with Some ids => add_ids universe whole cap c ids | None => mret c end)
    (c ∪ (ids_of key ∩ universe)) (set_len universe ≤ cap).
Proof.
  intros Hc. pose proof (ids_of_whole key) as Hw. destruct (fi_entries i !! key) as [ids|]; cbn in *.
  - by apply add_ids_computes.
  - eapply computes_weaken; [apply computes_ret| |done]. set_solver.
Qed.

Lemma single_key key t :
  (∀ v keys, indexed_values v kind = Ok keys → key ∈ keys ↔ test_holds (Some kind) v t = true) →
  computes no_error (match fi_entries i !! key with Some ids => add_ids universe whole cap ∅ ids | None => mret ∅ end)
    (filter (λ id, test_on t id = true) universe) (set_len universe ≤ cap).
Proof.
  intros Ht. eapply computes_weaken; [apply key_computes; set_solver| |done]. apply set_eq. intros id.
  rewrite elem_of_filter, <-(postings_test key t Ht). set_solver.
Qed.

Lemma exists_computes b :
  computes no_error (field_candidates i (TExists b) universe whole cap) (filter (λ id, test_on (TExists b) id = true) universe)
    (set_len universe ≤ cap).
Proof.
  assert (Hp : ∀ id, id ∈ universe → test_on (TExists b) id = Bool.eqb (bool_decide (id ∈ fi_present i)) b).
  { intros id [r Hr]%universe_dom%elem_of_dom. unfold test_on. rewrite Hr. cbn [test_holds]. f_equal. symmetry.
    assert (Hx : id ∈ fi_present i ↔ is_Some (record_value r path)).
    { rewrite (fe_present _ _ _ _ exact_index). split; [intros (r' & Hr' & ?); congruence|eauto]. }
    destruct (record_value r path); cbn [is_some]; [apply bool_decide_eq_true, Hx; eauto|].
    apply bool_decide_eq_false. rewrite Hx. by intros []. }
  assert (Hpres : fi_present i ⊆ dom R).
  { intros id (r & Hr & _)%(fe_present _ _ _ _ exact_index). by apply elem_of_dom_2 in Hr. }
  cbn [field_candidates]. destruct b; [|destruct whole eqn:Hwhole].
  - eapply computes_weaken; [apply add_ids_computes; [set_solver|]| |done].
    + intros ->%whole_dom. done.
    + apply set_eq. intros id. rewrite elem_of_filter, elem_of_union, elem_of_intersection. split.
      * intros [?%elem_of_empty|[? ?]]; [done|]. split; [|done]. rewrite Hp by done. by rewrite bool_decide_true.
      * intros [Ht Hu]. right. split; [|done]. rewrite Hp in Ht by done. by case_bool_decide.
  - apply (computes_bind _ _ _ (universe ∖ fi_present i)); [apply complement_computes|].
    apply (computes_bind _ _ _ tt); [apply computes_size; intros Hs; etrans; [apply (set_len_mono _ universe); set_solver|done]|].
    eapply computes_weaken; [apply computes_ret| |done]. apply set_eq. intros id. rewrite elem_of_filter, elem_of_difference. split.
    + intros [? ?]. split; [|done]. rewrite Hp by done. by rewrite bool_decide_false.
    + intros [Ht Hu]. split; [done|]. rewrite Hp in Ht by done. by case_bool_decide.
  - eapply computes_weaken; [apply (computes_fold _ _ (λ c id, if negb (bool_decide (id ∈ fi_present i)) then {[id]} ∪ c else c))| |done].
    + intros l1 id l2 Hl. checked. case_bool_decide; [apply computes_ret|].
      apply (computes_bind _ _ _ tt); [|apply computes_ret]. apply computes_size. intros Hs. etrans; [apply (set_len_mono _ universe)|done].
      assert (Hin : ∀ x, x ∈ l1 ∨ x = id → x ∈ universe) by (intros x Hx; apply set_iter_elem; rewrite Hl; set_solver).
      intros x [->%elem_of_singleton|[?%elem_of_empty|[Hx _]]%(foldl_insert_elem (λ id, negb (bool_decide (id ∈ fi_present i))))]%elem_of_union; auto; done.
    + apply set_eq. intros id. rewrite foldl_insert_elem, elem_of_filter, set_iter_elem, negb_true_iff. split.
      * intros [?%elem_of_empty|[? Hb]]; [done|]. split; [|done]. rewrite Hp, Hb by done. done.
      * intros [Ht Hu]. right. split; [done|]. rewrite Hp in Ht by done. by case_bool_decide.
Qed.

Lemma in_computes values :
  validate_test path (TIn values) (Some kind) = Ok tt →
  computes no_error (field_candidates i (TIn values) universe whole cap) (filter (λ id, test_on (TIn values) id = true) universe)
    (set_len universe ≤ cap).
Proof.
  cbn [validate_test]. destruct (is_array_kind kind) eqn:Hk; [done|]. rewrite try_for_each_Ok. intros Hv.
  assert (Hkeys : Forall (λ v, ∃ x, scalar (Some v) (Some kind) = Ok x) values).
  { apply Forall_forall. intros v (x & Hx & _)%Hv%bind_Ok. eauto. }
  set (put := λ (keys : gset Scalar) v, match scalar (Some v) (Some kind) with Ok x => {[x]} ∪ keys | Err _ => keys end).
  assert (Hput : ∀ l (keys : gset Scalar) x, x ∈ foldl put keys l ↔ x ∈ keys ∨ ∃ v, v ∈ l ∧ scalar (Some v) (Some kind) = Ok x).
  { induction l as [|v l IH]; intros keys x; cbn [foldl].
    - split; [auto|]. intros [?|(v & Hin%elem_of_nil & _)]; done.
    - rewrite IH. setoid_rewrite elem_of_cons. unfold put. destruct (scalar (Some v) (Some kind)) as [y|] eqn:Hy.
      + rewrite elem_of_union, elem_of_singleton. split.
        * intros [[->|?]|(w & ? & ?)]; eauto.
        * intros [?|(w & [->|?] & Hw)]; [auto| |eauto]. rewrite Hy in Hw. injection Hw as ->. auto.
      + split; [intros [?|(w & ? & ?)]; eauto|]. intros [?|(w & [->|?] & Hw)]; [auto|congruence|eauto]. }
  cbn [field_candidates]. rewrite (fe_kind _ _ _ _ exact_index).
  apply (computes_bind _ _ _ (foldl put ∅ values)).
  - apply computes_fold. intros l1 v l2 Hl. checked. subst values. apply Forall_app in Hkeys as [_ [[x Hx] _]%Forall_cons].
    apply (computes_bind _ _ _ x); [apply computes_pure; [congruence|done]|]. eapply computes_weaken; [apply computes_ret| |done].
    generalize (foldl put ∅ l1). intros keys. unfold put. by rewrite Hx.
  - eapply (computes_weaken _ _ _ _ (set_len universe ≤ cap)); [apply (computes_fold _ _ (λ c key, c ∪ (default ∅ (fi_entries i !! key) ∩ universe)))| |done].
    + intros l1 key l2 _. checked. apply key_computes. apply foldl_union_subset; set_solver.
    + assert (Ht : ∀ v x, scalar (Some v) (Some kind) = Ok x → ∀ id, id ∈ default ∅ (fi_entries i !! x) ↔ test_on (TEq v) id = true).
      { intros v x Hx. apply postings_test. intros w keys Hw. by apply (plain_equals w v kind keys x). }
      assert (Hin : ∀ id, test_on (TIn values) id = true ↔ ∃ v, v ∈ values ∧ test_on (TEq v) id = true).
      { intros id. unfold test_on. destruct (R !! id) as [r|]; [|split; [done|by intros (v & _ & ?)]]. cbn [test_holds].
        rewrite existsb_exists. by setoid_rewrite list_elem_of_In. }
      apply set_eq. intros id. rewrite foldl_union_elem, elem_of_filter, Hin. setoid_rewrite set_iter_elem. setoid_rewrite Hput. split.
      * intros [?%elem_of_empty|(x & [?%elem_of_empty|(v & Hin' & Hx)] & [? ?]%elem_of_intersection)]; [done..|]. split; [|done].
        exists v. split; [done|]. by apply (Ht v x Hx).
      * intros [(v & Hin' & Hh) Hu]. right. rewrite Forall_forall in Hkeys. destruct (Hkeys v Hin') as [x Hx]. exists x.
        split; [eauto|]. apply elem_of_intersection. split; [by apply (Ht v x Hx)|done].
Qed.

Lemma range_postings lower upper range :
  validate_test path (TRange lower upper) (Some kind) = Ok tt → index_range lower upper (Some kind) = Ok range →
  ∀ id, test_on (TRange lower upper) id = true ↔
    ∃ key, id ∈ ids_of key ∧ unordered key = false ∧ range_contains range.1 range.2 key = true.
Proof.
  intros Hv Hr id. destruct (bounds_present path kind lower upper Hv) as [Hk _]. unfold test_on. destruct (R !! id) as [r|] eqn:Hid.
  - destruct (fe_typed _ _ _ _ exact_index id r Hid) as [keys Hkeys]. destruct (plain_keys _ _ _ Hk Hkeys) as (y & -> & Hy).
    rewrite <-(range_key_holds path kind lower upper range _ y Hv Hr Hy), andb_true_iff, negb_true_iff. split.
    + intros Hx. exists y. split; [|done]. apply (fe_entries _ _ _ _ exact_index). exists r. split; [done|]. exists [y]. split; [done|]. by left.
    + intros (key & (r' & Hr' & keys & Hk' & Hin)%(fe_entries _ _ _ _ exact_index) & Hx). rewrite Hid in Hr'. injection Hr' as <-.
      rewrite Hkeys in Hk'. injection Hk' as <-. apply list_elem_of_singleton in Hin as ->. done.
  - split; [done|]. intros (key & (r' & Hr' & _)%(fe_entries _ _ _ _ exact_index) & _). congruence.
Qed.

Lemma range_computes lower upper :
  validate_test path (TRange lower upper) (Some kind) = Ok tt →
  computes no_error (field_candidates i (TRange lower upper) universe whole cap)
    (filter (λ id, test_on (TRange lower upper) id = true) universe) (set_len universe ≤ cap).
Proof.
  intros Hv. destruct (bounds_present path kind lower upper Hv) as [Hk Hb].
  destruct (index_range_present kind lower upper Hb) as [range Hr]. cbn [field_candidates]. rewrite (fe_kind _ _ _ _ exact_index).
  apply (computes_bind _ _ _ range); [apply computes_pure; [congruence|done]|].
  pose proof (range_postings lower upper range Hv Hr) as Hid.
  destruct (empty_range range) eqn:He.
  { eapply computes_weaken; [apply computes_ret| |done]. apply set_eq. intros id. rewrite elem_of_filter, Hid. split; [by intros ?%elem_of_empty|].
    intros [(key & _ & _ & Hc) _]. by rewrite (empty_range_contains range key He) in Hc. }
  set (entries := entries_range range (fi_entries i)).
  assert (Hlen : whole = true → N.of_nat (length entries) ≤ set_len universe).
  { intros Hw. rewrite (whole_dom Hw). etrans; [|by apply entries_bound]. unfold entries, entries_range.
    pose proof (length_filter (λ kv : Scalar * gset string, range_contains range.1 range.2 kv.1 = true) (map_iter (fi_entries i))).
    pose proof (map_iter_len (fi_entries i)) as Hl. unfold len in Hl. lia. }
  assert (Helem : ∀ key ids, (key, ids) ∈ entries ↔ fi_entries i !! key = Some ids ∧ range_contains range.1 range.2 key = true).
  { intros key ids. unfold entries, entries_range. rewrite list_elem_of_filter, elem_of_map_iter. cbn. tauto. }
  set (put := λ (c : gset string) (e : nat * (Scalar * gset string)), c ∪ (if unordered e.2.1 then ∅ else e.2.2 ∩ universe)).
  eapply (computes_weaken _ _ _ _ (set_len universe ≤ cap)); [apply (computes_fold _ _ put)| |done].
  - intros l1 [visited [key ids]] l2 (Hpos & Hlt & Hx)%zip_split. checked. cbn [fst snd] in *. apply (computes_bind _ _ _ tt).
    + destruct whole; [|apply computes_ret]. apply computes_size. specialize (Hlen eq_refl). lia.
    + unfold put at 3. cbn [fst snd]. destruct (unordered key).
      * eapply computes_weaken; [apply computes_ret| |done]. set_solver.
      * apply add_ids_computes; [apply foldl_union_subset; [set_solver|]|].
        -- intros [? [? ?]]. cbn. destruct (unordered _); set_solver.
        -- intros Hw. apply list_elem_of_lookup_2, Helem in Hx as [Hx _]. pose proof (ids_of_whole key Hw) as Hids. by rewrite Hx in Hids.
  - apply set_eq. intros id. unfold put. rewrite foldl_union_elem, elem_of_filter, Hid. split.
    + intros [?%elem_of_empty|([n [key ids]] & Hin & Hx)]; [done|]. cbn [fst snd] in Hx. destruct (unordered key) eqn:Hu; [by apply elem_of_empty in Hx|].
      apply elem_of_intersection in Hx as [Hids Huni]. split; [|done]. assert (He' : (key, ids) ∈ entries) by (apply zip_elem; eauto).
      apply Helem in He' as [Hl Hc]. exists key. by rewrite Hl.
    + intros [(key & Hids & Hu & Hc) Huni]. right. destruct (fi_entries i !! key) as [ids|] eqn:Hl; [|by apply elem_of_empty in Hids].
      assert (He' : (key, ids) ∈ entries) by (by apply Helem). apply zip_elem in He' as [n Hn]. exists (n, (key, ids)). split; [done|].
      cbn [fst snd]. rewrite Hu. by apply elem_of_intersection.
Qed.

Lemma field_candidates_computes t :
  validate_test path t (Some kind) = Ok tt →
  computes no_error (field_candidates i t universe whole cap) (filter (λ id, test_on t id = true) universe) (set_len universe ≤ cap).
Proof.
  intros Hv. destruct t as [v|values|lower upper|b|v]; [|by apply in_computes|by apply range_computes|apply exists_computes|];
    cbn [field_candidates]; rewrite (fe_kind _ _ _ _ exact_index); cbn [validate_test] in Hv.
  - destruct (is_array_kind kind) eqn:Hk.
    + destruct (is_null v) eqn:Hn; [|done]. destruct v; try done. apply (computes_bind _ _ _ KNull).
      { apply computes_pure; [by intros x [= <-]|done]. }
      apply (single_key KNull (TEq VNull)). intros w keys Hw. by apply array_null.
    + apply bind_Ok in Hv as (x & Hx & _). apply (computes_bind _ _ _ x); [apply computes_pure; [congruence|done]|].
      apply (single_key x (TEq v)). intros w keys Hw. by apply plain_equals.
  - destruct (is_array_kind kind) eqn:Hk; [|done]. cbn [is_some andb negb] in Hv. destruct (is_null v) eqn:Hn; [done|].
    apply bind_Ok in Hv as (x & Hx & _). apply (computes_bind _ _ _ x); [apply computes_pure; [congruence|done]|].
    apply (single_key x (TContains v)). intros w keys Hw. by apply array_contains.
Qed.
End one_index.

(** ** The engine *)

(** What a source promises of the view it is bound to: whatever it lends is the
    record of that view, and while it is available only cancellation stops it. *)
Class LendsView `{LendingSource} (R : gmap string SourceRecord) (available : Prop) : Prop := {
  loan_view : ∀ id, computes (λ _, False) (loan id) (R !! id) available;
  finish_view : ∀ id, computes (λ _, False) (finish id) tt available;
}.

(** Sets with one root have the same elements. *)
Class SharedRootsLaw `{SharedRoots} : Prop := { ptr_eq_same : ∀ a b, ptr_eq a b = true → a = b }.

Section engine.
Context `{Decimals} `{LendingSource} `{SharedRoots}.
Context (d : CollectionDefinition) (R : gmap string SourceRecord) (available : Prop) `{!LendsView R available} `{!SharedRootsLaw}.
Context (s : Structured) (allow_scan allow_index_reads : bool) (cap : N).
Hypothesis exact_indexes : exact d R s.
Hypothesis named : map_Forall names_record R.

Definition kinds_of (path : string) : option ScalarType := fi_kind <$> st_fields s !! path.

Definition node_on (n : FilterNode) (id : string) : bool :=
  match R !! id with Some r => node_holds kinds_of (record_value r) n | None => false end.

(** The identifiers of a universe whose records match. *)
Definition selected (n : FilterNode) (universe : gset string) : gset string := filter (λ id, node_on n id = true) universe.

Definition all_live : Prop := ∀ id r, R !! id = Some r → ∃ doc, r = LiveRecord doc.

(** What a selection needs to read: only scans need live documents. *)
Definition ready (n : FilterNode) : Prop := available ∧ (all_live ∨ each_leaf (λ path _, is_indexed s path = true) n).

Definition leaf_ok (path : string) (t : FilterTest) : Prop :=
  validate_pointer path = Ok tt ∧ (is_indexed s path = true ∨ allow_scan = true) ∧ validate_test path t (kinds_of path) = Ok tt.

Lemma field_of path i : st_fields s !! path = Some i → field_exact R path (fi_kind i) i.
Proof.
  intros Hi. pose proof (ex_fields _ _ _ exact_indexes path) as Hf. rewrite Hi in Hf. inversion Hf as [kind ? He Hk|]; subst.
  by rewrite (fe_kind _ _ _ _ He).
Qed.

Lemma field_kind_ok path t : leaf_ok path t → field_kind s path allow_scan = Ok (kinds_of path).
Proof.
  intros (Hp & Hi & _). unfold field_kind, kinds_of. rewrite Hp. unfold is_indexed in Hi.
  destruct (st_fields s !! path); [done|]. by destruct Hi as [?| ->].
Qed.

Lemma validate_leaves n : validate_node s allow_scan n = Ok tt → each_leaf leaf_ok n.
Proof.
  induction n as [|path t|l IH|l IH|n IH] using Node_induction; cbn [validate_node each_leaf]; [done| | | |done].
  - intros (kind & (u & Hp & Hk)%bind_Ok & Ht)%bind_Ok. destruct u. unfold leaf_ok, is_indexed, kinds_of.
    destruct (st_fields s !! path) as [i|]; [injection Hk as <-; auto|]. destruct allow_scan; [injection Hk as <-; auto|done].
  - rewrite try_for_each_Ok, foldr_and_Forall. rewrite !Forall_forall in *. auto.
  - rewrite try_for_each_Ok, foldr_and_Forall. rewrite !Forall_forall in *. auto.
Qed.

(** ** Validated tests prepare *)

Lemma scalar_bound_ok kind lower upper b path :
  validate_test path (TRange lower upper) kind = Ok tt → b = lower ∨ b = upper → ∃ sb, scalar_bound b kind = Ok sb.
Proof.
  cbn [validate_test]. destruct (match kind with Some k => is_array_kind k | None => false end); [done|].
  intros (first & Hf & _)%bind_Ok Hb.
  assert (Hv : ∀ v, v ∈ bound_values lower upper → ∃ x, scalar (Some v) kind = Ok x).
  { revert Hf. generalize (@None Scalar). induction (bound_values lower upper) as [|w l IH]; intros o Hf v; [by intros ?%elem_of_nil|].
    rewrite try_fold_cons in Hf. apply bind_Ok in Hf as (o' & (x & Hx & _)%bind_Ok & Hf).
    intros [->|Hin]%elem_of_cons; [eauto|by apply (IH o')]. }
  assert (Hin : ∀ v, bound_value b = Some v → v ∈ bound_values lower upper).
  { intros v Hb'. apply elem_of_app. destruct Hb as [<-|<-]; rewrite Hb'; [left|right]; by apply list_elem_of_singleton. }
  destruct b as [v|v|]; cbn [scalar_bound]; [destruct (Hv v (Hin v eq_refl)) as [x ->]; eauto..|eauto].
Qed.

Lemma prepare_test_ok path t kind : validate_test path t kind = Ok tt → ∃ p, prepare_test t kind = Ok p.
Proof.
  intros Hv. destruct t as [v|l|lower upper|b|v]; cbn [prepare_test].
  - cbn [validate_test] in Hv. destruct (_ && _); [done|]. apply bind_Ok in Hv as (x & -> & _). eauto.
  - cbn [validate_test] in Hv. destruct (match kind with Some k => is_array_kind k | None => false end); [done|].
    rewrite try_for_each_Ok in Hv. assert (Hx : ∃ xs, try_map (λ v, scalar (Some v) kind) l = Ok xs).
    { setoid_rewrite try_map_Ok. induction l as [|v l IH]; [by exists []|].
      pose proof (Hv v ltac:(by left)) as (x & Hx & _)%bind_Ok. destruct IH as [xs Hxs]; [intros w Hw; apply Hv; by right|].
      exists (x :: xs). by constructor. }
    destruct Hx as [xs ->]. eauto.
  - destruct (scalar_bound_ok kind lower upper lower path Hv) as [sl ->]; [auto|].
    destruct (scalar_bound_ok kind lower upper upper path Hv) as [su ->]; [auto|]. eauto.
  - eauto.
  - cbn [validate_test] in Hv. destruct (_ && _); [done|]. destruct (is_null v); [done|].
    apply bind_Ok in Hv as (x & -> & _). eauto.
Qed.

Lemma unindexed_kind path : is_indexed s path = false → kinds_of path = None.
Proof. unfold is_indexed, kinds_of. by destruct (st_fields s !! path). Qed.

Lemma prepare_list_ok (f : FilterNode → Result (option Scan)) l acc :
  Forall (λ n, ∃ o, f n = Ok o) l → ∃ o, prepare_list f acc l = Ok o.
Proof.
  intros Hl. revert acc. induction Hl as [|n l [o Ho] _ IH]; intros acc; cbn [prepare_list]; [eauto|].
  rewrite Ho, bind_Ok_l. destruct o; [apply IH|eauto].
Qed.

Lemma prepare_scan_ok n : each_leaf leaf_ok n → ∃ o, prepare_scan (is_indexed s) n = Ok o.
Proof.
  induction n as [|path t|l IH|l IH|n IH] using Node_induction; cbn [prepare_scan each_leaf]; [by eauto| | | |].
  - intros (_ & _ & Ht). destruct (is_indexed s path) eqn:Hi; cbn [negb]; [eauto|].
    rewrite (unindexed_kind path Hi) in Ht. destruct (prepare_test_ok path t None Ht) as [p ->]. eauto.
  - rewrite foldr_and_Forall. intros Hl. destruct (prepare_list_ok (prepare_scan (is_indexed s)) l []) as [o ->]; [|eauto].
    rewrite Forall_forall in *. auto.
  - rewrite foldr_and_Forall. intros Hl. destruct (prepare_list_ok (prepare_scan (is_indexed s)) l []) as [o ->]; [|eauto].
    rewrite Forall_forall in *. auto.
  - intros Hn. destruct (IH Hn) as [o ->]. eauto.
Qed.

(** A scan without indexed leaves reads a document only for an unindexed leaf. *)
Lemma has_leaf_unindexed n : ∀ sc,
  prepare_scan (is_indexed s) n = Ok (Some sc) → has_leaf sc = true → ¬ each_leaf (λ path _, is_indexed s path = true) n.
Proof.
  assert (Hlist : ∀ l, Forall (λ n, ∀ sc, prepare_scan (is_indexed s) n = Ok (Some sc) → has_leaf sc = true →
    ¬ each_leaf (λ path _, is_indexed s path = true) n) l → ∀ ss, prepare_list (prepare_scan (is_indexed s)) [] l = Ok (Some ss) →
    existsb has_leaf ss = true → ¬ Forall (each_leaf (λ path _, is_indexed s path = true)) l).
  { intros l Hl ss (zs & -> & Hz)%prepare_list_Ok (sc & Hin%list_elem_of_In & Hsc)%existsb_exists Hall. cbn [app] in Hin.
    apply list_elem_of_lookup in Hin as [j Hj]. destruct (Forall2_lookup_r _ _ _ _ _ Hz Hj) as (m & Hn & Hp).
    rewrite Forall_lookup in Hl, Hall. by apply (Hl j m Hn sc Hp Hsc), (Hall j). }
  induction n as [|path t|l IH|l IH|n IH] using Node_induction; intros sc Hs Hl; cbn [prepare_scan each_leaf] in *.
  - by injection Hs as <-.
  - destruct (is_indexed s path); [done|]. done.
  - apply bind_Ok in Hs as ([ss|] & Hss & [= <-]). rewrite foldr_and_Forall. by apply (Hlist l IH ss).
  - apply bind_Ok in Hs as ([ss|] & Hss & [= <-]). rewrite foldr_and_Forall. by apply (Hlist l IH ss).
  - apply bind_Ok in Hs as ([s'|] & Hs' & [= <-]). by apply (IH s').
Qed.

(** ** Estimates of validated plans exist *)

Lemma estimate_leaf_ok path t universe budget : leaf_ok path t → ∃ e, estimate_leaf s path t universe budget = Ok e.
Proof.
  intros (_ & _ & Hv). unfold estimate_leaf, kinds_of in *. destruct (st_fields s !! path) as [i|]; [|eauto]. cbn [fmap option_fmap option_map] in Hv.
  destruct t as [v|l|lower upper|[]|v].
  - cbn [validate_test] in Hv. destruct (_ && _); [done|]. apply bind_Ok in Hv as (x & -> & _). eauto.
  - cbn [validate_test] in Hv. destruct (is_array_kind _); [done|]. rewrite try_for_each_Ok in Hv.
    assert (Hf : ∀ f, (∀ total v, v ∈ l → ∃ n, f total v = Ok n) → ∃ e : option N, Some <$> try_fold (E := Error) f 0 l = Ok e).
    { intros f Hf. destruct (try_fold_ok f l 0 Hf) as [n ->]. eauto. }
    apply Hf. intros total v (x & -> & _)%Hv%bind_Ok. eauto.
  - destruct (bounds_present _ _ _ _ Hv) as [_ Hb]. destruct (index_range_present _ _ _ Hb) as [range ->]. rewrite bind_Ok_l.
    destruct (empty_range range); eauto.
  - eauto.
  - eauto.
  - cbn [validate_test] in Hv. destruct (_ && _); [done|]. destruct (is_null v); [done|]. apply bind_Ok in Hv as (x & -> & _). eauto.
Qed.

Lemma estimate_ok n universe budget : each_leaf leaf_ok n → ∃ e, estimate s universe budget n = Ok e.
Proof.
  induction n as [|path t|l IH|l IH|n IH] using Node_induction; cbn [estimate each_leaf]; [by eauto| | | |by eauto].
  - apply estimate_leaf_ok.
  - rewrite foldr_and_Forall. intros Hl. rewrite Forall_forall in IH, Hl. apply try_fold_ok. intros best n Hn.
    destruct (IH n Hn (Hl n Hn)) as [e ->]. eauto.
  - rewrite foldr_and_Forall. intros Hl. generalize 0. induction IH as [|n l Hn _ IHl]; intros total; cbn [estimate_alternatives]; [eauto|].
    apply Forall_cons in Hl as [Hx Hl]. destruct (Hn Hx) as [e ->]. rewrite bind_Ok_l. destruct e; [by apply IHl|eauto].
Qed.

(** ** The order of conjuncts is a permutation *)

Lemma rank_pass_ranks universe pass l acc acc' :
  rank_pass s universe pass acc l = Ok acc' →
  acc'.1.*2 = acc.1.*2 ++ (filter (λ x : nat * FilterNode, is_range x.2 = pass) l).*1.
Proof.
  revert acc. induction l as [|[position child] l IH]; intros [ranked budget]; unfold rank_pass.
  - rewrite try_fold_nil. intros [= <-]. cbn. by rewrite app_nil_r.
  - rewrite try_fold_cons. intros (acc1 & G1 & G2)%bind_Ok. apply IH in G2 as ->. destruct (Bool.eqb (is_range child) pass) eqn:Hp; cbn [negb] in G1.
    + apply bind_Ok in G1 as (e & _ & [= <-]). cbn [fst snd]. rewrite filter_cons_True by (by apply Bool.eqb_prop).
      rewrite !fmap_app, <-app_assoc. done.
    + injection G1 as <-. rewrite filter_cons_False; [done|]. cbn. intros Hx. by rewrite Hx, Bool.eqb_reflx in Hp.
Qed.

Lemma rank_pass_ok universe pass l acc :
  Forall (λ x : nat * FilterNode, each_leaf leaf_ok x.2) l → ∃ acc', rank_pass s universe pass acc l = Ok acc'.
Proof.
  intros Hl. rewrite Forall_forall in Hl. apply try_fold_ok. intros [ranked budget] [position child] Hn. destruct (negb _); [eauto|].
  destruct (estimate_ok child universe budget (Hl _ Hn)) as [e ->]. eauto.
Qed.

Lemma conjunct_order_positions l universe positions :
  conjunct_order s l universe = Ok positions → positions ≡ₚ seq 0 (length l).
Proof.
  unfold conjunct_order. intros (acc & G1%rank_pass_ranks & (acc' & G2%rank_pass_ranks & [= <-])%bind_Ok)%bind_Ok.
  rewrite merge_sort_Permutation, G2, G1. cbn [fst fmap list_fmap app]. rewrite <-fmap_app.
  assert (Hsplit : ∀ l' : list (nat * FilterNode), filter (λ x, is_range x.2 = false) l' ++ filter (λ x, is_range x.2 = true) l' ≡ₚ l').
  { induction l' as [|[p n] l' IH]; [done|]. destruct (is_range n) eqn:Hn.
    - rewrite filter_cons_False, (filter_cons_True (λ x : nat * FilterNode, is_range x.2 = true)) by (cbn; congruence). by rewrite <-Permutation_middle, IH.
    - rewrite filter_cons_True, (filter_cons_False (λ x : nat * FilterNode, is_range x.2 = true)) by (cbn; congruence). cbn. by rewrite IH. }
  rewrite Hsplit, fst_zip; [done|]. by rewrite length_seq.
Qed.

Lemma conjunct_order_ok l universe : Forall (each_leaf leaf_ok) l → ∃ positions, conjunct_order s l universe = Ok positions.
Proof.
  intros Hl. assert (Hz : Forall (λ x : nat * FilterNode, each_leaf leaf_ok x.2) (zip (seq 0 (length l)) l)).
  { apply Forall_forall. intros [p n] [j (p' & n' & [= <- <-] & _ & Hn)%lookup_zip_with_Some]%list_elem_of_lookup. rewrite Forall_lookup in Hl. eauto. }
  unfold conjunct_order. destruct (rank_pass_ok universe false _ ([], universe) Hz) as [acc ->]. rewrite bind_Ok_l.
  destruct (rank_pass_ok universe true _ acc Hz) as [acc' ->]. eauto.
Qed.

(** ** Loans compute *)

Lemma named_live id doc : R !! id = Some (LiveRecord doc) → d_id doc = id.
Proof.
  intros Hr. destruct (named id _ Hr) as [_ Hc]. cbn in Hc. by case_bool_decide.
Qed.

Lemma with_record_computes {A} id (lend : option SourceRecord → ST Token Error A) a c :
  (c → available) → computes no_error (lend (R !! id)) a c → computes panics (with_record id lend) a c.
Proof.
  intros Hc Hl. unfold with_record.
  apply (computes_bind _ _ _ (R !! id)); [eapply computes_weaken; [apply computes_source, loan_view|done|done]|].
  apply (computes_bind _ _ _ a); [by apply computes_query|].
  apply (computes_bind _ _ _ tt); [eapply computes_weaken; [apply computes_source, finish_view|done|done]|]. apply computes_ret.
Qed.

Lemma with_live_computes {A} id (lend : Document → ST Token Error A) a c :
  (∀ doc, R !! id = Some (LiveRecord doc) → computes no_error (lend doc) a c) →
  (c → available ∧ ∃ doc, R !! id = Some (LiveRecord doc)) → computes panics (with_live id lend) a c.
Proof.
  intros Hl Hc. unfold with_live. checked. apply (computes_bind _ _ _ a); [|checked; apply computes_ret].
  apply with_record_computes; [naive_solver|]. checked.
  destruct (R !! id) as [[doc|doc]|] eqn:Hr; try (apply computes_error; intros (_ & doc' & Hd)%Hc; congruence).
  rewrite bool_decide_true by (by apply named_live). by apply Hl.
Qed.

Lemma read_matches_computes path t p id r c :
  prepare_test t (kinds_of path) = Ok p → R !! id = Some r → (c → available) →
  computes panics (read_matches path p (kinds_of path) id) (test_holds (kinds_of path) (record_value r path) t) c.
Proof.
  intros Hp Hr Hc. apply with_record_computes; [done|]. checked. rewrite Hr.
  assert (Hn : match r with LiveRecord doc => negb (bool_decide (d_id doc = id)) | ArchivedRecord _ => false end = false).
  { destruct r as [doc|]; [|done]. by rewrite bool_decide_true by (by apply named_live). }
  rewrite Hn. by apply evaluate_test_computes.
Qed.

(** ** One leaf *)

Lemma leaf_candidates_computes path t universe :
  leaf_ok path t → universe ⊆ dom R →
  computes panics (leaf_candidates s allow_scan allow_index_reads cap path t universe) (selected (NLeaf path t) universe)
    (set_len universe ≤ cap ∧ ready (NLeaf path t)).
Proof.
  intros Hok Hu. unfold leaf_candidates.
  apply (computes_bind _ _ _ (kinds_of path)); [apply computes_query, computes_pure; rewrite (field_kind_ok path t Hok); congruence|].
  assert (Hdirect : ∃ b, reads_records s allow_index_reads path t (kinds_of path) universe = Ok b).
  { unfold reads_records. destruct (_ && _ && _ && _ && _); [|eauto].
    destruct (estimate_ok (NLeaf path t) (set_len (st_ids s)) (set_len universe) Hok) as [e ->]. eauto. }
  destruct Hdirect as [b Hb]. apply (computes_bind _ _ _ b); [apply computes_query, computes_pure; rewrite Hb; congruence|].
  destruct Hok as (Hp & Hi & Ht). destruct (prepare_test_ok path t (kinds_of path) Ht) as [p Hprep].
  assert (Hprepare : ∀ c, computes panics (lift_query (st_lift (prepare_test t (kinds_of path)))) p c).
  { intros c. apply computes_query, computes_pure; rewrite Hprep; congruence. }
  destruct b; [|destruct (st_fields s !! path) as [i|] eqn:Hf].
  - apply (computes_bind _ _ _ p); [apply Hprepare|]. apply select_ids_computes. intros id [r Hr]%Hu%elem_of_dom.
    unfold node_on. rewrite Hr. apply read_matches_computes; [done..|]. by intros [_ [? _]].
  - apply computes_query. assert (Hk : kinds_of path = Some (fi_kind i)) by (unfold kinds_of; by rewrite Hf). rewrite Hk in Ht.
    eapply (computes_weaken _ _ _ _ (set_len universe ≤ cap)); [|reflexivity|by intros []].
    assert (He : selected (NLeaf path t) universe = filter (λ id, test_on R path (fi_kind i) t id = true) universe).
    { unfold selected, node_on, test_on. cbn [node_holds]. by rewrite Hk. }
    rewrite He. apply field_candidates_computes; [by apply field_of|done| |done].
    intros Hw%ptr_eq_same. rewrite Hw. apply (ex_ids _ _ _ exact_indexes).
  - apply (computes_bind _ _ _ tt); [apply computes_query, computes_size; by intros []|]. apply (computes_bind _ _ _ p); [apply Hprepare|].
    apply select_ids_computes. intros id [r Hr]%Hu%elem_of_dom. apply with_live_computes.
    + intros doc Hd. unfold node_on. rewrite Hd. cbn [node_holds record_value]. rewrite <-pointer_equals_reference by done. by apply evaluate_test_computes.
    + intros (_ & Ha & [Hlive|Hidx]); [destruct (Hlive id r Hr) as [doc ->]; eauto|]. cbn in Hidx. unfold is_indexed in Hidx. by rewrite Hf in Hidx.
Qed.

(** ** Every plan *)

Abbreviation engine := (candidates s allow_scan allow_index_reads cap).

Definition computes_selection (n : FilterNode) : Prop := ∀ universe, each_leaf leaf_ok n → universe ⊆ dom R →
  computes panics (engine n universe) (selected n universe) (set_len universe ≤ cap ∧ ready n).

Lemma whole_scan_ok n : each_leaf leaf_ok n → ∃ o, whole_scan s allow_scan n = Ok o ∧
  ∀ sc, o = Some sc → prepare_scan (is_indexed s) n = Ok (Some sc) ∧ has_leaf sc = true.
Proof.
  intros Hn. unfold whole_scan. destruct (allow_scan && is_compound n); [|by eexists].
  destruct (prepare_scan_ok n Hn) as [o Ho]. rewrite Ho, bind_Ok_l. eexists. split; [done|]. intros sc.
  destruct o as [sc'|]; [|done]. destruct (has_leaf sc') eqn:Hl; [|done]. by intros [= <-].
Qed.

(** The scan of a compound node. *)
Lemma scan_selects n sc universe :
  prepare_scan (is_indexed s) n = Ok (Some sc) → has_leaf sc = true → each_leaf leaf_ok n → universe ⊆ dom R →
  computes panics (select_ids universe (λ id, with_live id (λ doc, evaluate_scan (body doc) sc))) (selected n universe)
    (set_len universe ≤ cap ∧ ready n).
Proof.
  intros Hp Hl Hok Hu. apply select_ids_computes. intros id [r Hr]%Hu%elem_of_dom. apply with_live_computes.
  - intros doc Hd. unfold node_on. rewrite Hd. apply (scan_computes (is_indexed s) kinds_of unindexed_kind (body doc) _ n sc Hp).
    clear -Hok. revert Hok. induction n as [|path t|l IH|l IH|n IH] using Node_induction; cbn [each_leaf]; [done|by intros []| | |done];
      rewrite !foldr_and_Forall, !Forall_forall in *; auto.
  - intros (_ & Ha & [Hlive|Hidx]); [destruct (Hlive id r Hr) as [doc ->]; eauto|]. by destruct (has_leaf_unindexed n sc Hp Hl).
Qed.

Lemma narrow_computes l universe positions survivors (c : Prop) :
  (∀ j n u, l !! j = Some n → u ⊆ universe → computes panics (engine n u) (selected n u) c) →
  (∀ j, j ∈ positions → (j < length l)%nat) → default universe survivors ⊆ universe →
  computes panics (narrow (engine <$> l) universe survivors positions)
    (filter (λ id, forallb (λ j, match l !! j with Some n => node_on n id | None => true end) positions = true) (default universe survivors)) c.
Proof.
  intros Hl. revert survivors. induction positions as [|j positions IH]; intros survivors Hj Hs; cbn [narrow].
  - eapply computes_weaken; [apply computes_ret| |done]. apply set_eq. intros id. rewrite elem_of_filter. cbn. tauto.
  - destruct (lookup_lt_is_Some_2 l j) as [n Hn]; [apply Hj; by left|]. rewrite list_lookup_fmap, Hn. cbn [fmap option_fmap option_map].
    apply (computes_bind _ _ _ (selected n (default universe survivors))); [by apply (Hl j)|].
    assert (Hstep : ∀ id, id ∈ filter (λ id, forallb (λ j, match l !! j with Some n => node_on n id | None => true end) (j :: positions) = true) (default universe survivors) ↔
      id ∈ filter (λ id, forallb (λ j, match l !! j with Some n => node_on n id | None => true end) positions = true) (selected n (default universe survivors))).
    { intros id. unfold selected. rewrite !elem_of_filter. cbn [forallb]. rewrite Hn, andb_true_iff. tauto. }
    case_bool_decide as He.
    + eapply computes_weaken; [apply computes_ret| |done]. rewrite He in Hstep |- *. apply set_eq. intros id. rewrite Hstep, elem_of_filter. set_solver.
    + eapply computes_weaken; [apply (IH (Some _)); [intros k Hk; apply Hj; by right|]| |done]; cbn [default from_option]; unfold id.
      * unfold selected. intros x [_ Hx]%elem_of_filter. by apply Hs.
      * apply set_eq. intros x. by rewrite Hstep.
Qed.

Lemma and_selects l universe :
  Forall computes_selection l → Forall (each_leaf leaf_ok) l → universe ⊆ dom R →
  computes panics (positions ← lift_query (st_lift (conjunct_order s l (set_len universe))); narrow (engine <$> l) universe None positions)
    (selected (NAnd l) universe) (set_len universe ≤ cap ∧ ready (NAnd l)).
Proof.
  intros Hl Hok Hu. destruct (conjunct_order_ok l (set_len universe) Hok) as [positions Ho].
  apply (computes_bind _ _ _ positions); [apply computes_query, computes_pure; rewrite Ho; congruence|].
  apply conjunct_order_positions in Ho. eapply (computes_weaken _ _ _ _ (set_len universe ≤ cap ∧ ready (NAnd l))); [apply narrow_computes| |done].
  - intros j n u Hn Hu'. rewrite Forall_lookup in Hl, Hok. eapply computes_weaken; [apply (Hl j n Hn u (Hok j n Hn)); set_solver|done|].
    intros [Hs [Ha Hr]]. split; [apply (set_len_mono _ _) in Hu'; lia|]. split; [done|]. destruct Hr as [Hr|Hr]; [by left|right].
    cbn [each_leaf] in Hr. rewrite foldr_and_Forall, Forall_lookup in Hr. eauto.
  - intros j Hj. rewrite Ho, elem_of_seq in Hj. lia.
  - done.
  - assert (Hiff : ∀ id, id ∈ universe →
      forallb (λ j, match l !! j with Some n => node_on n id | None => true end) positions = true ↔ node_on (NAnd l) id = true).
    { intros id [r Hr]%Hu%elem_of_dom. unfold node_on. rewrite Hr. cbn [node_holds]. rewrite !forallb_ok, !Forall_forall. split.
      + intros Hx n [j Hn]%list_elem_of_lookup. specialize (Hx j). rewrite Hn in Hx. apply Hx. rewrite Ho. apply elem_of_seq.
        apply lookup_lt_Some in Hn. lia.
      + intros Hx j _. destruct (l !! j) as [n|] eqn:Hn; [|done]. apply Hx. by eapply list_elem_of_lookup_2. }
    apply set_eq. intros id. unfold selected. rewrite !elem_of_filter. split; intros [Hx Hid]; (split; [|done]); by apply (Hiff id Hid).
Qed.

Lemma selected_subset n universe : selected n universe ⊆ universe.
Proof. unfold selected. by intros id [_ Hid]%elem_of_filter. Qed.

Lemma or_selects l universe :
  Forall computes_selection l → Forall (each_leaf leaf_ok) l → universe ⊆ dom R →
  computes panics (st_fold (λ acc n,
      ids ← engine n universe;
      acc ← st_fold (λ acc id, check_query;; mret ({[id]} ∪ acc)) acc (set_iter ids);
      lift_query (st_lift (check_size (set_len acc) cap));;
      mret acc) ∅ l)
    (selected (NOr l) universe) (set_len universe ≤ cap ∧ ready (NOr l)).
Proof.
  intros Hl Hok Hu. eapply (computes_weaken _ _ _ _ (set_len universe ≤ cap ∧ ready (NOr l)));
    [apply (computes_fold _ _ (λ acc n, acc ∪ selected n universe))| |done].
  - intros l1 n l2 Hsplit. apply (computes_bind _ _ _ (selected n universe)).
    { subst l. apply Forall_app in Hl as [_ [Hn _]%Forall_cons]. apply Forall_app in Hok as [_ [Hv _]%Forall_cons].
      eapply computes_weaken; [by apply Hn|done|]. intros [Hs [Ha Hr]]. split; [done|]. split; [done|]. destruct Hr as [Hr|Hr]; [by left|right].
      cbn [each_leaf] in Hr. rewrite foldr_and_Forall in Hr. by apply Forall_app in Hr as [_ [? _]%Forall_cons]. }
    set (acc := foldl (λ acc n, acc ∪ selected n universe) ∅ l1).
    apply (computes_bind _ _ _ (acc ∪ selected n universe)).
    { eapply computes_weaken; [apply (computes_fold _ _ (λ acc id, {[id]} ∪ acc))| |done].
      - intros k1 id k2 _. checked. apply computes_ret.
      - by rewrite foldl_insert_all, set_iter_list. }
    apply (computes_bind _ _ _ tt); [|apply computes_ret]. apply computes_query, computes_size. intros [Hs _].
    etrans; [apply (set_len_mono _ universe)|done]. apply union_subseteq. split; [|apply selected_subset].
    apply foldl_union_subset; [set_solver|]. intros m. apply selected_subset.
  - apply set_eq. intros id. rewrite foldl_union_elem. unfold selected. setoid_rewrite elem_of_filter. unfold node_on. split.
    + intros [?%elem_of_empty|(n & Hn & Hm & Hid)]; [done|]. split; [|done]. destruct (R !! id); [|done]. cbn [node_holds].
      apply existsb_exists. exists n. split; [by apply list_elem_of_In|done].
    + intros [Hm Hid]. right. destruct (R !! id); [|done]. cbn [node_holds] in Hm. apply existsb_exists in Hm as (n & Hn%list_elem_of_In & Hm). eauto.
Qed.

Lemma not_selects n universe :
  universe ⊆ dom R → selected (NNot n) universe = universe ∖ selected n universe.
Proof.
  intros Hu. apply set_eq. intros id. unfold selected. rewrite elem_of_difference, !elem_of_filter. unfold node_on. split.
  - intros [Hm Hid]. split; [done|]. intros [Hn _]. destruct (R !! id); [|done]. cbn [node_holds] in Hm. by rewrite Hn in Hm.
  - intros [Hid Hn]. split; [|done]. pose proof (Hu id Hid) as [r Hr]%elem_of_dom. rewrite Hr in Hn |- *. cbn [node_holds].
    apply negb_true_iff, not_true_iff_false. intros Hm. by apply Hn.
Qed.

Lemma candidates_computes n : computes_selection n.
Proof.
  induction n as [|path t|l IH|l IH|n IH] using Node_induction; intros universe Hok Hu; cbn [candidates]; checked;
    destruct (whole_scan_ok _ Hok) as (o & Ho & Hsc); (apply (computes_bind _ _ _ o); [apply computes_query, computes_pure; rewrite Ho; congruence|]);
    (destruct o as [sc|]; [destruct (Hsc sc eq_refl); apply (computes_bind _ _ _ tt);
      [apply computes_query, computes_size; by intros []|by apply scan_selects]|]).
  - apply (computes_bind _ _ _ tt); [apply computes_query, computes_size; by intros []|].
    eapply computes_weaken; [apply computes_ret| |done]. apply set_eq. intros id. unfold selected. rewrite elem_of_filter. unfold node_on.
    split; [|by intros []]. intros Hid. split; [|done]. pose proof (Hu id Hid) as [r Hr]%elem_of_dom. by rewrite Hr.
  - by apply leaf_candidates_computes.
  - cbn [each_leaf] in Hok. rewrite foldr_and_Forall in Hok. by apply and_selects.
  - cbn [each_leaf] in Hok. rewrite foldr_and_Forall in Hok. by apply or_selects.
  - cbn [each_leaf] in Hok. rewrite not_selects by done.
    assert (Hrest : computes panics (excluded ← engine n universe;
        lift_query (st_lift (check_size (set_len universe - set_len excluded) cap));;
        lift_query (complement universe excluded)) (universe ∖ selected n universe) (set_len universe ≤ cap ∧ ready (NNot n))).
    { apply (computes_bind _ _ _ (selected n universe)); [by apply IH|]. apply (computes_bind _ _ _ tt).
      - apply computes_query, computes_size. intros [Hs _]. lia.
      - apply computes_query, complement_computes. }
    destruct n; try exact Hrest. eapply computes_weaken; [apply computes_ret| |done]. apply set_eq. intros id. rewrite elem_of_difference.
    split; [by intros ?%elem_of_empty|]. intros [Hid Hn]. destruct Hn. unfold selected, node_on. apply elem_of_filter. split; [|done].
    pose proof (Hu id Hid) as [r Hr]%elem_of_dom. by rewrite Hr.
Qed.
End engine.

(** ** What a selection promises *)

(** The identifiers of a universe whose records a filter accepts. *)
Definition filter_matches `{Decimals} (R : gmap string SourceRecord) (s : Structured) (f : Filter) (universe : gset string) : gset string :=
  filter (λ id, match R !! id with Some r => filter_holds (kinds_of s) (record_value r) f | None => false end = true) universe.

(** C5.  A query reads what its filter means.  Over the indexes built from the
    records of a view, a source that lends that view and any universe of its
    identifiers, the selection of a planned and validated filter, through posting
    lists, range walks, complements, record reads and document scans, in whatever
    order the estimates choose: whenever it returns, however the token is set, it
    returns exactly the identifiers whose records the filter accepts; it never
    indexes outside the conjuncts; and when nothing cancels, the source is
    available, the universe fits the candidate budget and scanned records are
    live, it returns. *)
Theorem candidates_match_filter `{Decimals} `{LendingSource} `{SharedRoots} d R available
    `{!LendsView R available} `{!SharedRootsLaw} s f n allow_scan allow_index_reads cap universe :
  build_structured d (records_feed R) = Ok s → plan f = Ok n → validate_node s allow_scan n = Ok tt → universe ⊆ st_ids s →
  let run := candidates s allow_scan allow_index_reads cap n universe in
  (∀ t t' ids, run t = (t', Ok ids) → ids = filter_matches R s f universe) ∧
  (∀ t t', run t ≠ (t', Err Panicked)) ∧
  (set_len universe ≤ cap → ready R available s n → run Never = (Never, Ok (filter_matches R s f universe))).
Proof.
  intros [Hn He]%build_records Hp Hv Hu run. rewrite (ex_ids _ _ _ He) in Hu.
  destruct (candidates_computes d R available s allow_scan allow_index_reads cap He Hn n universe) as [H1' H2' H3'];
    [by apply validate_leaves|done|].
  assert (Hm : selected R s n universe = filter_matches R s f universe).
  { unfold selected, filter_matches, node_on. apply set_eq. intros id. rewrite !elem_of_filter.
    destruct (R !! id); [by rewrite (plan_node_holds f n _ _ Hp)|done]. }
  rewrite Hm in *. split_and!; [done| |by auto]. intros t t' Hx. by eapply H2'.
Qed.

(** ** A query over two people *)

Module CandidateSample.
Import IndexSample.
#[local] Existing Instance natural_decimals.

(** A source in memory, which checks the token before a loan. *)
Definition memory (R : gmap string SourceRecord) : LendingSource := {|
  loan := λ id t, let '(t, r) := check_token t in (t, match r with Ok _ => Ok (R !! id) | Err e => Err (FQuery e) end);
  finish := λ _ t, (t, Ok tt);
|}.

Lemma memory_view R : @LendsView (memory R) R True.
Proof.
  split; intros id; cbn.
  - split; [|auto|done]. intros [|[|n]] t' x; cbn; [|done|]; by intros [= <- <-].
  - split; [by intros t t' []|auto|done].
Qed.

Definition equal_roots : SharedRoots := {| ptr_eq := λ a b, bool_decide (a = b) |}.

Lemma equal_roots_law : @SharedRootsLaw equal_roots.
Proof. split. intros a b. apply bool_decide_eq_true_1. Qed.

(** People of at least two years whose mail is not x. *)
Definition condition_of (ne gte : option value) : Condition :=
  {| c_eq := None; c_ne := ne; c_gt := None; c_gte := gte; c_lt := None; c_lte := None; c_in := None; c_nin := None;
     c_exists := None; c_contains := None |}.

Definition adults : Filter :=
  filter_and (only_field "/n" (condition_of None (Some (VNumber "2")))) (only_field "/m" (condition_of (Some (VString "x")) None)).

Definition adults_plan : FilterNode :=
  NAnd [NNot (NLeaf "/m" (TEq (VString "x"))); NLeaf "/n" (TRange (Included (VNumber "2")) Unbounded)].

Lemma declared_kind d R s path kind : exact d R s → declared d !! path = Some kind → kinds_of s path = Some kind.
Proof.
  intros [_ Hf _] Hd. specialize (Hf path). rewrite Hd in Hf. unfold kinds_of.
  inversion Hf as [k i He Hk Hi|]; subst. cbn. by rewrite (fe_kind _ _ _ _ He).
Qed.

Lemma people_valid : ∀ s, build_structured people (records_feed before) = Ok s → validate_node s false adults_plan = Ok tt.
Proof.
  intros s [_ He]%build_records. assert (Hm : kinds_of s "/m" = Some SString) by (apply (declared_kind _ _ _ _ _ He); vm_compute; reflexivity).
  assert (Hn : kinds_of s "/n" = Some SNumber) by (apply (declared_kind _ _ _ _ _ He); vm_compute; reflexivity).
  unfold kinds_of in Hm, Hn.
  unfold adults_plan. cbn [validate_node try_for_each try_fold]. unfold field_kind.
  destruct (st_fields s !! "/m") as [i|]; [|done]. destruct (st_fields s !! "/n") as [j|]; [|done].
  injection Hm as Hm. injection Hn as Hn. rewrite Hm, Hn. vm_compute. reflexivity.
Qed.

Lemma people_live : all_live before.
Proof. intros id r [[_ <-]|[_ [[_ <-]|[_ Hr]]%lookup_insert_Some]]%lookup_insert_Some; [by eexists..|by rewrite lookup_empty in Hr]. Qed.

Lemma candidates_match_filter_witness : ∃ s,
  build_structured people (records_feed before) = Ok s ∧
  @candidates natural_decimals (memory before) equal_roots s false true 10 adults_plan (st_ids s) Never =
    (Never, Ok (filter_matches before s adults (st_ids s))).
Proof.
  destruct (is_ok_Ok _ (proj1 exchange_builds)) as [s Hs]. exists s. split; [exact Hs|].
  destruct (@candidates_match_filter natural_decimals (memory before) equal_roots people before True (memory_view before)
    equal_roots_law s adults adults_plan false true 10 (st_ids s) Hs) as (_ & _ & Hrun).
  - vm_compute. reflexivity.
  - exact (people_valid s Hs).
  - intros x Hx. exact Hx.
  - apply Hrun.
    + apply build_records in Hs as [_ He]. rewrite (ex_ids _ _ _ He). vm_compute. discriminate.
    + split; [exact I|]. left. exact people_live.
Defined.
End CandidateSample.
