(* ===== verification/Memory.v ===== *)
(** * Query memory

    Models src/crates/kasumi-query/src/workspace.rs (the ledger of admitted query
    memory: growth, release and nested scopes) and the clone charges of
    allocation.rs.  The provider of the memory is an interface with the laws its
    documentation states; the sizes of inline Rust values are a parameter. *)

From S2P Require Import Prelude Json Types Digest State Scalars.

(** ** Clone charges *)

Class Layout := {
  size_of_string : N;
  size_of_value : N;
  size_of_usize : N;
}.

Definition allocation_overflow : Error := new_error ResourceExhausted "query allocation size overflow".

Definition alloc_add (a b : N) : Result N := ok_or (checked_add a b) allocation_overflow.

(** [u64::checked_next_power_of_two]. *)
Definition checked_next_power_of_two (n : N) : option N :=
  let p := 2 ^ N.log2_up n in if p <=? u64_max then Some p else None.

Definition allocation_bytes (requested : N) : Result N :=
  if requested =? 0 then Ok 0
  else p ← ok_or (checked_next_power_of_two requested) allocation_overflow; alloc_add p 64.

(** [vec_bytes], for elements of a size. *)
Definition vec_bytes (size length : N) : Result N :=
  requested ← ok_or (checked_mul length size) allocation_overflow;
  allocation_bytes requested.

Definition string_clone_bytes (s : string) : Result N := allocation_bytes (str_len s).

Section charges.
Context `{Layout}.

Definition object_entry_bytes : Result N :=
  slots ← ok_or (a ← checked_add size_of_string size_of_value; b ← checked_mul a 11; checked_add b (16 * size_of_usize))
            allocation_overflow;
  allocation_bytes slots.

Fixpoint json_clone_bytes (v : value) : Result N :=
  match v with
  | VNull | VBool _ => Ok 0
  | VString text => string_clone_bytes text
  | VNumber text => string_clone_bytes text
  | VArray values =>
      bytes ← vec_bytes size_of_value (len values);
      try_fold (λ bytes v, b ← json_clone_bytes v; alloc_add bytes b) bytes values
  | VObject values =>
      entry ← object_entry_bytes;
      bytes ← ok_or (checked_mul entry (len values)) allocation_overflow;
      try_fold (λ bytes kv,
        b ← string_clone_bytes kv.1;
        bytes ← alloc_add bytes b;
        b ← json_clone_bytes kv.2;
        alloc_add bytes b) bytes values
  end.

Definition document_parts_clone_bytes (id : string) (v : value) : Result N :=
  a ← string_clone_bytes id;
  b ← json_clone_bytes v;
  alloc_add a b.
End charges.

(** ** The ledger *)

Class QueryWorkspace (W : Type) := ensure_peak : N → ST W Error unit.

Record QueryMemory (W : Type) := {
  qm_workspace : W;
  qm_live : N;
  qm_peak : N;
  qm_floor : N;
}.
Arguments qm_workspace {_}.
Arguments qm_live {_}.
Arguments qm_peak {_}.
Arguments qm_floor {_}.

Definition workspace_overflow : Error := new_error ResourceExhausted "query workspace size overflow".
Definition inconsistent : Error := new_error Unavailable "query workspace accounting differs".

Section ledger.
Context {W : Type} `{QueryWorkspace W}.

(** [QueryMemory::empty]. *)
Definition empty_memory (w : W) : QueryMemory W := {| qm_workspace := w; qm_live := 0; qm_peak := 0; qm_floor := 0 |}.

(** [QueryMemory::reserve]. *)
Definition reserve (additional : N) : ST (QueryMemory W) Error unit := λ m,
  match checked_add (qm_live m) additional with
  | None => (m, Err workspace_overflow)
  | Some live =>
      let '(w, r) := if qm_peak m <? live then ensure_peak live (qm_workspace m) else (qm_workspace m, Ok tt) in
      match r with
      | Err e => ({| qm_workspace := w; qm_live := qm_live m; qm_peak := qm_peak m; qm_floor := qm_floor m |}, Err e)
      | Ok _ => ({| qm_workspace := w; qm_live := live; qm_peak := N.max (qm_peak m) live; qm_floor := qm_floor m |}, Ok tt)
      end
  end.

(** [QueryMemory::new], without the move of the provider into the error. *)
Definition new_memory (w : W) (initial : N) : QueryMemory W * Result unit :=
  match reserve initial (empty_memory w) with
  | (m, Ok _) => ({| qm_workspace := qm_workspace m; qm_live := qm_live m; qm_peak := qm_peak m; qm_floor := initial |}, Ok tt)
  | (m, Err e) => (m, Err e)
  end.

(** [QueryMemory::release]. *)
Definition release (bytes : N) : ST (QueryMemory W) Error unit := λ m,
  match checked_sub (qm_live m) bytes with
  | Some live =>
      if qm_floor m <=? live then
        ({| qm_workspace := qm_workspace m; qm_live := live; qm_peak := qm_peak m; qm_floor := qm_floor m |}, Ok tt)
      else (m, Err inconsistent)
  | None => (m, Err inconsistent)
  end.

(** [QueryMemory::scope]; the guard restores the ledger on every path.  The
    work inside also changes what else its closure captures.  The floor keeps
    the live bytes at or above the baseline, so the difference is exact. *)
Definition scope {X E A} (from : Error → E) (run : ST (X * QueryMemory W) E (A * N)) : ST (X * QueryMemory W) E A := λ '(x, m),
  let baseline := qm_live m in
  let '((x', m'), r) := run (x, {| qm_workspace := qm_workspace m; qm_live := baseline; qm_peak := qm_peak m; qm_floor := baseline |}) in
  let restored retained :=
    {| qm_workspace := qm_workspace m'; qm_live := baseline + retained; qm_peak := qm_peak m'; qm_floor := qm_floor m |} in
  match r with
  | Ok (v, retained) =>
      if qm_live m' - baseline <? retained then ((x', restored 0), Err (from inconsistent)) else ((x', restored retained), Ok v)
  | Err e => ((x', restored 0), Err e)
  end.

(** Work on one part of what a query changes. *)
Definition on_memory {X E A} (from : Error → E) (p : ST (QueryMemory W) Error A) : ST (X * QueryMemory W) E A := λ '(x, m),
  let '(m, r) := p m in ((x, m), map_err from r).
Definition on_other {X E A} (p : ST X E A) : ST (X * QueryMemory W) E A := λ '(x, m),
  let '(x, r) := p x in ((x, m), r).
End ledger.

(** ** Ledgers stay balanced *)

(** What a provider owns: successful growth is kept, and nothing shrinks. *)
Class WorkspaceLaws (W : Type) `{QueryWorkspace W} := {
  allowance : W → N;
  ensure_peak_grows : ∀ n w w', ensure_peak n w = (w', Ok tt) → n ≤ allowance w' ∧ allowance w ≤ allowance w';
  ensure_peak_keeps : ∀ n w w' e, ensure_peak n w = (w', Err e) → allowance w ≤ allowance w';
}.

Section balance.
Context {W : Type} `{WorkspaceLaws W}.

(** The peak is owned, and live bytes are between the floor and the peak. *)
Record balanced (m : QueryMemory W) : Prop := {
  bl_floor : qm_floor m ≤ qm_live m;
  bl_live : qm_live m ≤ qm_peak m;
  bl_owned : qm_peak m ≤ allowance (qm_workspace m);
  bl_width : qm_peak m ≤ u64_max;
}.

(** A step of query work: it keeps the ledger balanced and its floor, and never
    gives memory back to the provider. *)
Definition accounted {X E A} (p : ST (X * QueryMemory W) E A) : Prop := ∀ x m x' m' r,
  balanced m → p (x, m) = ((x', m'), r) → balanced m' ∧ qm_floor m' = qm_floor m ∧ qm_peak m ≤ qm_peak m'.

Lemma accounted_ret {X E A} (a : A) : accounted (X := X) (E := E) (mret a).
Proof. intros x m x' m' r Hm [= <- <- <-]. done. Qed.

Lemma accounted_lift {X E A} (y : result E A) : accounted (X := X) (st_lift y).
Proof. intros x m x' m' r Hm [= <- <- <-]. done. Qed.

Lemma accounted_other {X E A} (p : ST X E A) : accounted (on_other p).
Proof. intros x m x' m' r Hm. unfold on_other. destruct (p x). intros [= <- <- <-]. done. Qed.

Lemma accounted_bind {X E A B} (p : ST (X * QueryMemory W) E A) (f : A → ST (X * QueryMemory W) E B) :
  accounted p → (∀ a, accounted (f a)) → accounted (p ≫= f).
Proof.
  intros Hp Hf x m x' m' r Hm. unfold mbind, ST_bind. destruct (p (x, m)) as [[x1 m1] [a|e]] eqn:Hr.
  - destruct (Hp _ _ _ _ _ Hm Hr) as (H1 & H2 & H3). intros Hx. destruct (Hf a _ _ _ _ _ H1 Hx) as (? & ? & ?). split_and!; [done|congruence|lia].
  - intros [= <- <- <-]. by apply (Hp _ _ _ _ _ Hm Hr).
Qed.

Lemma accounted_fold {X E A B} (f : B → A → ST (X * QueryMemory W) E B) acc l :
  (∀ acc y, accounted (f acc y)) → accounted (st_fold f acc l).
Proof. intros Hf. revert acc. induction l as [|y l IH]; intros acc; [apply accounted_ret|]. cbn [st_fold]. apply accounted_bind; auto. Qed.

Lemma accounted_reserve {X E} (from : Error → E) n : accounted (X := X) (on_memory from (reserve n)).
Proof.
  intros x m x' m' r [Hf Hl Ho Hw]. unfold on_memory, reserve. destruct (checked_add (qm_live m) n) as [live|] eqn:Ha; [|by intros [= <- <- <-]].
  apply checked_add_Some in Ha as [-> Hmax].
  destruct (qm_peak m <? qm_live m + n) eqn:Hp.
  - apply N.ltb_lt in Hp. destruct (ensure_peak (qm_live m + n) (qm_workspace m)) as [w [[]|e]] eqn:He; intros [= <- <- <-].
    + apply ensure_peak_grows in He as [Hn Hg]. split; [split; cbn; lia|]. cbn. lia.
    + apply ensure_peak_keeps in He. split; [split; cbn; lia|]. cbn. lia.
  - apply N.ltb_ge in Hp. intros [= <- <- <-]. split; [split; cbn; lia|]. cbn. lia.
Qed.

Lemma accounted_release {X E} (from : Error → E) n : accounted (X := X) (on_memory from (release n)).
Proof.
  intros x m x' m' r [Hf Hl Ho Hw]. unfold on_memory, release. destruct (checked_sub (qm_live m) n) as [live|] eqn:Hs; [|by intros [= <- <- <-]].
  apply checked_sub_Some in Hs as [-> Hle]. destruct (qm_floor m <=? qm_live m - n) eqn:Hb; intros [= <- <- <-]; [|done].
  apply N.leb_le in Hb. split; [split; cbn; lia|]. cbn. lia.
Qed.

(** A scope leaves exactly what its result retains, and nothing after an error. *)
Lemma scope_restores {X E A} (from : Error → E) (run : ST (X * QueryMemory W) E (A * N)) x m x' m' r :
  accounted run → balanced m → scope from run (x, m) = ((x', m'), r) →
  balanced m' ∧ qm_floor m' = qm_floor m ∧ qm_peak m ≤ qm_peak m' ∧
  match r with Ok _ => qm_live m ≤ qm_live m' | Err _ => qm_live m' = qm_live m end.
Proof.
  intros Hrun [Hf Hl Ho Hw]. unfold scope.
  destruct (run _) as [[x1 m1] [[v retained]|e]] eqn:Hr; apply Hrun in Hr as ([H1 H2 H3 H4] & H5 & H6); try (split; cbn; lia); cbn in *.
  - destruct (qm_live m1 - qm_live m <? retained) eqn:Hb; intros [= <- <- <-]; cbn.
    + split; [split; cbn; lia|]. lia.
    + apply N.ltb_ge in Hb. split; [split; cbn; lia|]. lia.
  - intros [= <- <- <-]. cbn. split; [split; cbn; lia|]. lia.
Qed.

Lemma accounted_scope {X E A} (from : Error → E) (run : ST (X * QueryMemory W) E (A * N)) : accounted run → accounted (scope from run).
Proof. intros Hrun x m x' m' r Hm Hs. destruct (scope_restores from run x m x' m' r Hrun Hm Hs) as (? & ? & ? & _). done. Qed.
End balance.

(** ** Nested work *)

(** What the work of a query does to its ledger: growth, release, and scopes
    that keep some bytes of their work. *)
Inductive MemoryWork :=
| WReserve (bytes : N)
| WRelease (bytes : N)
| WScope (body : list MemoryWork) (retained : N).

Section work.
Context {W : Type} `{QueryWorkspace W}.
Abbreviation Work := (ST (unit * QueryMemory W) Error).

Fixpoint perform (w : MemoryWork) : Work unit :=
  match w with
  | WReserve n => on_memory id (reserve n)
  | WRelease n => on_memory id (release n)
  | WScope body retained =>
      scope id (st_fold (λ _ w, perform w) tt body;; mret (tt, retained))
  end.

Definition perform_all (body : list MemoryWork) : Work unit := st_fold (λ _ w, perform w) tt body.
End work.

Section work_induction.
Variable P : MemoryWork → Prop.
Hypothesis Hreserve : ∀ n, P (WReserve n).
Hypothesis Hrelease : ∀ n, P (WRelease n).
Hypothesis Hscope : ∀ body retained, Forall P body → P (WScope body retained).

Fixpoint MemoryWork_induction (w : MemoryWork) : P w :=
  match w with
  | WReserve n => Hreserve n
  | WRelease n => Hrelease n
  | WScope body retained => Hscope body retained
      ((fix all (l : list MemoryWork) : Forall P l :=
          match l with [] => Forall_nil_2 P | w :: l => Forall_cons_2 P w l (MemoryWork_induction w) (all l) end) body)
  end.
End work_induction.

Section nested.
Context {W : Type} `{WorkspaceLaws W}.

Lemma accounted_works (body : list MemoryWork) :
  Forall (λ w, accounted (W := W) (perform w)) body → accounted (W := W) (perform_all body).
Proof.
  unfold perform_all. induction 1 as [|w l Hw _ IH]; [apply accounted_ret|]. cbn [st_fold]. by apply accounted_bind; [|intros []].
Qed.

Lemma accounted_perform (w : MemoryWork) : accounted (W := W) (perform w).
Proof.
  induction w as [n|n|body retained IH] using MemoryWork_induction; [apply accounted_reserve|apply accounted_release|].
  apply accounted_scope, accounted_bind; [by apply accounted_works|]. intros []. apply accounted_ret.
Qed.

Lemma accounted_all (body : list MemoryWork) : accounted (W := W) (perform_all body).
Proof. apply accounted_works, Forall_forall. intros w _. apply accounted_perform. Qed.

(** C26. Whatever nested work a scope runs, the ledger stays balanced: its
    logical peak is covered by what the provider owns and only grows, the floor
    of the enclosing scope comes back, and the live bytes grow by exactly what
    the result retains, or by nothing on any error. *)
Theorem nested_scopes_balanced (body : list MemoryWork) (retained : N) (m m' : QueryMemory W) (r : Result unit) :
  balanced m → perform (WScope body retained) (tt, m) = ((tt, m'), r) →
  balanced m' ∧ qm_floor m' = qm_floor m ∧ qm_peak m ≤ qm_peak m' ∧
  qm_live m' = qm_live m + (if is_ok r then retained else 0).
Proof.
  intros Hm Hr. destruct (accounted_perform (WScope body retained) _ _ _ _ _ Hm Hr) as (Hb & Hf & Hp). split_and!; [done..|].
  revert Hr. cbn [perform]. unfold scope, mbind, ST_bind.
  destruct (st_fold _ tt body _) as [[[] m1] [[]|e]]; cbn.
  - destruct (_ <? retained); intros [= <- <-]; cbn; lia.
  - intros [= <- <-]. cbn. lia.
Qed.
End nested.

(** A provider with a fixed budget. *)
Module MemorySample.
Record Bounded := { budget : N; owned : N }.

#[export] Instance bounded_workspace : QueryWorkspace Bounded := λ total w,
  if total <=? budget w then ({| budget := budget w; owned := N.max (owned w) total |}, Ok tt)
  else (w, Err (new_error ResourceExhausted "budget")).

#[export] Instance bounded_laws : WorkspaceLaws Bounded.
Proof.
  refine {| allowance := owned |}; intros n w w'; unfold ensure_peak, bounded_workspace.
  - destruct (n <=? budget w); intros [= <-]; cbn. lia.
  - intros e. destruct (n <=? budget w); intros [= <- ?]. lia.
Defined.

Definition body : list MemoryWork := [WReserve 40; WScope [WReserve 50] 10; WRelease 20].
Definition start : QueryMemory Bounded :=
  {| qm_workspace := {| budget := 100; owned := 5 |}; qm_live := 5; qm_peak := 5; qm_floor := 5 |}.
Definition finish : QueryMemory Bounded :=
  {| qm_workspace := {| budget := 100; owned := 95 |}; qm_live := 30; qm_peak := 95; qm_floor := 5 |}.

Lemma nested_scopes_balanced_witness :
  perform (WScope body 25) (tt, start) = ((tt, finish), Ok tt) ∧ balanced finish ∧ qm_live finish = qm_live start + 25.
Proof.
  split; [vm_compute; reflexivity|].
  destruct (nested_scopes_balanced body 25 start finish (Ok tt)) as (Hb & _ & _ & Hl);
    [split; vm_compute; discriminate|vm_compute; reflexivity|].
  split; [exact Hb|exact Hl].
Defined.
End MemorySample.
