(* ===== verification/QueryWire.v ===== *)
(** * The wire form of queries

    Models the JSON form of the query language in
    src/crates/kasumi-types/src/query.rs: how filters, conditions, sort keys,
    aggregates, searches and whole requests are written and read.

    What is read is a JSON text as a tree whose objects keep their entries in
    the order of the text, repetitions included; a [Value] read from it is a map,
    where the last entry of a key wins.  [Custom] has the message of an error
    that query.rs reports, without the position serde_json appends; [Derived]
    stands for the errors of serde's own readers. *)

From S2P Require Import Prelude Json Types Digest State Scalars Filters.

Inductive WireError := Custom (message : string) | Derived.
Abbreviation Wire := (result WireError).

Definition quoted_name (s : string) : string := quote_mark +:+ s +:+ quote_mark.

Definition custom {A} (message : string) : Wire A := Err (Custom message).

(** [Value::deserialize]. *)
Fixpoint load_value (v : value) : value :=
  match v with
  | VArray l => VArray (load_value <$> l)
  | VObject l => VObject (foldl (λ m kv, obj_insert kv.1 (load_value kv.2) m) [] l)
  | _ => v
  end.

(** ** Readers of the derived kind *)

(** A struct is read from an object without repeated or unknown fields, or from
    a sequence in the order of its fields. *)
Inductive Slot := Given (v : value) | Absent | Short.
Definition slot_of (o : option value) : Slot := match o with Some v => Given v | None => Absent end.

Definition known (names : list string) (k : string) : bool := existsb (λ n, bool_decide (n = k)) names.

Fixpoint distinct_known (names : list string) (seen : list string) (l : list (string * value)) : bool :=
  match l with
  | [] => true
  | (k, _) :: l => known names k && negb (known seen k) && distinct_known names (k :: seen) l
  end.

Definition struct_slots (names : list string) (v : value) : Wire (string → Slot) :=
  match v with
  | VObject l =>
      if distinct_known names [] l then Ok (λ n, slot_of (obj_lookup n l)) else Err Derived
  | VArray l =>
      if (length names <? length l)%nat then Err Derived
      else Ok (λ n, match obj_lookup n (zip names l) with Some v => Given v | None => Short end)
  | _ => Err Derived
  end.

(** A required field, a field with a default, and an optional one. *)
Definition required {A} (read : value → Wire A) (s : Slot) : Wire A :=
  match s with Given v => read v | _ => Err Derived end.
Definition defaulted {A} (read : value → Wire A) (d : A) (s : Slot) : Wire A :=
  match s with Given v => read v | _ => Ok d end.
Definition optional {A} (read : value → Wire A) (v : value) : Wire (option A) :=
  match v with VNull => Ok None | _ => Some <$> read v end.
Definition optional_slot {A} (read : value → Wire A) (s : Slot) : Wire (option A) :=
  match s with Given v => optional read v | Absent => Ok None | Short => Err Derived end.

Definition read_string (v : value) : Wire string := match v with VString s => Ok s | _ => Err Derived end.
Definition read_bool (v : value) : Wire bool := match v with VBool b => Ok b | _ => Err Derived end.
Definition read_list {A} (read : value → Wire A) (v : value) : Wire (list A) :=
  match v with VArray l => try_map read l | _ => Err Derived end.

(** The integer of a number token: digits, without a negative zero. *)
Definition token_integer (text : string) : option Z :=
  match text with
  | String "-" digits => n ← parse_nat digits; if n =? 0 then None else Some (- Z.of_N n)%Z
  | _ => Z.of_N <$> parse_nat text
  end.

Definition read_integer (low high : Z) (v : value) : Wire Z :=
  match v with
  | VNumber text =>
      match token_integer text with
      | Some n => if ((low <=? n) && (n <=? high))%Z then Ok n else Err Derived
      | None => Err Derived
      end
  | _ => Err Derived
  end.

Definition read_i64 : value → Wire Z := read_integer (-9223372036854775808) 9223372036854775807.
Definition read_usize (v : value) : Wire N := Z.to_N <$> read_integer 0 18446744073709551615 v.
Definition read_u8 (v : value) : Wire N := Z.to_N <$> read_integer 0 255 v.

(** A unit variant is its name, or an object with its name and null. *)
Definition read_variant {A} (variants : list (string * A)) (v : value) : Wire A :=
  match v with
  | VString s | VObject [(s, VNull)] => ok_or (snd <$> find (λ p, bool_decide (p.1 = s)) variants) Derived
  | _ => Err Derived
  end.

(** ** Filters *)

Definition filter_operators : list string := ["eq"; "ne"; "gt"; "gte"; "lt"; "lte"; "in"; "nin"; "exists"; "contains"].

Definition entry {A} (name : string) (write : A → value) (o : option A) : list (string * value) :=
  match o with Some a => [(name, write a)] | None => [] end.

(** [Condition::shorthand] and [Condition::serialize]. *)
Definition is_composite (v : value) : bool := match v with VArray _ | VObject _ => true | _ => false end.

Definition shorthand (c : Condition) : option value :=
  v ← c_eq c;
  if negb (is_some (c_ne c)) && negb (is_some (c_gt c)) && negb (is_some (c_gte c)) && negb (is_some (c_lt c))
     && negb (is_some (c_lte c)) && negb (is_some (c_in c)) && negb (is_some (c_nin c)) && negb (is_some (c_exists c))
     && negb (is_some (c_contains c)) && negb (is_composite v)
  then Some v else None.

Definition operator_entries (c : Condition) : list (string * value) :=
  entry "eq" id (c_eq c) ++ entry "ne" id (c_ne c) ++ entry "gt" id (c_gt c) ++ entry "gte" id (c_gte c)
  ++ entry "lt" id (c_lt c) ++ entry "lte" id (c_lte c) ++ entry "in" VArray (c_in c) ++ entry "nin" VArray (c_nin c)
  ++ entry "exists" VBool (c_exists c) ++ entry "contains" id (c_contains c).

Definition condition_value (c : Condition) : value :=
  match shorthand c with Some v => v | None => VObject (operator_entries c) end.
#[export] Instance serialize_Condition : Serialize Condition := condition_value.

(** [Filter::serialize]. *)
Fixpoint filter_value (f : Filter) : value :=
  match f with
  | MkFilter fields conjuncts alternatives negated =>
      VObject (((λ pc, (pc.1, to_value pc.2)) <$> map_iter fields)
        ++ match conjuncts with [] => [] | _ => [("and", VArray (filter_value <$> conjuncts))] end
        ++ match negated with None => [] | Some g => [("not", filter_value g)] end
        ++ match alternatives with [] => [] | _ => [("or", VArray (filter_value <$> alternatives))] end)
  end.

(** The derived reader of [Operators]; [present] keeps a null. *)
Definition read_present (v : value) : Wire (option value) := Ok (Some (load_value v)).

Definition read_operators (l : list (string * value)) : Wire Condition :=
  slots ← struct_slots filter_operators (VObject l);
  eq ← defaulted read_present None (slots "eq");
  ne ← defaulted read_present None (slots "ne");
  gt ← defaulted read_present None (slots "gt");
  gte ← defaulted read_present None (slots "gte");
  lt ← defaulted read_present None (slots "lt");
  lte ← defaulted read_present None (slots "lte");
  any_of ← defaulted (optional (read_list (λ v, Ok (load_value v)))) None (slots "in");
  nin ← defaulted (optional (read_list (λ v, Ok (load_value v)))) None (slots "nin");
  exist ← defaulted (optional read_bool) None (slots "exists");
  contains ← defaulted read_present None (slots "contains");
  Ok {| c_eq := eq; c_ne := ne; c_gt := gt; c_gte := gte; c_lt := lt; c_lte := lte; c_in := any_of; c_nin := nin;
        c_exists := exist; c_contains := contains |}.

(** [explain_condition], on the map of an object. *)
Definition is_array_value (v : value) : bool := match v with VArray _ => true | _ => false end.
Definition is_boolean_value (v : value) : bool := match v with VBool _ => true | _ => false end.

Fixpoint explain_condition (l : list (string * value)) : string :=
  match l with
  | [] => "each filter operator may appear only once per field"
  | (k, v) :: l =>
      if negb (known filter_operators k) then
        "unknown filter operator `" +:+ k +:+ "`; use one of " +:+ String.concat ", " filter_operators
      else if (bool_decide (k = "in") || bool_decide (k = "nin")) && negb (is_array_value v) then
        "`" +:+ k +:+ "` requires an array of values"
      else if bool_decide (k = "exists") && negb (is_boolean_value v) then "`exists` requires true or false"
      else explain_condition l
  end.

(** [Condition::deserialize]: operators if they read, otherwise a value. *)
Definition read_condition (v : value) : Wire Condition :=
  match match v with VObject l => read_operators l | _ => Err Derived end with
  | Ok c => if condition_is_empty c then custom "a field condition requires at least one operator" else Ok c
  | Err _ =>
      match load_value v with
      | VObject m => custom (explain_condition m)
      | VArray _ => custom ("a filter value cannot be an array; use {" +:+ quoted_name "in" +:+ ": [...]} to match one of several values or {"
                            +:+ quoted_name "contains" +:+ ": value} for array fields")
      | v => Ok {| c_eq := Some v; c_ne := None; c_gt := None; c_gte := None; c_lt := None; c_lte := None; c_in := None;
                   c_nin := None; c_exists := None; c_contains := None |}
      end
  end.

(** [unknown_filter_key]. *)
Fixpoint trim_dollars (s : string) : string :=
  match s with String "$" s' => trim_dollars s' | _ => s end.

Definition unknown_filter_key (key : string) : string :=
  let bare := trim_dollars key in
  if negb (bool_decide (bare = key)) && known ["and"; "or"; "not"] bare then
    "unknown filter key `" +:+ key +:+ "`; combinators are written without `$`: `" +:+ bare +:+ "`"
  else if known filter_operators bare then
    "unknown filter key `" +:+ key +:+ "`; operators belong inside a field condition, e.g. {" +:+ quoted_name "/amount" +:+ ": {"
    +:+ quoted_name bare +:+ ": 10}}"
  else
    "unknown filter key `" +:+ key +:+ "`; field paths are JSON Pointers that start with '/', e.g. `/" +:+ bare
    +:+ "`, and combinators are `and`, `or` and `not`".

(** [Filter::deserialize]: the filter so far and the combinators seen. *)
Record FilterReader := {
  fr_filter : Filter;
  fr_seen : list string;
}.

Definition read_field (r : FilterReader) (key : string) (v : value) : Wire FilterReader :=
  let f := fr_filter r in
  match ff_fields f !! key with
  | Some _ => custom ("duplicate filter field `" +:+ key +:+ "`")
  | None =>
      c ← read_condition v;
      Ok {| fr_filter := MkFilter (<[key := c]> (ff_fields f)) (ff_and f) (ff_or f) (ff_not f); fr_seen := fr_seen r |}
  end.

Definition take_combinator (r : FilterReader) (key : string) : Wire FilterReader :=
  if known (fr_seen r) key then custom ("duplicate filter key `" +:+ key +:+ "`")
  else Ok {| fr_filter := fr_filter r; fr_seen := key :: fr_seen r |}.

Definition nonempty_filters (key : string) (l : list Filter) : Wire (list Filter) :=
  match l with [] => custom ("`" +:+ key +:+ "` requires at least one filter") | _ => Ok l end.

Definition update_reader (g : Filter → Filter) (r : FilterReader) : FilterReader :=
  {| fr_filter := g (fr_filter r); fr_seen := fr_seen r |}.

(** One entry, with the reader of nested filters. *)
Definition read_filter_entry (read : value → Wire Filter) (r : FilterReader) (kv : string * value) : Wire FilterReader :=
  let key := kv.1 in
  if starts_with key "/" then read_field r key kv.2
  else if bool_decide (key = "not") then
    r ← take_combinator r key;
    g ← read kv.2;
    Ok (update_reader (λ f, MkFilter (ff_fields f) (ff_and f) (ff_or f) (Some g)) r)
  else if bool_decide (key = "and") || bool_decide (key = "or") then
    r ← take_combinator r key;
    l ← match kv.2 with VArray l => try_map read l | _ => Err Derived end;
    l ← nonempty_filters key l;
    Ok (update_reader (λ f, if bool_decide (key = "and") then MkFilter (ff_fields f) l (ff_or f) (ff_not f)
                            else MkFilter (ff_fields f) (ff_and f) l (ff_not f)) r)
  else custom (unknown_filter_key key).

Definition new_reader : FilterReader := {| fr_filter := filter_default; fr_seen := [] |}.

Fixpoint read_filter (v : value) : Wire Filter :=
  match v with
  | VObject l => fr_filter <$> try_fold (λ r kv, read_filter_entry read_filter r kv) new_reader l
  | _ => Err Derived
  end.

(** ** Sort keys, aggregates and searches *)

Inductive Direction := Asc | Desc.
#[export] Instance Direction_eq_dec : EqDecision Direction.
Proof. solve_decision. Defined.

Record Sort := { sort_field : string; sort_direction : Direction }.

Definition sort_value (s : Sort) : value :=
  VString match sort_direction s with Asc => sort_field s | Desc => "-" +:+ sort_field s end.
#[export] Instance serialize_Sort : Serialize Sort := sort_value.

Definition read_sort (v : value) : Wire Sort :=
  key ← read_string v;
  let '(field, direction) := match strip_prefix "-" key with Some field => (field, Desc) | None => (key, Asc) end in
  if starts_with field "/" then Ok {| sort_field := field; sort_direction := direction |}
  else custom ("invalid sort key `" +:+ key +:+ "`; use a JSON Pointer such as " +:+ quoted_name "/amount" +:+ ", or "
               +:+ quoted_name "-/amount" +:+ " for descending order").

Inductive AggregateFunction := Count | Sum | Min | Max | Avg.
#[export] Instance AggregateFunction_eq_dec : EqDecision AggregateFunction.
Proof. solve_decision. Defined.

Record Aggregation := {
  a_function : AggregateFunction;
  a_field : option string;
  a_scale : option Z;
}.

Definition function_name (f : AggregateFunction) : string :=
  match f with Count => "count" | Sum => "sum" | Min => "min" | Max => "max" | Avg => "avg" end.

Definition aggregation_value (a : Aggregation) : value :=
  VObject ((function_name (a_function a), VString (default "*" (a_field a)))
    :: entry "scale" (λ z, VNumber (pretty z)) (a_scale a)).
#[export] Instance serialize_Aggregation : Serialize Aggregation := aggregation_value.

Definition aggregation_fields : list string := ["count"; "sum"; "min"; "max"; "avg"; "scale"].

Definition named_aggregate (function : AggregateFunction) (field : string) (scale : option Z) : Wire Aggregation :=
  if bool_decide (field = "*") then
    if bool_decide (function = Count) then Ok {| a_function := function; a_field := None; a_scale := scale |}
    else custom ("only count accepts " +:+ quoted_name "*" +:+ "; other aggregates name a numeric field")
  else Ok {| a_function := function; a_field := Some field; a_scale := scale |}.

Definition read_aggregation (v : value) : Wire Aggregation :=
  slots ← struct_slots aggregation_fields v;
  count ← optional_slot read_string (slots "count");
  sum ← optional_slot read_string (slots "sum");
  min ← optional_slot read_string (slots "min");
  max ← optional_slot read_string (slots "max");
  avg ← optional_slot read_string (slots "avg");
  scale ← optional_slot read_i64 (slots "scale");
  match omap (λ fo, (fo.1,.) <$> fo.2) [(Count, count); (Sum, sum); (Min, min); (Max, max); (Avg, avg)] with
  | [(function, field)] => named_aggregate function field scale
  | _ => custom ("an aggregate names exactly one of count, sum, min, max or avg, e.g. {" +:+ quoted_name "sum" +:+ ": "
                 +:+ quoted_name "/amount" +:+ "}")
  end.

Inductive TextMode := Terms | Phrase | PrefixMode | Fuzzy.
#[export] Instance TextMode_eq_dec : EqDecision TextMode.
Proof. solve_decision. Defined.

Definition text_modes : list (string * TextMode) :=
  [("terms", Terms); ("phrase", Phrase); ("prefix", PrefixMode); ("fuzzy", Fuzzy)].
#[export] Instance serialize_TextMode : Serialize TextMode := λ m,
  unit_variant match m with Terms => "terms" | Phrase => "phrase" | PrefixMode => "prefix" | Fuzzy => "fuzzy" end.

Record TextSearch := {
  t_index : string;
  t_query : string;
  t_mode : TextMode;
  t_distance : option N;
}.

#[export] Instance serialize_TextSearch : Serialize TextSearch := λ t,
  VObject ([("index", to_value (t_index t)); ("query", to_value (t_query t))]
    ++ (if bool_decide (t_mode t = Terms) then [] else [("mode", to_value (t_mode t))])
    ++ entry "distance" to_value (t_distance t)).

Definition read_text_search (v : value) : Wire TextSearch :=
  slots ← struct_slots ["index"; "query"; "mode"; "distance"] v;
  index ← required read_string (slots "index");
  query ← required read_string (slots "query");
  mode ← defaulted (read_variant text_modes) Terms (slots "mode");
  distance ← defaulted (optional read_u8) None (slots "distance");
  Ok {| t_index := index; t_query := query; t_mode := mode; t_distance := distance |}.

Inductive Paging := PSnapshot | Seek.
#[export] Instance Paging_eq_dec : EqDecision Paging.
Proof. solve_decision. Defined.
#[export] Instance serialize_Paging : Serialize Paging := λ p,
  unit_variant match p with PSnapshot => "snapshot" | Seek => "seek" end.
Definition read_paging : value → Wire Paging := read_variant [("snapshot", PSnapshot); ("seek", Seek)].

(** An alias is compared with the earlier ones after its aggregate is read. *)
Definition read_alias (m : gmap string Aggregation) (kv : string * value) : Wire (gmap string Aggregation) :=
  a ← read_aggregation kv.2;
  match m !! kv.1 with
  | Some _ => custom ("duplicate aggregate `" +:+ kv.1 +:+ "`")
  | None => Ok (<[kv.1 := a]> m)
  end.

Definition unique_aggregates (v : value) : Wire (gmap string Aggregation) :=
  match v with VObject l => try_fold read_alias ∅ l | _ => Err Derived end.

(** ** Requests *)

Record QueryRequest := {
  q_collection : string;
  q_filter : Filter;
  q_search : option TextSearch;
  q_sort : list Sort;
  q_select : list string;
  q_group_by : list string;
  q_aggregate : gmap string Aggregation;
  q_limit : option N;
  q_cursor : option string;
  q_paging : Paging;
  q_allow_scan : bool;
}.

(** [QueryRequest::new]. *)
Definition new_request (collection : string) : QueryRequest :=
  {| q_collection := collection; q_filter := filter_default; q_search := None; q_sort := []; q_select := [];
     q_group_by := []; q_aggregate := ∅; q_limit := None; q_cursor := None; q_paging := PSnapshot; q_allow_scan := false |}.

Definition unless {A} (skip : bool) (name : string) (write : A → value) (a : A) : list (string * value) :=
  if skip then [] else [(name, write a)].
Definition is_nil_list {A} (l : list A) : bool := match l with [] => true | _ => false end.

#[export] Instance serialize_QueryRequest : Serialize QueryRequest := λ q,
  VObject ([("collection", to_value (q_collection q))]
    ++ unless (is_all (q_filter q)) "filter" filter_value (q_filter q)
    ++ entry "search" to_value (q_search q)
    ++ unless (is_nil_list (q_sort q)) "sort" to_value (q_sort q)
    ++ unless (is_nil_list (q_select q)) "select" to_value (q_select q)
    ++ unless (is_nil_list (q_group_by q)) "group_by" to_value (q_group_by q)
    ++ unless (bool_decide (q_aggregate q = ∅)) "aggregate" to_value (q_aggregate q)
    ++ entry "limit" to_value (q_limit q)
    ++ entry "cursor" to_value (q_cursor q)
    ++ unless (bool_decide (q_paging q = PSnapshot)) "paging" to_value (q_paging q)
    ++ unless (negb (q_allow_scan q)) "allow_scan" to_value (q_allow_scan q)).

Definition set_collection (x : string) (q : QueryRequest) : QueryRequest :=
  {| q_collection := x; q_filter := q_filter q; q_search := q_search q; q_sort := q_sort q;
     q_select := q_select q; q_group_by := q_group_by q; q_aggregate := q_aggregate q;
     q_limit := q_limit q; q_cursor := q_cursor q; q_paging := q_paging q; q_allow_scan := q_allow_scan q |}.
Definition set_filter (x : Filter) (q : QueryRequest) : QueryRequest :=
  {| q_collection := q_collection q; q_filter := x; q_search := q_search q; q_sort := q_sort q;
     q_select := q_select q; q_group_by := q_group_by q; q_aggregate := q_aggregate q;
     q_limit := q_limit q; q_cursor := q_cursor q; q_paging := q_paging q; q_allow_scan := q_allow_scan q |}.
Definition set_search (x : option TextSearch) (q : QueryRequest) : QueryRequest :=
  {| q_collection := q_collection q; q_filter := q_filter q; q_search := x; q_sort := q_sort q;
     q_select := q_select q; q_group_by := q_group_by q; q_aggregate := q_aggregate q;
     q_limit := q_limit q; q_cursor := q_cursor q; q_paging := q_paging q; q_allow_scan := q_allow_scan q |}.
Definition set_sort (x : list Sort) (q : QueryRequest) : QueryRequest :=
  {| q_collection := q_collection q; q_filter := q_filter q; q_search := q_search q; q_sort := x;
     q_select := q_select q; q_group_by := q_group_by q; q_aggregate := q_aggregate q;
     q_limit := q_limit q; q_cursor := q_cursor q; q_paging := q_paging q; q_allow_scan := q_allow_scan q |}.
Definition set_select (x : list string) (q : QueryRequest) : QueryRequest :=
  {| q_collection := q_collection q; q_filter := q_filter q; q_search := q_search q; q_sort := q_sort q;
     q_select := x; q_group_by := q_group_by q; q_aggregate := q_aggregate q; q_limit := q_limit q;
     q_cursor := q_cursor q; q_paging := q_paging q; q_allow_scan := q_allow_scan q |}.
Definition set_group_by (x : list string) (q : QueryRequest) : QueryRequest :=
  {| q_collection := q_collection q; q_filter := q_filter q; q_search := q_search q; q_sort := q_sort q;
     q_select := q_select q; q_group_by := x; q_aggregate := q_aggregate q; q_limit := q_limit q;
     q_cursor := q_cursor q; q_paging := q_paging q; q_allow_scan := q_allow_scan q |}.
Definition set_aggregate (x : gmap string Aggregation) (q : QueryRequest) : QueryRequest :=
  {| q_collection := q_collection q; q_filter := q_filter q; q_search := q_search q; q_sort := q_sort q;
     q_select := q_select q; q_group_by := q_group_by q; q_aggregate := x; q_limit := q_limit q;
     q_cursor := q_cursor q; q_paging := q_paging q; q_allow_scan := q_allow_scan q |}.
Definition set_limit (x : option N) (q : QueryRequest) : QueryRequest :=
  {| q_collection := q_collection q; q_filter := q_filter q; q_search := q_search q; q_sort := q_sort q;
     q_select := q_select q; q_group_by := q_group_by q; q_aggregate := q_aggregate q; q_limit := x;
     q_cursor := q_cursor q; q_paging := q_paging q; q_allow_scan := q_allow_scan q |}.
Definition set_cursor (x : option string) (q : QueryRequest) : QueryRequest :=
  {| q_collection := q_collection q; q_filter := q_filter q; q_search := q_search q; q_sort := q_sort q;
     q_select := q_select q; q_group_by := q_group_by q; q_aggregate := q_aggregate q;
     q_limit := q_limit q; q_cursor := x; q_paging := q_paging q; q_allow_scan := q_allow_scan q |}.
Definition set_paging (x : Paging) (q : QueryRequest) : QueryRequest :=
  {| q_collection := q_collection q; q_filter := q_filter q; q_search := q_search q; q_sort := q_sort q;
     q_select := q_select q; q_group_by := q_group_by q; q_aggregate := q_aggregate q;
     q_limit := q_limit q; q_cursor := q_cursor q; q_paging := x; q_allow_scan := q_allow_scan q |}.
Definition set_allow_scan (x : bool) (q : QueryRequest) : QueryRequest :=
  {| q_collection := q_collection q; q_filter := q_filter q; q_search := q_search q; q_sort := q_sort q;
     q_select := q_select q; q_group_by := q_group_by q; q_aggregate := q_aggregate q;
     q_limit := q_limit q; q_cursor := q_cursor q; q_paging := q_paging q; q_allow_scan := x |}.

(** The request so far and the fields read: one entry of the object. *)
Definition read_request_entry (r : QueryRequest * list string) (kv : string * value) : Wire (QueryRequest * list string) :=
  let store (update : Wire (QueryRequest → QueryRequest)) :=
    if known r.2 kv.1 then Err Derived else (λ f, (f r.1, kv.1 :: r.2)) <$> update in
  if bool_decide (kv.1 = "collection") then store (set_collection <$> read_string kv.2)
  else if bool_decide (kv.1 = "filter") then store (set_filter <$> read_filter kv.2)
  else if bool_decide (kv.1 = "search") then store (set_search <$> (optional read_text_search) kv.2)
  else if bool_decide (kv.1 = "sort") then store (set_sort <$> (read_list read_sort) kv.2)
  else if bool_decide (kv.1 = "select") then store (set_select <$> (read_list read_string) kv.2)
  else if bool_decide (kv.1 = "group_by") then store (set_group_by <$> (read_list read_string) kv.2)
  else if bool_decide (kv.1 = "aggregate") then store (set_aggregate <$> unique_aggregates kv.2)
  else if bool_decide (kv.1 = "limit") then store (set_limit <$> (optional read_usize) kv.2)
  else if bool_decide (kv.1 = "cursor") then store (set_cursor <$> (optional read_string) kv.2)
  else if bool_decide (kv.1 = "paging") then store (set_paging <$> read_paging kv.2)
  else if bool_decide (kv.1 = "allow_scan") then store (set_allow_scan <$> read_bool kv.2)
  else Err Derived.

Definition request_fields : list string :=
  ["collection"; "filter"; "search"; "sort"; "select"; "group_by"; "aggregate"; "limit"; "cursor"; "paging"; "allow_scan"].

Definition read_request (v : value) : Wire QueryRequest :=
  match v with
  | VObject l =>
      '(q, seen) ← try_fold read_request_entry (new_request "", []) l;
      if known seen "collection" then Ok q else Err Derived
  | VArray l =>
      '(q, seen) ← try_fold read_request_entry (new_request "", []) (zip request_fields l);
      if known seen "collection" && negb (length request_fields <? length l)%nat then Ok q else Err Derived
  | _ => Err Derived
  end.

(** ** Well-formed queries *)

Definition condition_values (c : Condition) : list value :=
  omap id [c_eq c; c_ne c; c_gt c; c_gte c; c_lt c; c_lte c; c_contains c] ++ default [] (c_in c) ++ default [] (c_nin c).

Definition condition_ok (c : Condition) : Prop := condition_is_empty c = false ∧ Forall maps_ok (condition_values c).

Inductive filter_ok : Filter → Prop :=
| filter_ok_intro fields conjuncts alternatives negated :
    map_Forall (λ path c, starts_with path "/" = true ∧ condition_ok c) fields →
    Forall filter_ok conjuncts → Forall filter_ok alternatives → (∀ g, negated = Some g → filter_ok g) →
    filter_ok (MkFilter fields conjuncts alternatives negated).

Definition sort_ok (s : Sort) : Prop := starts_with (sort_field s) "/" = true.

Definition aggregation_ok (a : Aggregation) : Prop :=
  match a_field a with None => a_function a = Count | Some field => field ≠ "*" end ∧
  ∀ z, a_scale a = Some z → (-9223372036854775808 ≤ z ≤ 9223372036854775807)%Z.

(** Paths are pointers, conditions say something, and numbers have their width. *)
Record request_ok (q : QueryRequest) : Prop := {
  ro_filter : filter_ok (q_filter q);
  ro_search : ∀ t n, q_search q = Some t → t_distance t = Some n → n ≤ 255;
  ro_sort : Forall sort_ok (q_sort q);
  ro_aggregate : map_Forall (λ _, aggregation_ok) (q_aggregate q);
  ro_limit : ∀ n, q_limit q = Some n → n ≤ u64_max;
}.

(** ** Values *)

Lemma loaded_members l m :
  map_sorted m → Forall (λ kv, maps_ok kv.2) m → Forall (λ kv, maps_ok (load_value kv.2)) l →
  maps_ok (VObject (foldl (λ m kv, obj_insert kv.1 (load_value kv.2) m) m l)).
Proof.
  intros Hs Hm Hl. revert m Hs Hm. induction Hl as [|[k v] l Hv Hl IH]; intros m Hs Hm; cbn [foldl fst snd].
  - cbn. split; [done|]. by apply (foldr_and_Forall (λ kv, maps_ok kv.2)).
  - apply IH; [by apply obj_insert_sorted|]. apply Forall_forall. intros [k' x] Hx.
    apply (map_sorted_lookup k' x) in Hx; [|by apply obj_insert_sorted]. rewrite obj_lookup_insert in Hx.
    case_bool_decide; [by simplify_eq|]. apply obj_lookup_elem in Hx. rewrite Forall_forall in Hm. by apply (Hm _ Hx).
Qed.

(** A value that is read has maps for objects. *)
Lemma load_value_ok v : maps_ok (load_value v).
Proof.
  induction v as [| | | |l IH|l IH] using value_rec_nested; try done; cbn [load_value].
  - cbn. apply (foldr_and_Forall maps_ok). by apply Forall_fmap.
  - apply loaded_members; [constructor|constructor|done].
Qed.

Lemma obj_insert_last k v m : Forall (λ y, key_lt y (k, v)) m → obj_insert k v m = m ++ [(k, v)].
Proof.
  induction 1 as [|[k' v'] m [Hle Hne] _ IH]; [done|]. cbn [obj_insert fst] in *.
  rewrite bool_decide_false by congruence. rewrite bool_decide_false; [by rewrite IH|].
  intros Hge. by apply Hne, (anti_symm String.le).
Qed.

Lemma load_members_id l m :
  map_sorted (m ++ l) → Forall (λ kv, load_value kv.2 = kv.2) l →
  foldl (λ m kv, obj_insert kv.1 (load_value kv.2) m) m l = m ++ l.
Proof.
  intros Hs Hl. revert m Hs. induction Hl as [|[k v] l Hv _ IH]; intros m Hs; cbn [foldl fst snd] in *; [by rewrite app_nil_r|].
  rewrite Hv, obj_insert_last.
  - rewrite IH, <-app_assoc; [done|]. by rewrite <-app_assoc.
  - clear IH. induction m as [|y m IHm]; [constructor|]. apply StronglySorted_inv in Hs as [Hs Hall]. constructor; [|by apply IHm].
    rewrite Forall_app, Forall_cons in Hall. tauto.
Qed.

(** A value that is written is read back. *)
Lemma load_value_id v : maps_ok v → load_value v = v.
Proof.
  induction v as [| | | |l IH|l IH] using value_rec_nested; try done; cbn [load_value maps_ok].
  - rewrite (foldr_and_Forall maps_ok). intros Hl. f_equal. apply list_eq_Forall2, Forall2_fmap_l, Forall_Forall2_diag.
    rewrite Forall_forall in *. auto.
  - rewrite (foldr_and_Forall (λ kv, maps_ok kv.2)). intros [Hs Hl]. f_equal. apply load_members_id; [done|].
    rewrite Forall_forall in *. auto.
Qed.

(** ** Numbers *)

Lemma digit_value_char d : d < 10 → digit_value (pretty_N_char d) = Some d.
Proof.
  intros Hd. assert (Hc : d = 0 ∨ d = 1 ∨ d = 2 ∨ d = 3 ∨ d = 4 ∨ d = 5 ∨ d = 6 ∨ d = 7 ∨ d = 8 ∨ d = 9) by lia.
  by repeat destruct Hc as [->|Hc]; subst.
Qed.

Lemma parse_pretty_go n s : parse_digits 0 (pretty_N_go n s) = parse_digits n s.
Proof.
  revert s. induction (N.lt_wf_0 n) as [n _ IH]; intros s. destruct (decide (n = 0)) as [->|Hn]; [by rewrite pretty_N_go_0|].
  rewrite pretty_N_go_step by lia. rewrite IH by (apply N.div_lt; lia). cbn [parse_digits].
  rewrite digit_value_char by (apply N.mod_lt; lia). cbn [mbind option_bind]. by rewrite <-N.div_mod'.
Qed.

Lemma parse_nat_pretty (n : N) : parse_nat (pretty n) = Some n.
Proof.
  unfold parse_nat. destruct (pretty n) as [|c s] eqn:Hp; [by pose proof (number_text_pretty n) as Ht; rewrite Hp in Ht|]. rewrite <-Hp.
  destruct (decide (n = 0)) as [->|Hn]; [done|]. unfold pretty, pretty_N. rewrite decide_False by done. apply parse_pretty_go.
Qed.

Lemma token_integer_pretty (n : N) : token_integer (pretty n) = Some (Z.of_N n).
Proof.
  pose proof (parse_nat_pretty n) as Hp. unfold token_integer.
  destruct (pretty n) as [|c s]; [done|]. destruct (decide (c = "-"%char)) as [->|Hc]; [done|].
  rewrite Hp. destruct c as [[] [] [] [] [] [] [] []]; done.
Qed.

Lemma token_integer_Z (z : Z) : token_integer (pretty z) = Some z.
Proof.
  destruct z as [|p|p]; [done|exact (token_integer_pretty (N.pos p))|].
  change (pretty (Z.neg p)) with (String "-" (pretty (N.pos p))). cbn [token_integer]. by rewrite parse_nat_pretty.
Qed.

Lemma read_i64_pretty (z : Z) : (-9223372036854775808 ≤ z ≤ 9223372036854775807)%Z → read_i64 (VNumber (pretty z)) = Ok z.
Proof.
  intros Hz. unfold read_i64, read_integer. rewrite token_integer_Z.
  destruct (Z.leb_spec (-9223372036854775808) z), (Z.leb_spec z 9223372036854775807); done || lia.
Qed.

Lemma read_natural high (n : N) : (Z.of_N n ≤ high)%Z → Z.to_N <$> read_integer 0 high (to_value n) = Ok n.
Proof.
  intros Hn. unfold read_integer, to_value, serialize_N. rewrite token_integer_pretty.
  destruct (Z.leb_spec 0 (Z.of_N n)), (Z.leb_spec (Z.of_N n) high); try lia. cbn. by rewrite N2Z.id.
Qed.

Lemma read_integer_bounds low high v z : read_integer low high v = Ok z → (low ≤ z ≤ high)%Z.
Proof.
  destruct v; try done. cbn. destruct (token_integer text) as [n|]; [|done].
  destruct (Z.leb_spec low n), (Z.leb_spec n high); try done. intros [= <-]. lia.
Qed.

Lemma optional_Some {A} (read : value → Wire A) v a : optional read v = Ok (Some a) → read v = Ok a.
Proof. destruct v; try done; by intros (y & -> & [= ->])%fmap_Ok. Qed.

(** ** Objects with optional entries *)

Lemma lookup_skip {A} k name (write : A → value) o l :
  bool_decide (k = name) = false → obj_lookup k (entry name write o ++ l) = obj_lookup k l.
Proof. intros Hk. destruct o; cbn; by rewrite ?Hk. Qed.

Lemma lookup_here {A} k (write : A → value) o l : obj_lookup k l = None → obj_lookup k (entry k write o ++ l) = write <$> o.
Proof. destruct o; cbn; [by rewrite bool_decide_true|done]. Qed.

Lemma known_elem names k : known names k = true ↔ k ∈ names.
Proof.
  unfold known. rewrite existsb_exists. setoid_rewrite <-list_elem_of_In. setoid_rewrite bool_decide_eq_true. naive_solver.
Qed.

Lemma distinct_antitone names seen seen' l : seen ⊆ seen' → distinct_known names seen' l = true → distinct_known names seen l = true.
Proof.
  revert seen seen'. induction l as [|[k v] l IH]; intros seen seen' Hs; [done|]. cbn [distinct_known].
  rewrite !andb_true_iff, !negb_true_iff, <-!not_true_iff_false, !known_elem. intros [[Hk Hn] Hl].
  split; [set_solver|]. eapply IH; [|exact Hl]. set_solver.
Qed.

Lemma distinct_entry {A} names seen name (write : A → value) o l :
  known names name = true → known seen name = false → distinct_known names (name :: seen) l = true →
  distinct_known names seen (entry name write o ++ l) = true.
Proof.
  intros Hk Hn Hl. destruct o; cbn [entry app distinct_known]; [by rewrite Hk, Hn, Hl|].
  eapply distinct_antitone; [|exact Hl]. set_solver.
Qed.

(** ** Conditions *)

Lemma operators_distinct c : distinct_known filter_operators [] (operator_entries c) = true.
Proof.
  unfold operator_entries. rewrite <-(app_nil_r (entry "contains" id (c_contains c))). by repeat apply distinct_entry.
Qed.

Ltac lookup_entries :=
  repeat first [reflexivity | rewrite lookup_skip by reflexivity | apply lookup_here].

Lemma operator_lookup {A} name (write : A → value) (o : option A) c :
  (name, write <$> o) ∈ [("eq", id <$> c_eq c); ("ne", id <$> c_ne c); ("gt", id <$> c_gt c); ("gte", id <$> c_gte c);
                         ("lt", id <$> c_lt c); ("lte", id <$> c_lte c); ("in", VArray <$> c_in c); ("nin", VArray <$> c_nin c);
                         ("exists", VBool <$> c_exists c); ("contains", id <$> c_contains c)] →
  obj_lookup name (operator_entries c) = write <$> o.
Proof.
  intros Hin. unfold operator_entries. rewrite <-(app_nil_r (entry "contains" id (c_contains c))).
  repeat (apply elem_of_cons in Hin as [[= -> ->]|Hin]; [lookup_entries|]). by apply elem_of_nil in Hin.
Qed.

Lemma present_slot o : (∀ v, o = Some v → maps_ok v) → defaulted read_present None (slot_of (id <$> o)) = Ok o.
Proof. destruct o as [v|]; [|done]. intros Hv. cbn. unfold read_present. by rewrite load_value_id by auto. Qed.

Lemma values_slot o :
  Forall maps_ok (default [] o) → defaulted (optional (read_list (λ v, Ok (load_value v)))) None (slot_of (VArray <$> o)) = Ok o.
Proof.
  destruct o as [l|]; [|done]. intros Hl. cbn [default fmap option_fmap option_map slot_of defaulted optional read_list] in *.
  apply fmap_Ok. exists l. split; [|done]. apply try_map_Ok, Forall_Forall2_diag.
  eapply Forall_impl; [exact Hl|]. intros v Hv. cbn. by rewrite load_value_id.
Qed.

Lemma exists_slot o : defaulted (optional read_bool) None (slot_of (VBool <$> o)) = Ok o.
Proof. by destruct o. Qed.

Lemma condition_value_ok c v :
  Forall maps_ok (condition_values c) → Some v ∈ [c_eq c; c_ne c; c_gt c; c_gte c; c_lt c; c_lte c; c_contains c] → maps_ok v.
Proof.
  unfold condition_values. rewrite !Forall_app. intros [Hv _] Hin. rewrite Forall_forall in Hv. apply Hv, list_elem_of_omap.
  by exists (Some v).
Qed.

Lemma condition_lists c :
  Forall maps_ok (condition_values c) →
  Forall maps_ok (omap id [c_eq c; c_ne c; c_gt c; c_gte c; c_lt c; c_lte c; c_contains c]) ∧
  Forall maps_ok (default [] (c_in c)) ∧ Forall maps_ok (default [] (c_nin c)).
Proof. unfold condition_values. by rewrite !Forall_app. Qed.

Lemma operators_round_trip c : Forall maps_ok (condition_values c) → read_operators (operator_entries c) = Ok c.
Proof.
  intros Hv. pose proof (condition_value_ok c) as Hs. unfold read_operators, struct_slots. rewrite operators_distinct. cbn [mbind result_bind].
  rewrite (operator_lookup "eq" id (c_eq c)), (operator_lookup "ne" id (c_ne c)), (operator_lookup "gt" id (c_gt c)),
    (operator_lookup "gte" id (c_gte c)), (operator_lookup "lt" id (c_lt c)), (operator_lookup "lte" id (c_lte c)),
    (operator_lookup "in" VArray (c_in c)), (operator_lookup "nin" VArray (c_nin c)), (operator_lookup "exists" VBool (c_exists c)),
    (operator_lookup "contains" id (c_contains c)) by (repeat first [by left | right]).
  pose proof Hv as (_ & Hin & Hnin)%condition_lists.
  rewrite !present_slot, !values_slot, exists_slot by (done || (intros v Hx; apply Hs; [done|rewrite Hx; repeat first [by left | right]])).
  by destruct c.
Qed.

Lemma shorthand_Some c v :
  shorthand c = Some v →
  is_composite v = false ∧
  c = {| c_eq := Some v; c_ne := None; c_gt := None; c_gte := None; c_lt := None; c_lte := None; c_in := None; c_nin := None;
         c_exists := None; c_contains := None |}.
Proof.
  destruct c as [[x|] ne gt gte lt lte any_of nin ex contains]; [|done]. cbn.
  destruct ne; [done|]. destruct gt; [done|]. destruct gte; [done|]. destruct lt; [done|]. destruct lte; [done|].
  destruct any_of; [done|]. destruct nin; [done|]. destruct ex; [done|]. destruct contains; [done|]. cbn. by destruct (is_composite x) eqn:Hx; intros [= <-].
Qed.

Lemma condition_round_trip c : condition_ok c → read_condition (to_value c) = Ok c.
Proof.
  intros [Hne Hv]. unfold to_value, serialize_Condition, condition_value. destruct (shorthand c) as [v|] eqn:Hc.
  - apply shorthand_Some in Hc as [Hx ->]. by destruct v.
  - unfold read_condition. by rewrite operators_round_trip, Hne.
Qed.

Lemma present_ok s o v : defaulted read_present None s = Ok o → o = Some v → maps_ok v.
Proof. destruct s; cbn; intros [= <-]; [|done..]. intros [= <-]. apply load_value_ok. Qed.

Lemma values_ok s o : defaulted (optional (read_list (λ v, Ok (load_value v)))) None s = Ok o → Forall maps_ok (default [] o).
Proof.
  destruct s as [v| |]; cbn; [|intros [= <-]; constructor..]. destruct v as [| | | |l|]; try done; cbn; [intros [= <-]; constructor|].
  intros (vs & Hl & ->)%fmap_Ok. cbn. apply try_map_Ok in Hl. induction Hl as [|x y l vs [= <-] _ IH]; constructor; [apply load_value_ok|done].
Qed.

Lemma present_list_ok (l : list (option value)) : Forall (λ o, ∀ v, o = Some v → maps_ok v) l → Forall maps_ok (omap id l).
Proof. induction 1 as [|[v|] l Ho _ IH]; csimpl; [constructor|constructor; auto|done]. Qed.

(** Every condition that is read is well formed. *)
Lemma read_operators_values l c : read_operators l = Ok c → Forall maps_ok (condition_values c).
Proof.
  unfold read_operators. intros Hr.
  apply bind_Ok in Hr as (slots & _ & Hr).
  repeat match type of Hr with
  | (_ ≫= _) = Ok _ => let o := fresh "o" in let Ho := fresh "Ho" in apply bind_Ok in Hr as (o & Ho & Hr)
  end.
  injection Hr as <-. unfold condition_values. cbn [c_eq c_ne c_gt c_gte c_lt c_lte c_in c_nin c_exists c_contains].
  rewrite !Forall_app. split_and!; [|by eapply values_ok..].
  apply present_list_ok. repeat constructor; match goal with
  | H : defaulted read_present None _ = Ok ?o |- ∀ v, ?o = Some v → _ => intros v; exact (present_ok _ _ v H)
  end.
Qed.

Lemma read_condition_ok v c : read_condition v = Ok c → condition_ok c.
Proof.
  unfold read_condition. destruct (match v with VObject l => read_operators l | _ => Err Derived end) as [c'|e] eqn:Hr.
  - destruct (condition_is_empty c') eqn:He; [done|]. intros [= <-]. split; [done|]. destruct v; try done. by eapply read_operators_values.
  - pose proof (load_value_ok v) as Hok. destruct (load_value v); try done; intros [= <-]; by split; [|repeat constructor].
Qed.

(** ** Filters *)

Definition reader_of (fields : gmap string Condition) (conjuncts alternatives : list Filter) (negated : option Filter)
    (seen : list string) : FilterReader :=
  {| fr_filter := MkFilter fields conjuncts alternatives negated; fr_seen := seen |}.

Lemma read_one_field read fields p c :
  starts_with p "/" = true → condition_ok c → fields !! p = None →
  read_filter_entry read (reader_of fields [] [] None []) (p, to_value c) = Ok (reader_of (<[p := c]> fields) [] [] None []).
Proof.
  intros Hp Hc Hf. unfold read_filter_entry, read_field. cbn [fst snd reader_of fr_filter ff_fields].
  rewrite Hp, Hf. by rewrite condition_round_trip.
Qed.

Lemma read_fields read l fields :
  NoDup l.*1 → Forall (λ pc, starts_with pc.1 "/" = true ∧ condition_ok pc.2) l → (∀ p, p ∈ l.*1 → fields !! p = None) →
  try_fold (λ r kv, read_filter_entry read r kv) (reader_of fields [] [] None []) ((λ pc, (pc.1, to_value pc.2)) <$> l) =
  Ok (reader_of (list_to_map l ∪ fields) [] [] None []).
Proof.
  intros Hnd Hok. revert fields. induction Hok as [|[p c] l [Hp Hc] _ IH]; intros fields Hf; [cbn; by rewrite (left_id_L ∅ (∪))|].
  rewrite fmap_cons in Hnd, Hf. apply NoDup_cons in Hnd as [Hn Hnd].
  rewrite fmap_cons, try_fold_cons, read_one_field by (done || apply Hf; by left). cbn [mbind result_bind]. rewrite IH; [|done|].
  - do 2 f_equal. rewrite list_to_map_cons, <-insert_union_l, insert_union_r; [done|]. by apply not_elem_of_list_to_map_1.
  - intros q Hq. rewrite lookup_insert_ne; [apply Hf; by right|]. intros Heq. apply Hn. cbn in Heq. cbn. by rewrite Heq.
Qed.

Lemma list_to_map_iter {V} (m : gmap string V) : list_to_map (map_iter m) = m.
Proof.
  apply map_eq. intros k. apply option_eq. intros v. rewrite <-elem_of_list_to_map by apply map_iter_NoDup. apply elem_of_map_iter.
Qed.

Lemma read_filters l :
  Forall (λ f, read_filter (filter_value f) = Ok f) l → try_map read_filter (filter_value <$> l) = Ok l.
Proof. intros Hl. apply try_map_Ok, Forall2_fmap_l, Forall_Forall2_diag, Hl. Qed.

(** The three combinators, each after those written before it. *)
Lemma read_and fields l seen :
  "and" ∉ seen → l ≠ [] → Forall (λ f, read_filter (filter_value f) = Ok f) l →
  read_filter_entry read_filter (reader_of fields [] [] None seen) ("and", VArray (filter_value <$> l)) =
  Ok (reader_of fields l [] None ("and" :: seen)).
Proof.
  intros Hs Hl Hr. unfold read_filter_entry, take_combinator, reader_of. cbn [fst snd fr_seen fr_filter].
  change (starts_with "and" "/") with false. rewrite !bool_decide_false, bool_decide_true by done.
  replace (known seen "and") with false by (symmetry; apply not_true_is_false; by rewrite known_elem).
  cbn. rewrite (read_filters l) by done. cbn. by destruct l.
Qed.

Lemma read_not fields conjuncts g seen :
  "not" ∉ seen → read_filter (filter_value g) = Ok g →
  read_filter_entry read_filter (reader_of fields conjuncts [] None seen) ("not", filter_value g) =
  Ok (reader_of fields conjuncts [] (Some g) ("not" :: seen)).
Proof.
  intros Hs Hg. unfold read_filter_entry, take_combinator, reader_of. cbn [fst snd fr_seen fr_filter].
  change (starts_with "not" "/") with false. rewrite bool_decide_true by done.
  replace (known seen "not") with false by (symmetry; apply not_true_is_false; by rewrite known_elem).
  cbn. by rewrite Hg.
Qed.

Lemma read_or fields conjuncts l negated seen :
  "or" ∉ seen → l ≠ [] → Forall (λ f, read_filter (filter_value f) = Ok f) l →
  read_filter_entry read_filter (reader_of fields conjuncts [] negated seen) ("or", VArray (filter_value <$> l)) =
  Ok (reader_of fields conjuncts l negated ("or" :: seen)).
Proof.
  intros Hs Hl Hr. unfold read_filter_entry, take_combinator, reader_of. cbn [fst snd fr_seen fr_filter].
  change (starts_with "or" "/") with false. rewrite !bool_decide_false, bool_decide_true by done.
  replace (known seen "or") with false by (symmetry; apply not_true_is_false; by rewrite known_elem).
  cbn. rewrite (read_filters l) by done. cbn. by destruct l.
Qed.

(** What [Filter::serialize] writes for the combinators. *)
Lemma read_combinators fields conjuncts alternatives negated :
  Forall (λ f, read_filter (filter_value f) = Ok f) conjuncts → Forall (λ f, read_filter (filter_value f) = Ok f) alternatives →
  (∀ g, negated = Some g → read_filter (filter_value g) = Ok g) →
  fr_filter <$> try_fold (λ r kv, read_filter_entry read_filter r kv) (reader_of fields [] [] None [])
    (match conjuncts with [] => [] | _ => [("and", VArray (filter_value <$> conjuncts))] end
     ++ match negated with None => [] | Some g => [("not", filter_value g)] end
     ++ match alternatives with [] => [] | _ => [("or", VArray (filter_value <$> alternatives))] end) =
  Ok (MkFilter fields conjuncts alternatives negated).
Proof.
  intros Hc Ha Hn.
  rewrite !try_fold_app. destruct conjuncts as [|f conjuncts]; [cbn [try_fold mbind result_bind]|
    rewrite try_fold_cons, read_and by (done || set_solver); cbn [try_fold mbind result_bind]];
  (destruct negated as [g|]; [rewrite try_fold_app, try_fold_cons, read_not by (auto || set_solver)|rewrite try_fold_app];
    cbn [try_fold mbind result_bind];
    (destruct alternatives as [|h alternatives]; [done|rewrite try_fold_cons, read_or by (done || set_solver); done])).
Qed.

Lemma filter_round_trip f : filter_ok f → read_filter (filter_value f) = Ok f.
Proof.
  induction f as [fields conjuncts alternatives negated IHc IHa IHn] using Filter_induction.
  intros Hf. inversion Hf as [? ? ? ? Hfields Hc Ha Hn]; subst. cbn [read_filter filter_value].
  rewrite try_fold_app. change new_reader with (reader_of ∅ [] [] None []). rewrite read_fields.
  - cbn [mbind result_bind]. rewrite list_to_map_iter, (right_id_L ∅ (∪)). apply read_combinators.
    + rewrite Forall_forall in *. auto.
    + rewrite Forall_forall in *. auto.
    + auto.
  - apply map_iter_NoDup.
  - apply Forall_forall. intros [p c] Hin. apply elem_of_map_iter in Hin. by apply (Hfields p c).
  - intros p _. apply lookup_empty.
Qed.

Lemma filter_ok_inv f :
  filter_ok f → map_Forall (λ path c, starts_with path "/" = true ∧ condition_ok c) (ff_fields f) ∧ Forall filter_ok (ff_and f) ∧
  Forall filter_ok (ff_or f) ∧ ∀ g, ff_not f = Some g → filter_ok g.
Proof. by intros []. Qed.

Lemma filter_default_ok : filter_ok filter_default.
Proof. by constructor. Qed.

Lemma read_field_ok r key v r' :
  starts_with key "/" = true → filter_ok (fr_filter r) → read_field r key v = Ok r' → filter_ok (fr_filter r').
Proof.
  intros Hk Hr. unfold read_field. destruct (ff_fields (fr_filter r) !! key); [done|].
  intros (c & Hc & [= <-])%bind_Ok. apply filter_ok_inv in Hr as (Hf & ? & ? & ?). constructor; [|done..].
  apply map_Forall_insert_2; [|done]. split; [done|]. by eapply read_condition_ok.
Qed.

Lemma take_combinator_Ok r key r' : take_combinator r key = Ok r' → fr_filter r' = fr_filter r.
Proof. unfold take_combinator. destruct (known _ _); [done|]. by intros [= <-]. Qed.

Lemma read_filter_entry_ok read r kv r' :
  (∀ f, read kv.2 = Ok f → filter_ok f) → (∀ l x f, kv.2 = VArray l → x ∈ l → read x = Ok f → filter_ok f) →
  filter_ok (fr_filter r) → read_filter_entry read r kv = Ok r' → filter_ok (fr_filter r').
Proof.
  intros Hread Hlist Hr. unfold read_filter_entry. destruct (starts_with kv.1 "/") eqn:Hs; [by apply read_field_ok|].
  destruct (bool_decide (kv.1 = "not")).
  - intros (r1 & Ht%take_combinator_Ok & (g & Hg & [= <-])%bind_Ok)%bind_Ok. cbn. rewrite Ht.
    apply filter_ok_inv in Hr as (? & ? & ? & ?). constructor; [done..|]. intros ? [= <-]. auto.
  - destruct (_ || _); [|done].
    intros (r1 & Ht%take_combinator_Ok & (l & Hl & (l' & Hn & [= <-])%bind_Ok)%bind_Ok)%bind_Ok. cbn. rewrite Ht.
    assert (l' = l) as -> by (destruct l; [done|by injection Hn]). apply filter_ok_inv in Hr as (? & ? & ? & ?).
    assert (Forall filter_ok l).
    { destruct kv as [k [| | | |vs|]]; try done. apply try_map_Ok in Hl. apply Forall_forall. intros f Hf.
      apply list_elem_of_lookup in Hf as [i Hi]. destruct (Forall2_lookup_r _ _ _ _ _ Hl Hi) as (x & Hx & Hxf).
      eapply Hlist; [done| |exact Hxf]. by eapply list_elem_of_lookup_2. }
    by case_bool_decide; constructor.
Qed.

(** Every filter that is read is well formed. *)
Lemma read_filter_ok v :
  (∀ f, read_filter v = Ok f → filter_ok f) ∧ (∀ l x f, v = VArray l → x ∈ l → read_filter x = Ok f → filter_ok f).
Proof.
  induction v as [| | | |l IH|l IH] using value_rec_nested; try done.
  - split; [done|]. intros l' x f [= <-] Hx. rewrite Forall_forall in IH. by apply (IH x Hx).
  - split; [|done]. cbn [read_filter]. intros f (r & Hr & ->)%fmap_Ok. rewrite Forall_forall in IH.
    eapply (try_fold_ind (λ r, filter_ok (fr_filter r)) _ _ new_reader); [apply filter_default_ok| |exact Hr].
    intros kv b b' Hin Hb. destruct (IH kv Hin). by apply read_filter_entry_ok.
Qed.

(** ** Sort keys, aggregates and searches *)

Lemma slash_no_dash s : starts_with s "/" = true → strip_prefix "-" s = None.
Proof.
  intros Hs. destruct (strip_prefix "-" s) as [r|] eqn:Hr; [|done]. apply strip_prefix_Some in Hr as ->. done.
Qed.

Lemma sort_round_trip s : sort_ok s → read_sort (to_value s) = Ok s.
Proof.
  destruct s as [field []]; unfold sort_ok; cbn [sort_field]; intros Hs; unfold read_sort, to_value, serialize_Sort, sort_value;
    cbn [sort_field sort_direction read_string mbind result_bind].
  - by rewrite slash_no_dash, Hs.
  - replace (strip_prefix "-" ("-" +:+ field)) with (Some field) by (symmetry; by apply strip_prefix_Some). by rewrite Hs.
Qed.

Lemma read_sort_ok v s : read_sort v = Ok s → sort_ok s.
Proof.
  intros (key & _ & Hs)%bind_Ok. destruct (strip_prefix "-" key) as [field|]; cbn in Hs;
    [destruct (starts_with field "/") eqn:Hf|destruct (starts_with key "/") eqn:Hf]; by simplify_eq.
Qed.

Lemma read_written_aggregation f field (scale : option Z) :
  read_aggregation (VObject ((function_name f, VString field) :: entry "scale" (λ z, VNumber (pretty z)) scale)) =
  (scale ← optional_slot read_i64 (slot_of ((λ z, VNumber (pretty z)) <$> scale)); named_aggregate f field scale).
Proof. destruct f, scale; reflexivity. Qed.

Lemma aggregation_round_trip a : aggregation_ok a → read_aggregation (to_value a) = Ok a.
Proof.
  destruct a as [f field scale]. intros [Hf Hs]. cbn [a_function a_field a_scale] in *.
  unfold to_value, serialize_Aggregation, aggregation_value. cbn [a_function a_field a_scale]. rewrite read_written_aggregation.
  replace (optional_slot read_i64 _) with (Ok scale : Wire (option Z)).
  - cbn [mbind result_bind]. unfold named_aggregate. destruct field as [field|]; cbn [default] in *; [by rewrite bool_decide_false|by subst f].
  - destruct scale as [z|]; [|done]. cbn [fmap option_fmap option_map slot_of optional_slot optional]. by rewrite read_i64_pretty by auto.
Qed.

Lemma read_aggregation_ok v a : read_aggregation v = Ok a → aggregation_ok a.
Proof.
  unfold read_aggregation. intros Hr. apply bind_Ok in Hr as (slots & _ & Hr).
  do 5 (apply bind_Ok in Hr as (? & _ & Hr)). apply bind_Ok in Hr as (scale & Hscale & Hr).
  assert (Hz : ∀ z, scale = Some z → (-9223372036854775808 ≤ z ≤ 9223372036854775807)%Z).
  { intros z ->. destruct (slots "scale") as [w| |]; try done.
    by apply optional_Some, read_integer_bounds in Hscale. }
  destruct (omap _ _) as [|[f field] [|]]; try done. unfold named_aggregate in Hr. case_bool_decide; [case_bool_decide|]; simplify_eq; by split.
Qed.

Lemma read_written_search index query mode distance :
  read_text_search (to_value {| t_index := index; t_query := query; t_mode := mode; t_distance := distance |}) =
  (distance ← defaulted (optional read_u8) None (slot_of (to_value <$> distance));
   Ok {| t_index := index; t_query := query; t_mode := mode; t_distance := distance |}).
Proof. destruct mode, distance; reflexivity. Qed.

Lemma search_round_trip t : (∀ n, t_distance t = Some n → n ≤ 255) → read_text_search (to_value t) = Ok t.
Proof.
  destruct t as [index query mode [n|]]; intros Hn; rewrite read_written_search; [|done]. cbn [t_distance] in Hn.
  cbn [fmap option_fmap option_map slot_of defaulted optional]. change (optional read_u8 (to_value n)) with (Some <$> read_u8 (to_value n)).
  unfold read_u8. rewrite read_natural; [done|]. specialize (Hn n eq_refl). lia.
Qed.

Lemma read_search_ok v t n : read_text_search v = Ok t → t_distance t = Some n → n ≤ 255.
Proof.
  unfold read_text_search. intros Hr. do 4 (apply bind_Ok in Hr as (? & _ & Hr)). apply bind_Ok in Hr as (d & Hd & [= <-]).
  cbn [t_distance]. intros ->. destruct (_ "distance") as [w| |]; try done.
  apply optional_Some in Hd. apply fmap_Ok in Hd as (z & Hz%read_integer_bounds & ->). lia.
Qed.

Lemma read_one_alias (m : gmap string Aggregation) k a :
  aggregation_ok a → m !! k = None → read_alias m (k, to_value a) = Ok (<[k := a]> m).
Proof.
  intros Ha Hk. unfold read_alias. change ((k, to_value a).2) with (to_value a). rewrite aggregation_round_trip by done.
  cbn [mbind result_bind fst]. by rewrite Hk.
Qed.

Lemma aggregates_round_trip l (m : gmap string Aggregation) :
  NoDup l.*1 → Forall (λ p, aggregation_ok p.2) l → (∀ k, k ∈ l.*1 → m !! k = None) →
  try_fold read_alias m ((λ p, (p.1, to_value p.2)) <$> l) = Ok (list_to_map l ∪ m).
Proof.
  intros Hnd Hok. revert m. induction Hok as [|[k a] l Ha _ IH]; intros m Hm; [cbn; by rewrite (left_id_L ∅ (∪))|].
  rewrite fmap_cons in Hnd, Hm. apply NoDup_cons in Hnd as [Hn Hnd]. 
  rewrite fmap_cons, try_fold_cons, read_one_alias by (done || apply Hm; by left). cbn [mbind result_bind]. rewrite IH; [|done|].
  - f_equal. rewrite list_to_map_cons, <-insert_union_l, insert_union_r; [done|]. by apply not_elem_of_list_to_map_1.
  - intros k' Hk'. rewrite lookup_insert_ne; [apply Hm; by right|]. intros Heq. apply Hn. by rewrite Heq.
Qed.

Lemma unique_aggregates_round_trip m : map_Forall (λ _, aggregation_ok) m → unique_aggregates (to_value m) = Ok m.
Proof.
  intros Hm. unfold unique_aggregates, to_value, serialize_string_map. rewrite aggregates_round_trip.
  - by rewrite list_to_map_iter, (right_id_L ∅ (∪)).
  - apply map_iter_NoDup.
  - apply Forall_forall. intros [k a] Hin%elem_of_map_iter. by apply (Hm k a).
  - intros k _. apply lookup_empty.
Qed.

Lemma unique_aggregates_ok v m : unique_aggregates v = Ok m → map_Forall (λ _, aggregation_ok) m.
Proof.
  destruct v as [| | | | |l]; try done. cbn [unique_aggregates]. apply (try_fold_ind (map_Forall (λ _, aggregation_ok))); [apply map_Forall_empty|].
  intros kv b b' _ Hb (a & Ha%read_aggregation_ok & Hr)%bind_Ok. destruct (b !! kv.1); [done|]. injection Hr as <-.
  by apply map_Forall_insert_2.
Qed.

(** ** Requests *)

(** Reading entries with these names, none read before, takes one request to the other. *)
Definition advances (names : list string) (l : list (string * value)) (q q' : QueryRequest) : Prop :=
  ∀ seen, (∀ n, n ∈ names → n ∉ seen) →
  ∃ seen', seen ⊆ seen' ∧ seen' ⊆ names ++ seen ∧ try_fold read_request_entry (q, seen) l = Ok (q', seen').

Lemma advances_app names1 names2 l1 l2 q q1 q2 :
  (∀ n, n ∈ names2 → n ∉ names1) → advances names1 l1 q q1 → advances names2 l2 q1 q2 → advances (names1 ++ names2) (l1 ++ l2) q q2.
Proof.
  intros Hd H1 H2 seen Hs. destruct (H1 seen) as (seen1 & Hin1 & Hout1 & Hr1); [set_solver|].
  destruct (H2 seen1) as (seen2 & Hin2 & Hout2 & Hr2); [set_solver|].
  exists seen2. split_and!; [set_solver..|]. rewrite try_fold_app, Hr1. exact Hr2.
Qed.

Lemma advances_skip names q q' : q' = q → advances names [] q q'.
Proof. intros -> seen _. exists seen. split_and!; [set_solver..|done]. Qed.

Lemma advances_entry k v g q :
  (∀ seen, read_request_entry (q, seen) (k, v) = if known seen k then Err Derived else Ok (g q, k :: seen)) →
  advances [k] [(k, v)] q (g q).
Proof.
  intros Hr seen Hs. exists (k :: seen). split_and!; [set_solver..|]. rewrite try_fold_cons, Hr.
  replace (known seen k) with false; [done|]. symmetry. apply not_true_is_false. rewrite known_elem. apply Hs. by left.
Qed.

Lemma is_all_default f : is_all f = true → f = filter_default.
Proof.
  destruct f as [fields [|] [|] [|]]; unfold is_all; cbn [ff_fields ff_and ff_or ff_not]; rewrite ?andb_false_r; try done.
  rewrite andb_true_r. by intros ->%bool_decide_eq_true.
Qed.

Lemma read_list_round_trip {A} `{Serialize A} (read : value → Wire A) l :
  Forall (λ a, read (to_value a) = Ok a) l → read_list read (to_value l) = Ok l.
Proof. intros Hl. apply try_map_Ok, Forall2_fmap_l, Forall_Forall2_diag, Hl. Qed.

Lemma strings_round_trip (l : list string) : read_list read_string (to_value l) = Ok l.
Proof. apply read_list_round_trip. by apply Forall_forall. Qed.

(** The segment of one field: skipped when the field has its default, or read back. *)
Ltac segment Hread :=
  apply advances_entry; intros seen; unfold read_request_entry; cbn [fst snd];
  repeat (rewrite bool_decide_false by done); rewrite bool_decide_true by done; rewrite Hread; by destruct (known seen _).

Section segments.
Variables (q r : QueryRequest).
Hypothesis Hq : request_ok q.

Lemma filter_segment :
  q_filter r = filter_default →
  advances ["filter"] (unless (is_all (q_filter q)) "filter" filter_value (q_filter q)) r (set_filter (q_filter q) r).
Proof.
  intros Hr. unfold unless. destruct (is_all (q_filter q)) eqn:Ha.
  - apply advances_skip. rewrite (is_all_default _ Ha), <-Hr. by destruct r.
  - segment (filter_round_trip _ (ro_filter _ Hq)).
Qed.

Lemma search_segment : q_search r = None → advances ["search"] (entry "search" to_value (q_search q)) r (set_search (q_search q) r).
Proof.
  intros Hr. destruct (q_search q) as [t|] eqn:Ht; [|apply advances_skip; rewrite <-Hr; by destruct r].
  assert (Hread : optional read_text_search (to_value t) = Ok (Some t)).
  { change (optional read_text_search (to_value t)) with (Some <$> read_text_search (to_value t)).
    rewrite search_round_trip; [done|]. intros n. by apply (ro_search _ Hq). }
  segment Hread.
Qed.

Lemma sort_segment : q_sort r = [] → advances ["sort"] (unless (is_nil_list (q_sort q)) "sort" to_value (q_sort q)) r (set_sort (q_sort q) r).
Proof.
  intros Hr. pose proof (ro_sort _ Hq) as Hs. destruct (q_sort q) as [|s l]; [apply advances_skip; rewrite <-Hr; by destruct r|].
  assert (Hread : read_list read_sort (to_value (s :: l)) = Ok (s :: l)).
  { apply read_list_round_trip. eapply Forall_impl; [exact Hs|apply sort_round_trip]. }
  segment Hread.
Qed.

Lemma select_segment :
  q_select r = [] → advances ["select"] (unless (is_nil_list (q_select q)) "select" to_value (q_select q)) r (set_select (q_select q) r).
Proof.
  intros Hr. destruct (q_select q) as [|s l]; [apply advances_skip; rewrite <-Hr; by destruct r|]. segment (strings_round_trip (s :: l)).
Qed.

Lemma group_by_segment :
  q_group_by r = [] →
  advances ["group_by"] (unless (is_nil_list (q_group_by q)) "group_by" to_value (q_group_by q)) r (set_group_by (q_group_by q) r).
Proof.
  intros Hr. destruct (q_group_by q) as [|s l]; [apply advances_skip; rewrite <-Hr; by destruct r|]. segment (strings_round_trip (s :: l)).
Qed.

Lemma aggregate_segment :
  q_aggregate r = ∅ →
  advances ["aggregate"] (unless (bool_decide (q_aggregate q = ∅)) "aggregate" to_value (q_aggregate q)) r (set_aggregate (q_aggregate q) r).
Proof.
  intros Hr. case_bool_decide as He; [apply advances_skip; rewrite He, <-Hr; by destruct r|].
  segment (unique_aggregates_round_trip _ (ro_aggregate _ Hq)).
Qed.

Lemma limit_segment : q_limit r = None → advances ["limit"] (entry "limit" to_value (q_limit q)) r (set_limit (q_limit q) r).
Proof.
  intros Hr. destruct (q_limit q) as [n|] eqn:Hn; [|apply advances_skip; rewrite <-Hr; by destruct r].
  assert (Hread : optional read_usize (to_value n) = Ok (Some n)).
  { change (optional read_usize (to_value n)) with (Some <$> read_usize (to_value n)). unfold read_usize.
    rewrite read_natural; [done|]. pose proof (ro_limit _ Hq n Hn) as Hm. unfold u64_max in Hm. lia. }
  segment Hread.
Qed.

Lemma cursor_segment : q_cursor r = None → advances ["cursor"] (entry "cursor" to_value (q_cursor q)) r (set_cursor (q_cursor q) r).
Proof.
  intros Hr. destruct (q_cursor q) as [s|]; [|apply advances_skip; rewrite <-Hr; by destruct r].
  segment (eq_refl : optional read_string (to_value s) = Ok (Some s)).
Qed.

Lemma paging_segment :
  q_paging r = PSnapshot →
  advances ["paging"] (unless (bool_decide (q_paging q = PSnapshot)) "paging" to_value (q_paging q)) r (set_paging (q_paging q) r).
Proof.
  intros Hr. destruct (q_paging q); [apply advances_skip; rewrite <-Hr; by destruct r|].
  segment (eq_refl : read_paging (to_value Seek) = Ok Seek).
Qed.

Lemma allow_scan_segment :
  q_allow_scan r = false →
  advances ["allow_scan"] (unless (negb (q_allow_scan q)) "allow_scan" to_value (q_allow_scan q)) r (set_allow_scan (q_allow_scan q) r).
Proof.
  intros Hr. destruct (q_allow_scan q); [|apply advances_skip; rewrite <-Hr; by destruct r].
  segment (eq_refl : read_bool (to_value true) = Ok true).
Qed.
End segments.

(** A request, one field after the other. *)
Definition rebuilt (q : QueryRequest) : QueryRequest :=
  set_allow_scan (q_allow_scan q) (set_paging (q_paging q) (set_cursor (q_cursor q) (set_limit (q_limit q)
  (set_aggregate (q_aggregate q) (set_group_by (q_group_by q) (set_select (q_select q) (set_sort (q_sort q)
  (set_search (q_search q) (set_filter (q_filter q) (set_collection (q_collection q) (new_request ""))))))))))).

Lemma rebuilt_id q : rebuilt q = q.
Proof. by destruct q. Qed.

Lemma written_advances q : request_ok q →
  ∃ l, to_value q = VObject (("collection", to_value (q_collection q)) :: l) ∧
       advances (tail request_fields) l (set_collection (q_collection q) (new_request "")) q.
Proof.
  intros Hq. eexists. split; [reflexivity|]. apply (eq_ind (rebuilt q) (advances _ _ _)); [|apply rebuilt_id].
  eapply (advances_app ["filter"]); [set_solver|by apply filter_segment|].
  eapply (advances_app ["search"]); [set_solver|by apply search_segment|].
  eapply (advances_app ["sort"]); [set_solver|by apply sort_segment|].
  eapply (advances_app ["select"]); [set_solver|by apply select_segment|].
  eapply (advances_app ["group_by"]); [set_solver|by apply group_by_segment|].
  eapply (advances_app ["aggregate"]); [set_solver|by apply aggregate_segment|].
  eapply (advances_app ["limit"]); [set_solver|by apply limit_segment|].
  eapply (advances_app ["cursor"]); [set_solver|by apply cursor_segment|].
  eapply (advances_app ["paging"]); [set_solver|by apply paging_segment|].
  by apply allow_scan_segment.
Qed.

Lemma read_written q : request_ok q → read_request (to_value q) = Ok q.
Proof.
  intros Hq. destruct (written_advances q Hq) as (l & -> & Hl). cbn [read_request].
  change (("collection", to_value (q_collection q)) :: l) with ([("collection", to_value (q_collection q))] ++ l).
  rewrite try_fold_app. change (try_fold read_request_entry (new_request "", []) [("collection", to_value (q_collection q))])
    with (Ok (set_collection (q_collection q) (new_request ""), ["collection"]) : Wire (QueryRequest * list string)).
  cbn [mbind result_bind]. destruct (Hl ["collection"]) as (seen' & Hin & _ & ->); [set_solver|].
  cbn [mbind result_bind]. replace (known seen' "collection") with true; [done|]. symmetry. apply known_elem. set_solver.
Qed.

(** One entry keeps a request well formed. *)
Lemma read_request_entry_ok r kv r' : request_ok r.1 → read_request_entry r kv = Ok r' → request_ok r'.1.
Proof.
  intros [Hf Ht Hs Ha Hl]. destruct r as [q seen], kv as [k v]. unfold read_request_entry. cbn [fst snd] in *.
  destruct (known seen k).
  { repeat case_bool_decide; done. }
  repeat (case_bool_decide; [intros (g & (x & Hx & ->)%fmap_Ok & ->)%fmap_Ok; split; cbn; try done|]); [..|done].
  - by apply read_filter_ok in Hx.
  - intros t n -> Hd. apply optional_Some in Hx. by eapply read_search_ok.
  - destruct v; try done. apply try_map_Ok in Hx. induction Hx as [|? ? ? ? Hy _ IH]; constructor; [by eapply read_sort_ok|done].
  - by eapply unique_aggregates_ok.
  - intros n ->. apply optional_Some in Hx. apply fmap_Ok in Hx as (z & Hz%read_integer_bounds & ->). unfold u64_max. lia.
Qed.

Lemma new_request_ok c : request_ok (new_request c).
Proof. split; [apply filter_default_ok|done|constructor|apply map_Forall_empty|done]. Qed.

Lemma read_is_ok v q : read_request v = Ok q → request_ok q.
Proof.
  assert (Hfold : ∀ l r, try_fold read_request_entry (new_request "", []) l = Ok r → request_ok r.1).
  { intros l r. apply (try_fold_ind (λ r, request_ok r.1)); [apply new_request_ok|]. intros kv b b' _. apply read_request_entry_ok. }
  destruct v as [| | | |l|l]; try done; cbn [read_request]; intros ([q' seen] & Hr%Hfold & Hq)%bind_Ok; cbn in Hr.
  - destruct (_ && _) in Hq; by simplify_eq.
  - destruct (known seen _) in Hq; by simplify_eq.
Qed.

(** C24. A well-formed query request is read back from the JSON it is written
    as: no default that is left out, no operator, combinator, sort direction,
    aggregate or option is lost or confused with another. *)
Theorem request_round_trip (q : QueryRequest) : request_ok q → read_request (to_value q) = Ok q.
Proof. apply read_written. Qed.

(** C25. Whatever JSON is accepted as a query request, the request has pointers
    for its paths, no empty condition, and numbers within their widths; and its
    own JSON form is read as the same request. *)
Theorem accepted_request_ok (v : value) (q : QueryRequest) :
  read_request v = Ok q → request_ok q ∧ read_request (to_value q) = Ok q.
Proof. intros Hq%read_is_ok. split; [done|by apply read_written]. Qed.

Module WireSample.
Definition bound : Condition :=
  {| c_eq := None; c_ne := None; c_gt := None; c_gte := Some (VNumber "10"); c_lt := Some (VNumber "100"); c_lte := None;
     c_in := None; c_nin := None; c_exists := None; c_contains := None |}.

Definition request : QueryRequest :=
  {| q_collection := "invoices"; q_filter := MkFilter {["/amount" := bound]} [] [] (Some filter_default);
     q_search := Some {| t_index := "body"; t_query := "tokyo"; t_mode := Fuzzy; t_distance := Some 2 |};
     q_sort := [{| sort_field := "/amount"; sort_direction := Desc |}]; q_select := ["/amount"]; q_group_by := [];
     q_aggregate := {["mean" := {| a_function := Avg; a_field := Some "/amount"; a_scale := Some 2%Z |}]};
     q_limit := Some 20; q_cursor := None; q_paging := Seek; q_allow_scan := true |}.

Lemma request_is_ok : request_ok request.
Proof.
  split; cbn [q_filter q_search q_sort q_aggregate q_limit request].
  - constructor; [|constructor|constructor|intros ? [= <-]; apply filter_default_ok].
    apply map_Forall_singleton. split; [done|]. split; [done|]. by repeat constructor.
  - intros t n [= <-] [= <-]. done.
  - by repeat constructor.
  - apply map_Forall_singleton. split; [done|]. intros z [= <-]. lia.
  - intros n [= <-]. done.
Qed.

Lemma request_round_trip_witness : request_ok request ∧ read_request (to_value request) = Ok request.
Proof. split; [exact request_is_ok|]. apply (request_round_trip request). exact request_is_ok. Defined.

Definition text : value :=
  VObject [("limit", VNumber "20"); ("collection", VString "invoices"); ("sort", VArray [VString "-/amount"]);
           ("filter", VObject [("or", VArray [VObject [("/status", VString "open")]; VObject [("/amount", VObject [("gt", VNumber "10")])]])])].

Lemma accepted_request_ok_witness : ∃ q, read_request text = Ok q ∧ request_ok q ∧ read_request (to_value q) = Ok q.
Proof.
  destruct (is_ok_Ok (read_request text)) as [q Hq]; [vm_compute; reflexivity|].
  exists q. split; [exact Hq|]. apply (accepted_request_ok text q). exact Hq.
Defined.
End WireSample.
